(* ===== verification/_CoqProject ===== *)
-Q . S2P
Prelude.v
HttpParser.v
HttpGrammar.v
HttpReply.v
HttpHandler.v
HttpServer.v
Server3.v
InvertTable.v
InvertTable2.v
ProduceConsume.v
LruCache.v
SmartPointers.v
EncodeConvert.v
AdSystem.v
HttpClient.v
Exp.v
WrapIO.v
Reactor.v
EchoServer.v
AsioServers.v
ForkSamples.v
AsioSamples.v
Chat.v
ChatClient.v
ThreadPool.v
PoolFutures.v
SimplePool.v
CPool.v
FileCopy.v
Philosophers.v
Tools.v
SysSamples.v
Multiplex.v
NetServers.v
NetClients.v
EpollClient.v
SimpleReactor.v
EdgeTrigger.v
ConcurrentServers.v
LineClients.v
LibeventHttp.v
Ipc.v
StlString.v
StlSamples.v
TryLock.v
