(* ===== verification/Prelude.v ===== *)
(** * Verification of the server and concurrency programs of learning_cpp

    The repository is a collection of C++ programs. This development models
    those with logic of their own and proves what makes them correct. Each file
    below is one component; the ones after it may use it.

    ** The parts and how they correspond to the sources

    - [Prelude] (this file): bytes, machine integers with their wrap-around,
      decimal numerals, C strings, lists, the tactics [bool_crush] and [by_bytes].

    The HTTP server, [boost/http_server]:
    - [HttpParser]: [request_parser.cpp], the parser of twenty states, one
      function per byte ([consume], in two halves [consume_line] and
      [consume_headers]), [parse] over a buffer and [parse_chunks] over the
      buffers a connection reads. [headers.back()] of an empty vector is [None].
    - [HttpGrammar]: the wire format of a request as data ([wire_request]), its
      printed form and its meaning, which is what the parser is checked against.
    - [HttpReply]: [reply.cpp] and [mime_types.cpp]; also the reader of a
      response, which says what a client makes of the bytes sent.
    - [HttpHandler]: [request_handler.cpp], [url_decode] with the stream
      extraction it is made of, the path checks, the 512-byte read loop. The
      file system is a parameter.
    - [HttpServer]: [connection.cpp], [connection_manager.cpp], [server.cpp].
      The class [RequestHandler] is what the server needs of a handler; the
      handler of [HttpHandler] is an instance. An event is a completion by the
      system or a handler run by [io_context::run].

    The advertising server, [ad_system]:
    - [Server3]: [server3/], the second copy of the parser with a three-valued
      verdict, the handler with a core worker, connections without a manager,
      handlers on the strands of a thread pool. The class [CoreWork] is
      [CoreWorkInterface]; its handler is another instance of [RequestHandler],
      and the connections are proved against the invariant of [HttpServer].
    - [EncodeConvert]: [common/encode_convert.cpp] and [CharConvertTool]: the two
      character set tests, the conversion with its buffer sizes, [UrlDecode].
      [iconv] is a parameter.
    - [AdSystem]: [common/globalHelper.cpp], [globalConfig.hpp],
      [serverWork.cpp], [serverframe.cpp]: ini files, splitting of requests, the
      worker, the start of the service. What the regular expressions find,
      [lexical_cast] and [boost::split] are parameters.

    - [HttpClient]: [server3/client], the asynchronous and the synchronous client,
      and both put together with the two servers.

    The other programs:
    - [InvertTable]: [invert/invert.hpp] and [invertCreator.cpp], the inverted
      index in memory and in its two files, byte by byte.
    - [InvertTable2]: [invert_table/], the second index, grouped by its first
      id, its creator and the table in memory; it reads and writes the same
      kind of files and shares the lemmas of [InvertTable] on them.
    - [ProduceConsume]: the four programs of [produce_consume/], one ring buffer
      and four arrangements of threads, as a step relation on whole critical
      sections, with notification and spurious wake-ups.
    - [LruCache]: [c++11/LRUCache.cpp], a list of nodes and a map of iterators.
    - [SmartPointers]: [c++11/01.smartPointer.cpp] and [02], counted and unique
      pointers, and the singletons of [Singleton/] and [ad_system/common].
    - [Exp]: [exp_*/exp.h] and [exp.cpp], a configuration of typed flags and
      its getters.
    - [WrapIO]: [Linux_Net/Reactor/wrap.c], the wrapped system calls.
    - [Reactor]: [Linux_Net/Reactor/02_epoll_loop.c], an echo server on epoll,
      whose callbacks, table and kernel state change together.
    - [EchoServer]: [boost/1.*.cpp] and [boost/async_tcp_echo_server.cpp]. The
      class [Allocator] is what a session needs of its handler memory; both
      programs are instances.
    - [AsioServers]: [boost/daytime3], [6] and [7], [boost/5...fork_daemon.cpp] and
      [process_per_connection.cpp]: what handlers keep alive, how a process becomes
      a daemon, and an echo server that forks.
    - [AsioSamples]: the timers ([time3], [4], [5]), the counted buffer ([2...]), the
      blocking echo programs and the synchronous daytime programs of [boost/].
    - [Chat], [ChatClient]: [boost/3.chat_message.hpp], [3.chat_server.cpp],
      [3.chat_client.cpp], the handlers of both programs and, as ghost fields,
      what went over each connection.
    - [ThreadPool]: the five C++ pools of [zl_threadpool], which differ in five
      points, the fields of [kind]; one of them is what becomes of null tasks.
    - [PoolFutures]: the futures of these pools, the tasks that are left over when
      they are destroyed, their sizes, and null tasks.
    - [SimplePool]: [01_simple_threadPool/threadPool.cpp], intrusive lists on a
      memory of cells, workers that free themselves and an owner that walks
      their list without the mutex.
    - [CPool]: [02_thread_pool/threadpool.c], a bounded ring of tasks with callers
      that wait for room, a thread that grows and shrinks the pool, and memory
      that is freed under the threads that use it; which arguments are blocks of
      [malloc] is a parameter, and freeing another one, or one twice, is undefined.
    - [FileCopy]: [file_cp/mult_thread_cp.c] and [mult_process_cp.c], a file
      copied by several threads, with a progress bar, or by several processes.
    - [Philosophers]: [philosopher_thread.c] and [philosopher_process.c], the dining
      philosophers, as a step relation.
    - [Tools]: [test/endianconv.c], [test/htons_is_big.c], [ipConvert.cpp] and
      [c_shell.c], byte order, addresses and the output of a command.
    - [Multiplex]: [Linux_Net/concurrent/moreIO_concurrent], the servers on select,
      poll and epoll ([server.c] of the three folders).
    - [NetServers]: [server.cpp] of [Linux_Net/02], [03] and [04], the C++ servers on
      select, poll and epoll, and what a buffer shared by their clients holds.
    - [NetClients]: [client.cpp] of [Linux_Net/02] and [03], both programs of
      [TCP_Server], and the keyboard loop of [01].
    - [EpollClient]: [client.cpp] of [Linux_Net/04], and, as a step relation on what is
      registered and ready on both sides, its dialogue with the server of [NetServers].
    - [SimpleReactor]: [Linux_Net/Reactor/01_simple_reactor.c], the first echo server
      on epoll, with callbacks and a buffer for each client.
    - [EdgeTrigger]: [Linux_Net/concurrent/moreIO_concurrent/epoll_ET_LT], two ways
      to read what [epoll_wait] reports once.
    - [ConcurrentServers]: [server.c] of [mult_process_concurrent] and
      [mult_thread_concurrent], a process or a thread for each connection.
    - [LineClients]: the C clients of [Linux_Net/concurrent], and [domain_socket] and
      [UDP] of [Linux_Net/TCP_Server]. The class [LineServer] is what a client needs
      of a server; six servers are instances.
    - [LibeventHttp]: [libevent/http-server.c] and [libevent/HTTP_SERVER/main.cpp],
      two servers on libevent, with what they acquire and release.
    - [Ipc]: [ipc/], processes that share a pipe, a named pipe, memory or a semaphore.
    - [StlString]: [stl/String.cpp], a class that owns an array of characters, on a
      memory in which objects alias, and [stl/StringSplit.cpp].
    - [TryLock]: [stl_16_4.cpp] to [stl_16_8.cpp] of [stl/], threads on a mutex, with a
      check of their code.
    - [StlSamples]: [stl_1.11.cpp] and [stl_16_3.cpp], copying lines, thread handles.
    - [ForkSamples]: the folder [linux...], orphans, zombies and a daemon.
    - [SysSamples]: [test_environ.c], [test_va_start.c], [madvise-test.c] of [test/],
      [readAndMmapTest.cpp] and [cpu_load.cpp].

    ** What the theorems show

    - Grammars and encodings: [parse_good_iff], [parse_chunks_concat],
      [parsers_agree], [version_exact_iff] (requests); [handle_request_roundtrip]
      (responses read back exactly); [url_decode_spec]; [charset_tests];
      [trim_spec], [exp_load_print], [exp_typed] (configurations); [ip_roundtrip],
      [intrev_involutive] (integers and addresses).
    - Functional behaviour: [handle_request_spec], [service_answers] (from the
      bytes of a request to the bytes of the answer of the worker),
      [client_server] (from the path a client asks for to what it prints),
      [session_prints] (from the keyboard through the server to the screen),
      [line_session] and [concurrent_clients] (the same for six pairs of programs),
      [udp_session] (with datagrams that are lost), [words_printed] (words printed by
      the server whatever its buffer holds), [poll_client_copies],
      [clients_read] (what it prints when the stream breaks off),
      [create_answers], [load_answers], [creator2_answers], [load2_answers],
      [lru_refines], [string_refines], [string_split].
    - Safety: [opened_paths_safe] (no file outside the document root),
      [parse_chunks_concat] (the parser has no undefined behaviour),
      [convert_safe_iff], [shutdown_safe_iff], [destroy_uaf_iff], [command_output],
      [callback_safe] (one answer, nothing leaked, no file outside the root),
      [httpd_handler_safe_iff], [served_docroot].
    - System calls that do part of the work: [writen_readn], [Readline_fgets],
      [reactor_echo], [reactor_idle], [echo_server].
    - Files and times: [copies_lines], [read_file_made], [spt_init_contiguous],
      [cpu_load_times].
    - Memory: [counted_pointers] (counts, no dangling pointer, no leak without a
      circle), [unique_pointers].
    - Copying: [thread_copy] (every interleaving), [process_copy] (exactly which
      bytes are lost).
    - Concurrency, for every interleaving: [responses_correct],
      [connections_tracked], [shutdown_terminates], [server3_correct],
      [produce_consume_terminates], [chat_delivers],
      [chat_end_to_end], [pool_runs_tasks], [pool_shutdown], [futures_settled],
      [simple_pool_correct], [simple_pool_stops], [cpool_correct], [cpool_fixed],
      [cpool_shutdown], [process_philosophers], [thread_philosophers],
      [process_server] (no zombies and no descriptor left open), [thread_server],
      [timers_count] (two handlers on a strand), [refcounted_server],
      [singleton_once] (one object whatever the number of threads),
      [checked_threads] (code that never misuses a mutex), [fork_samples],
      [daytime_servers], [daemon_ready], [process_per_connection], [pipe_complete], [fifo_lines], [shm_shown], [sem_set].
    - Event loops: [select_server], [poll_server] (every client that is ready is
      served in each round, whatever happened before), [select_server5],
      [epoll_replies], [epoll_alone] (which text a client sees or gets),
      [simple_reactor_echo]; [edge_lag] and [noblock_prints] (what is left unread).
    - Defects: [recreate_answers_iff] (an inverted table created twice),
      [load2_answers] (the cache of the second table is never filled),
      [version_exact_iff] (overflow of a version number), [convert_safe_iff]
      (two bytes past a heap block), [charset_tests] (an untested byte, and lead bytes
      that no UTF-8 has),
      [trim_spec] (a text of one character is lost), [exp_load_print] (the
      header after the section default), [Readline_fgets] (its length for a full
      buffer), [shutdown_safe_iff] (a lost wake-up in three of the pools),
      [destroy_uaf_iff] (freed memory read), the examples of [CPool] (a pool
      freed under its threads, a task nobody takes, a join that never returns,
      arguments freed that must not be), [null_strands] (null tasks end the workers),
      [large_files] (offsets that overflow),
      [select_server] (a descriptor too large for the set), [reads_again] and
      [closes_twice] (an index used twice), [string_refines] (null strings, a string
      appended to itself, lost arrays), [split_forever], [select_server5] (at most
      five clients ever), [poll_serves_stdin] (every client is lost),
      [epoll_replies] (clients get each other's bytes), [full_table] (the server stops
      accepting), [unchecked_unlock] and [adopted_once] (a mutex unlocked by a thread
      that does not hold it), [daemond_overruns], [typed_ahead] (a line not sent), [edge_lag] (writer and reader wait for each other). The lemmas [decoders_agree] (a
      read past the end, for a trailing percent sign) and [null_worker_iff] say
      two more.

    ** Conventions, fuel and bounds

    A byte is an [ascii], a string or buffer a list of them; [schar] and [uchar]
    are its values as the (signed) [char] and the [unsigned char] of the
    platform. [int] and [size_t] are [Z] with [int32] and [size_t] applied where
    the code may wrap. [None] is undefined behaviour or an absent value, as each
    definition says; where it is undefined behaviour a theorem says when it
    happens. Recursions with fuel are given more than they can use: one unit per
    byte of input ([read_all], [isGBK], [lines_of], [frames]) or per system call
    still scripted ([WrapIO]), which their specifications prove to be enough, and
    one per bit for decimal digits.

    Threads are interleaved at the points where the code lets another thread in:
    critical sections, handlers and strands are single steps. Ghost fields
    (received, sent, posted, submitted, ...) record history and no operation
    reads them.

    ** What is not modelled

    Boost.Asio, Boost.Regex, iconv, the kernel and the file system appear through
    what is documented of them. Logging and sleeping are left out, and so is
    console output unless a component says what a program prints. Threads see one
    order of writes; where the language leaves an overlap undefined, [undefined] says so.
    Where the platform settles what the language does not, the platform is followed: an
    [int] that overflows wraps ([push_digit]) unless a definition says that it is
    undefined ([fill_args], [EpollClient]), and the address of the first element of an
    empty vector, of which no byte is used, is defined ([writeInvert]). A write to a connection that the client
    has reset, which can kill a process by SIGPIPE, is modelled in [NetClients] and
    [LineClients] and left out in [Multiplex]; the allocations of libevent succeed.
    The remaining programs are demonstrations of library calls, tests, copies of
    modelled files and of libevent, or generated files. *)
From stdpp Require Export base list strings gmap sets relations sorting.
From Stdlib Require Export Ascii ZArith Lia.

(** ** Bytes, characters and strings *)

(** A [std::string], [char] buffer or wire fragment is a list of bytes. *)
Abbreviation str := (list ascii).

(** The bytes of a string literal. *)
Definition lit (s : string) : str := String.list_ascii_of_string s.

(** [unsigned char] and (on the x86 targets of the makefiles, signed) [char]
    promoted to [int]. *)
Definition uchar (c : ascii) : Z := Z.of_N (N_of_ascii c).
Definition schar (c : ascii) : Z := if (uchar c <? 128)%Z then uchar c else (uchar c - 256)%Z.

(** [static_cast<char>(z)]: the low eight bits. *)
Definition to_char (z : Z) : ascii := ascii_of_N (Z.to_N (z mod 256)%Z).

Definition SP : ascii := " "%char.
Definition HT : ascii := "009"%char.
Definition CR : ascii := "013"%char.
Definition LF : ascii := "010"%char.
Definition NUL : ascii := "000"%char.
Definition CRLF : str := [CR; LF].

(** ** Machine integers *)

(** Two's complement wrap-around at 32 bits ([int]) and the unsigned
    wrap-arounds of [uint32_t] and [size_t]. *)
Definition int32 (z : Z) : Z := ((z + 2 ^ 31) mod 2 ^ 32 - 2 ^ 31)%Z.
Definition uint32 (z : Z) : Z := (z mod 2 ^ 32)%Z.
Definition size_t (z : Z) : Z := (z mod 2 ^ 64)%Z.
Definition in_int32 (z : Z) : Prop := (- 2 ^ 31 <= z < 2 ^ 31)%Z.

(** ** Tactics of the development *)

(** Splits every boolean test in the goal and the hypotheses and turns the
    outcome into the proposition it decides. *)
Ltac bool_crush :=
  repeat match goal with
  | H : context [ (?a <? ?b)%Z ] |- _ => destruct (Z.ltb_spec a b)
  | H : context [ (?a <=? ?b)%Z ] |- _ => destruct (Z.leb_spec a b)
  | H : context [ (?a =? ?b)%Z ] |- _ => destruct (Z.eqb_spec a b)
  | |- context [ (?a <? ?b)%Z ] => destruct (Z.ltb_spec a b)
  | |- context [ (?a <=? ?b)%Z ] => destruct (Z.leb_spec a b)
  | |- context [ (?a =? ?b)%Z ] => destruct (Z.eqb_spec a b)
  end; simpl in *.

(** Case analysis on the innermost [match] or [if] of the goal or of a
    hypothesis, as often as there is one. *)
Ltac case_step :=
  match goal with
  | |- context [ match ?x with _ => _ end ] =>
      lazymatch x with context [ match _ with _ => _ end ] => fail | _ => destruct x eqn:? end
  | H : context [ match ?x with _ => _ end ] |- _ =>
      lazymatch x with context [ match _ with _ => _ end ] => fail | _ => destruct x eqn:? end
  end.
Ltac case_crush := repeat (case_step; simplify_eq/=; try done).

(** ** Generic lemmas *)

Create HintDb cpp.
Create Rewrite HintDb bytes.

Lemma uchar_range c : (0 <= uchar c < 256)%Z.
Proof.
  unfold uchar. split; [lia|].
  assert (N_of_ascii c < 256)%N by apply N_ascii_bounded. lia.
Qed.

Lemma schar_range c : (-128 <= schar c < 128)%Z.
Proof. unfold schar. pose proof (uchar_range c). bool_crush; lia. Qed.

Lemma to_char_uchar c : to_char (uchar c) = c.
Proof.
  unfold to_char. pose proof (uchar_range c).
  rewrite Z.mod_small by lia. unfold uchar.
  rewrite N2Z.id. apply ascii_N_embedding.
Qed.

Lemma uchar_to_char z : uchar (to_char z) = (z mod 256)%Z.
Proof.
  unfold to_char, uchar. pose proof (Z.mod_pos_bound z 256).
  rewrite N_ascii_embedding; lia.
Qed.

Lemma to_char_schar c : to_char (schar c) = c.
Proof.
  rewrite <- (to_char_uchar c) at 2. unfold to_char, schar.
  bool_crush; [done|].
  replace (uchar c - 256)%Z with (uchar c + (-1) * 256)%Z by lia.
  by rewrite Z_mod_plus_full.
Qed.

Lemma schar_inj c d : schar c = schar d -> c = d.
Proof. intros H. by rewrite <- (to_char_schar c), H, to_char_schar. Qed.

Lemma int32_id z : in_int32 z -> int32 z = z.
Proof. unfold in_int32, int32. intros. rewrite Z.mod_small; lia. Qed.

Lemma int32_range z : in_int32 (int32 z).
Proof. unfold in_int32, int32. pose proof (Z.mod_pos_bound (z + 2 ^ 31) (2 ^ 32)). lia. Qed.

(** Wrapping an intermediate result does not change the wrapped total, so a
    chain of [int] operations may be wrapped once at the end. *)
Lemma int32_mul_add a k b : int32 (int32 a * k + b) = int32 (a * k + b).
Proof.
  unfold int32. f_equal.
  set (m := ((a + 2 ^ 31) / 2 ^ 32)%Z).
  assert ((a + 2 ^ 31) mod 2 ^ 32 = a + 2 ^ 31 - 2 ^ 32 * m)%Z as -> by
    (rewrite Z.mod_eq by lia; done).
  replace ((a + 2 ^ 31 - 2 ^ 32 * m - 2 ^ 31) * k + b + 2 ^ 31)%Z
    with (a * k + b + 2 ^ 31 + (- m * k) * 2 ^ 32)%Z by ring.
  by rewrite Z_mod_plus_full.
Qed.

#[export] Hint Resolve uchar_range schar_range int32_range : cpp.
#[export] Hint Rewrite to_char_uchar uchar_to_char to_char_schar : bytes.

(** A one-byte fact over all 256 values is decided by evaluation. *)
Definition all_ascii : list ascii := ascii_of_nat <$> seq 0 256.

Lemma all_ascii_complete c : c ∈ all_ascii.
Proof.
  apply list_elem_of_fmap. exists (nat_of_ascii c).
  rewrite ascii_nat_embedding. split; [done|].
  apply elem_of_seq. pose proof (nat_ascii_bounded c). lia.
Qed.

Lemma forall_ascii (P : ascii -> Prop) `{!forall c, Decision (P c)} :
  forallb (fun c => bool_decide (P c)) all_ascii = true -> forall c, P c.
Proof.
  intros Hall c. rewrite forallb_forall in Hall.
  specialize (Hall c). rewrite <- list_elem_of_In in Hall.
  by apply (bool_decide_eq_true_1 _), Hall, all_ascii_complete.
Qed.

(** Proves a decidable fact about one byte by trying every byte. *)
Ltac by_bytes :=
  match goal with |- forall c : ascii, @?P c => apply (forall_ascii P) end; vm_compute; reflexivity.

(** ** Characters *)

(** [::tolower] in the C locale. *)
Definition tolower (c : ascii) : ascii :=
  if ((65 <=? uchar c) && (uchar c <=? 90))%Z then to_char (uchar c + 32) else c.

Lemma tolower_idem : forall c, tolower (tolower c) = tolower c.
Proof. by_bytes. Qed.

(** ** Decimal numerals ([std::to_string], [lexical_cast], [%d]) *)

Definition digit_char (d : N) : ascii := ascii_of_N (48 + d).

Fixpoint dec_digits (fuel : nat) (n : N) (acc : str) : str :=
  match fuel with
  | O => acc
  | S f =>
      let acc' := digit_char (n mod 10) :: acc in
      if (n / 10 =? 0)%N then acc' else dec_digits f (n / 10) acc'
  end.

(** One more digit than the binary size always suffices. *)
Definition to_string (n : N) : str := dec_digits (S (N.to_nat (N.size n))) n [].

(** Value of a run of decimal digits, most significant first. *)
Definition dec_value (s : str) : Z := foldl (fun acc c => acc * 10 + (schar c - 48))%Z 0%Z s.

Definition is_digit_char (c : ascii) : Prop := (48 <= schar c <= 57)%Z.
#[export] Instance is_digit_char_dec c : Decision (is_digit_char c).
Proof. unfold is_digit_char. apply _. Defined.

Lemma dec_value_app s t : dec_value (s ++ t) = foldl (fun acc c => acc * 10 + (schar c - 48))%Z (dec_value s) t.
Proof. unfold dec_value. by rewrite foldl_app. Qed.

Lemma dec_value_snoc s c : dec_value (s ++ [c]) = (dec_value s * 10 + (schar c - 48))%Z.
Proof. by rewrite dec_value_app. Qed.

Lemma digit_char_value d : (d < 10)%N -> schar (digit_char d) = (48 + Z.of_N d)%Z.
Proof.
  intros. unfold schar, uchar, digit_char.
  rewrite N_ascii_embedding by lia. bool_crush; lia.
Qed.

Lemma dec_digits_S f n acc :
  dec_digits (S f) n acc =
    if (n / 10 =? 0)%N then digit_char (n mod 10) :: acc
    else dec_digits f (n / 10) (digit_char (n mod 10) :: acc).
Proof. done. Qed.

(** [dec_digits] prepends the digits of [n] to the accumulator. *)
Lemma dec_digits_spec f n acc :
  (n < 2 ^ N.of_nat f)%N ->
  exists ds, dec_digits (S f) n acc = ds ++ acc /\ ds <> [] /\
    Forall is_digit_char ds /\ dec_value ds = Z.of_N n.
Proof.
  revert n acc. induction f as [|f IH]; intros n acc Hf; rewrite dec_digits_S.
  all: assert (n mod 10 < 10)%N as Hm by (apply N.mod_lt; lia).
  all: pose proof (digit_char_value _ Hm) as Hd.
  all: pose proof (N.div_mod n 10 ltac:(lia)) as Hdm.
  all: assert (is_digit_char (digit_char (n mod 10))) as Hdig
    by (unfold is_digit_char; rewrite Hd; revert Hm; generalize (n mod 10)%N; lia).
  all: destruct (N.eqb_spec (n / 10) 0) as [H0|H0].
  1, 3: exists [digit_char (n mod 10)]; split_and!; [done|done|by constructor|];
    rewrite <- (app_nil_l [_]), dec_value_snoc, Hd; change (dec_value []) with 0%Z;
    apply (f_equal Z.of_N) in Hdm; rewrite H0, N2Z.inj_add in Hdm;
    revert Hdm; generalize (Z.of_N (n mod 10)); lia.
  - exfalso. apply H0. change (2 ^ N.of_nat 0)%N with 1%N in Hf.
    apply N.lt_1_r in Hf as ->. done.
  - destruct (IH (n / 10)%N (digit_char (n mod 10) :: acc)) as (ds & -> & Hne & Hds & Hv).
    { rewrite Nat2N.inj_succ, N.pow_succ_r' in Hf. apply N.Div0.div_lt_upper_bound. lia. }
    exists (ds ++ [digit_char (n mod 10)]).
    rewrite <- app_assoc. split_and!; [done| | |].
    + intros Hnil. by apply app_eq_nil in Hnil as [].
    + by apply Forall_app; split; [|constructor].
    + rewrite dec_value_snoc, Hv, Hd.
      apply (f_equal Z.of_N) in Hdm. rewrite N2Z.inj_add, N2Z.inj_mul in Hdm.
      revert Hdm. generalize (Z.of_N (n / 10)) (Z.of_N (n mod 10)). lia.
Qed.

Lemma to_string_spec n :
  to_string n <> [] /\ Forall is_digit_char (to_string n) /\ dec_value (to_string n) = Z.of_N n.
Proof.
  unfold to_string.
  destruct (dec_digits_spec (N.to_nat (N.size n)) n []) as (ds & -> & H).
  { rewrite N2Nat.id. apply N.size_gt. }
  by rewrite app_nil_r.
Qed.

Lemma to_string_digits n : Forall is_digit_char (to_string n).
Proof. apply to_string_spec. Qed.

Lemma to_string_ne n : to_string n <> [].
Proof. apply to_string_spec. Qed.

(** Reading the decimal numeral back gives the number. *)
Lemma dec_value_to_string n : dec_value (to_string n) = Z.of_N n.
Proof. apply to_string_spec. Qed.

Lemma length_dec_digits f n acc : length (dec_digits f n acc) <= f + length acc.
Proof.
  revert n acc. induction f as [|f IH]; intros n acc; cbn [dec_digits]; [lia|]. case_match; [cbn; lia|].
  etrans; [apply IH|]. cbn. lia.
Qed.

Lemma length_to_string n : length (to_string n) <= S (N.to_nat (N.size n)).
Proof. etrans; [apply length_dec_digits|]. cbn. lia. Qed.

(** ** Little-endian 32-bit integers in memory and in files *)

Definition le32 (z : Z) : str := [to_char z; to_char (z / 256); to_char (z / 65536); to_char (z / 16777216)].
Definition of_le32 (a b c d : ascii) : Z :=
  int32 (uchar a + 256 * uchar b + 65536 * uchar c + 16777216 * uchar d).

Lemma of_le32_le32 z :
  of_le32 (to_char z) (to_char (z / 256)) (to_char (z / 65536)) (to_char (z / 16777216)) = int32 z.
Proof.
  unfold of_le32. rewrite !uchar_to_char. unfold int32. f_equal.
  change (2 ^ 32)%Z with (256 * (256 * (256 * 256)))%Z.
  change 65536%Z with (256 * 256)%Z. change 16777216%Z with (256 * (256 * 256))%Z.
  rewrite <- !Z.div_div by lia.
  pose proof (Z.div_mod z 256 ltac:(lia)). pose proof (Z.div_mod (z / 256) 256 ltac:(lia)).
  pose proof (Z.div_mod (z / 256 / 256) 256 ltac:(lia)).
  pose proof (Z.div_mod (z / 256 / 256 / 256) 256 ltac:(lia)).
  set (q := (z / 256 / 256 / 256 / 256)%Z) in *.
  replace (z + 2 ^ 31)%Z with
    (z mod 256 + 256 * ((z / 256) mod 256) + 256 * 256 * ((z / 256 / 256) mod 256) +
     256 * (256 * 256) * ((z / 256 / 256 / 256) mod 256) + 2 ^ 31 + q * (256 * (256 * (256 * 256))))%Z by lia.
  by rewrite Z_mod_plus_full.
Qed.

(** ** Lists *)

Lemma filter_none {A} (P : A -> Prop) `{!forall x, Decision (P x)} (l : list A) :
  (forall x, x ∈ l -> ~ P x) -> filter P l = [].
Proof.
  induction l as [|x l IH]; intros Hl; [done|]. rewrite filter_cons.
  rewrite decide_False by (apply Hl; set_solver). apply IH. intros y Hy. apply Hl. set_solver.
Qed.

Lemma filter_all {A} (P : A -> Prop) `{!forall x, Decision (P x)} (l : list A) :
  (forall x, x ∈ l -> P x) -> filter P l = l.
Proof.
  induction l as [|x l IH]; intros Hl; [done|]. rewrite filter_cons.
  rewrite decide_True by (apply Hl; set_solver). f_equal. apply IH. intros y Hy. apply Hl. set_solver.
Qed.

Lemma Forall_sublist_le {A} (P : A -> Prop) l k : l `sublist_of` k -> Forall P k -> Forall P l.
Proof.
  intros Hs Hk. apply Forall_forall. intros x Hx. rewrite Forall_forall in Hk. apply Hk.
  eapply elem_of_submseteq; [exact Hx|]. by apply sublist_submseteq.
Qed.

Lemma elem_insert {A} (x : A) (l : list A) (i : nat) y : x ∈ <[i := y]> l -> x = y \/ x ∈ l.
Proof.
  intros (j & Hj)%list_elem_of_lookup. apply list_lookup_insert_Some in Hj as [(_ & -> & _)|[_ Hj]]; [by left|].
  right. apply list_elem_of_lookup. by exists j.
Qed.

(** Weighted sums compared element by element, and bounded. *)
Lemma weight_le {A} (f g : A -> nat) l : (forall x, f x <= g x) -> sum_list (f <$> l) <= sum_list (g <$> l).
Proof.
  intros H. induction l as [|x l IH]; [cbn; lia|]. rewrite !fmap_cons. specialize (H x).
  cbn [sum_list sum_list_with foldr id]. lia.
Qed.

Lemma weight_bound {A} (f : A -> nat) k l : (forall x, f x <= k) -> sum_list (f <$> l) <= k * length l.
Proof.
  intros H. induction l as [|x l IH]; [cbn; lia|]. rewrite fmap_cons. specialize (H x).
  cbn [sum_list sum_list_with foldr id length]. lia.
Qed.

(** Replacing an element in a weighted sum. *)
Lemma weight_insert {A} (f : A -> nat) l i x y :
  l !! i = Some x -> sum_list (f <$> <[i := y]> l) + f x = sum_list (f <$> l) + f y.
Proof.
  revert i. induction l as [|z l IH]; intros [|i] Hi; try done.
  - injection Hi as ->. cbn. lia.
  - specialize (IH i Hi). change (<[S i:=y]> (z :: l)) with (z :: <[i:=y]> l).
    rewrite !fmap_cons. cbn [sum_list sum_list_with foldr id]. lia.
Qed.

(** The choice of [f] from a list, after one place of it has changed. *)
Lemma omap_at {A B} (f : A -> option B) (l : list A) i x :
  l !! i = Some x ->
  exists rest, omap f l ≡ₚ option_list (f x) ++ rest /\
    forall x', omap f (<[i := x']> l) ≡ₚ option_list (f x') ++ rest.
Proof.
  intros Hi. apply list_elem_of_split_length in Hi as (l1 & l2 & -> & ->).
  exists (omap f l1 ++ omap f l2).
  assert (forall x, omap f (l1 ++ x :: l2) ≡ₚ option_list (f x) ++ omap f l1 ++ omap f l2) as H.
  { intros x'. rewrite omap_app. cbn. destruct (f x'); cbn; [|done]. by rewrite Permutation_middle. }
  split; [apply H|]. intros x'. rewrite insert_app_r_alt, Nat.sub_diag by done. apply H.
Qed.

(** ** C strings *)

(** The bytes a C string stands for: up to the first NUL. *)
Fixpoint c_str (s : str) : str :=
  match s with
  | [] => []
  | c :: s' => if decide (c = NUL) then [] else c :: c_str s'
  end.

Lemma c_str_id s : NUL ∉ s -> c_str s = s.
Proof.
  induction s as [|c s IH]; [done|]. intros [Hc Hs]%not_elem_of_cons. cbn [c_str].
  rewrite decide_False by congruence. by rewrite IH.
Qed.

Lemma c_str_app s t : NUL ∉ s -> c_str (s ++ t) = s ++ c_str t.
Proof.
  induction s as [|c s IH]; [done|]. intros [Hc Hs]%not_elem_of_cons. cbn [app c_str].
  rewrite decide_False by congruence. by rewrite IH.
Qed.

Lemma c_str_prefix s : exists t, s = c_str s ++ t.
Proof.
  induction s as [|c s [t IH]]; [by exists []|]. cbn [c_str]. case_decide.
  - by exists (c :: s).
  - exists t. cbn [app]. by f_equal.
Qed.

Lemma length_c_str s : length (c_str s) <= length s.
Proof. destruct (c_str_prefix s) as [t Ht]. rewrite Ht at 2. rewrite length_app. lia. Qed.

Lemma c_str_no_nul s : NUL ∉ c_str s.
Proof.
  induction s as [|c s IH]; cbn [c_str]; [apply not_elem_of_nil|]. case_decide; [apply not_elem_of_nil|].
  by apply not_elem_of_cons.
Qed.

Lemma removelast_nul (s : str) : NUL ∉ s -> NUL ∉ removelast s.
Proof.
  intros Hs Hin. destruct s as [|c s]; [done|]. apply Hs.
  rewrite (app_removelast_last NUL (l := c :: s)) by done. apply elem_of_app. by left.
Qed.

(** ** Numbers in text *)

(** White space of the classic locale. *)
Definition isspace (c : ascii) : bool := (9 <=? uchar c)%Z && (uchar c <=? 13)%Z || bool_decide (c = SP).

Fixpoint skip_ws (s : str) : str :=
  match s with
  | c :: s' => if isspace c then skip_ws s' else s
  | [] => []
  end.

(** The value of the leading decimal digits. *)
Fixpoint dec_run (acc : Z) (s : str) : Z :=
  match s with
  | c :: s' => if bool_decide (is_digit_char c) then dec_run (acc * 10 + (schar c - 48)) s' else acc
  | [] => acc
  end.

(** [std::atoi]: white space, a sign, digits; the result of [strtol], which
    stays within 64 bits, is cut to an [int]. *)
Definition atoi (s : str) : Z :=
  let v := match skip_ws s with
           | c :: s' =>
               if decide (c = "-"%char) then (- dec_run 0 s')%Z
               else if decide (c = "+"%char) then dec_run 0 s'
               else dec_run 0 (c :: s')
           | [] => 0%Z
           end in
  int32 (Z.max (- 2 ^ 63) (Z.min v (2 ^ 63 - 1))).

(** [%d] with a minimal width. *)
Definition format_int (width : nat) (z : Z) : str :=
  let digits := if (z <? 0)%Z then "-"%char :: to_string (Z.to_N (- z)) else to_string (Z.to_N z) in
  replicate (width - length digits) SP ++ digits.

(** [%02d]. *)
Definition two_digits (z : Z) : str :=
  let d := format_int 0 z in
  if (z <? 0)%Z then d else replicate (2 - length d) "0"%char ++ d.

Lemma nul_not_digit s : Forall is_digit_char s -> NUL ∉ s.
Proof. intros Hs Hin. rewrite Forall_forall in Hs. specialize (Hs NUL Hin). revert Hs. unfold is_digit_char. vm_compute. intros []. contradiction. Qed.

Lemma two_digits_nul n : (0 <= n)%Z -> NUL ∉ two_digits n.
Proof.
  intros Hn. unfold two_digits, format_int. destruct (Z.ltb_spec n 0); [lia|]. cbn [Nat.sub replicate app].
  intros [Hin|Hin]%elem_of_app; [by apply elem_of_replicate in Hin as [? _]|].
  revert Hin. apply nul_not_digit, to_string_digits.
Qed.

(** For numbers of two digits it is two digits. *)
Lemma two_digits_spec z : (0 <= z < 100)%Z ->
  length (two_digits z) = 2 /\ Forall is_digit_char (two_digits z) /\ dec_value (two_digits z) = z.
Proof.
  intros Hz. assert (Hall : Forall (fun z => length (two_digits z) = 2 /\ Forall is_digit_char (two_digits z) /\ dec_value (two_digits z) = z) (seqZ 0 100)).
  { apply (bool_decide_eq_true_1 _). vm_compute. reflexivity. }
  rewrite Forall_forall in Hall. apply Hall, elem_of_seqZ. lia.
Qed.

(** ** Lines *)

(** [fgets(line, n + 1, fp)]: at most [n] characters, up to and including a
    line feed; what is left in the stream. *)
Fixpoint fgets (n : nat) (s : str) : str * str :=
  match n, s with
  | O, _ => ([], s)
  | _, [] => ([], [])
  | S n', c :: s' =>
      if decide (c = LF) then ([c], s')
      else let '(l, rest) := fgets n' s' in (c :: l, rest)
  end.

Lemma fgets_spec n s l rest :
  fgets n s = (l, rest) -> s = l ++ rest /\ length l <= n /\ (l = [] -> n = 0 \/ s = []).
Proof.
  revert s l rest. induction n as [|n IH]; intros s l rest.
  { destruct s; intros [= <- <-]; split_and!; cbn; auto with lia. }
  destruct s as [|c s]; [intros [= <- <-]; split_and!; cbn; auto with lia|]. cbn [fgets].
  case_decide; [intros [= <- <-]; split_and!; cbn; [done|lia|done]|].
  destruct (fgets n s) as [l' r'] eqn:Hg. intros [= <- <-]. destruct (IH s l' r' Hg) as (-> & Hl & _).
  split_and!; cbn; [done|lia|done].
Qed.

(** ** Files *)

(** What each path holds; [None] where there is no file. *)
Definition files := str -> option str.
Definition write_file (fs : files) (path data : str) : files :=
  fun q => if decide (q = path) then Some data else fs q.

(** [fopen] for reading: the path that the handle reads. *)
Definition open_read (fs : files) (path : str) : option str := path' ← fs path; Some path.

(** ** Calls that may not return *)

(** [exits]: the process ends with this status; [undefined]: the behaviour is
    not defined by the language. *)
Inductive outcome (A : Type) := returns (a : A) | exits (code : Z) | undefined.
Arguments returns {A}. Arguments exits {A}. Arguments undefined {A}.

#[export] Instance returns_inj {A} : Inj (=) (=) (@returns A).
Proof. by intros x y [= ->]. Qed.

Definition bind_outcome {A B} (m : outcome A) (f : A -> outcome B) : outcome B :=
  match m with returns a => f a | exits c => exits c | undefined => undefined end.
Definition map_outcome {A B} (g : A -> B) (m : outcome A) : outcome B := bind_outcome m (fun a => returns (g a)).

(** The states of a program that is told something in each round, which its
    surroundings can say in that state. *)
Section reached.
Context {S R : Type} (start : S) (reports : S -> R -> Prop) (step : R -> S -> outcome S).
Inductive reached : S -> Prop :=
  | reached_start : reached start
  | reached_round st r st' : reached st -> reports st r -> step r st = returns st' -> reached st'.
End reached.

(** An invariant of the rounds holds of what is reached. *)
Lemma reached_inv {S R} (start : S) reports (step : R -> S -> outcome S) (inv : S -> Prop) :
  inv start -> (forall st r st', inv st -> reports st r -> step r st = returns st' -> inv st') ->
  forall st, reached start reports step st -> inv st.
Proof. intros H0 Hstep st H. induction H; eauto. Qed.

(** The same for steps that are taken in any order; a step that cannot be taken in a
    state is [None]. *)
Section runs.
Context {S E : Type} (step : E -> S -> option (outcome S)).

Fixpoint run (es : list E) (st : S) : option (outcome S) :=
  match es with
  | [] => Some (returns st)
  | e :: es' => o ← step e st; match o with returns st' => run es' st' | _ => Some o end
  end.

(** What every step keeps holds in every run, and no run is undefined. *)
Lemma runs_inv (P : E -> Prop) (inv : S -> Prop) :
  (forall e st o, P e -> inv st -> step e st = Some o -> exists st', o = returns st' /\ inv st') ->
  forall es st o, Forall P es -> inv st -> run es st = Some o -> exists st', o = returns st' /\ inv st'.
Proof.
  intros Hstep es. induction es as [|e es IH]; intros st o Hp Hi; cbn; [intros [= <-]; by exists st|].
  inversion Hp; subst. destruct (step e st) as [o'|] eqn:He; [|done]. cbn.
  destruct (Hstep e st o') as (st' & -> & Hst'); [done..|]. by apply IH.
Qed.

(** A number that every step decreases bounds the length of a run. *)
Lemma runs_bound (inv : S -> Prop) (f : S -> nat) :
  (forall e st o, inv st -> step e st = Some o -> exists st', o = returns st' /\ inv st' /\ f st' < f st) ->
  forall es st st', inv st -> run es st = Some (returns st') -> length es + f st' <= f st.
Proof.
  intros Hstep es. induction es as [|e es IH]; intros st st' Hi; cbn; [intros [= ->]; lia|].
  destruct (step e st) as [o|] eqn:He; [|done]. cbn. destruct (Hstep e st o) as (st1 & -> & Hst1 & Hlt); [done..|].
  intros H. apply IH in H; [lia|done].
Qed.

End runs.
