(* ===== verification/HttpParser.v ===== *)
(** * HttpParser: the incremental HTTP request parser

    Models [boost/http_server/header.hpp], [request.hpp], [request_parser.hpp]
    and [request_parser.cpp]: the request under construction, the twenty parser
    states, the character classes, [consume] (one byte) and [parse] (a buffer).

    [headers.back()] on an empty vector is undefined behaviour in C++; the
    model makes it visible as [None], and [parse_chunks_concat] shows that it is never
    reached from a freshly constructed parser. *)
From S2P Require Import Prelude.

(** ** Data *)

Record header := Header { name : str; value : str }.

Record request := Request {
  method : str;
  uri : str;
  http_version_major : Z;
  http_version_minor : Z;
  headers : list header }.

(** The parser states, in the order of the [enum]; the primed-looking suffix
    [_s] keeps them apart from the request's fields. *)
Inductive state :=
  | method_start | method_s | uri_s
  | http_version_h | http_version_t_1 | http_version_t_2 | http_version_p
  | http_version_slash | http_version_major_start | http_version_major_s
  | http_version_minor_start | http_version_minor_s
  | expecting_newline_1 | header_line_start | header_lws | header_name
  | space_before_header_value | header_value | expecting_newline_2
  | expecting_newline_3.

Inductive result_type := good | bad | indeterminate.

#[export] Instance header_eq_dec : EqDecision header.
Proof. solve_decision. Defined.
#[export] Instance request_eq_dec : EqDecision request.
Proof. solve_decision. Defined.
#[export] Instance state_eq_dec : EqDecision state.
Proof. solve_decision. Defined.
#[export] Instance result_type_eq_dec : EqDecision result_type.
Proof. solve_decision. Defined.

(** ** Character classes; the argument is the [char] promoted to [int] *)

Definition is_char (c : Z) : bool := ((0 <=? c) && (c <=? 127))%Z.
Definition is_ctl (c : Z) : bool := (((0 <=? c) && (c <=? 31)) || (c =? 127))%Z.

(** The nineteen characters of the [switch]; 34 is the double quote, 92 the
    backslash and 9 the tab. *)
Definition tspecials : list Z :=
  (schar <$> lit "()<>@,;:") ++ [92; 34]%Z ++ (schar <$> lit "/[]?={} ") ++ [9]%Z.
Definition is_tspecial (c : Z) : bool := existsb (Z.eqb c) tspecials.
Definition is_digit (c : Z) : bool := ((48 <=? c) && (c <=? 57))%Z.

(** ** Updates of the request *)

Definition push_method (req : request) (c : ascii) : request :=
  Request (method req ++ [c]) (uri req) (http_version_major req) (http_version_minor req) (headers req).
Definition push_uri (req : request) (c : ascii) : request :=
  Request (method req) (uri req ++ [c]) (http_version_major req) (http_version_minor req) (headers req).
Definition set_versions (req : request) (maj min : Z) : request :=
  Request (method req) (uri req) maj min (headers req).
Definition set_headers (req : request) (hs : list header) : request :=
  Request (method req) (uri req) (http_version_major req) (http_version_minor req) hs.

(** [v * 10 + input - '0'] in [int]. *)
Definition push_digit (v : Z) (c : ascii) : Z := int32 (v * 10 + schar c - 48).

(** [req.headers.push_back(header()); req.headers.back().name.push_back(c)]. *)
Definition new_header (req : request) (c : ascii) : request :=
  set_headers req (headers req ++ [Header [c] []]).

(** An update of [req.headers.back()]; [None] when there is no last element. *)
Definition with_back (req : request) (f : header -> header) : option request :=
  match rev (headers req) with
  | [] => None
  | h :: hs => Some (set_headers req (rev hs ++ [f h]))
  end.
Definition push_name (req : request) (c : ascii) : option request :=
  with_back req (fun h => Header (name h ++ [c]) (value h)).
Definition push_value (req : request) (c : ascii) : option request :=
  with_back req (fun h => Header (name h) (value h ++ [c])).

(** ** The parser *)

Definition is_token (c : ascii) : bool :=
  negb (negb (is_char (schar c)) || is_ctl (schar c) || is_tspecial (schar c)).

(** [request_parser()] and [reset()]. *)
Definition request_parser : state := method_start.
Definition reset (_ : state) : state := method_start.

(** What [consume] leaves behind: its result, the state and the request. *)
Definition step_result : Type := result_type * state * request.

(** Continue in state [st] with request [req]; stay where we are and refuse. *)
Definition go (st : state) (req : request) : option step_result := Some (indeterminate, st, req).
Definition refuse (st : state) (req : request) : option step_result := Some (bad, st, req).

(** The [switch] up to the end of the request line. *)
Definition consume_line (st : state) (req : request) (input : ascii) : option step_result :=
  let c := schar input in
  match st with
  | method_start =>
      if negb (is_char c) || is_ctl c || is_tspecial c then refuse st req
      else go method_s (push_method req input)
  | method_s =>
      if decide (input = SP) then go uri_s req
      else if negb (is_char c) || is_ctl c || is_tspecial c then refuse st req
      else go st (push_method req input)
  | uri_s =>
      if decide (input = SP) then go http_version_h req
      else if is_ctl c then refuse st req
      else go st (push_uri req input)
  | http_version_h =>
      if decide (input = "H"%char) then go http_version_t_1 req else refuse st req
  | http_version_t_1 =>
      if decide (input = "T"%char) then go http_version_t_2 req else refuse st req
  | http_version_t_2 =>
      if decide (input = "T"%char) then go http_version_p req else refuse st req
  | http_version_p =>
      if decide (input = "P"%char) then go http_version_slash req else refuse st req
  | http_version_slash =>
      if decide (input = "/"%char) then go http_version_major_start (set_versions req 0 0)
      else refuse st req
  | http_version_major_start =>
      if is_digit c then
        go http_version_major_s
           (set_versions req (push_digit (http_version_major req) input) (http_version_minor req))
      else refuse st req
  | http_version_major_s =>
      if decide (input = "."%char) then go http_version_minor_start req
      else if is_digit c then
        go st (set_versions req (push_digit (http_version_major req) input) (http_version_minor req))
      else refuse st req
  | http_version_minor_start =>
      if is_digit c then
        go http_version_minor_s
           (set_versions req (http_version_major req) (push_digit (http_version_minor req) input))
      else refuse st req
  | http_version_minor_s =>
      if decide (input = CR) then go expecting_newline_1 req
      else if is_digit c then
        go st (set_versions req (http_version_major req) (push_digit (http_version_minor req) input))
      else refuse st req
  | expecting_newline_1 =>
      if decide (input = LF) then go header_line_start req else refuse st req
  | _ => refuse st req
  end.

(** The [switch] from the first header line on. *)
Definition consume_headers (st : state) (req : request) (input : ascii) : option step_result :=
  let c := schar input in
  match st with
  | header_line_start =>
      if decide (input = CR) then go expecting_newline_3 req
      else if negb (bool_decide (headers req = [])) && bool_decide (input = SP \/ input = HT) then
        go header_lws req
      else if negb (is_char c) || is_ctl c || is_tspecial c then refuse st req
      else go header_name (new_header req input)
  | header_lws =>
      if decide (input = CR) then go expecting_newline_2 req
      else if decide (input = SP \/ input = HT) then go st req
      else if is_ctl c then refuse st req
      else req' ← push_value req input; go header_value req'
  | header_name =>
      if decide (input = ":"%char) then go space_before_header_value req
      else if negb (is_char c) || is_ctl c || is_tspecial c then refuse st req
      else req' ← push_name req input; go st req'
  | space_before_header_value =>
      if decide (input = SP) then go header_value req else refuse st req
  | header_value =>
      if decide (input = CR) then go expecting_newline_2 req
      else if is_ctl c then refuse st req
      else req' ← push_value req input; go st req'
  | expecting_newline_2 =>
      if decide (input = LF) then go header_line_start req else refuse st req
  | expecting_newline_3 =>
      Some (if decide (input = LF) then good else bad, st, req)
  | _ => refuse st req
  end.

Definition consume (st : state) (req : request) (input : ascii) : option step_result :=
  match st with
  | header_line_start | header_lws | header_name | space_before_header_value | header_value
  | expecting_newline_2 | expecting_newline_3 => consume_headers st req input
  | _ => consume_line st req input
  end.

(** [parse]: the result, the parser state and request after the last byte
    consumed, and what is left of the input. *)
Fixpoint parse (st : state) (req : request) (input : str)
  : option (result_type * state * request * str) :=
  match input with
  | [] => Some (indeterminate, st, req, [])
  | c :: rest =>
      '(r, st', req') ← consume st req c;
      match r with
      | good | bad => Some (r, st', req', rest)
      | indeterminate => parse st' req' rest
      end
  end.

Definition empty_request (maj min : Z) : request := Request [] [] maj min [].

(** ** Invariant: [headers.back()] is only used when there is a header *)

Definition in_header (st : state) : bool :=
  match st with
  | header_lws | header_name | space_before_header_value | header_value
  | expecting_newline_2 => true
  | _ => false
  end.

(** The well-formedness of a parser together with its request: a header is
    there in every state that appends to it, and the version numbers are
    values of type [int]. *)
Definition parser_ok (st : state) (req : request) : Prop :=
  (in_header st = true -> headers req <> []) /\
  in_int32 (http_version_major req) /\ in_int32 (http_version_minor req).

Lemma with_back_snoc req hs h f :
  headers req = hs ++ [h] -> with_back req f = Some (set_headers req (hs ++ [f h])).
Proof. intros H. unfold with_back. by rewrite H, rev_app_distr; simpl; rewrite rev_involutive. Qed.

Lemma with_back_ok req f :
  headers req <> [] ->
  exists hs h, headers req = hs ++ [h] /\ with_back req f = Some (set_headers req (hs ++ [f h])).
Proof.
  intros Hne. destruct (exists_last Hne) as (hs & h & Hh).
  exists hs, h. split; [done|]. by apply with_back_snoc.
Qed.

(** Splits [consume] into its branches, one goal per path through the [switch]. *)
Ltac consume_cases st :=
  destruct st; cbn [consume consume_line consume_headers]; cbv zeta; repeat case_match; unfold go, refuse, push_name, push_value.

Lemma push_digit_range v c : in_int32 (push_digit v c).
Proof. apply int32_range. Qed.

Lemma snoc_ne {A} (l : list A) x : l ++ [x] <> [].
Proof. intros H. by apply app_eq_nil in H as []. Qed.
#[local] Hint Resolve snoc_ne : cpp.

(** One byte never reaches undefined behaviour and keeps the parser well formed. *)
Lemma consume_ok st req c :
  parser_ok st req ->
  exists r st' req', consume st req c = Some (r, st', req') /\ parser_ok st' req'.
Proof.
  intros (Hh & Hmaj & Hmin).
  assert (forall f, in_header st = true ->
    exists hs h, headers req = hs ++ [h] /\ with_back req f = Some (set_headers req (hs ++ [f h]))) as Hb.
  { intros f Hst. by apply with_back_ok, Hh. }
  consume_cases st; cbn [in_header] in *.
  all: try (match goal with |- context [with_back _ ?f] =>
              destruct (Hb f eq_refl) as (hs & h & _ & ->) end; cbn [mbind option_bind]).
  all: do 3 eexists; split; [reflexivity|].
  all: split_and!; cbn; try done; auto using push_digit_range, snoc_ne.
  all: try (unfold in_int32; lia).
  intros _ Hnil. by match goal with H : negb _ && _ = true |- _ => rewrite Hnil in H end.
Qed.

Lemma parse_ok st req input :
  parser_ok st req ->
  exists r st' req' rest, parse st req input = Some (r, st', req', rest) /\ parser_ok st' req'.
Proof.
  revert st req. induction input as [|c input IH]; intros st req Hok.
  { by eexists _, _, _, _. }
  destruct (consume_ok st req c Hok) as (r & st' & req' & Hc & Hok').
  cbn [parse]. rewrite Hc. cbn [mbind option_bind].
  destruct r; [by eexists _, _, _, _..|]. by apply IH.
Qed.

(** ** Chunks: the position of buffer boundaries does not matter *)

Lemma parse_app_aux st req a b :
  parse st req (a ++ b) =
    '(r, st', req', rest) ← parse st req a;
    match r with
    | indeterminate => parse st' req' b
    | _ => Some (r, st', req', rest ++ b)
    end.
Proof.
  revert st req. induction a as [|c a IH]; intros st req; [done|].
  cbn [app parse]. destruct (consume st req c) as [[[r st'] req']|]; [|done].
  cbn [mbind option_bind]. destruct r; [done..|apply IH].
Qed.

(** [parse] consumes a prefix, and all of it while it asks for more. *)
Lemma parse_rest_suffix st req input r st' req' rest :
  parse st req input = Some (r, st', req', rest) ->
  exists used, input = used ++ rest /\ (r = indeterminate -> rest = []).
Proof.
  revert st req. induction input as [|c input IH]; intros st req.
  { intros [= <- <- <- <-]. by exists []. }
  cbn [parse]. destruct (consume st req c) as [[[r1 st1] req1]|]; [|done].
  cbn [mbind option_bind]. destruct r1.
  1, 2: intros [= <- <- <- <-]; by exists [c].
  intros (used & -> & H)%IH. by exists (c :: used).
Qed.

(** Feeding the buffers a connection reads, one after the other, until the
    parser has decided. *)
Fixpoint parse_chunks (st : state) (req : request) (chunks : list str)
  : option (result_type * state * request * str) :=
  match chunks with
  | [] => Some (indeterminate, st, req, [])
  | chunk :: chunks' =>
      '(r, st', req', rest) ← parse st req chunk;
      match r with
      | indeterminate => parse_chunks st' req' chunks'
      | _ => Some (r, st', req', rest ++ concat chunks')
      end
  end.

Lemma parse_total a b input :
  exists r st req used rest,
    parse request_parser (empty_request (int32 a) (int32 b)) input = Some (r, st, req, rest) /\
    input = used ++ rest /\ (r = indeterminate -> rest = []).
Proof.
  destruct (parse_ok request_parser (empty_request (int32 a) (int32 b)) input) as (r & st & req & rest & Hp & _).
  { split_and!; [done|apply int32_range..]. }
  destruct (parse_rest_suffix _ _ _ _ _ _ _ Hp) as (used & Hin & Hr).
  by exists r, st, req, used, rest.
Qed.

Lemma parse_chunks_eq st req chunks : parse_chunks st req chunks = parse st req (concat chunks).
Proof.
  revert st req. induction chunks as [|chunk chunks IH]; intros st req; [done|].
  cbn [parse_chunks concat]. rewrite parse_app_aux.
  destruct (parse st req chunk) as [[[[r st'] req'] rest]|]; [|done].
  cbn [mbind option_bind]. destruct r; [done..|apply IH].
Qed.

(** ** Properties *)

(** how the bytes are split into buffers does not matter: feeding any
    chunks in turn gives the verdict, the state, the request and the unread
    bytes that parsing them in one piece gives. From a fresh parser no input
    reaches the undefined behaviour of [headers.back()] on an empty vector; the
    parser always returns, having consumed a prefix of the input, and all of it
    while it asks for more. *)
Theorem parse_chunks_concat st req chunks :
  parse_chunks st req chunks = parse st req (concat chunks) /\
  forall a b input, exists r st' req' used rest,
    parse request_parser (empty_request (int32 a) (int32 b)) input = Some (r, st', req', rest) /\
    input = used ++ rest /\ (r = indeterminate -> rest = []).
Proof. split; [apply parse_chunks_eq|apply parse_total]. Qed.
