(* ===== verification/HttpGrammar.v ===== *)
(** * HttpGrammar: what the request parser accepts

    An abstract syntax of requests on the wire, its printer and its meaning as
    a [request]; the parser of [HttpParser] is sound and complete for it: it
    answers [good] exactly on the printed form of a well-formed wire request,
    with the bytes after it left over, and the request it has built is the
    meaning of that wire request. *)
From S2P Require Import Prelude HttpParser.

(** ** Abstract syntax *)

(** A header line: its name, the value on the first line, and the folded
    continuation lines, each with its leading white space. *)
Record wire_header := WireHeader {
  wh_name : str;
  wh_first : str;
  wh_folds : list (str * str) }.

Record wire_request := WireRequest {
  w_method : str;
  w_uri : str;
  w_major : str;
  w_minor : str;
  w_headers : list wire_header }.

(** Byte classes of the grammar. *)
Definition token_char (c : ascii) : Prop := is_token c = true.
Definition text_char (c : ascii) : Prop := is_ctl (schar c) = false.
Definition uri_char (c : ascii) : Prop := c <> SP /\ text_char c.
Definition ws_char (c : ascii) : Prop := c = SP \/ c = HT.
Definition digit_c (c : ascii) : Prop := is_digit (schar c) = true.

(** A continuation starts with white space, and its text with none. *)
Definition wf_fold (f : str * str) : Prop :=
  fst f <> [] /\ Forall ws_char (fst f) /\ Forall text_char (snd f) /\
  match snd f with [] => True | c :: _ => ~ ws_char c end.

Definition wf_header (h : wire_header) : Prop :=
  wh_name h <> [] /\ Forall token_char (wh_name h) /\ Forall text_char (wh_first h) /\
  Forall wf_fold (wh_folds h).

Definition wf_line (w : wire_request) : Prop :=
  w_method w <> [] /\ Forall token_char (w_method w) /\ Forall uri_char (w_uri w) /\
  w_major w <> [] /\ Forall digit_c (w_major w) /\
  w_minor w <> [] /\ Forall digit_c (w_minor w).

Definition wf_request (w : wire_request) : Prop := wf_line w /\ Forall wf_header (w_headers w).

(** ** Printer *)

Definition print_fold (f : str * str) : str := CRLF ++ fst f ++ snd f.
Definition print_folds (fs : list (str * str)) : str := concat (print_fold <$> fs).
(** A header line without its final line break. *)
Definition print_header_body (h : wire_header) : str :=
  wh_name h ++ lit ": " ++ wh_first h ++ print_folds (wh_folds h).
Definition print_header (h : wire_header) : str := print_header_body h ++ CRLF.
Definition print_headers (hs : list wire_header) : str := concat (print_header <$> hs).
Definition print_line (w : wire_request) : str :=
  w_method w ++ [SP] ++ w_uri w ++ [SP] ++ lit "HTTP/" ++ w_major w ++ lit "." ++ w_minor w ++ CRLF.
Definition print_request (w : wire_request) : str :=
  print_line w ++ print_headers (w_headers w) ++ CRLF.

(** ** Meaning *)

Definition denote_header (h : wire_header) : header :=
  Header (wh_name h) (wh_first h ++ concat (snd <$> wh_folds h)).
Definition denote (w : wire_request) : request :=
  Request (w_method w) (w_uri w) (int32 (dec_value (w_major w))) (int32 (dec_value (w_minor w)))
          (denote_header <$> w_headers w).

(** ** Completeness: runs of bytes that keep the parser in one state *)

Lemma token_tests c : token_char c ->
  negb (is_char (schar c)) || is_ctl (schar c) || is_tspecial (schar c) = false.
Proof. unfold token_char, is_token. by destruct (_ || _). Qed.

Lemma token_not_sep c : token_char c -> c <> SP /\ c <> ":"%char /\ c <> CR /\ c <> HT.
Proof.
  intros H; split_and!; intros ->; revert H; unfold token_char; vm_compute; congruence.
Qed.

Lemma text_not_cr c : text_char c -> c <> CR.
Proof. intros H ->. revert H. unfold text_char. vm_compute. congruence. Qed.

Lemma digit_not_sep c : digit_c c -> c <> "."%char /\ c <> CR.
Proof. intros H; split; intros ->; revert H; unfold digit_c; vm_compute; congruence. Qed.

(** One step of a run: rewrites [parse] by one byte whose class is known. *)
Ltac run_step :=
  cbn [app parse consume consume_line consume_headers lit String.list_ascii_of_string];
  repeat first
    [ rewrite decide_False by (first [done | tauto])
    | rewrite decide_True by (first [done | tauto]) ];
  unfold go; cbn [mbind option_bind].

Lemma run_method s rest m u a b hs :
  Forall token_char s ->
  parse method_s (Request m u a b hs) (s ++ rest) = parse method_s (Request (m ++ s) u a b hs) rest.
Proof.
  intros H. revert m. induction H as [|c s Hc _ IH]; intros m; [by rewrite app_nil_r|].
  destruct (token_not_sep c Hc) as (? & _). run_step. rewrite (token_tests c Hc).
  unfold go; cbn [mbind option_bind]. unfold push_method; cbn. by rewrite IH, <- app_assoc.
Qed.

Lemma run_uri s rest m u a b hs :
  Forall uri_char s ->
  parse uri_s (Request m u a b hs) (s ++ rest) = parse uri_s (Request m (u ++ s) a b hs) rest.
Proof.
  intros H. revert u. induction H as [|c s [Hsp Hc] _ IH]; intros u; [by rewrite app_nil_r|].
  run_step. rewrite Hc. unfold go; cbn [mbind option_bind].
  unfold push_uri; cbn. by rewrite IH, <- app_assoc.
Qed.

(** Digit runs: the version number is the decimal value, wrapped to [int]. *)
Lemma push_digit_value ds c : push_digit (int32 (dec_value ds)) c = int32 (dec_value (ds ++ [c])).
Proof.
  unfold push_digit. rewrite dec_value_snoc.
  rewrite <- Z.add_sub_assoc, int32_mul_add. done.
Qed.

Lemma run_major s rest ds m u b hs :
  Forall digit_c s ->
  parse http_version_major_s (Request m u (int32 (dec_value ds)) b hs) (s ++ rest) =
  parse http_version_major_s (Request m u (int32 (dec_value (ds ++ s))) b hs) rest.
Proof.
  intros H. revert ds. induction H as [|c s Hc _ IH]; intros ds; [by rewrite app_nil_r|].
  destruct (digit_not_sep c Hc). run_step. rewrite Hc. unfold go; cbn [mbind option_bind].
  unfold set_versions; cbn. by rewrite push_digit_value, IH, <- app_assoc.
Qed.

Lemma run_minor s rest ds m u a hs :
  Forall digit_c s ->
  parse http_version_minor_s (Request m u a (int32 (dec_value ds)) hs) (s ++ rest) =
  parse http_version_minor_s (Request m u a (int32 (dec_value (ds ++ s))) hs) rest.
Proof.
  intros H. revert ds. induction H as [|c s Hc _ IH]; intros ds; [by rewrite app_nil_r|].
  destruct (digit_not_sep c Hc). run_step. rewrite Hc. unfold go; cbn [mbind option_bind].
  unfold set_versions; cbn. by rewrite push_digit_value, IH, <- app_assoc.
Qed.

Lemma run_name s rest m u a b hs n v :
  Forall token_char s ->
  parse header_name (Request m u a b (hs ++ [Header n v])) (s ++ rest) =
  parse header_name (Request m u a b (hs ++ [Header (n ++ s) v])) rest.
Proof.
  intros H. revert n. induction H as [|c s Hc _ IH]; intros n; [by rewrite app_nil_r|].
  destruct (token_not_sep c Hc) as (? & ? & ?). run_step. rewrite (token_tests c Hc).
  unfold push_name. erewrite with_back_snoc by done.
  unfold set_headers; cbn. by rewrite IH, <- app_assoc.
Qed.

Lemma run_value s rest m u a b hs n v :
  Forall text_char s ->
  parse header_value (Request m u a b (hs ++ [Header n v])) (s ++ rest) =
  parse header_value (Request m u a b (hs ++ [Header n (v ++ s)])) rest.
Proof.
  intros H. revert v. induction H as [|c s Hc _ IH]; intros v; [by rewrite app_nil_r|].
  pose proof (text_not_cr c Hc). run_step. rewrite Hc.
  unfold push_value. erewrite with_back_snoc by done.
  unfold set_headers; cbn. by rewrite IH, <- app_assoc.
Qed.

Lemma ws_not_cr c : ws_char c -> c <> CR.
Proof. by intros [-> | ->]. Qed.

Lemma run_lws s rest req :
  Forall ws_char s -> parse header_lws req (s ++ rest) = parse header_lws req rest.
Proof.
  intros H. induction H as [|c s Hc _ IH]; [done|].
  pose proof (ws_not_cr c Hc). by run_step.
Qed.

(** A run entered with its first byte still to read. *)
Lemma run_first (st st' : state) req (f : ascii -> request) (P : ascii -> Prop) s rest :
  (forall c, P c -> consume st req c = go st' (f c)) ->
  s <> [] -> Forall P s ->
  exists c s', s = c :: s' /\ P c /\ Forall P s' /\
    parse st req (s ++ rest) = parse st' (f c) (s' ++ rest).
Proof.
  intros Hstep Hne HP. destruct HP as [|c s Hc Hs]; [done|].
  exists c, s. split_and!; try done. cbn [app parse]. by rewrite Hstep.
Qed.

(** One folded line, entered where the previous value line ended. *)
Lemma run_fold f rest m u a b hs n v st :
  wf_fold f -> st = header_value \/ st = header_lws ->
  exists st', (st' = header_value \/ st' = header_lws) /\
  parse st (Request m u a b (hs ++ [Header n v])) (print_fold f ++ rest) =
  parse st' (Request m u a b (hs ++ [Header n (v ++ snd f)])) rest.
Proof.
  destruct f as [ws t]. intros (Hne & Hws & Ht & Hhd) Hst. cbn [fst snd] in *.
  assert (forall r s, parse st r (CRLF ++ s) = parse header_line_start r s) as Hcrlf.
  { intros r s. by destruct Hst as [-> | ->]; do 2 run_step. }
  unfold print_fold; cbn [fst snd]. rewrite <- app_assoc, Hcrlf, <- app_assoc.
  destruct Hws as [|w ws Hw Hws]; [done|].
  assert (parse header_line_start (Request m u a b (hs ++ [Header n v])) ((w :: ws) ++ t ++ rest) =
          parse header_lws (Request m u a b (hs ++ [Header n v])) (t ++ rest)) as ->.
  { pose proof (ws_not_cr w Hw). run_step.
    rewrite bool_decide_eq_false_2 by (cbn; apply snoc_ne).
    rewrite bool_decide_eq_true_2 by done. cbn. by apply run_lws. }
  destruct t as [|c t].
  { exists header_lws. split; [by right|]. by rewrite app_nil_r. }
  exists header_value. split; [by left|].
  inversion_clear Ht as [|?? Hc Ht']. pose proof (text_not_cr c Hc).
  unfold ws_char in Hhd. run_step. rewrite Hc.
  unfold push_value. erewrite with_back_snoc by done. unfold set_headers; cbn.
  by rewrite run_value, <- app_assoc.
Qed.

Lemma run_folds fs rest m u a b hs n v st :
  Forall wf_fold fs -> st = header_value \/ st = header_lws ->
  exists st', (st' = header_value \/ st' = header_lws) /\
  parse st (Request m u a b (hs ++ [Header n v])) (print_folds fs ++ rest) =
  parse st' (Request m u a b (hs ++ [Header n (v ++ concat (snd <$> fs))])) rest.
Proof.
  intros H. revert v st. induction H as [|f fs Hf _ IH]; intros v st Hst.
  { exists st. split; [done|]. cbn. by rewrite app_nil_r. }
  destruct (run_fold f (print_folds fs ++ rest) m u a b hs n v st Hf Hst) as (st1 & Hst1 & Hrun).
  destruct (IH (v ++ snd f) st1 Hst1) as (st2 & Hst2 & Hrun2).
  exists st2. split; [done|]. change (print_folds (f :: fs)) with (print_fold f ++ print_folds fs).
  rewrite <- app_assoc, Hrun, Hrun2. rewrite fmap_cons. cbn [concat]. by rewrite <- app_assoc.
Qed.

Lemma run_header h rest m u a b hs :
  wf_header h ->
  parse header_line_start (Request m u a b hs) (print_header h ++ rest) =
  parse header_line_start (Request m u a b (hs ++ [denote_header h])) rest.
Proof.
  destruct h as [n v fs]. intros (Hne & Hn & Hv & Hfs); cbn [wh_name wh_first wh_folds] in *.
  unfold print_header, print_header_body; cbn [wh_name wh_first wh_folds].
  rewrite <- !app_assoc. destruct Hn as [|c n Hc Hn]; [done|].
  destruct (token_not_sep c Hc) as (? & ? & ? & ?). run_step.
  rewrite (bool_decide_eq_false_2 (c = SP \/ c = HT)) by tauto.
  rewrite andb_false_r, (token_tests c Hc). unfold go; cbn [mbind option_bind].
  unfold new_header, set_headers; cbn [headers method uri http_version_major http_version_minor].
  rewrite run_name by done. cbn [lit String.list_ascii_of_string app].
  do 2 run_step. rewrite run_value by done. cbn [app].
  destruct (run_folds fs (CRLF ++ rest) m u a b hs (c :: n) v header_value) as (st & Hst & ->);
    [done|by left|].
  by destruct Hst as [-> | ->]; do 2 run_step.
Qed.

Lemma run_headers hs rest m u a b hs0 :
  Forall wf_header hs ->
  parse header_line_start (Request m u a b hs0) (print_headers hs ++ rest) =
  parse header_line_start (Request m u a b (hs0 ++ (denote_header <$> hs))) rest.
Proof.
  intros H. revert hs0. induction H as [|h hs Hh _ IH]; intros hs0; [by rewrite app_nil_r|].
  change (print_headers (h :: hs)) with (print_header h ++ print_headers hs).
  rewrite <- app_assoc, run_header by done. by rewrite IH, <- app_assoc.
Qed.

Lemma run_line w rest a b :
  wf_line w ->
  parse method_start (empty_request a b) (print_line w ++ rest) =
  parse header_line_start
    (Request (w_method w) (w_uri w) (int32 (dec_value (w_major w))) (int32 (dec_value (w_minor w))) []) rest.
Proof.
  destruct w as [m u ds es hs]. intros (Hm & Hmt & Hu & Hd & Hds & He & Hes).
  cbn [w_method w_uri w_major w_minor] in *.
  unfold print_line; cbn [w_method w_uri w_major w_minor]. rewrite <- !app_assoc.
  destruct Hmt as [|c m Hc Hmt]; [done|]. destruct Hds as [|d ds Hd1 Hds]; [done|].
  destruct Hes as [|e es He1 Hes]; [done|]. destruct (digit_not_sep d Hd1), (digit_not_sep e He1).
  unfold empty_request. run_step. rewrite (token_tests c Hc). unfold go, push_method; cbn [mbind option_bind].
  rewrite run_method by done. run_step. rewrite run_uri by done. do 6 run_step.
  run_step. rewrite Hd1. unfold go, set_versions; cbn [mbind option_bind].
  change (push_digit _ d) with (push_digit (int32 (dec_value [])) d).
  rewrite push_digit_value, run_major by done. run_step.
  run_step. rewrite He1. unfold go, set_versions; cbn [mbind option_bind].
  change (push_digit _ e) with (push_digit (int32 (dec_value [])) e).
  rewrite push_digit_value, run_minor by done. by do 2 run_step.
Qed.

(** ** Soundness: what has been read when the parser is in a given state *)

Definition add_header (w : wire_request) (h : wire_header) : wire_request :=
  WireRequest (w_method w) (w_uri w) (w_major w) (w_minor w) (w_headers w ++ [h]).

(** The text of the last value line so far may still be extended. *)
Definition open_value (h : wire_header) : Prop :=
  wh_folds h = [] \/ exists fs ws t, wh_folds h = fs ++ [(ws, t)] /\ t <> [].

(** The states of a fixed text, with how much of it has been read. *)
Definition http_read (st : state) : option nat :=
  match st with
  | http_version_h => Some 0 | http_version_t_1 => Some 1 | http_version_t_2 => Some 2
  | http_version_p => Some 3 | http_version_slash => Some 4 | _ => None
  end.
Definition minor_tail (st : state) : option str :=
  match st with http_version_minor_s => Some [] | expecting_newline_1 => Some [CR] | _ => None end.
Definition name_tail (st : state) : option str :=
  match st with header_name => Some [] | space_before_header_value => Some (lit ":") | _ => None end.

Lemma print_headers_snoc hs h : print_headers (hs ++ [h]) = print_headers hs ++ print_header h.
Proof.
  unfold print_headers. rewrite fmap_app, concat_app. cbn. by rewrite app_nil_r.
Qed.

Lemma print_folds_snoc fs f : print_folds (fs ++ [f]) = print_folds fs ++ print_fold f.
Proof. unfold print_folds. rewrite fmap_app, concat_app. cbn. by rewrite app_nil_r. Qed.

Lemma concat_fmap_snoc (fs : list (str * str)) f :
  concat (snd <$> (fs ++ [f])) = concat (snd <$> fs) ++ snd f.
Proof. rewrite fmap_app, concat_app. cbn. by rewrite app_nil_r. Qed.

Lemma wf_add_header w h : wf_request w -> wf_header h -> wf_request (add_header w h).
Proof.
  intros [Hl Hh] Hwf. split; [done|]. apply Forall_app. by split; [|constructor].
Qed.

(** An update of the last header of a request read so far. *)
Lemma with_back_denote w h h' f :
  f (denote_header h) = denote_header h' ->
  with_back (denote (add_header w h)) f = Some (denote (add_header w h')).
Proof.
  intros Hf. erewrite with_back_snoc by (cbn; by rewrite fmap_app).
  cbn. unfold denote, set_headers; cbn. by rewrite fmap_app, Hf.
Qed.

(** Header [h] with one more byte of text on its last line. *)
Definition extend (h : wire_header) (c : ascii) : wire_header :=
  match rev (wh_folds h) with
  | [] => WireHeader (wh_name h) (wh_first h ++ [c]) []
  | (ws, t) :: fs => WireHeader (wh_name h) (wh_first h) (rev fs ++ [(ws, t ++ [c])])
  end.
Definition add_fold (h : wire_header) (f : str * str) : wire_header :=
  WireHeader (wh_name h) (wh_first h) (wh_folds h ++ [f]).

Lemma wf_add_fold h f : wf_header h -> wf_fold f -> wf_header (add_fold h f).
Proof.
  intros (? & ? & ? & ?) ?. split_and!; try done. apply Forall_app. by split; [|constructor].
Qed.

Lemma print_add_fold h f : print_header_body (add_fold h f) = print_header_body h ++ print_fold f.
Proof.
  unfold print_header_body, add_fold; cbn [wh_name wh_first wh_folds].
  by rewrite print_folds_snoc, <- !app_assoc.
Qed.

Lemma extend_spec h c :
  wf_header h -> open_value h -> text_char c ->
  wf_header (extend h c) /\ open_value (extend h c) /\
  print_header_body (extend h c) = print_header_body h ++ [c] /\
  denote_header (extend h c) = Header (wh_name h) (value (denote_header h) ++ [c]).
Proof.
  destruct h as [n v fs]. intros (Hne & Hn & Hv & Hfs) Ho Hc. cbn [wh_name wh_first wh_folds] in *.
  unfold extend, print_header_body; cbn [wh_name wh_first wh_folds].
  destruct Ho as [Ho | (fs' & ws & t & Ho & Ht)]; cbn [wh_folds] in Ho; subst fs.
  - cbn [rev wh_name wh_first wh_folds]. split_and!.
    + split_and!; cbn; try done. apply Forall_app. by split; [|constructor].
    + by left.
    + change (print_folds []) with (@nil ascii). by rewrite !app_nil_r, <- !app_assoc.
    + unfold denote_header; cbn. by rewrite !app_nil_r.
  - rewrite rev_app_distr; cbn [rev app wh_name wh_first wh_folds]. rewrite rev_involutive.
    apply Forall_app in Hfs as [Hfs Hf]. inversion_clear Hf as [|?? (Hw & Hws & Htx & Hhd) _].
    cbn [fst snd] in *. split_and!.
    + split_and!; cbn; try done. apply Forall_app. split; [done|]. constructor; [|done].
      split_and!; cbn [fst snd]; try done; [by apply Forall_app; split; [|constructor]|by destruct t].
    + right. exists fs', ws, (t ++ [c]). split; [done|]. by destruct t.
    + rewrite !print_folds_snoc. unfold print_fold; cbn [fst snd]. by rewrite <- !app_assoc.
    + unfold denote_header; cbn [wh_name wh_first wh_folds name value].
      rewrite !concat_fmap_snoc. cbn [snd]. by rewrite <- !app_assoc.
Qed.

Section Soundness.
Context (a0 b0 : Z).

Inductive partial : state -> request -> str -> Prop :=
| P_method_start : partial method_start (empty_request a0 b0) []
| P_method m (Hne : m <> []) (Hm : Forall token_char m) :
    partial method_s (Request m [] a0 b0 []) m
| P_uri m u (Hne : m <> []) (Hm : Forall token_char m) (Hu : Forall uri_char u) :
    partial uri_s (Request m u a0 b0 []) (m ++ [SP] ++ u)
| P_http st n m u (Hne : m <> []) (Hm : Forall token_char m) (Hu : Forall uri_char u)
    (Hst : http_read st = Some n) :
    partial st (Request m u a0 b0 []) (m ++ [SP] ++ u ++ [SP] ++ take n (lit "HTTP"))
| P_major_start m u (Hne : m <> []) (Hm : Forall token_char m) (Hu : Forall uri_char u) :
    partial http_version_major_start (Request m u 0 0 []) (m ++ [SP] ++ u ++ [SP] ++ lit "HTTP/")
| P_major m u ds (Hne : m <> []) (Hm : Forall token_char m) (Hu : Forall uri_char u)
    (Hdne : ds <> []) (Hd : Forall digit_c ds) :
    partial http_version_major_s (Request m u (int32 (dec_value ds)) 0 [])
      (m ++ [SP] ++ u ++ [SP] ++ lit "HTTP/" ++ ds)
| P_minor_start m u ds (Hne : m <> []) (Hm : Forall token_char m) (Hu : Forall uri_char u)
    (Hdne : ds <> []) (Hd : Forall digit_c ds) :
    partial http_version_minor_start (Request m u (int32 (dec_value ds)) 0 [])
      (m ++ [SP] ++ u ++ [SP] ++ lit "HTTP/" ++ ds ++ lit ".")
| P_minor st w tail (Hw : wf_line w) (Hh : w_headers w = [])
    (Hst : minor_tail st = Some tail) :
    partial st (denote w)
      (w_method w ++ [SP] ++ w_uri w ++ [SP] ++ lit "HTTP/" ++ w_major w ++ lit "." ++ w_minor w ++ tail)
| P_line w (Hw : wf_request w) :
    partial header_line_start (denote w) (print_line w ++ print_headers (w_headers w))
| P_newline_3 w (Hw : wf_request w) :
    partial expecting_newline_3 (denote w) (print_line w ++ print_headers (w_headers w) ++ [CR])
| P_lws w h ws (Hw : wf_request w) (Hh : wf_header h) (Hne : ws <> []) (Hws : Forall ws_char ws) :
    partial header_lws (denote (add_header w h))
      (print_line w ++ print_headers (w_headers w) ++ print_header h ++ ws)
| P_name st w n tail (Hw : wf_request w) (Hne : n <> []) (Hn : Forall token_char n)
    (Hst : name_tail st = Some tail) :
    partial st (denote (add_header w (WireHeader n [] [])))
      (print_line w ++ print_headers (w_headers w) ++ n ++ tail)
| P_value w h (Hw : wf_request w) (Hh : wf_header h) (Ho : open_value h) :
    partial header_value (denote (add_header w h))
      (print_line w ++ print_headers (w_headers w) ++ print_header_body h)
| P_newline_2 w h (Hw : wf_request w) (Hh : wf_header h) :
    partial expecting_newline_2 (denote (add_header w h))
      (print_line w ++ print_headers (w_headers w) ++ print_header_body h ++ [CR]).

Lemma partial_eq st req pre req' pre' :
  partial st req pre -> req = req' -> pre = pre' -> partial st req' pre'.
Proof. by intros ? -> ->. Qed.

(** What one more byte may lead to. *)
Definition after (r : result_type) (st : state) (req : request) (pre : str) : Prop :=
  match r with
  | bad => True
  | indeterminate => partial st req pre
  | good => st = expecting_newline_3 /\ exists w, wf_request w /\ pre = print_request w /\ req = denote w
  end.

Lemma token_intro c :
  negb (is_char (schar c)) || is_ctl (schar c) || is_tspecial (schar c) = false -> token_char c.
Proof. intros H. unfold token_char, is_token. by rewrite H. Qed.

Lemma Forall_snoc {A} (P : A -> Prop) l x : Forall P l -> P x -> Forall P (l ++ [x]).
Proof. intros. apply Forall_app. by split; [|constructor]. Qed.

Hint Resolve token_intro Forall_snoc snoc_ne : core.

(** Normalises the concatenations on both sides of an equation of bytes. *)
Ltac bytes_eq :=
  unfold print_request, print_line, print_headers, print_header, print_header_body, print_folds, print_fold;
  repeat progress (cbn; rewrite <- ?app_assoc); try reflexivity.

(** Applies the constructor that describes the next state. *)
Tactic Notation "next" uconstr(C) :=
  eapply partial_eq; [apply C; auto|try reflexivity|try (solve [bytes_eq])].

Ltac branches :=
  cbn [consume consume_line consume_headers]; cbv zeta; repeat case_match; unfold go, refuse;
  try (intros [= <- <- <-]; cbn [after]; try exact I).

Lemma after_line st req pre c r st' req' :
  partial st req pre ->
  match st with
  | method_start | method_s | uri_s | http_version_h | http_version_t_1 | http_version_t_2
  | http_version_p | http_version_slash | http_version_major_start => True
  | _ => False
  end ->
  consume st req c = Some (r, st', req') -> after r st' req' (pre ++ [c]).
Proof.
  intros Hp Hst. destruct Hp; try done.
  - branches. next (P_method [c]).
  - branches; subst; [next (P_uri m [])|next (P_method (m ++ [c]))].
  - branches; subst; [by next (P_http http_version_h 0 m u)|].
    next (P_uri m (u ++ [c])). by apply Forall_snoc.
  - destruct st; try done; injection Hst0 as <-; branches; subst.
    + by next (P_http http_version_t_1 1 m u).
    + by next (P_http http_version_t_2 2 m u).
    + by next (P_http http_version_p 3 m u).
    + by next (P_http http_version_slash 4 m u).
    + next (P_major_start m u).
  - branches. next (P_major m u [c]).
  - by destruct st.
  - by destruct st.
Qed.

Hint Resolve wf_add_header wf_add_fold : core.

Lemma after_version st req pre c r st' req' :
  partial st req pre ->
  match st with
  | http_version_major_s | http_version_minor_start | http_version_minor_s | expecting_newline_1 => True
  | _ => False
  end ->
  consume st req c = Some (r, st', req') -> after r st' req' (pre ++ [c]).
Proof.
  intros Hp Hst. destruct Hp; try done; try (by destruct st).
  - branches; subst.
    + next (P_minor_start m u ds).
    + next (P_major m u (ds ++ [c])).
      unfold set_versions; cbn. by rewrite push_digit_value.
  - branches. next (P_minor http_version_minor_s (WireRequest m u ds [c] []) []).
    split_and!; cbn; auto.
  - destruct w as [m u ds es hs]; cbn in Hh; subst hs. destruct st; try done; injection Hst0 as <-.
    + branches; subst.
      * by next (P_minor expecting_newline_1 (WireRequest m u ds es []) [CR]).
      * destruct Hw as (? & ? & ? & ? & ? & ? & ?); cbn in *.
        next (P_minor http_version_minor_s (WireRequest m u ds (es ++ [c]) []) []).
        -- split_and!; cbn; auto.
        -- unfold denote, set_versions; cbn. by rewrite push_digit_value.
    + branches; subst. next (P_line (WireRequest m u ds es [])). split; [done|constructor].
Qed.

Lemma after_headers st req pre c r st' req' :
  partial st req pre ->
  match st with
  | header_line_start | expecting_newline_3 | header_lws | header_name
  | space_before_header_value | header_value | expecting_newline_2 => True
  | _ => False
  end ->
  consume st req c = Some (r, st', req') -> after r st' req' (pre ++ [c]).
Proof.
  intros Hp Hst. destruct Hp; try done; try (by destruct st).
  - branches; subst.
    + next (P_newline_3 w).
    + match goal with H : _ && _ = true |- _ => apply andb_true_iff in H as [Hne Hws] end.
      apply bool_decide_eq_true_1 in Hws.
      destruct w as [m u ds es hs]. destruct hs as [|h hs _] using rev_ind; [done|].
      destruct Hw as [Hl Hhs]. apply Forall_app in Hhs as [Hhs Hh].
      inversion_clear Hh. next (P_lws (WireRequest m u ds es hs) h [c]).
      * by constructor.
      * cbn [w_headers]. rewrite print_headers_snoc. by rewrite <- !app_assoc.
    + next (P_name header_name w [c] []).
      unfold denote, new_header, set_headers; cbn. by rewrite fmap_app.
  - branches. subst. split; [done|]. exists w. split_and!; try done. bytes_eq.
  - branches; subst.
    + next (P_newline_2 w (add_fold h (ws, []))).
      * apply wf_add_fold; [done|]. by split_and!.
      * unfold denote, add_header; cbn. rewrite !fmap_app; cbn.
        unfold denote_header at 2 4; cbn. by rewrite concat_fmap_snoc, app_nil_r.
      * rewrite print_add_fold. bytes_eq.
    + next (P_lws w h (ws ++ [c])).
    + unfold push_value. erewrite (with_back_denote w h (add_fold h (ws, [c]))).
      2: { unfold denote_header; cbn. by rewrite concat_fmap_snoc, app_assoc. }
      cbn. intros [= <- <- <-]. next (P_value w (add_fold h (ws, [c]))).
      * apply wf_add_fold; [done|]. split_and!; cbn; auto.
      * right. by exists (wh_folds h), ws, [c].
      * rewrite print_add_fold. bytes_eq.
  - destruct st; try done; injection Hst0 as <-; branches; subst.
    + by next (P_name space_before_header_value w n (lit ":")).
    + unfold push_name. erewrite (with_back_denote w _ (WireHeader (n ++ [c]) [] [])) by done.
      cbn. intros [= <- <- <-]. by next (P_name header_name w (n ++ [c]) []).
    + next (P_value w (WireHeader n [] [])); [by split_and!|by left].
  - branches; subst.
    + next (P_newline_2 w h).
    + destruct (extend_spec h c) as (Hw' & Ho' & Hpr & Hd); try done.
      unfold push_value. erewrite (with_back_denote w h (extend h c)) by (by rewrite Hd).
      cbn. intros [= <- <- <-]. eapply partial_eq; [by apply (P_value w (extend h c))|done|].
      by rewrite Hpr, <- !app_assoc.
  - branches; subst. eapply partial_eq; [by apply (P_line (add_header w h)); auto|done|].
    cbn [w_headers add_header]. rewrite print_headers_snoc. by rewrite <- !app_assoc.
Qed.
End Soundness.

Lemma consume_partial a b st req pre c r st' req' :
  partial a b st req pre -> consume st req c = Some (r, st', req') -> after a b r st' req' (pre ++ [c]).
Proof.
  intros Hp. destruct st; first [ by apply after_line | by apply after_version | by apply after_headers ].
Qed.

Lemma parse_partial a b st req pre input st' req' rest :
  partial a b st req pre ->
  parse st req input = Some (good, st', req', rest) ->
  st' = expecting_newline_3 /\
  exists w, wf_request w /\ pre ++ input = print_request w ++ rest /\ req' = denote w.
Proof.
  revert st req pre. induction input as [|c input IH]; intros st req pre Hp; [done|].
  cbn [parse]. destruct (consume st req c) as [[[r st1] req1]|] eqn:Hc; [|done].
  pose proof (consume_partial a b _ _ _ _ _ _ _ Hp Hc) as Ha.
  cbn [mbind option_bind]. destruct r; cbn [after] in Ha.
  - intros [= <- <- <-]. destruct Ha as (-> & w & Hw & Hpre & ->).
    split; [done|]. exists w. split_and!; try done.
    change (c :: input) with ([c] ++ input). by rewrite app_assoc, Hpre.
  - done.
  - intros (Hst & w & Hw & Hpre & Hreq)%(IH _ _ _ Ha). split; [done|].
    exists w. split_and!; try done. by rewrite <- Hpre, <- app_assoc.
Qed.

Lemma parse_print a b w rest :
  wf_request w ->
  parse request_parser (empty_request a b) (print_request w ++ rest) =
  Some (good, expecting_newline_3, denote w, rest).
Proof.
  intros [Hl Hh]. unfold print_request, request_parser. rewrite <- !app_assoc.
  rewrite run_line, run_headers by done. by do 2 run_step.
Qed.

(** ** Properties *)

(** C1: the request parser recognises exactly the wire grammar. Fed from a
    fresh parser and an empty request, it answers [good] if and only if the
    input starts with the printed form of a well-formed request; it stops
    right after it, and the request built is the meaning of what was read,
    header folding and version numbers included. *)
Theorem parse_good_iff a b input st req rest :
  parse request_parser (empty_request a b) input = Some (good, st, req, rest) <->
  exists w, wf_request w /\ input = print_request w ++ rest /\ req = denote w /\ st = expecting_newline_3.
Proof.
  split.
  - intros (-> & w & Hw & Hin & ->)%(parse_partial a b _ _ [] _ _ _ _ (P_method_start a b)).
    by exists w.
  - intros (w & Hw & -> & -> & ->). by apply parse_print.
Qed.

(** the version number the parser stores is the number written in the
    request exactly when that number is a value of [int]; any longer digit
    string overflows and is accepted with another value. *)
Theorem version_exact_iff a b w rest :
  wf_request w ->
  exists st req, parse request_parser (empty_request a b) (print_request w ++ rest) = Some (good, st, req, rest) /\
    (http_version_major req = dec_value (w_major w) <-> in_int32 (dec_value (w_major w))) /\
    (http_version_minor req = dec_value (w_minor w) <-> in_int32 (dec_value (w_minor w))).
Proof.
  intros Hw. eexists _, _. split; [by apply parse_print|]. cbn.
  split; (split; [intros <-; apply int32_range|apply int32_id]).
Qed.

(** [GET / HTTP/4294967297.0]: the major version overflows to 1. *)
Definition overflow_request : wire_request :=
  WireRequest (lit "GET") (lit "/") (lit "4294967297") (lit "0") [].

Lemma overflow_request_wf : wf_request overflow_request.
Proof. split; [|by constructor]. unfold wf_line, overflow_request; cbn. split_and!; try done; repeat constructor; done. Qed.

Theorem version_exact_iff_witness :
  exists st req,
    parse request_parser (empty_request 0 0) (print_request overflow_request ++ []) = Some (good, st, req, []) /\
    http_version_major req <> dec_value (lit "4294967297").
Proof.
  destruct (version_exact_iff 0 0 overflow_request [] overflow_request_wf) as (st & req & Hp & [Hv _] & _).
  exists st, req. split; [exact Hp|]. intros Heq. apply Hv in Heq. revert Heq. vm_compute. intros [_ H]. discriminate H.
Defined.
