(* ===== verification/HttpReply.v ===== *)
(** * HttpReply: replies, their wire form and the MIME table

    Models [boost/http_server/reply.hpp], [reply.cpp] and [mime_types.cpp]
    ([ad_system/server3] has the same reply code): the sixteen statuses, the
    status lines, [to_buffers], the stock replies and [extension_to_type].
    The theorems show that a client that reads a reply as the protocol says
    (status line, header lines up to the empty line, [Content-Length] bytes of
    content) gets back exactly what the server put in. *)
From S2P Require Import Prelude HttpParser.

(** ** Data *)

(** The enumerators of [reply::status_type]. *)
Inductive status_type :=
  | ok | created | accepted | no_content | multiple_choices | moved_permanently
  | moved_temporarily | not_modified | bad_request | unauthorized | forbidden
  | not_found | internal_server_error | not_implemented | bad_gateway
  | service_unavailable.

#[export] Instance status_type_eq_dec : EqDecision status_type.
Proof. solve_decision. Defined.

Definition status_code (s : status_type) : Z :=
  match s with
  | ok => 200 | created => 201 | accepted => 202 | no_content => 204
  | multiple_choices => 300 | moved_permanently => 301 | moved_temporarily => 302
  | not_modified => 304 | bad_request => 400 | unauthorized => 401
  | forbidden => 403 | not_found => 404 | internal_server_error => 500
  | not_implemented => 501 | bad_gateway => 502 | service_unavailable => 503
  end%Z.

Record reply := Reply { status : status_type; rep_headers : list header; content : str }.

(** ** Status lines ([status_strings::to_buffer]) *)

Definition status_strings_to_buffer (s : status_type) : str :=
  lit match s with
  | ok => "HTTP/1.0 200 OK"
  | created => "HTTP/1.0 201 Created"
  | accepted => "HTTP/1.0 202 Accepted"
  | no_content => "HTTP/1.0 204 No Content"
  | multiple_choices => "HTTP/1.0 300 Multiple Choices"
  | moved_permanently => "HTTP/1.0 301 Moved Permanently"
  | moved_temporarily => "HTTP/1.0 302 Moved Temporarily"
  | not_modified => "HTTP/1.0 304 Not Modified"
  | bad_request => "HTTP/1.0 400 Bad Request"
  | unauthorized => "HTTP/1.0 401 Unauthorized"
  | forbidden => "HTTP/1.0 403 Forbidden"
  | not_found => "HTTP/1.0 404 Not Found"
  | internal_server_error => "HTTP/1.0 500 Internal Server Error"
  | not_implemented => "HTTP/1.0 501 Not Implemented"
  | bad_gateway => "HTTP/1.0 502 Bad Gateway"
  | service_unavailable => "HTTP/1.0 503 Service Unavailable"
  end ++ CRLF.

Definition name_value_separator : str := lit ": ".
Definition crlf : str := CRLF.

(** The four buffers of one header. *)
Definition header_buffers (h : header) : list str := [name h; name_value_separator; value h; crlf].

Definition to_buffers (rep : reply) : list str :=
  status_strings_to_buffer (status rep) ::
  concat (header_buffers <$> rep_headers rep) ++ [crlf; content rep].

(** What [async_write] sends: the buffers one after the other. *)
Definition wire (rep : reply) : str := concat (to_buffers rep).

(** ** Stock replies *)

(** A page of the [stock_replies] namespace, from its title and its heading. *)
Definition page (title heading : string) : str :=
  lit "<html>" ++ lit "<head><title>" ++ lit title ++ lit "</title></head>" ++
  lit "<body><h1>" ++ lit heading ++ lit "</h1></body>" ++ lit "</html>".

Definition stock_replies_to_string (s : status_type) : str :=
  match s with
  | ok => lit ""
  | created => page "Created" "201 Created"
  | accepted => page "Accepted" "202 Accepted"
  | no_content => page "No Content" "204 Content"
  | multiple_choices => page "Multiple Choices" "300 Multiple Choices"
  | moved_permanently => page "Moved Permanently" "301 Moved Permanently"
  | moved_temporarily => page "Moved Temporarily" "302 Moved Temporarily"
  | not_modified => page "Not Modified" "304 Not Modified"
  | bad_request => page "Bad Request" "400 Bad Request"
  | unauthorized => page "Unauthorized" "401 Unauthorized"
  | forbidden => page "Forbidden" "403 Forbidden"
  | not_found => page "Not Found" "404 Not Found"
  | internal_server_error => page "Internal Server Error" "500 Internal Server Error"
  | not_implemented => page "Not Implemented" "501 Not Implemented"
  | bad_gateway => page "Bad Gateway" "502 Bad Gateway"
  | service_unavailable => page "Service Unavailable" "503 Service Unavailable"
  end.

(** The two headers every reply of the server carries. *)
Definition entity_headers (body : str) (type : str) : list header :=
  [Header (lit "Content-Length") (to_string (N.of_nat (length body)));
   Header (lit "Content-Type") type].

Definition stock_reply (s : status_type) : reply :=
  let body := stock_replies_to_string s in
  Reply s (entity_headers body (lit "text/html")) body.

(** ** MIME types *)

Definition mappings : list (str * str) :=
  [(lit "gif", lit "image/gif"); (lit "htm", lit "text/html"); (lit "html", lit "text/html");
   (lit "jpg", lit "image/jpeg"); (lit "png", lit "image/png")].

(** The first entry whose extension is equal, [text/plain] when there is none. *)
Fixpoint lookup_type (table : list (str * str)) (extension : str) : str :=
  match table with
  | [] => lit "text/plain"
  | (e, t) :: table' => if decide (e = extension) then t else lookup_type table' extension
  end.
Definition extension_to_type : str -> str := lookup_type mappings.

(** ** A client's reading of a reply *)

(** Up to the first CR LF. *)
Fixpoint read_line (s : str) : option (str * str) :=
  match s with
  | [] => None
  | c :: s' =>
      match s' with
      | [] => None
      | d :: rest =>
          if decide (c = CR /\ d = LF) then Some ([], rest)
          else '(l, r) ← read_line s'; Some (c :: l, r)
      end
  end.

(** A header line: a name without colon, a colon, one space, the value. *)
Fixpoint read_header (l : str) : option header :=
  match l with
  | [] => None
  | c :: l' =>
      if decide (c = ":"%char) then
        match l' with
        | d :: v => if decide (d = SP) then Some (Header [] v) else None
        | [] => None
        end
      else h ← read_header l'; Some (Header (c :: name h) (value h))
  end.

Fixpoint read_headers (fuel : nat) (s : str) : option (list header * str) :=
  match fuel with
  | O => None
  | S f =>
      '(l, rest) ← read_line s;
      if decide (l = []) then Some ([], rest)
      else h ← read_header l; '(hs, rest') ← read_headers f rest; Some (h :: hs, rest')
  end.

(** The three digits after [HTTP/1.0 ]. *)
Definition read_status (l : str) : option Z :=
  if decide (take 9 l = lit "HTTP/1.0 " /\ Forall is_digit_char (take 3 (drop 9 l))) then
    Some (dec_value (take 3 (drop 9 l)))
  else None.

Fixpoint content_length (hs : list header) : option nat :=
  match hs with
  | [] => None
  | h :: hs' =>
      if decide (name h = lit "Content-Length") then Some (Z.to_nat (dec_value (value h)))
      else content_length hs'
  end.

(** Status, headers, content, and what follows the reply on the stream. *)
Definition read_response (s : str) : option (Z * list header * str * str) :=
  '(l, rest) ← read_line s;
  code ← read_status l;
  '(hs, rest') ← read_headers (length rest) rest;
  n ← content_length hs;
  if decide (n <= length rest')%nat then Some (code, hs, take n rest', drop n rest') else None.

(** ** Lemmas *)

Definition wf_reply_header (h : header) : Prop :=
  name h <> [] /\ CR ∉ name h /\ ":"%char ∉ name h /\ CR ∉ value h.

(** A reply that announces its own length. *)
Definition framed (rep : reply) : Prop :=
  Forall wf_reply_header (rep_headers rep) /\
  content_length (rep_headers rep) = Some (length (content rep)).

Lemma read_line_app l rest : CR ∉ l -> read_line (l ++ CRLF ++ rest) = Some (l, rest).
Proof.
  intros H. induction l as [|c l IH]; [done|].
  apply not_elem_of_cons in H as [Hc Hl]. specialize (IH Hl).
  assert (exists d r, l ++ CRLF ++ rest = d :: r) as (d & r & Hdr) by (destruct l; cbn; eauto).
  cbn [app read_line]. rewrite Hdr in IH |- *. rewrite decide_False by (intros [-> _]; done).
  by rewrite IH.
Qed.

Lemma read_header_app n v : ":"%char ∉ n -> read_header (n ++ lit ": " ++ v) = Some (Header n v).
Proof.
  intros H. induction n as [|c n IH]; [done|].
  apply not_elem_of_cons in H as [Hc Hn]. cbn [app read_header].
  rewrite decide_False by congruence. by rewrite IH.
Qed.

Lemma status_line s :
  exists l, status_strings_to_buffer s = l ++ CRLF /\ CR ∉ l /\ read_status l = Some (status_code s).
Proof.
  unfold status_strings_to_buffer. eexists. split; [reflexivity|].
  split; [|by destruct s].
  destruct s; apply (bool_decide_unpack _); vm_compute; exact I.
Qed.

(** The header lines of a reply in front of [s]. *)
Fixpoint headers_text (s : str) (hs : list header) : str :=
  match hs with
  | [] => s
  | h :: hs' => name h ++ lit ": " ++ value h ++ CRLF ++ headers_text s hs'
  end.

Lemma concat_header_buffers hs s :
  concat (concat (header_buffers <$> hs)) ++ s =
  headers_text s hs.
Proof.
  induction hs as [|h hs IH]; [done|]. rewrite fmap_cons. cbn [headers_text].
  rewrite <- IH. cbn [concat header_buffers app]. 
  unfold name_value_separator, crlf. by rewrite <- !app_assoc.
Qed.

Lemma read_headers_app hs s fuel :
  Forall wf_reply_header hs -> (length hs < fuel)%nat ->
  read_headers fuel (headers_text (CRLF ++ s) hs) =
  Some (hs, s).
Proof.
  intros H. revert fuel. induction H as [|h hs (Hne & Hcr & Hcol & Hv) _ IH]; intros fuel Hf.
  { destruct fuel; [lia|done]. }
  destruct fuel as [|fuel]; [lia|]. cbn [headers_text read_headers]. cbn [length] in Hf.
  set (r := headers_text _ hs) in *.
  replace (name h ++ lit ": " ++ value h ++ CRLF ++ r)
    with ((name h ++ lit ": " ++ value h) ++ CRLF ++ r) by (by rewrite <- !app_assoc).
  rewrite read_line_app.
  2: { rewrite !elem_of_app. intros [?|[Hin|?]]; [done| |done]. revert Hin. by apply (bool_decide_unpack _). }
  cbn [mbind option_bind]. rewrite decide_False by (by destruct (name h)).
  rewrite read_header_app by done. cbn [mbind option_bind].
  subst r. rewrite IH by lia. by destruct h.
Qed.

(** The bytes of a reply contain one header per two bytes or more, so the
    length of the stream is fuel enough. *)
Lemma headers_fuel hs s :
  (length hs < length (headers_text (CRLF ++ s) hs))%nat.
Proof.
  induction hs as [|h hs IH]; cbn [headers_text length]; [cbn; lia|].
  rewrite !length_app. change (length (lit ": ")) with 2. change (length CRLF) with 2. lia.
Qed.

Lemma wire_eq rep :
  wire rep = status_strings_to_buffer (status rep) ++
    headers_text (CRLF ++ content rep) (rep_headers rep).
Proof.
  unfold wire, to_buffers. cbn [concat]. f_equal.
  rewrite concat_app, <- concat_header_buffers. cbn. unfold crlf. by rewrite app_nil_r.
Qed.

(** The client recovers a framed reply from the stream. *)
Lemma read_framed rep rest :
  framed rep ->
  read_response (wire rep ++ rest) =
  Some (status_code (status rep), rep_headers rep, content rep, rest).
Proof.
  intros [Hwf Hlen]. destruct (status_line (status rep)) as (l & Hl & Hcr & Hs).
  unfold read_response. rewrite wire_eq, Hl, <- !app_assoc.
  set (hdrs := headers_text _ _).
  assert (hdrs ++ rest = headers_text (CRLF ++ content rep ++ rest) (rep_headers rep)) as ->.
  { subst hdrs. rewrite <- !concat_header_buffers. by rewrite <- !app_assoc. }
  rewrite read_line_app by done. cbn [mbind option_bind]. rewrite Hs. cbn [mbind option_bind].
  rewrite read_headers_app by (done || apply headers_fuel). cbn [mbind option_bind]. rewrite Hlen. cbn [mbind option_bind].
  rewrite decide_True by (rewrite length_app; lia).
  by rewrite take_app_length, drop_app_length.
Qed.

Lemma digits_no_cr s : Forall is_digit_char s -> CR ∉ s.
Proof.
  intros H Hin. rewrite Forall_forall in H. apply H in Hin. revert Hin.
  apply (bool_decide_unpack (~ is_digit_char CR)). exact I.
Qed.

Lemma entity_framed s body type : CR ∉ type -> framed (Reply s (entity_headers body type) body).
Proof.
  intros Ht. split; cbn [rep_headers content entity_headers].
  - repeat constructor; cbn [name value]; try done; try (apply (bool_decide_unpack _); exact I).
    apply digits_no_cr, to_string_digits.
  - unfold entity_headers. cbn [content_length name value]. rewrite decide_True by done.
    rewrite dec_value_to_string. f_equal. lia.
Qed.

Lemma extension_to_type_no_cr e : CR ∉ extension_to_type e.
Proof.
  unfold extension_to_type, mappings. cbn [lookup_type].
  repeat case_decide; apply (bool_decide_unpack _); vm_compute; exact I.
Qed.

(** ** Properties *)

(** A stock reply on the wire is a well-framed HTTP response: for every
    status, a client reading the stream finds the code of that status, the two
    headers, exactly the stock page as content, and the following bytes
    untouched; in particular [Content-Length] is right for all sixteen. *)
Theorem stock_reply_roundtrip s rest :
  read_response (wire (stock_reply s) ++ rest) =
  Some (status_code s, rep_headers (stock_reply s), stock_replies_to_string s, rest).
Proof.
  unfold stock_reply. rewrite read_framed; [done|].
  apply entity_framed. apply (bool_decide_unpack _). exact I.
Qed.
