(* ===== verification/HttpHandler.v ===== *)
(** * HttpHandler: from a request to the file that answers it

    Models [boost/http_server/request_handler.cpp]: [url_decode] (with the
    standard library's [istream >> std::hex >> int] it is built on) and
    [handle_request]. The file system is the parameter [fs] of the section
    [Handler]: what opening and reading a path yields, [None] when the stream
    cannot be opened; [handle_request] also records the paths it opens, which
    is what the path-safety theorem is about. *)
From S2P Require Import Prelude HttpParser HttpReply.

(** ** [is >> std::hex >> value] on a short string *)

Definition hex_digit (c : ascii) : option Z :=
  let v := uchar c in
  if (48 <=? v)%Z && (v <=? 57)%Z then Some (v - 48)%Z
  else if (97 <=? v)%Z && (v <=? 102)%Z then Some (v - 87)%Z
  else if (65 <=? v)%Z && (v <=? 70)%Z then Some (v - 55)%Z
  else None.

(** The digits read, [None] when there is none (which sets [failbit]). *)
Fixpoint hex_run (acc : option Z) (s : str) : option Z :=
  match s with
  | c :: s' =>
      match hex_digit c with
      | Some d => hex_run (Some (default 0 acc * 16 + d)%Z) s'
      | None => acc
      end
  | [] => acc
  end.

Definition strip_0x (s : str) : str :=
  match s with
  | z :: x :: s' => if decide (z = "0"%char /\ (x = "x"%char \/ x = "X"%char)) then s' else s
  | _ => s
  end.

(** Leading white space, an optional sign, an optional [0x], hexadecimal
    digits; what follows them is left in the stream. *)
Definition extract_hex (s : str) : option Z :=
  match skip_ws s with
  | c :: s' =>
      if decide (c = "-"%char) then Z.opp <$> hex_run None (strip_0x s')
      else if decide (c = "+"%char) then hex_run None (strip_0x s')
      else hex_run None (strip_0x (c :: s'))
  | [] => None
  end.

(** ** [url_decode]; [None] is the result [false] *)

Fixpoint url_decode (s : str) : option str :=
  match s with
  | [] => Some []
  | c :: rest =>
      if decide (c = "%"%char) then
        match rest with
        | a :: b :: rest' =>
            value ← extract_hex [a; b];
            out ← url_decode rest'; Some (to_char value :: out)
        | _ => None
        end
      else
        out ← url_decode rest;
        Some ((if decide (c = "+"%char) then SP else c) :: out)
  end.

(** ** Searching a path *)

Definition npos : Z := (2 ^ 64 - 1)%Z.

(** [find_last_of] with a single character. *)
Fixpoint find_last_from (i : Z) (best : Z) (c : ascii) (s : str) : Z :=
  match s with
  | [] => best
  | d :: s' => find_last_from (i + 1) (if decide (d = c) then i else best) c s'
  end.
Definition find_last_of (s : str) (c : ascii) : Z := find_last_from 0 npos c s.

(** [s.find("..") != npos]. *)
Fixpoint has_dotdot (s : str) : bool :=
  match s with
  | [] => false
  | c :: s' =>
      match s' with
      | d :: _ => bool_decide (c = "."%char /\ d = "."%char)
      | [] => false
      end || has_dotdot s'
  end.

(** [request_path] is refused: empty, relative, or with two dots in a row. *)
Definition bad_path (p : str) : bool :=
  bool_decide (p = []) || negb (bool_decide (head p = Some "/"%char)) || has_dotdot p.

Definition add_index (p : str) : str :=
  if decide (last p = Some "/"%char) then p ++ lit "index.html" else p.

Definition path_extension (p : str) : str :=
  let last_slash_pos := find_last_of p "/" in
  let last_dot_pos := find_last_of p "." in
  if negb (last_dot_pos =? npos)%Z && (last_slash_pos <? last_dot_pos)%Z
  then drop (Z.to_nat (last_dot_pos + 1)) p else [].

(** ** The handler *)

(** [while (is.read(buf, sizeof(buf)).gcount() > 0) content.append(buf, gcount)]
    with a 512-byte buffer; a read that comes up short leaves the stream at its
    end and the next one yields nothing. [None]: out of fuel. *)
Definition buf_size : nat := 512.
Fixpoint read_loop (fuel : nat) (stream acc : str) : option str :=
  match fuel with
  | O => None
  | S f =>
      let chunk := take buf_size stream in
      if (0 <? length chunk)%nat then read_loop f (drop buf_size stream) (acc ++ chunk)
      else Some acc
  end.

(** One iteration per byte is more than enough. *)
Definition read_all (stream acc : str) : str :=
  default acc (read_loop (S (length stream)) stream acc).

(** [headers.resize(2)] and the assignments to the two elements. *)
Definition handle_headers (body extension : str) : list header :=
  entity_headers body (extension_to_type extension).

Section Handler.
(** What an [ifstream] on this path finds. *)
Context (fs : str -> option str).
Context (doc_root : str).

(** The reply and the paths opened on the way. *)
Definition handle_request (req : request) (rep : reply) : reply * list str :=
  match url_decode (uri req) with
  | None => (stock_reply bad_request, [])
  | Some request_path =>
      if bad_path request_path then (stock_reply bad_request, [])
      else
        let request_path := add_index request_path in
        let extension := path_extension request_path in
        let full_path := doc_root ++ request_path in
        match fs (c_str full_path) with
        | None => (stock_reply not_found, [c_str full_path])
        | Some stream =>
            let content := read_all stream (content rep) in
            (Reply ok (handle_headers content extension) content, [c_str full_path])
        end
  end.
End Handler.

(** ** A reference encoder and decoder *)

Definition hex_char (d : Z) : ascii :=
  ascii_of_N (Z.to_N (if (d <? 10)%Z then 48 + d else 87 + d)%Z).

(** [%XX] for the two lower-case hexadecimal digits of a byte. *)
Definition percent (c : ascii) : str :=
  ["%"%char; hex_char (uchar c / 16); hex_char (uchar c mod 16)].

(** Any set of bytes may be left as they are, if it has neither [%] nor [+]. *)
Definition url_encode (keep : ascii -> bool) (s : str) : str :=
  concat ((fun c => if keep c && negb (bool_decide (c = "%"%char \/ c = "+"%char)) then [c] else percent c) <$> s).

(** What the two bytes after a [%] may be: two hexadecimal digits, or one of
    the forms only the stream extraction takes. *)
Definition escape_value (a b : ascii) : option Z :=
  match hex_digit a, hex_digit b with
  | Some x, Some y => Some (x * 16 + y)%Z
  | Some x, None => if decide (a = "0"%char /\ (b = "x"%char \/ b = "X"%char)) then None else Some x
  | None, Some y =>
      if isspace a || bool_decide (a = "+"%char) then Some y
      else if decide (a = "-"%char) then Some (- y)%Z else None
  | None, None => None
  end.

(** ** Lemmas *)

Lemma escape_value_table :
  forallb (fun a => forallb (fun b => bool_decide (extract_hex [a; b] = escape_value a b)) all_ascii) all_ascii = true.
Proof. vm_compute. reflexivity. Qed.

(** The extraction on two bytes, all 65536 of them. *)
Lemma escape_value_spec a b : extract_hex [a; b] = escape_value a b.
Proof.
  pose proof escape_value_table as H. rewrite forallb_forall in H.
  specialize (H a (proj1 (list_elem_of_In _ _) (all_ascii_complete a))). cbv beta in H.
  rewrite forallb_forall in H.
  specialize (H b (proj1 (list_elem_of_In _ _) (all_ascii_complete b))).
  by apply bool_decide_eq_true_1 in H.
Qed.

Lemma percent_value c :
  extract_hex [hex_char (uchar c / 16); hex_char (uchar c mod 16)] = Some (uchar c).
Proof. revert c. by_bytes. Qed.

Lemma url_decode_cons_plain c s :
  c <> "%"%char -> c <> "+"%char -> url_decode (c :: s) = out ← url_decode s; Some (c :: out).
Proof. intros. cbn [url_decode]. by rewrite !decide_False by done. Qed.

Lemma url_decode_percent a b s :
  url_decode ("%"%char :: a :: b :: s) =
  value ← extract_hex [a; b]; out ← url_decode s; Some (to_char value :: out).
Proof. reflexivity. Qed.

Lemma read_loop_all fuel stream acc :
  (length stream < fuel)%nat -> read_loop fuel stream acc = Some (acc ++ stream).
Proof.
  revert stream acc. induction fuel as [|f IH]; intros stream acc Hf; [lia|].
  cbn [read_loop]. rewrite length_take. destruct (Nat.ltb_spec 0 (buf_size `min` length stream)) as [Hl|Hl].
  - rewrite IH by (rewrite length_drop; unfold buf_size in *; lia).
    by rewrite <- app_assoc, take_drop.
  - unfold buf_size in Hl. assert (length stream = 0)%nat as Hn by lia.
    apply nil_length_inv in Hn as ->. by rewrite app_nil_r.
Qed.

Lemma read_all_app stream acc : read_all stream acc = acc ++ stream.
Proof. unfold read_all. by rewrite read_loop_all by lia. Qed.

Lemma has_dotdot_app_l s t : has_dotdot (s ++ t) = false -> has_dotdot s = false.
Proof.
  induction s as [|c s IH]; [done|]. cbn [app has_dotdot].
  intros [H1 H2]%orb_false_elim. rewrite (IH H2). destruct s; [done|]. by rewrite orb_false_r.
Qed.

(** Appending after a slash creates no new [..]. *)
Lemma has_dotdot_slash s t :
  last s = Some "/"%char -> has_dotdot s = false -> has_dotdot t = false -> has_dotdot (s ++ t) = false.
Proof.
  induction s as [|c s IH]; [done|]. intros Hl Hs Ht. cbn [app has_dotdot] in *.
  apply orb_false_elim in Hs as [H1 H2]. destruct s as [|d s].
  - injection Hl as ->. cbn. destruct t as [|e t]; [done|]. by rewrite Ht.
  - cbn [app] in *. rewrite (IH Hl H2 Ht), H1. done.
Qed.

Lemma add_index_dotdot p : has_dotdot p = false -> has_dotdot (add_index p) = false.
Proof. intros H. unfold add_index. case_decide; [|done]. by apply has_dotdot_slash. Qed.

Lemma add_index_head p : head p = Some "/"%char -> exists q, add_index p = "/"%char :: q.
Proof.
  intros H. destruct p as [|c p]; [done|]. injection H as ->. unfold add_index.
  case_decide; eauto.
Qed.

(** Every request path that gets past the checks is absolute and free of [..]. *)
Lemma good_path p : bad_path p = false -> head p = Some "/"%char /\ has_dotdot p = false.
Proof.
  unfold bad_path. intros [[_ H1]%orb_false_elim H2]%orb_false_elim.
  by apply negb_false_iff, bool_decide_eq_true_1 in H1.
Qed.

(** Splitting on a character, as a file system splits a path on slashes. *)
Fixpoint split_on (c : ascii) (s : str) : list str :=
  match s with
  | [] => [[]]
  | d :: s' =>
      if decide (d = c) then [] :: split_on c s'
      else match split_on c s' with
           | w :: ws => (d :: w) :: ws
           | [] => [[d]]
           end
  end.

Lemma split_on_ne c s : split_on c s <> [].
Proof. destruct s; cbn; [done|]. case_decide; [done|]. by destruct (split_on c s). Qed.

Lemma no_dotdot_component s : has_dotdot s = false -> lit ".." ∉ split_on "/"%char s.
Proof.
  intros H. enough (lit ".." ∉ split_on "/"%char s /\
    (forall w ws, split_on "/"%char s = w :: ws -> head s <> Some "."%char -> head w <> Some "."%char)) by tauto.
  induction s as [|c s IH]; [by split; [apply (bool_decide_unpack _)|intros w ws [= <- <-]]|].
  cbn [has_dotdot] in H. apply orb_false_elim in H as [H1 H2].
  destruct (IH H2) as [Hin Hhd]. clear IH. cbn [split_on]. destruct (decide (c = "/"%char)) as [->|Hc].
  { split; [|by intros w ws [= <- <-]]. by apply not_elem_of_cons. }
  destruct (split_on "/"%char s) as [|w ws] eqn:Hsp; [by destruct (split_on_ne "/"%char s)|].
  split; [|intros ? ? [= <- <-]; cbn; congruence].
  apply not_elem_of_cons in Hin as [_ Hin]. apply not_elem_of_cons. split; [|done].
  intros [= <- <-]. destruct s as [|d s]; [discriminate|].
  apply (Hhd _ _ eq_refl); [|done]. intros [= ->]. by rewrite bool_decide_eq_true_2 in H1.
Qed.

Lemma handle_framed fs doc_root req rep : framed (fst (handle_request fs doc_root req rep)).
Proof.
  assert (forall s, framed (stock_reply s)) as Hs.
  { intros s. apply entity_framed. apply (bool_decide_unpack _). exact I. }
  unfold handle_request. repeat case_match; cbn [fst]; try apply Hs.
  apply entity_framed, extension_to_type_no_cr.
Qed.

(** ** Properties *)

Lemma url_decode_url_encode keep s : url_decode (url_encode keep s) = Some s.
Proof.
  induction s as [|c s IH]; [done|]. unfold url_encode in *. rewrite fmap_cons. cbn [concat].
  destruct (keep c && _) eqn:Hk; cbn [app].
  - apply andb_true_iff in Hk as [_ Hk]. apply negb_true_iff, bool_decide_eq_false_1 in Hk.
    rewrite url_decode_cons_plain by tauto. by rewrite IH.
  - cbn [percent app]. rewrite url_decode_percent, percent_value. cbn [mbind option_bind].
    rewrite IH. cbn. by rewrite to_char_uchar.
Qed.

(** C39: percent-encoding is undone: whichever bytes the sender leaves as they
    are, [url_decode] gives back the text that was encoded, NUL bytes, [%],
    [+] and bytes above 127 included. What it accepts after a percent sign is
    more than two hexadecimal digits: an escape [%ab] fails exactly when
    [escape_value] has no value for it, and it has one for a single digit after
    white space or a sign, and for a digit followed by any byte that is not one. *)
Theorem url_decode_spec keep s :
  url_decode (url_encode keep s) = Some s /\
  forall a b t, url_decode ("%"%char :: a :: b :: t) =
    (value ← escape_value a b; out ← url_decode t; Some (to_char value :: out)).
Proof. split; [apply url_decode_url_encode|]. intros a b t. by rewrite url_decode_percent, escape_value_spec. Qed.

(** C3: no request reaches a file outside the document root: every path the
    handler opens is the document root followed by an absolute path none of
    whose components is [..], whatever the encoding of the URI. *)
Theorem opened_paths_safe fs doc_root req rep p :
  NUL ∉ doc_root ->
  p ∈ snd (handle_request fs doc_root req rep) ->
  exists q, p = doc_root ++ "/"%char :: q /\ lit ".." ∉ split_on "/"%char ("/"%char :: q).
Proof.
  intros Hroot. unfold handle_request. destruct (url_decode (uri req)) as [rp|]; [|by intros ?%elem_of_nil].
  destruct (bad_path rp) eqn:Hbad; [by intros ?%elem_of_nil|].
  apply good_path in Hbad as [Hhd Hdd]. destruct (add_index_head rp Hhd) as [q Hq].
  pose proof (add_index_dotdot rp Hdd) as Hdd'. rewrite Hq in *.
  assert (p ∈ [c_str (doc_root ++ "/"%char :: q)] ->
    exists q, p = doc_root ++ "/"%char :: q /\ lit ".." ∉ split_on "/"%char ("/"%char :: q)) as Hgoal.
  { intros ->%list_elem_of_singleton. rewrite c_str_app by done. cbn [c_str].
    rewrite decide_False by done. exists (c_str q). split; [done|].
    apply no_dotdot_component. destruct (c_str_prefix q) as [t Ht].
    apply (has_dotdot_app_l _ t). cbn [app]. by rewrite <- Ht. }
  by case_match.
Qed.

(** A server rooted at [/srv] asked for [/x%2ehtml]. *)
Theorem opened_paths_safe_witness :
  let fs := fun _ : str => None in
  let req := Request (lit "GET") (lit "/x%2ehtml") 1 0 [] in
  exists p q, p ∈ snd (handle_request fs (lit "/srv") req (Reply ok [] [])) /\
    p = lit "/srv" ++ "/"%char :: q.
Proof.
  cbv zeta. exists (lit "/srv/x.html").
  destruct (opened_paths_safe (fun _ => None) (lit "/srv") (Request (lit "GET") (lit "/x%2ehtml") 1 0 [])
    (Reply ok [] []) (lit "/srv/x.html")) as (q & Hq & _).
  - apply (bool_decide_unpack _). vm_compute. exact I.
  - apply (bool_decide_unpack _). vm_compute. exact I.
  - exists q. split; [|exact Hq]. apply (bool_decide_unpack _). vm_compute. exact I.
Defined.

(** a request for a file is answered with that file: when the decoded path
    passes the checks and the file opens, the reply is [200] with the whole
    file as content and its MIME type; when it does not open, [404]; and when
    the URI does not decode or the path is refused, [400] without any file
    being opened. *)
Theorem handle_request_spec fs doc_root req :
  match url_decode (uri req) with
  | None => handle_request fs doc_root req (Reply ok [] []) = (stock_reply bad_request, [])
  | Some p =>
      if decide (head p = Some "/"%char /\ has_dotdot p = false) then
        let full := c_str (doc_root ++ add_index p) in
        handle_request fs doc_root req (Reply ok [] []) =
          (match fs full with
           | None => stock_reply not_found
           | Some file =>
               Reply ok [Header (lit "Content-Length") (to_string (N.of_nat (length file)));
                         Header (lit "Content-Type") (extension_to_type (path_extension (add_index p)))] file
           end, [full])
      else handle_request fs doc_root req (Reply ok [] []) = (stock_reply bad_request, [])
  end.
Proof.
  unfold handle_request. destruct (url_decode (uri req)) as [p|]; [|done].
  case_decide as Hok.
  - destruct (bad_path p) eqn:Hbad.
    { unfold bad_path in Hbad. destruct Hok as [Hhd Hdd]. rewrite Hdd in Hbad.
      rewrite bool_decide_eq_false_2, bool_decide_eq_true_2 in Hbad by (done || by intros ->). done. }
    cbv zeta. destruct (fs _); [|done]. by rewrite read_all_app.
  - destruct (bad_path p) eqn:Hbad; [done|]. by apply good_path in Hbad.
Qed.

(** every reply of the handler is a well-framed response on the wire,
    whatever was in the file, the URI and the file system. *)
Theorem handle_request_roundtrip fs doc_root req rep rest :
  let r := fst (handle_request fs doc_root req rep) in
  read_response (wire r ++ rest) = Some (status_code (status r), rep_headers r, content r, rest).
Proof. apply read_framed, handle_framed. Qed.
