(* ===== verification/HttpServer.v ===== *)
(** * HttpServer: connections, the connection manager and the server loop

    Models [boost/http_server/connection.cpp], [connection_manager.cpp] and
    [server.cpp]: the completion handlers as functions on the state of the
    server, one event per completion of an asynchronous operation and one per
    handler that [io_context::run] invokes.

    What Asio does is modelled from its documentation: an operation started on
    an open socket is in flight until the system completes it; closing the
    socket completes the operations in flight with [operation_aborted]; an
    operation started on a closed socket completes with another error; a
    handler runs later than the completion it reports, so a socket may be
    closed between the two. *)
From S2P Require Import Prelude HttpParser HttpReply HttpHandler.

(** ** The interface of the request handler *)

(** What the connection needs of [request_handler]: a total operation whose
    replies announce their own length. *)
Class RequestHandler := {
  handle : request -> reply -> reply;
  handle_framed_law : forall req rep, framed (handle req rep) }.

(** The handler of [HttpHandler] keeps that promise for every file system. *)
#[export] Instance file_handler (fs : str -> option str) (doc_root : str) : RequestHandler := {
  handle := fun req rep => fst (handle_request fs doc_root req rep);
  handle_framed_law := handle_framed fs doc_root }.

(** ** State *)

Inductive error_code := success | operation_aborted | other_error.

#[export] Instance error_code_eq_dec : EqDecision error_code.
Proof. solve_decision. Defined.

(** An asynchronous operation of a connection, with its completion once it has
    one: a read completes with bytes; a write has the bytes still to send. *)
Inductive op :=
  | reading (done : option (error_code * str))
  | writing (rest : str) (done : option error_code).

Record connection := Conn {
  c_open : bool;
  c_request : request;
  c_parser : state;
  c_reply : reply;
  c_ops : list op;
  c_received : str;   (* every byte given to the parser or left after it *)
  c_sent : str        (* every byte the peer was sent *) }.

Record server := Server {
  acceptor_open : bool;
  accepts : list (option error_code);   (* outstanding accept operations *)
  signal_wait : bool;                   (* the signal handler is armed *)
  conns : list connection;              (* every connection object made so far *)
  managed : gset nat                    (* [connections_], by position in [conns] *) }.

Definition set_ops (c : connection) (ops : list op) : connection :=
  Conn (c_open c) (c_request c) (c_parser c) (c_reply c) ops (c_received c) (c_sent c).
Definition set_parsed (c : connection) (req : request) (st : state) (bytes : str) : connection :=
  Conn (c_open c) req st (c_reply c) (c_ops c) (c_received c ++ bytes) (c_sent c).
Definition set_reply (c : connection) (rep : reply) : connection :=
  Conn (c_open c) (c_request c) (c_parser c) rep (c_ops c) (c_received c) (c_sent c).
Definition set_sent (c : connection) (bytes : str) : connection :=
  Conn (c_open c) (c_request c) (c_parser c) (c_reply c) (c_ops c) (c_received c) (c_sent c ++ bytes).
Definition set_conn (s : server) (i : nat) (c : connection) : server :=
  Server (acceptor_open s) (accepts s) (signal_wait s) (<[i := c]> (conns s)) (managed s).
Definition set_managed (s : server) (m : gset nat) : server :=
  Server (acceptor_open s) (accepts s) (signal_wait s) (conns s) m.
Definition set_accepts (s : server) (l : list (option error_code)) : server :=
  Server (acceptor_open s) l (signal_wait s) (conns s) (managed s).

(** [std::array<char, 8192> buffer_]. *)
Definition buffer_size : nat := 8192.

(** ** Sockets *)

Definition abort_op (o : op) : op :=
  match o with
  | reading None => reading (Some (operation_aborted, []))
  | writing b None => writing b (Some operation_aborted)
  | _ => o
  end.

(** [socket_.close()] *)
Definition close (c : connection) : connection :=
  Conn false (c_request c) (c_parser c) (c_reply c) (abort_op <$> c_ops c) (c_received c) (c_sent c).

Section Server.
Context `{RH : RequestHandler}.
(** The uninitialised members of [request_] and [reply_]. *)
Context (v_major v_minor : Z) (v_status : status_type).

Definition request0 : request := empty_request (int32 v_major) (int32 v_minor).
Definition reply0 : reply := Reply v_status [] [].

(** ** [connection] *)

Definition new_connection : connection := Conn true request0 request_parser reply0 [] [] [].

Definition do_read (c : connection) : connection :=
  set_ops c (c_ops c ++ [reading (if c_open c then None else Some (other_error, []))]).

Definition do_write (c : connection) : connection :=
  set_ops c (c_ops c ++ [writing (wire (c_reply c)) (if c_open c then None else Some other_error)]).

Definition connection_start (c : connection) : connection := do_read c.
Definition connection_stop (c : connection) : connection := close c.

(** The body of the read handler under [if (!ec)]; [None] is undefined
    behaviour inside the parser. *)
Definition on_data (c : connection) (bytes : str) : option connection :=
  '(result, st, req, _) ← parse (c_parser c) (c_request c) bytes;
  let c := set_parsed c req st bytes in
  Some match result with
       | good => do_write (set_reply c (handle (c_request c) (c_reply c)))
       | bad => do_write (set_reply c (stock_reply bad_request))
       | indeterminate => do_read c
       end.

(** ** [connection_manager] *)

Definition manager_start (s : server) (c : connection) : server :=
  let i := length (conns s) in
  Server (acceptor_open s) (accepts s) (signal_wait s) (conns s ++ [connection_start c]) ({[i]} ∪ managed s).

Definition manager_stop (s : server) (i : nat) : server :=
  let s := set_managed s (managed s ∖ {[i]}) in
  Server (acceptor_open s) (accepts s) (signal_wait s) (alter connection_stop i (conns s)) (managed s).

Definition manager_stop_all (s : server) : server :=
  Server (acceptor_open s) (accepts s) (signal_wait s)
    (imap (fun i c => if decide (i ∈ managed s) then connection_stop c else c) (conns s)) ∅.

(** ** Completion handlers *)

Definition on_read (s : server) (i : nat) (c : connection) (ec : error_code) (bytes : str) : option server :=
  match ec with
  | success => c' ← on_data c bytes; Some (set_conn s i c')
  | operation_aborted => Some s
  | other_error => Some (manager_stop s i)
  end.

(** The shutdown of both directions before the close has no effect of its
    own: the socket is closed by [connection_manager_.stop]. *)
Definition on_write (s : server) (i : nat) (ec : error_code) : server :=
  match ec with
  | operation_aborted => s
  | _ => manager_stop s i
  end.

Definition do_accept (s : server) : server := set_accepts s (accepts s ++ [None]).

Definition on_accept (s : server) (ec : error_code) : server :=
  if negb (acceptor_open s) then s
  else do_accept match ec with
                 | success => manager_start s new_connection
                 | _ => s
                 end.

(** [acceptor_.close(); connection_manager_.stop_all();] *)
Definition on_signal (s : server) : server :=
  manager_stop_all
    (Server false ((fun a => Some (default operation_aborted a)) <$> accepts s) false (conns s) (managed s)).

(** [server::server]: the signal wait, then the first accept. *)
Definition init_server : server := do_accept (Server true [] true [] ∅).

(** ** The events of [io_context::run] *)

Inductive event :=
  | accepted_by_system (k : nat) (ec : error_code)
  | received (i k : nat) (ec : error_code) (bytes : str)
  | transmitted (i k n : nat)
  | written (i k : nat) (ec : error_code)
  | run_accept (k : nat)
  | run_op (i k : nat)
  | run_signal.

Inductive outcome := disabled | undefined | next (s : server).

Definition of_option (o : option server) : outcome :=
  match o with Some s => next s | None => undefined end.

(** The system never reports [operation_aborted] by itself, and a
    successful read transfers between one byte and a whole buffer. *)
Definition valid_read (ec : error_code) (bytes : str) : bool :=
  match ec with
  | success => (0 <? length bytes)%nat && (length bytes <=? buffer_size)%nat
  | operation_aborted => false
  | other_error => bool_decide (bytes = [])
  end.

(** [async_write] reports success once everything is sent. *)
Definition valid_write (ec : error_code) (rest : str) : bool :=
  match ec with
  | success => bool_decide (rest = [])
  | operation_aborted => false
  | other_error => true
  end.

(** The [k]-th operation of the [i]-th connection. *)
Definition find_op (s : server) (i k : nat) : option (connection * op) :=
  c ← conns s !! i; o ← c_ops c !! k; Some (c, o).

Definition step (s : server) (e : event) : outcome :=
  match e with
  | accepted_by_system k ec =>
      match accepts s !! k with
      | Some None =>
          if decide (ec = operation_aborted) then disabled
          else next (set_accepts s (<[k := Some ec]> (accepts s)))
      | _ => disabled
      end
  | received i k ec bytes =>
      match find_op s i k with
      | Some (c, reading None) =>
          if valid_read ec bytes then
            next (set_conn s i (set_ops c (<[k := reading (Some (ec, bytes))]> (c_ops c))))
          else disabled
      | _ => disabled
      end
  | transmitted i k n =>
      match find_op s i k with
      | Some (c, writing b None) =>
          if (0 <? n)%nat && (n <=? length b)%nat then
            next (set_conn s i (set_sent (set_ops c (<[k := writing (drop n b) None]> (c_ops c))) (take n b)))
          else disabled
      | _ => disabled
      end
  | written i k ec =>
      match find_op s i k with
      | Some (c, writing b None) =>
          if valid_write ec b then next (set_conn s i (set_ops c (<[k := writing b (Some ec)]> (c_ops c))))
          else disabled
      | _ => disabled
      end
  | run_accept k =>
      match accepts s !! k with
      | Some (Some ec) => next (on_accept (set_accepts s (delete k (accepts s))) ec)
      | _ => disabled
      end
  | run_op i k =>
      match find_op s i k with
      | Some (c, reading (Some (ec, bytes))) =>
          let c' := set_ops c (delete k (c_ops c)) in
          of_option (on_read (set_conn s i c') i c' ec bytes)
      | Some (c, writing b (Some ec)) =>
          next (on_write (set_conn s i (set_ops c (delete k (c_ops c)))) i ec)
      | _ => disabled
      end
  | run_signal => if signal_wait s then next (on_signal s) else disabled
  end.

Fixpoint run (s : server) (es : list event) : outcome :=
  match es with
  | [] => next s
  | e :: es' =>
      match step s e with
      | next s' => run s' es'
      | o => o
      end
  end.

(** ** Specification: the answer to what a connection has received *)

(** The one reply the received bytes call for, as soon as they do. *)
Definition response_to (received : str) : option str :=
  '(result, _, req, _) ← parse request_parser request0 received;
  match result with
  | good => Some (wire (handle req reply0))
  | bad => Some (wire (stock_reply bad_request))
  | indeterminate => None
  end.

(** ** Invariant of a connection *)

Inductive conn_inv (c : connection) : Prop :=
  | waiting d
      (Hops : c_ops c = [reading d])
      (Hparse : parse request_parser request0 (c_received c) = Some (indeterminate, c_parser c, c_request c, []))
      (Hsent : c_sent c = []) (Hrep : c_reply c = reply0)
      (Hopen : d = None -> c_open c = true)
      (Habort : forall b, d = Some (operation_aborted, b) -> c_open c = false)
  | answering rest d
      (Hops : c_ops c = [writing rest d])
      (Hresp : response_to (c_received c) = Some (c_sent c ++ rest))
      (Hdone : d = Some success -> rest = [])
      (Hopen : d = None -> c_open c = true)
      (Habort : d = Some operation_aborted -> c_open c = false)
  | finished
      (Hops : c_ops c = [])
      (Hclosed : c_open c = false)
      (Hsent : c_sent c = [] \/ exists rest, response_to (c_received c) = Some (c_sent c ++ rest)).

Definition sent_ok (c : connection) : Prop :=
  c_sent c = [] \/ exists rest, response_to (c_received c) = Some (c_sent c ++ rest).

Lemma conn_inv_sent c : conn_inv c -> sent_ok c.
Proof. unfold sent_ok. intros [d|r d|]; [by left|right; eauto|done]. Qed.

Lemma conn_inv_outstanding c : conn_inv c ->
  (length (c_ops c) <= 1)%nat /\ (c_open c = true -> length (c_ops c) = 1)%nat.
Proof. intros [d|r d|]; rewrite Hops; cbn; (split; [lia|]); congruence. Qed.

(** Closing a connection whose operation has just been removed. *)
Lemma close_finished c : sent_ok c -> conn_inv (close (set_ops c [])).
Proof. intros H. by apply finished. Qed.

Lemma close_inv c : conn_inv c -> conn_inv (close c).
Proof.
  intros [d|r d|]; unfold close.
  - eapply (waiting _ (match d with None => Some (operation_aborted, []) | _ => d end)); cbn; try done.
    + rewrite Hops. by destruct d as [[]|].
    + by destruct d.
  - eapply (answering _ r (Some (default operation_aborted d))); cbn; try done.
    + rewrite Hops. by destruct d.
    + intros [= Hd]. apply Hdone. by destruct d; cbn in Hd; congruence.
  - apply finished; cbn; try done. by rewrite Hops.
Qed.

Lemma parser_ok_received c :
  parse request_parser request0 (c_received c) = Some (indeterminate, c_parser c, c_request c, []) ->
  parser_ok (c_parser c) (c_request c).
Proof.
  intros Hp. destruct (parse_ok request_parser request0 (c_received c)) as (r & st & req & rest & Hp' & Hok).
  { split_and!; [done|apply int32_range..]. }
  rewrite Hp in Hp'. by injection Hp' as <- <- <- <-.
Qed.

(** The read handler keeps the invariant and never meets undefined behaviour. *)
Lemma on_data_inv c bytes :
  parse request_parser request0 (c_received c) = Some (indeterminate, c_parser c, c_request c, []) ->
  c_sent c = [] -> c_reply c = reply0 -> c_ops c = [] ->
  exists c', on_data c bytes = Some c' /\ conn_inv c' /\ c_open c' = c_open c.
Proof.
  intros Hp Hs Hr Ho. pose proof (parser_ok_received c Hp) as Hok.
  destruct (parse_ok _ _ bytes Hok) as (r & st & req & rest & Hpb & _).
  pose proof (parse_app_aux request_parser request0 (c_received c) bytes) as Happ.
  rewrite Hp in Happ. cbn [mbind option_bind] in Happ. rewrite Hpb in Happ.
  unfold on_data. rewrite Hpb. cbn [mbind option_bind]. eexists. split; [reflexivity|].
  destruct r; (split; [|done]).
  - eapply (answering _ (wire (handle req reply0)) (if c_open c then None else Some other_error)); cbn.
    + by rewrite Ho, Hr.
    + unfold response_to. by rewrite Happ, Hs.
    + by destruct (c_open c).
    + by destruct (c_open c).
    + by destruct (c_open c).
  - eapply (answering _ (wire (stock_reply bad_request)) (if c_open c then None else Some other_error)); cbn.
    + by rewrite Ho.
    + unfold response_to. by rewrite Happ, Hs.
    + by destruct (c_open c).
    + by destruct (c_open c).
    + by destruct (c_open c).
  - apply parse_rest_suffix in Hpb as Hsuf. destruct Hsuf as (used & _ & Hnil).
    rewrite (Hnil eq_refl) in Happ.
    eapply (waiting _ (if c_open c then None else Some (other_error, []))); cbn; try done.
    + by rewrite Ho.
    + by destruct (c_open c).
    + intros b. by destruct (c_open c).
Qed.

(** ** Invariant of the server *)

Record server_inv (s : server) : Prop := {
  inv_conn : forall i c, conns s !! i = Some c -> conn_inv c;
  inv_open : forall i c, conns s !! i = Some c -> c_open c = true <-> i ∈ managed s;
  inv_dom : forall i, i ∈ managed s -> is_Some (conns s !! i);
  inv_accepts : (length (accepts s) <= 1)%nat;
  inv_running : acceptor_open s = signal_wait s;
  inv_accepting : acceptor_open s = true -> length (accepts s) = 1%nat;
  inv_stopped : acceptor_open s = false -> managed s = ∅ /\ Forall is_Some (accepts s) }.

(** Replacing one connection, with the managed set following its socket. *)
Lemma inv_update s i c c' m :
  server_inv s -> conns s !! i = Some c -> conn_inv c' ->
  (c_open c' = true <-> i ∈ m) -> (forall j, j <> i -> j ∈ m <-> j ∈ managed s) ->
  (i ∈ m -> i ∈ managed s) ->
  server_inv (set_managed (set_conn s i c') m).
Proof.
  intros [] Hi Hc' Ho Hm Hmi. pose proof (lookup_lt_Some _ _ _ Hi). constructor; cbn; try done.
  - intros j d [(-> & <- & _)|[? Hj]]%list_lookup_insert_Some; eauto.
  - intros j d [(-> & <- & _)|[Hne Hj]]%list_lookup_insert_Some; [done|].
    rewrite Hm by done. eauto.
  - intros j Hj. destruct (decide (j = i)) as [->|Hne].
    + rewrite list_lookup_insert_eq by done. done.
    + rewrite list_lookup_insert_ne by done. apply inv_dom0. by apply Hm.
  - intros Hcl. destruct (inv_stopped0 Hcl) as [He Ha]. split; [|done].
    rewrite He in *. apply set_eq. intros j. destruct (decide (j = i)) as [->|Hne].
    + set_solver.
    + by rewrite (Hm j Hne).
Qed.

Lemma inv_set_conn s i c c' :
  server_inv s -> conns s !! i = Some c -> conn_inv c' -> c_open c' = c_open c ->
  server_inv (set_conn s i c').
Proof.
  intros Hs Hi Hc' Ho. pose proof (inv_update s i c c' (managed s) Hs Hi Hc') as Hu.
  destruct s; apply Hu; try done. rewrite Ho. by apply (inv_open _ Hs).
Qed.

Lemma manager_stop_eq s i c :
  (i < length (conns s))%nat ->
  manager_stop (set_conn s i c) i = set_managed (set_conn s i (close c)) (managed s ∖ {[i]}).
Proof.
  intros Hi. unfold manager_stop, set_conn, set_managed; cbn. f_equal.
  apply list_eq. intros j. destruct (decide (i = j)) as [<-|Hne].
  - rewrite list_lookup_alter_eq, !list_lookup_insert_eq by done. done.
  - by rewrite list_lookup_alter_ne, !list_lookup_insert_ne by done.
Qed.

Lemma inv_stop s i c c' :
  server_inv s -> conns s !! i = Some c -> conn_inv (close c') ->
  server_inv (manager_stop (set_conn s i c') i).
Proof.
  intros Hs Hi Hc'. rewrite manager_stop_eq by by eapply lookup_lt_Some.
  apply (inv_update s i c); [done..| | |]; cbn; set_solver.
Qed.

Lemma inv_on_signal s : server_inv s -> server_inv (on_signal s).
Proof.
  intros []. constructor; cbn; try done.
  - intros i c. rewrite list_lookup_imap. intros (c0 & Hi & ->)%fmap_Some.
    case_decide; [apply close_inv|]; eauto.
  - intros i c. rewrite list_lookup_imap. intros (c0 & Hi & ->)%fmap_Some.
    case_decide as Hm; [set_solver|]. rewrite (inv_open0 _ _ Hi). set_solver.
  - by rewrite length_fmap.
  - intros _. split; [done|]. apply Forall_fmap, Forall_true. intros []; by eexists.
Qed.

Lemma new_connection_inv : conn_inv (connection_start new_connection).
Proof. by eapply (waiting _ None). Qed.

Lemma inv_start s :
  server_inv s -> acceptor_open s = true ->
  server_inv (manager_start s new_connection).
Proof.
  intros [] Ha. constructor; cbn; try done; [| | |congruence].
  - intros i c [?|(_ & Hc)]%lookup_app_Some; [eauto|].
    apply list_lookup_singleton_Some in Hc as [_ <-]. apply new_connection_inv.
  - intros i c [Hi|(Hl & Hc)]%lookup_app_Some.
    + rewrite (inv_open0 _ _ Hi), elem_of_union, elem_of_singleton.
      apply lookup_lt_Some in Hi. split; [by right|]. intros [->|]; [lia|done].
    + apply list_lookup_singleton_Some in Hc as [Hz <-]. cbn. rewrite elem_of_union, elem_of_singleton. split; [left; lia|done].
  - intros i [->%elem_of_singleton|Hi%inv_dom0]%elem_of_union.
    + rewrite lookup_app_r, Nat.sub_diag by done. done.
    + destruct Hi as [c Hi]. exists c. by apply lookup_app_l_Some.
Qed.

Lemma inv_run_accept s k ec :
  server_inv s -> accepts s !! k = Some (Some ec) ->
  server_inv (on_accept (set_accepts s (delete k (accepts s))) ec).
Proof.
  intros Hs Hk. assert (delete k (accepts s) = []) as ->.
  { pose proof (inv_accepts _ Hs). destruct (accepts s) as [|a [|]]; cbn in *; [done| |lia].
    by destruct k. }
  unfold on_accept; cbn. destruct (acceptor_open s) eqn:Ho; cbn.
  - assert (forall s', server_inv s' -> acceptor_open s' = true ->
      server_inv (do_accept (set_accepts s' []))) as Hgen.
    { intros s' [] Hop. constructor; cbn; try done; congruence. }
    destruct ec; try by apply Hgen.
    by apply (Hgen (manager_start s new_connection)), Ho; apply inv_start.
  - destruct Hs. constructor; cbn; try done; [lia|congruence|].
    intros _. split; [by apply inv_stopped0|constructor].
Qed.

Lemma init_inv : server_inv init_server.
Proof. constructor; cbn; try done. Qed.

Lemma find_op_inv s i k c o :
  server_inv s -> find_op s i k = Some (c, o) ->
  conns s !! i = Some c /\ conn_inv c /\ k = 0%nat /\ c_ops c = [o].
Proof.
  unfold find_op. intros Hs Hf. destruct (conns s !! i) as [c0|] eqn:Hi; [|done].
  cbn in Hf. destruct (c_ops c0 !! k) as [o0|] eqn:Hk; [|done]. injection Hf as -> ->.
  pose proof (inv_conn _ Hs _ _ Hi) as Hc. split_and!; try done.
  - apply conn_inv_outstanding in Hc as [Hl _]. apply lookup_lt_Some in Hk. lia.
  - apply conn_inv_outstanding in Hc as [Hl _].
    destruct (c_ops c) as [|a [|]]; cbn in Hl; [done| |lia]. destruct k; [|done]. by injection Hk as ->.
Qed.

(** An operation of [conn_inv] whose handler has run. *)
Lemma delete_only (o : op) ops : ops = [o] -> delete 0%nat ops = [].
Proof. by intros ->. Qed.

Lemma run_op_read_inv s i c ec bytes :
  server_inv s -> conns s !! i = Some c -> conn_inv c -> c_ops c = [reading (Some (ec, bytes))] ->
  exists s', on_read (set_conn s i (set_ops c [])) i (set_ops c []) ec bytes = Some s' /\ server_inv s'.
Proof.
  intros Hs Hi Hc Ho. destruct Hc as [d|r d|]; rewrite Ho in Hops; try done. injection Hops as <-.
  destruct ec; cbn [on_read].
  - destruct (on_data_inv (set_ops c []) bytes) as (c' & -> & Hc' & Hop'); [done..|].
    cbn [mbind option_bind]. eexists. split; [reflexivity|].
    replace (set_conn (set_conn s i (set_ops c [])) i c') with (set_conn s i c').
    2: { unfold set_conn; cbn. by rewrite list_insert_insert_eq. }
    by apply (inv_set_conn s i c).
  - eexists. split; [reflexivity|]. apply (inv_set_conn s i c); try done.
    apply finished; cbn; try done; [by eapply Habort|by left].
  - eexists. split; [reflexivity|]. apply (inv_stop s i c); try done.
    apply close_finished. by left.
Qed.

Lemma run_op_write_inv s i c rest ec :
  server_inv s -> conns s !! i = Some c -> conn_inv c -> c_ops c = [writing rest (Some ec)] ->
  server_inv (on_write (set_conn s i (set_ops c [])) i ec).
Proof.
  intros Hs Hi Hc Ho. pose proof (conn_inv_sent c Hc) as Hsent.
  destruct Hc as [d|r d|]; rewrite Ho in Hops; try done. injection Hops as <- <-.
  destruct ec; cbn [on_write].
  - apply (inv_stop s i c); try done. by apply close_finished.
  - apply (inv_set_conn s i c); try done. apply finished; cbn; [done|by apply Habort|done].
  - apply (inv_stop s i c); try done. by apply close_finished.
Qed.

(** Every step keeps the invariant, and no step is undefined. *)
Lemma step_inv s e : server_inv s ->
  match step s e with next s' => server_inv s' | disabled => True | undefined => False end.
Proof.
  intros Hs. destruct e as [k ec|i k ec bytes|i k n|i k ec|k|i k|]; cbn [step].
  - destruct (accepts s !! k) as [[|]|] eqn:Hk; try done. case_decide; [done|].
    destruct Hs. constructor; cbn; try done; rewrite ?length_insert; try done.
    intros Hcl. destruct (inv_stopped0 Hcl) as [? HF]. split; [done|].
    apply Forall_insert; [done|by eexists].
  - destruct (find_op s i k) as [[c [[[]|]|]]|] eqn:Hf; try done.
    destruct (valid_read ec bytes) eqn:Hv; [|done].
    apply find_op_inv in Hf as (Hi & Hc & -> & Ho); [|done]. rewrite Ho. cbn.
    apply (inv_set_conn s i c); try done.
    destruct Hc as [d|r d|]; rewrite Ho in Hops; try done. injection Hops as <-.
    apply (waiting _ (Some (ec, bytes))); cbn; try done. by intros b [= -> _].
  - destruct (find_op s i k) as [[c [[]|b []]]|] eqn:Hf; try done.
    destruct (_ && _) eqn:Hn; [|done].
    apply find_op_inv in Hf as (Hi & Hc & -> & Ho); [|done]. rewrite Ho. cbn.
    apply (inv_set_conn s i c); try done.
    destruct Hc as [d|r d|]; rewrite Ho in Hops; try done. injection Hops as <- <-.
    apply (answering _ (drop n b) None); cbn; try done.
    by rewrite <- app_assoc, take_drop.
  - destruct (find_op s i k) as [[c [[]|b []]]|] eqn:Hf; try done.
    destruct (valid_write ec b) eqn:Hv; [|done].
    apply find_op_inv in Hf as (Hi & Hc & -> & Ho); [|done]. rewrite Ho. cbn.
    apply (inv_set_conn s i c); try done.
    destruct Hc as [d|r d|]; rewrite Ho in Hops; try done. injection Hops as <- <-.
    apply (answering _ b (Some ec)); cbn; try done.
    + intros [= ->]. by apply bool_decide_eq_true_1 in Hv.
    + by intros [= ->].
  - destruct (accepts s !! k) as [[|]|] eqn:Hk; try done. by apply inv_run_accept.
  - destruct (find_op s i k) as [[c [[[ec bytes]|]|b [ec|]]]|] eqn:Hf; try done;
      apply find_op_inv in Hf as (Hi & Hc & -> & Ho); try done; rewrite (delete_only _ _ Ho).
    + destruct (run_op_read_inv s i c ec bytes) as (s' & -> & Hs'); done.
    + by eapply run_op_write_inv.
  - destruct (signal_wait s); [|done]. by apply inv_on_signal.
Qed.

Lemma run_inv s es : server_inv s ->
  match run s es with next s' => server_inv s' | disabled => True | undefined => False end.
Proof.
  revert s. induction es as [|e es IH]; intros s Hs; [done|]. cbn [run].
  pose proof (step_inv s e Hs) as He. destruct (step s e); try done. by apply IH.
Qed.

(** ** Shutdown: how much work is left once the acceptor is closed *)

Definition op_work (o : op) : nat :=
  match o with
  | reading None => 3
  | reading (Some (success, _)) => 2
  | reading (Some _) => 1
  | writing _ None => 2
  | writing _ (Some _) => 1
  end.
Definition conn_work (c : connection) : nat := sum_list (op_work <$> c_ops c).
Definition accept_work (a : option error_code) : nat := if a then 1 else 2.
Definition server_work (s : server) : nat :=
  sum_list (conn_work <$> conns s) + sum_list (accept_work <$> accepts s).

(** The operations that keep [io_context::run] from returning. *)
Definition outstanding (s : server) : Prop :=
  accepts s <> [] \/ exists i c, conns s !! i = Some c /\ c_ops c <> [].

(** A step that replaces one connection by one with less work. *)
Lemma work_set_conn s i c c' m :
  conns s !! i = Some c -> (conn_work c' < conn_work c)%nat ->
  (server_work (set_managed (set_conn s i c') m) < server_work s)%nat.
Proof.
  intros Hi Hw. pose proof (weight_insert conn_work (conns s) i c c' Hi).
  unfold server_work; cbn. lia.
Qed.

Lemma stopped_closed s i c :
  server_inv s -> acceptor_open s = false -> conns s !! i = Some c -> c_open c = false.
Proof.
  intros Hs Ho Hi. destruct (inv_stopped _ Hs Ho) as [Hm _].
  destruct (c_open c) eqn:Hc; [|done]. apply (inv_open _ Hs _ _ Hi) in Hc.
  rewrite Hm in Hc. by apply elem_of_empty in Hc.
Qed.

Lemma closed_done c o : conn_inv c -> c_open c = false -> c_ops c = [o] ->
  o <> reading None /\ forall rest, o <> writing rest None.
Proof.
  intros [d|r d|] Hc Ho; rewrite Ho in Hops; try done; injection Hops as ->; split;
    try done; intros; intros [=]; subst; by rewrite Hopen in Hc.
Qed.

Lemma on_data_work c bytes c' :
  c_open c = false -> on_data c bytes = Some c' -> c_ops c = [] -> conn_work c' = 1%nat.
Proof.
  unfold on_data. intros Ho Hd Hops. destruct (parse _ _ bytes) as [[[[r st] req] rest]|]; [|done].
  cbn in Hd. injection Hd as <-. destruct r; unfold conn_work; cbn; rewrite Hops, Ho; done.
Qed.

Lemma run_op_stopped s i k s' :
  server_inv s -> acceptor_open s = false -> step s (run_op i k) = next s' ->
  (server_work s' < server_work s)%nat /\ acceptor_open s' = false.
Proof.
  intros Hs Ho. cbn [step]. destruct (find_op s i k) as [[c o]|] eqn:Hf; [|done].
  apply find_op_inv in Hf as (Hi & Hc & -> & Hops); [|done].
  pose proof (stopped_closed _ _ _ Hs Ho Hi) as Hcl.
  pose proof (lookup_lt_Some _ _ _ Hi) as Hlt.
  rewrite (delete_only _ _ Hops).
  assert (forall w, (w < conn_work c)%nat -> w = 0%nat ->
    (server_work (set_conn s i (set_ops c [])) < server_work s)%nat /\
    (server_work (manager_stop (set_conn s i (set_ops c [])) i) < server_work s)%nat) as Hgen.
  { intros w Hw ->. split.
    - pose proof (work_set_conn s i c (set_ops c []) (managed s) Hi). by destruct s; auto.
    - rewrite manager_stop_eq by done. by apply (work_set_conn s i c). }
  assert (0 < conn_work c)%nat as Hpos.
  { unfold conn_work. rewrite Hops. cbn. destruct o as [[[[] ?]|]|? []]; cbn; lia. }
  destruct (Hgen 0%nat Hpos eq_refl) as [H1 H2].
  destruct o as [[[ec bytes]|]|b [ec|]]; try done.
  - destruct ec; cbn [on_read of_option]; try by intros [= <-].
    destruct (on_data (set_ops c []) bytes) as [c'|] eqn:Hd; [|done].
    cbn [mbind option_bind of_option]. intros [= <-]. split; [|done].
    apply on_data_work in Hd; [|done..].
    replace (set_conn (set_conn s i (set_ops c [])) i c') with (set_conn s i c')
      by (unfold set_conn; cbn; by rewrite list_insert_insert_eq).
    pose proof (work_set_conn s i c c' (managed s) Hi) as Hw.
    assert (conn_work c = 2)%nat as Hc2 by (unfold conn_work; by rewrite Hops).
    destruct s; apply Hw. lia.
  - intros [= <-]. destruct ec; done.
Qed.

Lemma step_stopped s e s' :
  server_inv s -> acceptor_open s = false -> step s e = next s' ->
  (server_work s' < server_work s)%nat /\ acceptor_open s' = false.
Proof.
  intros Hs Ho. destruct e as [k ec|i k ec bytes|i k n|i k ec|k|i k|];
    [| | | | |by apply run_op_stopped|]; cbn [step].
  - destruct (accepts s !! k) as [[|]|] eqn:Hk; try done. exfalso.
    destruct (inv_stopped _ Hs Ho) as [_ HF].
    rewrite Forall_lookup in HF. apply HF in Hk. by destruct Hk.
  - destruct (find_op s i k) as [[c o]|] eqn:Hf; [|done].
    apply find_op_inv in Hf as (Hi & Hc & -> & Hops); [|done].
    destruct (closed_done _ _ Hc (stopped_closed _ _ _ Hs Ho Hi) Hops) as [Hr _].
    by destruct o as [[[]|]|].
  - destruct (find_op s i k) as [[c o]|] eqn:Hf; [|done].
    apply find_op_inv in Hf as (Hi & Hc & -> & Hops); [|done].
    destruct (closed_done _ _ Hc (stopped_closed _ _ _ Hs Ho Hi) Hops) as [_ Hw].
    destruct o as [|b []]; try done. by destruct (Hw b).
  - destruct (find_op s i k) as [[c o]|] eqn:Hf; [|done].
    apply find_op_inv in Hf as (Hi & Hc & -> & Hops); [|done].
    destruct (closed_done _ _ Hc (stopped_closed _ _ _ Hs Ho Hi) Hops) as [_ Hw].
    destruct o as [|b []]; try done. by destruct (Hw b).
  - destruct (accepts s !! k) as [[ec|]|] eqn:Hk; try done. intros [= <-].
    unfold on_accept; cbn. rewrite Ho; cbn. split; [|done].
    pose proof (inv_accepts _ Hs). unfold server_work; cbn.
    destruct (accepts s) as [|a [|]]; cbn in *; [done| |lia].
    destruct k; [|done]. cbn. destruct a; cbn; lia.
  - rewrite <- (inv_running _ Hs), Ho. done.
Qed.

Lemma run_stopped s es s' :
  server_inv s -> acceptor_open s = false -> run s es = next s' ->
  (length es <= server_work s)%nat /\ server_inv s' /\ acceptor_open s' = false.
Proof.
  revert s. induction es as [|e es IH]; intros s Hs Ho; cbn [run].
  { intros [= <-]. cbn. split; [lia|done]. }
  pose proof (step_inv s e Hs) as He. destruct (step s e) as [| |s1] eqn:Hst; try done.
  destruct (step_stopped _ _ _ Hs Ho Hst) as [Hw Ho1].
  intros Hr. destruct (IH _ He Ho1 Hr) as (Hl & ? & ?). split; [cbn; lia|done].
Qed.

(** A stopped server with outstanding operations can always run a handler. *)
Lemma stopped_progress s :
  server_inv s -> acceptor_open s = false -> outstanding s -> exists e s', step s e = next s'.
Proof.
  intros Hs Ho [Ha|(i & c & Hi & Hc)].
  - destruct (accepts s) as [|a l] eqn:Hacc; [done|].
    destruct (inv_stopped _ Hs Ho) as [_ HF]. rewrite Hacc in HF.
    apply Forall_cons in HF as [[ec ->] _]. exists (run_accept 0).
    cbn [step]. rewrite Hacc. cbn. eauto.
  - pose proof (inv_conn _ Hs _ _ Hi) as Hci. pose proof (conn_inv_outstanding _ Hci) as [Hl _].
    destruct (c_ops c) as [|o [|]] eqn:Hops; cbn in Hl; [done| |lia].
    destruct (closed_done _ _ Hci (stopped_closed _ _ _ Hs Ho Hi) Hops) as [Hr Hw].
    exists (run_op i 0). pose proof (step_inv s (run_op i 0) Hs) as Hst. revert Hst.
    cbn [step]. unfold find_op. rewrite Hi. cbn [mbind option_bind]. rewrite Hops. cbn [lookup list_lookup mbind option_bind].
    destruct o as [[[ec bytes]|]|b [ec|]]; try done; [| |by destruct (Hw b)]; [|eauto].
    destruct (on_read _ _ _ _ _); cbn; [eauto|done].
Qed.

(** ** Properties *)

(** C5: the request handler is never given a request the parser has not
    accepted: whatever the chunks a client's bytes arrive in and however the
    completions interleave, all that is ever sent on a connection is a prefix
    of the one response its received bytes call for (the handler's reply to
    the request parsed from them, or the stock [400]), and the whole of it
    when the write reports success. *)
Theorem responses_correct es s i c :
  run init_server es = next s -> conns s !! i = Some c ->
  (c_sent c = [] \/ exists rest, response_to (c_received c) = Some (c_sent c ++ rest)) /\
  (forall rest, writing rest (Some success) ∈ c_ops c -> response_to (c_received c) = Some (c_sent c)).
Proof.
  intros Hr Hi. pose proof (run_inv _ es init_inv) as Hs. rewrite Hr in Hs.
  pose proof (inv_conn _ Hs _ _ Hi) as Hc. split; [by apply conn_inv_sent|].
  intros rest Hin. destruct Hc as [d|r d|]; rewrite Hops in Hin.
  - by apply list_elem_of_singleton in Hin.
  - apply list_elem_of_singleton in Hin. injection Hin as <- <-.
    by rewrite (Hdone eq_refl), app_nil_r in Hresp.
  - by apply elem_of_nil in Hin.
Qed.

(** resources are tracked exactly: in every reachable state a connection
    has at most one asynchronous operation, an open one has exactly one (no
    connection is forgotten with its socket open), the manager holds exactly
    the connections whose socket is open, and while the acceptor is open one
    accept is outstanding. *)
Theorem connections_tracked es s :
  run init_server es = next s ->
  (forall i c, conns s !! i = Some c ->
     (length (c_ops c) <= 1)%nat /\ (c_open c = true -> length (c_ops c) = 1%nat) /\
     (c_open c = true <-> i ∈ managed s)) /\
  (acceptor_open s = true -> length (accepts s) = 1%nat).
Proof.
  intros Hr. pose proof (run_inv _ es init_inv) as Hs. rewrite Hr in Hs.
  split; [|apply Hs]. intros i c Hi. pose proof (inv_conn _ Hs _ _ Hi) as Hc.
  apply conn_inv_outstanding in Hc as [? ?]. split_and!; try done; by apply (inv_open _ Hs).
Qed.

(** No schedule of completions and handlers reaches undefined behaviour:
    the parser never touches the last header of an empty list, whatever a
    client sends and however it is split. *)
Theorem server_no_ub es : run init_server es <> undefined.
Proof. pose proof (run_inv _ es init_inv) as Hs. by intros Hr; rewrite Hr in Hs. Qed.

(** C14: the server stops after its signal: once the signal handler has run,
    the handlers still to run are bounded by [server_work], and as long as an
    operation is outstanding some handler can run, so [io_context::run]
    returns. *)
Theorem shutdown_terminates es s s1 es' s' :
  run init_server es = next s -> step s run_signal = next s1 -> run s1 es' = next s' ->
  (length es' <= server_work s1)%nat /\ (outstanding s' -> exists e s'', step s' e = next s'').
Proof.
  intros Hr Hsig Hr'. pose proof (run_inv _ es init_inv) as Hs. rewrite Hr in Hs.
  pose proof (step_inv s run_signal Hs) as Hs1. rewrite Hsig in Hs1.
  assert (acceptor_open s1 = false) as Ho.
  { revert Hsig. cbn. destruct (signal_wait s); [|done]. by intros [= <-]. }
  destruct (run_stopped _ _ _ Hs1 Ho Hr') as (Hl & Hs' & Ho').
  split; [done|]. by apply stopped_progress.
Qed.
End Server.

(** ** Witnesses *)

(** A client sends a request in two pieces to a server without files. *)
Definition example_handler : RequestHandler := file_handler (fun _ => None) (lit "/srv").
Definition example_events : list event :=
  [accepted_by_system 0 success; run_accept 0;
   received 0 0 success (lit "GET / HT"); run_op 0 0;
   received 0 0 success (lit "TP/1.0" ++ CRLF ++ CRLF); run_op 0 0;
   transmitted 0 0 10; transmitted 0 0 146; written 0 0 success].

Definition example_state : server :=
  match run (RH := example_handler) 0 0 ok init_server example_events with
  | next s => s
  | _ => init_server
  end.

Theorem responses_correct_witness :
  exists c, conns example_state !! 0%nat = Some c /\
    response_to (RH := example_handler) 0 0 ok (c_received c) = Some (c_sent c).
Proof.
  destruct (conns example_state !! 0%nat) as [c|] eqn:Hc; [|vm_compute in Hc; discriminate].
  exists c. split; [reflexivity|].
  refine (proj2 (responses_correct (RH := example_handler) 0 0 ok example_events example_state 0 c _ Hc) [] _).
  - vm_compute. reflexivity.
  - vm_compute in Hc. injection Hc as <-. vm_compute. left.
Defined.

Theorem connections_tracked_witness :
  exists c, conns example_state !! 0%nat = Some c /\ c_open c = true /\ length (c_ops c) = 1%nat.
Proof.
  destruct (conns example_state !! 0%nat) as [c|] eqn:Hc; [|vm_compute in Hc; discriminate].
  exists c. destruct (connections_tracked (RH := example_handler) 0 0 ok example_events example_state) as [H _].
  - vm_compute. reflexivity.
  - destruct (H 0%nat c Hc) as (_ & Hl & _). split_and!; [reflexivity| |apply Hl];
      vm_compute in Hc; injection Hc as <-; reflexivity.
Defined.

(** The signal arrives with the request parsed by no one yet: its read handler
    then writes to a closed socket, and the failed write stops the connection. *)
Definition stopping_events : list event :=
  [accepted_by_system 0 success; run_accept 0;
   received 0 0 success (lit "GET / HTTP/1.0" ++ CRLF ++ CRLF)].

Theorem shutdown_terminates_witness :
  exists s s1 s',
    run (RH := example_handler) 0 0 ok init_server stopping_events = next s /\
    step (RH := example_handler) 0 0 ok s run_signal = next s1 /\
    run (RH := example_handler) 0 0 ok s1 [run_op 0 0; run_accept 0; run_op 0 0] = next s' /\
    (3 <= server_work s1)%nat.
Proof.
  do 3 eexists. split; [vm_compute; reflexivity|]. split; [vm_compute; reflexivity|].
  split; [vm_compute; reflexivity|].
  refine (proj1 (shutdown_terminates (RH := example_handler) 0 0 ok stopping_events _ _
    [run_op 0 0; run_accept 0; run_op 0 0] _ _ _ _)); vm_compute; reflexivity.
Defined.
