(* ===== verification/Server3.v ===== *)
(** * Server3: the multi-threaded HTTP server of the advertising system

    Models [ad_system/server3]: the second copy of the request parser, whose
    verdict is a [boost::tribool], the MIME table with its end mark, the request
    handler that passes requests to a [CoreWorkInterface], and the connections
    and the server around it, which have no connection manager: a connection
    lives as long as an operation refers to it and its destructor closes the
    socket.

    The handlers of one connection run on its strand, one after the other;
    handlers of different connections share only the request handler, which
    they do not change, so every execution of the thread pool is a sequence of
    whole handlers, and this is what the events below are. *)
From S2P Require Import Prelude HttpParser HttpGrammar HttpReply HttpHandler HttpServer.

(** ** The parser with a three-valued verdict *)

Inductive tribool := tri_true | tri_false | tri_indeterminate.

(** [if (b)] and [if (!b)] on a [boost::tribool]. *)
Definition is_true (b : tribool) : bool := match b with tri_true => true | _ => false end.
Definition is_false (b : tribool) : bool := match b with tri_false => true | _ => false end.

Definition go3 (st : state) (req : request) : option (tribool * state * request) :=
  Some (tri_indeterminate, st, req).
Definition refuse3 (st : state) (req : request) : option (tribool * state * request) :=
  Some (tri_false, st, req).

(** The [switch] up to the end of the request line. *)
Definition consume3_line (st : state) (req : request) (input : ascii) : option (tribool * state * request) :=
  let c := schar input in
  match st with
  | method_start =>
      if negb (is_char c) || is_ctl c || is_tspecial c then refuse3 st req
      else go3 method_s (push_method req input)
  | method_s =>
      if decide (input = SP) then go3 uri_s req
      else if negb (is_char c) || is_ctl c || is_tspecial c then refuse3 st req
      else go3 st (push_method req input)
  | uri_s =>
      if decide (input = SP) then go3 http_version_h req
      else if is_ctl c then refuse3 st req
      else go3 st (push_uri req input)
  | http_version_h =>
      if decide (input = "H"%char) then go3 http_version_t_1 req else refuse3 st req
  | http_version_t_1 =>
      if decide (input = "T"%char) then go3 http_version_t_2 req else refuse3 st req
  | http_version_t_2 =>
      if decide (input = "T"%char) then go3 http_version_p req else refuse3 st req
  | http_version_p =>
      if decide (input = "P"%char) then go3 http_version_slash req else refuse3 st req
  | http_version_slash =>
      if decide (input = "/"%char) then go3 http_version_major_start (set_versions req 0 0)
      else refuse3 st req
  | http_version_major_start =>
      if is_digit c then
        go3 http_version_major_s
           (set_versions req (push_digit (http_version_major req) input) (http_version_minor req))
      else refuse3 st req
  | http_version_major_s =>
      if decide (input = "."%char) then go3 http_version_minor_start req
      else if is_digit c then
        go3 st (set_versions req (push_digit (http_version_major req) input) (http_version_minor req))
      else refuse3 st req
  | http_version_minor_start =>
      if is_digit c then
        go3 http_version_minor_s
           (set_versions req (http_version_major req) (push_digit (http_version_minor req) input))
      else refuse3 st req
  | http_version_minor_s =>
      if decide (input = CR) then go3 expecting_newline_1 req
      else if is_digit c then
        go3 st (set_versions req (http_version_major req) (push_digit (http_version_minor req) input))
      else refuse3 st req
  | expecting_newline_1 =>
      if decide (input = LF) then go3 header_line_start req else refuse3 st req
  | _ => refuse3 st req
  end.

(** The [switch] from the first header line on. *)
Definition consume3_headers (st : state) (req : request) (input : ascii) : option (tribool * state * request) :=
  let c := schar input in
  match st with
  | header_line_start =>
      if decide (input = CR) then go3 expecting_newline_3 req
      else if negb (bool_decide (headers req = [])) && bool_decide (input = SP \/ input = HT) then
        go3 header_lws req
      else if negb (is_char c) || is_ctl c || is_tspecial c then refuse3 st req
      else go3 header_name (new_header req input)
  | header_lws =>
      if decide (input = CR) then go3 expecting_newline_2 req
      else if decide (input = SP \/ input = HT) then go3 st req
      else if is_ctl c then refuse3 st req
      else req' ← push_value req input; go3 header_value req'
  | header_name =>
      if decide (input = ":"%char) then go3 space_before_header_value req
      else if negb (is_char c) || is_ctl c || is_tspecial c then refuse3 st req
      else req' ← push_name req input; go3 st req'
  | space_before_header_value =>
      if decide (input = SP) then go3 header_value req else refuse3 st req
  | header_value =>
      if decide (input = CR) then go3 expecting_newline_2 req
      else if is_ctl c then refuse3 st req
      else req' ← push_value req input; go3 st req'
  | expecting_newline_2 =>
      if decide (input = LF) then go3 header_line_start req else refuse3 st req
  | expecting_newline_3 =>
      Some (if decide (input = LF) then tri_true else tri_false, st, req)
  | _ => refuse3 st req
  end.

Definition consume3 (st : state) (req : request) (input : ascii) : option (tribool * state * request) :=
  match st with
  | header_line_start | header_lws | header_name | space_before_header_value | header_value
  | expecting_newline_2 | expecting_newline_3 => consume3_headers st req input
  | _ => consume3_line st req input
  end.

Fixpoint parse3 (st : state) (req : request) (input : str) : option (tribool * state * request * str) :=
  match input with
  | [] => Some (tri_indeterminate, st, req, [])
  | c :: rest =>
      '(result, st', req') ← consume3 st req c;
      if is_true result || is_false result then Some (result, st', req', rest)
      else parse3 st' req' rest
  end.

(** The enumerator of the first parser that a verdict corresponds to. *)
Definition of_tribool (b : tribool) : result_type :=
  match b with tri_true => good | tri_false => bad | tri_indeterminate => indeterminate end.

(** ** MIME types: a table closed by a null entry *)

Definition mappings3 : list (option (str * str)) :=
  [Some (lit "gif", lit "image/gif"); Some (lit "htm", lit "text/html");
   Some (lit "html", lit "text/html"); Some (lit "jpg", lit "image/jpeg");
   Some (lit "png", lit "image/png"); Some (lit "xml", lit "text/xml");
   Some (lit "txt", lit "text/plain"); None].

(** The loop stops at the end mark; [None] is a read past the table. *)
Fixpoint lookup_type3 (table : list (option (str * str))) (extension : str) : option str :=
  match table with
  | [] => None
  | None :: _ => Some (lit "text/plain")
  | Some (e, t) :: table' => if decide (e = extension) then Some t else lookup_type3 table' extension
  end.
Definition extension_to_type3 : str -> option str := lookup_type3 mappings3.

(** ** The core worker *)

(** [CoreWorkInterface]: [Work(request, rep_string)], its verdict and what it
    leaves in [rep_string]. *)
Class CoreWork := { work : str -> bool * str }.

(** [setCoreWorker] throws [std::bad_exception] on a null pointer. *)
Inductive exception := bad_exception.
Definition setCoreWorker (coreWorker refCoreWorker : option CoreWork) : exception + option CoreWork :=
  match refCoreWorker with
  | None => inl bad_exception
  | Some w => inr (Some w)
  end.

(** ** The request handler *)

Section Handler3.
Context (fs : str -> option str) (doc_root : str).

(** [coreWorker] is the pointer, null until it is set; the result is [None]
    when the null pointer is dereferenced or a table is overrun. *)
Definition handle_request3 (coreWorker : option CoreWork) (req : request) (rep : reply) (defaultType : str)
  : option reply :=
  match url_decode (uri req) with
  | None => Some (stock_reply bad_request)
  | Some request_path =>
      if bad_path request_path then Some (stock_reply bad_request)
      else
        let request_path := add_index request_path in
        let fill body extension :=
          type ← extension_to_type3 extension;
          Some (Reply ok (entity_headers body type) body) in
        if decide (defaultType = lit "xml" \/ defaultType = lit "txt") then
          w ← coreWorker;
          let '(done, tmpResult) := @work w request_path in
          if done : bool then fill (content rep ++ tmpResult) defaultType
          else Some (stock_reply not_found)
        else
          let extension := path_extension request_path in
          match fs (c_str (doc_root ++ request_path)) with
          | None => Some (stock_reply not_found)
          | Some stream => fill (read_all stream (content rep)) extension
          end
  end.
End Handler3.

(** ** Lemmas on the parser, the table and the handler *)

Lemma consume3_consume st req c :
  (fun '(b, st', req') => (of_tribool b, st', req')) <$> consume3 st req c = consume st req c.
Proof.
  destruct st; cbn [consume3 consume3_line consume3_headers consume consume_line consume_headers]; cbv zeta; unfold go3, refuse3, go, refuse;
    repeat case_match; try done; by destruct (push_value _ _) || destruct (push_name _ _).
Qed.

Lemma parse3_parse st req input :
  (fun '(b, st', req', rest) => (of_tribool b, st', req', rest)) <$> parse3 st req input = parse st req input.
Proof.
  revert st req. induction input as [|c input IH]; intros st req; [done|].
  cbn [parse3 parse]. rewrite <- consume3_consume.
  destruct (consume3 st req c) as [[[[] st1] req1]|]; cbn; done.
Qed.

Lemma extension_to_type3_some e : exists t, extension_to_type3 e = Some t /\ CR ∉ t.
Proof.
  unfold extension_to_type3, mappings3. cbn [lookup_type3].
  repeat case_decide; eexists; (split; [reflexivity|]); apply (bool_decide_unpack _); vm_compute; exact I.
Qed.

(** With a worker the handler is total and its replies are framed. *)
Lemma handle_request3_framed fs doc_root w req rep ty :
  exists r, handle_request3 fs doc_root (Some w) req rep ty = Some r /\ framed r.
Proof.
  assert (forall s, framed (stock_reply s)) as Hs.
  { intros s. apply entity_framed. apply (bool_decide_unpack _). exact I. }
  assert (forall body e, exists r,
    (type ← extension_to_type3 e; Some (Reply ok (entity_headers body type) body)) = Some r /\ framed r) as Hf.
  { intros body e. destruct (extension_to_type3_some e) as (t & -> & Ht). cbn.
    eexists. split; [done|]. by apply entity_framed. }
  unfold handle_request3. destruct (url_decode (uri req)) as [p|]; [|eauto].
  destruct (bad_path p); [eauto|]. cbv zeta. case_decide.
  - cbn [mbind option_bind]. destruct (work (add_index p)) as [[] res]; eauto.
  - destruct (fs _); eauto.
Qed.

(** So it is a request handler in the sense of [HttpServer]. *)
Definition handle_with (fs : str -> option str) (doc_root ty : str) (w : CoreWork) (req : request) (rep : reply)
  : reply := default rep (handle_request3 fs doc_root (Some w) req rep ty).

Lemma handle_with_framed fs doc_root ty w req rep : framed (handle_with fs doc_root ty w req rep).
Proof.
  unfold handle_with. by destruct (handle_request3_framed fs doc_root w req rep ty) as (r & -> & Hr).
Qed.

#[export] Instance worker_handler (fs : str -> option str) (doc_root ty : str) (w : CoreWork) : RequestHandler := {
  handle := handle_with fs doc_root ty w;
  handle_framed_law := handle_with_framed fs doc_root ty w }.

(** ** Connections and the server *)

Record server3 := Server3 {
  io_stopped : bool;
  accept_ops : list (option error_code);
  s3_conns : list connection }.

(** The last reference to a connection without operations is gone: its
    destructor closes the socket. *)
Definition destroy (c : connection) : connection :=
  match c_ops c with [] => close c | _ => c end.

Section Server3.
Context (fs : str -> option str) (doc_root ty : str) (coreWorker : option CoreWork).
Context (v_major v_minor : Z) (v_status : status_type).

Definition handle_read (c : connection) (e : error_code) (bytes : str) : option connection :=
  match e with
  | success =>
      '(result, st, req, _) ← parse3 (c_parser c) (c_request c) bytes;
      let c := set_parsed c req st bytes in
      if is_true result then
        rep ← handle_request3 fs doc_root coreWorker (c_request c) (c_reply c) ty;
        Some (do_write (set_reply c rep))
      else if is_false result then Some (do_write (set_reply c (stock_reply bad_request)))
      else Some (do_read c)
  | _ => Some c
  end.

(** The shutdown after a successful write changes nothing the model has. *)
Definition handle_write (c : connection) (e : error_code) : connection := c.

Definition set_conn3 (s : server3) (i : nat) (c : connection) : server3 :=
  Server3 (io_stopped s) (accept_ops s) (<[i := c]> (s3_conns s)).
Definition start_accept (s : server3) : server3 :=
  Server3 (io_stopped s) (accept_ops s ++ [None]) (s3_conns s).

(** [new_connection_->start()] gives the accepted connection its first
    operation; a failed accept drops it. *)
Definition handle_accept (s : server3) (e : error_code) : server3 :=
  start_accept match e with
               | success =>
                   Server3 (io_stopped s) (accept_ops s)
                     (s3_conns s ++ [connection_start (new_connection v_major v_minor v_status)])
               | _ => s
               end.
Definition handle_stop (s : server3) : server3 := Server3 true (accept_ops s) (s3_conns s).
Definition init_server3 : server3 := start_accept (Server3 false [] []).

Inductive outcome3 := disabled3 | undefined3 | next3 (s : server3).

Definition find_op3 (s : server3) (i k : nat) : option (connection * op) :=
  c ← s3_conns s !! i; o ← c_ops c !! k; Some (c, o).

(** The same events; handlers run until [io_context_.stop()]. *)
Definition step3 (s : server3) (e : event) : outcome3 :=
  match e with
  | accepted_by_system k ec =>
      match accept_ops s !! k with
      | Some None => next3 (Server3 (io_stopped s) (<[k := Some ec]> (accept_ops s)) (s3_conns s))
      | _ => disabled3
      end
  | received i k ec bytes =>
      match find_op3 s i k with
      | Some (c, reading None) =>
          if valid_read ec bytes then
            next3 (set_conn3 s i (set_ops c (<[k := reading (Some (ec, bytes))]> (c_ops c))))
          else disabled3
      | _ => disabled3
      end
  | transmitted i k n =>
      match find_op3 s i k with
      | Some (c, writing b None) =>
          if (0 <? n)%nat && (n <=? length b)%nat then
            next3 (set_conn3 s i (set_sent (set_ops c (<[k := writing (drop n b) None]> (c_ops c))) (take n b)))
          else disabled3
      | _ => disabled3
      end
  | written i k ec =>
      match find_op3 s i k with
      | Some (c, writing b None) =>
          if valid_write ec b then next3 (set_conn3 s i (set_ops c (<[k := writing b (Some ec)]> (c_ops c))))
          else disabled3
      | _ => disabled3
      end
  | run_accept k =>
      match accept_ops s !! k with
      | Some (Some ec) =>
          if io_stopped s then disabled3
          else next3 (handle_accept (Server3 (io_stopped s) (delete k (accept_ops s)) (s3_conns s)) ec)
      | _ => disabled3
      end
  | run_op i k =>
      if io_stopped s then disabled3
      else match find_op3 s i k with
      | Some (c, reading (Some (ec, bytes))) =>
          match handle_read (set_ops c (delete k (c_ops c))) ec bytes with
          | Some c' => next3 (set_conn3 s i (destroy c'))
          | None => undefined3
          end
      | Some (c, writing b (Some ec)) =>
          next3 (set_conn3 s i (destroy (handle_write (set_ops c (delete k (c_ops c))) ec)))
      | _ => disabled3
      end
  | run_signal => if io_stopped s then disabled3 else next3 (handle_stop s)
  end.

Fixpoint run3 (s : server3) (es : list event) : outcome3 :=
  match es with
  | [] => next3 s
  | e :: es' =>
      match step3 s e with
      | next3 s' => run3 s' es'
      | o => o
      end
  end.
End Server3.

(** ** Invariant, with a worker installed *)

Section Server3_correct.
Context (fs : str -> option str) (doc_root ty : str) (w : CoreWork).
Context (v_major v_minor : Z) (v_status : status_type).
#[local] Existing Instance worker_handler.
Let RH : RequestHandler := worker_handler fs doc_root ty w.

Notation cinv := (conn_inv (RH := RH) v_major v_minor v_status).

(** A connection and its life time: the socket is open exactly while an
    operation holds a reference. *)
Definition conn3_inv (c : connection) : Prop := cinv c /\ (c_open c = true <-> c_ops c <> []).

Record server3_inv (s : server3) : Prop := {
  inv3_conn : forall i c, s3_conns s !! i = Some c -> conn3_inv c;
  inv3_accept : length (accept_ops s) = 1%nat }.

Lemma inv3_set s i c : server3_inv s -> conn3_inv c -> server3_inv (set_conn3 s i c).
Proof.
  intros [Hc Ha] Hi. constructor; cbn; [|done].
  intros j d [(_ & <- & _)|[_ Hj]]%list_lookup_insert_Some; eauto.
Qed.

Lemma find_op3_inv s i k c o :
  server3_inv s -> find_op3 s i k = Some (c, o) ->
  conn3_inv c /\ k = 0%nat /\ c_ops c = [o] /\ c_open c = true.
Proof.
  unfold find_op3. intros Hs Hf. destruct (s3_conns s !! i) as [c0|] eqn:Hi; [|done].
  cbn in Hf. destruct (c_ops c0 !! k) as [o0|] eqn:Hk; [|done]. injection Hf as -> ->.
  destruct (inv3_conn _ Hs _ _ Hi) as [Hc Ho]. pose proof (conn_inv_outstanding _ _ _ _ Hc) as [Hl _].
  destruct (c_ops c) as [|a [|]] eqn:Hops; cbn in Hl; [done| |lia]. destruct k; [|done].
  injection Hk as ->. split_and!; try done; [by split; rewrite ?Hops|by apply Ho].
Qed.

(** On data the handler does what the first server's does. *)
Lemma handle_read_on_data c bytes :
  handle_read fs doc_root ty (Some w) c success bytes = on_data (RH := RH) c bytes.
Proof.
  unfold handle_read, on_data. rewrite <- (parse3_parse (c_parser c) (c_request c) bytes).
  destruct (parse3 _ _ _) as [[[[[] st] req] rest]|]; try done.
  cbn [fmap option_fmap option_map mbind option_bind is_true of_tribool handle RH worker_handler]. unfold handle_with.
  destruct (handle_request3_framed fs doc_root w (c_request (set_parsed c req st bytes))
    (c_reply (set_parsed c req st bytes)) ty) as (r & -> & _). done.
Qed.

Lemma destroy_inv c : cinv c -> (c_ops c <> [] -> c_open c = true) -> conn3_inv (destroy c).
Proof.
  intros Hc Ho. unfold destroy. destruct (c_ops c) as [|o ops] eqn:Hops.
  - split; [by apply close_inv|]. cbn. by rewrite Hops.
  - split; [done|]. rewrite Hops. split; [done|]. intros _. by apply Ho.
Qed.

(** What the system completes. *)
Lemma step3_completed s e : server3_inv s ->
  match e with received _ _ _ _ | transmitted _ _ _ | written _ _ _ => True | _ => False end ->
  match step3 fs doc_root ty (Some w) v_major v_minor v_status s e with
  | next3 s' => server3_inv s' | disabled3 => True | undefined3 => False
  end.
Proof.
  intros Hs He. destruct e as [k ec|i k ec bytes|i k n|i k ec|k|i k|]; cbn [step3]; try done.
  - destruct (find_op3 s i k) as [[c [[[]|]|]]|] eqn:Hf; try done.
    destruct (valid_read ec bytes) eqn:Hv; [|done].
    apply find_op3_inv in Hf as ([Hc Hop] & -> & Ho & Hopen); [|done]. rewrite Ho. cbn.
    apply inv3_set; [done|]. split; [|done].
    destruct Hc as [d|r d|]; rewrite Ho in Hops; try done. injection Hops as <-.
    apply (waiting _ _ _ _ (Some (ec, bytes))); cbn; try done. by intros b [= -> _].
  - destruct (find_op3 s i k) as [[c [[]|b []]]|] eqn:Hf; try done.
    destruct (_ && _) eqn:Hn; [|done].
    apply find_op3_inv in Hf as ([Hc Hop] & -> & Ho & Hopen); [|done]. rewrite Ho. cbn.
    apply inv3_set; [done|]. split; [|done].
    destruct Hc as [d|r d|]; rewrite Ho in Hops; try done. injection Hops as <- <-.
    apply (answering _ _ _ _ (drop n b) None); cbn; try done.
    by rewrite <- app_assoc, take_drop.
  - destruct (find_op3 s i k) as [[c [[]|b []]]|] eqn:Hf; try done.
    destruct (valid_write ec b) eqn:Hv; [|done].
    apply find_op3_inv in Hf as ([Hc Hop] & -> & Ho & Hopen); [|done]. rewrite Ho. cbn.
    apply inv3_set; [done|]. split; [|done].
    destruct Hc as [d|r d|]; rewrite Ho in Hops; try done. injection Hops as <- <-.
    apply (answering _ _ _ _ b (Some ec)); cbn; try done.
    + intros [= ->]. by apply bool_decide_eq_true_1 in Hv.
    + by intros [= ->].
Qed.

(** The handlers of a connection. *)
Lemma step3_handler s i k : server3_inv s ->
  match step3 fs doc_root ty (Some w) v_major v_minor v_status s (run_op i k) with
  | next3 s' => server3_inv s' | disabled3 => True | undefined3 => False
  end.
Proof.
  intros Hs. cbn [step3].
  assert (forall j c, sent_ok (RH := RH) v_major v_minor v_status c ->
    server3_inv (set_conn3 s j (destroy (set_ops c [])))) as Hdrop.
  { intros j c Hsent. apply inv3_set; [done|]. cbn. split; [|done]. by apply close_finished. }
  destruct (io_stopped s); [done|].
  destruct (find_op3 s i k) as [[c [[[ec bytes]|]|b [ec|]]]|] eqn:Hf; try done;
    apply find_op3_inv in Hf as ([Hc Hop] & -> & Ho & Hopen); try done; rewrite (delete_only _ _ Ho).
  - pose proof (conn_inv_sent _ _ _ _ Hc) as Hsent.
    destruct ec; [|by apply Hdrop..]. rewrite handle_read_on_data.
    destruct Hc as [d|r d|]; rewrite Ho in Hops; try done. injection Hops as <-.
    destruct (on_data_inv (RH := RH) v_major v_minor v_status (set_ops c []) bytes)
      as (c' & -> & Hc' & Hop'); [done..|].
    apply inv3_set; [done|]. apply destroy_inv; [done|]. by rewrite Hop'.
  - by apply Hdrop, (conn_inv_sent _ _ _ _ Hc).
Qed.

Lemma step3_inv s e : server3_inv s ->
  match step3 fs doc_root ty (Some w) v_major v_minor v_status s e with
  | next3 s' => server3_inv s' | disabled3 => True | undefined3 => False
  end.
Proof.
  intros Hs. destruct e as [k ec|i k ec bytes|i k n|i k ec|k|i k|];
    try by apply step3_completed.
  - cbn [step3]. destruct (accept_ops s !! k) as [[|]|] eqn:Hk; try done.
    destruct Hs. constructor; cbn; rewrite ?length_insert; done.
  - cbn [step3]. destruct (accept_ops s !! k) as [[|]|] eqn:Hk; try done. destruct (io_stopped s); [done|].
    destruct Hs as [Hc Ha]. assert (delete k (accept_ops s) = []) as ->.
    { destruct (accept_ops s) as [|a [|]]; cbn in Ha; try lia. by destruct k. }
    unfold handle_accept, start_accept. destruct e; constructor; cbn; try done.
    intros i c [?|(_ & Hd)]%lookup_app_Some; [eauto|].
    apply list_lookup_singleton_Some in Hd as [_ <-]. split; [|done]. apply new_connection_inv.
  - by apply step3_handler.
  - cbn [step3]. destruct (io_stopped s); [done|]. destruct Hs. by constructor.
Qed.

Lemma run3_inv s es : server3_inv s ->
  match run3 fs doc_root ty (Some w) v_major v_minor v_status s es with
  | next3 s' => server3_inv s' | disabled3 => True | undefined3 => False
  end.
Proof.
  revert s. induction es as [|e es IH]; intros s Hs; [done|]. cbn [run3].
  pose proof (step3_inv s e Hs) as He. destruct (step3 _ _ _ _ _ _ _ s e); try done. by apply IH.
Qed.

Lemma init3_inv : server3_inv init_server3.
Proof. by constructor. Qed.

(** ** Properties *)

(** C36: with a worker installed the threaded server answers like the first
    one: in every reachable state what was sent on a connection is a prefix
    of the one response its received bytes call for, a socket is open exactly
    while one operation of its connection is outstanding (nothing leaks and
    nothing is used after its destruction), one accept is always outstanding,
    and no run of handlers is undefined. *)
Theorem server3_correct es :
  match run3 fs doc_root ty (Some w) v_major v_minor v_status init_server3 es with
  | next3 s =>
      length (accept_ops s) = 1%nat /\
      forall i c, s3_conns s !! i = Some c ->
        (length (c_ops c) <= 1)%nat /\ (c_open c = true <-> c_ops c <> []) /\
        (c_sent c = [] \/
         exists rest, response_to (RH := RH) v_major v_minor v_status (c_received c) = Some (c_sent c ++ rest))
  | disabled3 => True
  | undefined3 => False
  end.
Proof.
  pose proof (run3_inv _ es init3_inv) as Hs. destruct (run3 _ _ _ _ _ _ _ _ es) as [| |s]; try done.
  split; [apply Hs|]. intros i c Hi. destruct (inv3_conn _ Hs _ _ Hi) as [Hc Ho].
  split_and!; [by apply (conn_inv_outstanding _ _ _ _ Hc)|done|by apply conn_inv_sent].
Qed.
End Server3_correct.

(** the tribool parser of [ad_system] is the parser of [boost/http_server]:
    on every state, request and input the two give the same verdict, state,
    request and rest, so the grammar of one is the grammar of the other. *)
Theorem parsers_agree st req input :
  parse st req input =
  '(b, st', req', rest) ← parse3 st req input; Some (of_tribool b, st', req', rest).
Proof.
  rewrite <- parse3_parse. by destruct (parse3 st req input) as [[[[b st'] req'] rest]|].
Qed.

(** The request handler dereferences a null worker in exactly one
    situation: it was built for ["xml"] or ["txt"] answers, no worker was set,
    and a request for an acceptable path arrives. *)
Theorem null_worker_iff fs doc_root coreWorker req rep ty :
  handle_request3 fs doc_root coreWorker req rep ty = None <->
  coreWorker = None /\ (ty = lit "xml" \/ ty = lit "txt") /\
  exists p, url_decode (uri req) = Some p /\ bad_path p = false.
Proof.
  split.
  - destruct coreWorker as [w|].
    { destruct (handle_request3_framed fs doc_root w req rep ty) as (r & -> & _). done. }
    unfold handle_request3. destruct (url_decode (uri req)) as [p|]; [|done].
    destruct (bad_path p) eqn:Hb; [done|]. cbv zeta. case_decide as Ht.
    + intros _. split_and!; eauto.
    + destruct (fs _); [|done].
      by destruct (extension_to_type3_some (path_extension (add_index p))) as (t & -> & _).
  - intros (-> & Ht & p & Hp & Hb). unfold handle_request3. rewrite Hp, Hb. cbv zeta.
    by rewrite decide_True.
Qed.
