(* ===== verification/InvertTable.v ===== *)
(** * InvertTable: the inverted index

    Models [invert/invert.hpp] (class template [InvertTable] at
    [InvertNode, PidKidInfo]) and [invert/invertCreator.cpp]: building the
    index in memory, keeping the postings in memory or on disk, writing and
    reading both files byte by byte, and the creator that removes duplicates.

    The specification is [postings]: the entries of one key, best weight first.
    A file is the bytes it holds; [fopen] for writing succeeds on the paths
    [writable]; the order in which [unordered_map] is traversed is the
    parameter [iterate], of which only the documented contract is used. *)
From S2P Require Import Prelude.

(** ** Data *)

Record PidKidInfo := Triple { nPid : Z; nKid : Z; nWeight : Z }.
Record InvertNode := Node { inID : Z; inWeight : Z }.
Record IndexNode := Index { ixID : Z; ixOffset : Z; ixCount : Z }.

#[export] Instance PidKidInfo_eq_dec : EqDecision PidKidInfo.
Proof. solve_decision. Defined.
#[export] Instance InvertNode_eq_dec : EqDecision InvertNode.
Proof. solve_decision. Defined.
#[export] Instance IndexNode_eq_dec : EqDecision IndexNode.
Proof. solve_decision. Defined.

(** [InvertNode::copy]. *)
Definition copy (x : PidKidInfo) : InvertNode := Node (nKid x) (nWeight x).

(** [CmpPidKidInfoByPidWeight]: does [l] come strictly before [r]? *)
Definition CmpPidKidInfoByPidWeight (l r : PidKidInfo) : bool :=
  if negb (nPid l =? nPid r)%Z then (nPid l <? nPid r)%Z
  else if negb (nWeight l =? nWeight r)%Z then (nWeight r <? nWeight l)%Z
  else (nKid l <? nKid r)%Z.

Record InvertTable := Table {
  mIndexMap : gmap Z IndexNode;
  mInvertVec : list InvertNode;
  mUseCached : bool;
  mFp : option str;               (* the file the open handle reads *)
  mIndexFileName : str;
  mInvertFileName : str }.

Definition empty_table (useCache : bool) : InvertTable := Table ∅ [] useCache None [] [].

(** ** Files *)

Definition bytes_of_index (n : IndexNode) : str := le32 (ixID n) ++ le32 (ixOffset n) ++ le32 (ixCount n).
Definition bytes_of_node (n : InvertNode) : str := le32 (inID n) ++ le32 (inWeight n).

(** The complete structures at the front of a file. *)
Fixpoint read_nodes (s : str) : list InvertNode :=
  match s with
  | a :: b :: c :: d :: e :: f :: g :: h :: rest => Node (of_le32 a b c d) (of_le32 e f g h) :: read_nodes rest
  | _ => []
  end.
Fixpoint read_indices (s : str) : list IndexNode :=
  match s with
  | a :: b :: c :: d :: e :: f :: g :: h :: i :: j :: k :: l :: rest =>
      Index (of_le32 a b c d) (of_le32 e f g h) (of_le32 i j k l) :: read_indices rest
  | _ => []
  end.

(** ** Building the table in memory *)

(** [std::sort] with a comparator that is a total order on the triples: any
    sorting algorithm returns this list. *)
Definition not_after (l r : PidKidInfo) : Prop := CmpPidKidInfoByPidWeight r l = false.
#[export] Instance not_after_dec l r : Decision (not_after l r).
Proof. unfold not_after. apply _. Defined.
Definition sort_triples (v : list PidKidInfo) : list PidKidInfo := merge_sort not_after v.

(** The state of the loop: index [i], the node under construction, the map and
    the vector. *)
Definition build_step (acc : Z * IndexNode * gmap Z IndexNode * list InvertNode) (x : PidKidInfo)
  : Z * IndexNode * gmap Z IndexNode * list InvertNode :=
  let '(i, node, m, v) := acc in
  let node := if (i =? 0)%Z then Index (nPid x) i 0 else node in
  let '(node, m) :=
    if negb (ixID node =? nPid x)%Z then (Index (nPid x) i 0, <[ixID node := node]> m) else (node, m) in
  let node := Index (ixID node) (ixOffset node) (int32 (ixCount node + 1)) in
  (i + 1, node, m, v ++ [copy x])%Z.

(** [garbage] is the uninitialised [IndexNode] of the function. The sorted
    vector is also left to the caller. *)
Definition createInvertTable (garbage : IndexNode) (t : InvertTable) (infoVec : list PidKidInfo)
  : InvertTable * list PidKidInfo :=
  let cnt := int32 (Z.of_nat (length infoVec)) in
  if (cnt =? 0)%Z then (t, infoVec)
  else
    let sorted := sort_triples infoVec in
    let '(_, node, m, v) :=
      foldl build_step (0%Z, garbage, mIndexMap t, mInvertVec t) (take (Z.to_nat cnt) sorted) in
    (Table (<[ixID node := node]> m) v (mUseCached t) (mFp t) (mIndexFileName t) (mInvertFileName t), sorted).

(** [clear()] as it is written: the map twice, the vector never. *)
Definition clear (t : InvertTable) : InvertTable :=
  Table ∅ (mInvertVec t) (mUseCached t) None (mIndexFileName t) (mInvertFileName t).

Definition set_names (t : InvertTable) (index invert : str) : InvertTable :=
  Table (mIndexMap t) (mInvertVec t) (mUseCached t) (mFp t) index invert.

(** One entry of the index file; empty entries are skipped. *)
Definition load_step (m : gmap Z IndexNode) (p : IndexNode) : gmap Z IndexNode :=
  if negb (ixCount p =? 0)%Z then <[ixID p := p]> m else m.

Section Disk.
Context (writable : str -> bool).
Context (iterate : gmap Z IndexNode -> list IndexNode).
Context (garbage : IndexNode).

(** Writing through the null pointer of a failed [fopen] is undefined. *)
Definition writeIndex (fs : files) (t : InvertTable) : option files :=
  if writable (mIndexFileName t) then
    Some (write_file fs (mIndexFileName t) (concat (bytes_of_index <$> iterate (mIndexMap t))))
  else None.
Definition writeInvert (fs : files) (t : InvertTable) : option files :=
  if writable (mInvertFileName t) then
    Some (write_file fs (mInvertFileName t) (concat (bytes_of_node <$> mInvertVec t)))
  else None.

Definition create (fs : files) (t : InvertTable) (vec : list PidKidInfo) (dir : str) (isPersistent : bool)
  : option (files * InvertTable * list PidKidInfo) :=
  let t := clear (set_names t (dir ++ lit "/Index.dict") (dir ++ lit "/Invert.dict")) in
  let '(t, vec) := createInvertTable garbage t vec in
  fs ← (if isPersistent then fs ← writeIndex fs t; writeInvert fs t
        else if negb (mUseCached t) then writeInvert fs t
        else Some fs);
  let t := if mUseCached t then t
           else Table (mIndexMap t) [] (mUseCached t) (open_read fs (mInvertFileName t))
                      (mIndexFileName t) (mInvertFileName t) in
  Some (fs, t, vec).

(** [mmap] of an empty file fails. *)
Definition readIndex (fs : files) (t : InvertTable) : InvertTable :=
  match fs (mIndexFileName t) with
  | None | Some [] => t
  | Some data =>
      Table (foldl load_step (mIndexMap t) (read_indices data))
            (mInvertVec t) (mUseCached t) (mFp t) (mIndexFileName t) (mInvertFileName t)
  end.
Definition readInvert (fs : files) (t : InvertTable) : bool * InvertTable :=
  match fs (mInvertFileName t) with
  | None | Some [] => (false, t)
  | Some data =>
      (true, Table (mIndexMap t) (read_nodes data ++ mInvertVec t) (mUseCached t) (mFp t)
                   (mIndexFileName t) (mInvertFileName t))
  end.

Definition load (fs : files) (t : InvertTable) (indexFile invertFile : str) : bool * InvertTable :=
  let t := set_names t indexFile invertFile in
  match fs indexFile, fs invertFile with
  | Some _, Some _ =>
      let t := readIndex fs t in
      if mUseCached t then readInvert fs t
      else (true, Table (mIndexMap t) (mInvertVec t) (mUseCached t) (open_read fs invertFile)
                        (mIndexFileName t) (mInvertFileName t))
  | _, _ => (false, t)
  end.
End Disk.

(** ** Reading one key *)

(** [readInvert(offset, cnt, start)]: [None] is a null file handle or a
    negative array size; [Some None] the answer [false]. *)
Definition readInvert_at (fs : files) (t : InvertTable) (offset cnt : Z) : option (option (list InvertNode)) :=
  path ← mFp t;
  let addr := size_t (offset * 8) in
  if (2 ^ 63 <=? addr)%Z then Some None   (* a negative position: [fseek] fails *)
  else if (cnt <? 0)%Z then None
  else
    let nodes := take (Z.to_nat cnt) (read_nodes (drop (Z.to_nat addr) (default [] (fs path)))) in
    Some (if decide (length nodes = Z.to_nat cnt) then Some nodes else None).

(** [getInvertInfo(index, resultVec)]: the answer and the vector; [None] when
    the entries would be copied from outside the vector. *)
Definition getInvertInfo (fs : files) (t : InvertTable) (index : Z) : option (bool * list InvertNode) :=
  match mIndexMap t !! index with
  | None => Some (false, [])
  | Some node =>
      let cnt := ixCount node in
      let offset := ixOffset node in
      if negb (mUseCached t) then
        r ← readInvert_at fs t offset cnt;
        Some match r with None => (false, []) | Some nodes => (true, nodes) end
      else if (Z.of_nat (length (mInvertVec t)) <=? size_t offset)%Z then Some (false, [])
      else
        let nodes := take (Z.to_nat cnt) (drop (Z.to_nat offset) (mInvertVec t)) in
        if decide (0 <= cnt /\ length nodes = Z.to_nat cnt)%Z then Some (true, nodes) else None
  end.

(** ** The creator *)

Record InvertCreator := Creator { mTripleVec : list PidKidInfo; mFilterSet : gset (Z * Z) }.
Definition new_creator : InvertCreator := Creator [] ∅.

Definition addTriple (c : InvertCreator) (indexID invertID weight : Z) : InvertCreator :=
  let key := (indexID, invertID) in
  if decide (key ∈ mFilterSet c) then c
  else Creator (mTripleVec c ++ [Triple indexID invertID weight]) ({[key]} ∪ mFilterSet c).

(** [addTriple] on every triple of a list, in its order. *)
Definition add_all (c : InvertCreator) (l : list PidKidInfo) : InvertCreator :=
  foldl (fun c x => addTriple c (nPid x) (nKid x) (nWeight x)) c l.

(** [InvertCreator::create]: the table sorts the creator's own vector. *)
Definition creator_create (writable : str -> bool) (iterate : gmap Z IndexNode -> list IndexNode)
    (garbage : IndexNode) (fs : files) (t : InvertTable) (c : InvertCreator) (mPath : str) (mIsPersistent : bool)
  : option (files * InvertTable * InvertCreator) :=
  '(fs, t, vec) ← create writable iterate garbage fs t (mTripleVec c) mPath mIsPersistent;
  Some (fs, t, Creator vec (mFilterSet c)).

(** ** Specification *)

(** Best weight first, then the smaller id. *)
Definition ranked (l r : InvertNode) : Prop :=
  (inWeight r < inWeight l \/ inWeight l = inWeight r /\ inID l <= inID r)%Z.
#[export] Instance ranked_dec l r : Decision (ranked l r).
Proof. unfold ranked. apply _. Defined.

Definition postings (v : list PidKidInfo) (p : Z) : list InvertNode :=
  merge_sort ranked (copy <$> filter (fun x => nPid x = p) v).

(** The answer [getInvertInfo] owes: not found exactly when there is nothing. *)
Definition answer (v : list PidKidInfo) (p : Z) : bool * list InvertNode :=
  match postings v p with
  | [] => (false, [])
  | ns => (true, ns)
  end.

(** The first triple of every pair of ids, in order. *)
Fixpoint dedup (seen : list (Z * Z)) (l : list PidKidInfo) : list PidKidInfo :=
  match l with
  | [] => []
  | x :: l' =>
      if decide ((nPid x, nKid x) ∈ seen) then dedup seen l'
      else x :: dedup ((nPid x, nKid x) :: seen) l'
  end.

(** ** The order of the triples *)

(** [not_after] spelled out. *)
Lemma not_after_spec l r :
  not_after l r <->
  (nPid l < nPid r \/ nPid l = nPid r /\
     (nWeight r < nWeight l \/ nWeight l = nWeight r /\ nKid l <= nKid r))%Z.
Proof.
  unfold not_after, CmpPidKidInfoByPidWeight.
  destruct (Z.eqb_spec (nPid r) (nPid l)), (Z.eqb_spec (nWeight r) (nWeight l)); cbn;
    rewrite ?Z.ltb_ge; lia.
Qed.

#[export] Instance not_after_total : Total not_after.
Proof. intros l r. rewrite !not_after_spec. lia. Qed.
#[export] Instance not_after_trans : Transitive not_after.
Proof. intros a b c. rewrite !not_after_spec. lia. Qed.
#[export] Instance ranked_total : Total ranked.
Proof. intros l r. unfold ranked. lia. Qed.
#[export] Instance ranked_trans : Transitive ranked.
Proof. intros a b c. unfold ranked. lia. Qed.
#[export] Instance ranked_antisym : AntiSymm (=) ranked.
Proof. intros [a b] [c d]. unfold ranked; cbn. intros. f_equal; lia. Qed.

Lemma sort_triples_perm v : sort_triples v ≡ₚ v.
Proof. apply merge_sort_Permutation. Qed.

Lemma sort_triples_sorted v : StronglySorted not_after (sort_triples v).
Proof. apply StronglySorted_merge_sort; apply _. Qed.

(** The entries of one key in the sorted vector are its postings. *)
Lemma filter_sorted v p :
  copy <$> filter (fun x => nPid x = p) (sort_triples v) = postings v p.
Proof.
  apply (Sorted_unique ranked).
  - apply StronglySorted_Sorted. pose proof (sort_triples_sorted v) as Hs. revert Hs.
    induction 1 as [|x l Hl IH Hx]; [constructor|]. rewrite filter_cons. case_decide as Hp; [|done].
    rewrite fmap_cons. constructor; [done|]. apply Forall_fmap, Forall_forall. intros y.
    rewrite list_elem_of_filter. intros [Hy Hin]. rewrite Forall_forall in Hx. apply Hx in Hin.
    apply not_after_spec in Hin. unfold ranked; cbn. lia.
  - apply Sorted_merge_sort. apply _.
  - unfold postings. rewrite merge_sort_Permutation. apply fmap_Permutation.
    by rewrite (sort_triples_perm v).
Qed.

(** ** The index of a sorted vector *)

Definition below (p : Z) (l : list PidKidInfo) : nat := length (filter (fun x => (nPid x < p)%Z) l).
Definition count (p : Z) (l : list PidKidInfo) : nat := length (filter (fun x => nPid x = p) l).

Definition index_of (l : list PidKidInfo) (p : Z) : option IndexNode :=
  if decide (count p l = 0)%nat then None else Some (Index p (Z.of_nat (below p l)) (Z.of_nat (count p l))).

Lemma below_snoc p l x : below p (l ++ [x]) = (below p l + if decide (nPid x < p)%Z then 1 else 0)%nat.
Proof. unfold below. rewrite filter_app, length_app, filter_cons, filter_nil. by case_decide. Qed.

Lemma count_snoc p l x : count p (l ++ [x]) = (count p l + if decide (nPid x = p) then 1 else 0)%nat.
Proof. unfold count. rewrite filter_app, length_app, filter_cons, filter_nil. by case_decide. Qed.

Lemma count_zero p l : Forall (fun x => (nPid x < p)%Z) l -> count p l = 0%nat /\ below p l = length l.
Proof.
  induction 1 as [|x l Hx _ [IH1 IH2]]; [done|]. unfold count, below in *.
  rewrite !filter_cons. rewrite decide_False by lia. rewrite decide_True by lia. cbn. by rewrite IH1, IH2.
Qed.

(** A sorted vector is the smaller keys, the key, the larger keys. *)
Lemma slice_sorted l p :
  StronglySorted not_after l ->
  take (count p l) (drop (below p l) l) = filter (fun x => nPid x = p) l /\ (below p l + count p l <= length l)%nat.
Proof.
  induction 1 as [|x l Hl [IH1 IH2] Hx]; [done|]. unfold count, below in *.
  rewrite !filter_cons. destruct (decide (nPid x < p)%Z) as [H1|H1].
  - rewrite (decide_False (P := nPid x = p)) by lia. cbn. split; [done|lia].
  - assert (filter (fun y => (nPid y < p)%Z) l = []) as Hb.
    { apply filter_none. intros y Hy. rewrite Forall_forall in Hx. apply Hx, not_after_spec in Hy. lia. }
    rewrite Hb in *. cbn [length drop] in *. destruct (decide (nPid x = p)) as [H2|H2].
    + cbn [length take]. split; [by rewrite drop_0 in IH1; rewrite IH1|lia].
    + assert (filter (fun y => nPid y = p) l = []) as ->.
      { apply filter_none. intros y Hy. rewrite Forall_forall in Hx. apply Hx, not_after_spec in Hy. lia. }
      cbn. split; [done|lia].
Qed.

(** ** The loop *)

(** After the prefix [l]: the node under construction is the entry of the last
    key, and the map with that node in it is the index of the prefix. *)
Definition build_inv (l : list PidKidInfo) (v0 : list InvertNode)
    (acc : Z * IndexNode * gmap Z IndexNode * list InvertNode) : Prop :=
  let '(i, node, m, v) := acc in
  i = Z.of_nat (length l) /\ v = v0 ++ (copy <$> l) /\
  (exists l' x, l = l' ++ [x] /\ ixID node = nPid x) /\
  (forall p, <[ixID node := node]> m !! p = index_of l p).

Lemma index_of_snoc_new l x p :
  Forall (fun y => (nPid y < nPid x)%Z) l ->
  index_of (l ++ [x]) p =
    if decide (p = nPid x) then Some (Index p (Z.of_nat (length l)) 1) else index_of l p.
Proof.
  intros Hl. unfold index_of. rewrite count_snoc, below_snoc. destruct (decide (p = nPid x)) as [Hp|Hp].
  - subst p. destruct (count_zero _ _ Hl) as [-> ->]. rewrite (decide_True (P := nPid x = nPid x)) by done.
    rewrite decide_False by lia. rewrite (decide_False (P := (nPid x < nPid x)%Z)) by lia. f_equal. f_equal; lia.
  - rewrite (decide_False (P := nPid x = p)) by done. rewrite Nat.add_0_r.
    destruct (decide (count p l = 0%nat)) as [Hc|Hc]; [done|].
    rewrite decide_False; [by rewrite Nat.add_0_r|]. intros Hlt. apply Hc.
    apply count_zero. eapply Forall_impl; [done|]. cbn. lia.
Qed.

Lemma index_of_snoc_same l' y x p :
  StronglySorted not_after (l' ++ [y; x]) -> nPid y = nPid x ->
  index_of (l' ++ [y; x]) p =
    match index_of (l' ++ [y]) p with
    | Some n => if decide (p = nPid x) then Some (Index (ixID n) (ixOffset n) (ixCount n + 1)) else Some n
    | None => None
    end.
Proof.
  intros Hs Hyx. change [y; x] with ([y] ++ [x]) in *. rewrite app_assoc in *.
  unfold index_of. rewrite (count_snoc _ (l' ++ [y])), (below_snoc _ (l' ++ [y])).
  assert (0 < count (nPid x) (l' ++ [y]))%nat as Hpos.
  { rewrite count_snoc, decide_True by done. lia. }
  destruct (decide (p = nPid x)) as [->|Hp].
  - rewrite (decide_True (P := nPid x = nPid x)) by done. rewrite !decide_False by lia. cbn. f_equal. f_equal; lia.
  - rewrite (decide_False (P := nPid x = p)) by done. rewrite Nat.add_0_r.
    destruct (decide (count p (l' ++ [y]) = 0%nat)) as [Hc|Hc]; [done|].
    f_equal. f_equal. rewrite decide_False; [lia|]. intros Hlt. apply Hc.
    apply count_zero. apply Forall_forall. intros z Hz.
    assert (not_after z x) as Hzx by (eapply StronglySorted_app_1_elem_of; [exact Hs|done|set_solver]).
    apply not_after_spec in Hzx. lia.
Qed.

Lemma build_first x garbage v0 : build_inv [x] v0 (build_step (0%Z, garbage, ∅, v0) x).
Proof.
  unfold build_step. cbn [Z.eqb negb ixID]. rewrite Z.eqb_refl. cbn [negb].
  split_and!; [done|done|by exists [], x|]. intros p. cbn [ixID].
  change (index_of [x] p) with (index_of ([] ++ [x]) p). rewrite index_of_snoc_new by constructor. destruct (decide (p = nPid x)) as [->|Hp].
  - by rewrite lookup_insert_eq.
  - by rewrite lookup_insert_ne by done.
Qed.

Lemma index_of_count l p n : index_of l p = Some n -> (0 < ixCount n <= Z.of_nat (length l))%Z /\ ixID n = p.
Proof.
  unfold index_of. destruct (decide (count p l = 0)%nat); [done|]. intros [= <-]. cbn. split; [|done].
  pose proof (length_filter (fun x => nPid x = p) l). unfold count in *. lia.
Qed.

Lemma build_next l x v0 acc :
  StronglySorted not_after (l ++ [x]) -> l <> [] -> (Z.of_nat (length l) < 2 ^ 31 - 1)%Z ->
  build_inv l v0 acc -> build_inv (l ++ [x]) v0 (build_step acc x).
Proof.
  intros Hs Hne Hlen. destruct acc as [[[i node] m] v]. intros (-> & -> & (l' & y & -> & Hy) & Hm).
  unfold build_step. destruct (Z.eqb_spec (Z.of_nat (length (l' ++ [y]))) 0) as [H0|_].
  { rewrite length_app in H0. cbn in H0. lia. }
  assert (not_after y x) as Hyx by (eapply StronglySorted_app_1_elem_of; [exact Hs|set_solver|set_solver]).
  destruct (Z.eqb_spec (ixID node) (nPid x)) as [Heq|Hneq]; cbn [negb].
  - pose proof (Hm (ixID node)) as Hn. rewrite lookup_insert_eq in Hn. symmetry in Hn.
    destruct (index_of_count _ _ _ Hn) as [Hc _]. rewrite int32_id by (unfold in_int32; lia).
    split_and!.
    + rewrite (length_app (l' ++ [y]) [x]). cbn [length]. lia.
    + by rewrite <- app_assoc, (fmap_app copy (l' ++ [y]) [x]).
    + exists (l' ++ [y]), x. by split; [|cbn; congruence].
    + intros p. rewrite <- app_assoc in *. cbn [app] in *.
      rewrite index_of_snoc_same by (done || congruence). cbn [ixID]. specialize (Hm p).
      destruct (decide (p = nPid x)) as [->|Hp].
      * rewrite <- Heq, lookup_insert_eq. by rewrite Hn.
      * rewrite lookup_insert_ne in Hm |- * by congruence. rewrite Hm. by destruct (index_of _ p).
  - assert (Forall (fun z => (nPid z < nPid x)%Z) (l' ++ [y])) as Hlt.
    { apply Forall_forall. intros z Hz.
      assert (z = y \/ not_after z y) as Hzy.
      { apply elem_of_app in Hz as [Hz|Hz%list_elem_of_singleton]; [right|by left].
        apply StronglySorted_app_1_l in Hs. eapply StronglySorted_app_1_elem_of; [exact Hs|done|set_solver]. }
      rewrite Hy in Hneq. apply not_after_spec in Hyx.
      destruct Hzy as [->|Hzy]; [lia|]. apply not_after_spec in Hzy. lia. }
    split_and!.
    + rewrite (length_app (l' ++ [y]) [x]). cbn [length]. lia.
    + by rewrite <- app_assoc, (fmap_app copy (l' ++ [y]) [x]).
    + exists (l' ++ [y]), x. by split; [|cbn; congruence].
    + intros p. cbn [ixID ixOffset ixCount]. rewrite index_of_snoc_new by done.
      destruct (decide (p = nPid x)) as [->|Hp]; [by rewrite lookup_insert_eq|].
      rewrite lookup_insert_ne by done. apply Hm.
Qed.

Lemma build_loop garbage v0 l :
  StronglySorted not_after l -> l <> [] -> (Z.of_nat (length l) < 2 ^ 31)%Z ->
  build_inv l v0 (foldl build_step (0%Z, garbage, ∅, v0) l).
Proof.
  induction l as [|x l IH] using rev_ind; [done|]. intros Hs _ Hlen.
  rewrite length_app in Hlen. cbn [length] in Hlen. rewrite foldl_snoc.
  destruct l as [|y l]; [apply build_first|].
  apply build_next; [done|done|lia|]. apply IH; [by eapply StronglySorted_app_1_l|done|lia].
Qed.

(** A table that answers for [v], with [nodes] in its vector. *)
Definition index_for (m : gmap Z IndexNode) (v : list PidKidInfo) : Prop :=
  forall p, m !! p = index_of (sort_triples v) p.

Lemma createInvertTable_spec garbage t v :
  (Z.of_nat (length v) < 2 ^ 31)%Z -> mIndexMap t = ∅ ->
  exists m, createInvertTable garbage t v =
    (Table m (mInvertVec t ++ (copy <$> sort_triples v)) (mUseCached t) (mFp t)
       (mIndexFileName t) (mInvertFileName t), if decide (v = []) then v else sort_triples v) /\
    index_for m v.
Proof.
  intros Hlen Hm. unfold createInvertTable. rewrite int32_id by (unfold in_int32; lia).
  destruct (Z.eqb_spec (Z.of_nat (length v)) 0) as [H0|H0].
  - assert (v = []) as -> by (apply nil_length_inv; lia). exists ∅. split; [|done].
    cbn. rewrite app_nil_r, <- Hm. by destruct t.
  - assert (length (sort_triples v) = length v) as Hl by (by rewrite (sort_triples_perm v)).
    assert (sort_triples v <> []) as Hne by (intros Hnil; rewrite Hnil in Hl; cbn in Hl; lia).
    rewrite Nat2Z.id, firstn_all2, Hm by lia.
    pose proof (build_loop garbage (mInvertVec t) (sort_triples v) (sort_triples_sorted v) Hne) as Hb.
    destruct (foldl _ _ _) as [[[i node] m] v']. destruct Hb as (_ & -> & _ & Hidx); [lia|].
    exists (<[ixID node := node]> m). rewrite decide_False by (intros ->; done). done.
Qed.

(** ** Reading the table back *)

Lemma slice_postings v p :
  let s := sort_triples v in
  take (count p s) (drop (below p s) (copy <$> s)) = postings v p /\
  length (postings v p) = count p s /\ (below p s + count p s <= length v)%nat.
Proof.
  cbv zeta. destruct (slice_sorted _ p (sort_triples_sorted v)) as [Hs Hl].
  rewrite <- fmap_drop, <- fmap_take, Hs, filter_sorted.
  split_and!; [done| |by rewrite <- (sort_triples_perm v) at 3].
  rewrite <- filter_sorted. by rewrite length_fmap.
Qed.

Lemma answer_found v p :
  count p (sort_triples v) <> 0%nat -> answer v p = (true, postings v p).
Proof.
  destruct (slice_postings v p) as (_ & Hl & _). unfold answer.
  destruct (postings v p); [cbn in Hl; lia|done].
Qed.

Lemma answer_missing v p : count p (sort_triples v) = 0%nat -> answer v p = (false, []).
Proof.
  destruct (slice_postings v p) as (_ & Hl & _). unfold answer.
  destruct (postings v p); [done|cbn in Hl; lia].
Qed.

(** A cached table whose vector starts with the nodes the index speaks of. *)
Lemma cached_answer fs t v rest p :
  (Z.of_nat (length v) < 2 ^ 31)%Z -> mUseCached t = true -> index_for (mIndexMap t) v ->
  mInvertVec t = (copy <$> sort_triples v) ++ rest ->
  getInvertInfo fs t p = Some (answer v p).
Proof.
  intros Hlen Hc Hi Hv. unfold getInvertInfo. rewrite Hi, Hc, Hv. unfold index_of. cbn [negb].
  destruct (decide (count p (sort_triples v) = 0%nat)) as [H0|H0]; [by rewrite answer_missing|].
  destruct (slice_postings v p) as (Hs & Hl & Hb). cbn [ixCount ixOffset].
  assert (length (copy <$> sort_triples v) = length v) as Hn by (by rewrite length_fmap, sort_triples_perm).
  unfold size_t. rewrite Z.mod_small by lia. rewrite !Nat2Z.id, length_app, Hn.
  destruct (Z.leb_spec (Z.of_nat (length v + length rest)) (Z.of_nat (below p (sort_triples v)))); [lia|].
  rewrite drop_app_le, take_app_le by (rewrite ?length_drop; lia).
  rewrite Hs, decide_True by lia. by rewrite answer_found.
Qed.

(** ** Files *)

Definition node_ok (n : InvertNode) : Prop := in_int32 (inID n) /\ in_int32 (inWeight n).
Definition index_ok (n : IndexNode) : Prop := in_int32 (ixID n) /\ in_int32 (ixOffset n) /\ in_int32 (ixCount n).
Definition triple_ok (x : PidKidInfo) : Prop := in_int32 (nPid x) /\ in_int32 (nKid x) /\ in_int32 (nWeight x).

Lemma read_nodes_write ns : Forall node_ok ns -> read_nodes (concat (bytes_of_node <$> ns)) = ns.
Proof.
  induction 1 as [|[a b] ns [Ha Hb] _ IH]; [done|]. rewrite fmap_cons. cbn [concat bytes_of_node le32 app read_nodes inID inWeight].
  cbn in Ha, Hb. by rewrite !of_le32_le32, !int32_id, IH.
Qed.

Lemma read_indices_write ns : Forall index_ok ns -> read_indices (concat (bytes_of_index <$> ns)) = ns.
Proof.
  induction 1 as [|[a b c] ns (Ha & Hb & Hc) _ IH]; [done|]. rewrite fmap_cons.
  cbn [concat bytes_of_index le32 app read_indices ixID ixOffset ixCount].
  cbn in Ha, Hb, Hc. by rewrite !of_le32_le32, !int32_id, IH.
Qed.

Lemma drop_nodes k ns :
  (k <= length ns)%nat -> drop (8 * k) (concat (bytes_of_node <$> ns)) = concat (bytes_of_node <$> drop k ns).
Proof.
  revert ns. induction k as [|k IH]; intros [|n ns] Hk; try done; cbn in Hk.
  replace (8 * S k)%nat with (8 + 8 * k)%nat by lia. rewrite <- drop_drop.
  rewrite fmap_cons. cbn [concat bytes_of_node le32 app drop]. apply IH. lia.
Qed.

Lemma postings_nodes_ok v : Forall triple_ok v -> Forall node_ok (copy <$> sort_triples v).
Proof.
  intros H. apply Forall_fmap. rewrite (sort_triples_perm v). eapply Forall_impl; [exact H|].
  intros x (? & ? & ?). by split.
Qed.

Lemma disk_answer fs t v path p :
  (Z.of_nat (length v) < 2 ^ 31)%Z -> Forall triple_ok v -> mUseCached t = false ->
  index_for (mIndexMap t) v -> mFp t = Some path ->
  fs path = Some (concat (bytes_of_node <$> (copy <$> sort_triples v))) ->
  getInvertInfo fs t p = Some (answer v p).
Proof.
  intros Hlen Hok Hc Hi Hfp Hfs. unfold getInvertInfo. rewrite Hi, Hc. unfold index_of. cbn [negb].
  destruct (decide (count p (sort_triples v) = 0%nat)) as [H0|H0]; [by rewrite answer_missing|].
  destruct (slice_postings v p) as (Hs & Hl & Hb). cbn [ixCount ixOffset].
  assert (length (copy <$> sort_triples v) = length v) as Hn by (by rewrite length_fmap, sort_triples_perm).
  unfold readInvert_at. rewrite Hfp. cbn [mbind option_bind]. rewrite Hfs. cbn [default].
  unfold size_t. rewrite Z.mod_small by lia.
  destruct (Z.leb_spec (2 ^ 63) (Z.of_nat (below p (sort_triples v)) * 8)); [lia|].
  destruct (Z.ltb_spec (Z.of_nat (count p (sort_triples v))) 0); [lia|].
  rewrite Nat2Z.id.
  replace (Z.to_nat (Z.of_nat (below p (sort_triples v)) * 8)) with (8 * below p (sort_triples v))%nat by lia.
  unfold id. rewrite drop_nodes by lia. rewrite read_nodes_write by (apply Forall_drop, postings_nodes_ok, Hok).
  rewrite Hs, decide_True by done. cbn. by rewrite answer_found.
Qed.

(** ** The index file *)

Lemma load_steps (m m0 : gmap Z IndexNode) l p :
  (forall n, n ∈ l -> m !! ixID n = Some n /\ ixCount n <> 0%Z) ->
  foldl load_step m0 l !! p = if decide (p ∈ ixID <$> l) then m !! p else m0 !! p.
Proof.
  revert m0. induction l as [|n l IH]; intros m0 Hl; [by rewrite decide_False by set_solver|].
  cbn [foldl]. rewrite IH by (intros; apply Hl; set_solver). clear IH.
  destruct (Hl n ltac:(set_solver)) as [Hn Hc].
  unfold load_step. destruct (Z.eqb_spec (ixCount n) 0); [done|]. cbn [negb].
  rewrite fmap_cons. destruct (decide (p ∈ ixID <$> l)) as [Hin|Hin].
  - by rewrite decide_True by set_solver.
  - destruct (decide (p = ixID n)) as [->|Hp].
    + rewrite lookup_insert_eq, decide_True by set_solver. done.
    + rewrite lookup_insert_ne, decide_False by set_solver. done.
Qed.

Lemma index_for_ok m v p n :
  (Z.of_nat (length v) < 2 ^ 31)%Z -> Forall triple_ok v -> index_for m v -> m !! p = Some n ->
  ixID n = p /\ (0 < ixCount n)%Z /\ index_ok n.
Proof.
  intros Hlen Hok Hi Hp. rewrite Hi in Hp. destruct (slice_postings v p) as (_ & _ & Hb).
  pose proof (index_of_count _ _ _ Hp) as [Hc Hid]. split_and!; [done|lia|].
  unfold index_of in Hp. destruct (decide (count p (sort_triples v) = 0%nat)) as [|H0]; [done|].
  injection Hp as <-. unfold index_ok, in_int32; cbn. split_and!; try lia;
  (assert (exists x, x ∈ sort_triples v /\ nPid x = p) as (x & Hx & <-);
   [destruct (filter (fun x => nPid x = p) (sort_triples v)) as [|x l] eqn:Hf; [by unfold count in H0; rewrite Hf in H0|];
    exists x; assert (x ∈ filter (fun x => nPid x = p) (sort_triples v)) as Hx by (rewrite Hf; set_solver);
    apply list_elem_of_filter in Hx as [? ?]; done
   |rewrite (sort_triples_perm v) in Hx; rewrite Forall_forall in Hok; destruct (Hok x Hx) as (Hpid & _); unfold in_int32 in Hpid; lia]).
Qed.

(** The positions of the entries of a key in the sorted vector. *)
Lemma position_bounds s i x :
  StronglySorted not_after s -> s !! i = Some x ->
  (below (nPid x) s <= i < below (nPid x) s + count (nPid x) s)%nat.
Proof.
  intros Hs. revert i. induction Hs as [|y s Hs IH Hy]; intros i Hi; [done|].
  unfold below, count in *. rewrite !filter_cons. destruct i as [|i].
  - injection Hi as ->. rewrite decide_False by lia. rewrite decide_True by done.
    rewrite filter_none; [cbn; lia|]. intros z Hz. rewrite Forall_forall in Hy.
    apply Hy, not_after_spec in Hz. lia.
  - cbn in Hi. pose proof (IH i Hi) as Hb. rewrite Forall_forall in Hy.
    pose proof (Hy x ltac:(by eapply list_elem_of_lookup_2)) as Hyx. apply not_after_spec in Hyx.
    destruct (decide (nPid y < nPid x)%Z) as [H1|H1].
    + rewrite decide_False by lia. cbn. lia.
    + rewrite decide_True by lia. cbn [length].
      assert (length (filter (fun z => (nPid z < nPid x)%Z) s) = 0%nat) as H0.
      { rewrite filter_none; [done|]. intros z Hz. apply Hy, not_after_spec in Hz. lia. }
      rewrite H0 in *. lia.
Qed.

Lemma add_all_spec seen l c :
  (forall k, k ∈ seen <-> k ∈ mFilterSet c) -> mTripleVec (add_all c l) = mTripleVec c ++ dedup seen l.
Proof.
  unfold add_all. revert seen c. induction l as [|x l IH]; intros seen c Hk; [by rewrite app_nil_r|].
  cbn [foldl dedup]. destruct (decide ((nPid x, nKid x) ∈ seen)) as [Hin|Hin].
  - unfold addTriple at 2. rewrite decide_True by by apply Hk. by apply IH.
  - unfold addTriple at 2. rewrite decide_False by by rewrite <- Hk.
    rewrite (IH ((nPid x, nKid x) :: seen)); [|cbn; set_solver].
    cbn [mTripleVec]. rewrite <- app_assoc. by destruct x.
Qed.

Lemma add_all_new l : mTripleVec (add_all new_creator l) = dedup [] l.
Proof. rewrite (add_all_spec []); [done|]. cbn. set_solver. Qed.

Lemma dedup_sub seen l : dedup seen l `sublist_of` l /\ (length (dedup seen l) <= length l)%nat.
Proof.
  assert (forall seen, dedup seen l `sublist_of` l) as Hs.
  { induction l as [|x l IH]; intros s; cbn [dedup]; [done|]. case_decide; constructor; apply IH. }
  split; [done|]. by apply sublist_length.
Qed.

Section Disk_correct.
Context (writable : str -> bool) (iterate : gmap Z IndexNode -> list IndexNode) (garbage : IndexNode).
(** A traversal of an [unordered_map] meets every entry once. *)
Hypothesis iterate_perm : forall m, iterate m ≡ₚ (map_to_list m).*2.

Definition index_file (dir : str) : str := dir ++ lit "/Index.dict".
Definition invert_file (dir : str) : str := dir ++ lit "/Invert.dict".

Lemma index_invert_ne dir : index_file dir <> invert_file dir.
Proof. intros H%(f_equal (drop (length dir))). unfold index_file, invert_file in H. by rewrite !drop_app_length in H. Qed.

(** What [create] leaves behind. *)
Lemma create_spec fs t v dir persistent :
  (Z.of_nat (length v) < 2 ^ 31)%Z ->
  writable (index_file dir) = true -> writable (invert_file dir) = true ->
  exists m fs' fp,
    index_for m v /\
    create writable iterate garbage fs t v dir persistent =
      Some (fs', Table m (if mUseCached t then mInvertVec t ++ (copy <$> sort_triples v) else [])
                   (mUseCached t) fp (index_file dir) (invert_file dir),
            if decide (v = []) then v else sort_triples v) /\
    (mUseCached t = false -> fp = Some (invert_file dir)) /\
    (persistent = true \/ mUseCached t = false ->
      fs' (invert_file dir) = Some (concat (bytes_of_node <$> (mInvertVec t ++ (copy <$> sort_triples v))))) /\
    (persistent = true -> fs' (index_file dir) = Some (concat (bytes_of_index <$> iterate m))).
Proof.
  intros Hlen Hw1 Hw2. unfold create. fold (index_file dir) (invert_file dir).
  destruct (createInvertTable_spec garbage (clear (set_names t (index_file dir) (invert_file dir))) v Hlen eq_refl)
    as (m & -> & Hm).
  cbn [clear set_names mIndexMap mInvertVec mUseCached mFp mIndexFileName mInvertFileName].
  exists m. unfold writeIndex, writeInvert, open_read, write_file.
  cbn [mIndexMap mInvertVec mUseCached mFp mIndexFileName mInvertFileName]. rewrite Hw1, Hw2.
  pose proof (index_invert_ne dir).
  destruct persistent, (mUseCached t); cbn [negb mbind option_bind]; do 2 eexists;
    (split; [exact Hm|]); (split; [reflexivity|]); split_and!; intros; destruct_or?; try done; cbv beta;
    rewrite ?(decide_True (P := invert_file dir = invert_file dir)) by done;
    rewrite ?(decide_False (P := index_file dir = invert_file dir)) by done;
    rewrite ?(decide_True (P := index_file dir = index_file dir)) by done; done.
Qed.

Lemma iterate_elem m n : n ∈ iterate m <-> exists p, m !! p = Some n.
Proof.
  rewrite iterate_perm, list_elem_of_fmap. setoid_rewrite <- elem_of_map_to_list.
  split; [intros ([p n'] & -> & Hp)|intros [p Hp]]; [by exists p|by exists (p, n)].
Qed.

(** Reading the index file restores the map. *)
Lemma read_index_file m v p :
  (Z.of_nat (length v) < 2 ^ 31)%Z -> Forall triple_ok v -> index_for m v ->
  foldl load_step ∅ (read_indices (concat (bytes_of_index <$> iterate m))) !! p = m !! p.
Proof.
  intros Hlen Hok Hm. rewrite read_indices_write.
  2: { apply Forall_forall. intros n [q Hq]%iterate_elem. by eapply index_for_ok. }
  rewrite (load_steps m).
  2: { intros n [q Hq]%iterate_elem. destruct (index_for_ok _ _ _ _ Hlen Hok Hm Hq) as (-> & ? & _). split; [done|lia]. }
  case_decide as Hin; [done|]. destruct (m !! p) as [n|] eqn:Hp; [|done].
  destruct Hin. apply list_elem_of_fmap. exists n. split; [|by apply iterate_elem; exists p].
  by destruct (index_for_ok _ _ _ _ Hlen Hok Hm Hp) as (-> & _).
Qed.

Lemma create_correct fs t v dir persistent :
  (Z.of_nat (length v) < 2 ^ 31)%Z -> Forall triple_ok v -> mInvertVec t = [] ->
  writable (index_file dir) = true -> writable (invert_file dir) = true ->
  exists fs' t' v', create writable iterate garbage fs t v dir persistent = Some (fs', t', v') /\
    v' ≡ₚ v /\ forall p, getInvertInfo fs' t' p = Some (answer v p).
Proof.
  intros Hlen Hok Hv Hw1 Hw2.
  destruct (create_spec fs t v dir persistent Hlen Hw1 Hw2) as (m & fs' & fp & Hm & Hc & Hfp & Hdata & _).
  do 3 eexists. split; [exact Hc|]. split; [case_decide; [done|apply sort_triples_perm]|].
  intros p. rewrite Hv in *. destruct (mUseCached t) eqn:Hcache.
  - eapply (cached_answer _ _ _ []); cbn; try done. by rewrite app_nil_r.
  - eapply disk_answer; cbn; try done; [by apply Hfp|by apply Hdata; right].
Qed.

(** A cached table whose index is that of [v] answers for [v] exactly if its entries
    start with those of [v]. *)
Lemma cached_iff fs t v :
  (Z.of_nat (length v) < 2 ^ 31)%Z -> mUseCached t = true -> index_for (mIndexMap t) v ->
  (forall p, getInvertInfo fs t p = Some (answer v p)) <-> take (length v) (mInvertVec t) = copy <$> sort_triples v.
Proof.
  intros Hlen Hcache Hm. set (N := copy <$> sort_triples v).
  assert (length N = length v) as HN by (unfold N; by rewrite length_fmap, sort_triples_perm).
  split.
  - intros Hall. apply list_eq. intros i. destruct (decide (i < length v)%nat) as [Hi|Hi].
    2: { rewrite lookup_take_ge, (lookup_ge_None_2 N) by lia. done. }
    rewrite lookup_take_lt by done.
    destruct (lookup_lt_is_Some_2 (sort_triples v) i) as [x Hx]; [by rewrite (sort_triples_perm v)|].
    pose proof (position_bounds _ _ _ (sort_triples_sorted v) Hx) as Hpos.
    specialize (Hall (nPid x)). unfold getInvertInfo in Hall. rewrite Hcache, Hm in Hall. unfold index_of in Hall. cbn [negb] in Hall.
    destruct (decide (count (nPid x) (sort_triples v) = 0%nat)) as [H0|H0]; [lia|].
    destruct (slice_postings v (nPid x)) as (Hs & Hl & Hb). rewrite (answer_found _ _ H0) in Hall.
    cbn [ixCount ixOffset] in Hall. unfold size_t in Hall. rewrite Z.mod_small in Hall by lia.
    rewrite !Nat2Z.id in Hall. case_match; [done|]. case_decide; [|done]. injection Hall as Hall.
    fold N in Hs. rewrite <- Hs in Hall. apply (f_equal (fun l => l !! (i - below (nPid x) (sort_triples v))%nat)) in Hall.
    rewrite !lookup_take_lt, !lookup_drop in Hall by lia.
    by replace (below (nPid x) (sort_triples v) + (i - below (nPid x) (sort_triples v)))%nat with i in Hall by lia.
  - intros Heq p. eapply (cached_answer _ _ _ (drop (length v) (mInvertVec t))); [done..|].
    fold N. rewrite <- (take_drop (length v) (mInvertVec t)) at 1. by rewrite Heq.
Qed.

(** ** Properties *)

(** C2: the table answers like its specification: created from any vector of
    triples, cached or not, persistent or not, a table without old entries gives for
    every key exactly its entries, best weight first and equal weights by ascending
    id, and "not found" when there are none; the caller's vector is only permuted. A
    table without cache never has old entries; a cached one that was created before
    keeps them in front of the new ones, and answers like the specification exactly
    if the old entries followed by the new ones happen to start with the new ones. *)
Theorem create_answers fs t v dir persistent :
  (Z.of_nat (length v) < 2 ^ 31)%Z -> Forall triple_ok v -> (mUseCached t = false -> mInvertVec t = []) ->
  writable (index_file dir) = true -> writable (invert_file dir) = true ->
  exists fs' t' v', create writable iterate garbage fs t v dir persistent = Some (fs', t', v') /\
    v' ≡ₚ v /\
    ((forall p, getInvertInfo fs' t' p = Some (answer v p)) <->
     take (length v) (mInvertVec t ++ (copy <$> sort_triples v)) = copy <$> sort_triples v) /\
    (mInvertVec t = [] -> forall p, getInvertInfo fs' t' p = Some (answer v p)) /\
    (mUseCached t' = mUseCached t) /\ (mUseCached t' = false -> mInvertVec t' = []).
Proof.
  intros Hlen Hok Hun Hw1 Hw2.
  assert (Hn : take (length v) (copy <$> sort_triples v) = copy <$> sort_triples v) by (apply take_ge; by rewrite length_fmap, sort_triples_perm).
  destruct (create_spec fs t v dir persistent Hlen Hw1 Hw2) as (m & fs' & fp & Hm & Hc & _).
  destruct (decide (mInvertVec t = [])) as [Hv|Hv].
  - destruct (create_correct fs t v dir persistent Hlen Hok Hv Hw1 Hw2) as (fs2 & t2 & v2 & Hc2 & Hp & Ha). rewrite Hc in Hc2. injection Hc2 as <- <- <-.
    do 3 eexists. split; [exact Hc|]. split; [done|]. split; [split; intros _; [by rewrite Hv|exact Ha]|]. split; [by intros _|]. split; [done|]. cbn. by intros ->.
  - destruct (mUseCached t) eqn:Hcache; [|by destruct Hv, Hun]. do 3 eexists. split; [exact Hc|]. split_and!; [case_decide; [done|apply sort_triples_perm]| |done..].
    by apply cached_iff.
Qed.

(** C12: persistence round trip: the two files written by a persistent
    [create] make a new table, cached or not, that answers every key like the
    specification; the only refusal is a cached load of an empty index, whose
    files are empty. *)
Theorem load_answers fs t v dir useCache :
  (Z.of_nat (length v) < 2 ^ 31)%Z -> Forall triple_ok v -> mInvertVec t = [] ->
  writable (index_file dir) = true -> writable (invert_file dir) = true ->
  exists fs' t' v', create writable iterate garbage fs t v dir true = Some (fs', t', v') /\
    let '(found, t2) := load fs' (empty_table useCache) (index_file dir) (invert_file dir) in
    found = negb (useCache && bool_decide (v = [])) /\
    forall p, getInvertInfo fs' t2 p = Some (answer v p).
Proof.
  intros Hlen Hok Hv Hw1 Hw2.
  destruct (create_spec fs t v dir true Hlen Hw1 Hw2) as (m & fs' & fp & Hm & Hc & _ & Hdata & Hidx).
  specialize (Hdata (or_introl eq_refl)). specialize (Hidx eq_refl). rewrite Hv in Hdata. cbn [app] in Hdata.
  do 3 eexists. split; [exact Hc|]. unfold load. rewrite Hidx, Hdata.
  set (t1 := readIndex fs' _).
  assert (mIndexMap t1 = foldl load_step ∅ (read_indices (concat (bytes_of_index <$> iterate m))) /\
          mInvertVec t1 = [] /\ mUseCached t1 = useCache /\ mInvertFileName t1 = invert_file dir) as (H1 & H2 & H3 & H4).
  { subst t1. unfold readIndex, set_names, empty_table. cbn [mIndexFileName]. rewrite Hidx.
    by destruct (concat (bytes_of_index <$> iterate m)). }
  assert (index_for (mIndexMap t1) v) as Hm1.
  { intros p. rewrite H1, (read_index_file m v) by done. apply Hm. }
  rewrite H3. destruct useCache; cbn [andb].
  - unfold readInvert. rewrite H4, Hdata. destruct (concat _) as [|b data] eqn:Hcat.
    + assert (v = []) as ->.
      { destruct v as [|x v]; [done|]. exfalso. apply (f_equal length) in Hcat.
        destruct (sort_triples (x :: v)) as [|y l] eqn:Hsort; [|done].
        pose proof (sort_triples_perm (x :: v)) as Hp. rewrite Hsort in Hp. by apply Permutation_nil_cons in Hp. }
      split; [done|]. intros p. by eapply (cached_answer _ _ _ []).
    + rewrite <- Hcat, read_nodes_write by by apply postings_nodes_ok.
      split; [rewrite bool_decide_eq_false_2; [done|by intros ->]|].
      intros p. eapply (cached_answer _ _ _ []); cbn; try done. by rewrite H2.
  - split; [done|]. intros p. unfold open_read. rewrite Hdata. cbn [mbind option_bind].
    by eapply disk_answer.
Qed.

(** A second [create] on a cached table is only right by accident:
    [clear] empties the map twice and the vector never, so the new offsets
    point into the old entries; the table then answers for the new triples if
    and only if the old entries followed by the new ones happen to start with
    the new ones. *)
Theorem recreate_answers_iff fs fs1 t1 v1 v1' v2 dir persistent :
  (Z.of_nat (length v1 + length v2) < 2 ^ 31)%Z ->
  writable (index_file dir) = true -> writable (invert_file dir) = true ->
  create writable iterate garbage fs (empty_table true) v1 dir persistent = Some (fs1, t1, v1') ->
  exists fs2 t2 v2', create writable iterate garbage fs1 t1 v2 dir persistent = Some (fs2, t2, v2') /\
    ((forall p, getInvertInfo fs2 t2 p = Some (answer v2 p)) <->
     take (length v2) ((copy <$> sort_triples v1) ++ (copy <$> sort_triples v2)) = copy <$> sort_triples v2).
Proof.
  intros Hlen Hw1 Hw2 Hc1.
  destruct (create_spec fs (empty_table true) v1 dir persistent) as (m1 & fs1' & fp1 & _ & Hc1' & _); [lia|done..|].
  rewrite Hc1 in Hc1'. injection Hc1' as -> -> ->. cbn [mInvertVec mUseCached empty_table app].
  set (t1' := Table _ _ _ _ _ _).
  destruct (create_spec fs1' t1' v2 dir persistent) as (m2 & fs2 & fp2 & Hm2 & Hc2 & _); [lia|done..|].
  do 3 eexists. split; [exact Hc2|]. apply cached_iff; [lia|done..].
Qed.

(** The creator builds the index of the first weight given for each pair
    of ids: after any sequence of [addTriple], [create] on a fresh table
    answers every key for the duplicate-free list of triples. *)
Theorem creator_answers fs l useCache dir persistent :
  (Z.of_nat (length l) < 2 ^ 31)%Z -> Forall triple_ok l ->
  writable (index_file dir) = true -> writable (invert_file dir) = true ->
  exists fs' t' c',
    creator_create writable iterate garbage fs (empty_table useCache) (add_all new_creator l) dir persistent =
      Some (fs', t', c') /\
    forall p, getInvertInfo fs' t' p = Some (answer (dedup [] l) p).
Proof.
  intros Hlen Hok Hw1 Hw2. unfold creator_create. rewrite add_all_new.
  destruct (dedup_sub [] l) as [Hsub Hle].
  destruct (create_correct fs (empty_table useCache) (dedup [] l) dir persistent) as (fs' & t' & v' & -> & _ & Ha);
    [lia|by eapply Forall_sublist_le|done..|].
  do 3 eexists. split; [reflexivity|]. exact Ha.
Qed.
End Disk_correct.

(** ** Witnesses *)

Definition any_order (m : gmap Z IndexNode) : list IndexNode := (map_to_list m).*2.
Definition no_files : files := fun _ => None.
Definition example_triples : list PidKidInfo :=
  [Triple 7 1 10; Triple 3 2 5; Triple 7 3 20; Triple 7 4 20; Triple (-1) 5 0].

Lemma example_triples_ok : Forall triple_ok example_triples.
Proof. repeat constructor; unfold in_int32; cbn; lia. Qed.

Theorem create_answers_witness :
  exists fs' t' v', create (fun _ => true) any_order (Index 0 0 0) no_files (empty_table false) example_triples (lit ".") false
      = Some (fs', t', v') /\
    getInvertInfo fs' t' 7 = Some (true, [Node 3 20; Node 4 20; Node 1 10]).
Proof.
  destruct (create_answers (fun _ => true) any_order (Index 0 0 0) no_files (empty_table false)
    example_triples (lit ".") false) as (fs' & t' & v' & Hc & _ & _ & Ha & _).
  - cbn. lia.
  - exact example_triples_ok.
  - reflexivity.
  - reflexivity.
  - reflexivity.
  - exists fs', t', v'. split; [exact Hc|]. rewrite (Ha eq_refl 7%Z). vm_compute. reflexivity.
Defined.

Theorem load_answers_witness :
  exists fs' t' v', create (fun _ => true) any_order (Index 0 0 0) no_files (empty_table true) example_triples (lit ".") true
      = Some (fs', t', v') /\
    let '(found, t2) := load fs' (empty_table false) (index_file (lit ".")) (invert_file (lit ".")) in
    found = true /\ getInvertInfo fs' t2 7 = Some (true, [Node 3 20; Node 4 20; Node 1 10]).
Proof.
  destruct (load_answers (fun _ => true) any_order (Index 0 0 0) (fun m => Permutation_refl _) no_files (empty_table true)
    example_triples (lit ".") false) as (fs' & t' & v' & Hc & Ha).
  - cbn. lia.
  - exact example_triples_ok.
  - reflexivity.
  - reflexivity.
  - reflexivity.
  - exists fs', t', v'. split; [exact Hc|]. destruct (load _ _ _ _) as [found t2]. destruct Ha as [-> Ha].
    split; [reflexivity|]. rewrite (Ha 7%Z). vm_compute. reflexivity.
Defined.

(** The second table has one entry and the first had another. *)
Theorem recreate_answers_iff_witness :
  exists fs1 t1 v1' fs2 t2 v2',
    create (fun _ => true) any_order (Index 0 0 0) no_files (empty_table true) [Triple 1 10 5] (lit ".") false
      = Some (fs1, t1, v1') /\
    create (fun _ => true) any_order (Index 0 0 0) fs1 t1 [Triple 1 20 5] (lit ".") false = Some (fs2, t2, v2') /\
    ~ (forall p, getInvertInfo fs2 t2 p = Some (answer [Triple 1 20 5] p)).
Proof.
  destruct (create (fun _ => true) any_order (Index 0 0 0) no_files (empty_table true) [Triple 1 10 5] (lit ".") false)
    as [[[fs1 t1] v1']|] eqn:Hc1; [|vm_compute in Hc1; discriminate].
  destruct (recreate_answers_iff (fun _ => true) any_order (Index 0 0 0) no_files fs1 t1
    [Triple 1 10 5] v1' [Triple 1 20 5] (lit ".") false) as (fs2 & t2 & v2' & Hc2 & Hiff).
  - cbn. lia.
  - reflexivity.
  - reflexivity.
  - exact Hc1.
  - exists fs1, t1, v1', fs2, t2, v2'. split; [reflexivity|]. split; [exact Hc2|].
    intros Hall. apply Hiff in Hall. vm_compute in Hall. discriminate.
Defined.

Theorem creator_answers_witness :
  exists fs' t' c',
    creator_create (fun _ => true) any_order (Index 0 0 0) no_files (empty_table true)
      (add_all new_creator (example_triples ++ [Triple 7 1 99])) (lit ".") true = Some (fs', t', c') /\
    getInvertInfo fs' t' 7 = Some (true, [Node 3 20; Node 4 20; Node 1 10]).
Proof.
  destruct (creator_answers (fun _ => true) any_order (Index 0 0 0) no_files
    (example_triples ++ [Triple 7 1 99]) true (lit ".") true) as (fs' & t' & c' & Hc & Ha).
  - cbn. lia.
  - repeat constructor; unfold in_int32; cbn; lia.
  - reflexivity.
  - reflexivity.
  - exists fs', t', c'. split; [exact Hc|]. rewrite (Ha 7%Z). vm_compute. reflexivity.
Defined.
