(* ===== verification/InvertTable2.v ===== *)
(** * InvertTable2: the second inverted index

    Models [invert_table/invert_table.h] (class template [InvertTable] at
    [InvertNode2], [ST_PidKidInfo2]), [invert_table_creator.hpp] and
    [z_invert_table.h]: the index over a vector grouped by its first id, with
    the norm of the weights of each group, its files and both look-ups; the
    creator with its three orders; the table in memory that filters duplicates.

    The header ends a [typedef] without its semicolon and lacks a member type
    that the creator uses, so it cannot be compiled as it is; the
    classes are modelled as they read. A file is the bytes it holds; [fopen] for
    writing succeeds on the paths [writable]; the traversal of the
    [unordered_map] is the parameter [iterate]. *)
From S2P Require Import Prelude.
From Stdlib Require Import SpecFloat.

(** ** Data *)

Record ST_PidKidInfo2 := Info { m_nPid : Z; m_nKid : Z; m_nWeight : Z; m_nWeight2 : Z }.
Record InvertNode2 := Node { n_nID : Z; n_nWeight : Z; n_nWeight2 : Z }.
Record IndexNode := Index { x_nID : Z; x_nOffset : Z; x_nCount : Z; x_nTotalWeight : Z }.

(** [InvertNode2::copy]. *)
Definition copy (other : ST_PidKidInfo2) : InvertNode2 := Node (m_nKid other) (m_nWeight other) (m_nWeight2 other).

(** The three comparators: does [i] come strictly before [j]? *)
Definition CmpSTNodeByIndex (i j : ST_PidKidInfo2) : bool := (m_nPid i <? m_nPid j)%Z.
Definition CmpSTNodeByID (i j : ST_PidKidInfo2) : bool :=
  if negb (m_nPid i =? m_nPid j)%Z then (m_nPid i <? m_nPid j)%Z else (m_nKid i <? m_nKid j)%Z.
Definition CmpSTNodeByWeight (i j : ST_PidKidInfo2) : bool :=
  if negb (m_nPid i =? m_nPid j)%Z then (m_nPid i <? m_nPid j)%Z
  else if negb (m_nWeight i =? m_nWeight j)%Z then (m_nWeight j <? m_nWeight i)%Z
  else (m_nKid i <? m_nKid j)%Z.

Record InvertTable := Table {
  is_cached : bool;
  fp : option str;               (* the file the open handle reads *)
  index_file_name : str;
  invert_file_name : str;
  index_map : gmap Z IndexNode;
  invert_vec : list InvertNode2 }.

Definition new_InvertTable (use_cache : bool) : InvertTable := Table use_cache None [] [] ∅ [].

Definition has_key (t : InvertTable) (index_id : Z) : bool := bool_decide (is_Some (index_map t !! index_id)).

Definition clear (t : InvertTable) : InvertTable := Table (is_cached t) None (index_file_name t) (invert_file_name t) ∅ [].

Definition set_names (t : InvertTable) (index invert : str) : InvertTable :=
  Table (is_cached t) (fp t) index invert (index_map t) (invert_vec t).

(** ** Building *)

(** A [float] from an [int], and the [int] it is cut to: outside the range it
    is what the conversion instruction of the platform gives. *)
Definition float_of_int (z : Z) : spec_float := binary_normalize 24 128 z 0 false.
Definition int_of_float (f : spec_float) : Z :=
  match f with
  | S754_zero _ => 0
  | S754_finite s m e =>
      let a := if (0 <=? e)%Z then (Zpos m * 2 ^ e)%Z else (Zpos m / 2 ^ (- e))%Z in
      let z := if s then (- a)%Z else a in
      if ((- 2 ^ 31 <=? z) && (z <? 2 ^ 31))%Z then z else (- 2 ^ 31)%Z
  | _ => - 2 ^ 31
  end%Z.

(** [(int)(sqrt((float)total) * 1000)]. *)
Definition norm (total : Z) : Z := int_of_float (SFmul 24 128 (SFsqrt 24 128 (float_of_int total)) (float_of_int 1000)).

Example norm_ex : norm 25 = 5000%Z /\ norm 2 = 1414%Z /\ norm (2 ^ 31 - 1) = 46340948%Z /\ norm (-1) = (- 2 ^ 31)%Z.
Proof. vm_compute. split_and!; reflexivity. Qed.

Definition close_node (n : IndexNode) : IndexNode := Index (x_nID n) (x_nOffset n) (x_nCount n) (norm (x_nTotalWeight n)).
Definition open_node (x : ST_PidKidInfo2) (i : Z) : IndexNode := Index (m_nPid x) i 0 0.

(** The body of the loop: the index [i], [index_node], the map, the vector. *)
Definition build_step (acc : Z * IndexNode * gmap Z IndexNode * list InvertNode2) (x : ST_PidKidInfo2)
  : Z * IndexNode * gmap Z IndexNode * list InvertNode2 :=
  let '(i, node, m, v) := acc in
  let node := if (i =? 0)%Z then open_node x i else node in
  let '(node, m) :=
    if negb (x_nID node =? m_nPid x)%Z then (open_node x i, <[x_nID node := close_node node]> m) else (node, m) in
  let node := Index (x_nID node) (x_nOffset node) (int32 (x_nCount node + 1))
                (int32 (x_nTotalWeight node + int32 (m_nWeight x * m_nWeight x))) in
  (i + 1, node, m, v ++ [copy x])%Z.

(** [garbage] is the uninitialised [index_node]. *)
Definition createInvertTable (garbage : IndexNode) (t : InvertTable) (tmp_info : list ST_PidKidInfo2) : InvertTable :=
  let cnt := int32 (Z.of_nat (length tmp_info)) in
  if (cnt =? 0)%Z then t
  else
    let '(_, node, m, v) :=
      foldl build_step (0%Z, garbage, index_map t, invert_vec t) (take (Z.to_nat cnt) tmp_info) in
    Table (is_cached t) (fp t) (index_file_name t) (invert_file_name t) (<[x_nID node := close_node node]> m) v.

(** ** Files *)

Definition bytes_of_index (n : IndexNode) : str := le32 (x_nID n) ++ le32 (x_nOffset n) ++ le32 (x_nCount n) ++ le32 (x_nTotalWeight n).
Definition bytes_of_node (n : InvertNode2) : str := le32 (n_nID n) ++ le32 (n_nWeight n) ++ le32 (n_nWeight2 n).

(** The complete structures at the front of a file. *)
Fixpoint read_nodes (s : str) : list InvertNode2 :=
  match s with
  | a :: b :: c :: d :: e :: f :: g :: h :: i :: j :: k :: l :: rest =>
      Node (of_le32 a b c d) (of_le32 e f g h) (of_le32 i j k l) :: read_nodes rest
  | _ => []
  end.
Fixpoint read_indices (s : str) : list IndexNode :=
  match s with
  | a :: b :: c :: d :: e :: f :: g :: h :: i :: j :: k :: l :: m :: n :: o :: p :: rest =>
      Index (of_le32 a b c d) (of_le32 e f g h) (of_le32 i j k l) (of_le32 m n o p) :: read_indices rest
  | _ => []
  end.

Definition load_step (m : gmap Z IndexNode) (p : IndexNode) : gmap Z IndexNode :=
  if negb (x_nCount p =? 0)%Z then <[x_nID p := p]> m else m.

(** [mmap] of an empty file fails. *)
Definition readIndex (fs : files) (t : InvertTable) : InvertTable :=
  match fs (index_file_name t) with
  | None | Some [] => t
  | Some data =>
      Table (is_cached t) (fp t) (index_file_name t) (invert_file_name t)
        (foldl load_step (index_map t) (read_indices data)) (invert_vec t)
  end.

(** [readInvert] reserves memory for the entries and reads them into it; the
    vector keeps its size. *)
Definition readInvert (fs : files) (t : InvertTable) : InvertTable :=
  Table (is_cached t) (fp t) (index_file_name t) (invert_file_name t) (index_map t) (invert_vec t).

Definition load (fs : files) (t : InvertTable) (index_fn invert_fn : str) : bool * InvertTable :=
  match fs index_fn, fs invert_fn with
  | Some _, Some _ =>
      let t := readIndex fs (clear (set_names t index_fn invert_fn)) in
      (true, if is_cached t then readInvert fs t
             else Table (is_cached t) (open_read fs (invert_file_name t)) (index_file_name t) (invert_file_name t)
                    (index_map t) (invert_vec t))
  | _, _ => (false, t)
  end.

Section Disk.
Context (writable : str -> bool) (iterate : gmap Z IndexNode -> list IndexNode) (garbage : IndexNode).

(** Writing through the null pointer of a failed [fopen] is undefined. *)
Definition writeIndex (fs : files) (t : InvertTable) : option files :=
  if writable (index_file_name t) then
    Some (write_file fs (index_file_name t) (concat (bytes_of_index <$> iterate (index_map t))))
  else None.
Definition writeInvert (fs : files) (t : InvertTable) : option files :=
  if writable (invert_file_name t) then
    Some (write_file fs (invert_file_name t) (concat (bytes_of_node <$> invert_vec t)))
  else None.

Definition create (fs : files) (t : InvertTable) (vec : list ST_PidKidInfo2) (dir : str) (is_persistent : bool)
  : option (files * InvertTable) :=
  let t := createInvertTable garbage (clear (set_names t (dir ++ lit "/index.idx") (dir ++ lit "/invert.idx"))) vec in
  fs ← (if is_persistent then fs ← writeIndex fs t; writeInvert fs t
        else if negb (is_cached t) then writeInvert fs t
        else Some fs);
  Some (fs, if is_cached t then t
            else Table (is_cached t) (open_read fs (invert_file_name t)) (index_file_name t) (invert_file_name t) (index_map t) []).
End Disk.

(** ** Look-up *)

(** [readInvertPart]: [None] is a null file handle or a negative size; [Some
    None] the answer [false]. *)
Definition readInvertPart (fs : files) (t : InvertTable) (node : IndexNode) : option (option (list InvertNode2)) :=
  path ← fp t;
  let addr := size_t (x_nOffset node * 12) in
  if (2 ^ 63 <=? addr)%Z then Some None   (* a negative position: [fseek] fails *)
  else if (x_nCount node <? 0)%Z then None
  else
    let nodes := take (Z.to_nat (x_nCount node)) (read_nodes (drop (Z.to_nat addr) (default [] (fs path)))) in
    Some (if decide (length nodes = Z.to_nat (x_nCount node)) then Some nodes else None).

(** The entries of the vector from [addr] on; [None] outside it. *)
Definition vec_slice (v : list InvertNode2) (addr cnt : Z) : option (list InvertNode2) :=
  let nodes := take (Z.to_nat cnt) (drop (Z.to_nat addr) v) in
  if decide (0 <= addr /\ 0 < cnt /\ length nodes = Z.to_nat cnt)%Z then Some nodes else None.

(** [getPostList(index, temp_vec, start, cnt)]: the answer and the [cnt]
    entries at [start]; [None] where these are not all in the vector. *)
Definition getPostList (fs : files) (t : InvertTable) (index : Z) : option (bool * list InvertNode2) :=
  match index_map t !! index with
  | None => Some (false, [])
  | Some node =>
      if is_cached t then nodes ← vec_slice (invert_vec t) (x_nOffset node) (x_nCount node); Some (true, nodes)
      else r ← readInvertPart fs t node; Some match r with None => (false, []) | Some nodes => (true, nodes) end
  end.

(** [getPostList(index, result_vec)] copies them. *)
Definition getPostList_copy (fs : files) (t : InvertTable) (index : Z) : option (bool * list InvertNode2) :=
  if negb (has_key t index) then Some (false, [])
  else
    node ← index_map t !! index;
    if is_cached t then nodes ← vec_slice (invert_vec t) (x_nOffset node) (x_nCount node); Some (true, [] ++ nodes)
    else r ← readInvertPart fs t node; Some match r with None => (false, []) | Some nodes => (true, nodes) end.

(** ** The creator *)

Inductive SortMethod := byIndex | byID | byWeight.

Record InvertTableCreator := Creator { m_tripleVec : list ST_PidKidInfo2; dup_filter : gset (Z * Z) }.
Definition creator_clear (c : InvertTableCreator) : InvertTableCreator := Creator [] ∅.
Definition new_creator : InvertTableCreator := Creator [] ∅.

(** [addTriple] with four arguments. *)
Definition addTriple (c : InvertTableCreator) (index_id invert_id weight weight2 : Z) : InvertTableCreator :=
  let k := (index_id, invert_id) in
  if decide (k ∈ dup_filter c) then c
  else Creator (m_tripleVec c ++ [Info index_id invert_id weight weight2]) ({[k]} ∪ dup_filter c).

(** [addTriple] with three arguments, for entries that have such a constructor;
    [ST_PidKidInfo2] has none, so [InvertTableCreator2] cannot call it. *)
Definition addTriple3 (make : Z -> Z -> Z -> ST_PidKidInfo2) (c : InvertTableCreator) (index_id invert_id weight : Z) : InvertTableCreator :=
  let k := (index_id, invert_id) in
  if decide (k ∈ dup_filter c) then c
  else Creator (m_tripleVec c ++ [make index_id invert_id weight]) ({[k]} ∪ dup_filter c).

(** [init], with what Boost.Filesystem says of the directories [d]; creating one
    may throw. *)
Definition init {D} (exists_ : D -> str -> bool) (create_directories : D -> str -> option D) (m_dir : str) (d : D) : option D :=
  if exists_ d m_dir then Some d else create_directories d m_dir.

(** [std::stable_sort]: of equal elements the first comes first. Where the
    comparator decides any two elements it is also what [std::sort] gives. *)
Fixpoint sorted_insert (before : ST_PidKidInfo2 -> ST_PidKidInfo2 -> bool) (x : ST_PidKidInfo2) (l : list ST_PidKidInfo2) :=
  match l with
  | [] => [x]
  | y :: l' => if before y x then y :: sorted_insert before x l' else x :: y :: l'
  end.
Definition stable_sort (before : ST_PidKidInfo2 -> ST_PidKidInfo2 -> bool) (l : list ST_PidKidInfo2) : list ST_PidKidInfo2 :=
  foldr (sorted_insert before) [] l.

Definition comparator (m : SortMethod) : ST_PidKidInfo2 -> ST_PidKidInfo2 -> bool :=
  match m with byIndex => CmpSTNodeByIndex | byID => CmpSTNodeByID | byWeight => CmpSTNodeByWeight end.

Definition creator_create (writable : str -> bool) (iterate : gmap Z IndexNode -> list IndexNode) (garbage : IndexNode)
    (fs : files) (t : InvertTable) (c : InvertTableCreator) (m_dir : str) (m_sortMethod : SortMethod) (m_persistent : bool)
  : option (files * InvertTable * InvertTableCreator) :=
  let c := Creator (stable_sort (comparator m_sortMethod) (m_tripleVec c)) (dup_filter c) in
  '(fs, t) ← create writable iterate garbage fs t (m_tripleVec c) m_dir m_persistent;
  Some (fs, t, c).

(** ** [ZInvertTable] *)

Record ZInvertTable := ZTable { id2Nodes : gmap Z (list InvertNode2); z_dup_filter : gset (Z * Z) }.
Definition new_ZInvertTable : ZInvertTable := ZTable ∅ ∅.

Definition z_insert (t : ZInvertTable) (info : ST_PidKidInfo2) : ZInvertTable :=
  let k := (m_nPid info, m_nKid info) in
  if decide (k ∈ z_dup_filter t) then t
  else ZTable (<[m_nPid info := default [] (id2Nodes t !! m_nPid info) ++ [copy info]]> (id2Nodes t)) ({[k]} ∪ z_dup_filter t).
Definition z_createInvertTable (t : ZInvertTable) (vec : list ST_PidKidInfo2) : ZInvertTable := foldl z_insert t vec.
Definition z_create (t : ZInvertTable) (vec : list ST_PidKidInfo2) : ZInvertTable := z_createInvertTable (ZTable ∅ ∅) vec.
Definition z_getPostList (t : ZInvertTable) (id : Z) : bool * list InvertNode2 :=
  match id2Nodes t !! id with None => (false, []) | Some nodes => (true, nodes) end.

(** ** Specification *)

(** The entries of a key, in the order of the vector. *)
Definition entries (v : list ST_PidKidInfo2) (p : Z) : list InvertNode2 := copy <$> filter (fun x => m_nPid x = p) v.
Definition answer (v : list ST_PidKidInfo2) (p : Z) : bool * list InvertNode2 :=
  match entries v p with [] => (false, []) | ns => (true, ns) end.

(** The vector is grouped: a key that is left does not come back. *)
Definition grouped (v : list ST_PidKidInfo2) : Prop :=
  forall l1 x y l2, v = l1 ++ x :: y :: l2 -> m_nPid y <> m_nPid x -> Forall (fun z => m_nPid z <> m_nPid y) (l1 ++ [x]).

(** The first entry of every pair of ids, in order. *)
Fixpoint dedup (seen : list (Z * Z)) (l : list ST_PidKidInfo2) : list ST_PidKidInfo2 :=
  match l with
  | [] => []
  | x :: l' =>
      if decide ((m_nPid x, m_nKid x) ∈ seen) then dedup seen l'
      else x :: dedup ((m_nPid x, m_nKid x) :: seen) l'
  end.

(** The sum of the squared weights, as the [int] arithmetic has it. *)
Definition square_sum (l : list ST_PidKidInfo2) : Z :=
  foldl (fun acc x => int32 (acc + int32 (m_nWeight x * m_nWeight x))) 0%Z l.

(** ** Lemmas *)

Definition count (p : Z) (l : list ST_PidKidInfo2) : nat := length (filter (fun x => m_nPid x = p) l).
(** Where a key starts. *)
Fixpoint first (p : Z) (l : list ST_PidKidInfo2) : nat :=
  match l with [] => 0 | x :: l' => if decide (m_nPid x = p) then 0 else S (first p l') end.

Definition index_of (l : list ST_PidKidInfo2) (p : Z) : option IndexNode :=
  if decide (count p l = 0) then None
  else Some (Index p (Z.of_nat (first p l)) (Z.of_nat (count p l)) (norm (square_sum (filter (fun x => m_nPid x = p) l)))).

Lemma table2_count_snoc p l x : count p (l ++ [x]) = count p l + if decide (m_nPid x = p) then 1 else 0.
Proof. unfold count. rewrite filter_app, length_app, filter_cons, filter_nil. by case_decide. Qed.

Lemma count_none p l : count p l = 0 <-> Forall (fun z => m_nPid z <> p) l.
Proof.
  unfold count. induction l as [|x l IH]; [split; [constructor|done]|]. rewrite filter_cons, Forall_cons. case_decide; cbn.
  - split; [done|]. by intros [].
  - rewrite IH. tauto.
Qed.

Lemma first_snoc p l x : first p (l ++ [x]) = if decide (count p l = 0) then first p l + (if decide (m_nPid x = p) then 0 else 1) else first p l.
Proof.
  unfold count. induction l as [|y l IH]; cbn [app first]; [rewrite filter_nil; cbn; by case_decide|].
  rewrite filter_cons. destruct (decide (m_nPid y = p)); [done|]. rewrite IH. by repeat case_decide.
Qed.

Lemma first_none p l : count p l = 0 -> first p l = length l.
Proof.
  intros H%count_none. induction H as [|x l Hx _ IH]; [done|]. cbn [first]. rewrite decide_False by done. by rewrite IH.
Qed.

Lemma grouped_snoc l x : grouped (l ++ [x]) -> grouped l.
Proof.
  intros Hg l1 a b l2 -> Hne. apply (Hg l1 a b (l2 ++ [x])); [|done]. by rewrite <- app_assoc.
Qed.

Lemma grouped_last l y x : grouped (l ++ [y; x]) -> m_nPid x <> m_nPid y -> count (m_nPid x) (l ++ [y]) = 0.
Proof. intros Hg Hne. apply count_none. by apply (Hg l y x []). Qed.

Definition has_pid (p : Z) (x : ST_PidKidInfo2) : Prop := m_nPid x = p.

(** A grouped vector is what comes before a key, its group, and the rest. *)
Lemma grouped_split p l :
  grouped l -> exists a b c, l = a ++ b ++ c /\ Forall (fun z => m_nPid z <> p) a /\ Forall (has_pid p) b /\
    Forall (fun z => m_nPid z <> p) c.
Proof.
  induction l as [|x l IH] using rev_ind; [exists [], [], []; by repeat constructor|]. intros Hg.
  destruct (IH (grouped_snoc _ _ Hg)) as (a & b & c & -> & Ha & Hb & Hc). destruct (decide (m_nPid x = p)) as [Hx|Hx].
  2: { exists a, b, (c ++ [x]). rewrite <- !app_assoc. split_and!; [done|done|done|]. apply Forall_app. split; [done|by constructor]. }
  destruct c as [|z c' _] using rev_ind.
  - exists a, (b ++ [x]), []. rewrite !app_nil_r, <- !app_assoc. split_and!; [done|done| |constructor].
    apply Forall_app. split; [done|by constructor].
  - apply Forall_app in Hc as [Hc' [Hz _]%Forall_cons].
    assert (Forall (fun y => m_nPid y <> p) (a ++ b ++ c' ++ [z])) as Hno.
    { rewrite !app_assoc, <- app_assoc in Hg. cbn [app] in Hg. rewrite <- Hx. apply count_none.
      rewrite !app_assoc. apply grouped_last; [by rewrite <- !app_assoc in Hg |- *|congruence]. }
    exists (a ++ b ++ c' ++ [z]), [x], []. split_and!; [done|done|by constructor|constructor].
Qed.

Lemma filter_split p a b c :
  Forall (fun z => m_nPid z <> p) a -> Forall (has_pid p) b -> Forall (fun z => m_nPid z <> p) c ->
  filter (fun x => m_nPid x = p) (a ++ b ++ c) = b.
Proof.
  intros Ha Hb Hc. rewrite !filter_app, filter_none, (filter_none _ c), filter_all.
  - by rewrite app_nil_r.
  - by apply Forall_forall.
  - by apply Forall_forall.
  - by apply Forall_forall.
Qed.

Lemma first_app p a l : Forall (fun z => m_nPid z <> p) a -> first p (a ++ l) = length a + first p l.
Proof. induction 1 as [|x a Hx _ IH]; [done|]. cbn [app first length]. rewrite decide_False by done. by rewrite IH. Qed.

(** The entries of a key of a grouped vector are one slice of it. *)
Lemma slice_grouped p l :
  grouped l -> count p l <> 0 ->
  take (count p l) (drop (first p l) l) = filter (fun x => m_nPid x = p) l /\ first p l + count p l <= length l.
Proof.
  intros Hg Hn. destruct (grouped_split p l Hg) as (a & b & c & -> & Ha & Hb & Hc). unfold count in *.
  rewrite filter_split in * by done. rewrite first_app by done. destruct b as [|x b]; [done|].
  apply Forall_cons in Hb as [Hx Hb]. assert (first p ((x :: b) ++ c) = 0) as ->.
  { cbn [app first]. by rewrite decide_True. }
  rewrite Nat.add_0_r, drop_app_length, take_app_length, !length_app. split; [done|]. lia.
Qed.

Lemma index_of_bounds l p n :
  grouped l -> index_of l p = Some n ->
  x_nID n = p /\ (0 < x_nCount n)%Z /\ (0 <= x_nOffset n /\ x_nOffset n + x_nCount n <= Z.of_nat (length l))%Z /\ 
  (exists z, n = Index p (Z.of_nat (first p l)) (Z.of_nat (count p l)) (norm z)).
Proof.
  unfold index_of. intros Hg. case_decide as H0; [done|]. intros [= <-]. destruct (slice_grouped p l Hg H0) as [_ Hl]. cbn.
  split_and!; try lia. by eexists.
Qed.

(** *** The loop *)

(** After the entries [l], the last of which has key [q]. *)
Definition build_inv (l : list ST_PidKidInfo2) (acc : Z * IndexNode * gmap Z IndexNode * list InvertNode2) : Prop :=
  let '(i, node, m, v) := acc in
  i = Z.of_nat (length l) /\ v = copy <$> l /\
  exists l' x, l = l' ++ [x] /\ x_nID node = m_nPid x /\
    x_nOffset node = Z.of_nat (first (m_nPid x) l) /\ x_nCount node = Z.of_nat (count (m_nPid x) l) /\
    x_nTotalWeight node = square_sum (filter (fun y => m_nPid y = m_nPid x) l) /\
    forall p, p <> m_nPid x -> m !! p = index_of l p.

Lemma square_sum_snoc l x : square_sum (l ++ [x]) = int32 (square_sum l + int32 (m_nWeight x * m_nWeight x)).
Proof. unfold square_sum. by rewrite foldl_app. Qed.

(** Appending an entry of another key changes nothing for [p]. *)
Lemma index_of_other l x p : m_nPid x <> p -> index_of (l ++ [x]) p = index_of l p.
Proof.
  intros Hx. unfold index_of. rewrite table2_count_snoc, first_snoc, filter_app, filter_cons, filter_nil.
  rewrite !(decide_False (P := m_nPid x = p)) by done. rewrite app_nil_r, Nat.add_0_r.
  by destruct (decide (count p l = 0)).
Qed.

Lemma table2_build_first x garbage : build_inv [x] (build_step (0%Z, garbage, ∅, []) x).
Proof.
  unfold build_step, build_inv. cbn [Z.eqb open_node x_nID]. rewrite Z.eqb_refl. cbn [negb x_nID x_nOffset x_nCount x_nTotalWeight].
  split_and!; [done|done|]. exists [], x. unfold count. rewrite filter_cons, filter_nil, decide_True by done. cbn [first].
  rewrite decide_True by done. split_and!; try done. intros p Hp.
  change [x] with ([] ++ [x]). by rewrite index_of_other by congruence.
Qed.

Lemma table2_build_next l x acc :
  grouped (l ++ [x]) -> l <> [] -> (Z.of_nat (length l) < 2 ^ 31 - 1)%Z ->
  build_inv l acc -> build_inv (l ++ [x]) (build_step acc x).
Proof.
  intros Hg Hne Hlen. destruct acc as [[[i node] m] v]. intros (-> & -> & l' & y & Hl & Hid & Hoff & Hcnt & Htot & Hm).
  unfold build_step. destruct (Z.eqb_spec (Z.of_nat (length l)) 0) as [H0|_]; [by destruct l|].
  assert (0 < count (m_nPid y) l <= length l) as Hcl.
  { rewrite Hl. rewrite table2_count_snoc, decide_True, length_app by done. pose proof (length_filter (fun z => m_nPid z = m_nPid y) l').
    unfold count. cbn. lia. }
  destruct (Z.eqb_spec (x_nID node) (m_nPid x)) as [Heq|Hneq]; cbn [negb]; (split; [rewrite length_app; cbn; lia|]);
    (split; [by rewrite fmap_app|]); exists l, x; (split; [done|]).
  - rewrite Hid in Heq. cbn [x_nID x_nOffset x_nCount x_nTotalWeight]. rewrite <- Heq.
    rewrite table2_count_snoc, first_snoc, filter_app, filter_cons, filter_nil.
    rewrite (decide_False (P := count (m_nPid y) l = 0)) by lia. rewrite !(decide_True (P := m_nPid x = m_nPid y)) by done.
    rewrite square_sum_snoc, <- Htot, Hcnt. split_and!; try done.
    + rewrite int32_id by (unfold in_int32; lia). lia.
    + intros p Hp. rewrite index_of_other by congruence. by apply Hm.
  - rewrite Hid in Hneq. cbn [open_node x_nID x_nOffset x_nCount x_nTotalWeight].
    assert (count (m_nPid x) l = 0) as Hc0.
    { rewrite Hl. apply grouped_last; [|congruence]. by rewrite Hl, <- app_assoc in Hg. }
    assert (filter (fun z => m_nPid z = m_nPid x) l = []) as Hf0 by (by apply nil_length_inv).
    rewrite table2_count_snoc, first_snoc, filter_app, filter_cons, filter_nil, Hc0, Hf0.
    rewrite (decide_True (P := 0 = 0)), !(decide_True (P := m_nPid x = m_nPid x)), Nat.add_0_r by done.
    split_and!; [done|by rewrite first_none|done|done|]. intros p Hp. rewrite index_of_other by congruence.
    destruct (decide (p = x_nID node)) as [->|Hpy].
    + rewrite lookup_insert_eq. unfold index_of. rewrite Hid, decide_False by lia. f_equal.
      unfold close_node. by rewrite Hid, Hoff, Hcnt, Htot.
    + rewrite lookup_insert_ne by done. apply Hm. congruence.
Qed.

Lemma table2_build_loop garbage l :
  grouped l -> l <> [] -> (Z.of_nat (length l) < 2 ^ 31)%Z -> build_inv l (foldl build_step (0%Z, garbage, ∅, []) l).
Proof.
  induction l as [|x l IH] using rev_ind; [done|]. intros Hg _ Hlen.
  rewrite length_app in Hlen. cbn [length] in Hlen. rewrite foldl_snoc.
  destruct l as [|y l]; [apply table2_build_first|].
  apply table2_build_next; [done|done|lia|]. apply IH; [by eapply grouped_snoc|done|lia].
Qed.

Lemma create2InvertTable_spec garbage t v :
  (Z.of_nat (length v) < 2 ^ 31)%Z -> grouped v -> index_map t = ∅ -> invert_vec t = [] ->
  exists m, createInvertTable garbage t v = Table (is_cached t) (fp t) (index_file_name t) (invert_file_name t) m (copy <$> v) /\
    forall p, m !! p = index_of v p.
Proof.
  intros Hlen Hg Hm Hv. unfold createInvertTable. rewrite int32_id by (unfold in_int32; lia).
  destruct (Z.eqb_spec (Z.of_nat (length v)) 0) as [H0|H0].
  - assert (v = []) as -> by (apply nil_length_inv; lia). exists ∅. split; [by destruct t; cbn in *; subst|done].
  - assert (v <> []) as Hne by (by intros ->). rewrite Nat2Z.id, firstn_all2, Hm, Hv by lia.
    pose proof (table2_build_loop garbage v Hg Hne Hlen) as Hb. destruct (foldl _ _ _) as [[[i node] m] v'].
    destruct Hb as (_ & -> & l' & x & Hl & Hid & Hoff & Hcnt & Htot & Hmap). eexists. split; [done|]. intros p.
    destruct (decide (p = m_nPid x)) as [->|Hp].
    + rewrite <- Hid, lookup_insert_eq. unfold index_of. rewrite Hid. unfold close_node. rewrite Hid, Hoff, Hcnt, Htot.
      rewrite decide_False; [done|]. rewrite Hl, table2_count_snoc, decide_True by done. lia.
    + rewrite lookup_insert_ne by congruence. by apply Hmap.
Qed.

(** *** Look-ups *)

Lemma entries_slice v p :
  grouped v -> count p v <> 0 ->
  take (count p v) (drop (first p v) (copy <$> v)) = entries v p /\ length (entries v p) = count p v /\
  first p v + count p v <= length v.
Proof.
  intros Hg Hc. destruct (slice_grouped p v Hg Hc) as [Hs Hl]. rewrite <- fmap_drop, <- fmap_take, Hs.
  split_and!; [done|unfold entries; by rewrite length_fmap|done].
Qed.

Lemma table2_answer_found v p : count p v <> 0 -> answer v p = (true, entries v p).
Proof. unfold count, answer, entries. by destruct (filter _ v). Qed.
Lemma table2_answer_missing v p : count p v = 0 -> answer v p = (false, []).
Proof. unfold count, answer, entries. by destruct (filter _ v). Qed.

(** The two look-ups give the same. *)
Lemma getPostList_same fs t p : getPostList_copy fs t p = getPostList fs t p.
Proof.
  unfold getPostList_copy, getPostList, has_key. destruct (index_map t !! p) as [n|]; [|done].
  rewrite bool_decide_true by done. done.
Qed.

(** Nothing can be read from an empty vector. *)
Lemma vec_slice_nil addr cnt : vec_slice [] addr cnt = None.
Proof. unfold vec_slice. rewrite drop_nil, take_nil. rewrite decide_False; [done|]. cbn [length]. lia. Qed.

Lemma table2_cached_answer fs t v p :
  grouped v -> is_cached t = true -> (forall p, index_map t !! p = index_of v p) -> invert_vec t = copy <$> v ->
  getPostList fs t p = Some (answer v p).
Proof.
  intros Hg Hc Hi Hv. unfold getPostList. rewrite Hi, Hc, Hv. unfold index_of.
  case_decide as H0; [by rewrite table2_answer_missing|]. destruct (entries_slice v p Hg H0) as (Hs & Hl & Hb).
  unfold vec_slice. cbn [x_nOffset x_nCount]. rewrite !Nat2Z.id, Hs, decide_True by lia. cbn. by rewrite table2_answer_found.
Qed.

(** *** Files *)

Definition node_ok (n : InvertNode2) : Prop := in_int32 (n_nID n) /\ in_int32 (n_nWeight n) /\ in_int32 (n_nWeight2 n).
Definition index_ok (n : IndexNode) : Prop :=
  in_int32 (x_nID n) /\ in_int32 (x_nOffset n) /\ in_int32 (x_nCount n) /\ in_int32 (x_nTotalWeight n).
Definition info_ok (x : ST_PidKidInfo2) : Prop :=
  in_int32 (m_nPid x) /\ in_int32 (m_nKid x) /\ in_int32 (m_nWeight x) /\ in_int32 (m_nWeight2 x).

Lemma norm_range z : in_int32 (norm z).
Proof.
  unfold norm, int_of_float, in_int32. destruct (SFmul _ _ _ _) as [b|b| |b m e]; try lia.
  set (z' := if b then _ else _). destruct (Z.leb_spec (- 2 ^ 31) z'), (Z.ltb_spec z' (2 ^ 31)); cbn; lia.
Qed.

Lemma table2_read_nodes_write ns : Forall node_ok ns -> read_nodes (concat (bytes_of_node <$> ns)) = ns.
Proof.
  induction 1 as [|[a b c] ns (Ha & Hb & Hc) _ IH]; [done|]. rewrite fmap_cons.
  cbn [concat bytes_of_node le32 app read_nodes n_nID n_nWeight n_nWeight2].
  cbn in Ha, Hb, Hc. by rewrite !of_le32_le32, !int32_id, IH.
Qed.

Lemma table2_read_indices_write ns : Forall index_ok ns -> read_indices (concat (bytes_of_index <$> ns)) = ns.
Proof.
  induction 1 as [|[a b c d] ns (Ha & Hb & Hc & Hd) _ IH]; [done|]. rewrite fmap_cons.
  cbn [concat bytes_of_index le32 app read_indices x_nID x_nOffset x_nCount x_nTotalWeight].
  cbn in Ha, Hb, Hc, Hd. by rewrite !of_le32_le32, !int32_id, IH.
Qed.

Lemma table2_drop_nodes k ns :
  k <= length ns -> drop (12 * k) (concat (bytes_of_node <$> ns)) = concat (bytes_of_node <$> drop k ns).
Proof.
  revert ns. induction k as [|k IH]; intros [|n ns] Hk; try done; cbn in Hk.
  replace (12 * S k) with (12 + 12 * k) by lia. rewrite <- drop_drop.
  rewrite fmap_cons. cbn [concat bytes_of_node le32 app drop]. apply IH. lia.
Qed.

Lemma nodes_ok v : Forall info_ok v -> Forall node_ok (copy <$> v).
Proof. intros H. apply Forall_fmap. eapply Forall_impl; [exact H|]. by intros x (? & ? & ? & ?). Qed.

Lemma table2_disk_answer fs t v path p :
  (Z.of_nat (length v) < 2 ^ 31)%Z -> grouped v -> Forall info_ok v -> is_cached t = false ->
  (forall p, index_map t !! p = index_of v p) -> fp t = Some path -> fs path = Some (concat (bytes_of_node <$> (copy <$> v))) ->
  getPostList fs t p = Some (answer v p).
Proof.
  intros Hlen Hg Hok Hc Hi Hfp Hfs. unfold getPostList. rewrite Hi, Hc. unfold index_of.
  case_decide as H0; [by rewrite table2_answer_missing|]. destruct (entries_slice v p Hg H0) as (Hs & Hl & Hb).
  unfold readInvertPart. rewrite Hfp. cbn [mbind option_bind x_nOffset x_nCount]. rewrite Hfs. cbn [from_option id].
  unfold size_t. rewrite Z.mod_small by lia.
  destruct (Z.leb_spec (2 ^ 63) (Z.of_nat (first p v) * 12)); [lia|].
  destruct (Z.ltb_spec (Z.of_nat (count p v)) 0); [lia|]. rewrite Nat2Z.id.
  replace (Z.to_nat (Z.of_nat (first p v) * 12)) with (12 * first p v) by lia.
  rewrite table2_drop_nodes by (rewrite length_fmap; lia). rewrite table2_read_nodes_write by (apply Forall_drop, nodes_ok, Hok).
  rewrite Hs, decide_True by done. cbn. by rewrite table2_answer_found.
Qed.

Lemma table2_load_steps (m m0 : gmap Z IndexNode) l p :
  (forall n, n ∈ l -> m !! x_nID n = Some n /\ x_nCount n <> 0%Z) ->
  foldl load_step m0 l !! p = if decide (p ∈ x_nID <$> l) then m !! p else m0 !! p.
Proof.
  revert m0. induction l as [|n l IH]; intros m0 Hl; [by rewrite decide_False by set_solver|].
  cbn [foldl]. rewrite IH by (intros; apply Hl; set_solver). clear IH.
  destruct (Hl n ltac:(set_solver)) as [Hn Hc].
  unfold load_step. destruct (Z.eqb_spec (x_nCount n) 0); [done|]. cbn [negb].
  rewrite fmap_cons. destruct (decide (p ∈ x_nID <$> l)) as [Hin|Hin].
  - by rewrite decide_True by set_solver.
  - destruct (decide (p = x_nID n)) as [->|Hp].
    + rewrite lookup_insert_eq, decide_True by set_solver. done.
    + rewrite lookup_insert_ne, decide_False by set_solver. done.
Qed.

Lemma index_entry_ok v p n :
  (Z.of_nat (length v) < 2 ^ 31)%Z -> grouped v -> Forall info_ok v -> index_of v p = Some n -> index_ok n.
Proof.
  intros Hlen Hg Hok Hi. pose proof (index_of_bounds v p n Hg Hi) as (Hid & Hc & Ho & z & Hn).
  assert (exists x, x ∈ v /\ m_nPid x = p) as (x & Hx & Hxp).
  { unfold index_of in Hi. case_decide as H0; [done|]. unfold count in H0.
    destruct (filter (fun x => m_nPid x = p) v) as [|x l] eqn:Hf; [done|]. exists x.
    assert (x ∈ filter (fun x => m_nPid x = p) v) as Hxf by (rewrite Hf; set_solver).
    by apply list_elem_of_filter in Hxf as [? ?]. }
  rewrite Forall_forall in Hok. destruct (Hok x Hx) as (Hpid & _). subst n. unfold index_ok, in_int32 in *. cbn in *.
  split_and!; try lia; apply norm_range.
Qed.

Section Disk_correct.
Context (writable : str -> bool) (iterate : gmap Z IndexNode -> list IndexNode) (garbage : IndexNode).
(** A traversal of an [unordered_map] meets every entry once. *)
Hypothesis iterate_perm : forall m, iterate m ≡ₚ (map_to_list m).*2.

Definition index_file (dir : str) : str := dir ++ lit "/index.idx".
Definition invert_file (dir : str) : str := dir ++ lit "/invert.idx".

Lemma table2_index_invert_ne dir : index_file dir <> invert_file dir.
Proof. intros H%(f_equal (drop (length dir))). unfold index_file, invert_file in H. by rewrite !drop_app_length in H. Qed.

(** What [create] leaves behind, from any table. *)
Lemma create2_spec fs t v dir persistent :
  (Z.of_nat (length v) < 2 ^ 31)%Z -> grouped v ->
  writable (index_file dir) = true -> writable (invert_file dir) = true ->
  exists m fs' h,
    (forall p, m !! p = index_of v p) /\
    create writable iterate garbage fs t v dir persistent =
      Some (fs', Table (is_cached t) h (index_file dir) (invert_file dir) m (if is_cached t then copy <$> v else [])) /\
    (is_cached t = false -> h = Some (invert_file dir)) /\
    (persistent = true \/ is_cached t = false ->
      fs' (invert_file dir) = Some (concat (bytes_of_node <$> (copy <$> v)))) /\
    (persistent = true -> fs' (index_file dir) = Some (concat (bytes_of_index <$> iterate m))).
Proof.
  intros Hlen Hg Hw1 Hw2. unfold create. fold (index_file dir) (invert_file dir).
  destruct (create2InvertTable_spec garbage (clear (set_names t (index_file dir) (invert_file dir))) v Hlen Hg eq_refl eq_refl)
    as (m & -> & Hm).
  cbn [clear set_names is_cached fp index_file_name invert_file_name].
  exists m. unfold writeIndex, writeInvert, open_read, write_file.
  cbn [is_cached fp index_file_name invert_file_name index_map invert_vec]. rewrite Hw1, Hw2.
  pose proof (table2_index_invert_ne dir).
  destruct persistent, (is_cached t); cbn [negb mbind option_bind]; do 2 eexists;
    (split; [exact Hm|]); (split; [reflexivity|]); split_and!; intros; destruct_or?; try done; cbv beta;
    rewrite ?(decide_True (P := invert_file dir = invert_file dir)) by done;
    rewrite ?(decide_False (P := index_file dir = invert_file dir)) by done;
    rewrite ?(decide_True (P := index_file dir = index_file dir)) by done; done.
Qed.

Lemma table2_iterate_elem m n : n ∈ iterate m <-> exists p, m !! p = Some n.
Proof.
  rewrite iterate_perm, list_elem_of_fmap. setoid_rewrite <- elem_of_map_to_list.
  split; [intros ([p n'] & -> & Hp)|intros [p Hp]]; [by exists p|by exists (p, n)].
Qed.

Lemma table2_read_index_file m v p :
  (Z.of_nat (length v) < 2 ^ 31)%Z -> grouped v -> Forall info_ok v -> (forall p, m !! p = index_of v p) ->
  foldl load_step ∅ (read_indices (concat (bytes_of_index <$> iterate m))) !! p = m !! p.
Proof.
  intros Hlen Hg Hok Hm. rewrite table2_read_indices_write.
  2: { apply Forall_forall. intros n [q Hq]%table2_iterate_elem. rewrite Hm in Hq. by eapply index_entry_ok. }
  assert (forall n q, m !! q = Some n -> x_nID n = q /\ (0 < x_nCount n)%Z) as Hn.
  { intros n q Hq. rewrite Hm in Hq. destruct (index_of_bounds v q n Hg Hq) as (? & ? & _). done. }
  rewrite (table2_load_steps m).
  2: { intros n [q Hq]%table2_iterate_elem. destruct (Hn n q Hq) as [-> ?]. split; [done|lia]. }
  case_decide as Hin; [done|]. destruct (m !! p) as [n|] eqn:Hp; [|done].
  destruct Hin. apply list_elem_of_fmap. exists n. split; [|by apply table2_iterate_elem; exists p].
  by destruct (Hn n p Hp) as [-> _].
Qed.

Lemma create2_correct fs t v dir persistent :
  (Z.of_nat (length v) < 2 ^ 31)%Z -> grouped v -> Forall info_ok v ->
  writable (index_file dir) = true -> writable (invert_file dir) = true ->
  exists fs' t', create writable iterate garbage fs t v dir persistent = Some (fs', t') /\
    forall p, getPostList fs' t' p = Some (answer v p).
Proof.
  intros Hlen Hg Hok Hw1 Hw2.
  destruct (create2_spec fs t v dir persistent Hlen Hg Hw1 Hw2) as (m & fs' & h & Hm & Hc & Hfp & Hdata & _).
  do 2 eexists. split; [exact Hc|]. intros p. destruct (is_cached t) eqn:Hcache.
  - by eapply (table2_cached_answer _ _ v).
  - eapply (table2_disk_answer _ _ v); cbn; try done; [by apply Hfp|by apply Hdata; right].
Qed.
End Disk_correct.

(** *** Sorting *)

Definition le_by (m : SortMethod) (x y : ST_PidKidInfo2) : Prop := comparator m y x = false.
#[export] Instance le_by_dec m x y : Decision (le_by m x y).
Proof. unfold le_by. apply _. Defined.

Lemma le_by_spec m x y :
  le_by m x y <->
  (m_nPid x < m_nPid y \/ m_nPid x = m_nPid y /\
     match m with
     | byIndex => True
     | byID => m_nKid x <= m_nKid y
     | byWeight => m_nWeight y < m_nWeight x \/ m_nWeight x = m_nWeight y /\ m_nKid x <= m_nKid y
     end)%Z.
Proof.
  unfold le_by, comparator, CmpSTNodeByIndex, CmpSTNodeByID, CmpSTNodeByWeight. destruct m.
  - rewrite Z.ltb_ge. lia.
  - destruct (Z.eqb_spec (m_nPid y) (m_nPid x)); cbn; rewrite Z.ltb_ge; lia.
  - destruct (Z.eqb_spec (m_nPid y) (m_nPid x)), (Z.eqb_spec (m_nWeight y) (m_nWeight x)); cbn; rewrite Z.ltb_ge; lia.
Qed.

#[export] Instance le_by_trans m : Transitive (le_by m).
Proof. intros x y z. rewrite !le_by_spec. destruct m; lia. Qed.

Lemma le_by_total m x y : comparator m x y = true -> le_by m x y.
Proof.
  intros H. destruct (decide (le_by m x y)) as [|Hn]; [done|]. exfalso.
  assert (le_by m y x) as Hyx.
  { revert Hn. rewrite !le_by_spec. destruct m; lia. }
  unfold le_by in Hyx. congruence.
Qed.

Lemma sorted_insert_perm before x l : sorted_insert before x l ≡ₚ x :: l.
Proof. induction l as [|y l IH]; [done|]. cbn. destruct (before y x); [|done]. by rewrite IH, Permutation_swap. Qed.

Lemma stable_sort_perm before l : stable_sort before l ≡ₚ l.
Proof. induction l as [|x l IH]; [done|]. cbn. by rewrite sorted_insert_perm, IH. Qed.

Lemma sorted_insert_sorted m x l : StronglySorted (le_by m) l -> StronglySorted (le_by m) (sorted_insert (comparator m) x l).
Proof.
  induction 1 as [|y l Hl IH Hy]; [by repeat constructor|]. cbn. destruct (comparator m y x) eqn:Hc.
  - constructor; [done|]. rewrite sorted_insert_perm. constructor; [by apply le_by_total|done].
  - constructor; [by constructor|]. constructor; [done|]. eapply Forall_impl; [exact Hy|]. intros z Hz. by trans y.
Qed.

Lemma stable_sort_sorted m l : StronglySorted (le_by m) (stable_sort (comparator m) l).
Proof. induction l as [|x l IH]; [constructor|]. by apply sorted_insert_sorted. Qed.

(** A vector sorted by its first ids is grouped. *)
Lemma sorted_grouped m l : StronglySorted (le_by m) l -> grouped l.
Proof.
  intros Hs l1 x y l2 -> Hne. apply Forall_forall. intros z Hz Heq.
  assert (le_by m x y) as Hxy by (eapply (StronglySorted_app_1_elem_of _ (l1 ++ [x]) (y :: l2)); [by rewrite <- app_assoc|set_solver|set_solver]).
  apply elem_of_app in Hz as [Hz|Hz%list_elem_of_singleton]; [|congruence].
  assert (le_by m z x) as Hzx by (eapply (StronglySorted_app_1_elem_of _ l1 (x :: y :: l2)); [done|done|set_solver]).
  apply le_by_spec in Hxy, Hzx. lia.
Qed.

(** The stable sort keeps the order of each group. *)
Lemma stable_sort_filter p l :
  filter (fun x => m_nPid x = p) (stable_sort CmpSTNodeByIndex l) = filter (fun x => m_nPid x = p) l.
Proof.
  induction l as [|x l IH]; [done|]. cbn [stable_sort foldr]. fold (stable_sort CmpSTNodeByIndex l).
  rewrite filter_cons, <- IH. generalize (stable_sort CmpSTNodeByIndex l) as s. clear.
  induction s as [|y s IH]; cbn [sorted_insert]; [by rewrite filter_cons|].
  unfold CmpSTNodeByIndex at 1. destruct (Z.ltb_spec (m_nPid y) (m_nPid x)) as [Hlt|Hge].
  - rewrite !filter_cons, IH. destruct (decide (m_nPid y = p)), (decide (m_nPid x = p)); try done. lia.
  - by rewrite filter_cons.
Qed.

(** *** The creator and the table in memory *)

(** After [init] the directory exists, and running it again does nothing. *)
Lemma init_again {D} (exists_ : D -> str -> bool) create_directories m_dir (d d' : D) :
  (forall d d', create_directories d m_dir = Some d' -> exists_ d' m_dir = true) ->
  init exists_ create_directories m_dir d = Some d' ->
  exists_ d' m_dir = true /\ init exists_ create_directories m_dir d' = Some d'.
Proof. unfold init. intros Hc. destruct (exists_ d m_dir) eqn:He; intros H; [injection H as <-; by rewrite He|]. by rewrite (Hc d d' H). Qed.

(** Entries with a constructor of three arguments are filtered like the others. *)
Lemma addTriple3_same c p k w w2 : addTriple3 (fun p k w => Info p k w w2) c p k w = addTriple c p k w w2.
Proof. done. Qed.

(** [addTriple] on every element of a list, in its order. *)
Definition add_all (c : InvertTableCreator) (l : list ST_PidKidInfo2) : InvertTableCreator :=
  foldl (fun c x => addTriple c (m_nPid x) (m_nKid x) (m_nWeight x) (m_nWeight2 x)) c l.

Lemma table2_add_all_spec seen l c :
  (forall k, k ∈ seen <-> k ∈ dup_filter c) -> m_tripleVec (add_all c l) = m_tripleVec c ++ dedup seen l.
Proof.
  unfold add_all. revert seen c. induction l as [|[p k w w2] l IH]; intros seen c Hk; [by rewrite app_nil_r|].
  cbn [foldl dedup m_nPid m_nKid m_nWeight m_nWeight2]. unfold addTriple at 2.
  destruct (decide ((p, k) ∈ seen)) as [Hin|Hin].
  - rewrite decide_True by by apply Hk. by apply IH.
  - rewrite decide_False by by rewrite <- Hk. rewrite (IH ((p, k) :: seen)).
    + cbn. by rewrite <- app_assoc.
    + intros q. cbn. rewrite elem_of_cons, elem_of_union, elem_of_singleton, Hk. done.
Qed.

Lemma table2_add_all_new l : m_tripleVec (add_all new_creator l) = dedup [] l.
Proof. rewrite (table2_add_all_spec []); [done|]. cbn. set_solver. Qed.

Lemma table2_dedup_sub seen l : dedup seen l `sublist_of` l.
Proof. revert seen. induction l as [|x l IH]; intros s; cbn [dedup]; [done|]. case_decide; constructor; apply IH. Qed.

Lemma entries_cons x l p : entries (x :: l) p = (if decide (m_nPid x = p) then [copy x] else []) ++ entries l p.
Proof. unfold entries. rewrite filter_cons. by case_decide. Qed.

Lemma z_loop_spec seen l t p :
  (forall k, k ∈ seen <-> k ∈ z_dup_filter t) ->
  id2Nodes (z_createInvertTable t l) !! p =
    match id2Nodes t !! p, entries (dedup seen l) p with
    | None, [] => None
    | o, ns => Some (default [] o ++ ns)
    end.
Proof.
  unfold z_createInvertTable. revert seen t. induction l as [|x l IH]; intros seen t Hk.
  { cbn. destruct (id2Nodes t !! p); [|done]. cbn. by rewrite app_nil_r. }
  cbn [foldl dedup]. unfold z_insert at 2. destruct (decide (_ ∈ seen)) as [Hin|Hin].
  - rewrite decide_True by by apply Hk. by apply IH.
  - rewrite decide_False by by rewrite <- Hk. rewrite (IH ((m_nPid x, m_nKid x) :: seen)).
    2: { intros q. cbn. rewrite elem_of_cons, elem_of_union, elem_of_singleton, Hk. done. }
    cbn [id2Nodes]. rewrite entries_cons. destruct (decide (m_nPid x = p)) as [<-|Hp].
    + rewrite lookup_insert_eq. cbn. rewrite <- app_assoc. cbn. by destruct (id2Nodes t !! m_nPid x).
    + by rewrite lookup_insert_ne.
Qed.

Lemma z_create_spec t l p : z_getPostList (z_create t l) p = answer (dedup [] l) p.
Proof.
  unfold z_getPostList, z_create. rewrite (z_loop_spec []) by (cbn; set_solver). cbn [id2Nodes]. rewrite lookup_empty.
  unfold answer. by destruct (entries _ p).
Qed.

(** ** Properties *)

(** Better weights first, then smaller ids. *)
Definition ranked (l r : InvertNode2) : Prop :=
  (n_nWeight r < n_nWeight l \/ n_nWeight l = n_nWeight r /\ n_nID l <= n_nID r)%Z.

Section Properties.
Context (writable : str -> bool) (iterate : gmap Z IndexNode -> list IndexNode) (garbage : IndexNode).
Hypothesis iterate_perm : forall m, iterate m ≡ₚ (map_to_list m).*2.

(** the creator and the table together. Whatever the table held before,
    after [create] both look-ups give for every key the entries added for it,
    each pair of ids once and with what was added first: in the order in which
    they were added, by id, or by weight, as the creator was told. In the first
    case they are what the table in memory, [ZInvertTable], gives. *)
Theorem creator2_answers fs t l dir method persistent :
  (Z.of_nat (length l) < 2 ^ 31)%Z -> Forall info_ok l ->
  writable (index_file dir) = true -> writable (invert_file dir) = true ->
  exists fs' t' c' v,
    creator_create writable iterate garbage fs t (add_all new_creator l) dir method persistent = Some (fs', t', c') /\
    v ≡ₚ dedup [] l /\
    forall p, getPostList fs' t' p = Some (answer v p) /\ getPostList_copy fs' t' p = Some (answer v p) /\
      match method with
      | byIndex => forall z, getPostList fs' t' p = Some (z_getPostList (z_create z l) p)
      | byID => StronglySorted (fun a b => (n_nID a <= n_nID b)%Z) (entries v p)
      | byWeight => StronglySorted ranked (entries v p)
      end.
Proof.
  intros Hlen Hok Hw1 Hw2. unfold creator_create. rewrite table2_add_all_new. cbn [m_tripleVec].
  set (v := stable_sort (comparator method) (dedup [] l)).
  assert (v ≡ₚ dedup [] l) as Hperm by apply stable_sort_perm.
  pose proof (stable_sort_sorted method (dedup [] l)) as Hsort. fold v in Hsort.
  destruct (create2_correct writable iterate garbage fs t v dir persistent) as (fs' & t' & -> & Ha); try done.
  - rewrite Hperm. pose proof (sublist_length _ _ (table2_dedup_sub [] l)). lia.
  - by eapply sorted_grouped.
  - rewrite Hperm. eapply Forall_sublist_le; [apply table2_dedup_sub|done].
  - cbn [mbind option_bind]. exists fs', t', (Creator v (dup_filter (add_all new_creator l))), v.
    split; [done|]. split; [done|]. intros p. split; [apply Ha|]. split; [rewrite getPostList_same; apply Ha|].
    assert (forall R : InvertNode2 -> InvertNode2 -> Prop,
      (forall x y, m_nPid x = m_nPid y -> le_by method x y -> R (copy x) (copy y)) -> StronglySorted R (entries v p)) as Hsorted.
    { intros R HR. unfold entries. revert Hsort. generalize v as s. clear - HR. intros s Hs.
      induction Hs as [|x s Hs IH Hx]; [constructor|]. rewrite filter_cons. case_decide as Hp; [|done].
      rewrite fmap_cons. constructor; [done|]. apply Forall_fmap, Forall_forall. intros y [Hy Hin]%list_elem_of_filter.
      rewrite Forall_forall in Hx. apply HR; [congruence|by apply Hx]. }
    destruct method.
    + intros z. rewrite Ha, z_create_spec. unfold answer, entries, v. cbn [comparator]. by rewrite stable_sort_filter.
    + apply Hsorted. intros x y Hp Hle. apply le_by_spec in Hle. cbn. lia.
    + apply Hsorted. intros x y Hp Hle. apply le_by_spec in Hle. unfold ranked. cbn. lia.
Qed.

(** What a persistent [create] wrote, a table without cache loads and
    answers from exactly. A cached table loads the index only: the entries are
    read into memory that the vector does not own yet, and every look-up of a
    key that exists reaches outside the vector. *)
Theorem load2_answers fs t v dir t0 :
  (Z.of_nat (length v) < 2 ^ 31)%Z -> grouped v -> Forall info_ok v ->
  writable (index_file dir) = true -> writable (invert_file dir) = true ->
  exists fs' t', create writable iterate garbage fs t v dir true = Some (fs', t') /\
    let '(found, t2) := load fs' t0 (index_file dir) (invert_file dir) in
    found = true /\
    forall p, getPostList fs' t2 p =
      if is_cached t0 then (if decide (entries v p = []) then Some (false, []) else None) else Some (answer v p).
Proof.
  intros Hlen Hg Hok Hw1 Hw2.
  destruct (create2_spec writable iterate garbage fs t v dir true Hlen Hg Hw1 Hw2) as (m & fs' & h & Hm & Hc & _ & Hdata & Hidx).
  specialize (Hdata (or_introl eq_refl)). specialize (Hidx eq_refl).
  do 2 eexists. split; [exact Hc|]. unfold load. rewrite Hidx, Hdata. set (t1 := readIndex fs' _).
  assert (index_map t1 = foldl load_step ∅ (read_indices (concat (bytes_of_index <$> iterate m))) /\ is_cached t1 = is_cached t0 /\
    invert_file_name t1 = invert_file dir /\ invert_vec t1 = []) as (H1 & H2 & H3 & H4).
  { subst t1. unfold readIndex, clear, set_names. cbn [index_file_name]. rewrite Hidx.
    by destruct (concat (bytes_of_index <$> iterate m)). }
  assert (forall p, index_map t1 !! p = index_of v p) as Hm1.
  { intros p. rewrite H1, (table2_read_index_file iterate iterate_perm m v) by done. apply Hm. }
  rewrite H2. destruct (is_cached t0) eqn:Hcache; (split; [done|]); intros p.
  - unfold getPostList, readInvert. cbn [index_map is_cached invert_vec]. rewrite Hm1, H2, H4. unfold index_of, count, entries.
    destruct (filter _ v) as [|x s] eqn:Hf; [done|]. cbn [length]. by rewrite decide_False, vec_slice_nil.
  - eapply (table2_disk_answer _ _ v); cbn; try done. unfold open_read. by rewrite H3, Hdata.
Qed.

End Properties.

(** *** Witnesses *)

Definition example_infos : list ST_PidKidInfo2 :=
  [Info 7 1 10 0; Info 3 9 5 1; Info 7 2 30 2; Info 7 1 99 3; Info 3 4 5 4].
Definition example_iterate (m : gmap Z IndexNode) : list IndexNode := (map_to_list m).*2.
Definition example_garbage : IndexNode := Index 0 0 0 0.

#[export] Instance info_ok_dec x : Decision (info_ok x).
Proof. unfold info_ok, in_int32. apply _. Defined.

Lemma creator2_answers_witness :
  exists fs' t' c' v,
    creator_create (fun _ => true) example_iterate example_garbage (fun _ => None) (new_InvertTable false)
      (add_all new_creator example_infos) (lit "d") byWeight true = Some (fs', t', c') /\
    v ≡ₚ [Info 7 1 10 0; Info 3 9 5 1; Info 7 2 30 2; Info 3 4 5 4] /\
    getPostList fs' t' 7 = Some (answer v 7) /\ StronglySorted ranked (entries v 7).
Proof.
  destruct (creator2_answers (fun _ => true) example_iterate example_garbage (fun _ => None)
    (new_InvertTable false) example_infos (lit "d") byWeight true) as (fs' & t' & c' & v & Heq & Hp & Ha);
    [reflexivity|apply (bool_decide_unpack _); vm_compute; exact I|reflexivity|reflexivity|].
  exists fs', t', c', v. split; [exact Heq|]. split; [exact Hp|]. split; [apply (Ha 7%Z)|apply (Ha 7%Z)].
Defined.

Lemma load2_answers_witness :
  exists fs' t', create (fun _ => true) example_iterate example_garbage (fun _ => None) (new_InvertTable true)
      [Info 7 1 10 0; Info 7 2 30 2] (lit "d") true = Some (fs', t') /\
    let '(found, t2) := load fs' (new_InvertTable true) (index_file (lit "d")) (invert_file (lit "d")) in
    found = true /\ getPostList fs' t2 7 = None /\ getPostList fs' t2 8 = Some (false, []).
Proof.
  destruct (load2_answers (fun _ => true) example_iterate example_garbage (fun m => reflexivity _) (fun _ => None)
    (new_InvertTable true) [Info 7 1 10 0; Info 7 2 30 2] (lit "d") (new_InvertTable true)) as (fs' & t' & Heq & Hl);
    [reflexivity| |apply (bool_decide_unpack _); vm_compute; exact I|reflexivity|reflexivity|].
  { apply (sorted_grouped byIndex). apply (bool_decide_unpack _). vm_compute. exact I. }
  exists fs', t'. split; [exact Heq|]. destruct (load _ _ _ _) as [found t2]. destruct Hl as [Hf Hl]. split; [exact Hf|].
  split; [exact (Hl 7%Z)|exact (Hl 8%Z)].
Defined.
