(* ===== verification/ProduceConsume.v ===== *)
(** * ProduceConsume: the bounded buffer and its four thread configurations

    Models the four programs of [produce_consume/]: one ring buffer behind a
    mutex and two condition variables ([ProduceItem], [ConsumeItem]), and the
    producer and consumer tasks around it: one or several of each, the several
    ones taking turns under a counter mutex.

    A thread runs uninterrupted while it holds [mtx], so one step of the model
    is one such stretch: up to the [wait] that gives the mutex up, or to the
    [unlock]. [notify_all] makes every waiting thread of the other side ready
    again; a wait may also end spuriously. *)
From S2P Require Import Prelude.

(** ** The ring buffer *)

Record ItemRepository := Repository {
  item_buffer : list Z;
  read_position : nat;
  write_position : nat }.

(** [InitItemRepository] on the zero-initialised global. *)
Definition InitItemRepository (k : nat) : ItemRepository := Repository (replicate k 0%Z) 0 0.

(** [ProduceItem] from the test of the loop to the [unlock]; [None] is the
    branch that waits. *)
Definition ProduceItem (k : nat) (ir : ItemRepository) (item : Z) : option ItemRepository :=
  if ((write_position ir + 1) mod k =? read_position ir)%nat then None
  else
    let buf := <[write_position ir := item]> (item_buffer ir) in
    let w := write_position ir + 1 in
    Some (Repository buf (read_position ir) (if (w =? k)%nat then 0 else w)).

(** [ConsumeItem], likewise. Reading outside the buffer would be undefined; it
    would show as the default [0], and [ring_refines] says it does not happen. *)
Definition ConsumeItem (k : nat) (ir : ItemRepository) : option (Z * ItemRepository) :=
  if (write_position ir =? read_position ir)%nat then None
  else
    let data := item_buffer ir !!! read_position ir in
    let r := read_position ir + 1 in
    Some (data, Repository (item_buffer ir) (if (k <=? r)%nat then 0 else r) (write_position ir)).

(** ** The queue a repository stands for *)

Definition queue_length (k : nat) (ir : ItemRepository) : nat :=
  if (read_position ir <=? write_position ir)%nat then write_position ir - read_position ir
  else write_position ir + k - read_position ir.

Definition slot (k r i : nat) : nat := if (r + i <? k)%nat then r + i else r + i - k.

Definition queue (k : nat) (ir : ItemRepository) : list Z :=
  (fun i => item_buffer ir !!! slot k (read_position ir) i) <$> seq 0 (queue_length k ir).

Definition repo_ok (k : nat) (ir : ItemRepository) : Prop :=
  2 <= k /\ length (item_buffer ir) = k /\ read_position ir < k /\ write_position ir < k.

Lemma init_repo_ok k : 2 <= k -> repo_ok k (InitItemRepository k) /\ queue k (InitItemRepository k) = [].
Proof. intros Hk. repeat split; cbn; rewrite ?length_replicate; lia. Qed.

Lemma full_iff k ir : repo_ok k ir ->
  (write_position ir + 1) mod k = read_position ir <-> length (queue k ir) = k - 1.
Proof.
  intros (Hk & Hl & Hr & Hw). unfold queue. rewrite length_fmap, length_seq. unfold queue_length.
  destruct (decide (write_position ir + 1 = k)) as [He|He].
  - rewrite He, Nat.Div0.mod_same. destruct (Nat.leb_spec (read_position ir) (write_position ir)); lia.
  - rewrite Nat.mod_small by lia. destruct (Nat.leb_spec (read_position ir) (write_position ir)); lia.
Qed.

Lemma empty_iff k ir : repo_ok k ir -> write_position ir = read_position ir <-> queue k ir = [].
Proof.
  intros (Hk & Hl & Hr & Hw). unfold queue, queue_length.
  destruct (Nat.leb_spec (read_position ir) (write_position ir)).
  - split; [intros ->; by rewrite Nat.sub_diag|]. intros Hq%(f_equal length).
    rewrite length_fmap, length_seq in Hq. cbn in Hq. lia.
  - split; [lia|]. intros Hq%(f_equal length). rewrite length_fmap, length_seq in Hq. cbn in Hq. lia.
Qed.

(** Producing appends to the queue. *)
Lemma produce_queue k ir item ir' :
  repo_ok k ir -> ProduceItem k ir item = Some ir' ->
  repo_ok k ir' /\ queue k ir' = queue k ir ++ [item].
Proof.
  intros Hok. pose proof (full_iff k ir Hok) as Hfull. destruct Hok as (Hk & Hl & Hr & Hw).
  unfold ProduceItem. destruct (Nat.eqb_spec ((write_position ir + 1) mod k) (read_position ir)) as [|Hnf]; [done|].
  assert (length (queue k ir) <> k - 1) as Hlen by tauto. clear Hfull.
  unfold queue in Hlen. rewrite length_fmap, length_seq in Hlen. unfold queue_length in Hlen.
  intros [= <-]. split.
  { repeat split; cbn; rewrite ?length_insert; try done. destruct (Nat.eqb_spec ((write_position ir + 1)) k); lia. }
  unfold queue. cbn [item_buffer read_position write_position].
  assert (queue_length k (Repository (<[write_position ir := item]> (item_buffer ir)) (read_position ir)
            (if ((write_position ir + 1) =? k)%nat then 0 else (write_position ir + 1))) = S (queue_length k ir)) as ->.
  { unfold queue_length. cbn [read_position write_position].
    destruct (Nat.eqb_spec ((write_position ir + 1)) k);
      repeat match goal with |- context [(?a <=? ?b)%nat] => destruct (Nat.leb_spec a b) end;
      destruct (Nat.leb_spec (read_position ir) (write_position ir)); lia. }
  rewrite seq_S, fmap_app. cbn [fmap list_fmap]. f_equal.
  - apply list_fmap_ext. intros j i [-> Hj]%lookup_seq. rewrite list_lookup_total_insert_ne; [done|].
    unfold slot, queue_length in *. destruct (Nat.ltb_spec (read_position ir + (0 + j)) k);
      destruct (Nat.leb_spec (read_position ir) (write_position ir)); lia.
  - assert (slot k (read_position ir) (0 + queue_length k ir) = write_position ir) as ->.
    { unfold slot, queue_length. destruct (Nat.leb_spec (read_position ir) (write_position ir));
        case_match; bool_crush; rewrite ?Nat.ltb_lt, ?Nat.ltb_ge in *; lia. }
    rewrite list_lookup_total_insert_eq by lia. done.
Qed.

(** Consuming takes the head of the queue. *)
Lemma consume_queue k ir data ir' :
  repo_ok k ir -> ConsumeItem k ir = Some (data, ir') ->
  repo_ok k ir' /\ queue k ir = data :: queue k ir'.
Proof.
  intros (Hk & Hl & Hr & Hw). unfold ConsumeItem.
  destruct (Nat.eqb_spec (write_position ir) (read_position ir)) as [|Hne]; [done|].
  intros [= <- <-]. split.
  { repeat split; cbn; try done. destruct (Nat.leb_spec k ((read_position ir + 1))); lia. }
  unfold queue. cbn [item_buffer read_position write_position].
  set (r' := if (k <=? (read_position ir + 1))%nat then 0 else (read_position ir + 1)).
  assert (queue_length k ir = S (queue_length k (Repository (item_buffer ir) r' (write_position ir)))) as ->.
  { unfold queue_length. cbn [read_position write_position]. subst r'.
    destruct (Nat.leb_spec k ((read_position ir + 1)));
      repeat match goal with |- context [(?a <=? ?b)%nat] => destruct (Nat.leb_spec a b) end; lia. }
  cbn [seq fmap list_fmap]. f_equal.
  - unfold slot. destruct (Nat.ltb_spec (read_position ir + 0) k); f_equal; lia.
  - rewrite <- fmap_S_seq, <- list_fmap_compose. apply list_fmap_ext. intros j i [-> Hj]%lookup_seq. cbn.
    f_equal. unfold slot. subst r'. unfold queue_length in Hj. cbn [read_position write_position] in Hj.
    destruct (Nat.leb_spec k ((read_position ir + 1)));
      repeat match goal with
      | |- context [(?a <? ?b)%nat] => destruct (Nat.ltb_spec a b)
      | H : context [(?a <=? ?b)%nat] |- _ => destruct (Nat.leb_spec a b)
      end; lia.
Qed.

(** ** The threads *)

(** A producer is about to start a round, has an item to put in, waits on
    [repo_not_full] with it, or has left its loop; a consumer likewise. *)
Inductive producer := P_next | P_put (item : nat) | P_wait (item : nat) | P_done.
Inductive consumer := C_next | C_get | C_wait | C_done.
#[export] Instance producer_eq_dec : EqDecision producer.
Proof. solve_decision. Defined.
#[export] Instance consumer_eq_dec : EqDecision consumer.
Proof. solve_decision. Defined.

(** Who decides when the consumers stop: the counter is tested after an item
    (program 1), under [item_counter_mtx] before each (programs 2 and 4), or
    advanced and tested before each without a mutex (program 3). *)
Inductive counting := count_after | count_locked | count_before.
#[export] Instance counting_eq_dec : EqDecision counting.
Proof. solve_decision. Defined.

(** The constants of a program. *)
Record config := Config {
  kItemRepositorySize : nat;
  kItemsToProduce : nat;
  producers_n : nat;
  producers_locked : bool;      (* rounds are taken under a counter mutex *)
  consumers_n : nat;
  consumers_count : counting }.

(** The four programs. *)
Definition program_01 : config := Config 10 1000 1 false 1 count_after.
Definition program_02 : config := Config 4 10 1 false 4 count_locked.
Definition program_03 : config := Config 4 10 4 true 1 count_before.
Definition program_04 : config := Config 4 10 4 true 4 count_locked.

(** What all four have in common: a usable buffer, something to do, and a
    counter mutex wherever there are several threads. *)
Definition config_ok (c : config) : bool :=
  (2 <=? kItemRepositorySize c)%nat && (1 <=? kItemsToProduce c)%nat &&
  (1 <=? producers_n c)%nat && (1 <=? consumers_n c)%nat &&
  (producers_locked c || (producers_n c =? 1)%nat) &&
  (match consumers_count c with count_locked => true | _ => (consumers_n c =? 1)%nat end).

Record world := World {
  repo : ItemRepository;
  producers : list producer;
  consumers : list consumer;
  produced_counter : nat;
  consumed_counter : nat;
  producer_mtx : option nat;    (* who holds the producers' counter mutex *)
  consumer_mtx : option nat;
  produced : list Z;            (* what was put in so far, in order *)
  consumed : list Z }.          (* what was taken out so far, in order *)

Definition wake_producer (p : producer) : producer := match p with P_wait x => P_put x | _ => p end.
Definition wake_consumer (c : consumer) : consumer := match c with C_wait => C_get | _ => c end.

Section System.
Context (cfg : config).
Notation K := (kItemRepositorySize cfg).
Notation N := (kItemsToProduce cfg).

Definition init_world : world :=
  World (InitItemRepository K) (replicate (producers_n cfg) P_next) (replicate (consumers_n cfg) C_next)
    0 0 None None [] [].

Definition set_producer (s : world) (i : nat) (p : producer) (mtx : option nat) : world :=
  World (repo s) (<[i := p]> (producers s)) (consumers s) (produced_counter s) (consumed_counter s)
    mtx (consumer_mtx s) (produced s) (consumed s).
Definition set_consumer (s : world) (i : nat) (c : consumer) (counter : nat) (mtx : option nat) : world :=
  World (repo s) (producers s) (<[i := c]> (consumers s)) (produced_counter s) counter
    (producer_mtx s) mtx (produced s) (consumed s).

(** [ProducerTask], the step of producer [i]: [None] when it is blocked. *)
Definition step_producer (s : world) (i : nat) : option world :=
  p ← producers s !! i;
  match p with
  | P_next =>
      if producers_locked cfg && negb (bool_decide (producer_mtx s = None)) then None
      else if (produced_counter s <? N)%nat then
        let item := S (produced_counter s) in
        Some (World (repo s) (<[i := P_put item]> (producers s)) (consumers s) item (consumed_counter s)
                (if producers_locked cfg then Some i else producer_mtx s) (consumer_mtx s)
                (produced s) (consumed s))
      else Some (set_producer s i P_done (producer_mtx s))
  | P_put item =>
      match ProduceItem K (repo s) (Z.of_nat item) with
      | None => Some (set_producer s i (P_wait item) (producer_mtx s))
      | Some ir =>
          Some (World ir (<[i := P_next]> (producers s)) (wake_consumer <$> consumers s)
                  (produced_counter s) (consumed_counter s)
                  (if producers_locked cfg then None else producer_mtx s) (consumer_mtx s)
                  (produced s ++ [Z.of_nat item]) (consumed s))
      end
  | P_wait _ | P_done => None
  end.

(** [ConsumerTask], the step of consumer [i]. *)
Definition step_consumer (s : world) (i : nat) : option world :=
  c ← consumers s !! i;
  match c with
  | C_next =>
      match consumers_count cfg with
      | count_after => Some (set_consumer s i C_get (consumed_counter s) (consumer_mtx s))
      | count_locked =>
          if bool_decide (consumer_mtx s = None) then
            if (consumed_counter s <? N)%nat
            then Some (set_consumer s i C_get (consumed_counter s) (Some i))
            else Some (set_consumer s i C_done (consumed_counter s) None)
          else None
      | count_before =>
          let cnt := consumed_counter s + 1 in
          Some (set_consumer s i (if (cnt <=? N)%nat then C_get else C_done) cnt (consumer_mtx s))
      end
  | C_get =>
      match ConsumeItem K (repo s) with
      | None => Some (set_consumer s i C_wait (consumed_counter s) (consumer_mtx s))
      | Some (data, ir) =>
          let '(c', cnt, mtx) :=
            match consumers_count cfg with
            | count_after =>
                let cnt := consumed_counter s + 1 in
                (if (cnt =? N)%nat then C_done else C_next, cnt, consumer_mtx s)
            | count_locked => (C_next, S (consumed_counter s), None)
            | count_before => (C_next, consumed_counter s, consumer_mtx s)
            end in
          Some (World ir (wake_producer <$> producers s) (<[i := c']> (consumers s))
                  (produced_counter s) cnt (producer_mtx s) mtx (produced s) (consumed s ++ [data]))
      end
  | C_wait | C_done => None
  end.

(** A wait may end without a notification. *)
Definition spurious_producer (s : world) (i : nat) : option world :=
  p ← producers s !! i;
  match p with P_wait item => Some (set_producer s i (P_put item) (producer_mtx s)) | _ => None end.
Definition spurious_consumer (s : world) (i : nat) : option world :=
  c ← consumers s !! i;
  match c with C_wait => Some (set_consumer s i C_get (consumed_counter s) (consumer_mtx s)) | _ => None end.

Inductive pc_event := run_producer (i : nat) | run_consumer (i : nat) | spur_producer (i : nat) | spur_consumer (i : nat).

Definition pc_step (s : world) (e : pc_event) : option world :=
  match e with
  | run_producer i => step_producer s i
  | run_consumer i => step_consumer s i
  | spur_producer i => spurious_producer s i
  | spur_consumer i => spurious_consumer s i
  end.

Fixpoint pc_run (s : world) (es : list pc_event) : option world :=
  match es with
  | [] => Some s
  | e :: es' => s' ← pc_step s e; pc_run s' es'
  end.

Definition spurious (e : pc_event) : bool :=
  match e with spur_producer _ | spur_consumer _ => true | _ => false end.

(** Every [join] of [main] returns. *)
Definition finished_world (s : world) : Prop :=
  Forall (eq P_done) (producers s) /\ Forall (eq C_done) (consumers s).
End System.

(** ** The four programs, one file each *)

(** Program 1: one producer, one consumer. *)
Definition ProduceItem_01 := ProduceItem (kItemRepositorySize program_01).
Definition ConsumeItem_01 := ConsumeItem (kItemRepositorySize program_01).
Definition ProducerTask_01 := step_producer program_01.
Definition ConsumerTask_01 := step_consumer program_01.
Definition main_01 := pc_run program_01 (init_world program_01).

(** Program 2: one producer, several consumers. *)
Definition ProduceItem_02 := ProduceItem (kItemRepositorySize program_02).
Definition ConsumeItem_02 := ConsumeItem (kItemRepositorySize program_02).
Definition ProducerTask_02 := step_producer program_02.
Definition ConsumerTask_02 := step_consumer program_02.
Definition main_02 := pc_run program_02 (init_world program_02).

(** Program 3: several producers, one consumer. *)
Definition ProduceItem_03 := ProduceItem (kItemRepositorySize program_03).
Definition ConsumeItem_03 := ConsumeItem (kItemRepositorySize program_03).
Definition ProducerTask_03 := step_producer program_03.
Definition ConsumerTask_03 := step_consumer program_03.
Definition main_03 := pc_run program_03 (init_world program_03).

(** Program 4: several of both. *)
Definition ProduceItem_04 := ProduceItem (kItemRepositorySize program_04).
Definition ConsumeItem_04 := ConsumeItem (kItemRepositorySize program_04).
Definition ProducerTask_04 := step_producer program_04.
Definition ConsumerTask_04 := step_consumer program_04.
Definition main_04 := pc_run program_04 (init_world program_04).

(** ** Invariant *)

Definition items (n : nat) : list Z := Z.of_nat <$> seq 1 n.

Lemma items_snoc n : items (S n) = items n ++ [Z.of_nat (S n)].
Proof. unfold items. by rewrite seq_S, fmap_app. Qed.

Lemma items_length n : length (items n) = n.
Proof. unfold items. by rewrite length_fmap, length_seq. Qed.

Definition has_item (p : producer) : option nat :=
  match p with P_put x | P_wait x => Some x | _ => None end.
Definition active (c : consumer) : bool :=
  match c with C_get | C_wait => true | _ => false end.

Section Invariant.
Context (cfg : config).
Notation K := (kItemRepositorySize cfg).
Notation N := (kItemsToProduce cfg).

(** At most one producer is inside a round; with the item it carries the
    items produced are the first ones, in order. *)
Definition producers_ok (s : world) (cur : option nat) : Prop :=
  length (producers s) = producers_n cfg /\ produced_counter s <= N /\
  (forall i p, producers s !! i = Some p -> has_item p <> None -> cur = Some i) /\
  match cur with
  | None => produced s = items (produced_counter s)
  | Some i => exists p x, producers s !! i = Some p /\ has_item p = Some x /\ x = produced_counter s /\
                produced s ++ [Z.of_nat x] = items x
  end /\
  (producers_locked cfg = true -> producer_mtx s = cur) /\
  (forall i, producers s !! i = Some P_done -> produced_counter s = N).

(** At most one consumer is inside a round, and the counter is in step. *)
Definition consumers_ok (s : world) (cur : option nat) : Prop :=
  length (consumers s) = consumers_n cfg /\ length (consumed s) <= N /\
  (forall i c, consumers s !! i = Some c -> active c = true -> cur = Some i) /\
  (forall i, cur = Some i -> exists c, consumers s !! i = Some c /\ active c = true) /\
  (cur <> None -> length (consumed s) < N) /\
  (forall i, consumers s !! i = Some C_done -> length (consumed s) = N) /\
  match consumers_count cfg with
  | count_after =>
      consumed_counter s = length (consumed s) /\
      (forall i, consumers s !! i = Some C_next -> length (consumed s) < N)
  | count_locked => consumed_counter s = length (consumed s) /\ consumer_mtx s = cur
  | count_before =>
      forall i c, consumers s !! i = Some c ->
        consumed_counter s = length (consumed s) + match c with C_next => 0 | _ => 1 end
  end.

Record world_ok (s : world) : Prop := {
  ok_repo : repo_ok K (repo s);
  ok_queue : produced s = consumed s ++ queue K (repo s);
  ok_producers : exists cur, producers_ok s cur;
  ok_consumers : exists cur, consumers_ok s cur;
  ok_full : forall i x, producers s !! i = Some (P_wait x) -> length (queue K (repo s)) = K - 1;
  ok_empty : forall i, consumers s !! i = Some C_wait -> queue K (repo s) = [] }.

Hypothesis Hcfg : config_ok cfg = true.

Lemma config_facts :
  2 <= K /\ 1 <= N /\ 1 <= producers_n cfg /\ 1 <= consumers_n cfg /\
  (producers_locked cfg = false -> producers_n cfg = 1) /\
  (consumers_count cfg <> count_locked -> consumers_n cfg = 1).
Proof.
  unfold config_ok in Hcfg. rewrite !andb_true_iff, !Nat.leb_le in Hcfg.
  destruct Hcfg as [[[[[? ?] ?] ?] Hp] Hc]. split_and!; try done.
  - intros Hl. rewrite Hl in Hp. by apply Nat.eqb_eq.
  - intros Hn. destruct (consumers_count cfg); try done; by apply Nat.eqb_eq.
Qed.

Lemma init_world_ok : world_ok (init_world cfg).
Proof.
  destruct config_facts as (Hk & Hn & _). destruct (init_repo_ok K Hk) as [Hr Hq]. constructor; cbn.
  - done.
  - done.
  - exists None. split_and!; cbn; rewrite ?length_replicate; try done; [lia| |].
    + intros i p [-> _]%lookup_replicate. done.
    + intros i [Heq _]%lookup_replicate. done.
  - exists None. split_and!; cbn; rewrite ?length_replicate; try done; [lia| | |].
    + intros i p [-> _]%lookup_replicate. done.
    + intros i [Heq _]%lookup_replicate. done.
    + destruct (consumers_count cfg); [split; [done|intros; lia]|done|].
      intros i c [-> _]%lookup_replicate. done.
  - intros i x [Heq _]%lookup_replicate. done.
  - intros i [Heq _]%lookup_replicate. done.
Qed.

(** ** Preservation *)

Lemma producers_ok_wake s s' cur :
  producers s' = wake_producer <$> producers s -> produced s' = produced s ->
  produced_counter s' = produced_counter s -> producer_mtx s' = producer_mtx s ->
  producers_ok s cur -> producers_ok s' cur.
Proof.
  intros Hp Hd Hc Hm (Hl & Hn & Hu & Hcur & Hlock & Hdone). unfold producers_ok. rewrite Hp, Hd, Hc, Hm.
  split_and!; try done; [by rewrite length_fmap| | |].
  - intros i p. rewrite list_lookup_fmap. intros (q & Hq & ->)%fmap_Some.
    intros Hi. apply (Hu i q Hq). by destruct q.
  - destruct cur as [i|]; [|done]. destruct Hcur as (p & x & Hi & Hx & Hr).
    exists (wake_producer p), x. rewrite list_lookup_fmap, Hi. split; [done|]. split; [by destruct p|done].
  - intros i. rewrite list_lookup_fmap. intros (q & Hq & Heq)%fmap_Some. apply (Hdone i). by destruct q.
Qed.

Lemma consumers_ok_wake s s' cur :
  consumers s' = wake_consumer <$> consumers s -> consumed s' = consumed s ->
  consumed_counter s' = consumed_counter s -> consumer_mtx s' = consumer_mtx s ->
  consumers_ok s cur -> consumers_ok s' cur.
Proof.
  intros Hp Hd Hc Hm (Hl & Hn & Hu & Hcur & Hlt & Hdone & Hcount). unfold consumers_ok. rewrite Hp, Hd, Hc, Hm.
  split_and!; try done; [by rewrite length_fmap| | | |].
  - intros i c. rewrite list_lookup_fmap. intros (q & Hq & ->)%fmap_Some.
    intros Hi. apply (Hu i q Hq). by destruct q.
  - intros i Hi. destruct (Hcur i Hi) as (c & Hci & Ha). exists (wake_consumer c).
    rewrite list_lookup_fmap, Hci. split; [done|]. by destruct c.
  - intros i. rewrite list_lookup_fmap. intros (q & Hq & Heq)%fmap_Some. apply (Hdone i). by destruct q.
  - destruct (consumers_count cfg); [|done|].
    + destruct Hcount as [H1 H2]. split; [done|]. intros i. rewrite list_lookup_fmap.
      intros (q & Hq & Heq)%fmap_Some. apply (H2 i). by destruct q.
    + intros i c. rewrite list_lookup_fmap. intros (q & Hq & ->)%fmap_Some.
      rewrite (Hcount i q Hq). by destruct q.
Qed.

Lemma lookup_insert_cases {A} (l : list A) i j x y :
  <[i := x]> l !! j = Some y -> (j = i /\ y = x) \/ (j <> i /\ l !! j = Some y).
Proof. intros [(-> & -> & _)|[? ?]]%list_lookup_insert_Some; [by left|by right]. Qed.

(** A producer about to start a round finds no other one inside. *)
Lemma producers_idle s cur i :
  producers_ok s cur -> producers s !! i = Some P_next ->
  (producers_locked cfg = true -> producer_mtx s = None) -> cur = None.
Proof.
  intros (Hl & _ & Hu & Hcur & Hlock & _) Hi Hfree. destruct config_facts as (_ & _ & _ & _ & Hp & _).
  destruct (producers_locked cfg); [by rewrite <- Hlock, Hfree|]. specialize (Hp eq_refl).
  destruct cur as [j|]; [|done]. destruct Hcur as (p & x & Hj & Hx & _).
  pose proof (lookup_lt_Some _ _ _ Hi). pose proof (lookup_lt_Some _ _ _ Hj).
  assert (j = i) as -> by lia. rewrite Hi in Hj. by injection Hj as <-.
Qed.

Lemma consumers_idle s cur i :
  consumers_ok s cur -> consumers s !! i = Some C_next ->
  (consumers_count cfg = count_locked -> consumer_mtx s = None) -> cur = None.
Proof.
  intros (Hl & _ & Hu & Hcur & _ & _ & Hcount) Hi Hfree. destruct config_facts as (_ & _ & _ & _ & _ & Hc).
  destruct cur as [j|]; [|done]. destruct (Hcur j eq_refl) as (c & Hj & Ha).
  destruct (decide (consumers_count cfg = count_locked)) as [Hk|Hk].
  - rewrite Hk in Hcount. destruct Hcount as [_ Hm]. by rewrite Hfree in Hm.
  - specialize (Hc Hk). pose proof (lookup_lt_Some _ _ _ Hi). pose proof (lookup_lt_Some _ _ _ Hj).
    assert (j = i) as -> by lia. rewrite Hi in Hj. by injection Hj as <-.
Qed.

Lemma producer_start s i cur :
  producers_ok s cur -> producers s !! i = Some P_next -> cur = None -> produced_counter s < N ->
  producers_ok
    (World (repo s) (<[i := P_put (S (produced_counter s))]> (producers s)) (consumers s) (S (produced_counter s))
       (consumed_counter s) (if producers_locked cfg then Some i else producer_mtx s) (consumer_mtx s)
       (produced s) (consumed s)) (Some i).
Proof.
  intros (Hl & Hn & Hu & Hcur & Hlock & Hdone) Hi -> Hlt. pose proof (lookup_lt_Some _ _ _ Hi) as Hb.
  split_and!; cbn; rewrite ?length_insert; try done; try lia.
  - intros j p [[-> ->]|[Hne Hj]]%lookup_insert_cases Hp; [done|]. by specialize (Hu j p Hj Hp).
  - eexists _, _. rewrite list_lookup_insert_eq by done. split_and!; [done..|].
    by rewrite Hcur, items_snoc.
  - by destruct (producers_locked cfg).
  - intros j [[_ [=]]|[Hne Hj]]%lookup_insert_cases. specialize (Hdone j Hj). lia.
Qed.

(** A producer that changes its place but keeps what it carries. *)
Lemma producer_move s i cur p q :
  producers_ok s cur -> producers s !! i = Some p -> has_item q = has_item p ->
  (q = P_done -> produced_counter s = N) ->
  producers_ok (set_producer s i q (producer_mtx s)) cur.
Proof.
  intros (Hl & Hn & Hu & Hcur & Hlock & Hdone) Hi Hq Hd. pose proof (lookup_lt_Some _ _ _ Hi) as Hb.
  split_and!; cbn; rewrite ?length_insert; try done.
  - intros j r [[-> ->]|[Hne Hj]]%lookup_insert_cases Hr; [|by eapply Hu].
    apply (Hu i p Hi). by rewrite <- Hq.
  - destruct cur as [j|]; [|done]. destruct Hcur as (r & x & Hj & Hx & Hr).
    destruct (decide (j = i)) as [->|Hne].
    + exists q, x. rewrite list_lookup_insert_eq by done. split; [done|]. rewrite Hq.
      rewrite Hi in Hj. injection Hj as ->. done.
    + exists r, x. by rewrite list_lookup_insert_ne by done.
  - intros j [[-> <-]|[Hne Hj]]%lookup_insert_cases; [by apply Hd|by apply (Hdone j)].
Qed.

Lemma producer_finish s i cur x cons mtx ir :
  producers_ok s cur -> producers s !! i = Some (P_put x) ->
  producers_ok
    (World ir (<[i := P_next]> (producers s)) cons (produced_counter s) (consumed_counter s)
       (if producers_locked cfg then None else producer_mtx s) mtx
       (produced s ++ [Z.of_nat x]) (consumed s)) None.
Proof.
  intros (Hl & Hn & Hu & Hcur & Hlock & Hdone) Hi. pose proof (Hu i _ Hi ltac:(done)) as ->.
  destruct Hcur as (p & y & Hp & Hy & -> & Hr). rewrite Hi in Hp. injection Hp as <-. injection Hy as ->.
  split_and!; cbn; rewrite ?length_insert; try done.
  - intros j p [[-> ->]|[Hne Hj]]%lookup_insert_cases Hp; [done|]. specialize (Hu j p Hj Hp). congruence.
  - intros Hk. by rewrite Hk.
  - intros j [[_ [=]]|[Hne Hj]]%lookup_insert_cases. by apply (Hdone j).
Qed.

Lemma step_producer_ok s i s' : world_ok s -> step_producer cfg s i = Some s' -> world_ok s'.
Proof.
  intros Hs. unfold step_producer. destruct (producers s !! i) as [p|] eqn:Hi; [|done].
  cbn [mbind option_bind]. destruct (ok_producers _ Hs) as [cur Hcur].
  destruct p as [|x|x|]; try done.
  - destruct (producers_locked cfg && _) eqn:Hblk; [done|].
    assert (cur = None) as Hidle.
    { eapply producers_idle; [done..|]. intros Hk. rewrite Hk in Hblk. cbn in Hblk.
      by apply negb_false_iff, bool_decide_eq_true_1 in Hblk. }
    destruct (Nat.ltb_spec (produced_counter s) N); intros [= <-]; destruct Hs; constructor; cbn; try done.
    + exists (Some i). by apply (producer_start s i cur).
    + intros j y [[_ [=]]|[_ Hj]]%lookup_insert_cases; eauto.
    + exists cur. eapply producer_move; [done..|]. intros _. destruct Hcur as (_ & ? & _). lia.
    + intros j y [[_ [=]]|[_ Hj]]%lookup_insert_cases; eauto.
  - destruct (ProduceItem K (repo s) (Z.of_nat x)) as [ir|] eqn:Hput; intros [= <-].
    + destruct (produce_queue _ _ _ _ (ok_repo _ Hs) Hput) as [Hr Hq].
      pose proof (producer_finish s i cur x (wake_consumer <$> consumers s) (consumer_mtx s) ir Hcur Hi) as Hfin.
      destruct Hs. constructor; cbn; try done.
      * by rewrite Hq, ok_queue0, app_assoc.
      * by exists None.
      * destruct ok_consumers0 as [ccur Hc]. exists ccur. by eapply consumers_ok_wake.
      * intros j y Hj. destruct Hfin as (_ & _ & Hu & _). exfalso.
        by specialize (Hu j _ Hj ltac:(done)).
      * intros j. rewrite list_lookup_fmap. intros (c & _ & Hc)%fmap_Some. by destruct c.
    + assert (length (queue K (repo s)) = K - 1) as Hfull.
      { apply full_iff; [apply Hs|]. revert Hput. unfold ProduceItem.
        by destruct (Nat.eqb_spec ((write_position (repo s) + 1) mod K) (read_position (repo s))). }
      destruct Hs. constructor; cbn; try done.
      exists cur. by eapply producer_move.
Qed.

Lemma consumer_start s i cur cnt mtx :
  consumers_ok s cur -> consumers s !! i = Some C_next -> cur = None -> length (consumed s) < N ->
  match consumers_count cfg with
  | count_after => cnt = consumed_counter s
  | count_locked => cnt = consumed_counter s /\ mtx = Some i
  | count_before => cnt = consumed_counter s + 1
  end ->
  consumers_ok (set_consumer s i C_get cnt mtx) (Some i).
Proof.
  intros (Hl & Hn & Hu & Hcur & Hlt & Hdone & Hcount) Hi -> Hlen Hcnt.
  pose proof (lookup_lt_Some _ _ _ Hi) as Hb. destruct config_facts as (_ & _ & _ & _ & _ & Hone).
  split_and!; cbn; rewrite ?length_insert; try done.
  - intros j c [[-> ->]|[Hne Hj]]%lookup_insert_cases Hc; [done|]. by specialize (Hu j c Hj Hc).
  - intros j [= <-]. exists C_get. by rewrite list_lookup_insert_eq.
  - intros j [[_ [=]]|[Hne Hj]]%lookup_insert_cases. by apply (Hdone j).
  - destruct (consumers_count cfg) eqn:Hk; cbn.
    + destruct Hcount as [Hcc Hnext]. split; [congruence|].
      intros j [[_ [=]]|[Hne Hj]]%lookup_insert_cases. by apply (Hnext j).
    + destruct Hcnt as [-> ->]. by destruct Hcount.
    + subst cnt. rewrite (Hcount i _ Hi). specialize (Hone ltac:(done)).
      intros j c [[-> ->]|[Hne Hj]]%lookup_insert_cases; [lia|]. apply lookup_lt_Some in Hj. lia.
Qed.

Lemma consumer_stop s i cur cnt mtx :
  consumers_ok s cur -> consumers s !! i = Some C_next -> cur = None -> length (consumed s) = N ->
  match consumers_count cfg with
  | count_after => False
  | count_locked => cnt = consumed_counter s /\ mtx = None
  | count_before => cnt = consumed_counter s + 1
  end ->
  consumers_ok (set_consumer s i C_done cnt mtx) None.
Proof.
  intros (Hl & Hn & Hu & Hcur & Hlt & Hdone & Hcount) Hi -> Hlen Hcnt.
  pose proof (lookup_lt_Some _ _ _ Hi) as Hb. destruct config_facts as (_ & _ & _ & _ & _ & Hone).
  split_and!; cbn; rewrite ?length_insert; try done.
  - intros j c [[-> ->]|[Hne Hj]]%lookup_insert_cases Hc; [done|]. by specialize (Hu j c Hj Hc).
  - destruct (consumers_count cfg) eqn:Hk; cbn; [done|destruct Hcnt as [-> ->]; by destruct Hcount|].
    subst cnt. rewrite (Hcount i _ Hi). specialize (Hone ltac:(done)).
    intros j c [[-> ->]|[Hne Hj]]%lookup_insert_cases; [lia|]. apply lookup_lt_Some in Hj. lia.
Qed.

Lemma consumer_wait s i cur :
  consumers_ok s cur -> consumers s !! i = Some C_get ->
  consumers_ok (set_consumer s i C_wait (consumed_counter s) (consumer_mtx s)) cur.
Proof.
  intros (Hl & Hn & Hu & Hcur & Hlt & Hdone & Hcount) Hi. pose proof (lookup_lt_Some _ _ _ Hi) as Hb.
  split_and!; cbn; rewrite ?length_insert; try done.
  - intros j c [[-> ->]|[Hne Hj]]%lookup_insert_cases Hc; [by eapply Hu|by eapply Hu].
  - intros j Hj. destruct (Hcur j Hj) as (c & Hc & Ha). destruct (decide (j = i)) as [->|Hne].
    + exists C_wait. by rewrite list_lookup_insert_eq.
    + exists c. by rewrite list_lookup_insert_ne.
  - intros j [[_ [=]]|[Hne Hj]]%lookup_insert_cases. by apply (Hdone j).
  - destruct (consumers_count cfg) eqn:Hk; cbn; [|done|].
    + destruct Hcount as [-> Hnext]. split; [done|].
      intros j [[_ [=]]|[Hne Hj]]%lookup_insert_cases. by apply (Hnext j).
    + intros j c [[-> ->]|[Hne Hj]]%lookup_insert_cases; [by apply (Hcount i C_get)|by apply (Hcount j)].
Qed.

Lemma consumer_finish s i cur data c' cnt mtx ir prods pmtx :
  consumers_ok s cur -> consumers s !! i = Some C_get ->
  (c', cnt, mtx) =
    match consumers_count cfg with
    | count_after =>
        (if (consumed_counter s + 1 =? N)%nat then C_done else C_next, consumed_counter s + 1, consumer_mtx s)
    | count_locked => (C_next, S (consumed_counter s), None)
    | count_before => (C_next, consumed_counter s, consumer_mtx s)
    end ->
  consumers_ok (World ir prods (<[i := c']> (consumers s)) (produced_counter s) cnt pmtx mtx
                  (produced s) (consumed s ++ [data])) None.
Proof.
  intros (Hl & Hn & Hu & Hcur & Hlt & Hdone & Hcount) Hi Heq. pose proof (lookup_lt_Some _ _ _ Hi) as Hb.
  destruct config_facts as (_ & _ & _ & _ & _ & Hone).
  pose proof (Hu i _ Hi eq_refl) as ->. specialize (Hlt ltac:(done)).
  assert (length (consumed s ++ [data]) = S (length (consumed s))) as Hlen by (rewrite length_app; cbn; lia).
  assert (forall j c, consumers s !! j = Some c -> j <> i -> c <> C_done /\ active c = false) as Hothers.
  { intros j c Hj Hne. split; [intros ->; specialize (Hdone j Hj); lia|].
    destruct (active c) eqn:Ha; [|done]. specialize (Hu j c Hj Ha). congruence. }
  split_and!; cbn; rewrite ?length_insert, ?Hlen; try done; try lia.
  - intros j c [[-> ->]|[Hne Hj]]%lookup_insert_cases Ha.
    + by destruct (consumers_count cfg); injection Heq as -> _ _; repeat case_match.
    + destruct (Hothers j c Hj Hne) as [_ Hf]. congruence.
  - intros j [[-> <-]|[Hne Hj]]%lookup_insert_cases.
    + destruct (consumers_count cfg); [|done..].
      destruct Hcount as [Hc _]. destruct (Nat.eqb_spec (consumed_counter s + 1) N); [lia|done].
    + by destruct (Hothers j _ Hj Hne).
  - destruct (consumers_count cfg) eqn:Hk; injection Heq as -> -> ->.
    + destruct Hcount as [Hc Hnext]. split; [lia|]. specialize (Hone ltac:(done)).
      intros j [[-> Heq]|[Hne Hj]]%lookup_insert_cases; [|apply lookup_lt_Some in Hj; lia].
      destruct (Nat.eqb_spec (consumed_counter s + 1) N); [done|lia].
    + destruct Hcount as [Hc _]. split; [lia|done].
    + specialize (Hone ltac:(done)). rewrite (Hcount i _ Hi).
      intros j c [[-> ->]|[Hne Hj]]%lookup_insert_cases; [lia|]. apply lookup_lt_Some in Hj. lia.
Qed.

Lemma items_le s cur : producers_ok s cur -> length (produced s) <= produced_counter s.
Proof.
  intros (_ & _ & _ & Hcur & _). destruct cur as [j|].
  - destruct Hcur as (p & x & _ & _ & -> & Heq). apply (f_equal length) in Heq.
    rewrite length_app, items_length in Heq. cbn in Heq. lia.
  - rewrite Hcur, items_length. lia.
Qed.

Lemma step_consumer_ok s i s' : world_ok s -> step_consumer cfg s i = Some s' -> world_ok s'.
Proof.
  intros Hs. unfold step_consumer. destruct (consumers s !! i) as [c|] eqn:Hi; [|done].
  cbn [mbind option_bind]. destruct (ok_consumers _ Hs) as [cur Hcur].
  assert (forall c' cnt mtx cur', consumers_ok (set_consumer s i c' cnt mtx) cur' -> c' <> C_wait ->
    world_ok (set_consumer s i c' cnt mtx)) as Hset.
  { intros c' cnt mtx cur' Hok Hne. destruct Hs. constructor; cbn; try done; [by exists cur'|].
    intros j [[_ <-]|[_ Hj]]%lookup_insert_cases; [done|eauto]. }
  destruct c; try done.
  - assert (consumers_count cfg = count_locked -> bool_decide (consumer_mtx s = None) = true -> cur = None) as Hlk.
    { intros _ Hb%bool_decide_eq_true_1. by eapply consumers_idle. }
    pose proof Hcur as (_ & Hle & _ & _ & _ & _ & Hcount).
    destruct (consumers_count cfg) eqn:Hk.
    + intros [= <-]. apply (Hset _ _ _ (Some i)); [|done].
      apply (consumer_start s i cur); try done; [by eapply consumers_idle; rewrite ?Hk| |by rewrite Hk].
      by eapply Hcount.
    + destruct (bool_decide (consumer_mtx s = None)) eqn:Hm; [|done]. specialize (Hlk eq_refl eq_refl).
      destruct Hcount as [Hc _]. destruct (Nat.ltb_spec (consumed_counter s) N); intros [= <-].
      * apply (Hset _ _ _ (Some i)); [|done]. apply (consumer_start s i cur); try done; [lia|by rewrite Hk].
      * apply (Hset _ _ _ None); [|done]. apply (consumer_stop s i cur); try done; [lia|by rewrite Hk].
    + intros [= <-]. pose proof (Hcount i _ Hi) as Hc. cbn in Hc.
      assert (cur = None) as Hidle by (eapply consumers_idle; [done..|by rewrite Hk]).
      destruct (Nat.leb_spec (consumed_counter s + 1) N).
      * apply (Hset _ _ _ (Some i)); [|done]. apply (consumer_start s i cur); try done; [lia|by rewrite Hk].
      * apply (Hset _ _ _ None); [|done]. apply (consumer_stop s i cur); try done; [lia|by rewrite Hk].
  - destruct (ConsumeItem K (repo s)) as [[data ir]|] eqn:Hget.
    + destruct (consume_queue _ _ _ _ (ok_repo _ Hs) Hget) as [Hr Hq].
      destruct (match consumers_count cfg with count_after => _ | _ => _ end) as [[c' cnt] mtx] eqn:Hnew.
      intros [= <-]. pose proof (consumer_finish s i cur data c' cnt mtx ir
        (wake_producer <$> producers s) (producer_mtx s) Hcur Hi (eq_sym Hnew)) as Hfin.
      destruct Hs. constructor; cbn; try done.
      * by rewrite ok_queue0, Hq, <- app_assoc.
      * destruct ok_producers0 as [pcur Hp]. exists pcur. by eapply producers_ok_wake.
      * by exists None.
      * intros j x. rewrite list_lookup_fmap. intros (p & _ & Hp)%fmap_Some. by destruct p.
      * intros j Hj. destruct Hfin as (_ & _ & Hu & _). by specialize (Hu j _ Hj eq_refl).
    + intros [= <-]. assert (queue K (repo s) = []) as Hempty.
      { apply empty_iff; [apply Hs|]. revert Hget. unfold ConsumeItem.
        by destruct (Nat.eqb_spec (write_position (repo s)) (read_position (repo s))). }
      destruct Hs. constructor; cbn; try done. exists cur. by eapply consumer_wait.
Qed.

Lemma consumer_spurious_ok s i cur :
  consumers_ok s cur -> consumers s !! i = Some C_wait ->
  consumers_ok (set_consumer s i C_get (consumed_counter s) (consumer_mtx s)) cur.
Proof.
  intros (Hl & Hn & Hu & Hcur & Hlt & Hdone & Hcount) Hi. pose proof (lookup_lt_Some _ _ _ Hi) as Hb.
  split_and!; cbn; rewrite ?length_insert; try done.
  - intros j c [[-> ->]|[Hne Hj]]%lookup_insert_cases Hc; [by eapply Hu|by eapply Hu].
  - intros j Hj. destruct (Hcur j Hj) as (c & Hc & Ha). destruct (decide (j = i)) as [->|Hne].
    + exists C_get. by rewrite list_lookup_insert_eq.
    + exists c. by rewrite list_lookup_insert_ne.
  - intros j [[_ [=]]|[Hne Hj]]%lookup_insert_cases. by apply (Hdone j).
  - destruct (consumers_count cfg) eqn:Hk; cbn; [|done|].
    + destruct Hcount as [-> Hnext]. split; [done|].
      intros j [[_ [=]]|[Hne Hj]]%lookup_insert_cases. by apply (Hnext j).
    + intros j c [[-> ->]|[Hne Hj]]%lookup_insert_cases; [by apply (Hcount i C_wait)|by apply (Hcount j)].
Qed.

Lemma pc_step_ok s e s' : world_ok s -> pc_step cfg s e = Some s' -> world_ok s'.
Proof.
  intros Hs. destruct e as [i|i|i|i]; cbn [pc_step]; [by apply step_producer_ok|by apply step_consumer_ok|..].
  - unfold spurious_producer. destruct (producers s !! i) as [[]|] eqn:Hi; try done. intros [= <-].
    destruct Hs. constructor; cbn; try done.
    + destruct ok_producers0 as [cur Hcur]. exists cur. by eapply producer_move.
    + intros j y [[_ [=]]|[_ Hj]]%lookup_insert_cases; eauto.
  - unfold spurious_consumer. destruct (consumers s !! i) as [[]|] eqn:Hi; try done. intros [= <-].
    destruct Hs. constructor; cbn; try done.
    + destruct ok_consumers0 as [cur Hcur]. exists cur. by apply consumer_spurious_ok.
    + intros j [[_ [=]]|[_ Hj]]%lookup_insert_cases; eauto.
Qed.

Lemma pc_run_ok s es s' : world_ok s -> pc_run cfg s es = Some s' -> world_ok s'.
Proof.
  revert s. induction es as [|e es IH]; intros s Hs; [by intros [= <-]|].
  cbn [pc_run]. destruct (pc_step cfg s e) as [s1|] eqn:He; [|done].
  apply IH. by eapply pc_step_ok.
Qed.

(** ** Progress *)

Lemma producer_ready s i x : producers s !! i = Some (P_put x) -> exists s', step_producer cfg s i = Some s'.
Proof. intros Hi. unfold step_producer. rewrite Hi. cbn. destruct (ProduceItem _ _ _); eauto. Qed.

Lemma consumer_ready s i : consumers s !! i = Some C_get -> exists s', step_consumer cfg s i = Some s'.
Proof.
  intros Hi. unfold step_consumer. rewrite Hi. cbn. destruct (ConsumeItem _ _) as [[data ir]|]; [|eauto].
  destruct (match consumers_count cfg with count_after => _ | _ => _ end) as [[c' cnt] mtx]. eauto.
Qed.

(** Looking for a thread that can run among the producers, then the consumers. *)
Lemma producers_progress s :
  world_ok s -> (exists i s', step_producer cfg s i = Some s') \/
  (exists i x, producers s !! i = Some (P_wait x)) \/ Forall (eq P_done) (producers s).
Proof.
  intros Hs. destruct (ok_producers _ Hs) as [cur Hcur]. pose proof Hcur as (_ & _ & Hu & Hc & Hlock & _).
  destruct cur as [j|].
  - destruct Hc as (p & x & Hj & Hx & _). destruct p; try done.
    + left. exists j. by eapply producer_ready.
    + right. left. by exists j, item.
  - destruct (decide (Forall (fun p => p = P_done) (producers s))) as [Hd|Hd].
    { right. right. eapply Forall_impl; [exact Hd|]. by intros ? ->. }
    left. apply not_Forall_Exists, Exists_exists in Hd as (p & Hp & Hne); [|intros q; apply _].
    apply list_elem_of_lookup_1 in Hp as [i Hi]. exists i. unfold step_producer. rewrite Hi. cbn -[Nat.ltb].
    destruct p as [|x|x|]; [|by specialize (Hu i _ Hi ltac:(done))..|by destruct (Hne eq_refl)].
    destruct (producers_locked cfg).
    + rewrite (Hlock eq_refl), bool_decide_eq_true_2 by done. cbn -[Nat.ltb]. destruct (_ <? N)%nat; eauto.
    + cbn -[Nat.ltb]. destruct (_ <? N)%nat; eauto.
Qed.

Lemma consumers_progress s :
  world_ok s -> (exists i s', step_consumer cfg s i = Some s') \/
  (exists i, consumers s !! i = Some C_wait /\ length (consumed s) < N) \/ Forall (eq C_done) (consumers s).
Proof.
  intros Hs. destruct (ok_consumers _ Hs) as [cur Hcur].
  pose proof Hcur as (_ & _ & Hu & Hc & Hlt & _ & Hcount). destruct cur as [j|].
  - destruct (Hc j eq_refl) as (c & Hj & Ha). destruct c; try done.
    + left. exists j. by apply consumer_ready.
    + right. left. exists j. split; [done|]. by apply Hlt.
  - destruct (decide (Forall (fun p => p = C_done) (consumers s))) as [Hd|Hd].
    { right. right. eapply Forall_impl; [exact Hd|]. by intros ? ->. }
    left. apply not_Forall_Exists, Exists_exists in Hd as (c & Hp & Hne); [|intros q; apply _].
    apply list_elem_of_lookup_1 in Hp as [i Hi]. exists i. unfold step_consumer. rewrite Hi. cbn -[Nat.ltb].
    destruct c; [|by specialize (Hu i _ Hi eq_refl)..|by destruct (Hne eq_refl)].
    destruct (consumers_count cfg); [eauto| |eauto].
    destruct Hcount as [_ ->]. rewrite bool_decide_eq_true_2 by done. destruct (_ <? N)%nat; eauto.
Qed.

(** Nothing is ever stuck before every thread is done: no deadlock, no lost
    wake-up; and when all are done every item has gone through. *)
Lemma pc_progress s :
  world_ok s -> finished_world s \/ exists e s', spurious e = false /\ pc_step cfg s e = Some s'.
Proof.
  intros Hs. destruct (producers_progress s Hs) as [(i & s' & Hst)|Hp].
  { right. by exists (run_producer i), s'. }
  destruct (consumers_progress s Hs) as [(i & s' & Hst)|Hc].
  { right. by exists (run_consumer i), s'. }
  destruct (ok_producers _ Hs) as [pcur Hpok]. pose proof Hpok as (Hpl & Hpn & Hpu & Hpc & _ & Hpd).
  destruct (ok_consumers _ Hs) as [ccur Hcok]. pose proof Hcok as (Hcl & _ & _ & _ & _ & Hcd & _).
  pose proof (ok_queue _ Hs) as Hq. destruct config_facts as (Hk & Hn & Hp1 & Hc1 & _).
  pose proof (f_equal length Hq) as Hql. rewrite length_app in Hql.
  destruct Hp as [(i & x & Hi)|Hp].
  - exfalso. pose proof (ok_full _ Hs _ _ Hi) as Hfull.
    pose proof (Hpu i _ Hi ltac:(done)) as ->. destruct Hpc as (p & y & Hp' & Hy & -> & Heq).
    apply (f_equal length) in Heq. rewrite length_app, items_length in Heq. cbn in Heq.
    destruct Hc as [(j & Hj & _)|Hc].
    + pose proof (ok_empty _ Hs _ Hj) as He. rewrite He in Hfull. cbn in Hfull. lia.
    + destruct (lookup_lt_is_Some_2 (consumers s) 0) as [c Hc0]; [lia|].
      rewrite Forall_lookup in Hc. pose proof (Hc _ _ Hc0) as <-. specialize (Hcd _ Hc0). lia.
  - destruct (lookup_lt_is_Some_2 (producers s) 0) as [p Hp0]; [lia|].
    pose proof Hp as Hpall. rewrite Forall_lookup in Hp. pose proof (Hp _ _ Hp0) as <-. specialize (Hpd _ Hp0).
    destruct Hc as [(j & Hj & Hlt)|Hc]; [|by left].
    exfalso. pose proof (ok_empty _ Hs _ Hj) as He. rewrite He in Hql. cbn in Hql.
    destruct pcur as [i|].
    + destruct Hpc as (p & y & Hp' & Hy & _). pose proof (Hp _ _ Hp') as <-. done.
    + rewrite Hpc, items_length in Hql. lia.
Qed.

(** ** The bound on the number of steps *)

Definition producer_weight (p : producer) : nat := match p with P_next => 2 | P_put _ => 1 | _ => 0 end.
Definition consumer_weight (c : consumer) : nat := match c with C_next => 2 | C_get => 1 | _ => 0 end.
Definition threads : nat := producers_n cfg + consumers_n cfg.

Definition pc_work (s : world) : nat :=
  (threads + 2) * ((N - length (produced s)) + (N - length (consumed s))) +
  sum_list (producer_weight <$> producers s) + sum_list (consumer_weight <$> consumers s).

(** Waking a side costs at most one per thread of that side. *)
Lemma weight_wake_producers l :
  sum_list (producer_weight <$> (wake_producer <$> l)) <= sum_list (producer_weight <$> l) + length l.
Proof.
  induction l as [|p l IH]; [done|]. rewrite !fmap_cons. cbn [length sum_list sum_list_with foldr id].
  assert (producer_weight (wake_producer p) <= producer_weight p + 1) by (destruct p; cbn; lia). lia.
Qed.
Lemma weight_wake_consumers l :
  sum_list (consumer_weight <$> (wake_consumer <$> l)) <= sum_list (consumer_weight <$> l) + length l.
Proof.
  induction l as [|p l IH]; [done|]. rewrite !fmap_cons. cbn [length sum_list sum_list_with foldr id].
  assert (consumer_weight (wake_consumer p) <= consumer_weight p + 1) by (destruct p; cbn; lia). lia.
Qed.

Lemma produced_le s : world_ok s -> length (produced s) <= N.
Proof.
  intros Hs. destruct (ok_producers _ Hs) as [cur Hcur]. pose proof (items_le _ _ Hcur).
  destruct Hcur as (_ & ? & _). lia.
Qed.
Lemma consumed_le s : world_ok s -> length (consumed s) <= N.
Proof. intros Hs. destruct (ok_consumers _ Hs) as [cur Hcur]. by destruct Hcur as (_ & ? & _). Qed.

Lemma step_producer_work s i s' :
  world_ok s -> step_producer cfg s i = Some s' -> pc_work s' < pc_work s.
Proof.
  intros Hs Hst. pose proof (produced_le s' (step_producer_ok s i s' Hs Hst)) as Hle. revert Hst.
  destruct (ok_producers _ Hs) as [pcur (Hpl & _)]. destruct (ok_consumers _ Hs) as [ccur (Hcl & _)].
  unfold step_producer. destruct (producers s !! i) as [p|] eqn:Hi; [|done]. cbn [mbind option_bind].
  pose proof (weight_insert producer_weight (producers s) i p) as Hw.
  destruct p as [|x|x|]; try done.
  - destruct (producers_locked cfg && _); [done|].
    destruct (produced_counter s <? N)%nat; intros [= <-]; unfold pc_work; cbn.
    + specialize (Hw (P_put (S (produced_counter s))) Hi). cbn in Hw. lia.
    + specialize (Hw P_done Hi). cbn in Hw. lia.
  - destruct (ProduceItem K (repo s) (Z.of_nat x)) as [ir|]; intros [= <-]; unfold pc_work, threads in *; cbn in *.
    + specialize (Hw P_next Hi). cbn in Hw. pose proof (weight_wake_consumers (consumers s)).
      rewrite length_app in *. cbn in *. nia.
    + specialize (Hw (P_wait x) Hi). cbn in Hw. lia.
Qed.

Lemma step_consumer_work s i s' :
  world_ok s -> step_consumer cfg s i = Some s' -> pc_work s' < pc_work s.
Proof.
  intros Hs Hst. pose proof (consumed_le s' (step_consumer_ok s i s' Hs Hst)) as Hle. revert Hst.
  destruct (ok_producers _ Hs) as [pcur (Hpl & _)]. destruct (ok_consumers _ Hs) as [ccur (Hcl & _)].
  unfold step_consumer. destruct (consumers s !! i) as [c|] eqn:Hi; [|done]. cbn [mbind option_bind].
  pose proof (weight_insert consumer_weight (consumers s) i c) as Hw.
  assert (forall c' cnt mtx, consumer_weight c' < consumer_weight c ->
    pc_work (set_consumer s i c' cnt mtx) < pc_work s) as Hset.
  { intros c' cnt mtx Hlt. specialize (Hw c' Hi). unfold pc_work; cbn. lia. }
  destruct c; try done.
  - destruct (consumers_count cfg).
    + intros [= <-]. apply Hset. cbn. lia.
    + destruct (bool_decide _); [|done]. destruct (consumed_counter s <? N)%nat; intros [= <-]; apply Hset; cbn; lia.
    + intros [= <-]. apply Hset. case_match; cbn; lia.
  - destruct (ConsumeItem K (repo s)) as [[data ir]|].
    + destruct (match consumers_count cfg with count_after => _ | _ => _ end) as [[c' cnt] mtx] eqn:Hnew.
      intros [= <-]. specialize (Hw c' Hi). unfold pc_work, threads in *; cbn in *.
      assert (consumer_weight c' <= 2) by (destruct c'; cbn; lia).
      pose proof (weight_wake_producers (producers s)). rewrite length_app in *. cbn in *. nia.
    + intros [= <-]. apply Hset. cbn. lia.
Qed.

Lemma pc_step_work s e s' :
  world_ok s -> pc_step cfg s e = Some s' ->
  pc_work s' + (if spurious e then 0 else 1) <= pc_work s + (if spurious e then 1 else 0).
Proof.
  intros Hs. destruct e as [i|i|i|i]; cbn [pc_step spurious]; intros Hst.
  - pose proof (step_producer_work s i s' Hs Hst). lia.
  - pose proof (step_consumer_work s i s' Hs Hst). lia.
  - revert Hst. unfold spurious_producer. destruct (producers s !! i) as [[| |x|]|] eqn:Hi; try done. intros [= <-].
    pose proof (weight_insert producer_weight (producers s) i _ (P_put x) Hi) as Hw. cbn in Hw.
    unfold pc_work; cbn. lia.
  - revert Hst. unfold spurious_consumer. destruct (consumers s !! i) as [[]|] eqn:Hi; try done. intros [= <-].
    pose proof (weight_insert consumer_weight (consumers s) i _ C_get Hi) as Hw. cbn in Hw.
    unfold pc_work; cbn. lia.
Qed.

Definition real_steps (es : list pc_event) : nat := length (filter (fun e => spurious e = false) es).
Definition spurious_steps (es : list pc_event) : nat := length (filter (fun e => spurious e = true) es).

Lemma pc_run_work s es s' :
  world_ok s -> pc_run cfg s es = Some s' -> real_steps es + pc_work s' <= pc_work s + spurious_steps es.
Proof.
  revert s. induction es as [|e es IH]; intros s Hs; [intros [= <-]; cbn; lia|].
  cbn [pc_run]. destruct (pc_step cfg s e) as [s1|] eqn:He; [|done]. cbn [mbind option_bind]. intros Hr.
  pose proof (pc_step_work s e s1 Hs He) as Hw. specialize (IH s1 (pc_step_ok s e s1 Hs He) Hr).
  unfold real_steps, spurious_steps in *. rewrite !filter_cons. destruct (spurious e);
    [rewrite decide_False, decide_True by done|rewrite decide_True, decide_False by done]; cbn [length]; lia.
Qed.

Lemma weight_replicate {A} (f : A -> nat) n x : sum_list (f <$> replicate n x) = n * f x.
Proof. induction n as [|n IH]; [done|]. cbn in *. lia. Qed.

Lemma init_work : pc_work (init_world cfg) = (threads + 2) * (N + N) + 2 * threads.
Proof.
  unfold pc_work, init_world; cbn. rewrite !weight_replicate. unfold threads; cbn. lia.
Qed.

(** When every thread is done, every item has been consumed, in order. *)
Lemma finished_items s : world_ok s -> finished_world s -> consumed s = items N /\ queue K (repo s) = [].
Proof.
  intros Hs [Hp Hc]. destruct config_facts as (_ & Hn & Hp1 & Hc1 & _).
  destruct (ok_producers _ Hs) as [pcur (Hpl & _ & _ & Hpc & _ & Hpd)].
  destruct (ok_consumers _ Hs) as [ccur (Hcl & _ & _ & _ & _ & Hcd & _)].
  destruct (lookup_lt_is_Some_2 (producers s) 0) as [p Hp0]; [lia|].
  destruct (lookup_lt_is_Some_2 (consumers s) 0) as [c Hc0]; [lia|].
  rewrite Forall_lookup in Hp. rewrite Forall_lookup in Hc. pose proof (Hp _ _ Hp0) as <-. pose proof (Hc _ _ Hc0) as <-.
  specialize (Hpd _ Hp0). specialize (Hcd _ Hc0).
  assert (produced s = items N) as Hprod.
  { destruct pcur as [i|]; [|by rewrite Hpc, Hpd].
    destruct Hpc as (q & y & Hq & Hy & _). by pose proof (Hp _ _ Hq) as <-. }
  pose proof (ok_queue _ Hs) as Hq. pose proof (f_equal length Hq) as Hl.
  rewrite Hprod, items_length, length_app in Hl.
  assert (queue K (repo s) = []) as He by (apply nil_length_inv; lia).
  split; [|done]. by rewrite Hprod, He, app_nil_r in Hq.
Qed.
End Invariant.

(** ** Properties *)

(** The ring buffer is a bounded first-in first-out queue: [ProduceItem]
    waits exactly when the queue holds one item less than there are slots and
    otherwise appends the item, [ConsumeItem] waits exactly when it is empty and
    otherwise takes its head, and both keep the positions inside the buffer. *)
Theorem ring_refines k ir item :
  repo_ok k ir ->
  match ProduceItem k ir item with
  | None => length (queue k ir) = k - 1
  | Some ir' => length (queue k ir) < k - 1 /\ repo_ok k ir' /\ queue k ir' = queue k ir ++ [item]
  end /\
  match ConsumeItem k ir with
  | None => queue k ir = []
  | Some (data, ir') => repo_ok k ir' /\ queue k ir = data :: queue k ir'
  end.
Proof.
  intros Hok. split.
  - destruct (ProduceItem k ir item) as [ir'|] eqn:Hput.
    + destruct (produce_queue _ _ _ _ Hok Hput) as [Hok' Hq]. split; [|done].
      pose proof (full_iff k ir' Hok') as _. pose proof Hok' as (Hk & _).
      assert (length (queue k ir') <= k - 1) as Hle.
      { destruct Hok' as (_ & _ & Hr & Hw). unfold queue. rewrite length_fmap, length_seq. unfold queue_length.
        destruct (Nat.leb_spec (read_position ir') (write_position ir')); lia. }
      rewrite Hq, length_app in Hle. cbn in Hle. lia.
    + apply full_iff; [done|]. revert Hput. unfold ProduceItem.
      by destruct (Nat.eqb_spec ((write_position ir + 1) mod k) (read_position ir)).
  - destruct (ConsumeItem k ir) as [[data ir']|] eqn:Hget; [by apply consume_queue|].
    apply empty_iff; [done|]. revert Hget. unfold ConsumeItem.
    by destruct (Nat.eqb_spec (write_position ir) (read_position ir)).
Qed.

(** Items are neither lost, nor duplicated, nor reordered: in every
    reachable state of every configuration what was put in is an initial part
    of 1, 2, ..., N, and it is what was taken out followed by what the buffer
    holds. *)
Theorem items_in_order cfg es s :
  config_ok cfg = true -> pc_run cfg (init_world cfg) es = Some s ->
  produced s = consumed s ++ queue (kItemRepositorySize cfg) (repo s) /\
  (exists n, n <= kItemsToProduce cfg /\ produced s = items n) /\
  length (queue (kItemRepositorySize cfg) (repo s)) <= kItemRepositorySize cfg - 1.
Proof.
  intros Hcfg Hr. pose proof (pc_run_ok cfg Hcfg _ es s (init_world_ok cfg Hcfg) Hr) as Hs.
  split; [apply Hs|]. split.
  - destruct (ok_producers _ _ Hs) as [[j|] (_ & Hn & _ & Hc & _)].
    + destruct Hc as (p & x & _ & _ & -> & Heq). destruct (produced_counter s) as [|n] eqn:Hcnt; [by destruct (produced s)|].
      exists n. split; [lia|]. rewrite items_snoc in Heq. by apply app_inj_tail in Heq as [-> _].
    + by exists (produced_counter s).
  - destruct (ok_repo _ _ Hs) as (Hk & _ & Hrp & Hwp). unfold queue. rewrite length_fmap, length_seq. unfold queue_length.
    destruct (Nat.leb_spec (read_position (repo s)) (write_position (repo s))); lia.
Qed.

(** C9: the programs terminate under every schedule: apart from spurious
    wake-ups the number of steps is bounded, as long as a thread is not done
    some thread can run (no deadlock and no lost wake-up), and when all are done
    the items 1, 2, ..., N have been consumed in this order. At every moment what
    was produced is what was consumed followed by what the buffer holds. *)
Theorem produce_consume_terminates cfg es s :
  config_ok cfg = true -> pc_run cfg (init_world cfg) es = Some s ->
  real_steps es <= (threads cfg + 2) * (2 * kItemsToProduce cfg) + 2 * threads cfg + spurious_steps es /\
  produced s = consumed s ++ queue (kItemRepositorySize cfg) (repo s) /\
  (finished_world s /\ consumed s = items (kItemsToProduce cfg) \/
   exists e s', spurious e = false /\ pc_step cfg s e = Some s').
Proof.
  intros Hcfg Hr. pose proof (init_world_ok cfg Hcfg) as Hi.
  pose proof (pc_run_ok cfg Hcfg _ es s Hi Hr) as Hs.
  pose proof (pc_run_work cfg Hcfg _ es s Hi Hr) as Hw. rewrite init_work in Hw. split; [lia|]. split; [apply Hs|].
  destruct (pc_progress cfg Hcfg s Hs) as [Hf|He]; [|by right].
  left. split; [done|]. by apply (finished_items cfg).
Qed.

(** ** Witnesses *)

(** The four programs satisfy the conditions. *)
Lemma programs_ok : Forall (fun c => config_ok c = true) [program_01; program_02; program_03; program_04].
Proof. by repeat constructor. Qed.

(** Program 4: two rounds of a producer fill two slots, two consumers compete. *)
Definition example_schedule : list pc_event :=
  [run_consumer 1; run_consumer 1; run_producer 2; run_producer 2; run_producer 0; run_producer 0;
   run_consumer 1; run_consumer 3; run_consumer 3].

Definition example_world : world :=
  match pc_run program_04 (init_world program_04) example_schedule with Some s => s | None => init_world program_04 end.

Theorem ring_refines_witness :
  match ProduceItem 4 (repo example_world) 7 with
  | None => length (queue 4 (repo example_world)) = 4 - 1
  | Some ir' => length (queue 4 (repo example_world)) < 4 - 1 /\ repo_ok 4 ir' /\
                queue 4 ir' = queue 4 (repo example_world) ++ [7%Z]
  end.
Proof.
  refine (proj1 (ring_refines 4 (repo example_world) 7 _)).
  vm_compute. repeat split; repeat constructor.
Defined.

Theorem items_in_order_witness :
  pc_run program_04 (init_world program_04) example_schedule = Some example_world /\
  produced example_world = consumed example_world ++ queue 4 (repo example_world) /\ consumed example_world = [1; 2]%Z.
Proof.
  assert (pc_run program_04 (init_world program_04) example_schedule = Some example_world) as Hr by (vm_compute; reflexivity).
  split; [exact Hr|]. split; [|vm_compute; reflexivity].
  exact (proj1 (items_in_order program_04 example_schedule example_world eq_refl Hr)).
Defined.

Theorem produce_consume_terminates_witness :
  real_steps example_schedule <= (threads program_04 + 2) * (2 * 10) + 2 * threads program_04 + spurious_steps example_schedule /\
  threads program_04 = 8.
Proof.
  split; [|reflexivity].
  refine (proj1 (produce_consume_terminates program_04 example_schedule example_world eq_refl _)).
  vm_compute. reflexivity.
Defined.
