(* ===== verification/LruCache.v ===== *)
(** * LruCache: the least-recently-used cache

    Models [c++11/LRUCache.cpp]: a linked list of pairs and a hash map from
    keys to list iterators. A list node has an identity, which is what an
    iterator holds; [splice] moves a node and keeps its identity. Using an
    iterator whose node is gone, or the last element of an empty list, is
    undefined and shows as [None]. The methods hold the mutex from their first
    to their last statement, so any interleaving of calls is a sequence of them. *)
From S2P Require Import Prelude.

(** ** State and operations *)

Record LRUCache := Cache {
  cap : Z;
  cache : list (nat * (Z * Z));     (* node, (key, value); the front is the most recent *)
  map : gmap Z nat;                 (* key to node *)
  next_node : nat }.

Definition new_cache (capacity : Z) : LRUCache := Cache capacity [] ∅ 0.

(** Taking the node an iterator points to out of the list. *)
Fixpoint unlink (node : nat) (l : list (nat * (Z * Z))) : option ((Z * Z) * list (nat * (Z * Z))) :=
  match l with
  | [] => None
  | (n, kv) :: l' =>
      if decide (n = node) then Some (kv, l')
      else '(kv', l'') ← unlink node l'; Some (kv', (n, kv) :: l'')
  end.

(** [map.size() > cap]: the [int] is converted to [size_t]. *)
Definition over_capacity (m : gmap Z nat) (c : Z) : bool := (size_t c <? Z.of_nat (size m))%Z.

(** [cache.rbegin()->first], [pop_back], [map.erase]. *)
Definition evict (c : LRUCache) : option LRUCache :=
  '(_, (lastKey, _)) ← last (cache c);
  Some (Cache (cap c) (removelast (cache c)) (delete lastKey (map c)) (next_node c)).

Definition put (c : LRUCache) (key value : Z) : option LRUCache :=
  l ← match map c !! key with
      | Some iter => '(_, l) ← unlink iter (cache c); Some l
      | None => Some (cache c)
      end;
  let c := Cache (cap c) ((next_node c, (key, value)) :: l) (<[key := next_node c]> (map c)) (S (next_node c)) in
  if over_capacity (map c) (cap c) then evict c else Some c.

(** The answer, the value written to the out-parameter, and the cache. *)
Definition get (c : LRUCache) (key : Z) : option (option Z * LRUCache) :=
  match map c !! key with
  | None => Some (None, c)
  | Some iter =>
      '(kv, l) ← unlink iter (cache c);
      Some (Some (snd kv), Cache (cap c) ((iter, kv) :: l) (map c) (next_node c))
  end.

(** Calls, as the threads make them. *)
Inductive call := Put (key value : Z) | Get (key : Z).

Fixpoint run_calls (c : LRUCache) (cs : list call) : option (list (option Z) * LRUCache) :=
  match cs with
  | [] => Some ([], c)
  | Put k v :: cs' => c' ← put c k v; run_calls c' cs'
  | Get k :: cs' =>
      '(r, c') ← get c k; '(rs, c'') ← run_calls c' cs'; Some (r :: rs, c'')
  end.

(** [test], run by the one thread of [main] on a cache of capacity two. *)
Definition test_calls : list call :=
  [Put 1 1; Put 2 2; Get 1; Put 3 3; Get 2; Put 4 4; Get 1; Get 3; Get 4].

(** ** Specification: an association list, most recent first *)

Definition without (k : Z) (l : list (Z * Z)) : list (Z * Z) := filter (fun kv => fst kv <> k) l.

Definition find_key (k : Z) (l : list (Z * Z)) : option Z := snd <$> head (filter (fun kv => fst kv = k) l).

(** At most [cap] entries; a negative capacity is no bound at all. *)
Definition spec_put (c : Z) (l : list (Z * Z)) (k v : Z) : list (Z * Z) :=
  let l' := (k, v) :: without k l in
  if (size_t c <? Z.of_nat (length l'))%Z then removelast l' else l'.

Definition spec_get (l : list (Z * Z)) (k : Z) : option Z * list (Z * Z) :=
  match find_key k l with
  | Some v => (Some v, (k, v) :: without k l)
  | None => (None, l)
  end.

Fixpoint spec_calls (c : Z) (l : list (Z * Z)) (cs : list call) : list (option Z) * list (Z * Z) :=
  match cs with
  | [] => ([], l)
  | Put k v :: cs' => spec_calls c (spec_put c l k v) cs'
  | Get k :: cs' =>
      let '(r, l') := spec_get l k in
      let '(rs, l'') := spec_calls c l' cs' in (r :: rs, l'')
  end.

(** ** Invariant *)

Definition entries (c : LRUCache) : list (Z * Z) := snd <$> cache c.
Definition node_key (n : nat * (Z * Z)) : Z := fst (snd n).

Record cache_ok (c : LRUCache) : Prop := {
  ok_keys : NoDup (node_key <$> cache c);
  ok_nodes : NoDup (fst <$> cache c);
  ok_fresh : forall n, n ∈ cache c -> fst n < next_node c;
  ok_map : forall k i, map c !! k = Some i <-> exists v, (i, (k, v)) ∈ cache c }.

Lemma unlink_split i kv l1 l2 :
  i ∉ fst <$> l1 -> unlink i (l1 ++ (i, kv) :: l2) = Some (kv, l1 ++ l2).
Proof.
  induction l1 as [|[n kv1] l1 IH]; intros Hi; cbn [app unlink]; [by rewrite decide_True|].
  rewrite fmap_cons in Hi. apply not_elem_of_cons in Hi as [Hn Hi]. cbn in Hn.
  rewrite decide_False by congruence. by rewrite IH.
Qed.

(** Where the node of a key is. *)
Lemma lookup_split c k i :
  cache_ok c -> map c !! k = Some i ->
  exists v l1 l2, cache c = l1 ++ (i, (k, v)) :: l2 /\ i ∉ fst <$> l1 /\
    k ∉ node_key <$> (l1 ++ l2) /\ i ∉ fst <$> (l1 ++ l2).
Proof.
  intros [Hk Hn _ Hm] [v Hin]%Hm. apply list_elem_of_split in Hin as (l1 & l2 & Heq).
  exists v, l1, l2. rewrite Heq in Hk, Hn. rewrite fmap_app, fmap_cons in Hk. rewrite fmap_app, fmap_cons in Hn.
  apply NoDup_app in Hk as (Hk1 & Hk2 & Hk3). apply NoDup_app in Hn as (Hn1 & Hn2 & Hn3).
  apply NoDup_cons in Hk3 as [Hk3 _]. apply NoDup_cons in Hn3 as [Hn3 _]. cbn in *.
  rewrite !fmap_app, !not_elem_of_app. split_and!; try done.
  - intros Hin. apply (Hn2 _ Hin). by left.
  - intros Hin. apply (Hk2 _ Hin). by left.
  - intros Hin. apply (Hn2 _ Hin). by left.
Qed.

Lemma without_split k v l1 l2 i :
  k ∉ node_key <$> (l1 ++ l2) ->
  without k (snd <$> (l1 ++ (i, (k, v)) :: l2)) = snd <$> (l1 ++ l2) /\
  find_key k (snd <$> (l1 ++ (i, (k, v)) :: l2)) = Some v.
Proof.
  intros Hk. rewrite fmap_app, not_elem_of_app in Hk. destruct Hk as [Hk1 Hk2].
  assert (forall l : list (nat * (Z * Z)), k ∉ node_key <$> l -> forall kv, kv ∈ snd <$> l -> fst kv <> k) as Hne.
  { intros l Hl kv (n & -> & Hn)%list_elem_of_fmap Heq. apply Hl. apply list_elem_of_fmap. exists n. by split. }
  unfold without, find_key. rewrite !fmap_app, fmap_cons, !filter_app, !filter_cons. cbn [snd fst].
  rewrite decide_False by (intros H; by apply H). rewrite decide_True by done. split.
  - f_equal; apply filter_all; by apply Hne.
  - rewrite (filter_none _ (snd <$> l1)); [done|]. intros kv Hkv. by apply (Hne l1).
Qed.

Lemma missing_key c k :
  cache_ok c -> map c !! k = None -> k ∉ node_key <$> cache c.
Proof.
  intros [_ _ _ Hm] Hk ([i [k' v]] & -> & Hin)%list_elem_of_fmap. cbn in Hk.
  assert (map c !! k' = Some i) by (apply Hm; by exists v). congruence.
Qed.

Lemma missing_spec c k :
  k ∉ node_key <$> cache c -> without k (entries c) = entries c /\ find_key k (entries c) = None.
Proof.
  intros Hk. assert (forall kv, kv ∈ entries c -> fst kv <> k) as Hne.
  { intros kv (n & -> & Hn)%list_elem_of_fmap Heq. apply Hk. apply list_elem_of_fmap. exists n. by split. }
  unfold without, find_key. rewrite filter_all, filter_none; [done|apply Hne|done].
Qed.

(** The map has one entry per node. *)
Lemma size_map c : cache_ok c -> size (map c) = length (cache c).
Proof.
  intros [Hk Hn Hf Hm]. assert (map c = list_to_map ((fun n => (node_key n, fst n)) <$> cache c)) as ->.
  { apply map_eq. intros k. destruct (map c !! k) as [i|] eqn:Hi.
    - symmetry. apply elem_of_list_to_map; [by rewrite <- list_fmap_compose|].
      apply Hm in Hi as [v Hin]. apply list_elem_of_fmap. exists (i, (k, v)). done.
    - symmetry. apply not_elem_of_list_to_map. rewrite <- list_fmap_compose.
      intros ([i [k' v]] & -> & Hin)%list_elem_of_fmap. cbn in *.
      assert (map c !! k' = Some i) by (apply Hm; by exists v). congruence. }
  rewrite <- (length_fmap (fun n => (node_key n, fst n)) (cache c)).
  rewrite map_size_list_to_map; [done|]. by rewrite <- list_fmap_compose.
Qed.

(** A node in front of a list that has neither its key nor its identity. *)
Lemma push_ok cp i k v l m nx :
  NoDup (node_key <$> l) -> NoDup (fst <$> l) -> k ∉ node_key <$> l -> i ∉ fst <$> l ->
  (forall n, n ∈ l -> fst n < nx) -> i < nx ->
  (forall k' j, m !! k' = Some j <-> k' = k /\ j = i \/ exists v', (j, (k', v')) ∈ l) ->
  cache_ok (Cache cp ((i, (k, v)) :: l) m nx).
Proof.
  intros Hk Hn Hnk Hni Hf Hi Hm. constructor; cbn [cache map next_node].
  - rewrite fmap_cons. by apply NoDup_cons.
  - rewrite fmap_cons. by apply NoDup_cons.
  - intros n [->|Hin]%elem_of_cons; [done|by apply Hf].
  - intros k' j. rewrite Hm. split.
    + intros [[-> ->]|[v' Hin]]; [exists v; by left|exists v'; by right].
    + intros [v' [Heq|Hin]%elem_of_cons]; [injection Heq as -> -> ->; by left|right; by exists v'].
Qed.

(** The list without one node is still well formed. *)
Lemma rest_ok c l1 n l2 :
  cache_ok c -> cache c = l1 ++ n :: l2 ->
  NoDup (node_key <$> (l1 ++ l2)) /\ NoDup (fst <$> (l1 ++ l2)) /\
  (forall m, m ∈ l1 ++ l2 -> fst m < next_node c) /\
  (forall m, m ∈ cache c <-> m = n \/ m ∈ l1 ++ l2).
Proof.
  intros [Hk Hn Hf Hm] Heq. rewrite Heq in *.
  assert (l1 ++ n :: l2 ≡ₚ n :: (l1 ++ l2)) as Hp by (by rewrite Permutation_middle).
  rewrite Hp, fmap_cons in Hk. rewrite Hp, fmap_cons in Hn.
  apply NoDup_cons in Hk as [_ Hk]. apply NoDup_cons in Hn as [_ Hn]. split_and!; try done.
  - intros m Hin. apply Hf. rewrite Hp. by right.
  - intros m. rewrite Hp. apply elem_of_cons.
Qed.

Lemma evict_ok c :
  cache_ok c -> cache c <> [] ->
  exists c', evict c = Some c' /\ cache_ok c' /\ cap c' = cap c /\ entries c' = removelast (entries c).
Proof.
  intros Hok Hne. destruct (exists_last Hne) as (l & [i [k v]] & Heq).
  unfold evict. rewrite Heq, last_snoc. cbn [mbind option_bind]. rewrite removelast_last.
  eexists. split; [reflexivity|]. unfold entries. cbn [cache cap].
  rewrite Heq, fmap_app. cbn [fmap list_fmap]. rewrite removelast_last.
  split; [|done]. destruct (rest_ok c l (i, (k, v)) [] Hok Heq) as (Hk & Hn & Hf & Hin). rewrite app_nil_r in *.
  constructor; cbn [cache map next_node]; try done.
  intros k' j. pose proof (ok_keys _ Hok) as Hkeys. rewrite Heq, fmap_app in Hkeys.
  apply NoDup_app in Hkeys as (_ & Hdis & _).
  destruct (decide (k' = k)) as [->|Hkk].
  - rewrite lookup_delete_eq. split; [done|]. intros [v' Hin']. exfalso.
    apply (Hdis k); [|by left]. apply list_elem_of_fmap. by exists (j, (k, v')).
  - rewrite lookup_delete_ne by done. rewrite (ok_map _ Hok). setoid_rewrite Hin. naive_solver.
Qed.

Lemma put_ok c k v :
  cache_ok c -> exists c', put c k v = Some c' /\ cache_ok c' /\ cap c' = cap c /\
    entries c' = spec_put (cap c) (entries c) k v.
Proof.
  intros Hok. unfold put.
  assert (exists l, (match map c !! k with
      | Some iter => '(_, l) ← unlink iter (cache c); Some l | None => Some (cache c) end) = Some l /\
      cache_ok (Cache (cap c) ((next_node c, (k, v)) :: l) (<[k := next_node c]> (map c)) (S (next_node c))) /\
      snd <$> l = without k (entries c)) as (l & -> & Hok' & Hl).
  { destruct (map c !! k) as [i|] eqn:Hi.
    - destruct (lookup_split c k i Hok Hi) as (v0 & l1 & l2 & Heq & H1 & Hk & Hn).
      destruct (rest_ok c l1 _ l2 Hok Heq) as (Hkd & Hnd & Hf & Hin).
      exists (l1 ++ l2). rewrite Heq, unlink_split by done. split; [done|]. split.
      + apply push_ok; try done.
        * intros (n & Hn' & Hm)%list_elem_of_fmap. apply Hf in Hm. lia.
        * intros n Hm. apply Hf in Hm. lia.
        * lia.
        * intros k' j. destruct (decide (k' = k)) as [->|Hkk].
          -- rewrite lookup_insert_eq. split; [intros [= <-]; by left|].
             intros [[_ ->]|[v' Hin']]; [done|]. exfalso. apply Hk. apply list_elem_of_fmap. by exists (j, (k, v')).
          -- rewrite lookup_insert_ne by done. rewrite (ok_map _ Hok). setoid_rewrite Hin. naive_solver.
      + unfold entries. rewrite Heq. symmetry. by apply without_split.
    - pose proof (missing_key c k Hok Hi) as Hk. exists (cache c). split; [done|]. destruct Hok. split.
      + apply push_ok; try done.
        * intros (n & Hn' & Hm)%list_elem_of_fmap. apply ok_fresh0 in Hm. lia.
        * intros n Hm. apply ok_fresh0 in Hm. lia.
        * lia.
        * intros k' j. destruct (decide (k' = k)) as [->|Hkk].
          -- rewrite lookup_insert_eq. split; [intros [= <-]; by left|].
             intros [[_ ->]|[v' Hin']]; [done|]. exfalso. apply Hk. apply list_elem_of_fmap. by exists (j, (k, v')).
          -- rewrite lookup_insert_ne by done. rewrite ok_map0. naive_solver.
      + symmetry. by apply missing_spec. }
  cbn [mbind option_bind]. set (c1 := Cache _ _ _ _) in *.
  assert (entries c1 = (k, v) :: without k (entries c)) as He1 by (unfold entries; cbn; by rewrite Hl).
  unfold over_capacity. rewrite (size_map c1 Hok'). unfold spec_put. rewrite <- He1.
  assert (length (entries c1) = length (cache c1)) as -> by (unfold entries; by rewrite length_fmap).
  cbn [cap c1]. case_match; [|by exists c1].
  destruct (evict_ok c1 Hok' ltac:(done)) as (c' & -> & ? & ? & ?). by exists c'.
Qed.

Lemma get_ok c k :
  cache_ok c -> exists r c', get c k = Some (r, c') /\ cache_ok c' /\ cap c' = cap c /\
    (r, entries c') = spec_get (entries c) k.
Proof.
  intros Hok. unfold get, spec_get. destruct (map c !! k) as [i|] eqn:Hi.
  - destruct (lookup_split c k i Hok Hi) as (v & l1 & l2 & Heq & H1 & Hk & Hn).
    destruct (rest_ok c l1 _ l2 Hok Heq) as (Hkd & Hnd & Hf & Hin).
    rewrite Heq, unlink_split by done. cbn [mbind option_bind]. do 2 eexists. split; [reflexivity|].
    destruct (without_split k v l1 l2 i Hk) as [Hw Hfk].
    unfold entries at 2 3. rewrite Heq, Hfk, Hw. split; [|done].
    apply push_ok; try done.
    + apply (ok_fresh _ Hok (i, (k, v))). rewrite Heq. set_solver.
    + intros k' j. rewrite (ok_map _ Hok). setoid_rewrite Hin. naive_solver.
  - destruct (missing_spec c k (missing_key c k Hok Hi)) as [_ ->]. by exists None, c.
Qed.

Lemma new_cache_ok capacity : cache_ok (new_cache capacity).
Proof.
  constructor; cbn; [constructor|constructor|by intros n ?%elem_of_nil|].
  intros k i. split; [done|]. by intros [v ?%elem_of_nil].
Qed.

Lemma run_calls_ok c cs :
  cache_ok c -> exists rs c', run_calls c cs = Some (rs, c') /\ cache_ok c' /\
    (rs, entries c') = spec_calls (cap c) (entries c) cs.
Proof.
  revert c. induction cs as [|[k v|k] cs IH]; intros c Hok; [by eexists _, _| |]; cbn [run_calls spec_calls].
  - destruct (put_ok c k v Hok) as (c1 & -> & Hok1 & Hcap & <-). cbn [mbind option_bind].
    rewrite <- Hcap. by apply IH.
  - destruct (get_ok c k Hok) as (r & c1 & -> & Hok1 & Hcap & <-). cbn [mbind option_bind].
    destruct (IH c1 Hok1) as (rs & c2 & -> & Hok2 & Heq). cbn [mbind option_bind].
    do 2 eexists. split; [reflexivity|]. split; [done|]. rewrite <- Hcap, <- Heq. done.
Qed.

(** ** Bounds and recency, on the specification *)

Lemma spec_put_length c l k v :
  (0 <= c < 2 ^ 31)%Z -> (Z.of_nat (length l) <= c)%Z -> (Z.of_nat (length (spec_put c l k v)) <= c)%Z.
Proof.
  intros Hc Hl. unfold spec_put. assert (size_t c = c) as -> by (unfold size_t; apply Z.mod_small; lia).
  pose proof (length_filter (fun kv => fst kv <> k) l) as Hf. unfold without. cbn [length].
  set (w := filter _ l) in *. destruct (Z.ltb_spec c (Z.of_nat (S (length w)))); [|cbn; lia].
  rewrite removelast_firstn_len. rewrite length_take. cbn [length]. lia.
Qed.

Lemma without_length k l : length (without k l) <= length l.
Proof. apply length_filter. Qed.

Lemma find_without_length k v l : find_key k l = Some v -> S (length (without k l)) <= length l.
Proof.
  unfold find_key, without. induction l as [|kv l IH]; [done|]. rewrite !filter_cons.
  destruct (decide (fst kv = k)) as [Hk|Hk].
  - intros _. rewrite decide_False by tauto. pose proof (length_filter (fun kv => fst kv <> k) l). cbn. lia.
  - rewrite decide_True by done. intros Hf. cbn. specialize (IH Hf). lia.
Qed.

Lemma spec_calls_length c l cs :
  (0 <= c < 2 ^ 31)%Z -> (Z.of_nat (length l) <= c)%Z -> (Z.of_nat (length (snd (spec_calls c l cs))) <= c)%Z.
Proof.
  intros Hc. revert l. induction cs as [|[k v|k] cs IH]; intros l Hl; [done| |]; cbn [spec_calls].
  - apply IH. by apply spec_put_length.
  - unfold spec_get. destruct (find_key k l) as [v|] eqn:Hf.
    + assert (Z.of_nat (length ((k, v) :: without k l)) <= c)%Z as Hl'.
      { pose proof (find_without_length k v l Hf). cbn. lia. }
      specialize (IH _ Hl'). by destruct (spec_calls c _ cs).
    + specialize (IH _ Hl). by destruct (spec_calls c l cs).
Qed.

Definition key_of (c : call) : Z := match c with Put k _ => k | Get k => k end.

(** The entry of [k] is in the list, behind entries of keys of [U] only. *)
Definition recent (k v : Z) (U : gset Z) (l : list (Z * Z)) : Prop :=
  exists l1 l2, l = l1 ++ (k, v) :: l2 /\ NoDup (fst <$> l1) /\ k ∉ fst <$> l1 /\
    (forall k', k' ∈ fst <$> l1 -> k' ∈ U).

Lemma recent_find k v U l : recent k v U l -> find_key k l = Some v.
Proof.
  intros (l1 & l2 & -> & _ & Hk & _). unfold find_key. rewrite filter_app, filter_cons, decide_True by done.
  rewrite (filter_none _ l1); [done|]. intros kv Hin <-. apply Hk. apply list_elem_of_fmap. by exists kv.
Qed.

Lemma recent_head k v U w : recent k v U ((k, v) :: w).
Proof. exists [], w. split; [done|]. split; [constructor|]. split; [apply not_elem_of_nil|by intros ? ?%elem_of_nil]. Qed.

Lemma NoDup_without k l : NoDup (fst <$> l) -> NoDup (fst <$> without k l).
Proof.
  unfold without. induction l as [|kv l IH]; [done|]. rewrite fmap_cons, filter_cons. intros [Hn Hd]%NoDup_cons.
  case_decide; [|by apply IH]. rewrite fmap_cons. apply NoDup_cons. split; [|by apply IH].
  intros (x & Hx & [_ Hin]%list_elem_of_filter)%list_elem_of_fmap. apply Hn. apply list_elem_of_fmap. by exists x.
Qed.

Lemma elem_without k k' l : k' ∈ fst <$> without k l -> k' <> k /\ k' ∈ fst <$> l.
Proof.
  intros (x & -> & [Hne Hin]%list_elem_of_filter)%list_elem_of_fmap. split; [done|].
  apply list_elem_of_fmap. by exists x.
Qed.

(** A touched key goes to the front. *)
Lemma recent_front k v U l k' v' :
  recent k v U l -> k' <> k -> k' ∈ U -> recent k v U ((k', v') :: without k' l).
Proof.
  intros (l1 & l2 & -> & Hd & Hk & HU) Hne Hin. exists ((k', v') :: without k' l1), (without k' l2).
  unfold without. rewrite filter_app, filter_cons, decide_True by (cbn; congruence). split; [done|].
  fold (without k' l1). rewrite fmap_cons. cbn [fst]. split_and!.
  - apply NoDup_cons. split; [by intros [? _]%elem_without|by apply NoDup_without].
  - apply not_elem_of_cons. split; [done|]. by intros [_ ?]%elem_without.
  - intros k'' [->|[_ Hx]%elem_without]%elem_of_cons; [done|by apply HU].
Qed.

Lemma recent_prefix (U : gset Z) l1 :
  NoDup (fst <$> l1) -> (forall k', k' ∈ (fst <$> l1 : list Z) -> k' ∈ U) -> length (l1 : list (Z * Z)) <= size U.
Proof.
  intros Hd HU. rewrite <- (length_fmap fst l1), <- (size_list_to_set (C := gset Z)) by done.
  apply subseteq_size. intros x Hx%elem_of_list_to_set. by apply HU.
Qed.

Lemma removelast_app_cons {A} (l1 : list A) x l2 :
  l2 <> [] -> removelast (l1 ++ x :: l2) = l1 ++ x :: removelast l2.
Proof. intros H. rewrite removelast_app by done. by destruct l2. Qed.

Lemma recent_put c k v U l k' v' :
  (0 < c < 2 ^ 31)%Z -> (Z.of_nat (size U) < c)%Z -> recent k v U l -> k' <> k -> k' ∈ U ->
  recent k v U (spec_put c l k' v').
Proof.
  intros Hc HU Hr Hne Hin. unfold spec_put. pose proof (recent_front k v U l k' v' Hr Hne Hin) as Hf.
  set (l' := _ :: _) in *. assert (size_t c = c) as -> by (unfold size_t; apply Z.mod_small; lia).
  destruct (Z.ltb_spec c (Z.of_nat (length l'))) as [Hover|]; [|done].
  destruct Hf as (l1 & l2 & Heq & Hd & Hk & HU'). rewrite Heq in *.
  pose proof (recent_prefix U l1 Hd HU'). rewrite length_app in Hover. cbn [length] in Hover.
  destruct l2 as [|x l2]; [cbn in Hover; lia|].
  exists l1, (removelast (x :: l2)). by rewrite removelast_app_cons.
Qed.

Lemma recent_get k v U l k' :
  recent k v U l -> k' <> k -> k' ∈ U -> recent k v U (snd (spec_get l k')).
Proof.
  intros Hr Hne Hin. unfold spec_get. destruct (find_key k' l); [by apply recent_front|done].
Qed.

Lemma recent_calls c k v U l cs :
  (0 < c < 2 ^ 31)%Z -> (Z.of_nat (size U) < c)%Z -> recent k v U l ->
  Forall (fun x => key_of x <> k /\ key_of x ∈ U) cs -> recent k v U (snd (spec_calls c l cs)).
Proof.
  intros Hc HU Hr Hcs. revert l Hr. induction Hcs as [|x cs [Hne Hin] _ IH]; intros l Hr; [done|].
  destruct x as [k' v'|k']; cbn [spec_calls key_of] in *.
  - apply IH. by apply recent_put.
  - pose proof (recent_get k v U l k' Hr Hne Hin) as Hr'. destruct (spec_get l k') as [r l']. cbn in Hr'.
    specialize (IH l' Hr'). by destruct (spec_calls c l' cs).
Qed.

Lemma spec_calls_app c l cs1 cs2 :
  spec_calls c l (cs1 ++ cs2) =
  let '(rs1, l1) := spec_calls c l cs1 in let '(rs2, l2) := spec_calls c l1 cs2 in (rs1 ++ rs2, l2).
Proof.
  revert l. induction cs1 as [|[k v|k] cs1 IH]; intros l; cbn [app spec_calls].
  - by destruct (spec_calls c l cs2).
  - apply IH.
  - destruct (spec_get l k) as [r l']. rewrite IH. destruct (spec_calls c l' cs1) as [rs1 l1].
    by destruct (spec_calls c l1 cs2).
Qed.

(** ** Properties *)

(** C17: the cache is the association list it should be: for any capacity and
    any sequence of calls no dangling iterator is used, every [get] answers like
    the list of entries ordered by last use, the entries are that list, and a
    non-negative capacity bounds their number. *)
Theorem lru_refines capacity cs :
  exists rs c, run_calls (new_cache capacity) cs = Some (rs, c) /\
    (rs, entries c) = spec_calls capacity [] cs /\
    ((0 <= capacity < 2 ^ 31)%Z -> (Z.of_nat (length (entries c)) <= capacity)%Z).
Proof.
  destruct (run_calls_ok (new_cache capacity) cs (new_cache_ok capacity)) as (rs & c & Hr & _ & Heq).
  cbn in Heq. exists rs, c. split; [done|]. split; [done|]. intros Hc.
  change (entries c) with (snd (rs, entries c)). rewrite Heq. apply spec_calls_length; [done|cbn; lia].
Qed.

(** What was used recently is still there: after [put(k, v)], as long as
    the other keys used since are fewer than the capacity and [k] itself is not
    touched, [get(k)] finds [v], whatever happened before. *)
Theorem lru_keeps_recent capacity before k v since rs c :
  (0 < capacity < 2 ^ 31)%Z ->
  Forall (fun x => key_of x <> k) since ->
  (Z.of_nat (size (list_to_set (key_of <$> since) : gset Z)) < capacity)%Z ->
  run_calls (new_cache capacity) (before ++ Put k v :: since ++ [Get k]) = Some (rs, c) ->
  last rs = Some (Some v).
Proof.
  intros Hc Hne HU Hr. destruct (run_calls_ok _ (before ++ Put k v :: since ++ [Get k]) (new_cache_ok capacity))
    as (rs' & c' & Hr' & _ & Heq). rewrite Hr in Hr'. injection Hr' as <- <-. cbn [cap new_cache] in Heq.
  rewrite spec_calls_app in Heq. destruct (spec_calls capacity _ before) as [rs1 l1].
  cbn [spec_calls] in Heq. rewrite spec_calls_app in Heq.
  set (U := list_to_set (key_of <$> since) : gset Z) in *.
  assert (recent k v U (spec_put capacity l1 k v)) as Hrec.
  { unfold spec_put. assert (size_t capacity = capacity) as -> by (unfold size_t; apply Z.mod_small; lia).
    destruct (Z.ltb_spec capacity (Z.of_nat (length ((k, v) :: without k l1)))) as [Hover|]; [|apply recent_head].
    destruct (without k l1) as [|x w]; [cbn in Hover; lia|apply recent_head]. }
  pose proof (recent_calls capacity k v U _ since Hc HU Hrec) as Hlast.
  destruct (spec_calls capacity (spec_put capacity l1 k v) since) as [rs2 l2].
  cbn [snd] in Hlast. cbn [spec_calls] in Heq. unfold spec_get in Heq. rewrite (recent_find k v U) in Heq.
  - injection Heq as -> _. by rewrite app_assoc, last_snoc.
  - apply Hlast. apply Forall_forall. intros x Hx. rewrite Forall_forall in Hne. split; [by apply Hne|].
    apply elem_of_list_to_set, list_elem_of_fmap. by exists x.
Qed.

(** The program's own test: capacity two. *)
Theorem lru_keeps_recent_witness :
  exists rs c, run_calls (new_cache 2) ([Put 1 1; Put 2 2; Get 1] ++ Put 3 3 :: [Get 2; Get 2] ++ [Get 3]) = Some (rs, c) /\
    last rs = Some (Some 3%Z).
Proof.
  destruct (run_calls (new_cache 2) ([Put 1 1; Put 2 2; Get 1] ++ Put 3 3 :: [Get 2; Get 2] ++ [Get 3])) as [[rs c]|] eqn:Hr;
    [|vm_compute in Hr; discriminate].
  exists rs, c. split; [reflexivity|].
  refine (lru_keeps_recent 2 [Put 1 1; Put 2 2; Get 1] 3 3 [Get 2; Get 2] rs c _ _ _ Hr).
  - lia.
  - repeat constructor; cbn; lia.
  - vm_compute. reflexivity.
Defined.

Example test_answers : fst <$> run_calls (new_cache 2) test_calls = Some [Some 1; None; None; Some 3; Some 4]%Z.
Proof. vm_compute. reflexivity. Qed.
