(* ===== verification/SmartPointers.v ===== *)
(** * SmartPointers: counted pointers, unique pointers, singletons

    Models [c++11/01.smartPointer.cpp] and [02.*.cpp] on a machine for
    [std::shared_ptr], [std::weak_ptr] and [std::unique_ptr], and the singletons of
    [Singleton/] and [ad_system/common/singleton.h] with threads that call them.

    The machine of the counted pointers has numbered variables and objects; an
    object counts the pointers to it and may own another through a member. The
    programs are lists of commands, in the order of their statements; the end of a
    scope resets its variables, the last declared first. *)
From S2P Require Import Prelude.

(** ** Counted pointers *)

(** An object with its control block; when the count is 0 the object is destroyed. *)
Record object := Object { use_count : nat; value : Z; owns : option nat }.

(** The variables that are [shared_ptr] and those that are [weak_ptr]; null pointers
    are [None]. What is printed is numbers and, for [None], that a pointer is invalid. *)
Record memory := Memory { objects : list object; shared : list (option nat); weak : list (option nat); shown : list (option Z) }.

Definition new_memory (n m : nat) : memory := Memory [] (replicate n None) (replicate m None) [].

(** One pointer more to an object that is not destroyed. *)
Definition retain (o : nat) (objs : list object) : option (list object) :=
  c ← objs !! o; if decide (use_count c = 0) then None else Some (<[o := Object (S (use_count c)) (value c) (owns c)]> objs).

(** One pointer less; the last one destroys the object and then the pointer that is
    its member. *)
Fixpoint release (fuel : nat) (o : nat) (objs : list object) : option (list object) :=
  match fuel with
  | O => None
  | S fuel' =>
      c ← objs !! o;
      match use_count c with
      | O => None
      | S O =>
          let objs' := <[o := Object 0 (value c) None]> objs in
          match owns c with None => Some objs' | Some o' => release fuel' o' objs' end
      | S n => Some (<[o := Object n (value c) (owns c)]> objs)
      end
  end.

Definition retain_ptr (p : option nat) (objs : list object) : option (list object) :=
  match p with None => Some objs | Some o => retain o objs end.
Definition release_ptr (p : option nat) (objs : list object) : option (list object) :=
  match p with None => Some objs | Some o => release (S (length objs)) o objs end.

(** [x = p]: the new object is counted, then the old one released. *)
Definition assign (x : nat) (p : option nat) (m : memory) : option memory :=
  old ← shared m !! x;
  objs ← retain_ptr p (objects m);
  objs ← release_ptr old objs;
  Some (Memory objs (<[x := p]> (shared m)) (weak m) (shown m)).

Definition count_of (p : option nat) (m : memory) : nat := default 0 (o ← p; use_count <$> objects m !! o).

Inductive command :=
  | make (x : nat) (v : Z)            (* shared_ptr x(new T(v)) *)
  | copy (x y : nat)                  (* shared_ptr x = y *)
  | reset (x : nat)                   (* x.reset(), the end of the life of x *)
  | observe (w x : nat)               (* weak_ptr w = x *)
  | lock (x w : nat)                  (* shared_ptr x = w.lock() *)
  | set_member (x y : nat)            (* x->member = y, a shared_ptr *)
  | show_value (x : nat)
  | show_still (x : nat)              (* if (x != nullptr) the value else "pointer is invalid" *)
  | show_count (x : nat)
  | show_weak_count (w : nat).

Definition show (z : option Z) (m : memory) : memory := Memory (objects m) (shared m) (weak m) (shown m ++ [z]).

(** [None]: the command is undefined, as with a null pointer, or its variable does not
    exist. *)
Definition exec (c : command) (m : memory) : option memory :=
  match c with
  | make x v =>
      old ← shared m !! x;
      objs ← release_ptr old (objects m ++ [Object 1 v None]);
      Some (Memory objs (<[x := Some (length (objects m))]> (shared m)) (weak m) (shown m))
  | copy x y => p ← shared m !! y; assign x p m
  | reset x => assign x None m
  | observe w x => p ← shared m !! x; _ ← weak m !! w; Some (Memory (objects m) (shared m) (<[w := p]> (weak m)) (shown m))
  | lock x w => p ← weak m !! w; assign x (if (count_of p m =? 0)%nat then None else p) m
  | set_member x y =>
      px ← shared m !! x; o ← px; py ← shared m !! y;
      objs ← retain_ptr py (objects m);
      c ← objs !! o;
      objs ← release_ptr (owns c) (<[o := Object (use_count c) (value c) py]> objs);
      Some (Memory objs (shared m) (weak m) (shown m))
  | show_value x => p ← shared m !! x; o ← p; c ← objects m !! o; if decide (use_count c = 0) then None else Some (show (Some (value c)) m)
  | show_still x =>
      p ← shared m !! x;
      match p with
      | Some o => c ← objects m !! o; if decide (use_count c = 0) then None else Some (show (Some (value c)) m)
      | None => Some (show None m)
      end
  | show_count x => p ← shared m !! x; Some (show (Some (Z.of_nat (count_of p m))) m)
  | show_weak_count w => p ← weak m !! w; Some (show (Some (Z.of_nat (count_of p m))) m)
  end.

Fixpoint exec_all (cs : list command) (m : memory) : option memory :=
  match cs with [] => Some m | c :: cs' => m' ← exec c m; exec_all cs' m' end.

(** *** The programs *)

(** [sp1], [sp2]. *)
Definition test_shared_ptr : list command :=
  [make 0 22; copy 1 0; show_count 1; show_value 0; show_value 1; reset 0; show_count 1; show_value 1; reset 1; reset 0].

(** [check]: the local [sp] is variable 2. *)
Definition check : list command := [lock 2 0; show_still 2; reset 2].
Definition test_weak_ptr : list command :=
  [make 0 22; copy 1 0; observe 0 0; show_weak_count 0; show_value 0; show_value 1] ++ check ++
  [reset 0; show_weak_count 0; show_value 1] ++ check ++ [reset 1; show_weak_count 0] ++ check ++ [reset 1; reset 0].

(** [p], [c] and the parameters of [setChild] and [setPartent], 2; [wpp], [wpc] and the
    weak member of the parent, 2. As in the line commented out, this member may be
    shared. *)
Definition parent_and_child (shared_member : bool) : list command :=
  [make 0 0; make 1 0; show_count 0; show_count 1] ++
  copy 2 1 :: (if shared_member then set_member 0 2 else observe 2 2) :: [reset 2; show_count 0; show_count 1] ++
  [copy 2 0; set_member 1 2; reset 2] ++
  [observe 0 0; observe 1 1; show_count 0; show_count 1; reset 1; reset 0; show_weak_count 0; show_weak_count 1].

(** ** Theorems *)

Definition points (o : nat) (p : option nat) : nat := if decide (p = Some o) then 1 else 0.
Definition from_variables (o : nat) (vs : list (option nat)) : nat := sum_list (points o <$> vs).
Definition from_members (o : nat) (objs : list object) : nat := sum_list ((fun c => points o (owns c)) <$> objs).

(** The counts are right, but for a pointer that is being released. *)
Record counted (vs : list (option nat)) (objs : list object) (pending : option nat) : Prop := {
  c_exact : forall o c, objs !! o = Some c -> use_count c = from_variables o vs + from_members o objs + points o pending;
  c_dead : forall o c, objs !! o = Some c -> use_count c = 0 -> owns c = None;
  c_variables : forall x o, vs !! x = Some (Some o) -> o < length objs;
  c_members : forall p c o, objs !! p = Some c -> owns c = Some o -> o < length objs;
  c_pending : forall o, pending = Some o -> o < length objs }.

Lemma from_members_move o i c c' objs : objs !! i = Some c ->
  from_members o (<[i := c']> objs) + points o (owns c) = from_members o objs + points o (owns c').
Proof. intros Hi. apply (weight_insert (fun c => points o (owns c)) objs i c c' Hi). Qed.

Lemma from_members_same o i c c' objs : objs !! i = Some c -> owns c' = owns c -> from_members o (<[i := c']> objs) = from_members o objs.
Proof. intros Hi Ho. pose proof (from_members_move o i c c' objs Hi) as H. rewrite Ho in H. lia. Qed.

Definition live (c : object) : nat := match use_count c with 0 => 0 | _ => 1 end.
Definition alive (objs : list object) : nat := sum_list (live <$> objs).

Lemma points_self o : points o (Some o) = 1.
Proof. unfold points. by rewrite decide_True. Qed.
Lemma points_other o o' : o <> o' -> points o (Some o') = 0.
Proof. intros H. unfold points. rewrite decide_False; congruence. Qed.

(** Releasing a pointer is defined and keeps the counts right. *)
Lemma release_counted fuel o vs objs :
  counted vs objs (Some o) -> alive objs < fuel ->
  exists objs', release fuel o objs = Some objs' /\ counted vs objs' None /\ length objs' = length objs.
Proof.
  revert o objs. induction fuel as [|fuel IH]; intros o objs Hc Hf; [lia|]. cbn [release].
  destruct (lookup_lt_is_Some_2 objs o (c_pending _ _ _ Hc o eq_refl)) as [c Ho]. rewrite Ho. cbn [mbind option_bind].
  pose proof (c_exact _ _ _ Hc o c Ho) as Hn. rewrite points_self in Hn.
  destruct (use_count c) as [|[|n]] eqn:Hu; [lia| |].
  - set (c' := Object 0 (value c) None).
    assert (Hc' : counted vs (<[o := c']> objs) (owns c)).
    { constructor.
      - intros o2 c2 [(<- & <- & _)|[Hne H2]]%list_lookup_insert_Some.
        + pose proof (from_members_move o o c c' objs Ho) as Hm. cbn in Hm |- *. change (points o None) with 0 in Hm. lia.
        + pose proof (c_exact _ _ _ Hc o2 c2 H2) as He. rewrite points_other in He by done.
          pose proof (from_members_move o2 o c c' objs Ho) as Hm. cbn in Hm. change (points o2 None) with 0 in Hm. lia.
      - intros o2 c2 [(<- & <- & _)|[Hne H2]]%list_lookup_insert_Some; [done|]. by apply (c_dead _ _ _ Hc o2).
      - intros x o2 Hx. rewrite length_insert. by apply (c_variables _ _ _ Hc x).
      - intros p c2 o2 [(<- & <- & _)|[Hne H2]]%list_lookup_insert_Some; [done|]. rewrite length_insert. by apply (c_members _ _ _ Hc p c2).
      - intros o2 Ho2. rewrite length_insert. by apply (c_members _ _ _ Hc o c). }
    assert (Ha : alive (<[o := c']> objs) < fuel).
    { pose proof (weight_insert live objs o c c' Ho) as Hm. assert (H1 : live c = 1) by (unfold live; by rewrite Hu). rewrite H1 in Hm. unfold alive in *. change (live c') with 0 in Hm. lia. }
    destruct (owns c) as [o'|] eqn:Hown.
    + destruct (IH o' _ Hc' Ha) as (objs' & Hr & Hok & Hl). exists objs'. rewrite length_insert in Hl. done.
    + eexists. split; [done|]. split; [done|apply length_insert].
  - eexists. split; [done|]. split; [|apply length_insert]. constructor.
    + intros o2 c2 H2. rewrite (from_members_same _ _ c) by done. apply list_lookup_insert_Some in H2 as [(<- & <- & _)|[Hne H2]]; cbn.
      * change (points o None) with 0. lia.
      * rewrite (c_exact _ _ _ Hc o2 c2 H2), points_other by done. done.
    + intros o2 c2 [(<- & <- & _)|[Hne H2]]%list_lookup_insert_Some; [done|]. by apply (c_dead _ _ _ Hc o2).
    + intros x o2 Hx. rewrite length_insert. by apply (c_variables _ _ _ Hc x).
    + intros p c2 o2 H2 Hown. rewrite length_insert. apply list_lookup_insert_Some in H2 as [(<- & <- & _)|[Hne H2]]; by eapply (c_members _ _ _ Hc).
    + done.
Qed.

Lemma release_ptr_counted vs objs p :
  counted vs objs p -> exists objs', release_ptr p objs = Some objs' /\ counted vs objs' None /\ length objs' = length objs.
Proof.
  intros Hc. destruct p as [o|]; [|by exists objs]. apply (release_counted (S (length objs)) o vs objs Hc).
  pose proof (weight_bound live 1 objs) as Hb. unfold alive. assert (forall c, live c <= 1) by (intros c; unfold live; destruct (use_count c); lia). specialize (Hb H). lia.
Qed.

(** A pointer that can be copied: null, or to an object that is not destroyed. *)
Definition valid (objs : list object) (p : option nat) : Prop := forall o, p = Some o -> exists c, objs !! o = Some c /\ use_count c <> 0.

Lemma variable_valid vs objs q x p : counted vs objs q -> vs !! x = Some p -> valid objs p.
Proof.
  intros Hc Hx o ->. destruct (lookup_lt_is_Some_2 objs o (c_variables _ _ _ Hc x o Hx)) as [c Ho]. exists c. split; [done|].
  rewrite (c_exact _ _ _ Hc o c Ho). pose proof (weight_insert (points o) vs x (Some o) None Hx) as Hm. rewrite points_self in Hm.
  change (points o None) with 0 in Hm. unfold from_variables. lia.
Qed.

(** After a retain there is one pointer more, which is stored next. *)
Lemma retain_ptr_spec objs p : valid objs p -> exists objs', retain_ptr p objs = Some objs' /\ length objs' = length objs /\
  forall o, objs' !! o = (fun c => Object (use_count c + points o p) (value c) (owns c)) <$> objs !! o.
Proof.
  intros Hv. destruct p as [o|]; cbn [retain_ptr].
  - destruct (Hv o eq_refl) as (c & Ho & Hn). unfold retain. rewrite Ho. cbn. rewrite decide_False by done. eexists. split; [done|]. split; [apply length_insert|].
    intros o2. destruct (decide (o2 = o)) as [->|Hne].
    + rewrite list_lookup_insert_eq, Ho, points_self by by eapply lookup_lt_Some. cbn. f_equal. f_equal. lia.
    + rewrite list_lookup_insert_ne, points_other by done. destruct (objs !! o2) as [[u v w]|]; [|done]. cbn. by rewrite Nat.add_0_r.
  - exists objs. split; [done|]. split; [done|]. intros o. destruct (objs !! o) as [[u v w]|]; [|done]. cbn. change (points o None) with 0. by rewrite Nat.add_0_r.
Qed.

Lemma from_members_ext o objs objs' : (forall i, owns <$> objs' !! i = owns <$> objs !! i) -> from_members o objs' = from_members o objs.
Proof.
  intros H. unfold from_members. assert (Heq : owns <$> objs' = owns <$> objs) by (apply list_eq; intros i; by rewrite !list_lookup_fmap).
  assert (Hm : forall l : list object, (fun c => points o (owns c)) <$> l = points o <$> (owns <$> l)) by (intros l; by rewrite <- list_fmap_compose).
  by rewrite !Hm, Heq.
Qed.

Lemma retain_store vs objs p x old : counted vs objs None -> valid objs p -> vs !! x = Some old ->
  exists objs', retain_ptr p objs = Some objs' /\ length objs' = length objs /\ counted (<[x := p]> vs) objs' old.
Proof.
  intros Hc Hv Hx. destruct (retain_ptr_spec objs p Hv) as (objs' & Hr & Hl & Hobjs). exists objs'. split; [done|]. split; [done|].
  assert (Hmem : forall o, from_members o objs' = from_members o objs).
  { intros o. apply from_members_ext. intros i. rewrite Hobjs. by destruct (objs !! i). }
  constructor.
  - intros o c Ho. rewrite Hobjs in Ho. apply fmap_Some in Ho as (c0 & Ho & ->). cbn. rewrite (c_exact _ _ _ Hc o c0 Ho), Hmem.
    pose proof (weight_insert (points o) vs x old p Hx) as Hm. change (points o None) with 0. unfold from_variables. lia.
  - intros o c Ho. rewrite Hobjs in Ho. apply fmap_Some in Ho as (c0 & Ho & ->). cbn. intros Hz. apply (c_dead _ _ _ Hc o c0 Ho). lia.
  - intros y o [(-> & -> & _)|[Hne Hy]]%list_lookup_insert_Some; rewrite Hl; [|by apply (c_variables _ _ _ Hc y)].
    destruct (Hv o eq_refl) as (c & Ho & _). by eapply lookup_lt_Some.
  - intros q c o Hq. rewrite Hobjs in Hq. apply fmap_Some in Hq as (c0 & Hq & ->). cbn. rewrite Hl. by apply (c_members _ _ _ Hc q c0).
  - intros o ->. rewrite Hl. by apply (c_variables _ _ _ Hc x).
Qed.

Lemma no_pointer {A} (f : A -> nat) l : (forall a, a ∈ l -> f a = 0) -> sum_list (f <$> l) = 0.
Proof.
  induction l as [|a l IH]; intros H; [done|]. rewrite fmap_cons. cbn. rewrite (H a) by by left. apply IH. intros b Hb. apply H. by right.
Qed.

Lemma points_zero o p : p <> Some o -> points o p = 0.
Proof. intros H. unfold points. by rewrite decide_False. Qed.

Lemma make_counted vs objs x old v : counted vs objs None -> vs !! x = Some old ->
  counted (<[x := Some (length objs)]> vs) (objs ++ [Object 1 v None]) old.
Proof.
  intros Hc Hx. set (n := length objs).
  assert (Hv : from_variables n vs = 0).
  { apply no_pointer. intros p [y Hy]%list_elem_of_lookup. apply points_zero. intros ->. pose proof (c_variables _ _ _ Hc y n Hy). unfold n in *. lia. }
  assert (Hm : from_members n objs = 0).
  { apply no_pointer. intros c [y Hy]%list_elem_of_lookup. apply points_zero. intros Ho. pose proof (c_members _ _ _ Hc y c n Hy Ho). unfold n in *. lia. }
  assert (Hold : points n old = 0).
  { apply points_zero. intros ->. pose proof (c_variables _ _ _ Hc x n Hx). unfold n in *. lia. }
  assert (Happ : forall o, from_members o (objs ++ [Object 1 v None]) = from_members o objs).
  { intros o. unfold from_members. clear. induction objs as [|c objs IH]; [done|]. cbn in *. by rewrite IH. }
  constructor.
  - intros o c Ho. rewrite Happ. pose proof (weight_insert (points o) vs x old (Some n) Hx) as Hw. unfold from_variables in *.
    apply lookup_app_Some in Ho as [Ho|[Hge Ho]].
    + pose proof (c_exact _ _ _ Hc o c Ho) as He. change (points o None) with 0 in He. unfold from_variables in He.
      rewrite (points_other o n) in Hw by (apply lookup_lt_Some in Ho; unfold n; lia). lia.
    + apply list_lookup_singleton_Some in Ho as [Ho <-]. assert (o = n) as -> by (unfold n; lia). cbn. rewrite points_self in Hw. lia.
  - intros o c [Ho|[_ Ho]]%lookup_app_Some; [by apply (c_dead _ _ _ Hc o)|]. by apply list_lookup_singleton_Some in Ho as [_ <-].
  - intros y o Hy. rewrite length_app. cbn. apply list_lookup_insert_Some in Hy as [(_ & Heq & _)|[_ Hy]]; [injection Heq as Heq; unfold n in *; lia|].
    pose proof (c_variables _ _ _ Hc y o Hy). lia.
  - intros p c o [Hp|[_ Hp]]%lookup_app_Some Ho; rewrite length_app; cbn.
    + pose proof (c_members _ _ _ Hc p c o Hp Ho). lia.
    + by apply list_lookup_singleton_Some in Hp as [_ <-].
  - intros o ->. rewrite length_app. cbn. pose proof (c_variables _ _ _ Hc x o Hx). lia.
Qed.

Lemma set_member_counted vs objs p o c : counted vs objs None -> valid objs p -> objs !! o = Some c -> use_count c <> 0 ->
  exists objs' c', retain_ptr p objs = Some objs' /\ objs' !! o = Some c' /\ length objs' = length objs /\
    counted vs (<[o := Object (use_count c') (value c') p]> objs') (owns c').
Proof.
  intros Hc Hv Ho Hn. destruct (retain_ptr_spec objs p Hv) as (objs' & Hr & Hl & Hobjs).
  set (c' := Object (use_count c + points o p) (value c) (owns c)). assert (Ho' : objs' !! o = Some c') by by rewrite Hobjs, Ho.
  assert (Hmem : forall o, from_members o objs' = from_members o objs).
  { intros o2. apply from_members_ext. intros i. rewrite Hobjs. by destruct (objs !! i). }
  assert (Hinv : forall o2 c2, objs' !! o2 = Some c2 -> exists c1, objs !! o2 = Some c1 /\ c2 = Object (use_count c1 + points o2 p) (value c1) (owns c1)).
  { intros o2 c2 H2. rewrite Hobjs in H2. apply fmap_Some in H2 as (c1 & H1 & ->). by exists c1. }
  exists objs', c'. split_and!; [done..|]. constructor.
  - intros o2 c2 H2. pose proof (from_members_move o2 o c' (Object (use_count c') (value c') p) objs' Ho') as Hm. cbn [owns] in *. rewrite Hmem in Hm.
    revert Hm. generalize (from_members o2 (<[o := Object (use_count c') (value c') p]> objs')). intros members Hm.
    apply list_lookup_insert_Some in H2 as [(<- & <- & _)|[Hne H2]].
    + pose proof (c_exact _ _ _ Hc o c Ho) as He. change (points o None) with 0 in He. unfold c' in *. cbn [use_count owns] in *. lia.
    + destruct (Hinv o2 c2 H2) as (c1 & H1 & ->). pose proof (c_exact _ _ _ Hc o2 c1 H1) as He. change (points o2 None) with 0 in He. unfold c' in *. cbn [use_count owns] in *. lia.
  - intros o2 c2 [(<- & <- & _)|[Hne H2]]%list_lookup_insert_Some; cbn; [lia|]. destruct (Hinv o2 c2 H2) as (c1 & H1 & ->). cbn. intros Hz. apply (c_dead _ _ _ Hc o2 c1 H1). lia.
  - intros y o2 Hy. rewrite length_insert, Hl. by apply (c_variables _ _ _ Hc y).
  - intros q c2 o2 H2 Ho2. rewrite length_insert, Hl. apply list_lookup_insert_Some in H2 as [(<- & <- & _)|[Hne H2]].
    + cbn in Ho2. destruct (Hv o2 Ho2) as (? & ? & _). by eapply lookup_lt_Some.
    + destruct (Hinv q c2 H2) as (c1 & H1 & ->). by apply (c_members _ _ _ Hc q c1).
  - intros o2 Ho2. rewrite length_insert, Hl. by apply (c_members _ _ _ Hc o c).
Qed.

Definition memory_ok (m : memory) : Prop :=
  counted (shared m) (objects m) None /\ forall w o, weak m !! w = Some (Some o) -> o < length (objects m).

Lemma assign_ok x p m : memory_ok m -> x < length (shared m) -> valid (objects m) p ->
  exists m', assign x p m = Some m' /\ memory_ok m' /\ length (shared m') = length (shared m) /\ weak m' = weak m.
Proof.
  intros [Hc Hw] [old Hx]%lookup_lt_is_Some_2 Hv. unfold assign. rewrite Hx. cbn [mbind option_bind].
  destruct (retain_store _ _ p x old Hc Hv Hx) as (objs1 & -> & Hl1 & Hc1). cbn [mbind option_bind].
  destruct (release_ptr_counted _ _ _ Hc1) as (objs2 & -> & Hc2 & Hl2). cbn [mbind option_bind]. eexists. split; [done|]. split; [split|].
  - done.
  - cbn. intros w o Ho. rewrite Hl2, Hl1. by apply (Hw w).
  - split; [apply length_insert|done].
Qed.

(** What a command needs: its variables exist, and those it follows are not null. *)
Definition is_shared (m : memory) (x : nat) : Prop := x < length (shared m).
Definition is_weak (m : memory) (w : nat) : Prop := w < length (weak m).
Definition not_null (m : memory) (x : nat) : Prop := exists o, shared m !! x = Some (Some o).
Definition allowed (c : command) (m : memory) : Prop :=
  match c with
  | make x _ | reset x | show_count x => is_shared m x
  | copy x y => is_shared m x /\ is_shared m y
  | observe w x => is_weak m w /\ is_shared m x
  | lock x w => is_shared m x /\ is_weak m w
  | set_member x y => not_null m x /\ is_shared m y
  | show_value x => not_null m x
  | show_still x => is_shared m x
  | show_weak_count w => is_weak m w
  end.

Lemma lock_valid m w p : memory_ok m -> weak m !! w = Some p -> valid (objects m) (if (count_of p m =? 0)%nat then None else p).
Proof.
  intros [_ Hw] Hp o. destruct (Nat.eqb_spec (count_of p m) 0) as [|Hn]; [done|]. intros ->.
  destruct (lookup_lt_is_Some_2 (objects m) o (Hw w o Hp)) as [c Ho]. exists c. split; [done|]. unfold count_of in Hn. cbn in Hn. by rewrite Ho in Hn.
Qed.

Lemma exec_ok c m : memory_ok m -> allowed c m -> exists m', exec c m = Some m' /\ memory_ok m'.
Proof.
  intros Hm Ha. pose proof Hm as [Hc Hw].
  assert (Hget : forall x, is_shared m x -> exists p, shared m !! x = Some p /\ valid (objects m) p).
  { intros x [p Hx]%lookup_lt_is_Some_2. exists p. split; [done|]. by apply (variable_valid (shared m) (objects m) None x). }
  assert (Hnull : forall x, not_null m x -> exists o c, shared m !! x = Some (Some o) /\ objects m !! o = Some c /\ use_count c <> 0).
  { intros x [o Hx]. destruct (variable_valid _ _ _ _ _ Hc Hx o eq_refl) as (c0 & Ho & Hn). by exists o, c0. }
  destruct c as [x v|x y|x|w x|x w|x y|x|x|x|w]; cbn [allowed exec] in *.
  - destruct (Hget x Ha) as (old & Hx & _). rewrite Hx. cbn [mbind option_bind].
    destruct (release_ptr_counted _ _ _ (make_counted _ _ x old v Hc Hx)) as (objs' & -> & Hc' & Hl). cbn [mbind option_bind]. eexists. split; [done|]. split; [done|].
    cbn. intros w o Ho. rewrite Hl, length_app. pose proof (Hw w o Ho). lia.
  - destruct Ha as [Hx Hy]. destruct (Hget y Hy) as (p & -> & Hv). cbn [mbind option_bind]. destruct (assign_ok x p m Hm Hx Hv) as (m' & ? & ? & _). by exists m'.
  - destruct (assign_ok x None m Hm Ha ltac:(by intros o)) as (m' & ? & ? & _). by exists m'.
  - destruct Ha as [Hx Hy]. destruct (Hget x Hy) as (p & Hp & Hv). rewrite Hp. destruct (lookup_lt_is_Some_2 _ _ Hx) as [q Hq]. rewrite Hq. cbn.
    eexists. split; [done|]. split; [done|]. cbn. intros w' o [(-> & -> & _)|[_ Ho]]%list_lookup_insert_Some; [|by apply (Hw w')]. destruct (Hv o eq_refl) as (c & Ho & _). by eapply lookup_lt_Some.
  - destruct Ha as [Hx Hy]. destruct (lookup_lt_is_Some_2 _ _ Hy) as [p Hp]. rewrite Hp. cbn [mbind option_bind].
    destruct (assign_ok x _ m Hm Hx (lock_valid m w p Hm Hp)) as (m' & ? & ? & _). by exists m'.
  - destruct Ha as [Hx Hy]. destruct (Hnull x Hx) as (o & c & -> & Ho & Hn). destruct (Hget y Hy) as (p & -> & Hv). cbn [mbind option_bind].
    destruct (set_member_counted _ _ p o c Hc Hv Ho Hn) as (objs1 & c1 & -> & Ho1 & Hl1 & Hc1). cbn [mbind option_bind]. rewrite Ho1. cbn [mbind option_bind].
    destruct (release_ptr_counted _ _ _ Hc1) as (objs2 & -> & Hc2 & Hl2). cbn [mbind option_bind]. eexists. split; [done|]. split; [done|].
    cbn. intros w' o' Ho'. rewrite Hl2, length_insert, Hl1. by apply (Hw w').
  - destruct (Hnull x Ha) as (o & c & -> & Ho & Hn). cbn. rewrite Ho. cbn. rewrite decide_False by done. by eexists.
  - destruct (Hget x Ha) as (p & -> & Hv). cbn. destruct p as [o|]; [|by eexists]. destruct (Hv o eq_refl) as (c & Ho & Hn). rewrite Ho. cbn.
    rewrite decide_False by done. by eexists.
  - destruct (Hget x Ha) as (p & -> & _). cbn. by eexists.
  - destruct (lookup_lt_is_Some_2 _ _ Ha) as [p Hp]. rewrite Hp. cbn. by eexists.
Qed.

Lemma exec_allowed c m m' : exec c m = Some m' -> allowed c m.
Proof.
  assert (Ha : forall x p m'', assign x p m = Some m'' -> is_shared m x).
  { intros x p m''. unfold assign. destruct (shared m !! x) eqn:Hx; [|done]. intros _. by eapply lookup_lt_Some. }
  destruct c as [x v|x y|x|w x|w x|x y|x|x|x|w]; cbn [exec allowed]; unfold is_shared, is_weak, not_null in *.
  - destruct (shared m !! x) eqn:Hx; [|done]. intros _. by eapply lookup_lt_Some.
  - destruct (shared m !! y) as [p|] eqn:Hy; [|done]. cbn. intros H. split; [by eapply Ha|by eapply lookup_lt_Some].
  - apply Ha.
  - destruct (shared m !! x) as [p|] eqn:Hx; [|done]. cbn. destruct (weak m !! w) as [q|] eqn:Hw; [|done]. intros _. split; by eapply lookup_lt_Some.
  - destruct (weak m !! x) as [p|] eqn:Hx; [|done]. cbn. intros H. split; [by eapply Ha|by eapply lookup_lt_Some].
  - destruct (shared m !! x) as [[o|]|] eqn:Hx; [|done..]. cbn. destruct (shared m !! y) as [p|] eqn:Hy; [|done]. intros _.
    split; [by exists o|by eapply lookup_lt_Some].
  - destruct (shared m !! x) as [[o|]|] eqn:Hx; [|done..]. intros _. by exists o.
  - destruct (shared m !! x) eqn:Hx; [|done]. intros _. by eapply lookup_lt_Some.
  - destruct (shared m !! x) eqn:Hx; [|done]. intros _. by eapply lookup_lt_Some.
  - destruct (weak m !! w) eqn:Hx; [|done]. intros _. by eapply lookup_lt_Some.
Qed.

Lemma new_memory_ok n k : memory_ok (new_memory n k).
Proof.
  split; [constructor|]; cbn; try done.
  - by intros x o [? _]%lookup_replicate.
  - by intros w o [? _]%lookup_replicate.
Qed.

Lemma exec_all_ok cs m m' : memory_ok m -> exec_all cs m = Some m' -> memory_ok m'.
Proof.
  revert m. induction cs as [|c cs IH]; intros m Hm; cbn; [by intros [= <-]|]. destruct (exec c m) as [m1|] eqn:Hc; [|done]. cbn. apply IH.
  destruct (exec_ok c m Hm (exec_allowed c m m1 Hc)) as (m2 & Heq & Hok). rewrite Hc in Heq. by injection Heq as <-.
Qed.

(** No object owns itself through others. *)
Definition acyclic (objs : list object) : Prop := exists rank : nat -> nat, forall p c o, objs !! p = Some c -> owns c = Some o -> rank p < rank o.

Lemma member_exists o objs : from_members o objs <> 0 -> exists p c, objs !! p = Some c /\ owns c = Some o.
Proof.
  intros H. destruct (decide (Exists (fun c => owns c = Some o) objs)) as [(c & Hin & Ho)%Exists_exists|Hn].
  - apply list_elem_of_lookup in Hin as [p Hp]. by exists p, c.
  - destruct H. apply no_pointer. intros c Hin. apply points_zero. intros Ho. apply Hn, Exists_exists. by exists c.
Qed.

Lemma no_leak vs objs : counted vs objs None -> Forall (fun p => p = None) vs -> acyclic objs -> Forall (fun c => use_count c = 0) objs.
Proof.
  intros Hc Hv [rank Hrank]. apply Forall_lookup_2. intros o c. remember (rank o) as r eqn:Hr. revert o c Hr.
  induction (lt_wf r) as [r _ IH]. intros o c -> Ho. pose proof (c_exact _ _ _ Hc o c Ho) as He. change (points o None) with 0 in He.
  assert (Hz : from_variables o vs = 0) by (apply no_pointer; intros p Hin; rewrite Forall_forall in Hv; by rewrite (Hv p Hin)).
  destruct (decide (from_members o objs = 0)) as [Hm|Hm]; [lia|]. destruct (member_exists o objs Hm) as (p & c2 & Hp & Hown).
  specialize (IH (rank p) (Hrank p c2 o Hp Hown) p c2 eq_refl Hp). pose proof (c_dead _ _ _ Hc p c2 Hp IH). congruence.
Qed.

(** Programs on counted pointers, whatever they do: each count is the number of
    pointers that hold the object, in variables and in members of objects; no
    pointer dangles; a command that follows no null pointer is defined, so a
    destruction always comes to its end; and when the variables are gone all
    objects are destroyed, unless objects own each other in a circle. *)
Theorem counted_pointers cs n k m :
  exec_all cs (new_memory n k) = Some m ->
  (forall o c, objects m !! o = Some c -> use_count c = from_variables o (shared m) + from_members o (objects m)) /\
  (forall x o, shared m !! x = Some (Some o) -> exists c, objects m !! o = Some c /\ use_count c <> 0) /\
  (forall c, allowed c m -> exists m', exec c m = Some m') /\
  (Forall (fun p => p = None) (shared m) -> acyclic (objects m) -> Forall (fun c => use_count c = 0) (objects m)).
Proof.
  intros Hr. pose proof (exec_all_ok cs _ m (new_memory_ok n k) Hr) as Hm. pose proof Hm as [Hc _]. split_and!.
  - intros o c Ho. pose proof (c_exact _ _ _ Hc o c Ho) as He. change (points o None) with 0 in He. lia.
  - intros x o Hx. by apply (variable_valid _ _ _ _ _ Hc Hx).
  - intros c Ha. destruct (exec_ok c m Hm Ha) as (m' & Hc' & _). by exists m'.
  - by apply no_leak.
Qed.

(** *** What the programs print *)

Definition output_of (n k : nat) (cs : list command) : option (list (option Z) * list nat) :=
  m ← exec_all cs (new_memory n k); Some (shown m, use_count <$> objects m).

Lemma test_shared_ptr_output : output_of 2 0 test_shared_ptr = Some (Some <$> [2; 22; 22; 1; 22]%Z, [0]).
Proof. vm_compute. reflexivity. Qed.

(** As the comments say; the last [check] finds the pointer invalid. *)
Lemma test_weak_ptr_output : output_of 3 1 test_weak_ptr = Some ((Some <$> [2; 22; 22; 22; 1; 22; 22; 0]%Z) ++ [None], [0]).
Proof. vm_compute. reflexivity. Qed.

(** With the weak member both are destroyed; with the shared one neither is. *)
Lemma parent_and_child_output :
  output_of 3 3 (parent_and_child false) = Some (Some <$> [1; 1; 1; 1; 2; 1; 0; 0]%Z, [0; 0]) /\
  output_of 3 3 (parent_and_child true) = Some (Some <$> [1; 1; 1; 2; 2; 2; 1; 1]%Z, [1; 1]).
Proof. split; vm_compute; reflexivity. Qed.

(** ** Unique pointers *)

(** The objects ([None] when freed), the [unique_ptr]s and the plain pointers. *)
Record umemory := UMemory { heap : list (option Z); uniques : list (option nat); raws : list (option nat); ushown : list Z }.
Definition new_umemory (n k : nat) : umemory := UMemory [] (replicate n None) (replicate k None) [].

(** [delete], undefined for an object that is freed. *)
Definition free (p : option nat) (h : list (option Z)) : option (list (option Z)) :=
  match p with None => Some h | Some o => v ← h !! o; match v with Some _ => Some (<[o := None]> h) | None => None end end.

Inductive ucommand :=
  | unew (x : nat) (v : Z)     (* unique_ptr x(new int(v)), x.reset(new int(v)) *)
  | umove (x y : nat)          (* unique_ptr x = move(y) *)
  | ureset (x : nat)           (* x.reset(), x = nullptr, the end of its life *)
  | urelease (r x : nat)       (* r = x.release() *)
  | udelete (r : nat)
  | ushow (x : nat) | ushow_raw (r : nat).

Definition deref (p : option nat) (h : list (option Z)) : option Z := o ← p; v ← h !! o; v.

Definition uexec (c : ucommand) (m : umemory) : option umemory :=
  match c with
  | unew x v =>
      old ← uniques m !! x; h ← free old (heap m ++ [Some v]);
      Some (UMemory h (<[x := Some (length (heap m))]> (uniques m)) (raws m) (ushown m))
  | umove x y =>
      old ← uniques m !! x; p ← uniques m !! y;
      let us := <[x := p]> (<[y := None]> (uniques m)) in
      h ← (if decide (x = y) then Some (heap m) else free old (heap m));
      Some (UMemory h us (raws m) (ushown m))
  | ureset x => old ← uniques m !! x; h ← free old (heap m); Some (UMemory h (<[x := None]> (uniques m)) (raws m) (ushown m))
  | urelease r x => p ← uniques m !! x; _ ← raws m !! r; Some (UMemory (heap m) (<[x := None]> (uniques m)) (<[r := p]> (raws m)) (ushown m))
  | udelete r => p ← raws m !! r; h ← free p (heap m); Some (UMemory h (uniques m) (raws m) (ushown m))
  | ushow x => p ← uniques m !! x; v ← deref p (heap m); Some (UMemory (heap m) (uniques m) (raws m) (ushown m ++ [v]))
  | ushow_raw r => p ← raws m !! r; v ← deref p (heap m); Some (UMemory (heap m) (uniques m) (raws m) (ushown m ++ [v]))
  end.

Fixpoint uexec_all (cs : list ucommand) (m : umemory) : option umemory :=
  match cs with [] => Some m | c :: cs' => m' ← uexec c m; uexec_all cs' m' end.

(** [up1], [up3], [up4], [up5] are 0 to 3; the end of the scope. *)
Definition test_unique_ptr : list ucommand :=
  [unew 0 11; ushow 0; umove 1 0; ushow 1; ureset 1; ureset 0; unew 2 22; unew 2 44; ushow 2; ureset 2;
   unew 3 55; urelease 0 3; ushow_raw 0; udelete 0; ureset 3; ureset 2; ureset 1; ureset 0].

(** Each object has one owner at most, and that owner can be followed. *)
Record owned (m : umemory) : Prop := {
  ow_live : forall x o, uniques m !! x = Some (Some o) -> exists v, heap m !! o = Some (Some v);
  ow_one : forall x y o, uniques m !! x = Some (Some o) -> uniques m !! y = Some (Some o) -> x = y;
  ow_raw : forall x r o, uniques m !! x = Some (Some o) -> raws m !! r = Some (Some o) -> False;
  ow_raws : forall r o, raws m !! r = Some (Some o) -> o < length (heap m) }.

Lemma free_spec p h h' : free p h = Some h' -> length h' = length h /\ forall o, Some o <> p -> h' !! o = h !! o.
Proof.
  destruct p as [o|]; cbn; [|by intros [= <-]]. destruct (h !! o) as [[v|]|]; [|done..]. cbn. intros [= <-].
  split; [apply length_insert|]. intros o' Hne. apply list_lookup_insert_ne. congruence.
Qed.

(** Freeing what a variable owns, once that variable is null. *)
Lemma free_owned x p h h' us rs sh : owned (UMemory h us rs sh) -> us !! x = Some p -> free p h = Some h' -> owned (UMemory h' (<[x := None]> us) rs sh).
Proof.
  intros [H1 H2 H3 H4] Hx Hf. cbn in *. destruct (free_spec _ _ _ Hf) as [Hl Hh]. constructor; cbn.
  - intros y o [(_ & ? & _)|[Hne Hy]]%list_lookup_insert_Some; [done|]. destruct (H1 y o Hy) as [v Hv]. exists v. rewrite Hh; [done|].
    intros <-. by apply Hne, (H2 x y o).
  - intros y z o [(_ & ? & _)|[_ Hy]]%list_lookup_insert_Some; [done|]. intros [(_ & ? & _)|[_ Hz]]%list_lookup_insert_Some; [done|]. by apply (H2 y z o).
  - intros y r o [(_ & ? & _)|[_ Hy]]%list_lookup_insert_Some; [done|]. by apply (H3 y).
  - intros r o Hr. rewrite Hl. by apply (H4 r).
Qed.

(** A null variable takes an object nobody else owns. *)
Lemma take_owned x o v h us rs sh : owned (UMemory h us rs sh) -> us !! x = Some None -> h !! o = Some (Some v) ->
  (forall y, us !! y <> Some (Some o)) -> (forall r, rs !! r <> Some (Some o)) -> owned (UMemory h (<[x := Some o]> us) rs sh).
Proof.
  intros [H1 H2 H3 H4] Hx Ho Hu Hr. cbn in *. constructor; cbn; [| | |done].
  - intros y o' [(_ & [= ->] & _)|[_ Hy]]%list_lookup_insert_Some; [by exists v|by apply (H1 y)].
  - intros y z o' [(-> & [= ->] & _)|[_ Hy]]%list_lookup_insert_Some [(-> & Heq & _)|[_ Hz]]%list_lookup_insert_Some; try done; [by destruct (Hu z)| |by apply (H2 y z o')].
    injection Heq as ->. by destruct (Hu y).
  - intros y r o' [(_ & [= ->] & _)|[_ Hy]]%list_lookup_insert_Some; [apply Hr|by apply (H3 y)].
Qed.

Lemma grow_owned v h us rs sh : owned (UMemory h us rs sh) -> owned (UMemory (h ++ [Some v]) us rs sh).
Proof.
  intros [H1 H2 H3 H4]. cbn in *. constructor; cbn; [|done..|].
  - intros x o Hx. destruct (H1 x o Hx) as [w Hw]. exists w. by apply lookup_app_l_Some.
  - intros r o Hr. rewrite length_app. specialize (H4 r o Hr). lia.
Qed.

Lemma moved_lookup (us : list (option nat)) (x y : nat) (p : option nat) (z o : nat) : x <> y -> us !! y = Some p ->
  <[x := p]> (<[y := None]> us) !! z = Some (Some o) -> z = x /\ p = Some o \/ z <> x /\ z <> y /\ us !! z = Some (Some o).
Proof.
  intros Hne Hy [(<- & -> & _)|[Hz Hl]]%list_lookup_insert_Some; [by left|].
  apply list_lookup_insert_Some in Hl as [(_ & ? & _)|[Hz' Hl]]; [done|]. by right.
Qed.

Lemma move_owned x y p old h h' us rs sh : owned (UMemory h us rs sh) -> x <> y -> us !! x = Some old -> us !! y = Some p -> free old h = Some h' ->
  owned (UMemory h' (<[x := p]> (<[y := None]> us)) rs sh).
Proof.
  intros [H1 H2 H3 H4] Hne Hx Hy Hf. cbn in *. destruct (free_spec _ _ _ Hf) as [Hl Hh]. constructor; cbn.
  - intros z o Hz. destruct (moved_lookup us x y p z o Hne Hy Hz) as [[-> ->]|(Hzx & _ & Hz')].
    + destruct (H1 y o Hy) as [v Hv]. exists v. rewrite Hh; [done|]. intros <-. by destruct (Hne (H2 x y o Hx Hy)).
    + destruct (H1 z o Hz') as [v Hv]. exists v. rewrite Hh; [done|]. intros <-. by destruct (Hzx (H2 z x o Hz' Hx)).
  - intros z w o Hz Hw. destruct (moved_lookup us x y p z o Hne Hy Hz) as [[-> ->]|(Hzx & Hzy & Hz')];
      destruct (moved_lookup _ x y _ w o Hne Hy Hw) as [[-> Hp]|(Hwx & Hwy & Hw')]; try done.
    + by destruct (Hwy (H2 w y o Hw' Hy)).
    + subst p. by destruct (Hzy (H2 z y o Hz' Hy)).
    + by apply (H2 z w o).
  - intros z r o Hz. destruct (moved_lookup us x y p z o Hne Hy Hz) as [[-> ->]|(_ & _ & Hz')]; by eapply H3.
  - intros r o Hr. rewrite Hl. by apply (H4 r).
Qed.

Lemma uexec_owned c m m' : owned m -> uexec c m = Some m' -> owned m'.
Proof.
  destruct m as [h us rs sh]. intros Hm. destruct c as [x v|x y|x|r x|r|x|r]; cbn [uexec heap uniques raws ushown].
  - destruct (us !! x) as [old|] eqn:Hx; [|done]. cbn [mbind option_bind]. destruct (free old (h ++ [Some v])) as [h'|] eqn:Hf; [|done]. intros [= <-].
    pose proof (free_owned x old _ h' us rs sh (grow_owned v _ _ _ _ Hm) Hx Hf) as H1. destruct (free_spec _ _ _ Hf) as [_ Hh].
    assert (Hx' : x < length us) by by eapply lookup_lt_Some.
    rewrite <- (list_insert_insert_eq us x (Some (length h)) None). destruct Hm as [M1 M2 M3 M4]. cbn in *.
    assert (Hlive : forall y, us !! y <> Some (Some (length h))) by (intros y Hy; destruct (M1 y _ Hy) as [w Hw]; apply lookup_lt_Some in Hw; lia).
    apply (take_owned x (length h) v); [done|by rewrite list_lookup_insert_eq| | |].
    + rewrite Hh; [by apply list_lookup_middle|]. intros <-. by apply (Hlive x).
    + intros y [(_ & ? & _)|[_ Hy]]%list_lookup_insert_Some; [done|]. by apply (Hlive y).
    + intros r Hr. specialize (M4 r _ Hr). lia.
  - destruct (us !! x) as [old|] eqn:Hx; [|done]. destruct (us !! y) as [p|] eqn:Hy; [|done]. cbn [mbind option_bind]. case_decide as Hxy.
    + subst y. intros [= <-]. rewrite Hx in Hy. injection Hy as <-. by rewrite list_insert_insert_eq, list_insert_id.
    + destruct (free old h) as [h'|] eqn:Hf; [|done]. intros [= <-]. by apply (move_owned x y p old h).
  - destruct (us !! x) as [old|] eqn:Hx; [|done]. cbn. destruct (free old h) as [h'|] eqn:Hf; [|done]. intros [= <-]. by apply (free_owned x old h).
  - destruct (us !! x) as [p|] eqn:Hx; [|done]. destruct (rs !! r) as [q|] eqn:Hr; [|done]. cbn. intros [= <-].
    destruct Hm as [H1 H2 H3 H4]. cbn in *. constructor; cbn.
    + intros y o [(_ & ? & _)|[_ Hy]]%list_lookup_insert_Some; [done|]. by apply (H1 y).
    + intros y z o [(_ & ? & _)|[_ Hy]]%list_lookup_insert_Some; [done|]. intros [(_ & ? & _)|[_ Hz]]%list_lookup_insert_Some; [done|]. by apply (H2 y z o).
    + intros y s o [(_ & ? & _)|[Hne Hy]]%list_lookup_insert_Some; [done|]. intros [(_ & -> & _)|[_ Hs]]%list_lookup_insert_Some; [|by apply (H3 y s o)].
      by destruct (Hne (H2 x y o Hx Hy)).
    + intros s o [(_ & -> & _)|[_ Hs]]%list_lookup_insert_Some; [|by apply (H4 s)]. destruct (H1 x o Hx) as [v Hv]. by eapply lookup_lt_Some.
  - destruct (rs !! r) as [p|] eqn:Hr; [|done]. cbn. destruct (free p h) as [h'|] eqn:Hf; [|done]. intros [= <-].
    destruct Hm as [H1 H2 H3 H4]. cbn in *. destruct (free_spec _ _ _ Hf) as [Hl Hh]. constructor; cbn; [|done..|].
    + intros y o Hy. destruct (H1 y o Hy) as [v Hv]. exists v. rewrite Hh; [done|]. intros <-. by apply (H3 y r o).
    + intros s o Hs. rewrite Hl. by apply (H4 s).
  - destruct (us !! x) as [p|] eqn:Hx; [|done]. cbn. destruct (deref p h); [|done]. intros [= <-]. by destruct Hm.
  - destruct (rs !! r) as [p|] eqn:Hx; [|done]. cbn. destruct (deref p h); [|done]. intros [= <-]. by destruct Hm.
Qed.

(** Programs on unique pointers: no object has two owners, each owner's object is
    there, and no plain pointer is to an object that is owned; so the end of a
    variable's life never frees anything twice. *)
Theorem unique_pointers cs n k m :
  uexec_all cs (new_umemory n k) = Some m ->
  owned m /\ forall x, x < length (uniques m) -> exists m', uexec (ureset x) m = Some m'.
Proof.
  assert (H : forall cs m0, owned m0 -> uexec_all cs m0 = Some m -> owned m).
  { clear cs. intros cs. induction cs as [|c cs IH]; intros m0 Hm0; cbn; [by intros [= <-]|]. destruct (uexec c m0) as [m1|] eqn:Hc; [|done].
    cbn. apply IH. by eapply uexec_owned. }
  intros Hr. assert (Hm : owned m).
  { apply (H cs (new_umemory n k)); [|done]. constructor; cbn; try (by intros x o [? _]%lookup_replicate); try (by intros x y o [? _]%lookup_replicate). }
  split; [done|]. intros x [p Hx]%lookup_lt_is_Some_2. cbn. rewrite Hx. cbn. destruct p as [o|]; [|by eexists].
  destruct (ow_live m Hm x o Hx) as [v Hv]. cbn. rewrite Hv. cbn. by eexists.
Qed.

Lemma test_unique_ptr_output : (m ← uexec_all test_unique_ptr (new_umemory 4 1); Some (ushown m, heap m)) = Some ([11; 11; 44; 55]%Z, [None; None; None; None]).
Proof. vm_compute. reflexivity. Qed.

(** ** Singletons *)

Module Singleton.

(** Where a thread is in [GetInstance]: before the first test, before the mutex,
    before the second test, before [make_shared], in the assignment, before the copy
    that is returned; what it got. *)
Inductive place := at_check | at_lock | in_check | in_make | in_assign | at_return | got (p : option nat).

(** [m_pSington], the number of objects made, who holds [m_Mutex], the threads. *)
Record single := Single { m_pSington : option nat; made : nat; holder : option nat; threads : list place }.
Definition start (n : nat) : single := Single None 0 None (replicate n at_check).

Definition in_assignment (t : place) : Prop := t = in_assign.
#[global] Instance in_assignment_dec t : Decision (in_assignment t).
Proof. unfold in_assignment. destruct t; (left; done) || (right; done). Defined.

Definition move (i : nat) (t : place) (s : single) : list place := <[i := t]> (threads s).

(** Threads see each other's writes in one order. A read of the [shared_ptr] without the
    mutex while another thread is in its assignment (pointer and control block, two
    words) is undefined; a read that comes after the assignment sees all of it. *)
Definition step (i : nat) (s : single) : option (outcome single) :=
  t ← threads s !! i;
  let race := bool_decide (Exists in_assignment (threads s)) in
  match t with
  | at_check =>
      Some (if race then undefined
            else returns (Single (m_pSington s) (made s) (holder s) (move i (match m_pSington s with None => at_lock | Some _ => at_return end) s)))
  | at_lock => match holder s with None => Some (returns (Single (m_pSington s) (made s) (Some i) (move i in_check s))) | Some _ => None end
  | in_check =>
      Some (returns match m_pSington s with
                    | None => Single None (made s) (holder s) (move i in_make s)
                    | Some p => Single (Some p) (made s) None (move i at_return s)
                    end)
  | in_make => Some (returns (Single (m_pSington s) (S (made s)) (holder s) (move i in_assign s)))
  | in_assign => Some (returns (Single (Some (made s - 1)) (made s) None (move i at_return s)))
  | at_return => Some (if race then undefined else returns (Single (m_pSington s) (made s) (holder s) (move i (got (m_pSington s)) s)))
  | got _ => None
  end.

Fixpoint run (is_ : list nat) (s : single) : option (outcome single) :=
  match is_ with
  | [] => Some (returns s)
  | i :: is' => o ← step i s; match o with returns s' => run is' s' | _ => Some o end
  end.

(** [SingleTon::Instance] of [ad_system] and the lazy form of
    [Singleton_Pattern_by_fjp.cpp]: no mutex and one test; the pointer is one word, read
    and written at once. *)
Definition plain_step (i : nat) (s : single) : option (outcome single) :=
  t ← threads s !! i;
  match t with
  | at_check => Some (returns (Single (m_pSington s) (made s) None (move i (match m_pSington s with None => in_make | Some _ => at_return end) s)))
  | in_make => Some (returns (Single (Some (made s)) (S (made s)) None (move i at_return s)))
  | at_return => Some (returns (Single (m_pSington s) (made s) None (move i (got (m_pSington s)) s)))
  | _ => None
  end.

Fixpoint plain_run (is_ : list nat) (s : single) : option (outcome single) :=
  match is_ with
  | [] => Some (returns s)
  | i :: is' => o ← plain_step i s; match o with returns s' => plain_run is' s' | _ => Some o end
  end.

(** [DesInstance], in a thread of its own. *)
Definition DesInstance (s : single) : single := Single None (made s) (holder s) (threads s).

(** The eager form of [Singleton_Pattern_by_fjp.cpp]: its static members are set in
    the order of their definitions and destroyed in the other. *)
Record eager := Eager { m : option nat; lines : list string }.

Definition new_Singleton (e : eager) : eager := Eager (Some 0) (lines e ++ ["构造函数"]).
Definition new_garbage (e : eager) : eager := Eager (m e) (lines e ++ ["garbage"]).

Definition delete_garbage (e : eager) : eager :=
  let e := Eager (m e) (lines e ++ ["~garbage"]) in
  match m e with
  | Some _ => Eager None (lines e ++ ["析构函数"])
  | None => e
  end.

Definition getInstance (e : eager) : option nat := m e.

(** What [m1], [m2], [m3] are and the lines of the program. *)
Definition main_eager : list (option nat) * list string :=
  let e := new_garbage (new_Singleton (Eager None [])) in
  let m1 := getInstance e in let m2 := getInstance e in let m3 := getInstance e in
  ([m1; m2; m3], lines (delete_garbage e)).

End Singleton.

Section singleton.
Import Singleton.

(** Holding the mutex. *)
Definition critical (t : place) : Prop := t = in_check \/ t = in_make \/ t = in_assign.

Definition place_ok (s : single) (i : nat) (t : place) : Prop :=
  match t with
  | at_check | at_lock => True
  | in_check => holder s = Some i
  | in_make => holder s = Some i /\ m_pSington s = None /\ made s = 0
  | in_assign => holder s = Some i /\ m_pSington s = None /\ made s = 1
  | at_return => m_pSington s = Some 0
  | got p => p = Some 0 /\ m_pSington s = Some 0
  end.

Definition has (t : place) : bool := match t with got _ => true | _ => false end.

Record s_ok (s : single) : Prop := {
  so_places : forall i t, threads s !! i = Some t -> place_ok s i t;
  so_holder : forall i, holder s = Some i -> exists t, threads s !! i = Some t /\ critical t;
  so_made : match m_pSington s with Some p => p = 0 /\ made s = 1 | None => made s = 0 \/ Exists in_assignment (threads s) /\ made s = 1 end }.

Lemma got_once s : s_ok s -> made s <= 1.
Proof. intros [_ _ H]. destruct (m_pSington s); lia. Qed.


Lemma moved s i t t' j u : threads s !! i = Some t -> move i t' s !! j = Some u -> j = i /\ u = t' \/ j <> i /\ threads s !! j = Some u.
Proof. intros Hi [(<- & <- & _)|[Hne Hj]]%list_lookup_insert_Some; [by left|right; by split]. Qed.

Lemma moved_to s i t t' : threads s !! i = Some t -> move i t' s !! i = Some t'.
Proof. intros Hi. apply list_lookup_insert_eq. by eapply lookup_lt_Some. Qed.

Lemma assigning s : Exists in_assignment (threads s) -> s_ok s -> exists i, threads s !! i = Some in_assign /\ holder s = Some i.
Proof.
  intros (t & [i Hi]%list_elem_of_lookup & ->)%Exists_exists [Hp _ _]. exists i. split; [done|]. exact (proj1 (Hp i _ Hi)).
Qed.

(** A move of thread [i] that leaves the pointer and the number of objects alone. *)
Lemma moves_ok s i t t' h :
  s_ok s -> threads s !! i = Some t -> t <> in_assign -> place_ok (Single (m_pSington s) (made s) h (move i t' s)) i t' ->
  (forall j u, j <> i -> threads s !! j = Some u -> critical u -> h = Some j) ->
  (forall j, h = Some j -> j = i /\ critical t' \/ j <> i /\ holder s = Some j) ->
  s_ok (Single (m_pSington s) (made s) h (move i t' s)).
Proof.
  intros Hs Hi Hna Ht' Hc Hh. pose proof Hs as [Hp Hho Hm]. split; cbn [threads holder m_pSington made].
  - intros j u Hj. destruct (moved _ _ _ _ _ _ Hi Hj) as [[-> ->]|[Hne Hj']]; [done|]. pose proof (Hp j u Hj') as Hu.
    destruct u; cbn [place_ok holder m_pSington made] in *; try done; try (destruct Hu as [_ Hu]; split; [|done]);
      eapply Hc; try eassumption; unfold critical; auto.
  - intros j Hj. destruct (Hh j Hj) as [[-> Hcr]|[Hne Hj']]; [exists t'; split; [by eapply moved_to|done]|].
    destruct (Hho j Hj') as (u & Hu & Hcr). exists u. split; [|done]. unfold move. by rewrite list_lookup_insert_ne.
  - destruct (m_pSington s); [done|]. destruct Hm as [Hm|[Hx Hm]]; [by left|right]. split; [|done].
    destruct (assigning s Hx Hs) as (j & Hj & _). apply Exists_exists. exists in_assign. split; [|done].
    apply list_elem_of_lookup. exists j. unfold move. rewrite list_lookup_insert_ne; [done|]. intros ->. congruence.
Qed.

Lemma alone s i j u : s_ok s -> holder s = Some i -> threads s !! j = Some u -> critical u -> j = i.
Proof. intros [Hp _ _] Hi Hj Hu. pose proof (Hp j u Hj) as H. destruct Hu as [->|[->| ->]]; cbn in H; destruct_and?; congruence. Qed.

Lemma step_s_ok i s s' : s_ok s -> step i s = Some (returns s') -> s_ok s'.
Proof.
  intros Hs. pose proof Hs as [Hp Hh Hm]. unfold step. destruct (threads s !! i) as [t|] eqn:Hi; [|done]. cbn [mbind option_bind].
  pose proof (Hp i t Hi) as Ht.
  assert (Hold : forall j u, j <> i -> threads s !! j = Some u -> critical u -> holder s = Some j).
  { intros j u _ Hj Hu. pose proof (Hp j u Hj) as H. destruct Hu as [->|[->| ->]]; cbn in H; tauto. }
  assert (Hkeep : ~ critical t -> forall j, holder s = Some j -> j <> i).
  { intros Hn j Hj ->. destruct (Hh i Hj) as (u & Hu & Hc). congruence. }
  destruct t; cbn [place_ok] in Ht.
  - case_bool_decide; [done|]. intros [= <-]. eapply moves_ok; [done|exact Hi|done| |done|].
    + destruct (m_pSington s) eqn:E; cbn; [|done]. destruct Hm as [-> _]. done.
    + intros j Hj. right. split; [|done]. apply (Hkeep ltac:(unfold critical; naive_solver) j Hj).
  - destruct (holder s) eqn:Eh; [done|]. intros [= <-]. eapply moves_ok; [done|exact Hi|done|done| |].
    + intros j u Hj Hu Hc. specialize (Hold j u Hj Hu Hc). congruence.
    + intros j [= <-]. left. split; [done|]. by left.
  - intros [= <-]. destruct (m_pSington s) as [p|] eqn:Ep.
    + rewrite <- Ep. eapply moves_ok; [done|exact Hi|done| | |done].
      * cbn. rewrite Ep. by destruct Hm as [-> _].
      * intros j u Hj Hu Hc. exfalso. apply Hj. by eapply alone.
    + rewrite <- Ep. eapply moves_ok; [done|exact Hi|done| |done|].
      * cbn. split_and!; [done|done|]. destruct Hm as [?|[Hx _]]; [done|]. destruct (assigning s Hx Hs) as (j & Hj & Hj').
        assert (j = i) by congruence. congruence.
      * intros j Hj. destruct (decide (j = i)) as [->|]; [left|by right]. split; [done|]. right. by left.
  - destruct Ht as (Ht & Ep & Em). intros [= <-]. rewrite Ep, Em. split; cbn [threads holder m_pSington made].
    + intros j u Hj. destruct (moved _ _ _ _ _ _ Hi Hj) as [[-> ->]|[Hne Hj']]; [done|]. pose proof (Hp j u Hj') as Hu.
      destruct u; cbn in *; destruct_and?; try done; congruence.
    + intros j Hj. assert (j = i) as -> by congruence. exists in_assign. split; [by eapply moved_to|]. right. by right.
    + right. split; [|done]. apply Exists_exists. exists in_assign. split; [|done]. apply list_elem_of_lookup. exists i. by eapply moved_to.
  - destruct Ht as (Ht & Ep & Em). intros [= <-]. rewrite Em. split; cbn [threads holder m_pSington made]; [|done|done].
    intros j u Hj. destruct (moved _ _ _ _ _ _ Hi Hj) as [[-> ->]|[Hne Hj']]; [done|]. pose proof (Hp j u Hj') as Hu.
    destruct u; cbn in *; destruct_and?; try done; congruence.
  - case_bool_decide; [done|]. intros [= <-]. eapply moves_ok; [done|exact Hi|done|done|done|].
    intros j Hj. right. split; [|done]. refine (Hkeep _ j Hj). unfold critical; naive_solver.
  - done.
Qed.

Lemma run_s_ok is_ s s' : s_ok s -> run is_ s = Some (returns s') -> s_ok s'.
Proof.
  revert s. induction is_ as [|i is_ IH]; intros s Hs; cbn; [congruence|].
  destruct (step i s) as [o|] eqn:E; [|done]. cbn. destruct o; try done. apply IH. by eapply step_s_ok.
Qed.

Lemma singleton_start_ok n : s_ok (start n).
Proof.
  split; cbn; [|done|by left]. intros i t [-> _]%lookup_replicate. done.
Qed.

(** [at_return] follows an assignment, so only the first test can meet one. *)
Lemma step_races i s : s_ok s -> step i s = Some undefined -> threads s !! i = Some at_check /\ exists j, j <> i /\ threads s !! j = Some in_assign.
Proof.
  intros Hs. unfold step. destruct (threads s !! i) as [t|] eqn:Hi; [|done]. cbn.
  assert (Hrace : bool_decide (Exists in_assignment (threads s)) = true -> exists j, threads s !! j = Some in_assign /\ m_pSington s = None).
  { intros (j & Hj & _)%bool_decide_eq_true%assigning; [|done]. exists j. split; [done|]. pose proof (so_places _ Hs j _ Hj) as H. cbn in H. tauto. }
  destruct t; try done; try (repeat case_match; done).
  - destruct (bool_decide _); [|done]. intros _. destruct Hrace as (j & Hj & _); [done|]. split; [done|]. exists j. split; [congruence|done].
  - destruct (bool_decide _); [|done]. intros _. destruct Hrace as (j & Hj & Hn); [done|].
    pose proof (so_places _ Hs i _ Hi) as H. cbn in H. congruence.
Qed.

(** Some thread has a step until every thread has its pointer. *)
Lemma singleton_some_step s : s_ok s -> (forall i t, threads s !! i = Some t -> has t) \/ exists i o, step i s = Some o.
Proof.
  intros Hs. destruct (holder s) as [k|] eqn:Eh.
  - right. destruct (so_holder _ Hs k Eh) as (t & Ht & Hc). exists k. unfold step. rewrite Ht. cbn.
    destruct Hc as [->|[->| ->]]; by eexists.
  - destruct (decide (Forall has (threads s))) as [Hf|Hf].
    + left. intros i t Hi. exact (Forall_lookup_1 _ _ _ _ Hf Hi).
    + right. apply not_Forall_Exists, Exists_exists in Hf; [|apply _]. destruct Hf as (t & [i Hi]%list_elem_of_lookup & Ht).
      exists i. unfold step. rewrite Hi, Eh. cbn. destruct t; try by eexists. by destruct Ht.
Qed.

(** The steps a thread has left at most. *)
Definition steps_left (t : place) : nat :=
  match t with at_check => 6 | at_lock => 5 | in_check => 4 | in_make => 3 | in_assign => 2 | at_return => 1 | got _ => 0 end.

Lemma steps_left_move s i t t' : threads s !! i = Some t -> steps_left t' < steps_left t -> sum_list (steps_left <$> move i t' s) < sum_list (steps_left <$> threads s).
Proof.
  intros Hi Hlt. pose proof (weight_insert steps_left (threads s) i t t' Hi). unfold move. lia.
Qed.

Lemma singleton_step_left i s s' : step i s = Some (returns s') -> sum_list (steps_left <$> threads s') < sum_list (steps_left <$> threads s).
Proof.
  unfold step. destruct (threads s !! i) as [t|] eqn:Hi; [|done]. cbn. intros H.
  destruct t; repeat case_match; simplify_eq; cbn [threads]; (eapply steps_left_move; [exact Hi|cbn; try case_match; lia]).
Qed.

Lemma run_left is_ s s' : run is_ s = Some (returns s') -> length is_ + sum_list (steps_left <$> threads s') <= sum_list (steps_left <$> threads s).
Proof.
  revert s. induction is_ as [|i is_ IH]; intros s; cbn; [intros [= ->]; lia|].
  destruct (step i s) as [o|] eqn:E; [|done]. cbn. destruct o; try done. intros H%IH. apply singleton_step_left in E. lia.
Qed.

(** Whatever the order in which [n] threads run [GetInstance]: at most one object is
    made, a thread that returns has the pointer to it, until all have returned
    some thread can go on, and there are at most 6 steps per thread. On a machine with one order of writes the only undefined
    step is a first test, which reads the pointer without the mutex, while another
    thread assigns it. *)
Theorem singleton_once n is_ s : run is_ (start n) = Some (returns s) ->
  made s <= 1 /\ length is_ <= 6 * n /\ (forall i p, threads s !! i = Some (got p) -> p = Some 0 /\ m_pSington s = Some 0) /\
  ((forall i t, threads s !! i = Some t -> has t) \/ exists i o, step i s = Some o) /\
  forall i, step i s = Some undefined -> threads s !! i = Some at_check /\ exists j, j <> i /\ threads s !! j = Some in_assign.
Proof.
  intros Hr. pose proof (run_s_ok _ _ _ (singleton_start_ok n) Hr) as Hs. split_and!; [by apply got_once| | |by apply singleton_some_step|by intros; apply step_races].
  - apply run_left in Hr. cbn [start threads] in Hr. rewrite fmap_replicate, sum_list_replicate in Hr. cbn in Hr. lia.
  - intros i p Hi. pose proof (so_places _ Hs i _ Hi) as H. done.
Qed.

(** Two threads in turn through the mutex: one object for both. *)
Lemma singleton_once_witness : exists s, run [0; 1; 0; 0; 0; 0; 1; 1; 0; 1] (start 2) = Some (returns s) /\ made s <= 1 /\ threads s = [got (Some 0); got (Some 0)].
Proof.
  exists (Single (Some 0) 1 None [got (Some 0); got (Some 0)]). split; [vm_compute; reflexivity|]. split; [|reflexivity].
  apply (singleton_once 2 [0; 1; 0; 0; 0; 0; 1; 1; 0; 1]). vm_compute. reflexivity.
Defined.

(** The first test of a thread while another assigns, without the mutex. *)
Example first_test_races : run [0; 0; 0; 0; 1] (start 2) = Some undefined.
Proof. vm_compute. reflexivity. Qed.

(** Without mutex and second test the two threads make an object each; the first
    object is lost. *)
Example two_instances : plain_run [0; 1; 0; 1; 0; 1] (start 2) = Some (returns (Single (Some 1) 2 None [got (Some 1); got (Some 1)])).
Proof. vm_compute. reflexivity. Qed.

(** In another order each thread gets an object of its own. *)
Example two_results : plain_run [0; 1; 0; 0; 1; 1] (start 2) = Some (returns (Single (Some 1) 2 None [got (Some 0); got (Some 1)])).
Proof. vm_compute. reflexivity. Qed.

(** After [DesInstance] a call makes a second object, while the first is still held. *)
Example instance_after_des : exists s, run [0; 0; 0; 0; 0; 0] (start 2) = Some (returns s) /\ threads s !! 0 = Some (got (Some 0)) /\
  run [1; 1; 1; 1; 1; 1] (DesInstance s) = Some (returns (Single (Some 1) 2 None [got (Some 0); got (Some 1)])).
Proof.
  exists (Single (Some 0) 1 None [got (Some 0); at_check]). repeat split; vm_compute; reflexivity.
Qed.

(** Whole calls of the plain form, one after the other, make one object. *)
Example one_thread_one_instance : plain_run [0; 0; 0; 1; 1] (start 2) = Some (returns (Single (Some 0) 1 None [got (Some 0); got (Some 0)])).
Proof. vm_compute. reflexivity. Qed.

(** The object of the eager form is made before [main] and deleted after it. *)
Example main_eager_output : main_eager = ([Some 0; Some 0; Some 0], ["构造函数"; "garbage"; "~garbage"; "析构函数"]).
Proof. vm_compute. reflexivity. Qed.

End singleton.
