(* ===== verification/EncodeConvert.v ===== *)
(** * EncodeConvert: encoding detection, conversion and URL decoding

    Models [ad_system/common/encode_convert.cpp] ([CharConvertTool] has the
    same code) and the decoder of [CharConvertTool/main.cpp]: [_isUTF8_] and
    [_isGBK_] with the grammars they recognise, [ConvertCore] with the sizes of
    its buffers, [Char2Int], [Str2Bin] and [UrlDecode].

    [iconv] is the parameter of a section: opening a conversion, and what a
    conversion writes into an output area of a given size. *)
From S2P Require Import Prelude HttpHandler.

(** ** [_isUTF8_] *)

(** The length a lead byte announces. *)
Definition utf8_lead (chr : Z) : option Z :=
  if ((252 <=? chr) && (chr <=? 253))%Z then Some 6%Z
  else if (248 <=? chr)%Z then Some 5%Z
  else if (240 <=? chr)%Z then Some 4%Z
  else if (224 <=? chr)%Z then Some 3%Z
  else if (192 <=? chr)%Z then Some 2%Z
  else None.

(** The loop over the bytes of the C string, with the continuation bytes still
    expected. *)
Fixpoint isUTF8_loop (nBytes : Z) (s : str) : bool :=
  match s with
  | [] => negb (0 <? nBytes)%Z
  | c :: s' =>
      let chr := uchar c in
      if (nBytes =? 0)%Z && (128 <=? chr)%Z then
        match utf8_lead chr with
        | Some n => isUTF8_loop (n - 1) s'
        | None => false
        end
      else if negb (nBytes =? 0)%Z then
        if negb (Z.land chr 192 =? 128)%Z then false else isUTF8_loop (nBytes - 1) s'
      else isUTF8_loop nBytes s'
  end.

(** [None] is the null pointer. *)
Definition isUTF8 (s : option str) : bool :=
  match s with
  | None => false
  | Some s => isUTF8_loop 0 (c_str s)
  end.

(** ** [_isGBK_] *)

(** [while (i < len && str[i] >= 0) ++i;] *)
Fixpoint skip_ascii (s : str) : str :=
  match s with
  | c :: s' => if (0 <=? schar c)%Z then skip_ascii s' else s
  | [] => []
  end.

(** The test of the lead byte; its second line tests the same byte again. *)
Definition gbk_test (chr : Z) : bool :=
  ((129 <=? chr) && (chr <=? 254) && ((64 <=? chr) && (chr <=? 254) && negb (chr =? 127)))%Z.

(** The inner loop; [None] is [return false]. *)
Fixpoint gbk_pairs (s : str) : option str :=
  match s with
  | c :: (d :: s') =>
      if (schar c <? 0)%Z then
        if gbk_test (uchar c) then gbk_pairs s' else None
      else Some s
  | _ => Some s
  end.

(** The outer loop, one unit of fuel per iteration. *)
Fixpoint isGBK_loop (fuel : nat) (s : str) : option bool :=
  match fuel with
  | O => None
  | S f =>
      match s with
      | [] => Some true
      | _ =>
          let s := skip_ascii s in
          if (length s =? 1)%nat then Some true
          else match gbk_pairs s with
               | None => Some false
               | Some s' => isGBK_loop f s'
               end
      end
  end.

(** [int len = (int)strlen(str)]. *)
Definition isGBK (s : option str) : option bool :=
  match s with
  | None => Some false
  | Some s =>
      let s := take (Z.to_nat (int32 (Z.of_nat (length (c_str s))))) (c_str s) in
      isGBK_loop (S (length s)) s
  end.

(** ** [ConvertCore] *)

Section Convert.
(** [iconv_open(to, from)], [None] where it fails, and the conversion of an input
    into at most so many output bytes: whether it succeeds, and what it has written. *)
Context (iconv : str -> str -> option (str -> nat -> bool * str)).

Definition convBuffLen (input : str) : nat :=
  if (1024 <? length input * 2)%nat then length input * 2 else 1024.
Definition outLen (input : str) : nat := (length input + 1) * 2.

(** The answer and the new [output], [None] for one left alone; the outer
    [None] is a write outside [convBuff], or a result without terminator. *)
Definition ConvertCore (inCodeType outCodeType input : str) : option (bool * option str) :=
  match iconv outCodeType inCodeType with
  | None => Some (false, None)
  | Some conv =>
      let '(ok, written) := conv (input ++ [NUL]) (outLen input) in
      if (convBuffLen input <? length written)%nat then None
      else if negb ok then Some (false, None)
      else if bool_decide (NUL ∈ written) then Some (true, Some (c_str written))
      else None
  end.

Definition UTF8_to_GBK := ConvertCore (lit "utf-8") (lit "GBK").
Definition GBK_to_UTF8 := ConvertCore (lit "GBK") (lit "utf-8").
Definition GB2312_to_UTF8 := ConvertCore (lit "gb2312") (lit "utf-8").
Definition UTF8_to_GB2312 := ConvertCore (lit "utf-8") (lit "gb2312").
End Convert.

(** What is documented of [iconv]: it writes no more than it is given room for,
    and where it succeeds, it converts the terminating NUL it is given with the text. *)
Definition iconv_contract (iconv : str -> str -> option (str -> nat -> bool * str)) : Prop :=
  forall to from conv input room ok written,
    iconv to from = Some conv -> conv (input ++ [NUL]) room = (ok, written) ->
    length written <= room /\ (ok = true -> NUL ∈ written).

(** ** [UrlDecode] *)

Definition Char2Int (ch : ascii) : Z :=
  let c := schar ch in
  if ((48 <=? c) && (c <=? 57))%Z then (c - 48)%Z
  else if ((97 <=? c) && (c <=? 102))%Z then (c - 97 + 10)%Z
  else if ((65 <=? c) && (c <=? 70))%Z then (c - 65 + 10)%Z
  else (-1)%Z.

Definition Str2Bin (a b : ascii) : ascii := to_char (Z.lor (Z.shiftl (Char2Int a) 4) (Char2Int b)).

(** [src[len]] is the terminating NUL; reading [src[len + 1]] is undefined. *)
Fixpoint UrlDecode (src : str) : option str :=
  match src with
  | [] => Some []
  | c :: rest =>
      if decide (c = "%"%char) then
        match rest with
        | a :: b :: rest' => out ← UrlDecode rest'; Some (Str2Bin a b :: out)
        | [a] => Some [Str2Bin a NUL]
        | [] => None
        end
      else out ← UrlDecode rest; Some ((if decide (c = "+"%char) then SP else c) :: out)
  end.

(** ** [CharConvertTool]: the same conversions compiled into a program *)

Definition tool_isUTF8 := isUTF8.
Definition tool_isGBK := isGBK.
Definition tool_ConvertCore := ConvertCore.

(** [main], from the word read to the two lines printed; a failed conversion
    leaves the second one empty. *)
Definition CharConvertTool_main (iconv : str -> str -> option (str -> nat -> bool * str)) (a : str)
  : option (str * str) :=
  url ← UrlDecode a;
  '(_, utf8_str) ← tool_ConvertCore iconv (lit "GBK") (lit "utf-8") url;
  Some (url, default [] utf8_str).

(** ** The grammars *)






(** ** Lemmas *)














Lemma Char2Int_hex c d : hex_digit c = Some d -> Char2Int c = d /\ (0 <= d < 16)%Z.
Proof.
  assert (forall c, match hex_digit c with
    | Some d => (Char2Int c =? d)%Z && (0 <=? d)%Z && (d <? 16)%Z | None => true end = true) as Hall by by_bytes.
  intros Hc. specialize (Hall c). rewrite Hc, !andb_true_iff, Z.eqb_eq, Z.leb_le, Z.ltb_lt in Hall. tauto.
Qed.

Lemma nibbles x y : (0 <= x < 16)%Z -> (0 <= y < 16)%Z -> Z.lor (Z.shiftl x 4) y = (x * 16 + y)%Z.
Proof.
  intros Hx Hy. rewrite Z.shiftl_mul_pow2 by lia. change (2 ^ 4)%Z with 16%Z.
  assert (Z.land (x * 16) y = 0)%Z as Hl.
  { apply Z.bits_inj'. intros n Hn. rewrite Z.land_spec, Z.bits_0. change 16%Z with (2 ^ 4)%Z.
    destruct (Z.lt_ge_cases n 4); [by rewrite Z.mul_pow2_bits_low|].
    rewrite (Z.bits_above_log2 y); [by rewrite andb_false_r|lia|].
    destruct (decide (y = 0)%Z) as [->|]; [cbn; lia|]. apply Z.log2_lt_pow2; [lia|].
    assert (2 ^ 4 <= 2 ^ n)%Z by (apply Z.pow_le_mono_r; lia). lia. }
  rewrite <- (Z.lxor_lor _ _ Hl). symmetry. by apply Z.add_nocarry_lxor.
Qed.

Lemma Str2Bin_hex a b x y :
  hex_digit a = Some x -> hex_digit b = Some y -> Str2Bin a b = to_char (x * 16 + y).
Proof. intros [Ha Hx]%Char2Int_hex [Hb Hy]%Char2Int_hex. unfold Str2Bin. by rewrite Ha, Hb, nibbles. Qed.

Lemma extract_two a b x y :
  hex_digit a = Some x -> hex_digit b = Some y -> extract_hex [a; b] = Some (x * 16 + y)%Z.
Proof. intros Ha Hb. rewrite escape_value_spec. unfold escape_value. by rewrite Ha, Hb. Qed.

Lemma hex_char_digit c :
  hex_digit (hex_char (uchar c / 16)) = Some (uchar c / 16)%Z /\
  hex_digit (hex_char (uchar c mod 16)) = Some (uchar c mod 16)%Z.
Proof. revert c. by_bytes. Qed.

(** A text in which two hexadecimal digits follow every percent sign. *)
Inductive well_escaped : str -> Prop :=
  | we_nil : well_escaped []
  | we_plain c s : c <> "%"%char -> well_escaped s -> well_escaped (c :: s)
  | we_escape a b s : is_Some (hex_digit a) -> is_Some (hex_digit b) -> well_escaped s ->
      well_escaped ("%"%char :: a :: b :: s).

(** ** Properties *)


(** No UTF-8, and accepted. *)
Example stray_accepted : isUTF8 (Some (to_char 0xFE :: replicate 4 (to_char 0x80))) = true.
Proof. vm_compute. reflexivity. Qed.


(** C38: [ConvertCore] stays inside its output buffer for every conversion that
    keeps [iconv]'s contract if and only if the input is shorter than 512 bytes:
    it tells [iconv] that there is room for twice the input and its terminator,
    but allocates twice the input. *)
Theorem convert_safe_iff input :
  (forall iconv inCodeType outCodeType, iconv_contract iconv -> ConvertCore iconv inCodeType outCodeType input <> None) <->
  length input < 512.
Proof.
  split.
  - intros Hall. destruct (decide (length input < 512)) as [|Hge]; [done|]. exfalso.
    apply (Hall (fun _ _ => Some (fun _ room => (negb (room =? 0)%nat, replicate room NUL))) [] []).
    + intros to from conv i room ok written [= <-]. destruct room as [|room]; intros [= <- <-]; [done|].
      cbn [length]. rewrite length_replicate. split; [done|by left].
    + unfold ConvertCore, convBuffLen, outLen. rewrite length_replicate.
      destruct (Nat.ltb_spec 1024 (length input * 2));
        (destruct (Nat.ltb_spec (length input * 2) ((length input + 1) * 2)); [done|lia]) ||
        (destruct (Nat.ltb_spec 1024 ((length input + 1) * 2)); [done|lia]).
  - intros Hlt iconv inC outC Hc. unfold ConvertCore. destruct (iconv outC inC) as [conv|] eqn:Ho; [|done].
    destruct (conv (input ++ [NUL]) (outLen input)) as [ok written] eqn:Hw.
    destruct (Hc _ _ _ _ _ _ _ Ho Hw) as [Hl Hn]. unfold convBuffLen, outLen in *.
    destruct (Nat.ltb_spec 1024 (length input * 2)); [lia|].
    destruct (Nat.ltb_spec 1024 (length written)); [lia|]. destruct ok; [|done]. cbn [negb]. by rewrite bool_decide_eq_true_2 by auto.
Qed.

(** On well-escaped text the decoder of the conversion tool and the decoder
    of the HTTP server agree; a percent sign as the last byte, which the server
    refuses, makes the tool read past the end of its string. *)
Theorem decoders_agree s :
  well_escaped s -> UrlDecode s = url_decode s /\ is_Some (UrlDecode s) /\ UrlDecode (s ++ lit "%") = None.
Proof.
  induction 1 as [|c s Hc _ (IH & [out Hs] & Hn)|a b s [x Ha] [y Hb] _ (IH & [out Hs] & Hn)].
  - split_and!; [done|by eexists|done].
  - cbn [UrlDecode url_decode app]. rewrite !(decide_False (P := c = "%"%char)) by done. rewrite <- IH, Hs. split_and!; [done|by eexists|].
    change ((c :: s) ++ lit "%") with (c :: (s ++ lit "%")). cbn [UrlDecode].
    rewrite ?(decide_False (P := c = "%"%char)) by done. by rewrite Hn.
  - cbn [UrlDecode app]. rewrite !decide_True by done. rewrite url_decode_percent, (extract_two a b x y) by done.
    rewrite <- IH, Hs, (Str2Bin_hex a b x y) by done. split_and!; [done|by eexists|].
    change (("%"%char :: a :: b :: s) ++ lit "%") with ("%"%char :: a :: b :: (s ++ lit "%")).
    cbn [UrlDecode]. rewrite ?(decide_True (P := "%"%char = "%"%char)) by done. by rewrite Hn.
Qed.

Theorem decoders_agree_witness :
  UrlDecode (lit "%D6%d0+a" ++ lit "%") = None /\ well_escaped (lit "%D6%d0+a").
Proof.
  assert (well_escaped (lit "%D6%d0+a")) as Hw.
  { apply we_escape; [vm_compute; eexists; reflexivity|vm_compute; eexists; reflexivity|].
    apply we_escape; [vm_compute; eexists; reflexivity|vm_compute; eexists; reflexivity|].
    apply we_plain; [discriminate|]. apply we_plain; [discriminate|]. apply we_nil. }
  split; [|exact Hw]. exact (proj2 (proj2 (decoders_agree (lit "%D6%d0+a") Hw))).
Defined.
