(* ===== verification/AdSystem.v ===== *)
(** * AdSystem: configuration, request work and the service frame

    Models [ad_system/common/globalHelper.cpp] and [globalHelper.hpp],
    [globalConfig.hpp], [serverWork.cpp] and [serverframe.cpp]: reading an item
    of an ini file, the typed values of the configuration, splitting a request
    path, the core worker that the HTTP server of [Server3] calls, and starting
    the service.

    Boost is a parameter: what [regex_search] and [regex_match] with the two
    expressions find in a line, [lexical_cast<int>], and [boost::split]. So is
    [iconv] (see [EncodeConvert]) and the file system. *)
From S2P Require Import Prelude HttpParser HttpGrammar HttpReply HttpHandler HttpServer Server3 EncodeConvert.

(** ** Strings *)

Definition lowerString (s : str) : str := tolower <$> s.

(** ** The ini file *)

(** The lines the two loops over [fgets] see, as C strings; [max_len] is the
    size of the array, of which the code gives [fgets] all but one. *)
Fixpoint fgets_lines (fuel : nat) (max_len : nat) (s : str) : list str :=
  match fuel with
  | O => []
  | S f =>
      match fgets (max_len - 2) s with
      | ([], _) => []
      | (l, rest) => c_str l :: fgets_lines f max_len rest
      end
  end.
Definition lines_of (max_len : nat) (file : str) : list str := fgets_lines (S (length file)) max_len file.

Section Ini.
(** [\[name\]] found in a line; the line is such a line as a whole; a
    [key = value] found at its end. *)
Context (frame_search : str -> option str) (frame_match : str -> bool) (item_search : str -> option (str * str)).
Context (lexical_cast_int : str -> option Z).
Context (fs : str -> option str).

(** The first loop: up to the line that opens the frame; [None] at the end
    of the file. *)
Fixpoint find_frame (desFrameName : str) (lines : list str) : option (list str) :=
  match lines with
  | [] => None
  | l :: rest =>
      match frame_search l with
      | Some name => if decide (lowerString name = desFrameName) then Some rest else find_frame desFrameName rest
      | None => find_frame desFrameName rest
      end
  end.

(** The second loop, which stops at the next frame. *)
Fixpoint find_item (desItemName : str) (lines : list str) : option str :=
  match lines with
  | [] => None
  | l :: rest =>
      if frame_match l then None
      else match item_search l with
           | Some (key, val) =>
               if decide (lowerString key = desItemName /\ val <> []) then Some val
               else find_item desItemName rest
           | None => find_item desItemName rest
           end
  end.

(** The empty string is also the answer when nothing is found. *)
Definition ReadStringFromIniFile (iniFileName frame item : str) (max_len : nat) : str :=
  match fs (c_str iniFileName) with
  | None => []
  | Some file =>
      match find_frame (lowerString frame) (lines_of max_len file) with
      | None => []
      | Some rest => default [] (find_item (lowerString item) rest)
      end
  end.

Definition max_len : nat := 2048.

Definition GetIntInSettingFile (frameName paraName : str) (defaultParaValue : Z) (settingFileName : str) : Z :=
  let tmpRs := ReadStringFromIniFile settingFileName frameName paraName max_len in
  if decide (tmpRs = []) then defaultParaValue
  else default defaultParaValue (lexical_cast_int tmpRs).

(** [getValue<string>] and [getValue<int>]: [None] is the answer [false]. *)
Definition getValue_string (cfg section key : str) : option str :=
  let v := ReadStringFromIniFile cfg section key max_len in
  if decide (v = []) then None else Some v.
Definition getValue_int (cfg section key : str) : option Z :=
  let v := ReadStringFromIniFile cfg section key max_len in
  if decide (v = []) then None else lexical_cast_int v.

(** ** [globalConfig] *)

Record globalConfig := Config {
  service_port : str;
  service_thread_num : Z;
  enable_print_request : Z;
  Default : Z }.

(** [load]: a missing or ill-typed value is a fatal log, which aborts. *)
Definition load_config (cfg : str) : option globalConfig :=
  service_port ← getValue_string cfg (lit "SERVER") (lit "service_port");
  service_thread_num ← getValue_int cfg (lit "SERVER") (lit "service_thread_num");
  enable_print_request ← getValue_int cfg (lit "SERVER") (lit "enable_print_request");
  Default ← getValue_int cfg (lit "COMMON") (lit "Default");
  Some (Config service_port service_thread_num enable_print_request Default).
End Ini.

(** ** The time *)

(** What [localtime] gives. *)
Record tm := Tm { tm_year : Z; tm_mon : Z; tm_mday : Z; tm_hour : Z; tm_min : Z; tm_sec : Z }.

(** [snprintf] into 1024 bytes. *)
Definition GetCurrentTime (tmnow : tm) : str :=
  take 1023 (format_int 0 (int32 (tm_year tmnow + 1900)) ++ "-"%char :: two_digits (int32 (tm_mon tmnow + 1)) ++ "-"%char :: two_digits (tm_mday tmnow) ++
    SP :: two_digits (tm_hour tmnow) ++ ":"%char :: two_digits (tm_min tmnow) ++ ":"%char :: two_digits (tm_sec tmnow)).

(** ** [splitRequest] *)

Section Work.
Context (boost_split : str -> list str).
Context (iconv : str -> str -> option (str -> nat -> bool * str)).

(** One token: to UTF-8 when it looks like GBK, then to lower case; [None] is
    a conversion outside its buffer. A failed conversion leaves the token. *)
Definition normalise (strTemp : str) : option str :=
  gbk ← isGBK (Some strTemp);
  strTemp ← (if gbk : bool then
               '(_, converted) ← GBK_to_UTF8 iconv strTemp; Some (default strTemp converted)
             else Some strTemp);
  Some (lowerString strTemp).

Definition splitRequest (strIn : str) : option (list str) :=
  let vecTemp := boost_split strIn in
  mapM normalise match vecTemp with
                 | [] :: rest => rest
                 | _ => vecTemp
                 end.

(** [CServerWork::Work]: the split tokens are not used for the answer. *)
Definition Work (input : str) : option (bool * str) :=
  _ ← splitRequest input;
  Some (true, lit "process result: " ++ input).
End Work.

(** The worker as the HTTP server sees it, for requests it gets through. *)
Definition CServerWork : CoreWork := {| work := fun input => (true, lit "process result: " ++ input) |}.

(** ** [ServerFrame::StartService] *)

Inductive service := running (worker : option CoreWork) | undefined_service | aborted.

(** [constructed]: the constructor of the server did not throw. When it does,
    the handler of the exception falls through to the uninitialised pointer. *)
Definition StartService (constructed : bool) : service :=
  if constructed then
    match setCoreWorker None (Some CServerWork) with
    | inr w => running w
    | inl _ => aborted
    end
  else undefined_service.

(** ** Lemmas *)

(** The lines, uncut at NUL bytes: they are the file, and each fits its array. *)
Lemma fgets_lines_spec fuel m s :
  length s < fuel -> 2 < m ->
  exists ls, fgets_lines fuel m s = c_str <$> ls /\ concat ls = s /\ Forall (fun l => length l + 1 < m) ls.
Proof.
  revert s. induction fuel as [|f IH]; intros s Hf Hm; [lia|]. cbn [fgets_lines].
  destruct (fgets (m - 2) s) as [l rest] eqn:Hg. destruct (fgets_spec _ _ _ _ Hg) as (-> & Hl & Hnil).
  destruct l as [|c l].
  - exists []. split; [done|]. split; [|done]. destruct (Hnil eq_refl) as [|Hr]; [lia|]. by rewrite Hr.
  - rewrite length_app in Hf. cbn [length] in Hf. destruct (IH rest) as (ls & -> & <- & Hls); [lia|done|].
    exists ((c :: l) :: ls). split; [done|]. split; [done|]. constructor; [lia|done].
Qed.

Lemma find_frame_spec fsearch des lines rest :
  find_frame fsearch des lines = Some rest <->
  exists pre l name, lines = pre ++ l :: rest /\ fsearch l = Some name /\ lowerString name = des /\
    Forall (fun l => forall name, fsearch l = Some name -> lowerString name <> des) pre.
Proof.
  induction lines as [|l lines IH]; cbn [find_frame].
  - split; [done|]. intros (pre & l & name & Heq & _). by destruct pre.
  - assert (fsearch l = None \/ (exists name, fsearch l = Some name /\ lowerString name <> des) ->
      (find_frame fsearch des lines = Some rest <->
       exists pre l0 name, l :: lines = pre ++ l0 :: rest /\ fsearch l0 = Some name /\ lowerString name = des /\
         Forall (fun l => forall name, fsearch l = Some name -> lowerString name <> des) pre)) as Hskip.
    { intros Hl. rewrite IH. split.
      - intros (pre & l0 & name & -> & ? & ? & ?). exists (l :: pre), l0, name. split_and!; try done.
        constructor; [|done]. intros n Hn. destruct Hl as [Hl|(n' & Hl & ?)]; congruence.
      - intros (pre & l0 & name & Heq & Hs & Hn & Hf). destruct pre as [|l1 pre]; injection Heq as -> ->.
        + destruct Hl as [Hl|(n' & Hl & ?)]; congruence.
        + apply Forall_cons in Hf as [_ Hf]. by exists pre, l0, name. }
    destruct (fsearch l) as [name|] eqn:Hl; [|apply Hskip; by left].
    destruct (decide (lowerString name = des)) as [Hd|Hd]; [|apply Hskip; right; by exists name].
    split; [intros [= ->]; by exists [], l, name|].
    intros (pre & l0 & n & Heq & Hs & Hn & Hf). destruct pre as [|l1 pre]; injection Heq as -> ->; [done|].
    apply Forall_cons in Hf as [Hf _]. by destruct (Hf name).
Qed.

Lemma find_item_spec fmatch isearch des lines v :
  find_item fmatch isearch des lines = Some v <->
  exists mid l key post, lines = mid ++ l :: post /\ fmatch l = false /\ isearch l = Some (key, v) /\
    lowerString key = des /\ v <> [] /\
    Forall (fun l => fmatch l = false /\ forall k u, isearch l = Some (k, u) -> ~ (lowerString k = des /\ u <> [])) mid.
Proof.
  induction lines as [|l lines IH]; cbn [find_item].
  - split; [done|]. intros (mid & l & key & post & Heq & _). by destruct mid.
  - destruct (fmatch l) eqn:Hm.
    { split; [done|]. intros (mid & l0 & key & post & Heq & Hl0 & _ & _ & _ & Hf).
      destruct mid as [|l1 mid]; injection Heq as -> ->; [congruence|].
      apply Forall_cons in Hf as [[Hf _] _]. congruence. }
    assert ((forall k u, isearch l = Some (k, u) -> ~ (lowerString k = des /\ u <> [])) ->
      (find_item fmatch isearch des lines = Some v <->
       exists mid l0 key post, l :: lines = mid ++ l0 :: post /\ fmatch l0 = false /\ isearch l0 = Some (key, v) /\
         lowerString key = des /\ v <> [] /\
         Forall (fun l => fmatch l = false /\ forall k u, isearch l = Some (k, u) -> ~ (lowerString k = des /\ u <> [])) mid)) as Hskip.
    { intros Hl. rewrite IH. split.
      - intros (mid & l0 & key & post & -> & ? & ? & ? & ? & ?). exists (l :: mid), l0, key, post. split_and!; try done.
        by constructor.
      - intros (mid & l0 & key & post & Heq & Hl0 & Hs & Hk & Hv & Hf). destruct mid as [|l1 mid]; injection Heq as -> ->.
        + by destruct (Hl key v Hs).
        + apply Forall_cons in Hf as [_ Hf]. by exists mid, l0, key, post. }
    destruct (isearch l) as [[k u]|] eqn:Hl; [|by apply Hskip].
    destruct (decide (lowerString k = des /\ u <> [])) as [Hd|Hd]; [|apply Hskip; by intros ? ? [= <- <-]].
    split; [intros [= <-]; exists [], l, k, lines; by destruct Hd|].
    intros (mid & l0 & key & post & Heq & Hl0 & Hs & Hk & Hv & Hf). destruct mid as [|l1 mid]; injection Heq as -> ->; [congruence|].
    apply Forall_cons in Hf as [[_ Hf] _]. by destruct (Hf k u Hl).
Qed.

(** ** Properties *)

Lemma lines_of_spec file :
  exists ls, lines_of max_len file = c_str <$> ls /\ concat ls = file /\ Forall (fun l => length l + 1 < 2048) ls.
Proof. unfold lines_of. apply fgets_lines_spec; unfold max_len; lia. Qed.

(** An item of the configuration is found exactly where it should be: the
    answer is [v] (not empty) if and only if the file opens and, of its lines,
    the first one that opens the wanted section is followed, before any other
    section, by a line that gives the wanted key the value [v], and by no such
    line before it; names are compared without regard to case. *)
Theorem ini_lookup_iff fsearch fmatch isearch fs cfg frame item v :
  (ReadStringFromIniFile fsearch fmatch isearch fs cfg frame item max_len = v /\ v <> []) <->
  exists file pre hd name mid l key post,
    fs (c_str cfg) = Some file /\
    lines_of max_len file = pre ++ hd :: mid ++ l :: post /\
    fsearch hd = Some name /\ lowerString name = lowerString frame /\
    Forall (fun l => forall n, fsearch l = Some n -> lowerString n <> lowerString frame) pre /\
    fmatch l = false /\ isearch l = Some (key, v) /\ lowerString key = lowerString item /\ v <> [] /\
    Forall (fun l => fmatch l = false /\
      forall k u, isearch l = Some (k, u) -> ~ (lowerString k = lowerString item /\ u <> [])) mid.
Proof.
  unfold ReadStringFromIniFile. split.
  - intros [Hr Hv]. destruct (fs _) as [file|]; [|by subst].
    destruct (find_frame _ _ _) as [rest|] eqn:Hf; [|by subst].
    apply find_frame_spec in Hf as (pre & hd & name & Hl & ? & ? & ?).
    destruct (find_item _ _ _ _) as [u|] eqn:Hi; cbn in Hr; [|by subst]. subst u.
    apply find_item_spec in Hi as (mid & l & key & post & -> & ? & ? & ? & ? & ?).
    by exists file, pre, hd, name, mid, l, key, post.
  - intros (file & pre & hd & name & mid & l & key & post & -> & Hl & Hs & Hn & Hpre & Hm & Hi & Hk & Hv & Hmid).
    split; [|done].
    assert (find_frame fsearch (lowerString frame) (lines_of max_len file) = Some (mid ++ l :: post)) as ->.
    { apply find_frame_spec. by exists pre, hd, name. }
    assert (find_item fmatch isearch (lowerString item) (mid ++ l :: post) = Some v) as ->; [|done].
    apply find_item_spec. by exists mid, l, key, post.
Qed.

(** The fields of a calendar date after the year 999. *)
Definition calendar (t : tm) : Prop :=
  (1000 <= tm_year t + 1900 < 10000 /\ 0 <= tm_mon t < 12 /\ 1 <= tm_mday t < 32 /\ 0 <= tm_hour t < 24 /\ 0 <= tm_min t < 60 /\ 0 <= tm_sec t < 61)%Z.

Lemma year_digits z : (1000 <= z < 10000)%Z -> length (format_int 0 z) = 4 /\ dec_value (format_int 0 z) = z.
Proof.
  intros Hz. assert (Hall : Forall (fun z => length (format_int 0 z) = 4 /\ dec_value (format_int 0 z) = z) (seqZ 1000 9000)).
  { apply (bool_decide_eq_true_1 _). vm_compute. reflexivity. }
  rewrite Forall_forall in Hall. apply Hall, elem_of_seqZ. lia.
Qed.

(** A time is printed in nineteen characters, from which it can be read. *)
Theorem time_read_back t :
  calendar t -> length (GetCurrentTime t) = 19 /\ forall t', calendar t' -> GetCurrentTime t' = GetCurrentTime t -> t' = t.
Proof.
  assert (Hparts : forall t, calendar t -> exists y mo d h mi s,
    GetCurrentTime t = y ++ "-"%char :: mo ++ "-"%char :: d ++ SP :: h ++ ":"%char :: mi ++ ":"%char :: s /\
    length y = 4 /\ length mo = 2 /\ length d = 2 /\ length h = 2 /\ length mi = 2 /\ length s = 2 /\
    t = Tm (dec_value y - 1900) (dec_value mo - 1) (dec_value d) (dec_value h) (dec_value mi) (dec_value s)).
  { intros u (Hy & Hmo & Hd & Hh & Hmi & Hs). unfold GetCurrentTime. rewrite !int32_id by (unfold in_int32; lia).
    destruct (year_digits _ Hy) as [Ly Vy]. destruct (two_digits_spec (tm_mon u + 1)) as (Lmo & _ & Vmo); [lia|].
    destruct (two_digits_spec (tm_mday u)) as (Ld & _ & Vd); [lia|]. destruct (two_digits_spec (tm_hour u)) as (Lh & _ & Vh); [lia|].
    destruct (two_digits_spec (tm_min u)) as (Lmi & _ & Vmi); [lia|]. destruct (two_digits_spec (tm_sec u)) as (Ls & _ & Vs); [lia|].
    do 6 eexists. split_and!; [apply take_ge|exact Ly|exact Lmo|exact Ld|exact Lh|exact Lmi|exact Ls|].
    - rewrite !length_app, Ly. cbn [length]. rewrite length_app, Lmo. cbn [length]. rewrite length_app, Ld. cbn [length].
      rewrite length_app, Lh. cbn [length]. rewrite length_app, Lmi. cbn [length]. lia.
    - rewrite Vy, Vmo, Vd, Vh, Vmi, Vs. destruct u. cbn. f_equal; lia. }
  intros Ht. destruct (Hparts t Ht) as (y & mo & d & h & mi & s & Heq & Ly & Lmo & Ld & Lh & Lmi & Ls & Hval). split.
  { rewrite Heq, length_app. cbn [length]. rewrite length_app. cbn [length]. rewrite length_app. cbn [length]. rewrite length_app. cbn [length].
    rewrite length_app. cbn [length]. lia. }
  intros t' Ht'. destruct (Hparts t' Ht') as (y' & mo' & d' & h' & mi' & s' & Heq' & Ly' & Lmo' & Ld' & Lh' & Lmi' & Ls' & Hval').
  rewrite Heq, Heq', Hval, Hval'. intros H.
  apply app_inj_1 in H as [-> H]; [|congruence]. injection H as H. apply app_inj_1 in H as [-> H]; [|congruence]. injection H as H.
  apply app_inj_1 in H as [-> H]; [|congruence]. injection H as H. apply app_inj_1 in H as [-> H]; [|congruence]. injection H as H.
  apply app_inj_1 in H as [-> H]; [|congruence]. by injection H as ->.
Qed.

Lemma time_read_back_witness : length (GetCurrentTime (Tm 119 11 4 17 31 26)) = 19 /\ GetCurrentTime (Tm 119 11 4 17 31 26) = lit "2019-12-04 17:31:26".
Proof.
  split; [|vm_compute; reflexivity]. apply (time_read_back (Tm 119 11 4 17 31 26)). unfold calendar. cbn. lia.
Defined.

(** What the service answers to a request for the path [p]. *)
Definition worker_reply (p : str) : reply :=
  let body := lit "process result: " ++ add_index p in
  Reply ok (entity_headers body (lit "text/plain")) body.

(** the advertising service from socket to worker and back: bytes that are
    a well-formed request, whatever follows them, whose URI decodes to an
    absolute path without dots, are answered with [200], the worker's text for
    that path, its exact length and the type [text/plain]; and the answer the
    HTTP layer uses is the one [Work] computes whenever its character set
    conversion stays inside its buffers. *)
Theorem service_answers fs doc_root boost_split iconv wr rest p :
  wf_request wr -> url_decode (w_uri wr) = Some p -> bad_path p = false ->
  response_to (RH := worker_handler fs doc_root (lit "txt") CServerWork) 0 0 ok (print_request wr ++ rest) =
    Some (wire (worker_reply p)) /\
  forall r, Work boost_split iconv (add_index p) = Some r -> r = work (CoreWork := CServerWork) (add_index p).
Proof.
  intros Hw Hp Hbad. split.
  - unfold response_to. change (request0 0 0) with (empty_request 0 0). rewrite parse_print by done.
    cbn [mbind option_bind]. do 2 f_equal. cbn [handle worker_handler]. unfold handle_with, handle_request3.
    cbn [denote uri]. rewrite Hp, Hbad. cbv zeta. rewrite decide_True by by right. done.
  - intros r. unfold Work. destruct (splitRequest _ _ _); cbn; [|done]. by intros [= <-].
Qed.

Definition example_wire : wire_request := WireRequest (lit "GET") (lit "/a%20b") (lit "1") (lit "0") [].

Theorem service_answers_witness :
  exists out, response_to (RH := worker_handler (fun _ => None) [] (lit "txt") CServerWork) 0 0 ok
    (print_request example_wire) = Some out /\
  out = wire (worker_reply (lit "/a b")).
Proof.
  destruct (service_answers (fun _ => None) [] (fun s => [s]) (fun _ _ => None) example_wire [] (lit "/a b"))
    as [H _].
  - split; [|by constructor]. unfold wf_line, example_wire; cbn. split_and!; try done; repeat constructor; done.
  - vm_compute. reflexivity.
  - vm_compute. reflexivity.
  - rewrite app_nil_r in H. eexists. split; [exact H|reflexivity].
Defined.

(** A request in UTF-8 is taken for GBK: the test only looks at byte ranges
    that the two encodings share. *)
Example utf8_taken_for_gbk :
  let zhong_guo := to_char <$> [228; 184; 173; 229; 155; 189]%Z in
  isUTF8 (Some zhong_guo) = true /\ isGBK (Some zhong_guo) = Some true.
Proof. split; vm_compute; reflexivity. Qed.
