(* ===== verification/HttpClient.v ===== *)
(** * HttpClient: the clients of the advertising server

    Models [ad_system/server3/client/async_client.cpp] and [sync_client.cpp]: the
    request they send, what they make of the bytes that come back, in whatever
    pieces, and what they print. A completion is the end of one asynchronous
    operation; [async_read_until] and [read_until] are reads that go on until the
    delimiter is in the buffer. The messages of errors are arguments.

    At the end the clients are put together with the servers: what is printed for
    a path is the file behind it, or the answer of the worker. *)
From S2P Require Import Prelude HttpParser HttpGrammar HttpReply HttpHandler HttpServer Server3 AdSystem.

(** ** [std::istream] *)

(** [isspace] in the C locale. *)
Definition is_space (c : ascii) : bool := (uchar c =? 32)%Z || ((9 <=? uchar c) && (uchar c <=? 13))%Z.

Fixpoint skip_space (s : str) : str :=
  match s with c :: s' => if is_space c then skip_space s' else s | [] => [] end.

(** The longest start of the bytes that pass a test, and the rest. *)
Fixpoint span (f : ascii -> bool) (s : str) : str * str :=
  match s with
  | c :: s' => if f c then let '(a, b) := span f s' in (c :: a, b) else ([], s)
  | [] => ([], [])
  end.

(** [>>] of a string and of an [unsigned int], and [getline]; [None] sets the fail
    bit. *)
Definition extract_word (s : str) : option (str * str) :=
  match span (fun c => negb (is_space c)) (skip_space s) with ([], _) => None | (w, r) => Some (w, r) end.

Definition sign (s : str) : bool * str :=
  match s with
  | c :: s' => if decide (c = "-"%char) then (true, s') else if decide (c = "+"%char) then (false, s') else (false, s)
  | [] => (false, [])
  end.

Definition extract_unsigned (s : str) : option (Z * str) :=
  let '(negative, s) := sign (skip_space s) in
  match span (fun c => bool_decide (is_digit_char c)) s with
  | ([], _) => None
  | (ds, r) =>
      if (dec_value ds <? 2 ^ 32)%Z then Some (if negative : bool then uint32 (- dec_value ds) else dec_value ds, r) else None
  end.

Definition getline (s : str) : option (str * str) :=
  match s with
  | [] => None
  | _ => let '(l, r) := span (fun c => bool_decide (c <> LF)) s in Some (l, tail r)
  end.

(** ** The request *)

Definition request_text (server path : str) : str :=
  lit "GET " ++ path ++ lit " HTTP/1.0" ++ CRLF ++ lit "Host: " ++ server ++ CRLF ++
  lit "Accept: */*" ++ CRLF ++ lit "Connection: close" ++ CRLF ++ CRLF.

(** ** The response *)

(** A delimiter is in the buffer. *)
Fixpoint found (delim s : str) : bool :=
  bool_decide (delim `prefix_of` s) || match s with [] => false | _ :: s' => found delim s' end.

(** The status line: the code and what follows the line. *)
Definition check_status (response : str) : option (Z * str) :=
  '(http_version, s) ← extract_word response;
  '(code, s) ← extract_unsigned s;
  '(_, s) ← getline s;
  if decide (take 5 http_version = lit "HTTP/") then Some (code, s) else None.

(** The loop over the header lines: what is printed, and what follows them. *)
Fixpoint print_lines (fuel : nat) (s : str) : str * str :=
  match fuel with
  | O => ([], s)
  | S f =>
      match getline s with
      | None => ([], s)
      | Some (header, s) =>
          if decide (header = [CR]) then ([], s)
          else let '(out, r) := print_lines f s in (header ++ [LF] ++ out, r)
      end
  end.

Definition process_headers (response : str) : str * str := print_lines (S (length response)) response.

Definition invalid_text : str := lit "Invalid response" ++ [LF].
Definition status_text (code : Z) : str := lit "Response returned with status code " ++ to_string (Z.to_N code) ++ [LF].

(** ** The asynchronous client *)

Inductive phase := resolving | connecting | writing_request | reading_status_line | reading_headers | reading_content | over.

#[export] Instance phase_eq_dec : EqDecision phase.
Proof. solve_decision. Defined.

Record client := Client { stage : phase; response : str; output : str }.

Definition new_client : client := Client resolving [] [].

(** An operation ends with bytes (none for the first three), or with an error, the
    end of the stream or another, and the text it prints. *)
Inductive ending := eof (text : str) | failure (text : str).
Inductive completion := succeeds (bytes : str) | stops (e : ending).

Definition error_text (e : ending) : str := match e with eof text | failure text => text end.
Definition async_error (e : ending) : str := lit "Error: " ++ error_text e ++ [LF].
Definition sync_error (e : ending) : str := lit "Exception: " ++ error_text e ++ [LF].

Definition report (c : client) (e : ending) : client := Client over (response c) (output c ++ async_error e).

Definition handle_read_status_line (c : client) : client :=
  match check_status (response c) with
  | None => Client over (response c) (output c ++ invalid_text)
  | Some (status_code, rest) =>
      if (status_code =? 200)%Z then Client reading_headers rest (output c)
      else Client over rest (output c ++ status_text status_code)
  end.

Definition handle_read_headers (c : client) : client :=
  let '(text, rest) := process_headers (response c) in
  Client reading_content [] (output c ++ text ++ [LF] ++ rest).

Definition handle_read_content (c : client) : client := Client reading_content [] (output c ++ response c).

(** [async_read_until] is over when the delimiter is in the buffer, which it may be
    at once. *)
Definition until_headers (c : client) : client :=
  match stage c with
  | reading_headers => if found (CRLF ++ CRLF) (response c) then handle_read_headers c else c
  | _ => c
  end.
Definition until_status_line (c : client) : client :=
  if found CRLF (response c) then until_headers (handle_read_status_line c) else c.

Definition received (bytes : str) (c : client) : client := Client (stage c) (response c ++ bytes) (output c).
Definition enter (p : phase) (c : client) : client := Client p (response c) (output c).

Definition client_step (c : client) (e : completion) : option client :=
  match stage c, e with
  | over, _ => None
  | resolving, succeeds _ => Some (enter connecting c)
  | connecting, succeeds _ => Some (enter writing_request c)
  | writing_request, succeeds _ => Some (until_status_line (enter reading_status_line c))
  | reading_status_line, succeeds b => Some (until_status_line (received b c))
  | reading_headers, succeeds b => Some (until_headers (received b c))
  | reading_content, succeeds b => Some (handle_read_content (received b c))
  | reading_content, stops (eof _) => Some (enter over c)
  | _, stops e => Some (report c e)
  end.

(** [io_context::run] returns when there is no operation any more. *)
Fixpoint client_run (c : client) (es : list completion) : option client :=
  match es, stage c with
  | [], _ | _, over => Some c
  | e :: es', _ => c ← client_step c e; client_run c es'
  end.

(** ** The synchronous client *)

(** The pieces that [read_until] takes, until the delimiter is there; [None] when
    the stream ends before. *)
Fixpoint read_until (delim buf : str) (chunks : list str) : option (str * list str) :=
  if found delim buf then Some (buf, chunks)
  else match chunks with [] => None | b :: chunks' => read_until delim (buf ++ b) chunks' end.

(** [main], connected, with the pieces that come and the error at their end: what is
    printed. *)
Definition sync_main (chunks : list str) (e : ending) : str :=
  match read_until CRLF [] chunks with
  | None => sync_error e
  | Some (buf, chunks) =>
      match check_status buf with
      | None => invalid_text
      | Some (status_code, buf) =>
          if (status_code =? 200)%Z then
            match read_until (CRLF ++ CRLF) buf chunks with
            | None => sync_error e
            | Some (buf, chunks) =>
                let '(text, rest) := process_headers buf in
                let out := text ++ [LF] ++ rest ++ concat chunks in
                match e with eof _ => out | failure _ => out ++ sync_error e end
            end
          else status_text status_code
      end
  end.

(** ** Specification *)

(** What a reader of the terminal sees of a reply. *)
Definition shown (rep : reply) : str :=
  if (status_code (status rep) =? 200)%Z then
    concat ((fun h => name h ++ lit ": " ++ value h ++ CRLF) <$> rep_headers rep) ++ [LF] ++ content rep
  else status_text (status_code (status rep)).

(** A reply whose headers are lines. *)
Definition line_header (h : header) : Prop :=
  name h <> [] /\ CR ∉ name h /\ LF ∉ name h /\ CR ∉ value h /\ LF ∉ value h.
Definition line_headers (rep : reply) : Prop := rep_headers rep <> [] /\ Forall line_header (rep_headers rep).

(** What is seen when only [n] bytes of it come, with the message of an error. *)
Definition shown_part (message : ending -> str) (rep : reply) (n : nat) (e : ending) : str :=
  let line := length (status_strings_to_buffer (status rep)) in
  let lines := concat ((fun h => name h ++ lit ": " ++ value h ++ CRLF) <$> rep_headers rep) in
  let head := line + length lines + 2 in
  if (n <? line)%nat then message e
  else if negb (status_code (status rep) =? 200)%Z then status_text (status_code (status rep))
  else if (n <? head)%nat then message e
  else lines ++ [LF] ++ take (n - head) (content rep) ++ match e with eof _ => [] | failure _ => message e end.

(** The events of a client that is answered with these pieces. *)
Definition answered_with (chunks : list str) (e : ending) : list completion :=
  [succeeds []; succeeds []; succeeds []] ++ (succeeds <$> chunks) ++ [stops e].

(** ** Line ends *)

Lemma found_spec d s : found d s = true <-> exists a b, s = a ++ d ++ b.
Proof.
  induction s as [|c s IH]; cbn [found].
  - rewrite orb_false_r, bool_decide_eq_true. split.
    + intros [b ->]. by exists [], b.
    + intros (a & b & Heq). symmetry in Heq. apply app_nil in Heq as [-> Heq]. exists b. done.
  - rewrite orb_true_iff, bool_decide_eq_true, IH. split.
    + intros [[b ->]|(a & b & ->)]; [by exists [], b|by exists (c :: a), b].
    + intros ([|c' a] & b & Heq); [left; by exists b|]. injection Heq as <- ->. right. by exists a, b.
Qed.

Lemma crlf_split l t a b : CR ∉ l -> a ++ CRLF ++ b = l ++ CRLF ++ t ->
  (a = l /\ b = t) \/ exists a', a = l ++ CRLF ++ a' /\ t = a' ++ CRLF ++ b.
Proof.
  revert a. induction l as [|c l IH]; intros a Hl Heq.
  - destruct a as [|x [|y a]]; cbn in Heq; [injection Heq as ->; by left|discriminate Heq|].
    injection Heq as -> -> <-. right. by exists a.
  - apply not_elem_of_cons in Hl as [Hc Hl]. destruct a as [|x a]; cbn in Heq; [by injection Heq as <- _|].
    injection Heq as -> Heq. destruct (IH a Hl Heq) as [[-> ->]|(a' & -> & ->)]; [by left|right; by exists a'].
Qed.

(** Once a line end is there, the line is. *)
Lemma found_line l t buf rest : CR ∉ l -> buf ++ rest = l ++ CRLF ++ t -> found CRLF buf = true -> exists b, buf = l ++ CRLF ++ b /\ t = b ++ rest.
Proof.
  intros Hl Heq (a & b & ->)%found_spec. rewrite <- !app_assoc in Heq.
  destruct (crlf_split _ _ _ _ Hl Heq) as [[-> <-]|(a' & -> & ->)].
  - exists b. done.
  - exists (a' ++ CRLF ++ b). by rewrite <- !app_assoc.
Qed.

Definition header_lines (hs : list header) : str := concat ((fun h => name h ++ lit ": " ++ value h ++ CRLF) <$> hs).

Lemma header_lines_cons h hs : header_lines (h :: hs) = (name h ++ lit ": " ++ value h) ++ CRLF ++ header_lines hs.
Proof. unfold header_lines. rewrite fmap_cons. cbn [concat]. by rewrite <- !app_assoc. Qed.

Lemma header_line h : line_header h -> exists c l, name h ++ lit ": " ++ value h = c :: l /\ c <> CR /\ CR ∉ c :: l /\ LF ∉ c :: l.
Proof.
  intros (Hne & H1 & H2 & H3 & H4). destruct (name h) as [|c l] eqn:Hn; [done|]. exists c, (l ++ lit ": " ++ value h). split; [done|].
  assert (CR ∉ lit ": " /\ LF ∉ lit ": ") as [H5 H6] by (split; apply (bool_decide_unpack _); vm_compute; exact I).
  split; [by apply not_elem_of_cons in H1 as [? _]|]. rewrite !app_comm_cons. rewrite !not_elem_of_app. split_and!; done.
Qed.

(** Once an empty line is there, the header lines are. *)
Lemma found_headers hs t buf rest :
  hs <> [] -> Forall line_header hs -> buf ++ rest = header_lines hs ++ CRLF ++ t -> found (CRLF ++ CRLF) buf = true ->
  exists b, buf = header_lines hs ++ CRLF ++ b /\ t = b ++ rest.
Proof.
  intros Hne Hhs Heq (a & b & Hbuf)%found_spec. rewrite <- app_assoc in Hbuf.
  assert (exists b', buf = header_lines hs ++ CRLF ++ b') as [b' Hb'].
  2:{ exists b'. split; [done|]. rewrite Hb', <- !app_assoc in Heq. by apply app_inv_head, app_inv_head in Heq. }
  revert a buf Hbuf Heq. induction Hhs as [|h hs Hh Hhs IH]; intros a buf -> Heq; [done|].
  destruct (header_line h Hh) as (c & l & Hl & _ & Hcr & _). rewrite header_lines_cons in *. rewrite Hl in *.
  rewrite <- !app_assoc in Heq. destruct (crlf_split _ _ _ _ Hcr Heq) as [[-> Heq']|(a' & -> & Heq')]; clear Heq; rename Heq' into Heq.
  - destruct hs as [|h' hs]; [exists b; by rewrite <- !app_assoc|]. exfalso. rewrite header_lines_cons in Heq.
    apply Forall_cons in Hhs as [Hh' _]. destruct (header_line h' Hh') as (c' & l' & Hl' & Hc' & _). rewrite Hl' in Heq. by injection Heq as <- _.
  - destruct hs as [|h' hs].
    + destruct a' as [|x [|y a']]; cbn in Heq; injection Heq as; subst; [|done|].
      * eexists. by rewrite <- !app_assoc.
      * exists (a' ++ CRLF ++ CRLF ++ b). cbn. by rewrite <- !app_assoc.
    + destruct (IH ltac:(done) a' (a' ++ CRLF ++ CRLF ++ b) eq_refl) as [b' Hb']; [by rewrite <- !app_assoc|].
      exists b'. by rewrite <- !app_assoc, Hb'.
Qed.

(** ** The handlers on what a server sends *)

Lemma span_line l r : LF ∉ l -> span (fun c => bool_decide (c <> LF)) (l ++ LF :: r) = (l, LF :: r).
Proof.
  induction l as [|c l IH]; intros H; cbn [span app]; [by rewrite bool_decide_false by (intros []; done)|].
  apply not_elem_of_cons in H as [Hc Hl]. rewrite bool_decide_true by congruence. by rewrite IH.
Qed.

Lemma getline_line l r : LF ∉ l -> getline (l ++ LF :: r) = Some (l, r).
Proof. intros H. unfold getline. destruct (l ++ LF :: r) eqn:He; [by destruct l|]. rewrite <- He. by rewrite span_line. Qed.

Lemma print_lines_headers hs b fuel : Forall line_header hs -> length hs < fuel ->
  print_lines fuel (header_lines hs ++ CRLF ++ b) = (header_lines hs, b).
Proof.
  intros Hhs. revert fuel. induction Hhs as [|h hs Hh Hhs IH]; intros [|fuel] Hf; try (cbn in Hf; lia); cbn [print_lines].
  - change (header_lines [] ++ CRLF ++ b) with ([CR] ++ LF :: b). rewrite getline_line by (apply (bool_decide_unpack _); vm_compute; exact I).
    by rewrite decide_True.
  - destruct (header_line h Hh) as (c & l & Hl & Hc & _ & Hlf). rewrite header_lines_cons, Hl.
    replace (((c :: l) ++ CRLF ++ header_lines hs) ++ CRLF ++ b) with (((c :: l) ++ [CR]) ++ LF :: header_lines hs ++ CRLF ++ b)
      by by rewrite <- !app_assoc.
    rewrite getline_line.
    2:{ rewrite not_elem_of_app. split; [done|]. apply (bool_decide_unpack _); vm_compute; exact I. }
    rewrite decide_False by (intros Heq; injection Heq as -> _; done). cbn in Hf. rewrite IH by lia. f_equal. by rewrite <- !app_assoc.
Qed.

Lemma process_headers_spec hs b : Forall line_header hs -> process_headers (header_lines hs ++ CRLF ++ b) = (header_lines hs, b).
Proof.
  intros Hhs. apply print_lines_headers; [done|]. rewrite length_app.
  assert (length hs <= length (header_lines hs)); [|lia]. clear. induction hs as [|h hs IH]; [cbn; lia|].
  rewrite header_lines_cons, !length_app. change (length CRLF) with 2. cbn [length]. lia.
Qed.

Lemma check_status_spec s b : check_status (status_strings_to_buffer s ++ b) = Some (status_code s, b).
Proof. destruct s; reflexivity. Qed.

Lemma wire_lines rep : wire rep = status_strings_to_buffer (status rep) ++ header_lines (rep_headers rep) ++ CRLF ++ content rep.
Proof.
  rewrite wire_eq, <- concat_header_buffers. f_equal. f_equal. unfold header_lines. induction (rep_headers rep) as [|h hs IH]; [done|].
  rewrite !fmap_cons. cbn [concat]. rewrite concat_app, IH. done.
Qed.

(** ** A run of the client *)

Section run.
Context (rep : reply) (Hlines : line_headers rep).

(** What the client has made of the bytes so far. *)
Definition made_of (got : str) (c : client) : Prop :=
  let line := status_strings_to_buffer (status rep) in
  let good := status_code (status rep) = 200%Z in
  match stage c with
  | reading_status_line => response c = got /\ output c = [] /\ found CRLF got = false
  | reading_headers => good /\ got = line ++ response c /\ output c = [] /\ found (CRLF ++ CRLF) (response c) = false
  | reading_content => good /\ exists x, got = line ++ header_lines (rep_headers rep) ++ CRLF ++ x /\
      output c = header_lines (rep_headers rep) ++ [LF] ++ x /\ response c = []
  | over => ~ good /\ output c = status_text (status_code (status rep)) /\ length line <= length got
  | _ => False
  end.

Lemma until_headers_made got rest c :
  got ++ rest = wire rep -> status_code (status rep) = 200%Z -> stage c = reading_headers ->
  got = status_strings_to_buffer (status rep) ++ response c -> output c = [] -> made_of got (until_headers c).
Proof.
  intros Hgot Hgood Hst Hr Ho. unfold until_headers. rewrite Hst. destruct (found (CRLF ++ CRLF) (response c)) eqn:Hf.
  - rewrite wire_lines, Hr, <- app_assoc in Hgot. apply app_inv_head in Hgot. destruct Hlines as [Hne Hhs].
    destruct (found_headers _ _ _ _ Hne Hhs Hgot Hf) as (b & Hb & _). unfold handle_read_headers. rewrite Hb, process_headers_spec by done.
    split; [done|]. exists b. rewrite Hr, Hb, Ho. done.
  - unfold made_of. by rewrite Hst.
Qed.

Lemma until_status_made got rest c :
  got ++ rest = wire rep -> stage c = reading_status_line -> response c = got -> output c = [] -> made_of got (until_status_line c).
Proof.
  intros Hgot Hst Hr Ho. unfold until_status_line. destruct (found CRLF (response c)) eqn:Hf.
  - rewrite Hr in Hf. pose proof Hgot as Hw. destruct (status_line (status rep)) as (l & Hl & Hcr & _).
    rewrite wire_lines, Hl, <- app_assoc in Hw. destruct (found_line _ _ _ _ Hcr Hw Hf) as (b & Hb & _).
    assert (got = status_strings_to_buffer (status rep) ++ b) as Hb' by by rewrite Hl, <- app_assoc.
    unfold handle_read_status_line. rewrite Hr, Hb', check_status_spec. destruct (Z.eqb_spec (status_code (status rep)) 200) as [Hz|Hz].
    + apply (until_headers_made _ rest); try done. by rewrite <- Hb'.
    + cbn [until_headers stage]. split; [done|]. cbn [output]. rewrite Ho, length_app. split; [done|lia].
  - unfold made_of. rewrite Hst. by rewrite Hr in Hf.
Qed.

Lemma step_made got b rest c :
  made_of got c -> (got ++ b) ++ rest = wire rep -> stage c <> over ->
  exists c', client_step c (succeeds b) = Some c' /\ made_of (got ++ b) c'.
Proof.
  unfold made_of at 1. intros Hc Hgot Hne. unfold client_step. destruct (stage c) eqn:Hst; try done.
  - destruct Hc as (Hr & Ho & _). eexists. split; [done|]. apply (until_status_made _ rest); try done. cbn. by rewrite Hr.
  - destruct Hc as (Hgood & Hr & Ho & _). eexists. split; [done|]. apply (until_headers_made _ rest); try done.
    cbn. by rewrite Hr, <- app_assoc.
  - destruct Hc as (Hgood & x & Hr & Ho & Hresp). eexists. split; [done|]. split; [done|]. exists (x ++ b). cbn.
    rewrite Hr, Ho, Hresp. cbn. by rewrite <- !app_assoc.
Qed.

Lemma no_line_yet got rest : got ++ rest = wire rep ->
  found CRLF got = negb (length got <? length (status_strings_to_buffer (status rep)))%nat.
Proof.
  rewrite wire_lines. intros Hgot. destruct (status_line (status rep)) as (l & Hl & Hcr & _). rewrite Hl in *.
  destruct (Nat.ltb_spec (length got) (length (l ++ CRLF))) as [Hn|Hn]; cbn [negb].
  - apply not_true_iff_false. intros Hf. rewrite <- app_assoc in Hgot. destruct (found_line _ _ _ _ Hcr Hgot Hf) as (b & -> & _).
    rewrite !length_app in Hn. lia.
  - apply found_spec. apply (f_equal (take (length (l ++ CRLF)))) in Hgot. rewrite take_app_le, take_app_length in Hgot by done.
    rewrite <- (take_drop (length (l ++ CRLF)) got), Hgot. rewrite <- app_assoc. by eexists _, _.
Qed.

Lemma no_headers_yet got rest : got ++ rest = header_lines (rep_headers rep) ++ CRLF ++ content rep ->
  found (CRLF ++ CRLF) got = negb (length got <? length (header_lines (rep_headers rep)) + 2)%nat.
Proof.
  destruct Hlines as [Hne Hhs]. intros Hgot. destruct (Nat.ltb_spec (length got) (length (header_lines (rep_headers rep)) + 2)) as [Hn|Hn]; cbn [negb].
  - apply not_true_iff_false. intros Hf. destruct (found_headers _ _ _ _ Hne Hhs Hgot Hf) as (b & -> & _).
    rewrite !length_app in Hn. change (length CRLF) with 2 in Hn. lia.
  - apply found_spec. assert (length (header_lines (rep_headers rep) ++ CRLF) <= length got) as Hn' by (rewrite length_app; exact Hn).
    rewrite app_assoc in Hgot. apply (f_equal (take (length (header_lines (rep_headers rep) ++ CRLF)))) in Hgot.
    rewrite take_app_le, take_app_length in Hgot by done.
    rewrite <- (take_drop (length (header_lines (rep_headers rep) ++ CRLF)) got), Hgot.
    destruct (exists_last Hne) as (hs & h & ->). unfold header_lines. rewrite fmap_app, concat_app. cbn [fmap list_fmap concat].
    exists (concat ((fun h => name h ++ lit ": " ++ value h ++ CRLF) <$> hs) ++ name h ++ lit ": " ++ value h).
    eexists. by rewrite app_nil_r, <- !app_assoc.
Qed.

(** What is printed depends on how many bytes have come, and not on the pieces. *)
Lemma made_ends got rest c e : made_of got c -> got ++ rest = wire rep ->
  exists c', client_run c [stops e] = Some c' /\ stage c' = over /\ output c' = shown_part async_error rep (length got) e.
Proof.
  intros Hc Hgot. pose proof (no_line_yet got rest Hgot) as Hline. unfold made_of in Hc. cbn [client_run]. unfold client_step, shown_part.
  fold (header_lines (rep_headers rep)). destruct (stage c) eqn:Hs; try done; cbn [mbind option_bind client_run].
  - destruct Hc as (_ & Ho & Hf). rewrite Hf in Hline. destruct (_ <? _)%nat; [|done]. exists (report c e). split; [by destruct e|]. split; [done|].
    cbn. by rewrite Ho.
  - destruct Hc as (Hgood & Hr & Ho & Hf). rewrite wire_lines, Hr, <- app_assoc in Hgot. apply app_inv_head in Hgot.
    rewrite (no_headers_yet _ _ Hgot) in Hf. rewrite (proj2 (Z.eqb_eq _ _) Hgood), Hr, length_app. cbn [negb].
    rewrite (proj2 (Nat.ltb_ge _ _)) by lia.
    destruct (Nat.ltb_spec (length (response c)) (length (header_lines (rep_headers rep)) + 2)); [|done]. rewrite (proj2 (Nat.ltb_lt _ _)) by lia.
    exists (report c e). split; [by destruct e|]. split; [done|]. cbn. by rewrite Ho.
  - destruct Hc as (Hgood & x & Hr & Ho & _). rewrite wire_lines, Hr, <- !app_assoc in Hgot. do 3 apply app_inv_head in Hgot.
    rewrite (proj2 (Z.eqb_eq _ _) Hgood), Hr, !length_app. change (length CRLF) with 2. cbn [negb].
    rewrite !(proj2 (Nat.ltb_ge _ _)) by lia. rewrite <- Hgot.
    match goal with |- context [take ?n _] => replace n with (length x) by lia end. rewrite take_app_length.
    destruct e; eexists; (split; [done|]); (split; [done|]); cbn [enter report output]; rewrite Ho, ?app_nil_r, <- ?app_assoc; done.
  - destruct Hc as (Hbad & Ho & Hn). exists c. split; [done|]. split; [done|]. rewrite Ho.
    by rewrite (proj2 (Nat.ltb_ge _ _)), (proj2 (Z.eqb_neq _ _)) by done.
Qed.

Lemma made_over got b c : stage c = over -> made_of got c -> made_of (got ++ b) c.
Proof. intros Hs. unfold made_of. rewrite Hs, length_app. intros (? & ? & ?). split_and!; [done..|lia]. Qed.

Lemma run_made chunks rest got c e :
  made_of got c -> (got ++ concat chunks) ++ rest = wire rep ->
  exists c', client_run c ((succeeds <$> chunks) ++ [stops e]) = Some c' /\ stage c' = over /\
    output c' = shown_part async_error rep (length (got ++ concat chunks)) e.
Proof.
  revert got c. induction chunks as [|b chunks IH]; intros got c Hc Hgot.
  - cbn [concat] in *. rewrite app_nil_r in *. by apply (made_ends got rest).
  - cbn [concat] in *. rewrite app_assoc in Hgot |- *. destruct (decide (stage c = over)) as [Hst|Hst].
    + destruct (IH (got ++ b) c (made_over _ _ _ Hst Hc) Hgot) as (c' & Hr & H). exists c'. split; [|done].
      cbn [fmap list_fmap app client_run]. rewrite Hst. destruct ((succeeds <$> chunks) ++ [stops e]) eqn:He; [done|].
      cbn [client_run] in Hr. by rewrite Hst in Hr.
    + destruct (step_made got b (concat chunks ++ rest) c Hc ltac:(by rewrite app_assoc) Hst) as (c' & Hs & Hc').
      destruct (IH _ c' Hc' Hgot) as (c2 & Hr & H). exists c2. split; [|done].
      cbn [fmap list_fmap app client_run]. rewrite Hs. cbn [mbind option_bind]. by destruct (stage c).
Qed.
End run.

(** ** The synchronous client does the same *)

Lemma found_app d a b : found d a = true -> found d (a ++ b) = true.
Proof. rewrite !found_spec. intros (x & y & ->). exists x, (y ++ b). by rewrite <- !app_assoc. Qed.

Lemma read_until_spec d buf chunks :
  match read_until d buf chunks with
  | Some (buf', chunks') => found d buf' = true /\ buf' ++ concat chunks' = buf ++ concat chunks
  | None => found d (buf ++ concat chunks) = false
  end.
Proof.
  revert buf. induction chunks as [|b chunks IH]; intros buf; cbn [read_until]; destruct (found d buf) eqn:Hb; try done.
  - cbn [concat]. by rewrite app_nil_r.
  - specialize (IH (buf ++ b)). cbn [concat]. by rewrite app_assoc.
Qed.

Lemma sync_main_spec rep chunks rest e :
  line_headers rep -> concat chunks ++ rest = wire rep ->
  sync_main chunks e = shown_part sync_error rep (length (concat chunks)) e.
Proof.
  intros Hlines Hc. pose proof (no_line_yet rep _ _ Hc) as Hline. unfold sync_main, shown_part. cbv zeta.
  fold (header_lines (rep_headers rep)). pose proof (read_until_spec CRLF [] chunks) as H1. cbn [app] in H1.
  destruct (read_until CRLF [] chunks) as [[buf chunks1]|]; [|rewrite H1 in Hline; by destruct (_ <? _)%nat].
  destruct H1 as [Hf Heq]. rewrite <- Heq, <- app_assoc in Hc. pose proof Hc as Hw.
  destruct (status_line (status rep)) as (l & Hl & Hcr & _). rewrite wire_lines, Hl, <- app_assoc in Hw.
  destruct (found_line _ _ _ _ Hcr Hw Hf) as (b & Hb & Hb').
  assert (buf = status_strings_to_buffer (status rep) ++ b) as -> by by rewrite Hl, <- app_assoc. clear Hb Hw.
  rewrite check_status_spec, <- Heq, <- app_assoc, !length_app, (proj2 (Nat.ltb_ge _ _)) by lia.
  destruct (Z.eqb_spec (status_code (status rep)) 200) as [Hz|Hz]; cbn [negb]; [|done].
  pose proof (read_until_spec (CRLF ++ CRLF) b chunks1) as H2.
  assert ((b ++ concat chunks1) ++ rest = header_lines (rep_headers rep) ++ CRLF ++ content rep) as Hrest by by rewrite <- app_assoc.
  pose proof (no_headers_yet rep Hlines _ _ Hrest) as Hh. rewrite length_app in Hh.
  destruct (read_until (CRLF ++ CRLF) b chunks1) as [[buf2 chunks2]|].
  - destruct H2 as [Hf2 Heq2]. rewrite <- Heq2, <- app_assoc in Hrest. destruct Hlines as [Hne Hhs].
    destruct (found_headers _ _ _ _ Hne Hhs Hrest Hf2) as (x & -> & Hx). rewrite process_headers_spec by done.
    apply (f_equal length) in Heq2. rewrite !length_app in Heq2. change (length CRLF) with 2 in Heq2.
    rewrite (proj2 (Nat.ltb_ge _ _)) by lia. rewrite Hx, (app_assoc x).
    match goal with |- context [take ?n _] => replace n with (length (x ++ concat chunks2)) by (rewrite length_app; lia) end.
    rewrite take_app_length. destruct e; rewrite ?app_nil_r, <- ?app_assoc; done.
  - rewrite H2 in Hh. destruct (Nat.ltb_spec (length b + length (concat chunks1)) (length (header_lines (rep_headers rep)) + 2)); [|done].
    by rewrite (proj2 (Nat.ltb_lt _ _)) by lia.
Qed.

(** ** The replies of the servers are lines *)

Lemma entity_lines s body type : CR ∉ type -> LF ∉ type -> line_headers (Reply s (entity_headers body type) body).
Proof.
  intros H1 H2. split; [done|]. cbn [rep_headers]. unfold entity_headers.
  repeat constructor; cbn [name value]; try done; try (apply (bool_decide_unpack _); vm_compute; exact I).
  - apply digits_no_cr, to_string_digits.
  - pose proof (to_string_digits (N.of_nat (length body))) as Hd. intros Hin. rewrite Forall_forall in Hd. apply Hd in Hin. revert Hin.
    apply (bool_decide_unpack (~ is_digit_char LF)). exact I.
Qed.

Lemma stock_lines s : line_headers (stock_reply s).
Proof. apply entity_lines; apply (bool_decide_unpack _); vm_compute; exact I. Qed.

Lemma extension_to_type_no_lf e : LF ∉ extension_to_type e.
Proof. unfold extension_to_type, mappings. cbn [lookup_type]. repeat case_decide; apply (bool_decide_unpack _); vm_compute; exact I. Qed.

(** What the client asks, as the servers read it. *)
Definition client_request (server path : str) : wire_request :=
  WireRequest (lit "GET") path (lit "1") (lit "0")
    [WireHeader (lit "Host") server []; WireHeader (lit "Accept") (lit "*/*") []; WireHeader (lit "Connection") (lit "close") []].

Lemma request_text_print server path : request_text server path = print_request (client_request server path).
Proof.
  unfold request_text, print_request, print_line, print_headers, client_request. cbn [w_method w_uri w_major w_minor w_headers fmap list_fmap concat].
  unfold print_header, print_header_body, print_folds. cbn [wh_name wh_first wh_folds fmap list_fmap concat].
  rewrite !app_nil_r, <- !app_assoc. done.
Qed.

Lemma client_request_wf server path : Forall text_char server -> Forall uri_char path -> wf_request (client_request server path).
Proof.
  intros Hs Hp. split.
  - unfold wf_line, client_request. cbn. split_and!; try done; repeat constructor; done.
  - unfold client_request. cbn [w_headers]. repeat constructor; cbn; done.
Qed.

(** ** Properties *)

(** C28: What both clients print depends only on how many bytes of a reply (with line
    headers) reach them and not on the pieces they come in: the message of the
    error while the status line or the header lines are incomplete, the code of a
    status that is not 200, and else the header lines, an empty line and what came
    of the content; that the content is cut short is not noticed when the stream
    simply ends. *)
Theorem clients_read rep chunks rest e :
  line_headers rep -> concat chunks ++ rest = wire rep ->
  (exists c, client_run new_client (answered_with chunks e) = Some c /\ stage c = over /\
     output c = shown_part async_error rep (length (concat chunks)) e) /\
  sync_main chunks e = shown_part sync_error rep (length (concat chunks)) e.
Proof.
  intros Hl Hc. split; [|by apply (sync_main_spec rep chunks rest)].
  destruct (run_made rep Hl chunks rest [] (Client reading_status_line [] []) e) as (c & Hr & Hst & Ho); [done|done|].
  exists c. done.
Qed.

(** Both clients print this when the bytes arrive, in whatever pieces, and then the
    stream ends. *)
Definition clients_print (out bytes : str) : Prop :=
  forall chunks m, concat chunks = bytes ->
    (exists c, client_run new_client (answered_with chunks (eof m)) = Some c /\ stage c = over /\ output c = out) /\
    sync_main chunks (eof m) = out.

Lemma shown_whole message rep m : shown_part message rep (length (wire rep)) (eof m) = shown rep.
Proof.
  unfold shown_part, shown. fold (header_lines (rep_headers rep)). rewrite wire_lines, !length_app. change (length CRLF) with 2.
  rewrite !(proj2 (Nat.ltb_ge _ _)) by lia. destruct (status_code (status rep) =? 200)%Z; [|done]. cbn [negb].
  rewrite take_ge by lia. by rewrite app_nil_r.
Qed.

Lemma clients_print_shown rep : line_headers rep -> clients_print (shown rep) (wire rep).
Proof.
  intros Hl chunks m Hc. split.
  - destruct (run_made rep Hl chunks [] [] (Client reading_status_line [] []) (eof m)) as (c & Hr & Hst & Ho); [done|by rewrite app_nil_r|].
    exists c. cbn [app] in Ho. rewrite Hc, shown_whole in Ho. done.
  - rewrite (sync_main_spec rep chunks []) by (done || by rewrite app_nil_r). by rewrite Hc, shown_whole.
Qed.

(** What a user sees of a body and its type. *)
Definition entity_text (body type : str) : str :=
  lit "Content-Length: " ++ to_string (N.of_nat (length body)) ++ CRLF ++ lit "Content-Type: " ++ type ++ CRLF ++ [LF] ++ body.

Lemma shown_entity body type : shown (Reply ok (entity_headers body type) body) = entity_text body type.
Proof.
  unfold shown, entity_text, entity_headers. cbn [status status_code rep_headers content Z.eqb Pos.eqb fmap list_fmap concat name value].
  rewrite app_nil_r, <- !app_assoc. done.
Qed.

(** What a path is good for: the file behind it, or the text of the worker. *)
Definition file_text (fs : str -> option str) (doc_root path : str) : str :=
  match url_decode path with
  | None => status_text 400
  | Some p =>
      if bad_path p then status_text 400
      else match fs (c_str (doc_root ++ add_index p)) with
           | None => status_text 404
           | Some file => entity_text file (extension_to_type (path_extension (add_index p)))
           end
  end.
Definition worker_text (path : str) : str :=
  match url_decode path with
  | None => status_text 400
  | Some p => if bad_path p then status_text 400 else entity_text (lit "process result: " ++ add_index p) (lit "text/plain")
  end.

(** C6: The clients and the servers together. Asked for a path (without spaces and
    control characters), the server of files answers with bytes of which the
    clients, whatever the pieces they come in, print the header lines and exactly
    the file, or the code 404 where there is none, or 400 where the path cannot be
    decoded or leaves the document root; the advertising service with the text of
    its worker. *)
Theorem client_server fs doc_root server path :
  Forall text_char server -> Forall uri_char path ->
  (exists bytes, response_to (RH := file_handler fs doc_root) 0 0 ok (request_text server path) = Some bytes /\
     clients_print (file_text fs doc_root path) bytes) /\
  (exists bytes, response_to (RH := worker_handler fs doc_root (lit "txt") CServerWork) 0 0 ok (request_text server path) = Some bytes /\
     clients_print (worker_text path) bytes).
Proof.
  intros Hs Hp. pose proof (client_request_wf server path Hs Hp) as Hw. rewrite request_text_print.
  assert (forall RH, response_to (RH := RH) 0 0 ok (print_request (client_request server path)) =
    Some (wire (@handle RH (denote (client_request server path)) (reply0 ok)))) as Hresp.
  { intros RH. unfold response_to. change (request0 0 0) with (empty_request 0 0).
    rewrite <- (app_nil_r (print_request _)), parse_print by done. done. }
  split; eexists; (split; [apply Hresp|]); cbn [handle file_handler worker_handler].
  - unfold handle_request, file_text. cbn [denote uri client_request w_uri].
    destruct (url_decode path) as [p|]; [|apply (clients_print_shown (stock_reply bad_request)), stock_lines].
    destruct (bad_path p); [apply (clients_print_shown (stock_reply bad_request)), stock_lines|]. cbv zeta.
    destruct (fs _) as [file|]; [|apply (clients_print_shown (stock_reply not_found)), stock_lines].
    cbn [fst]. rewrite read_all_app. cbn [reply0 content app]. unfold handle_headers. rewrite <- shown_entity.
    apply clients_print_shown, entity_lines; [apply extension_to_type_no_cr|apply extension_to_type_no_lf].
  - unfold handle_with, handle_request3, worker_text. cbn [denote uri client_request w_uri].
    destruct (url_decode path) as [p|]; [|apply (clients_print_shown (stock_reply bad_request)), stock_lines].
    destruct (bad_path p); [apply (clients_print_shown (stock_reply bad_request)), stock_lines|]. cbv zeta.
    rewrite decide_True by by right. cbn [reply0 content app]. rewrite <- shown_entity.
    apply clients_print_shown, entity_lines; apply (bool_decide_unpack _); vm_compute; exact I.
Qed.

(** ** Witnesses and examples *)

Definition hello : reply := Reply ok (entity_headers (lit "hello") (lit "text/plain")) (lit "hello").

(** Three pieces; the last two bytes of the content are lost, and nobody notices. *)
Definition cut_short : list str := [take 20 (wire hello); take 3 (drop 20 (wire hello)); take 44 (drop 23 (wire hello))].

Lemma clients_read_witness :
  sync_main cut_short (eof (lit "End of file")) =
    lit "Content-Length: 5" ++ CRLF ++ lit "Content-Type: text/plain" ++ CRLF ++ [LF] ++ lit "hel".
Proof.
  destruct (clients_read hello cut_short (drop 67 (wire hello)) (eof (lit "End of file"))) as [_ H].
  - split; [discriminate|]. repeat constructor; try discriminate; apply (bool_decide_unpack _); vm_compute; exact I.
  - vm_compute. reflexivity.
  - rewrite H. vm_compute. reflexivity.
Defined.

(** A directory with an index, asked for by its percent-encoded name. *)
Lemma client_server_witness :
  exists bytes, response_to (RH := file_handler (fun p => if decide (p = lit "/srv/a b/index.html") then Some (lit "hi") else None) (lit "/srv"))
      0 0 ok (request_text (lit "localhost") (lit "/a%20b/")) = Some bytes /\
    sync_main [bytes] (eof []) = lit "Content-Length: 2" ++ CRLF ++ lit "Content-Type: text/html" ++ CRLF ++ [LF] ++ lit "hi".
Proof.
  destruct (client_server (fun p => if decide (p = lit "/srv/a b/index.html") then Some (lit "hi") else None) (lit "/srv")
    (lit "localhost") (lit "/a%20b/")) as [(bytes & Hr & Hp) _].
  - repeat constructor.
  - repeat constructor; discriminate.
  - exists bytes. split; [exact Hr|]. destruct (Hp [bytes] []) as [_ Hs]; [apply app_nil_r|]. rewrite Hs. vm_compute. reflexivity.
Defined.

(** A path with a space is not a request. *)
Example space_in_path :
  response_to (RH := file_handler (fun _ => Some []) []) 0 0 ok (request_text (lit "localhost") (lit "/a b")) = Some (wire (stock_reply bad_request)).
Proof. vm_compute. reflexivity. Qed.

(** A reply without header lines: the end of the status line is taken with the line,
    so the empty line is never found, and nothing of the content is printed. *)
Example no_header_lines :
  sync_main [lit "HTTP/1.0 200 OK" ++ CRLF ++ CRLF ++ lit "content"] (eof (lit "End of file")) = sync_error (eof (lit "End of file")).
Proof. vm_compute. reflexivity. Qed.
