(* ===== verification/Exp.v ===== *)
(** * Exp: flow splitting by configuration

    Models [exp_.../exp.h] and [exp.cpp]: the blank characters and [trim], the
    loader of a configuration of typed flags in sections, the look-up of a flag
    for a position and the four typed getters.

    A getter can return, leave the process with [exit], or have no defined
    result; the type [outcome] says which. The text of a float is read by
    [atof] into a [double] and rounded to a [float]; both are the
    numbers of the standard library's [SpecFloat]. *)
From S2P Require Import Prelude.
From Stdlib Require Import SpecFloat.

(** ** [strtod], the reader of floating point numerals *)

(** A run of digits in base [b]: its value after [acc], its length, the rest. *)
Section Digits.
Context (digit : ascii -> option Z) (b : Z).
Fixpoint digit_run (acc : Z) (n : nat) (s : str) : Z * nat * str :=
  match s with
  | c :: s' => match digit c with Some d => digit_run (acc * b + d) (n + 1) s' | None => (acc, n, s) end
  | [] => (acc, n, s)
  end.

(** Digits, a point, digits: the mantissa without the point and the number of
    digits after it; [None] without any digit. *)
Definition mantissa (s : str) : option (Z * nat * str) :=
  let '(i, n, s1) := digit_run 0 0 s in
  match s1 with
  | "."%char :: s2 =>
      let '(m, k, s3) := digit_run i 0 s2 in
      if decide (n + k = 0) then None else Some (m, k, s3)
  | _ => if decide (n = 0) then None else Some (i, 0, s1)
  end.
End Digits.

Definition dec_digit (c : ascii) : option Z :=
  if bool_decide (is_digit_char c) then Some (schar c - 48)%Z else None.
Definition hexa_digit (c : ascii) : option Z :=
  if bool_decide (is_digit_char c) then Some (schar c - 48)%Z
  else if ((97 <=? uchar c) && (uchar c <=? 102))%Z then Some (uchar c - 87)%Z else None.

(** The optional exponent, introduced by [e] or [p]; [0] without digits. *)
Definition exponent (mark : ascii) (s : str) : Z :=
  match s with
  | c :: s' =>
      if decide (c = mark) then
        match s' with
        | "-"%char :: d => (- (digit_run dec_digit 10 0 0 d).1.1)%Z
        | "+"%char :: d => (digit_run dec_digit 10 0 0 d).1.1
        | _ => (digit_run dec_digit 10 0 0 s').1.1
        end
      else 0%Z
  | [] => 0%Z
  end.

(** [m * b^e], rounded once to 53 bits. *)
Definition scaled (m b e : Z) : spec_float :=
  if decide (m = 0)%Z then S754_zero false
  else if (0 <=? e)%Z then binary_normalize 53 1024 (m * b ^ e) 0 false
  else SFdiv 53 1024 (S754_finite false (Z.to_pos m) 0) (S754_finite false (Z.to_pos (b ^ (- e))) 0).

Definition unsigned_double (s : str) : spec_float :=
  match s with
  | "i"%char :: "n"%char :: "f"%char :: _ => S754_infinity false
  | "n"%char :: "a"%char :: "n"%char :: _ => S754_nan
  | _ =>
      let hex := match s with
                 | "0"%char :: "x"%char :: h => mantissa hexa_digit 16 h
                 | _ => None
                 end in
      match hex with
      | Some (m, k, rest) => scaled m 2 (exponent "p" rest - 4 * Z.of_nat k)
      | None =>
          match mantissa dec_digit 10 s with
          | Some (m, k, rest) => scaled m 10 (exponent "e" rest - Z.of_nat k)
          | None => S754_zero false
          end
      end
  end.

Definition atof (s : str) : spec_float :=
  match skip_ws (tolower <$> s) with
  | "-"%char :: s' => SFopp (unsigned_double s')
  | "+"%char :: s' => unsigned_double s'
  | s' => unsigned_double s'
  end.

(** The conversion of a [double] to a [float]. *)
Definition to_float (d : spec_float) : spec_float :=
  match d with
  | S754_finite s m e => binary_round 24 128 s m e
  | _ => d
  end.

Example atof_ex1 : to_float (atof (lit "1.2")) = S754_finite false 10066330 (-23).
Proof. vm_compute. reflexivity. Qed.
Example atof_ex2 : atof (lit " -0x1.8p3abc") = S754_finite true 6755399441055744 (-49).
Proof. vm_compute. reflexivity. Qed.
Example atof_ex3 : atof (lit "25e-1") = atof (lit "+2.5e0").
Proof. vm_compute. reflexivity. Qed.
Example atof_ex4 : atof (lit ".") = S754_zero false /\ atof (lit "1e400") = S754_infinity false.
Proof. vm_compute. split; reflexivity. Qed.

(** ** Values, nodes and tables *)

Inductive FlagType := NONE | BOOL | INT | FLOAT | STRING.
#[export] Instance FlagType_eq_dec : EqDecision FlagType.
Proof. solve_decision. Defined.

(** What a [const char *] points at: a live C string, or freed memory. *)
Inductive pointee := live (s : str) | freed.

(** The union, with the member that was written last. *)
Inductive FlagValue := bl (b : bool) | it (z : Z) | ft (f : spec_float) | p (target : pointee).

Record expNode := Node { flagtype : FlagType; flagvalue : FlagValue }.

Record Exp := MkExp {
  m_conf : gmap str (gmap str expNode);
  m_default : gmap str expNode }.

(** [map::insert]: a key already there keeps its value. *)
Definition map_insert {A} (k : str) (v : A) (m : gmap str A) : gmap str A :=
  match m !! k with Some _ => m | None => <[k := v]> m end.

(** ** Text *)

Definition isBalnk (c : ascii) : bool :=
  bool_decide (c = SP) || bool_decide (c = HT) || bool_decide (c = LF) || bool_decide (c = CR)
  || bool_decide (c = NUL) || bool_decide (c = "011"%char).

(** The two loops of [trim]; an iteration moves one of the two indices. *)
Fixpoint trim_start (fuel : nat) (s : str) (start e : nat) : nat :=
  match fuel with
  | O => start
  | S f => if (start <? e)%nat && isBalnk (default NUL (s !! start)) then trim_start f s (start + 1) e else start
  end.
Fixpoint trim_end (fuel : nat) (s : str) (start e : nat) : nat :=
  match fuel with
  | O => e
  | S f => if (start <? e)%nat && isBalnk (default NUL (s !! e)) then trim_end f s start (e - 1) else e
  end.

Definition trim (s : str) : str :=
  let len := length s in
  if decide (len = 0) then []
  else
    let start := trim_start len s 0 (len - 1) in
    let e := trim_end len s start (len - 1) in
    if decide (start = e) then [] else take (e - start + 1) (drop start s).

(** [s.find(pat) != npos]. *)
Fixpoint contains (pat s : str) : bool :=
  bool_decide (pat `prefix_of` s) || match s with [] => false | _ :: s' => contains pat s' end.

(** [s.find("=")] with the text before and after it. *)
Fixpoint split_eq (s : str) : option (str * str) :=
  match s with
  | [] => None
  | c :: s' =>
      if decide (c = "="%char) then Some ([], s')
      else '(l, r) ← split_eq s'; Some (c :: l, r)
  end.

(** [getline] on a file, until it fails. *)
Fixpoint getlines (line : str) (s : str) : list str :=
  match s with
  | [] => if decide (line = []) then [] else [line]
  | c :: s' => if decide (c = LF) then line :: getlines [] s' else getlines (line ++ [c]) s'
  end.

(** ** [load] *)

(** The node of a flag, by what its name contains; [None] where the line is
    reported and skipped. The pointer of a string is that of the local
    [value], which the end of the iteration destroys. *)
Definition make_node (flag value : str) : option expNode :=
  if contains (lit "enable") flag then
    if decide (value = lit "true") then Some (Node BOOL (bl true))
    else if decide (value = lit "false") then Some (Node BOOL (bl false))
    else None
  else if contains (lit "int") flag then Some (Node INT (it (atoi (c_str value))))
  else if contains (lit "float") flag then Some (Node FLOAT (ft (to_float (atof (c_str value)))))
  else if contains (lit "string") flag then Some (Node STRING (p freed))
  else None.

(** The locals of the loop and the members it fills. *)
Record loading := Loading { posid : str; flag2value : gmap str expNode; tables : Exp }.

Definition default_name : str := lit "default".

(** Storing the flags collected for the section [posid]. *)
Definition save (st : loading) : Exp :=
  if decide (posid st = default_name) then MkExp (m_conf (tables st)) (flag2value st)
  else if decide (posid st = []) then tables st
  else MkExp (map_insert (posid st) (flag2value st) (m_conf (tables st))) (m_default (tables st)).

(** One iteration on a line already in lower case. *)
Definition load_line (st : loading) (tmp : str) : loading :=
  match tmp with
  | [] => st
  | c :: _ =>
      if decide (c = "#"%char) then st
      else if decide (c = "["%char /\ last tmp = Some "]"%char) then
        if decide (posid st = default_name) then Loading [] ∅ (save st)
        else
          let flags := if decide (posid st = []) then flag2value st else ∅ in
          Loading (trim (take (length tmp - 2) (drop 1 tmp))) flags (save st)
      else
        match split_eq tmp with
        | None => st
        | Some (l, r) =>
            let flag := trim l in
            match make_node flag (trim r) with
            | None => st
            | Some expnode => Loading (posid st) (map_insert flag expnode (flag2value st)) (tables st)
            end
        end
  end.

Definition load (fs : str -> option str) (filename : str) (self : Exp) : Exp :=
  match fs (c_str filename) with
  | None => self
  | Some file => save (foldl (fun st l => load_line st (tolower <$> l)) (Loading [] ∅ self) (getlines [] file))
  end.

(** The constructor. *)
Definition new_Exp (fs : str -> option str) (filename : str) : Exp := load fs filename (MkExp ∅ ∅).

(** ** The getters *)

(** An [expNode&]: to an element of [m_default], or to one of the map that
    was local to the function that returned it. *)
Inductive reference := in_default (n : expNode) | in_dead_map (n : expNode).

Definition getDefault (self : Exp) (flag : str) : outcome reference :=
  match m_default self !! flag with
  | None => exits (-1)
  | Some n => returns (in_default n)
  end.

Definition getExpNode (self : Exp) (posid flag : str) : outcome reference :=
  match m_conf self !! posid with
  | None => getDefault self flag
  | Some flag2value =>
      match flag2value !! flag with
      | None => getDefault self flag
      | Some n => returns (in_dead_map n)
      end
  end.

Definition getType (flag : str) : FlagType :=
  if contains (lit "enable") flag then BOOL
  else if contains (lit "int") flag then INT
  else if contains (lit "float") flag then FLOAT
  else if contains (lit "string") flag then STRING
  else NONE.

(** Reading through the reference. *)
Definition deref (r : reference) : outcome expNode :=
  match r with in_default n => returns n | in_dead_map _ => undefined end.

Definition judgeExpNode (self : Exp) (posid flag : str) (want : FlagType) : outcome expNode :=
  let posid := tolower <$> posid in
  let flag := tolower <$> flag in
  bind_outcome (getExpNode self posid flag) (fun r =>
  bind_outcome (deref r) (fun expnode =>
  if decide (flagtype expnode <> getType flag \/ getType flag <> want) then exits (-2) else returns expnode)).

(** Reading a member of the union other than the one written last is left
    undefined here; [exp_typed] shows that it does not happen. *)
Definition read_bl (v : FlagValue) : outcome bool := match v with bl b => returns b | _ => undefined end.
Definition read_it (v : FlagValue) : outcome Z := match v with it z => returns z | _ => undefined end.
Definition read_ft (v : FlagValue) : outcome spec_float := match v with ft f => returns f | _ => undefined end.
Definition read_p (v : FlagValue) : outcome pointee := match v with p q => returns q | _ => undefined end.

Definition getBoolValue (self : Exp) (posid pflag : str) : outcome bool :=
  bind_outcome (judgeExpNode self posid pflag BOOL) (fun n => read_bl (flagvalue n)).
Definition getIntValue (self : Exp) (posid pflag : str) : outcome Z :=
  bind_outcome (judgeExpNode self posid pflag INT) (fun n => read_it (flagvalue n)).
Definition getFloatValue (self : Exp) (posid pflag : str) : outcome spec_float :=
  bind_outcome (judgeExpNode self posid pflag FLOAT) (fun n => read_ft (flagvalue n)).
Definition getStringValue (self : Exp) (posid pflag : str) : outcome pointee :=
  bind_outcome (judgeExpNode self posid pflag STRING) (fun n => read_p (flagvalue n)).

(** ** Specifications *)

(** A string without the blanks at its ends. *)
Fixpoint lstrip (s : str) : str :=
  match s with
  | c :: s' => if isBalnk c then lstrip s' else s
  | [] => []
  end.
Definition strip (s : str) : str := reverse (lstrip (reverse (lstrip s))).

Definition value_type (v : FlagValue) : FlagType :=
  match v with bl _ => BOOL | it _ => INT | ft _ => FLOAT | p _ => STRING end.

(** A node has the type its flag's name says, and so has its union. *)
Definition node_typed (flag : str) (n : expNode) : Prop :=
  flagtype n = getType flag /\ value_type (flagvalue n) = getType flag.

Definition typed (self : Exp) : Prop :=
  map_Forall (fun _ flags => map_Forall node_typed flags) (m_conf self) /\ map_Forall node_typed (m_default self).

Definition in_section (self : Exp) (posid flag : str) : Prop := is_Some (m_conf self !! posid ≫= (.!! flag)).
#[export] Instance in_section_dec self q f : Decision (in_section self q f).
Proof. unfold in_section. apply _. Defined.

(** What a getter of type [want] comes to, for a position and a flag in lower case. *)
Definition get_spec (self : Exp) (posid flag : str) (want : FlagType) : outcome FlagValue :=
  if decide (in_section self posid flag) then undefined
  else match m_default self !! flag with
       | None => exits (-1)
       | Some n => if decide (getType flag = want) then returns (flagvalue n) else exits (-2)
       end.

(** A configuration as data: sections of comments and settings. *)
Inductive item := note (text : str) | setting (flag value : str).
Record section := Sect { name : str; items : list item }.

Definition print_item (i : item) : str :=
  match i with
  | note [] => []
  | note t => "#"%char :: t
  | setting flag value => flag ++ lit " = " ++ value
  end.
Definition print_section (s : section) : list str :=
  ("["%char :: name s ++ lit "]") :: (print_item <$> items s).
Definition print_config (pre : list item) (secs : list section) : str :=
  concat ((.++ [LF]) <$> ((print_item <$> pre) ++ (secs ≫= print_section))).

(** What is kept of a name or value: lower case without the blanks at its ends, and
    nothing at all of a single character. *)
Definition kept (s : str) : str :=
  let t := strip (tolower <$> s) in if decide (length t = 1) then [] else t.

(** [pat] occurs in [s]. *)
Definition occurs (pat s : str) : Prop := exists a b, s = a ++ pat ++ b.
#[export] Instance occurs_dec pat s : Decision (occurs pat s).
Proof.
  refine (cast_if (decide (Exists (fun k => pat `prefix_of` drop k s) (seq 0 (S (length s)))))).
  - abstract (apply Exists_exists in e as (k & _ & b & Hb); exists (take k s), b; by rewrite <- Hb, take_drop).
  - abstract (intros (a & b & ->); apply n, Exists_exists; exists (length a);
      split; [apply elem_of_seq; rewrite length_app; lia|]; exists b; by rewrite drop_app_length).
Defined.

(** How values are read, by the words that a name may contain, the first one that it
    does counts. *)
Definition readings : list (str * (str -> option expNode)) :=
  [(lit "enable", fun v => (fun b => Node BOOL (bl b)) <$> (list_to_map [(lit "true", true); (lit "false", false)] : gmap str bool) !! v);
   (lit "int", fun v => Some (Node INT (it (atoi (c_str v)))));
   (lit "float", fun v => Some (Node FLOAT (ft (to_float (atof (c_str v))))));
   (lit "string", fun v => Some (Node STRING (p freed)))].
Definition meaning (flag value : str) : option expNode :=
  '(_, read) ← head (filter (fun r => occurs r.1 flag) readings); read value.

(** The flags of a list of items: the first setting of a flag that has a meaning
    counts. *)
Definition add_item (m : gmap str expNode) (i : item) : gmap str expNode :=
  match i with
  | note _ => m
  | setting flag value => match meaning (kept flag) (kept value) with Some n => {[kept flag := n]} ∪ m | None => m end
  end.
Definition flags_of (l : list item) : gmap str expNode := foldr (fun i m => add_item m i) ∅ l.

(** The first section of a name counts, the last one called [default]. *)
Definition add_section (self : Exp) (s : section) : Exp :=
  if decide (name s = default_name) then MkExp (m_conf self) (flags_of (items s))
  else MkExp (m_conf self ∪ {[name s := flags_of (items s)]}) (m_default self).

(** What becomes of the sections: a section without a name has its settings, like
    those before the first header, put before the settings of the section that
    follows; so has the one after the section [default], whose header is lost. *)
Fixpoint regroup (carry : list item) (secs : list section) : list section :=
  match secs with
  | [] => []
  | s :: rest =>
      if decide (kept (name s) = []) then regroup (carry ++ items s) rest
      else Sect (kept (name s)) (carry ++ items s) ::
        (if decide (kept (name s) = default_name) then
           match rest with [] => [] | lost :: rest' => regroup (items lost) rest' end
         else regroup [] rest)
  end.

(** Text that a line of the file can hold, where names cannot be taken for
    something else. *)
Definition item_ok (i : item) : Prop :=
  match i with
  | note t => LF ∉ t
  | setting flag value =>
      LF ∉ flag /\ LF ∉ value /\ "="%char ∉ flag /\ head flag <> Some "#"%char /\ head flag <> Some "["%char
  end.
Definition section_ok (s : section) : Prop := LF ∉ name s /\ Forall item_ok (items s).
#[export] Instance item_ok_dec i : Decision (item_ok i).
Proof. destruct i; cbn; apply _. Defined.
#[export] Instance section_ok_dec s : Decision (section_ok s).
Proof. unfold section_ok. apply _. Defined.

(** ** Lemmas *)

Lemma trim_start_reach fuel s start e j :
  start <= j -> j - start < fuel \/ j = start -> j <= e ->
  (forall i c, start <= i < j -> s !! i = Some c -> isBalnk c = true) -> j < length s ->
  (j = e \/ exists c, s !! j = Some c /\ isBalnk c = false) -> trim_start fuel s start e = j.
Proof.
  revert start. induction fuel as [|f IH]; intros start Hs Hf He Hb Hl Hstop; [cbn; lia|]. cbn [trim_start].
  destruct (decide (start = j)) as [->|Hne].
  - destruct Hstop as [->|(c & Hc & Hn)]; [by rewrite Nat.ltb_irrefl|]. rewrite Hc. cbn [from_option id]. rewrite Hn. by rewrite andb_false_r.
  - destruct (lookup_lt_is_Some_2 s start) as [c Hc]; [lia|]. rewrite Hc. cbn [from_option id].
    rewrite (Hb start c) by (done || lia). rewrite (proj2 (Nat.ltb_lt _ _)) by lia. cbn [andb].
    apply IH; try lia; [|done]. intros i d Hi Hd. apply (Hb i); [lia|done].
Qed.

Lemma trim_end_reach fuel s start e j :
  start <= j <= e -> e - j < fuel \/ j = e -> e < length s ->
  (forall i c, j < i <= e -> s !! i = Some c -> isBalnk c = true) ->
  (j = start \/ exists c, s !! j = Some c /\ isBalnk c = false) -> trim_end fuel s start e = j.
Proof.
  revert e. induction fuel as [|f IH]; intros e Hs Hf Hl Hb Hstop; [cbn; lia|]. cbn [trim_end].
  destruct (decide (e = j)) as [->|Hne].
  - destruct Hstop as [->|(c & Hc & Hn)]; [by rewrite Nat.ltb_irrefl|]. rewrite Hc. cbn [from_option id]. rewrite Hn. by rewrite andb_false_r.
  - destruct (lookup_lt_is_Some_2 s e) as [c Hc]; [lia|]. rewrite Hc. cbn [from_option id].
    rewrite (Hb e c) by (done || lia). rewrite (proj2 (Nat.ltb_lt _ _)) by lia. cbn [andb].
    apply IH; try lia; [|done]. intros i d Hi Hd. apply (Hb i); [lia|done].
Qed.

Definition all_blank (s : str) : Prop := Forall (fun c => isBalnk c = true) s.

Lemma blank_lookup s i c : all_blank s -> s !! i = Some c -> isBalnk c = true.
Proof. intros Hs Hi. by apply (Forall_lookup_1 _ s i c Hs Hi). Qed.

Lemma trim_core b1 core b2 :
  all_blank b1 -> all_blank b2 ->
  (forall c, head core = Some c \/ last core = Some c -> isBalnk c = false) ->
  trim (b1 ++ core ++ b2) = if decide (length core = 1) then [] else core.
Proof.
  intros H1 H2 Hc. unfold trim. case_decide as Hlen.
  { rewrite !length_app in Hlen. destruct core; [done|cbn in Hlen; lia]. }
  destruct core as [|a core'].
  { cbn [app] in *. rewrite (decide_False (P := length [] = 1)) by done.
    assert (all_blank (b1 ++ b2)) as Hb by by apply Forall_app_2.
    erewrite (trim_start_reach _ _ _ _ (length (b1 ++ b2) - 1)); try lia; [|intros i c _; by apply blank_lookup].
    erewrite (trim_end_reach _ _ _ _ (length (b1 ++ b2) - 1)); try lia. by rewrite decide_True. }
  set (core := a :: core') in *. set (s := b1 ++ core ++ b2) in *.
  assert (length s = length b1 + (length core + length b2)) as Hls by (unfold s; by rewrite !length_app).
  assert (0 < length core) as Hlc by (cbn; lia).
  erewrite (trim_start_reach _ _ _ _ (length b1)); try lia.
  2: { intros i c Hi. unfold s. rewrite lookup_app_l by lia. by apply blank_lookup. }
  2: { right. exists a. split; [|by apply Hc; left]. unfold s. by rewrite lookup_app_r, Nat.sub_diag by lia. }
  destruct (last core) as [z|] eqn:Hz; [|by apply last_None in Hz].
  erewrite (trim_end_reach _ _ _ _ (length b1 + length core - 1)); try lia.
  2: { intros i c Hi. unfold s. rewrite lookup_app_r, lookup_app_r by lia. by apply blank_lookup. }
  2: { right. exists z. split; [|apply Hc; by right]. unfold s. rewrite lookup_app_r, lookup_app_l by lia.
       rewrite last_lookup in Hz. rewrite <- Hz. f_equal. lia. }
  destruct (decide (length core = 1)) as [H1c|H1c]; [rewrite decide_True; [done|lia]|]. rewrite decide_False by lia.
  unfold s. rewrite drop_app_length. replace (length b1 + length core - 1 - length b1 + 1) with (length core) by lia.
  apply take_app_length.
Qed.

Lemma lstrip_spec s :
  exists b, s = b ++ lstrip s /\ all_blank b /\ forall c, head (lstrip s) = Some c -> isBalnk c = false.
Proof.
  induction s as [|c s (b & Hs & Hb & Hh)]; [by exists []; repeat constructor|]. cbn [lstrip]. destruct (isBalnk c) eqn:Hc.
  - exists (c :: b). cbn [app]. split_and!; [by f_equal|by constructor|done].
  - exists []. split_and!; [done|constructor|]. by intros ? [= <-].
Qed.

Lemma strip_spec s :
  exists b1 b2, s = b1 ++ strip s ++ b2 /\ all_blank b1 /\ all_blank b2 /\
    forall c, head (strip s) = Some c \/ last (strip s) = Some c -> isBalnk c = false.
Proof.
  unfold strip. destruct (lstrip_spec s) as (b1 & Hs & Hb1 & Hh1).
  destruct (lstrip_spec (reverse (lstrip s))) as (b2 & Hr & Hb2 & Hh2). set (t := lstrip s) in *.
  apply (f_equal reverse) in Hr. rewrite reverse_involutive, reverse_app in Hr.
  exists b1, (reverse b2). split_and!; [congruence|done| |].
  - unfold all_blank. by apply Forall_reverse.
  - intros c [H|H].
    + apply Hh1. rewrite Hr. rewrite head_lookup in H |- *. by apply lookup_app_l_Some.
    + rewrite last_reverse in H. by apply Hh2.
Qed.

Lemma strip_core b1 s b2 :
  all_blank b1 -> all_blank b2 -> (forall c, head s = Some c \/ last s = Some c -> isBalnk c = false) ->
  strip (b1 ++ s ++ b2) = s.
Proof.
  assert (forall b t, all_blank b -> (forall c, head t = Some c -> isBalnk c = false) -> lstrip (b ++ t) = t) as Hl.
  { intros b t Hb Ht. induction Hb as [|c b Hc Hb IH]; cbn [app].
    - destruct t as [|c t]; [done|]. cbn [lstrip]. by rewrite (Ht c eq_refl).
    - cbn [lstrip]. by rewrite Hc. }
  intros H1 H2 Hs. unfold strip. destruct (decide (s = [])) as [->|Hne].
  { cbn [app]. rewrite <- (app_nil_r (b1 ++ b2)), Hl by (done || by apply Forall_app_2). done. }
  assert (exists c, head s = Some c) as [c Hc] by (destruct s; [done|by eexists]).
  rewrite (Hl b1 (s ++ b2)); [|done|].
  - rewrite reverse_app, Hl; [apply reverse_involutive|by apply Forall_reverse|].
    intros d Hd. apply Hs. right. destruct s as [|x s' _] using rev_ind; [done|].
    rewrite reverse_snoc in Hd. rewrite last_snoc. exact Hd.
  - intros d Hd. apply Hs. left. destruct s; [done|]. exact Hd.
Qed.

(** [trim] cuts the blanks at both ends and nothing else, except that what
    is left is lost when it is a single character, so that a one-digit number
    is read as an empty string. *)
Theorem trim_spec s : trim s = if decide (length (strip s) = 1) then [] else strip s.
Proof.
  destruct (strip_spec s) as (b1 & b2 & Hs & H1 & H2 & Hc). rewrite Hs at 1. by apply trim_core.
Qed.

Lemma isBalnk_SP : isBalnk SP = true.
Proof. reflexivity. Qed.

Lemma strip_blank_l c s : isBalnk c = true -> strip (c :: s) = strip s.
Proof. intros Hc. unfold strip. cbn [lstrip]. by rewrite Hc. Qed.

Lemma strip_blank_r s c : isBalnk c = true -> strip (s ++ [c]) = strip s.
Proof.
  intros Hc. destruct (strip_spec s) as (b1 & b2 & Hs & H1 & H2 & Hh). rewrite Hs at 1.
  rewrite <- !app_assoc. rewrite strip_core; [done|done| |done]. apply Forall_app_2; [done|by repeat constructor].
Qed.

Lemma trim_blank_l c s : isBalnk c = true -> trim (c :: s) = trim s.
Proof. intros. by rewrite !trim_spec, strip_blank_l. Qed.
Lemma trim_blank_r s c : isBalnk c = true -> trim (s ++ [c]) = trim s.
Proof. intros. by rewrite !trim_spec, strip_blank_r. Qed.

(** *** Types *)

Lemma make_node_typed flag v n : make_node flag v = Some n -> node_typed flag n.
Proof.
  unfold make_node, node_typed, getType. intros H.
  repeat (case_match; simplify_eq; try done).
Qed.

Lemma map_insert_Forall {A : Type} (P : str -> A -> Prop) (k : str) (v : A) (m : gmap str A) :
  P k v -> map_Forall P m -> map_Forall P (map_insert k v m).
Proof. intros Hv Hm. unfold map_insert. destruct (m !! k); [done|]. by apply map_Forall_insert_2. Qed.

Definition loading_typed (st : loading) : Prop := map_Forall node_typed (flag2value st) /\ typed (tables st).

Lemma save_typed st : loading_typed st -> typed (save st).
Proof.
  intros [Hf [Hc Hd]]. unfold save. repeat case_decide; split; cbn; try done. by apply map_insert_Forall.
Qed.

Lemma load_line_typed st l : loading_typed st -> loading_typed (load_line st l).
Proof.
  intros Hst. pose proof (save_typed st Hst) as Hs. unfold load_line. destruct l as [|c l]; [done|].
  case_decide; [done|]. case_decide.
  { case_decide; [by split; [apply map_Forall_empty|]|]. split; cbn; [|done].
    case_decide; [apply Hst|apply map_Forall_empty]. }
  destruct (split_eq _) as [[x y]|]; [|done]. destruct (make_node _ _) as [n|] eqn:Hn; [|done].
  split; [|apply Hst]. apply map_insert_Forall; [by eapply make_node_typed|apply Hst].
Qed.

Lemma load_typed fs filename self : typed self -> typed (load fs filename self).
Proof.
  intros H. unfold load. destruct (fs _) as [file|]; [|done]. apply save_typed.
  assert (loading_typed (Loading [] ∅ self)) as Hst by (split; [apply map_Forall_empty|done]).
  revert Hst. generalize (Loading [] ∅ self) as st. induction (getlines [] file) as [|l ls IH]; intros st Hst; [done|].
  apply IH. by apply load_line_typed.
Qed.

Lemma new_Exp_typed fs filename : typed (new_Exp fs filename).
Proof. apply load_typed. split; apply map_Forall_empty. Qed.

Lemma judge_spec self posid flag want :
  map_Forall node_typed (m_default self) ->
  map_outcome flagvalue (judgeExpNode self posid flag want) = get_spec self (tolower <$> posid) (tolower <$> flag) want.
Proof.
  intros Hd. unfold judgeExpNode, getExpNode, get_spec, getDefault. set (q := tolower <$> posid). set (f := tolower <$> flag).
  assert (map_outcome flagvalue
    (bind_outcome (match m_default self !! f with Some n => returns (in_default n) | None => exits (-1) end) (fun r =>
     bind_outcome (deref r) (fun expnode =>
     if decide (flagtype expnode <> getType f \/ getType f <> want) then exits (-2) else returns expnode))) =
    match m_default self !! f with
    | Some n => if decide (getType f = want) then returns (flagvalue n) else exits (-2)
    | None => exits (-1)
    end) as Hdef.
  { destruct (m_default self !! f) as [n|] eqn:Hn; [|done]. destruct (Hd f n Hn) as [Ht _]. cbn.
    destruct (decide (getType f = want)); [rewrite decide_False by naive_solver|rewrite decide_True by naive_solver]; done. }
  destruct (decide (in_section self q f)) as [[n Hn]|Hno]; unfold in_section in *.
  - apply bind_Some in Hn as (fl & -> & ->). done.
  - destruct (m_conf self !! q) as [fl|]; [|exact Hdef]. cbn [mbind option_bind] in Hno.
    destruct (fl !! f) as [n|]; [by destruct Hno|exact Hdef].
Qed.

Lemma get_spec_type self q f want v :
  map_Forall node_typed (m_default self) -> get_spec self q f want = returns v -> value_type v = want.
Proof.
  intros Hd. unfold get_spec. case_decide; [done|]. destruct (m_default self !! f) as [n|] eqn:Hn; [|done].
  case_decide; [|done]. intros [= <-]. destruct (Hd f n Hn) as [_ Ht]. congruence.
Qed.

Lemma getter_spec {A} self posid flag want (proj : FlagValue -> outcome A) (inj : A -> FlagValue) :
  typed self ->
  (forall v, value_type v = want -> map_outcome inj (proj v) = returns v) ->
  map_outcome inj (bind_outcome (judgeExpNode self posid flag want) (fun n => proj (flagvalue n))) =
  get_spec self (tolower <$> posid) (tolower <$> flag) want.
Proof.
  intros [_ Hd] Hp. pose proof (judge_spec self posid flag want Hd) as Hj.
  destruct (judgeExpNode self posid flag want) as [n|c|]; cbn in Hj |- *; try done.
  rewrite <- Hj. apply Hp. by eapply get_spec_type, eq_sym.
Qed.

(** C13: the types of a loaded configuration. Every node that the loader
    stores has the type its flag's name says, in its tag and in its union, so a
    getter never reads a member of the union that was not written: it returns
    the value of the default section, or leaves the process with -1 for a flag
    without default and with -2 exactly for a flag of another type. A flag set
    in the section asked for is read through a dangling reference. *)
Theorem exp_typed fs filename posid flag :
  let self := new_Exp fs filename in
  let spec := get_spec self (tolower <$> posid) (tolower <$> flag) in
  typed self /\
  map_outcome bl (getBoolValue self posid flag) = spec BOOL /\
  map_outcome it (getIntValue self posid flag) = spec INT /\
  map_outcome ft (getFloatValue self posid flag) = spec FLOAT /\
  map_outcome p (getStringValue self posid flag) = spec STRING.
Proof.
  intros self spec. pose proof (new_Exp_typed fs filename) as Ht.
  split; [done|]. split_and!.
  - by apply (getter_spec self posid flag BOOL read_bl bl); [|intros []].
  - by apply (getter_spec self posid flag INT read_it it); [|intros []].
  - by apply (getter_spec self posid flag FLOAT read_ft ft); [|intros []].
  - by apply (getter_spec self posid flag STRING read_p p); [|intros []].
Qed.

(** *** Loading a printed configuration *)

Lemma getlines_line line s rest : LF ∉ s -> getlines line (s ++ LF :: rest) = (line ++ s) :: getlines [] rest.
Proof.
  revert line. induction s as [|c s IH]; intros line Hs; cbn [app getlines].
  - by rewrite decide_True, app_nil_r by done.
  - apply not_elem_of_cons in Hs as [Hc Hs]. rewrite decide_False, IH by congruence. by rewrite <- app_assoc.
Qed.

Lemma getlines_print ls : Forall (fun l => LF ∉ l) ls -> getlines [] (concat ((.++ [LF]) <$> ls)) = ls.
Proof.
  induction 1 as [|l ls Hl Hls IH]; [done|]. cbn [fmap list_fmap concat]. rewrite <- app_assoc. cbn [app].
  by rewrite getlines_line, IH.
Qed.

Lemma split_eq_app l r : "="%char ∉ l -> split_eq (l ++ "="%char :: r) = Some (l, r).
Proof.
  induction l as [|c l IH]; intros Hl; [done|]. apply not_elem_of_cons in Hl as [Hc Hl]. cbn [app split_eq].
  rewrite decide_False by congruence. by rewrite IH.
Qed.

(** *** Names and values *)

Lemma trim_kept s : trim (tolower <$> s) = kept s.
Proof. by rewrite trim_spec. Qed.

Lemma contains_occurs pat s : contains pat s = bool_decide (occurs pat s).
Proof.
  apply eq_true_iff_eq. rewrite bool_decide_eq_true. induction s as [|c s IH]; cbn [contains];
    rewrite orb_true_iff, bool_decide_eq_true.
  - split; [intros [[b Hb]|?]; [by exists [], b|done]|]. intros (a & b & Hab). left. exists b.
    symmetry in Hab. apply app_nil in Hab as [-> Hab]. done.
  - rewrite IH. split.
    + intros [[b Hb]|(a & b & ->)]; [by exists [], b|by exists (c :: a), b].
    + intros ([|d a] & b & Hab); [left; by exists b|right]. injection Hab as <- ->. by exists a, b.
Qed.

Lemma bool_reading v :
  (list_to_map [(lit "true", true); (lit "false", false)] : gmap str bool) !! v =
  if decide (v = lit "true") then Some true else if decide (v = lit "false") then Some false else None.
Proof.
  cbn [list_to_map foldr fst snd uncurry]. destruct (decide (v = lit "true")) as [->|Ht]; [by rewrite lookup_insert_eq|].
  rewrite lookup_insert_ne by done. destruct (decide (v = lit "false")) as [->|Hf]; [by rewrite lookup_insert_eq|].
  by rewrite lookup_insert_ne, lookup_empty by done.
Qed.

Lemma make_node_meaning flag value : make_node flag value = meaning flag value.
Proof.
  unfold make_node, meaning, readings. rewrite !contains_occurs, !filter_cons, filter_nil. cbn [fst].
  destruct (decide (occurs (lit "enable") flag)); [rewrite bool_decide_eq_true_2 by done|rewrite bool_decide_eq_false_2 by done].
  { cbn [head mbind option_bind]. rewrite bool_reading. destruct (decide (value = lit "true")); [done|]. by destruct (decide (value = lit "false")). }
  destruct (decide (occurs (lit "int") flag)); [by rewrite bool_decide_eq_true_2|rewrite bool_decide_eq_false_2 by done].
  destruct (decide (occurs (lit "float") flag)); [by rewrite bool_decide_eq_true_2|rewrite bool_decide_eq_false_2 by done].
  by destruct (decide (occurs (lit "string") flag)); [rewrite bool_decide_eq_true_2|rewrite bool_decide_eq_false_2].
Qed.

Lemma map_insert_union {A} k (v : A) m : map_insert k v m = m ∪ {[k := v]}.
Proof.
  unfold map_insert. apply map_eq. intros j. rewrite lookup_union. destruct (m !! k) as [x|] eqn:Hk.
  - destruct (m !! j) eqn:Hj; [by rewrite union_Some_l|]. rewrite left_id by apply _. symmetry. apply lookup_singleton_ne. congruence.
  - destruct (decide (j = k)) as [->|Hne]; [by rewrite lookup_insert_eq, Hk, lookup_singleton_eq|].
    rewrite lookup_insert_ne, lookup_singleton_ne by done. by rewrite right_id by apply _.
Qed.

Lemma flags_of_app l l' : flags_of (l ++ l') = flags_of l ∪ flags_of l'.
Proof.
  unfold flags_of. induction l as [|i l IH]; cbn [app foldr]; [by rewrite (left_id_L ∅ (∪))|]. rewrite IH.
  destruct i as [t|flag value]; cbn [add_item]; [done|]. destruct (meaning _ _); [|done]. by rewrite (assoc_L (∪)).
Qed.

Lemma tolower_mark d : (forall c, bool_decide (tolower c = d) = bool_decide (c = d)) -> forall c, tolower c = d <-> c = d.
Proof. intros H c. rewrite <- (bool_decide_eq_true (tolower c = d)), H. apply bool_decide_eq_true. Qed.

Lemma tolower_marks c : (tolower c = "="%char <-> c = "="%char) /\ (tolower c = "#"%char <-> c = "#"%char) /\
  (tolower c = "["%char <-> c = "["%char).
Proof. split_and!; revert c; apply tolower_mark; by_bytes. Qed.

(** *** Lines *)

Lemma load_item st i :
  item_ok i -> load_line st (tolower <$> print_item i) = Loading (posid st) (flag2value st ∪ flags_of [i]) (tables st).
Proof.
  destruct st as [q f T], i as [t|flag value]; cbn [print_item posid flag2value tables].
  - intros _. unfold flags_of. cbn [foldr add_item]. rewrite (right_id_L ∅ (∪)). by destruct t.
  - intros (_ & _ & Heq & H1 & H2).
    assert (tolower <$> (flag ++ lit " = " ++ value) = ((tolower <$> flag) ++ [SP]) ++ "="%char :: SP :: (tolower <$> value)) as ->.
    { rewrite !fmap_app, <- app_assoc. done. }
    assert (exists c l, ((tolower <$> flag) ++ [SP]) ++ "="%char :: SP :: (tolower <$> value) = c :: l /\ c <> "#"%char /\ c <> "["%char)
      as (c & l & Hl & Hc1 & Hc2).
    { destruct flag as [|c flag]; [by eexists _, _|]. eexists _, _. split; [reflexivity|]. cbn [head] in H1, H2.
      destruct (tolower_marks c) as (_ & Hm1 & Hm2). split; [rewrite Hm1|rewrite Hm2]; congruence. }
    unfold load_line. rewrite Hl. rewrite (decide_False (P := c = "#"%char)), (decide_False (P := c = "["%char /\ _)) by naive_solver.
    rewrite <- Hl. clear c l Hl Hc1 Hc2. rewrite split_eq_app.
    2: { intros [Hin|Hin]%elem_of_app; [|by apply list_elem_of_singleton in Hin].
         apply list_elem_of_fmap in Hin as (c & Hc & Hin). symmetry in Hc. apply tolower_marks in Hc as ->. done. }
    rewrite (trim_blank_r _ SP isBalnk_SP), (trim_blank_l SP _ isBalnk_SP), !trim_kept, make_node_meaning.
    unfold flags_of. cbn [foldr add_item]. destruct (meaning _ _) as [n|]; [|by rewrite (right_id_L ∅ (∪))].
    by rewrite map_insert_union, (right_id_L ∅ (∪)).
Qed.

Lemma load_items l st :
  Forall item_ok l ->
  foldl (fun st l => load_line st (tolower <$> l)) st (print_item <$> l) =
  Loading (posid st) (flag2value st ∪ flags_of l) (tables st).
Proof.
  revert st. induction l as [|i l IH]; intros st Hl.
  { cbn. unfold flags_of. cbn. rewrite (right_id_L ∅ (∪)). by destruct st. }
  apply Forall_cons in Hl as [Hi Hl].
  rewrite fmap_cons. cbn [foldl]. rewrite load_item, IH by done. cbn [posid flag2value tables].
  by rewrite <- (assoc_L (∪)), <- flags_of_app.
Qed.

Lemma load_header st n :
  load_line st (tolower <$> "["%char :: n ++ lit "]") =
    if decide (posid st = default_name) then Loading [] ∅ (save st)
    else Loading (kept n) (if decide (posid st = []) then flag2value st else ∅) (save st).
Proof.
  assert (tolower <$> "["%char :: n ++ lit "]" = "["%char :: (tolower <$> n) ++ lit "]") as ->.
  { rewrite fmap_cons, fmap_app. done. }
  unfold load_line. rewrite decide_False by done. rewrite decide_True.
  2: { split; [done|]. change (lit "]") with ["]"%char]. by rewrite app_comm_cons, last_snoc. }
  cbn [length drop]. rewrite length_app. cbn [length lit String.list_ascii_of_string].
  replace (S (length (tolower <$> n) + 1) - 2) with (length (tolower <$> n)) by lia. by rewrite drop_0, take_app_length, trim_kept.
Qed.

Lemma save_named q l T :
  q <> [] -> save (Loading q (flags_of l) T) = add_section T (Sect q l).
Proof. intros Hn. unfold save, add_section. cbn. rewrite map_insert_union. by repeat case_decide. Qed.

Abbreviation load_lines := (foldl (fun st l => load_line st (tolower <$> l))).

(** The state after a header and the items of its section. *)
Lemma load_section st s :
  section_ok s ->
  load_lines st (print_section s) =
    if decide (posid st = default_name) then Loading [] (flags_of (items s)) (save st)
    else Loading (kept (name s)) ((if decide (posid st = []) then flag2value st else ∅) ∪ flags_of (items s)) (save st).
Proof.
  intros [_ Hi]. unfold print_section. cbn [foldl]. rewrite load_header.
  case_decide; rewrite load_items by done; cbn [posid flag2value tables]; [|done]. by rewrite (left_id_L ∅ (∪)).
Qed.

Lemma load_sections n : forall secs carry T,
  length secs <= n -> Forall section_ok secs ->
  save (load_lines (Loading [] (flags_of carry) T) (secs ≫= print_section)) = foldl add_section T (regroup carry secs).
Proof.
  induction n as [|n IH]; intros secs carry T Hlen Hok.
  { destruct secs; [done|cbn in Hlen; lia]. }
  destruct secs as [|s rest]; [done|]. apply Forall_cons in Hok as [Hs Hok]. cbn [length] in Hlen.
  rewrite bind_cons, foldl_app, load_section by done. cbn [posid flag2value regroup].
  rewrite (decide_False (P := [] = default_name)), (decide_True (P := [] = [])) by done. rewrite <- flags_of_app.
  replace (save (Loading [] (flags_of carry) T)) with T by done.
  destruct (decide (kept (name s) = [])) as [->|Hne]; [apply IH; [lia|done]|]. cbn [foldl].
  rewrite <- (save_named (kept (name s)) (carry ++ items s) T Hne). set (st := Loading (kept (name s)) _ T).
  destruct rest as [|s2 rest].
  { cbn [mbind list_bind foldl regroup]. by case_decide. }
  case_decide as Hd.
  - apply Forall_cons in Hok as [Hs2 Hok]. rewrite bind_cons, foldl_app, load_section by done.
    rewrite decide_True by done. apply IH; [cbn in Hlen; lia|done].
  - rewrite <- (IH (s2 :: rest) [] (save st)) by (done || (cbn in Hlen |- *; lia)).
    apply Forall_cons in Hok as [Hs2 Hok]. rewrite !bind_cons, !foldl_app, !load_section by done. cbn [posid].
    rewrite !decide_False by done. done.
Qed.

Lemma print_item_no_lf i : item_ok i -> LF ∉ print_item i.
Proof.
  destruct i as [t|flag value]; cbn [item_ok print_item].
  - destruct t as [|c t]; [intros _; apply not_elem_of_nil|]. intros H. by apply not_elem_of_cons.
  - intros (Hf & Hv & _). rewrite !not_elem_of_app. split_and!; [done| |done].
    apply (bool_decide_unpack _). vm_compute. exact I.
Qed.

Lemma print_section_no_lf s : section_ok s -> Forall (fun l => LF ∉ l) (print_section s).
Proof.
  intros [Hn Hi]. unfold print_section. constructor.
  - apply not_elem_of_cons. split; [done|]. apply not_elem_of_app. split; [done|].
    apply (bool_decide_unpack _). vm_compute. exact I.
  - apply Forall_fmap. eapply Forall_impl; [exact Hi|]. apply print_item_no_lf.
Qed.

Lemma print_sections_no_lf secs : Forall section_ok secs -> Forall (fun l => LF ∉ l) (secs ≫= print_section).
Proof.
  induction 1 as [|s secs Hs _ IH]; [constructor|]. rewrite bind_cons. apply Forall_app.
  split; [by apply print_section_no_lf|done].
Qed.

(** Nothing is lost where the sections have names and [default], if it is there, is
    the last one. *)
Definition kept_section (s : section) : section := Sect (kept (name s)) (items s).

Lemma regroup_id secs :
  Forall (fun s => kept (name s) <> []) secs -> Forall (fun s => kept (name s) <> default_name) (removelast secs) ->
  regroup [] secs = kept_section <$> secs.
Proof.
  induction secs as [|s [|s2 rest] IH]; intros Hn Hf; [done| |]; apply Forall_cons in Hn as [Hs0 Hn].
  - cbn [regroup]. rewrite decide_False by done. by case_decide.
  - cbn [removelast] in Hf. apply Forall_cons in Hf as [Hs Hf]. cbn [regroup]. rewrite !decide_False by done.
    rewrite fmap_cons. f_equal. by apply IH.
Qed.

(** C31: loading a configuration file, for every text that sections, settings and
    comments can be printed as (names of flags hold no equals sign and do not begin
    with one of the marks of comments and headers). Names and values are taken in lower
    case, without the blanks around them, and one of a single character as empty
    ([kept]); the value of a flag is read by the first of four words that the name
    contains ([meaning]), and what has no meaning is skipped. The tables are those of
    the sections after [regroup]: each section has the first setting of each flag, but
    the header that follows the section [default] is lost and its flags go to the
    section after it, and so do those of a section whose name is empty. Where
    [default] is the last section, or absent, and no name is empty, each section has
    what was written in it. *)
Theorem exp_load_print fs filename pre secs :
  Forall item_ok pre -> Forall section_ok secs -> fs (c_str filename) = Some (print_config pre secs) ->
  new_Exp fs filename = foldl add_section (MkExp ∅ ∅) (regroup pre secs) /\
  (pre = [] -> Forall (fun s => kept (name s) <> []) secs ->
   Forall (fun s => kept (name s) <> default_name) (removelast secs) ->
   new_Exp fs filename = foldl add_section (MkExp ∅ ∅) (kept_section <$> secs)).
Proof.
  intros Hpre Hsecs Hfs.
  assert (new_Exp fs filename = foldl add_section (MkExp ∅ ∅) (regroup pre secs)) as Heq.
  { unfold new_Exp, load. rewrite Hfs. unfold print_config. rewrite getlines_print.
    - rewrite foldl_app, load_items by done. cbn [posid flag2value tables]. rewrite (left_id_L ∅ (∪)). by eapply load_sections.
    - apply Forall_app. split.
      + apply Forall_fmap. eapply Forall_impl; [exact Hpre|]. apply print_item_no_lf.
      + by apply print_sections_no_lf. }
  split; [done|]. intros -> Hn Hf. by rewrite Heq, regroup_id.
Qed.

(** The order of the sections in the repository's [exp.conf]: the defaults
    first. The section [0_1] is lost, [0_2] has its settings. *)
Definition shipped : list section :=
  [Sect default_name [setting (lit "flag_enable_author") (lit "false")];
   Sect (lit "0_1") [note (lit " one"); setting (lit "flag_enable_author") (lit "true")];
   Sect (lit "0_2") [setting (lit "flag_enable_author") (lit "false"); setting (lit "flag_int_cycle") (lit "12")]].

Lemma exp_load_print_witness :
  let fs := fun _ => Some (print_config [] shipped) in
  let self := new_Exp fs (lit "exp.conf") in
  m_conf self !! lit "0_1" = None /\
  (flags ← m_conf self !! lit "0_2"; flags !! lit "flag_enable_author") = Some (Node BOOL (bl true)) /\
  getBoolValue self (lit "0_1") (lit "Flag_enable_author") = returns false /\
  getIntValue self (lit "0_2") (lit "Flag_int_cycle") = undefined.
Proof.
  intros fs self.
  assert (self = foldl add_section (MkExp ∅ ∅) (regroup [] shipped)) as ->.
  { apply (exp_load_print fs (lit "exp.conf") [] shipped); [constructor| |reflexivity].
    apply (bool_decide_unpack _). vm_compute. exact I. }
  vm_compute. split_and!; reflexivity.
Defined.

(** A single digit, and a type found by substring, by evaluation. *)
Example trim_one_digit : trim (lit " 7 ") = [] /\ make_node (lit "flag_int_n") (trim (lit " 7")) = Some (Node INT (it 0)).
Proof. vm_compute. split; reflexivity. Qed.
Example type_by_substring : getType (lit "flag_float_point") = INT.
Proof. reflexivity. Qed.
