(* ===== verification/WrapIO.v ===== *)
(** * WrapIO: the wrapped system calls of the network programs

    Models [Linux_Net/Reactor/wrap.c] (the other [wrap.c] and [wrap.cpp] of
    the repository are copies): the wrappers that leave the process on an error,
    those that repeat an interrupted call, [Readn] and [Writen], which repeat
    short ones, and [Readline] over the buffer that [my_read] keeps in static
    variables.

    A system call takes the next entry of a script: an error, or success with a
    size, which for [read] and [write] bounds the bytes moved. After the script
    every call succeeds in full, so a process is interrupted finitely often. *)
From S2P Require Import Prelude.

(** ** The system *)

Inductive errno := EINTR | ECONNABORTED | EOTHER.
#[export] Instance errno_eq_dec : EqDecision errno.
Proof. solve_decision. Defined.

Inductive sys := success (k : nat) | failure (e : errno).

(** What is still to be read from each descriptor, and what was written. *)
Record world := World { unread : gmap Z str; written : gmap Z str; script : list sys }.

Definition stream (w : world) (d : Z) : str := default [] (unread w !! d).
Definition sink (w : world) (d : Z) : str := default [] (written w !! d).

(** A call that moves nothing: [accept], [bind], [close], ... *)
Definition syscall (w : world) : (nat + errno) * world :=
  match script w with
  | [] => (inl 0, w)
  | success k :: sc => (inl k, World (unread w) (written w) sc)
  | failure e :: sc => (inr e, World (unread w) (written w) sc)
  end.

(** [read] returns at least a byte unless the stream has ended. *)
Definition read (d : Z) (n : nat) (w : world) : (str + errno) * world :=
  let deliver m sc := (inl (take m (stream w d)), World (<[d := drop m (stream w d)]> (unread w)) (written w) sc) in
  match script w with
  | [] => deliver n []
  | success k :: sc => deliver (Nat.min (S k) n) sc
  | failure e :: sc => (inr e, World (unread w) (written w) sc)
  end.

(** [write] takes at least a byte of what it is given, if there is one. *)
Definition write (d : Z) (s : str) (w : world) : (nat + errno) * world :=
  let accept m sc := (inl m, World (unread w) (<[d := sink w d ++ take m s]> (written w)) sc) in
  match script w with
  | [] => accept (length s) []
  | success k :: sc => accept (Nat.min (S k) (length s)) sc
  | failure e :: sc => (inr e, World (unread w) (written w) sc)
  end.

(** ** The wrappers *)

Definition perr_exit {A} : outcome A := exits (-1).

(** [goto again] in [Accept]; the fuel is the length of the script. *)
Fixpoint Accept_again (fuel : nat) (w : world) : option (outcome (nat * world)) :=
  match fuel with
  | O => None
  | S f =>
      match syscall w with
      | (inl n, w') => Some (returns (n, w'))
      | (inr (ECONNABORTED | EINTR), w') => Accept_again f w'
      | (inr _, _) => Some perr_exit
      end
  end.
Definition Accept (w : world) : option (outcome (nat * world)) := Accept_again (S (length (script w))) w.

Definition or_exit (r : (nat + errno) * world) : outcome (nat * world) :=
  match r with (inl n, w) => returns (n, w) | (inr _, _) => perr_exit end.
Definition Bind (w : world) : outcome (nat * world) := or_exit (syscall w).
Definition Connect (w : world) : outcome (nat * world) := or_exit (syscall w).
Definition Listen (w : world) : outcome (nat * world) := or_exit (syscall w).
Definition Socket (w : world) : outcome (nat * world) := or_exit (syscall w).
Definition Close (w : world) : outcome (nat * world) := or_exit (syscall w).

(** [tcp4bind]: the result of [inet_pton] is given, [None] for [IP == NULL]. *)
Definition tcp4bind (pton : option Z) (w : world) : outcome (nat * world) :=
  bind_outcome (Socket w) (fun '(lfd, w) =>
  match pton with
  | Some r => if (r <=? 0)%Z then exits 1 else
      let '(_, w) := syscall w in bind_outcome (Bind w) (fun '(_, w) => returns (lfd, w))
  | None => let '(_, w) := syscall w in bind_outcome (Bind w) (fun '(_, w) => returns (lfd, w))
  end).

(** The [ssize_t] results: a number of bytes, with the bytes, or [-1]. *)
Inductive result (A : Type) := got (a : A) | minus_one.
Arguments got {A}. Arguments minus_one {A}.

Fixpoint Read_again (fuel : nat) (d : Z) (n : nat) (w : world) : option (result str * world) :=
  match fuel with
  | O => None
  | S f =>
      match read d n w with
      | (inr EINTR, w') => Read_again f d n w'
      | (inr _, w') => Some (minus_one, w')
      | (inl s, w') => Some (got s, w')
      end
  end.
Definition Read (d : Z) (n : nat) (w : world) : option (result str * world) := Read_again (S (length (script w))) d n w.

Fixpoint Write_again (fuel : nat) (d : Z) (s : str) (w : world) : option (result nat * world) :=
  match fuel with
  | O => None
  | S f =>
      match write d s w with
      | (inr EINTR, w') => Write_again f d s w'
      | (inr _, w') => Some (minus_one, w')
      | (inl n, w') => Some (got n, w')
      end
  end.
Definition Write (d : Z) (s : str) (w : world) : option (result nat * world) := Write_again (S (length (script w))) d s w.

(** ** [Readn] and [Writen] *)

(** [ptr] is what is in the buffer so far. *)
Fixpoint Readn_loop (fuel : nat) (d : Z) (nleft : nat) (ptr : str) (w : world) : option (result str * world) :=
  if decide (nleft = 0) then Some (got ptr, w)
  else match fuel with
       | O => None
       | S f =>
           match read d nleft w with
           | (inr EINTR, w') => Readn_loop f d nleft ptr w'
           | (inr _, w') => Some (minus_one, w')
           | (inl [], w') => Some (got ptr, w')
           | (inl s, w') => Readn_loop f d (nleft - length s) (ptr ++ s) w'
           end
       end.
Definition Readn (d : Z) (n : nat) (w : world) : option (result str * world) :=
  Readn_loop (length (script w) + 2) d n [] w.

(** [ptr] is what is left to write. *)
Fixpoint Writen_loop (fuel : nat) (d : Z) (n : nat) (ptr : str) (w : world) : option (result nat * world) :=
  if decide (length ptr = 0) then Some (got n, w)
  else match fuel with
       | O => None
       | S f =>
           match write d ptr w with
           | (inr EINTR, w') => Writen_loop f d n ptr w'
           | (inr _, w') | (inl 0, w') => Some (minus_one, w')
           | (inl nwritten, w') => Writen_loop f d n (drop nwritten ptr) w'
           end
       end.
Definition Writen (d : Z) (s : str) (w : world) : option (result nat * world) :=
  Writen_loop (length (script w) + 1) d (length s) s w.

(** ** [my_read] and [Readline] *)

(** The three static variables, shared by all descriptors; [read_ptr] is an
    index into [read_buf]. *)
Record statics := Statics { read_cnt : Z; read_ptr : nat; read_buf : str }.
Definition zero_statics : statics := Statics 0 0 (replicate 100 NUL).

(** [my_read] returns 1 with a character, 0 or -1. *)
Inductive one_char := one (c : ascii) | no_char | my_error.

Definition my_read_take (st : statics) : one_char * statics :=
  (one (default NUL (read_buf st !! read_ptr st)), Statics (read_cnt st - 1) (read_ptr st + 1) (read_buf st)).

Fixpoint my_read_again (fuel : nat) (d : Z) (st : statics) (w : world) : option (one_char * statics * world) :=
  match fuel with
  | O => None
  | S f =>
      match read d 100 w with
      | (inr EINTR, w') => my_read_again f d (Statics (-1) (read_ptr st) (read_buf st)) w'
      | (inr _, w') => Some (my_error, Statics (-1) (read_ptr st) (read_buf st), w')
      | (inl [], w') => Some (no_char, Statics 0 (read_ptr st) (read_buf st), w')
      | (inl s, w') =>
          Some (my_read_take (Statics (Z.of_nat (length s)) 0 (s ++ drop (length s) (read_buf st))), w')
      end
  end.

Definition my_read (d : Z) (st : statics) (w : world) : option (one_char * statics * world) :=
  if (read_cnt st <=? 0)%Z then my_read_again (S (length (script w))) d st w
  else Some (my_read_take st, w).

(** The [for] loop with [k = maxlen - n] iterations left; [line] is what is in
    the caller's buffer, to which the terminating 0 is added on return. *)
Fixpoint Readline_loop (k n : nat) (d : Z) (line : str) (st : statics) (w : world) : option (result nat * str * statics * world) :=
  match k with
  | O => Some (got n, line ++ [NUL], st, w)
  | S k' =>
      '(rc, st, w) ← my_read d st w;
      match rc with
      | one c =>
          if decide (c = LF) then Some (got n, line ++ [c] ++ [NUL], st, w)
          else Readline_loop k' (n + 1) d (line ++ [c]) st w
      | no_char => Some (got (n - 1), line ++ [NUL], st, w)
      | my_error => Some (minus_one, line, st, w)
      end
  end.
Definition Readline (d : Z) (maxlen : nat) (st : statics) (w : world) : option (result nat * str * statics * world) :=
  Readline_loop (maxlen - 1) 1 d [] st w.

(** ** Lemmas *)

(** Errors other than interruptions do not occur. *)
Definition no_error (w : world) : Prop := Forall (fun s => match s with failure e => e = EINTR | success _ => True end) (script w).

(** What a call that reads from [d] leaves alone. *)
Record frame (d : Z) (w w' : world) : Prop := {
  frame_other f : f <> d -> stream w' f = stream w f;
  frame_written : written w' = written w;
  frame_script : script w' `suffix_of` script w }.
#[export] Instance frame_preorder d : PreOrder (frame d).
Proof.
  split.
  - by constructor.
  - intros w1 w2 w3 [H1 H2 H3] [H4 H5 H6]. constructor; [|congruence|by etrans].
    intros f Hf. rewrite H4, H1; done.
Qed.

Lemma no_error_frame d w w' : frame d w w' -> no_error w -> no_error w'.
Proof. intros [_ _ [pre Hs]] H. unfold no_error in *. rewrite Hs in H. by apply Forall_app in H as [_ H]. Qed.

Lemma stream_insert d f s u wr sc : stream (World (<[d := s]> u) wr sc) f = if decide (f = d) then s else stream (World u wr sc) f.
Proof.
  unfold stream. cbn [unread]. case_decide as Hf; [subst|].
  - by rewrite lookup_insert_eq.
  - by rewrite lookup_insert_ne.
Qed.

Lemma read_spec d n w :
  match read d n w with
  | (inl s, w') =>
      s = take (length s) (stream w d) /\ length s <= n /\ stream w' d = drop (length s) (stream w d) /\
      frame d w w' /\ length (script w') = length (script w) - 1 /\
      (s = [] -> n = 0 \/ stream w d = []) /\
      (script w = [] -> s = take n (stream w d))
  | (inr e, w') =>
      stream w' d = stream w d /\ frame d w w' /\ script w = failure e :: script w'
  end.
Proof.
  assert (forall m sc, m <= n -> sc `suffix_of` script w -> length sc = length (script w) - 1 ->
    (m = 0 -> n = 0) -> (script w = [] -> m = n) ->
    let s := take m (stream w d) in
    let w' := World (<[d := drop m (stream w d)]> (unread w)) (written w) sc in
    s = take (length s) (stream w d) /\ length s <= n /\ stream w' d = drop (length s) (stream w d) /\
    frame d w w' /\ length (script w') = length (script w) - 1 /\
    (s = [] -> n = 0 \/ stream w d = []) /\ (script w = [] -> s = take n (stream w d))) as Hgen.
  { intros m sc Hm Hsc Hl Hz Hfull s w'. unfold s. rewrite length_take. split_and!.
    - destruct (Nat.min_spec m (length (stream w d))) as [[? ->]|[? ->]]; [done|]. by rewrite !take_ge by lia.
    - lia.
    - unfold w'. rewrite stream_insert, decide_True by done.
      destruct (Nat.min_spec m (length (stream w d))) as [[? ->]|[? ->]]; [done|]. by rewrite !drop_ge by lia.
    - constructor; [|done|done]. intros f Hf. unfold w'. rewrite stream_insert, decide_False by done. done.
    - done.
    - intros Hnil. apply (f_equal length) in Hnil. rewrite length_take in Hnil. cbn in Hnil.
      destruct (decide (m = 0)) as [->|]; [left; by apply Hz|]. right. apply length_zero_iff_nil. lia.
    - intros Hs. by rewrite (Hfull Hs). }
  unfold read. destruct (script w) as [|[k|e] sc] eqn:Hsc.
  - apply Hgen; done || lia.
  - apply Hgen; [lia|by apply suffix_cons_r|cbn; lia|lia|done].
  - split_and!; [done| |done]. constructor; [done|done|]. rewrite Hsc. by apply suffix_cons_r.
Qed.

(** Enough fuel: an iteration uses up an entry of the script, then one reads
    all that is wanted or left, and one more may find the end. *)
Definition Readn_fuel (fuel nleft : nat) (s : str) (sc : list sys) : Prop :=
  nleft = 0 \/ length sc + 2 <= fuel \/ (1 <= fuel /\ sc = [] /\ s = []).

Lemma Readn_loop_spec fuel d nleft ptr w :
  Readn_fuel fuel nleft (stream w d) (script w) ->
  exists r w', Readn_loop fuel d nleft ptr w = Some (r, w') /\ frame d w w' /\
    (r = got (ptr ++ take nleft (stream w d)) /\ stream w' d = drop nleft (stream w d) \/
     r = minus_one /\ ~ no_error w /\ exists k, k <= nleft /\ stream w' d = drop k (stream w d)).
Proof.
  revert nleft ptr w. induction fuel as [|fuel IH]; intros nleft ptr w Hf; cbn [Readn_loop]; case_decide as Hn.
  1, 3: exists (got ptr), w; split_and!; [done|done|]; left; subst; by rewrite take_0, app_nil_r.
  { unfold Readn_fuel in Hf. lia. }
  pose proof (read_spec d nleft w) as Hr. destruct (read d nleft w) as [[s|e] w1].
  - destruct Hr as (Hs & Hle & Hst & Hfr & Hlen & Hnil & Hfull). destruct s as [|a s].
    + exists (got ptr), w1. split_and!; [done|done|]. left. destruct (Hnil eq_refl) as [|Hempty]; [done|].
      rewrite Hst, Hempty, take_nil, app_nil_r. by rewrite !drop_nil.
    + set (s' := a :: s) in *. destruct (IH (nleft - length s') (ptr ++ s') w1) as (r & w' & Heq & Hfr' & Hr').
      { destruct Hf as [|[Hf|(_ & _ & He)]]; [done| |by rewrite He, take_nil in Hs].
        destruct (script w) as [|x sc]; [|right; left; rewrite Hlen; cbn in *; lia].
        destruct (decide (nleft - length s' = 0)) as [|Hne]; [by left|right; right].
        cbn in Hf. split_and!; [lia|by apply length_zero_iff_nil|]. rewrite Hst. apply drop_ge.
        specialize (Hfull eq_refl). apply (f_equal length) in Hfull. rewrite length_take in Hfull. lia. }
      exists r, w'. split; [exact Heq|]. split; [by etrans|]. rewrite Hst in Hr'. destruct Hr' as [[-> Hd]|(-> & Hne & k & Hk & Hd)].
      * left. rewrite drop_drop in Hd. split.
        -- rewrite <- app_assoc. do 2 f_equal. replace nleft with (length s' + (nleft - length s')) at 2 by lia.
           by rewrite <- take_take_drop, <- Hs.
        -- rewrite Hd. f_equal. lia.
      * right. split; [done|]. split; [intros Hok; apply Hne; by eapply no_error_frame|].
        exists (length s' + k). rewrite drop_drop in Hd. split; [lia|done].
  - destruct Hr as (Hst & Hfr & Hsc). unfold Readn_fuel in Hf. rewrite Hsc in Hf. cbn [length] in Hf.
    destruct (decide (e = EINTR)) as [->|Hne].
    + destruct (IH nleft ptr w1) as (r & w' & Heq & Hfr' & Hr').
      { right; left. destruct Hf as [|[Hf|(_ & ? & _)]]; [done|lia|done]. }
      exists r, w'. split; [exact Heq|]. split; [by etrans|]. rewrite Hst in Hr'. destruct Hr' as [Hr'|(-> & Hne & Hk)]; [by left|].
      right. split; [done|]. split; [|done]. intros Hok. apply Hne. by eapply no_error_frame.
    + exists minus_one, w1. split_and!; [by destruct e|done|]. right. split; [done|]. split.
      * intros Hok. unfold no_error in Hok. rewrite Hsc in Hok. by apply Forall_cons in Hok as [? _].
      * exists 0. split; [lia|]. by rewrite Hst, drop_0.
Qed.

Record wframe (d : Z) (w w' : world) : Prop := {
  wframe_other f : f <> d -> sink w' f = sink w f;
  wframe_unread : unread w' = unread w;
  wframe_script : script w' `suffix_of` script w }.
#[export] Instance wframe_preorder d : PreOrder (wframe d).
Proof.
  split.
  - by constructor.
  - intros w1 w2 w3 [H1 H2 H3] [H4 H5 H6]. constructor; [|congruence|by etrans].
    intros f Hf. rewrite H4, H1; done.
Qed.

Lemma no_error_suffix w w' : script w' `suffix_of` script w -> no_error w -> no_error w'.
Proof. intros [pre Hs] H. unfold no_error in *. rewrite Hs in H. by apply Forall_app in H as [_ H]. Qed.

Lemma sink_insert d f s u wr sc : sink (World u (<[d := s]> wr) sc) f = if decide (f = d) then s else sink (World u wr sc) f.
Proof.
  unfold sink. cbn [written]. case_decide as Hf; [subst|].
  - by rewrite lookup_insert_eq.
  - by rewrite lookup_insert_ne.
Qed.

Lemma write_spec d s w :
  match write d s w with
  | (inl n, w') =>
      n <= length s /\ sink w' d = sink w d ++ take n s /\ wframe d w w' /\
      length (script w') = length (script w) - 1 /\ (n = 0 -> s = []) /\ (script w = [] -> n = length s)
  | (inr e, w') => sink w' d = sink w d /\ wframe d w w' /\ script w = failure e :: script w'
  end.
Proof.
  assert (forall m sc, m <= length s -> sc `suffix_of` script w -> length sc = length (script w) - 1 ->
    (m = 0 -> s = []) -> (script w = [] -> m = length s) ->
    let w' := World (unread w) (<[d := sink w d ++ take m s]> (written w)) sc in
    m <= length s /\ sink w' d = sink w d ++ take m s /\ wframe d w w' /\
    length (script w') = length (script w) - 1 /\ (m = 0 -> s = []) /\ (script w = [] -> m = length s)) as Hgen.
  { intros m sc Hm Hsc Hl Hz Hfull w'. split_and!; try done.
    - unfold w'. by rewrite sink_insert, decide_True.
    - constructor; [|done|done]. intros f Hf. unfold w'. rewrite sink_insert, decide_False by done. done. }
  unfold write. destruct (script w) as [|[k|e] sc] eqn:Hsc.
  - apply Hgen; try done. intros Hz. by apply length_zero_iff_nil.
  - apply Hgen; [lia|by apply suffix_cons_r|cbn; lia| |done]. intros Hz. apply length_zero_iff_nil. lia.
  - split_and!; [done| |done]. constructor; [done|done|]. rewrite Hsc. by apply suffix_cons_r.
Qed.

Lemma Writen_loop_spec fuel d n ptr w :
  ptr = [] \/ length (script w) + 1 <= fuel ->
  exists r w', Writen_loop fuel d n ptr w = Some (r, w') /\ wframe d w w' /\
    (r = got n /\ sink w' d = sink w d ++ ptr \/
     r = minus_one /\ ~ no_error w /\ exists k, k <= length ptr /\ sink w' d = sink w d ++ take k ptr).
Proof.
  revert ptr w. induction fuel as [|fuel IH]; intros ptr w Hf; cbn [Writen_loop]; case_decide as Hn.
  1, 3: apply length_zero_iff_nil in Hn as ->; exists (got n), w; split_and!; [done|done|]; left; by rewrite app_nil_r.
  { destruct Hf as [-> |]; [done|lia]. }
  assert (ptr <> []) as Hne by (by intros ->). destruct Hf as [|Hf]; [done|].
  pose proof (write_spec d ptr w) as Hw. destruct (write d ptr w) as [[m|e] w1].
  - destruct Hw as (Hm & Hs & Hfr & Hlen & Hz & Hfull). destruct m as [|m]; [by specialize (Hz eq_refl)|].
    set (m' := S m) in *. destruct (IH (drop m' ptr) w1) as (r & w' & Heq & Hfr' & Hr').
    { destruct (script w) as [|x sc]; [left|right; rewrite Hlen; cbn in *; lia].
      rewrite (Hfull eq_refl). by apply drop_ge. }
    exists r, w'. split; [exact Heq|]. split; [by etrans|]. rewrite Hs in Hr'.
    destruct Hr' as [[-> Hd]|(-> & Hne' & k & Hk & Hd)]; rewrite <- app_assoc in Hd.
    + left. split; [done|]. by rewrite take_drop in Hd.
    + right. split; [done|]. split; [intros Hok; apply Hne'; eapply no_error_suffix; [apply Hfr|done]|].
      exists (m' + k). rewrite length_drop in Hk. split; [lia|]. by rewrite take_take_drop in Hd.
  - destruct Hw as (Hs & Hfr & Hsc). rewrite Hsc in Hf. cbn [length] in Hf.
    destruct (decide (e = EINTR)) as [->|Hne'].
    + destruct (IH ptr w1) as (r & w' & Heq & Hfr' & Hr'); [right; lia|].
      exists r, w'. split; [exact Heq|]. split; [by etrans|]. rewrite Hs in Hr'. destruct Hr' as [Hr'|(-> & Hn' & Hk)]; [by left|].
      right. split; [done|]. split; [|done]. intros Hok. apply Hn'. eapply no_error_suffix; [apply Hfr|done].
    + exists minus_one, w1. split_and!; [by destruct e|done|]. right. split; [done|]. split.
      * intros Hok. unfold no_error in Hok. rewrite Hsc in Hok. by apply Forall_cons in Hok as [? _].
      * exists 0. split; [lia|]. by rewrite take_0, app_nil_r.
Qed.

(** *** The buffer of [my_read] *)

Definition statics_ok (st : statics) : Prop :=
  length (read_buf st) = 100 /\ ((0 < read_cnt st)%Z -> (Z.of_nat (read_ptr st) + read_cnt st <= 100)%Z).

(** What the buffer still holds. *)
Definition buffered (st : statics) : str := take (Z.to_nat (read_cnt st)) (drop (read_ptr st) (read_buf st)).

Lemma my_read_take_spec st :
  statics_ok st -> (0 < read_cnt st)%Z ->
  exists c, (my_read_take st).1 = one c /\ statics_ok (my_read_take st).2 /\
    buffered st = c :: buffered (my_read_take st).2.
Proof.
  intros [Hl Hc] Hpos. specialize (Hc Hpos). unfold my_read_take, buffered. cbn [fst snd read_cnt read_ptr read_buf].
  destruct (lookup_lt_is_Some_2 (read_buf st) (read_ptr st)) as [c Hx]; [lia|]. exists c. rewrite Hx. split_and!; [done| |].
  - split; cbn; [done|]. lia.
  - rewrite (drop_S _ _ _ Hx). replace (Z.to_nat (read_cnt st)) with (S (Z.to_nat (read_cnt st - 1))) by lia.
    cbn [take]. by rewrite Nat.add_1_r.
Qed.

Lemma buffered_empty st : (read_cnt st <= 0)%Z -> buffered st = [].
Proof. intros H. unfold buffered. by replace (Z.to_nat (read_cnt st)) with 0 by lia. Qed.

Definition my_read_post (d : Z) (st : statics) (w : world) (rc : one_char) (st' : statics) (w' : world) : Prop :=
  statics_ok st' /\ frame d w w' /\
  match rc with
  | one c => buffered st ++ stream w d = c :: (buffered st' ++ stream w' d)
  | no_char => buffered st ++ stream w d = [] /\ buffered st' ++ stream w' d = []
  | my_error => ~ no_error w
  end.

Lemma my_read_again_spec fuel d st w :
  length (script w) < fuel -> statics_ok st -> (read_cnt st <= 0)%Z ->
  exists rc st' w', my_read_again fuel d st w = Some (rc, st', w') /\ my_read_post d st w rc st' w'.
Proof.
  revert st w. induction fuel as [|fuel IH]; intros st w Hf Hok Hcnt; [lia|]. cbn [my_read_again].
  pose proof (read_spec d 100 w) as Hr. destruct (read d 100 w) as [[s|e] w1].
  - destruct Hr as (Hs & Hle & Hst & Hfr & Hlen & Hnil & _). destruct s as [|a s].
    + eexists _, _, _. split; [done|]. destruct (Hnil eq_refl) as [|He]; [done|]. split; [by destruct Hok|]. split; [done|].
      split; rewrite (buffered_empty _) by (cbn; lia); [done|]. by rewrite Hst, He.
    + set (s' := a :: s) in *. set (st1 := Statics _ 0 _).
      assert (statics_ok st1) as Hok1.
      { destruct Hok as [Hb _]. split; cbn [st1 read_buf read_cnt read_ptr]; [|lia]. rewrite length_app, length_drop. lia. }
      assert (buffered st1 = s') as Hb1.
      { unfold buffered. cbn [st1 read_buf read_cnt read_ptr]. rewrite Nat2Z.id, drop_0. apply take_app_length. }
      destruct (my_read_take_spec st1 Hok1) as (c & H1 & H2 & H3); [cbn; lia|].
      destruct (my_read_take st1) as [rc st2]. cbn [fst snd] in *. subst rc.
      eexists _, _, _. split; [done|]. split; [done|]. split; [done|].
      rewrite (buffered_empty st) by done. rewrite app_comm_cons, <- H3, Hb1, Hst. cbn [app].
      rewrite <- (take_drop (length s') (stream w d)) at 1. by rewrite <- Hs.
  - destruct Hr as (Hst & Hfr & Hsc). rewrite Hsc in Hf. cbn [length] in Hf.
    set (st1 := Statics (-1) (read_ptr st) (read_buf st)).
    assert (statics_ok st1) as Hok1 by (destruct Hok; split; [done|cbn; lia]).
    destruct (decide (e = EINTR)) as [->|Hne].
    + destruct (IH st1 w1) as (rc & st' & w' & Heq & Hok' & Hfr' & Hrc); [lia|done|cbn; lia|].
      exists rc, st', w'. split; [exact Heq|]. split; [done|]. split; [by etrans|].
      rewrite (buffered_empty st1), Hst in Hrc by (cbn; lia). rewrite (buffered_empty st) by done.
      destruct rc; [done|done|]. intros Hno. apply Hrc. by eapply no_error_frame.
    + exists my_error, st1, w1. split; [by destruct e|]. split; [done|]. split; [done|].
      intros Hno. unfold no_error in Hno. rewrite Hsc in Hno. by apply Forall_cons in Hno as [? _].
Qed.

Lemma my_read_spec d st w :
  statics_ok st -> exists rc st' w', my_read d st w = Some (rc, st', w') /\ my_read_post d st w rc st' w'.
Proof.
  intros Hok. unfold my_read. destruct (Z.leb_spec (read_cnt st) 0) as [Hc|Hc].
  - apply my_read_again_spec; [lia|done|done].
  - destruct (my_read_take_spec st Hok Hc) as (c & H1 & H2 & H3). destruct (my_read_take st) as [rc st2].
    cbn [fst snd] in *. subst rc. eexists _, _, _. split; [done|]. split; [done|]. split; [done|]. by rewrite H3.
Qed.

(** *** [Readline] against [fgets] *)

(** A full buffer without a line feed is reported as one byte longer. *)
Definition overcount (k : nat) (line : str) : nat := if decide (length line = k /\ last line <> Some LF) then 1 else 0.

Lemma Readline_loop_spec k d acc st w line pend :
  statics_ok st -> fgets k (buffered st ++ stream w d) = (line, pend) ->
  exists r mem st' w', Readline_loop k (length acc + 1) d acc st w = Some (r, mem, st', w') /\
    statics_ok st' /\ frame d w w' /\
    (r = got (length acc + length line + overcount k line) /\ mem = acc ++ line ++ [NUL] /\ buffered st' ++ stream w' d = pend \/
     r = minus_one /\ ~ no_error w).
Proof.
  revert acc st w line pend. induction k as [|k IH]; intros acc st w line pend Hok Hg; cbn [Readline_loop].
  { assert (line = [] /\ pend = buffered st ++ stream w d) as [-> ->] by (destruct (buffered st ++ stream w d); by simplify_eq/=).
    eexists _, _, _, _. split; [done|]. split; [done|]. split; [done|]. left. split_and!; [|done|done]. f_equal. unfold overcount. rewrite decide_True by done. cbn. lia. }
  destruct (my_read_spec d st w Hok) as (rc & st1 & w1 & -> & Hok1 & Hfr & Hrc). cbn [mbind option_bind].
  destruct rc as [c| |].
  - rewrite Hrc in Hg. cbn [fgets] in Hg. destruct (decide (c = LF)) as [->|Hne].
    + injection Hg as <- <-. eexists _, _, _, _. split; [done|]. split; [done|]. split; [done|]. left. split_and!; [|done|done].
      f_equal. unfold overcount. rewrite decide_False by (intros [_ H]; by apply H). cbn. lia.
    + destruct (fgets k (buffered st1 ++ stream w1 d)) as [l p] eqn:Hg1. injection Hg as <- <-.
      destruct (IH (acc ++ [c]) st1 w1 l p Hok1 Hg1) as (r & mem & st' & w' & Heq & Hok' & Hfr' & Hr).
      rewrite length_app in Heq, Hr. cbn [length] in Heq, Hr.
      exists r, mem, st', w'. split; [exact Heq|]. split; [done|]. split; [by etrans|].
      destruct Hr as [(-> & -> & Hp)|(-> & Hno)].
      * left. split_and!; [|by rewrite <- app_assoc|done]. f_equal. unfold overcount. cbn [length].
        assert (last (c :: l) <> Some LF <-> last l <> Some LF) as Hlast.
        { destruct l as [|x l]; [|done]. cbn. split; [done|congruence]. }
        destruct (decide (length l = k /\ _)); destruct (decide (S (length l) = S k /\ _)); naive_solver lia.
      * right. split; [done|]. intros H. apply Hno. by eapply no_error_frame.
  - destruct Hrc as [He Hp]. rewrite He in Hg. cbn [fgets] in Hg. injection Hg as <- <-.
    eexists _, _, _, _. split; [done|]. split; [done|]. split; [done|]. left. split_and!; [|done|done]. f_equal. unfold overcount.
    rewrite decide_False by (cbn; lia). cbn. lia.
  - eexists _, _, _, _. split; [done|]. split; [done|]. split; [done|]. by right.
Qed.

(** *** Interrupted calls *)

(** The first entry of the script that is not one of the errors retried. *)
Fixpoint settled (retried : errno -> bool) (sc : list sys) : list sys :=
  match sc with
  | failure e :: sc' => if retried e then settled retried sc' else sc
  | _ => sc
  end.

Definition interrupted (e : errno) : bool := bool_decide (e = EINTR).
Definition with_script (w : world) (sc : list sys) : world := World (unread w) (written w) sc.

Lemma Read_again_spec fuel d n w :
  length (script w) < fuel ->
  Read_again fuel d n w =
    let w1 := with_script w (settled interrupted (script w)) in
    match read d n w1 with
    | (inl s, w') => Some (got s, w')
    | (inr _, w') => Some (minus_one, w')
    end.
Proof.
  revert w. induction fuel as [|fuel IH]; intros [u wr sc] Hf; [lia|]. cbn [script] in *. unfold with_script. cbn [unread written].
  cbn [Read_again]. unfold read at 1. cbn [script unread written]. destruct sc as [|[k|[]] sc]; try done.
  rewrite IH by (cbn in *; lia). done.
Qed.

Lemma Write_again_spec fuel d s w :
  length (script w) < fuel ->
  Write_again fuel d s w =
    let w1 := with_script w (settled interrupted (script w)) in
    match write d s w1 with
    | (inl n, w') => Some (got n, w')
    | (inr _, w') => Some (minus_one, w')
    end.
Proof.
  revert w. induction fuel as [|fuel IH]; intros [u wr sc] Hf; [lia|]. cbn [script] in *. unfold with_script. cbn [unread written].
  cbn [Write_again]. unfold write at 1. cbn [script unread written]. destruct sc as [|[k|[]] sc]; try done.
  rewrite IH by (cbn in *; lia). done.
Qed.

Lemma Accept_again_spec fuel w :
  length (script w) < fuel ->
  Accept_again fuel w =
    let w1 := with_script w (settled (fun e => bool_decide (e = EINTR \/ e = ECONNABORTED)) (script w)) in
    Some (or_exit (syscall w1)).
Proof.
  revert w. induction fuel as [|fuel IH]; intros [u wr sc] Hf; [lia|]. cbn [script] in *. unfold with_script. cbn [unread written].
  cbn [Accept_again]. unfold syscall at 1. cbn [script unread written]. destruct sc as [|[k|[]] sc]; try done.
  all: rewrite IH by (cbn in *; lia); done.
Qed.

(** ** Properties *)

(** An interrupted [accept], [read] or [write] is repeated until it is not
    interrupted, and then behaves as the plain call does; [Accept] also repeats
    an aborted connection, and leaves the process on any other error. *)
Theorem retry_spec d n s w :
  Read d n w = (match read d n (with_script w (settled interrupted (script w))) with
                | (inl r, w') => Some (got r, w') | (inr _, w') => Some (minus_one, w') end) /\
  Write d s w = (match write d s (with_script w (settled interrupted (script w))) with
                 | (inl m, w') => Some (got m, w') | (inr _, w') => Some (minus_one, w') end) /\
  Accept w = Some (or_exit (syscall (with_script w
    (settled (fun e => bool_decide (e = EINTR \/ e = ECONNABORTED)) (script w))))).
Proof.
  split_and!; [apply Read_again_spec|apply Write_again_spec|apply Accept_again_spec]; lia.
Qed.

(** Messages written one after the other, and read by their lengths. *)
Fixpoint write_all (d : Z) (ms : list str) (w : world) : option world :=
  match ms with
  | [] => Some w
  | m :: ms' =>
      '(r, w) ← Writen d m w;
      match r with got _ => write_all d ms' w | minus_one => None end
  end.
Fixpoint read_all (d : Z) (ns : list nat) (w : world) : option (list str * world) :=
  match ns with
  | [] => Some ([], w)
  | n :: ns' =>
      '(r, w) ← Readn d n w;
      match r with got m => '(ms, w) ← read_all d ns' w; Some (m :: ms, w) | minus_one => None end
  end.

Lemma write_all_spec d ms w :
  no_error w -> exists w', write_all d ms w = Some w' /\ sink w' d = sink w d ++ concat ms.
Proof.
  revert w. induction ms as [|m ms IH]; intros w Hno; cbn [write_all concat].
  { exists w. by rewrite app_nil_r. }
  destruct (Writen_loop_spec (length (script w) + 1) d (length m) m w) as (r & w1 & Heq & Hfr & Hr); [by right|].
  unfold Writen. rewrite Heq. cbn [mbind option_bind]. destruct Hr as [[-> Hs]|(_ & Hn & _)]; [|done].
  destruct (IH w1) as (w' & -> & Hs'); [eapply no_error_suffix; [apply Hfr|done]|].
  exists w'. by rewrite Hs', Hs, app_assoc.
Qed.

Lemma read_all_spec d ms w rest :
  no_error w -> stream w d = concat ms ++ rest ->
  exists w', read_all d (length <$> ms) w = Some (ms, w') /\ stream w' d = rest.
Proof.
  revert w. induction ms as [|m ms IH]; intros w Hno Hs; cbn [read_all concat fmap list_fmap] in *.
  { by exists w. }
  destruct (Readn_loop_spec (length (script w) + 2) d (length m) [] w) as (r & w1 & Heq & Hfr & Hr); [by right; left|].
  unfold Readn. rewrite Heq. cbn [mbind option_bind]. destruct Hr as [[-> Hd]|(_ & Hn & _)]; [|done].
  rewrite Hs, <- app_assoc in Hd |- *. rewrite take_app_length, drop_app_length in *.
  destruct (IH w1) as (w' & -> & Hs'); [by eapply no_error_frame|done|]. by exists w'.
Qed.

(** C16: messages cross a connection whole. However the system splits and
    interrupts the calls on the two sides, what [Writen] writes is the
    concatenation of the messages, and [Readn], given their lengths, reads back
    exactly these messages. *)
Theorem writen_readn d e ms w1 w2 :
  no_error w1 -> no_error w2 -> sink w1 d = [] ->
  exists w1', write_all d ms w1 = Some w1' /\
    (stream w2 e = sink w1' d -> exists w2', read_all e (length <$> ms) w2 = Some (ms, w2') /\ stream w2' e = []).
Proof.
  intros H1 H2 Hs. destruct (write_all_spec d ms w1 H1) as (w1' & Heq & Hs'). exists w1'. split; [done|].
  rewrite Hs', Hs. cbn [app]. intros Hst. apply read_all_spec; [done|]. by rewrite app_nil_r.
Qed.

Lemma writen_readn_witness :
  let ms := [lit "hello"; []; lit "world!"] in
  let w1 := World ∅ ∅ [success 0; failure EINTR; success 2] in
  let w2 := World {[4%Z := lit "helloworld!"]} ∅ [success 1; failure EINTR; success 0; success 7] in
  exists w2', read_all 4 [5; 0; 6] w2 = Some (ms, w2') /\ stream w2' 4 = [].
Proof.
  intros ms w1 w2.
  assert (no_error w1) as H1 by (repeat constructor). assert (no_error w2) as H2 by (repeat constructor).
  destruct (writen_readn 3 4 ms w1 w2 H1 H2 eq_refl) as (w1' & Heq & Hr). apply Hr.
  vm_compute in Heq. injection Heq as <-. vm_compute. reflexivity.
Defined.

(** C37: [Readline] is [fgets]. It stores the next line of the input, as far as
    it fits, whatever the sizes in which the input arrives, and terminates it;
    the input is what [my_read] still holds, from whichever descriptor, before
    what the descriptor has to offer. It returns the length of the line, and
    one more when the line filled the buffer. *)
Theorem Readline_fgets d maxlen st w line pend :
  statics_ok st -> fgets (maxlen - 1) (buffered st ++ stream w d) = (line, pend) ->
  exists r mem st' w', Readline d maxlen st w = Some (r, mem, st', w') /\ statics_ok st' /\
    (r = got (length line + overcount (maxlen - 1) line) /\ mem = line ++ [NUL] /\
     (0 < maxlen -> length mem <= maxlen) /\ buffered st' ++ stream w' d = pend \/
     r = minus_one /\ ~ no_error w).
Proof.
  intros Hok Hg. destruct (Readline_loop_spec (maxlen - 1) d [] st w line pend Hok Hg) as (r & mem & st' & w' & Heq & Hok' & _ & Hr).
  exists r, mem, st', w'. split; [exact Heq|]. split; [done|]. destruct Hr as [(-> & -> & Hp)|Hr]; [left|by right].
  split_and!; [done|done| |done]. intros Hm. destruct (fgets_spec _ _ _ _ Hg) as (_ & Hl & _).
  cbn [app]. rewrite length_app. cbn [length]. lia.
Qed.

(** The second line of descriptor 3 is delivered to a reader of descriptor 4;
    a line that fills the buffer is counted one too long. *)
Definition two_peers : world := World (<[3%Z := lit "a" ++ [LF] ++ lit "secret" ++ [LF]]> {[4%Z := lit "b" ++ [LF]]}) ∅ [].

Definition first_read : option (result nat * str * statics * world) := Readline 3 80 zero_statics two_peers.

Lemma Readline_fgets_witness :
  exists n st w mem st' w', first_read = Some (got n, lit "a" ++ [LF; NUL], st, w) /\
    Readline 4 5 st w = Some (got 5, mem, st', w') /\ mem = lit "secr" ++ [NUL].
Proof.
  set (st := Statics 7 2 (lit "a" ++ [LF] ++ lit "secret" ++ [LF] ++ replicate 91 NUL)).
  set (w := World (<[3%Z := []]> {[4%Z := lit "b" ++ [LF]]}) ∅ []).
  destruct (Readline_fgets 4 5 st w (lit "secr") (lit "et" ++ [LF] ++ lit "b" ++ [LF])) as (r & mem & st' & w' & Heq & _ & Hr).
  - split; [reflexivity|]. intros _. vm_compute. discriminate.
  - vm_compute. reflexivity.
  - destruct Hr as [(-> & -> & _)|[_ Hno]]; [|exfalso; apply Hno; constructor].
    exists 2, st, w, (lit "secr" ++ [NUL]), st', w'. split_and!; [vm_compute; reflexivity|exact Heq|reflexivity].
Defined.
