(* ===== verification/Reactor.v ===== *)
(** * Reactor: an echo server on an epoll reactor

    Models [Linux_Net/Reactor/02_epoll_loop.c] (the file
    [epoll_ET_LT/4-epoll_loop_epoll*.cpp] is a copy of it): the table
    [g_events], the functions that set, register and remove an entry, the three
    callbacks and the rounds of the main loop, each of which first closes idle
    connections among the next hundred entries and then runs the callbacks of
    the ready ones.

    The kernel is what its manual pages say of it: descriptors that are open,
    the interest list of the epoll instance, which a closed descriptor leaves,
    and the results of [accept], [recv] and [send], which are inputs of a round
    ([ready]). What a connection received and sent is recorded in [conns], and
    in [closed] once the server has closed it; no operation reads these. *)
From S2P Require Import Prelude.

(** ** Data *)

Definition MAX_EVENTS : nat := 1024.
Definition BUFLEN : nat := 4096.
Definition EPOLLIN : Z := 1.
Definition EPOLLOUT : Z := 4.

Inductive callback := no_callback | acceptconn_cb | recvdata_cb | senddata_cb.

(** [arg] is a pointer to an entry of [g_events], as its index. *)
Record myevent_s := Myevent {
  fd : Z; events : Z; arg : nat; call_back : callback; status : Z;
  buf : str; len : Z; last_active : Z }.

(** Static storage is zero. *)
Definition zero_event : myevent_s := Myevent 0 0 0 no_callback 0 (replicate BUFLEN NUL) 0 0.

(** The bytes read from and written to a connection, call by call. *)
Record conn := Conn { input : list str; output : list str }.

Record kernel := Kernel {
  interest : gmap Z (Z * nat);        (* the epoll instance: events and data.ptr *)
  conns : gmap Z conn;                (* open connections, by descriptor *)
  closed : list conn }.

Record state := State { g_events : list myevent_s; checkpos : nat; kern : kernel }.

Definition set_events (g : list myevent_s) (st : state) : state := State g (checkpos st) (kern st).
Definition set_kern (k : kernel) (st : state) : state := State (g_events st) (checkpos st) k.
Definition entry (st : state) (i : nat) : myevent_s := default zero_event (g_events st !! i).
Definition put (i : nat) (ev : myevent_s) (st : state) : state := set_events (<[i := ev]> (g_events st)) st.

(** ** System calls *)

Inductive ctl := EPOLL_CTL_ADD | EPOLL_CTL_MOD | EPOLL_CTL_DEL.

(** A call that fails ([EEXIST], [ENOENT]) changes nothing; only a message
    depends on it. *)
Definition epoll_ctl (op : ctl) (d : Z) (epv : Z * nat) (st : state) : state :=
  let k := kern st in
  let upd i := set_kern (Kernel i (conns k) (closed k)) st in
  match op, interest k !! d with
  | EPOLL_CTL_ADD, None | EPOLL_CTL_MOD, Some _ => upd (<[d := epv]> (interest k))
  | EPOLL_CTL_DEL, Some _ => upd (delete d (interest k))
  | _, _ => st
  end.

(** [close] of a connection, which also ends its registration. *)
Definition close (d : Z) (st : state) : state :=
  let k := kern st in
  set_kern (Kernel (delete d (interest k)) (delete d (conns k))
                   (closed k ++ match conns k !! d with Some c => [c] | None => [] end)) st.

(** Ghost: a call of [recv] or [send] on a connection. *)
Definition log (f : conn -> conn) (d : Z) (st : state) : state :=
  let k := kern st in set_kern (Kernel (interest k) (alter f d (conns k)) (closed k)) st.
Definition log_in (s : str) (c : conn) : conn := Conn (input c ++ [s]) (output c).
Definition log_out (s : str) (c : conn) : conn := Conn (input c) (output c ++ [s]).

(** ** Entries *)

Definition eventset (ev : nat) (d : Z) (cb : callback) (a : nat) (now : Z) (st : state) : state :=
  let e := entry st ev in
  put ev (Myevent d 0 a cb 0 (buf e) (len e) now) st.

Definition eventadd (evs : Z) (ev : nat) (st : state) : state :=
  let e := entry st ev in
  let op := if decide (status e = 1%Z) then EPOLL_CTL_MOD else EPOLL_CTL_ADD in
  epoll_ctl op (fd e) (evs, ev)
    (put ev (Myevent (fd e) evs (arg e) (call_back e) 1 (buf e) (len e) (last_active e)) st).

Definition eventdel (ev : nat) (st : state) : state :=
  let e := entry st ev in
  if decide (status e <> 1%Z) then st
  else epoll_ctl EPOLL_CTL_DEL (fd e) (events e, ev)
         (put ev (Myevent (fd e) (events e) (arg e) (call_back e) 0 (buf e) (len e) (last_active e)) st).

(** ** The callbacks *)

(** The results of the system calls a callback may make: a new descriptor and
    whether [fcntl] succeeded, the bytes received, the number of bytes sent;
    [None] is [-1]. *)
Record results := Results { accept_res : option (Z * bool); recv_res : option str; send_res : option nat }.

(** The first entry that is free, from [i] on, among [n]. *)
Fixpoint find_free (n i : nat) (st : state) : option nat :=
  match n with
  | O => None
  | S n' => if decide (status (entry st i) = 0%Z) then Some i else find_free n' (i + 1) st
  end.

Definition acceptconn (r : results) (now : Z) (st : state) : state :=
  match accept_res r with
  | None => st
  | Some (cfd, nonblocking) =>
      let k := kern st in
      let st := set_kern (Kernel (interest k) (<[cfd := Conn [] []]> (conns k)) (closed k)) st in
      match find_free MAX_EVENTS 0 st with
      | None => st
      | Some i =>
          if nonblocking : bool then eventadd EPOLLIN i (eventset i cfd recvdata_cb i now st) else st
      end
  end.

(** [buf\[i\] = c]: the array is followed by the least significant byte of [len]. *)
Definition poke_buf (i : nat) (c : ascii) (e : myevent_s) : myevent_s :=
  if (i <? BUFLEN)%nat then
    Myevent (fd e) (events e) (arg e) (call_back e) (status e) (<[i := c]> (buf e)) (len e) (last_active e)
  else
    Myevent (fd e) (events e) (arg e) (call_back e) (status e) (buf e) (len e - len e mod 256 + uchar c)%Z (last_active e).

Definition set_buf (s : str) (e : myevent_s) : myevent_s :=
  Myevent (fd e) (events e) (arg e) (call_back e) (status e) (s ++ drop (length s) (buf e)) (len e) (last_active e).
Definition set_len (n : Z) (e : myevent_s) : myevent_s :=
  Myevent (fd e) (events e) (arg e) (call_back e) (status e) (buf e) n (last_active e).

Definition recvdata (d : Z) (ev : nat) (r : results) (now : Z) (st : state) : state :=
  let st := match recv_res r with
            | Some ((_ :: _) as s) => log (log_in s) d (put ev (set_buf s (entry st ev)) st)
            | _ => st
            end in
  let st := eventdel ev st in
  match recv_res r with
  | Some ((_ :: _) as s) =>
      let n := length s in
      let st := put ev (poke_buf n NUL (set_len (Z.of_nat n) (entry st ev))) st in
      eventadd EPOLLOUT ev (eventset ev d senddata_cb ev now st)
  | _ => close (fd (entry st ev)) st
  end.

(** The bytes given to [send]. *)
Definition outgoing (e : myevent_s) : str := take (Z.to_nat (len e)) (buf e).

Definition senddata (d : Z) (ev : nat) (r : results) (now : Z) (st : state) : state :=
  match send_res r with
  | Some (S _ as n) =>
      let st := log (log_out (take n (outgoing (entry st ev)))) d st in
      eventadd EPOLLIN ev (eventset ev d recvdata_cb ev now (eventdel ev st))
  | _ => eventdel ev (close (fd (entry st ev)) st)
  end.

(** ** The main loop *)

Definition call (cb : callback) (d : Z) (a : nat) (r : results) (now : Z) (st : state) : state :=
  match cb with
  | acceptconn_cb => acceptconn r now st
  | recvdata_cb => recvdata d a r now st
  | senddata_cb => senddata d a r now st
  | no_callback => st
  end.

(** One element of the array that [epoll_wait] filled, with the results of the
    calls its callback makes and the time at which it does. *)
Record ready := Ready { ptr : nat; mask : Z; answers : results; at_time : Z }.

Definition has (m bit : Z) : bool := negb (Z.land m bit =? 0)%Z.

Definition dispatch (st : state) (r : ready) : state :=
  let go bit st :=
    let e := entry st (ptr r) in
    if has (mask r) bit && has (events e) bit then call (call_back e) (fd e) (arg e) (answers r) (at_time r) st else st in
  go EPOLLOUT (go EPOLLIN st).

(** One iteration of the time-out loop. *)
Definition check_one (now : Z) (st : state) : state :=
  let pos := if decide (checkpos st = MAX_EVENTS) then 0 else checkpos st in
  let e := entry st pos in
  let st := State (g_events st) (pos + 1) (kern st) in
  if decide (status e <> 1%Z) then st
  else if (60 <=? now - last_active e)%Z then eventdel pos (close (fd e) st)
  else st.

Fixpoint check_idle (n : nat) (now : Z) (st : state) : state :=
  match n with O => st | S n' => check_idle n' now (check_one now st) end.

(** One pass through the body of the [while] loop. *)
Record round := Round { now : Z; batch : list ready }.
Definition run_round (st : state) (r : round) : state := foldl dispatch (check_idle 100 (now r) st) (batch r).
Definition run (st : state) (rs : list round) : state := foldl run_round st rs.

Definition initlistensocket (lfd : Z) (now : Z) (st : state) : state :=
  eventadd EPOLLIN MAX_EVENTS (eventset MAX_EVENTS lfd acceptconn_cb MAX_EVENTS now st).

Definition start (lfd now : Z) : state :=
  initlistensocket lfd now (State (replicate (MAX_EVENTS + 1) zero_event) 0 (Kernel ∅ ∅ [])).

(** ** What the system may answer *)

(** The descriptors [accept] returns are unused; [recv] fills at most the
    buffer, [send] takes at most what it is given. *)
Definition answers_ok (lfd : Z) (st : state) (r : ready) : Prop :=
  (forall cfd nb, accept_res (answers r) = Some (cfd, nb) -> conns (kern st) !! cfd = None /\ cfd <> lfd) /\
  (forall s, recv_res (answers r) = Some s -> length s <= BUFLEN) /\
  (forall n, send_res (answers r) = Some n -> n <= length (outgoing (entry st (ptr r)))).

(** [epoll_wait] reports each registration at most once, for events that it
    asks for (or errors, which have bits of their own). *)
Definition reported (st : state) (r : ready) : Prop :=
  exists d ev, interest (kern st) !! d = Some (ev, ptr r) /\
    forall bit, bit = EPOLLIN \/ bit = EPOLLOUT -> has (mask r) bit = true -> has ev bit = true.

Fixpoint answered (lfd : Z) (st : state) (rs : list ready) : Prop :=
  match rs with
  | [] => True
  | r :: rs' => answers_ok lfd st r /\ answered lfd (dispatch st r) rs'
  end.

Definition round_ok (lfd : Z) (st : state) (r : round) : Prop :=
  let st' := check_idle 100 (now r) st in
  NoDup (ptr <$> batch r) /\ Forall (reported st') (batch r) /\ answered lfd st' (batch r).

Fixpoint rounds_ok (lfd : Z) (st : state) (rs : list round) : Prop :=
  match rs with
  | [] => True
  | r :: rs' => round_ok lfd st r /\ rounds_ok lfd (run_round st r) rs'
  end.

(** ** The invariant *)

(** Each chunk sent starts a chunk received, in order. *)
Definition echoes : list str -> list str -> Prop := Forall2 (fun o i => o `prefix_of` i /\ o <> []).

Definition echoed (c : conn) : Prop :=
  exists answered pending, input c = answered ++ pending /\ length pending <= 1 /\ echoes (output c) answered.

(** A connection in the table and the entry that serves it. *)
Definition conn_ok (e : myevent_s) (c : conn) : Prop :=
  match call_back e with
  | recvdata_cb => events e = EPOLLIN /\ echoes (output c) (input c)
  | senddata_cb => events e = EPOLLOUT /\ outgoing e <> [] /\ (0 <= len e <= Z.of_nat BUFLEN)%Z /\
      exists answered, input c = answered ++ [outgoing e] /\ echoes (output c) answered
  | _ => False
  end.

Record slot_ok (st : state) (i : nat) : Prop := {
  slot_interest : interest (kern st) !! fd (entry st i) = Some (events (entry st i), i);
  slot_arg : arg (entry st i) = i;
  slot_conn : exists c, conns (kern st) !! fd (entry st i) = Some c /\ conn_ok (entry st i) c }.

Record inv (lfd : Z) (st : state) : Prop := {
  inv_len : length (g_events st) = MAX_EVENTS + 1;
  inv_pos : checkpos st <= MAX_EVENTS;
  inv_buf : forall i, length (buf (entry st i)) = BUFLEN;
  inv_status : forall i, status (entry st i) = 0%Z \/ status (entry st i) = 1%Z;
  inv_listen : fd (entry st MAX_EVENTS) = lfd /\ events (entry st MAX_EVENTS) = EPOLLIN /\
    call_back (entry st MAX_EVENTS) = acceptconn_cb /\ status (entry st MAX_EVENTS) = 1%Z /\
    interest (kern st) !! lfd = Some (EPOLLIN, MAX_EVENTS) /\ conns (kern st) !! lfd = None;
  inv_slot : forall i, i < MAX_EVENTS -> status (entry st i) = 1%Z -> slot_ok st i;
  inv_interest : forall d ev i, interest (kern st) !! d = Some (ev, i) ->
    i <= MAX_EVENTS /\ status (entry st i) = 1%Z /\ fd (entry st i) = d /\ events (entry st i) = ev;
  inv_conns : forall d c, conns (kern st) !! d = Some c ->
    (exists i, i < MAX_EVENTS /\ status (entry st i) = 1%Z /\ fd (entry st i) = d) \/ c = Conn [] [];
  inv_closed : Forall echoed (closed (kern st)) }.

(** ** Lemmas *)

Lemma entry_put i e st j :
  i < length (g_events st) -> entry (put i e st) j = if decide (j = i) then e else entry st j.
Proof.
  intros Hi. unfold entry, put. cbn. case_decide as Hj; [subst|].
  - by rewrite list_lookup_insert_eq.
  - by rewrite list_lookup_insert_ne by done.
Qed.

(** The three shapes of a change of the state: an entry is (re)registered, a
    connection is closed, and a connection is accepted but not registered. *)
Definition register (i : nat) (e : myevent_s) (cs : gmap Z conn) (st : state) : state :=
  put i e (set_kern (Kernel (<[fd e := (events e, i)]> (interest (kern st))) cs (closed (kern st))) st).
Definition drop_conn (i : nat) (e : myevent_s) (c : conn) (st : state) : state :=
  put i e (set_kern (Kernel (delete (fd e) (interest (kern st))) (delete (fd e) (conns (kern st)))
                            (closed (kern st) ++ [c])) st).

Section Shapes.
Context (lfd : Z) (st : state) (i : nat) (e : myevent_s).
Context (Hinv : inv lfd st) (Hi : i < MAX_EVENTS).

Local Lemma entry_put' : forall j, entry (put i e st) j = if decide (j = i) then e else entry st j.
Proof. intros j. apply entry_put. rewrite (inv_len _ _ Hinv). lia. Qed.

Lemma register_inv c' :
  length (buf e) = BUFLEN -> status e = 1%Z -> arg e = i -> conn_ok e c' -> fd e <> lfd ->
  (status (entry st i) = 1%Z -> fd e = fd (entry st i)) ->
  (status (entry st i) = 0%Z -> conns (kern st) !! fd e = None) ->
  inv lfd (register i e (<[fd e := c']> (conns (kern st))) st).
Proof.
  intros Hb Hs Ha Hc Hl H1 H0. set (st' := register _ _ _ _).
  assert (forall j, entry st' j = if decide (j = i) then e else entry st j) as He by apply entry_put'.
  (* no other entry has the descriptor *)
  assert (forall j, j < MAX_EVENTS -> j <> i -> status (entry st j) = 1%Z -> fd (entry st j) <> fd e) as Hd.
  { intros j Hj Hne Hsj Heq. destruct (inv_slot _ _ Hinv j Hj Hsj) as [Hint _ (c & Hcj & _)].
    destruct (inv_status _ _ Hinv i) as [Hz|Ho].
    - specialize (H0 Hz). congruence.
    - destruct (inv_slot _ _ Hinv i Hi Ho) as [Hint' _ _]. rewrite <- (H1 Ho), <- Heq in Hint'. congruence. }
  destruct (inv_listen _ _ Hinv) as (Hl1 & Hl2 & Hl3 & Hl4 & Hl5 & Hl6).
  constructor.
  - unfold st'. cbn. rewrite length_insert. apply Hinv.
  - apply Hinv.
  - intros j. rewrite He. case_decide; [done|apply Hinv].
  - intros j. rewrite He. case_decide; [by right|apply Hinv].
  - rewrite He, decide_False by lia. split_and!; try done; cbn; by rewrite lookup_insert_ne.
  - intros j Hj Hsj. rewrite He in Hsj. destruct (decide (j = i)) as [->|Hne].
    + constructor; rewrite He, decide_True by done; [|done|]; cbn.
      * by rewrite lookup_insert_eq.
      * exists c'. by rewrite lookup_insert_eq.
    + destruct (inv_slot _ _ Hinv j Hj Hsj) as [Hint Harg (c & Hcj & Hok)]. specialize (Hd j Hj Hne Hsj).
      constructor; rewrite He, decide_False by done; [|done|]; cbn.
      * by rewrite lookup_insert_ne.
      * exists c. by rewrite lookup_insert_ne.
  - intros d ev j. rewrite He. cbn. intros [[<- [= <- <-]]|[Hne Hint]]%lookup_insert_Some.
    + rewrite decide_True by done. split_and!; try done. lia.
    + destruct (inv_interest _ _ Hinv _ _ _ Hint) as (? & Hsj & Hfj & ?).
      destruct (decide (j = i)) as [->|Hne']; [|done]. specialize (H1 Hsj). congruence.
  - intros d c. cbn. intros [[<- ->]|[Hne Hcd]]%lookup_insert_Some.
    + left. exists i. by rewrite He, decide_True.
    + destruct (inv_conns _ _ Hinv _ _ Hcd) as [(j & Hj & Hsj & Hfj)|]; [left|by right].
      exists j. rewrite He. destruct (decide (j = i)) as [->|]; [|done]. specialize (H1 Hsj). congruence.
  - apply Hinv.
Qed.

Lemma drop_conn_inv c :
  length (buf e) = BUFLEN -> status e = 0%Z -> status (entry st i) = 1%Z -> fd e = fd (entry st i) -> echoed c ->
  inv lfd (drop_conn i e c st).
Proof.
  intros Hb Hs Ho Hf Hc. set (st' := drop_conn _ _ _ _).
  assert (forall j, entry st' j = if decide (j = i) then e else entry st j) as He by apply entry_put'.
  destruct (inv_slot _ _ Hinv i Hi Ho) as [Hint _ (c0 & Hc0 & _)].
  assert (forall j, j < MAX_EVENTS -> j <> i -> status (entry st j) = 1%Z -> fd (entry st j) <> fd e) as Hd.
  { intros j Hj Hne Hsj Heq. destruct (inv_slot _ _ Hinv j Hj Hsj) as [Hintj _ _]. congruence. }
  destruct (inv_listen _ _ Hinv) as (Hl1 & Hl2 & Hl3 & Hl4 & Hl5 & Hl6).
  assert (fd e <> lfd) as Hl by congruence.
  constructor.
  - unfold st'. cbn. rewrite length_insert. apply Hinv.
  - apply Hinv.
  - intros j. rewrite He. case_decide; [done|apply Hinv].
  - intros j. rewrite He. case_decide; [by left|apply Hinv].
  - rewrite He, decide_False by lia. split_and!; try done; cbn; by rewrite lookup_delete_ne.
  - intros j Hj Hsj. rewrite He in Hsj. destruct (decide (j = i)) as [->|Hne]; [congruence|].
    destruct (inv_slot _ _ Hinv j Hj Hsj) as [Hintj Harg (c1 & Hcj & Hok)]. specialize (Hd j Hj Hne Hsj).
    constructor; rewrite He, decide_False by done; [|done|]; cbn.
    + by rewrite lookup_delete_ne.
    + exists c1. by rewrite lookup_delete_ne.
  - intros d ev j. rewrite He. cbn. intros [Hne Hintd]%lookup_delete_Some.
    destruct (inv_interest _ _ Hinv _ _ _ Hintd) as (? & Hsj & Hfj & ?).
    destruct (decide (j = i)) as [->|Hne']; [congruence|done].
  - intros d c1. cbn. intros [Hne Hcd]%lookup_delete_Some.
    destruct (inv_conns _ _ Hinv _ _ Hcd) as [(j & Hj & Hsj & Hfj)|]; [left|by right].
    exists j. rewrite He. destruct (decide (j = i)) as [->|]; [congruence|done].
  - cbn. apply Forall_app. split; [apply Hinv|by repeat constructor].
Qed.
End Shapes.

Lemma entry_put_in i (T : state) e j :
  i <= MAX_EVENTS -> length (g_events T) = MAX_EVENTS + 1 -> entry (put i e T) j = if decide (j = i) then e else entry T j.
Proof. intros. apply entry_put. lia. Qed.

Lemma put_put i e e' (T : state) : put i e (put i e' T) = put i e T.
Proof. unfold put, set_events. cbn. by rewrite list_insert_insert_eq. Qed.

Lemma eventadd_set i (T : state) d cb evs now :
  i <= MAX_EVENTS -> length (g_events T) = MAX_EVENTS + 1 -> interest (kern T) !! d = None ->
  eventadd evs i (eventset i d cb i now T) =
    register i (Myevent d evs i cb 1 (buf (entry T i)) (len (entry T i)) now) (conns (kern T)) T.
Proof.
  intros Hi Hl Hn. unfold eventadd, eventset. set (e1 := Myevent d 0 _ _ _ _ _ _).
  assert (entry (put i e1 T) i = e1) as -> by (rewrite entry_put_in by (done || lia); by rewrite decide_True).
  rewrite put_put. rewrite decide_False by done. unfold epoll_ctl. cbn [fd e1 kern put set_events interest].
  by rewrite Hn.
Qed.

(** The effect of the callbacks on an entry in use, in these shapes. *)
Section Effects.
Context (lfd : Z) (st : state) (i : nat).
Context (Hinv : inv lfd st) (Hi : i < MAX_EVENTS) (Hs : status (entry st i) = 1%Z).

Lemma close_idle_eq :
  exists c, conns (kern st) !! fd (entry st i) = Some c /\ conn_ok (entry st i) c /\
    let e := entry st i in
    eventdel i (close (fd e) st) =
      drop_conn i (Myevent (fd e) (events e) (arg e) (call_back e) 0 (buf e) (len e) (last_active e)) c st.
Proof.
  destruct (inv_slot _ _ Hinv i Hi Hs) as [Hint _ (c & Hc & Hok)]. exists c. split; [done|]. split; [done|].
  intros e. unfold eventdel. change (entry (close (fd e) st) i) with e.
  rewrite decide_False by (intros Hn; by apply Hn).
  unfold epoll_ctl. cbn [kern put set_events set_kern close interest]. rewrite lookup_delete_eq.
  unfold drop_conn, close. fold e in Hc. by rewrite Hc.
Qed.

Lemma recvdata_closes r now :
  (recv_res r = None \/ recv_res r = Some []) ->
  exists c, conns (kern st) !! fd (entry st i) = Some c /\ conn_ok (entry st i) c /\
    let e := entry st i in
    recvdata (fd e) i r now st =
      drop_conn i (Myevent (fd e) (events e) (arg e) (call_back e) 0 (buf e) (len e) (last_active e)) c st.
Proof.
  intros Hr. destruct (inv_slot _ _ Hinv i Hi Hs) as [Hint _ (c & Hc & Hok)]. exists c. split; [done|]. split; [done|].
  intros e. fold e in Hint, Hc. assert (recvdata (fd e) i r now st = close (fd (entry (eventdel i st) i)) (eventdel i st)) as ->.
  { unfold recvdata. by destruct Hr as [-> | ->]. }
  unfold eventdel. fold e. rewrite decide_False by (intros Hn; by apply Hn).
  unfold epoll_ctl. cbn [kern put set_events set_kern interest]. rewrite Hint. set (T := set_kern _ _).
  assert (fd (entry T i) = fd e) as ->.
  { unfold T. set (e' := Myevent _ _ _ _ _ _ _ _). change (fd (entry (put i e' st) i) = fd e).
    rewrite entry_put_in by (apply Hinv || lia). by rewrite decide_True. }
  unfold T, close, drop_conn, put, set_kern, set_events. cbn. by rewrite Hc, delete_delete_eq.
Qed.

Lemma eventdel_on (T : state) d :
  length (g_events T) = MAX_EVENTS + 1 -> status (entry T i) = 1%Z -> fd (entry T i) = d -> is_Some (interest (kern T) !! d) ->
  eventdel i T =
    let e := entry T i in
    put i (Myevent d (events e) (arg e) (call_back e) 0 (buf e) (len e) (last_active e))
      (set_kern (Kernel (delete d (interest (kern T))) (conns (kern T)) (closed (kern T))) T).
Proof.
  intros Hl HT <- [v Hv]. unfold eventdel. rewrite decide_False by (intros Hn; by apply Hn).
  unfold epoll_ctl. cbn [kern put set_events set_kern interest]. by rewrite Hv.
Qed.

Lemma recvdata_eq r now s :
  recv_res r = Some s -> s <> [] ->
  let e := entry st i in
  let e' := poke_buf (length s) NUL (set_len (Z.of_nat (length s)) (set_buf s e)) in
  recvdata (fd e) i r now st =
    register i (Myevent (fd e) EPOLLOUT i senddata_cb 1 (buf e') (len e') now)
      (alter (log_in s) (fd e) (conns (kern st))) st.
Proof.
  intros Hr Hne e e'. destruct (inv_slot _ _ Hinv i Hi Hs) as [Hint _ _]. fold e in Hint.
  pose proof (inv_len _ _ Hinv) as Hlen.
  unfold recvdata. rewrite Hr. destruct s as [|a s]; [done|]. set (s' := a :: s) in *. cbv zeta.
  set (T1 := log _ _ _).
  assert (length (g_events T1) = MAX_EVENTS + 1) as HT1 by (unfold T1; cbn; by rewrite length_insert).
  assert (entry T1 i = set_buf s' e) as HeT1.
  { unfold T1. change (entry (put i (set_buf s' e) st) i = set_buf s' e). rewrite entry_put_in by (done || lia). by rewrite decide_True. }
  rewrite (eventdel_on T1 (fd e)); [|done|by rewrite HeT1|by rewrite HeT1|by eexists].
  cbv zeta. rewrite HeT1. set (e2 := Myevent _ _ _ _ _ _ _ _). set (T2 := set_kern _ _).
  assert (entry (put i e2 T2) i = e2) as -> by (rewrite entry_put_in by (done || lia); by rewrite decide_True).
  rewrite put_put. set (e3 := poke_buf _ _ _).
  rewrite eventadd_set; [|lia|cbn; rewrite !length_insert; done|cbn; apply lookup_delete_eq].
  assert (entry (put i e3 T2) i = e3) as -> by (rewrite entry_put_in by (done || lia); by rewrite decide_True).
  assert (buf e3 = buf e' /\ len e3 = len e') as [-> ->].
  { unfold e3, e', poke_buf. by destruct (length s' <? BUFLEN)%nat. }
  unfold register, put, set_kern, set_events, T2, T1. cbn. by rewrite !list_insert_insert_eq, insert_delete_eq.
Qed.

Lemma senddata_eq r now n :
  send_res r = Some n -> 0 < n ->
  let e := entry st i in
  senddata (fd e) i r now st =
    register i (Myevent (fd e) EPOLLIN i recvdata_cb 1 (buf e) (len e) now)
      (alter (log_out (take n (outgoing e))) (fd e) (conns (kern st))) st.
Proof.
  intros Hr Hn e. destruct (inv_slot _ _ Hinv i Hi Hs) as [Hint _ _]. fold e in Hint.
  pose proof (inv_len _ _ Hinv) as Hlen.
  unfold senddata. rewrite Hr. destruct n as [|n]; [lia|]. cbv zeta. fold e. set (T1 := log _ _ _).
  rewrite (eventdel_on T1 (fd e)); [|done|done|done|by eexists].
  cbv zeta. change (entry T1 i) with e. set (e2 := Myevent _ _ _ _ _ _ _ _). set (T2 := set_kern _ _).
  rewrite eventadd_set; [|lia|cbn; by rewrite length_insert|cbn; apply lookup_delete_eq].
  assert (entry (put i e2 T2) i = e2) as -> by (rewrite entry_put_in by (done || lia); by rewrite decide_True).
  unfold register, put, set_kern, set_events, T2, T1. cbn. by rewrite !list_insert_insert_eq, insert_delete_eq.
Qed.

Lemma senddata_closes r now :
  (send_res r = None \/ send_res r = Some 0) ->
  exists c, conns (kern st) !! fd (entry st i) = Some c /\ conn_ok (entry st i) c /\
    let e := entry st i in
    senddata (fd e) i r now st =
      drop_conn i (Myevent (fd e) (events e) (arg e) (call_back e) 0 (buf e) (len e) (last_active e)) c st.
Proof.
  intros Hr. destruct close_idle_eq as (c & Hc & Hok & Heq). exists c. split; [done|]. split; [done|].
  intros e. etransitivity; [|exact Heq]. unfold senddata. by destruct Hr as [-> | ->].
Qed.
End Effects.

Lemma alter_insert_eq {A} (f : A -> A) d c (m : gmap Z A) : m !! d = Some c -> alter f d m = <[d := f c]> m.
Proof.
  intros Hc. apply map_eq. intros k. destruct (decide (k = d)) as [->|].
  - by rewrite lookup_alter_eq, lookup_insert_eq, Hc.
  - by rewrite lookup_alter_ne, lookup_insert_ne.
Qed.

Lemma find_free_spec n i st :
  match find_free n i st with
  | Some j => i <= j < i + n /\ status (entry st j) = 0%Z
  | None => forall j, i <= j < i + n -> status (entry st j) <> 0%Z
  end.
Proof.
  revert i. induction n as [|n IH]; intros i; cbn [find_free]; [lia|]. case_decide as Hs; [split; [lia|done]|].
  specialize (IH (i + 1)). destruct (find_free n (i + 1) st) as [j|].
  - destruct IH. split; [lia|done].
  - intros j Hj. destruct (decide (j = i)) as [->|]; [done|]. apply IH. lia.
Qed.

(** The terminating byte of a full buffer goes to the low byte of [len], which
    is zero already. *)
Lemma poke_facts s e :
  s <> [] -> length s <= BUFLEN -> length (buf e) = BUFLEN ->
  let e' := poke_buf (length s) NUL (set_len (Z.of_nat (length s)) (set_buf s e)) in
  length (buf e') = BUFLEN /\ len e' = Z.of_nat (length s) /\ take (Z.to_nat (len e')) (buf e') = s.
Proof.
  intros Hne Hs Hb e'. unfold e', poke_buf. cbn [set_len set_buf buf len].
  assert (length (s ++ drop (length s) (buf e)) = BUFLEN) as Hl by (rewrite length_app, length_drop; lia).
  destruct (Nat.ltb_spec (length s) BUFLEN) as [Hlt|Hge]; cbn [buf len].
  - rewrite length_insert, Nat2Z.id. split_and!; [done|done|].
    rewrite take_insert_ge by lia. apply take_app_length.
  - assert (length s = BUFLEN) as Heq by lia.
    assert (Z.of_nat (length s) - Z.of_nat (length s) mod 256 + uchar NUL = Z.of_nat (length s))%Z as ->
      by (rewrite Heq; reflexivity).
    rewrite Nat2Z.id. split_and!; [done|done|]. apply take_app_length.
Qed.

(** What one callback, run for the entry [p], may do. *)
Inductive change (lfd : Z) (st : state) (p : nat) : state -> Prop :=
| change_none : change lfd st p st
| change_refuse cfd :
    conns (kern st) !! cfd = None -> cfd <> lfd ->
    change lfd st p (set_kern (Kernel (interest (kern st)) (<[cfd := Conn [] []]> (conns (kern st))) (closed (kern st))) st)
| change_register i e c' :
    i < MAX_EVENTS -> (i = p \/ status (entry st i) = 0%Z) ->
    length (buf e) = BUFLEN -> status e = 1%Z -> arg e = i -> conn_ok e c' -> fd e <> lfd ->
    (status (entry st i) = 1%Z -> fd e = fd (entry st i)) ->
    (status (entry st i) = 0%Z -> conns (kern st) !! fd e = None) ->
    change lfd st p (register i e (<[fd e := c']> (conns (kern st))) st)
| change_drop e c :
    p < MAX_EVENTS -> length (buf e) = BUFLEN -> status e = 0%Z -> status (entry st p) = 1%Z ->
    fd e = fd (entry st p) -> echoed c -> conns (kern st) !! fd e = Some c ->
    change lfd st p (drop_conn p e c st).

Lemma change_inv lfd st p st' : inv lfd st -> change lfd st p st' -> inv lfd st'.
Proof.
  intros Hinv [|cfd Hc Hne|i e c' Hi _ Hb Hs Ha Hok Hl H1 H0|e c Hp Hb Hs Ho Hf Hc _]; [done| | |].
  - set (st1 := set_kern _ _). assert (forall j, entry st1 j = entry st j) as He by done.
    destruct Hinv as [H1 H2 H3 H4 (Hl1 & Hl2 & Hl3 & Hl4 & Hl5 & Hl6) H6 H7 H8 H9].
    constructor; try done.
    + split_and!; try done. cbn. by rewrite lookup_insert_ne.
    + intros i Hi Hs. destruct (H6 i Hi Hs) as [? ? (c & Hcc & ?)]. constructor; [done|done|]. exists c.
      split; [|done]. cbn. rewrite He. rewrite lookup_insert_ne by congruence. done.
    + intros d c. cbn. intros [[<- <-]|[Hd Hdc]]%lookup_insert_Some; [by right|]. by apply H8.
  - by apply register_inv.
  - by eapply drop_conn_inv.
Qed.

(** A connected descriptor that is not in the table is not registered. *)
Lemma interest_none lfd st d : inv lfd st -> conns (kern st) !! d = None -> d <> lfd -> interest (kern st) !! d = None.
Proof.
  intros Hinv Hc Hl. destruct (interest (kern st) !! d) as [[ev j]|] eqn:Hd; [|done].
  destruct (inv_interest _ _ Hinv _ _ _ Hd) as (Hj & Hs & Hf & _). destruct (inv_listen _ _ Hinv) as (Hfl & _).
  destruct (decide (j = MAX_EVENTS)) as [->|]; [congruence|].
  destruct (inv_slot _ _ Hinv j) as [_ _ (c & Hcj & _)]; [lia|done|]. congruence.
Qed.

(** The callback of one entry leaves the other entries in use alone. *)
Lemma change_other lfd st p st' j :
  inv lfd st -> change lfd st p st' -> j <> p -> j <= MAX_EVENTS -> status (entry st j) = 1%Z ->
  entry st' j = entry st j /\
  (forall d ev, interest (kern st) !! d = Some (ev, j) -> interest (kern st') !! d = Some (ev, j)) /\
  (j < MAX_EVENTS -> conns (kern st') !! fd (entry st j) = conns (kern st) !! fd (entry st j)).
Proof.
  intros Hinv Hch Hne Hj Hs.
  assert (forall e, e < MAX_EVENTS -> e <> j -> status (entry st e) = 1%Z ->
    forall d ev, interest (kern st) !! d = Some (ev, j) -> fd (entry st e) <> d) as Hfd.
  { intros e He Hej Hse d ev Hd Heq. destruct (inv_slot _ _ Hinv e He Hse) as [Hint _ _]. congruence. }
  assert (j < MAX_EVENTS -> interest (kern st) !! fd (entry st j) = Some (events (entry st j), j) /\
    is_Some (conns (kern st) !! fd (entry st j))) as Hslot.
  { intros Hlt. destruct (inv_slot _ _ Hinv j Hlt Hs) as [Hint _ (c & Hc & _)]. by split; [|eexists]. }
  destruct Hch as [|cfd Hc Hl|i e c' Hi Hip Hb Hse Ha Hok Hl H1 H0|e c Hp Hb Hse Ho Hf Hc Hcc]; [done| | |].
  - split_and!; [done|done|]. intros Hlt. destruct (Hslot Hlt) as [_ [c Hcj]]. cbn. rewrite lookup_insert_ne; congruence.
  - assert (i <> j) as Hij by (destruct Hip as [->|]; congruence).
    assert (forall d ev, interest (kern st) !! d = Some (ev, j) -> fd e <> d) as Hd.
    { intros d ev Hd. destruct (inv_status _ _ Hinv i) as [Hz|Ho].
      - intros Heq. subst d. rewrite (interest_none _ _ _ Hinv (H0 Hz) Hl) in Hd. done.
      - rewrite (H1 Ho). by eapply Hfd. }
    split_and!.
    + unfold register. rewrite entry_put by (cbn; rewrite (inv_len _ _ Hinv); lia). by rewrite decide_False.
    + intros d ev Hdj. cbn. rewrite lookup_insert_ne; [done|]. by eapply Hd.
    + intros Hlt. cbn. rewrite lookup_insert_ne; [done|]. eapply Hd, (Hslot Hlt).
  - split_and!.
    + unfold drop_conn. rewrite entry_put by (cbn; rewrite (inv_len _ _ Hinv); lia). by rewrite decide_False.
    + intros d ev Hd. cbn. rewrite lookup_delete_ne; [done|]. rewrite Hf. by eapply Hfd.
    + intros Hlt. cbn. rewrite lookup_delete_ne; [done|]. rewrite Hf. eapply Hfd, (Hslot Hlt); done.
Qed.

Lemma conn_ok_echoed e c : conn_ok e c -> echoed c.
Proof.
  unfold conn_ok, echoed. destruct (call_back e); try done.
  - intros [_ H]. exists (input c), []. rewrite app_nil_r. split_and!; [done|cbn; lia|done].
  - intros (_ & _ & _ & a & Hin & H). exists a, [outgoing e]. split_and!; [done|cbn; lia|done].
Qed.

Lemma acceptconn_change lfd st p r t :
  inv lfd st -> (forall cfd nb, accept_res r = Some (cfd, nb) -> conns (kern st) !! cfd = None /\ cfd <> lfd) ->
  change lfd st p (acceptconn r t st).
Proof.
  intros Hinv Hr. unfold acceptconn. destruct (accept_res r) as [[cfd nb]|]; [|constructor].
  destruct (Hr cfd nb eq_refl) as [Hc Hl]. set (T := set_kern _ _).
  pose proof (find_free_spec MAX_EVENTS 0 T) as Hff. destruct (find_free MAX_EVENTS 0 T) as [i|]; [|by apply change_refuse].
  destruct Hff as [Hi Hz]. destruct nb; [|by apply change_refuse].
  rewrite (eventadd_set i); [|unfold MAX_EVENTS in *; lia|apply Hinv|by apply (interest_none lfd st)].
  change (entry T i) with (entry st i) in *.
  replace (register i _ _ T) with
    (register i (Myevent cfd EPOLLIN i recvdata_cb 1 (buf (entry st i)) (len (entry st i)) t)
       (<[cfd := Conn [] []]> (conns (kern st))) st) by done.
  apply (change_register lfd st p i (Myevent cfd EPOLLIN i recvdata_cb 1 _ _ t) (Conn [] [])); try done; cbn.
  - lia.
  - by right.
  - apply Hinv.
  - split; [done|constructor].
  - congruence.
Qed.

(** With a full table the new connection is neither registered nor closed. *)
Lemma acceptconn_full lfd st r t cfd nb :
  inv lfd st -> (forall i, i < MAX_EVENTS -> status (entry st i) = 1%Z) ->
  accept_res r = Some (cfd, nb) -> conns (kern st) !! cfd = None -> cfd <> lfd ->
  conns (kern (acceptconn r t st)) !! cfd = Some (Conn [] []) /\ interest (kern (acceptconn r t st)) !! cfd = None.
Proof.
  intros Hinv Hfull Hr Hc Hl. unfold acceptconn. rewrite Hr. set (T := set_kern _ _).
  pose proof (find_free_spec MAX_EVENTS 0 T) as Hff. destruct (find_free MAX_EVENTS 0 T) as [i|].
  - destruct Hff as [Hi Hz]. specialize (Hfull i ltac:(lia)). change (entry T i) with (entry st i) in Hz. lia.
  - cbn. rewrite lookup_insert_eq. split; [done|by apply (interest_none lfd)].
Qed.

Lemma recvdata_change lfd st i r t :
  inv lfd st -> i < MAX_EVENTS -> status (entry st i) = 1%Z -> call_back (entry st i) = recvdata_cb ->
  (forall s, recv_res r = Some s -> length s <= BUFLEN) ->
  change lfd st i (recvdata (fd (entry st i)) i r t st).
Proof.
  intros Hinv Hi Hs Hcb Hr. destruct (recv_res r) as [s|] eqn:Hrs.
  2: { destruct (recvdata_closes lfd st i Hinv Hi Hs r t ltac:(by left)) as (c & Hc & Hok & ->).
       apply change_drop; try done; [apply Hinv|by eapply conn_ok_echoed]. }
  destruct (decide (s = [])) as [->|Hne].
  { destruct (recvdata_closes lfd st i Hinv Hi Hs r t ltac:(by right)) as (c & Hc & Hok & ->).
    apply change_drop; try done; [apply Hinv|by eapply conn_ok_echoed]. }
  destruct (inv_slot _ _ Hinv i Hi Hs) as [_ Harg (c & Hc & Hok)].
  rewrite (recvdata_eq lfd st i Hinv Hi Hs r t s Hrs Hne), (alter_insert_eq _ _ c) by done.
  destruct (poke_facts s (entry st i) Hne (Hr s eq_refl) (inv_buf _ _ Hinv i)) as (H1 & H2 & H3).
  set (e' := poke_buf _ _ _) in *. set (e := Myevent _ _ _ _ _ _ _ _).
  replace (fd (entry st i)) with (fd e) by done.
  apply (change_register lfd st i i e (log_in s c)); try done; cbn.
  - by left.
  - change (conn_ok e (log_in s c)). unfold conn_ok in *. rewrite Hcb in Hok. cbn [e call_back events len].
    assert (outgoing e = s) as -> by exact H3. rewrite H2. destruct Hok as [_ Hok].
    specialize (Hr s eq_refl). split_and!; [done|done|lia|lia|].
    by exists (input c).
  - destruct (inv_listen _ _ Hinv) as (_ & _ & _ & _ & _ & Hl). congruence.
  - congruence.
Qed.

Lemma senddata_change lfd st i r t :
  inv lfd st -> i < MAX_EVENTS -> status (entry st i) = 1%Z -> call_back (entry st i) = senddata_cb ->
  (forall n, send_res r = Some n -> n <= length (outgoing (entry st i))) ->
  change lfd st i (senddata (fd (entry st i)) i r t st).
Proof.
  intros Hinv Hi Hs Hcb Hr. destruct (decide (send_res r = None \/ send_res r = Some 0)) as [Hz|Hz].
  { destruct (senddata_closes lfd st i Hinv Hi Hs r t Hz) as (c & Hc & Hok & ->).
    apply change_drop; try done; [apply Hinv|by eapply conn_ok_echoed]. }
  destruct (send_res r) as [n|] eqn:Hrn; [|naive_solver]. assert (0 < n) as Hn by (destruct n; [naive_solver|lia]).
  destruct (inv_slot _ _ Hinv i Hi Hs) as [_ Harg (c & Hc & Hok)].
  rewrite (senddata_eq lfd st i Hinv Hi Hs r t n Hrn Hn), (alter_insert_eq _ _ c) by done.
  set (e := Myevent _ _ _ _ _ _ _ _). replace (fd (entry st i)) with (fd e) by done.
  apply (change_register lfd st i i e (log_out (take n (outgoing (entry st i))) c)); try done; cbn.
  - by left.
  - apply Hinv.
  - unfold conn_ok in *. rewrite Hcb in Hok. cbn [e call_back events]. destruct Hok as (_ & Hne & _ & a & Hin & Ha).
    split; [done|]. cbn [log_out input output]. rewrite Hin. apply Forall2_app; [done|]. constructor; [|done].
    split; [apply prefix_take|]. destruct (outgoing (entry st i)); [done|]. by destruct n; [lia|].
  - destruct (inv_listen _ _ Hinv) as (_ & _ & _ & _ & _ & Hl). congruence.
  - congruence.
Qed.

(** A reported event runs at most one callback, that of the entry it was
    registered for. *)
Lemma dispatch_change lfd st r :
  inv lfd st -> reported st r -> answers_ok lfd st r -> change lfd st (ptr r) (dispatch st r).
Proof.
  intros Hinv (d & ev & Hd & Hm) (Ha & Hr & Hs). destruct (inv_interest _ _ Hinv _ _ _ Hd) as (Hp & Hst & Hf & Hev).
  set (p := ptr r) in *. set (e := entry st p) in *.
  assert (forall evb, evb = EPOLLIN \/ evb = EPOLLOUT -> events e = evb ->
    dispatch st r = if has (mask r) evb then call (call_back e) (fd e) (arg e) (answers r) (at_time r) st else st) as Hdisp.
  { intros evb Hor Heq. unfold dispatch. fold p. fold e. destruct Hor as [-> | ->].
    - assert (has (mask r) EPOLLOUT = false) as ->.
      { destruct (has (mask r) EPOLLOUT) eqn:Hh; [|done]. specialize (Hm EPOLLOUT (or_intror eq_refl) Hh).
        by rewrite <- Hev, Heq in Hm. }
      rewrite Heq. cbn [andb]. by rewrite andb_true_r.
    - rewrite Heq. rewrite andb_false_r. fold e. rewrite Heq. by rewrite andb_true_r. }
  destruct (decide (p = MAX_EVENTS)) as [Hpm|Hpm].
  - destruct (inv_listen _ _ Hinv) as (H1 & H2 & H3 & _). unfold e in *. rewrite Hpm in *. rewrite (Hdisp EPOLLIN), H3 by auto.
    case_match; [|constructor]. by apply acceptconn_change.
  - assert (p < MAX_EVENTS) as Hp' by lia. destruct (inv_slot _ _ Hinv p Hp' Hst) as [_ Harg (c & Hc & Hok)].
    unfold e in *. rewrite Harg in Hdisp. unfold conn_ok in Hok. destruct (call_back (entry st p)) eqn:Hcb; try done.
    + rewrite (Hdisp EPOLLIN) by naive_solver. case_match; [|constructor]. by apply recvdata_change.
    + rewrite (Hdisp EPOLLOUT) by naive_solver. case_match; [|constructor]. by apply senddata_change.
Qed.

(** *** The scan for idle connections *)

Lemma inv_checkpos lfd st pos : inv lfd st -> pos <= MAX_EVENTS -> inv lfd (State (g_events st) pos (kern st)).
Proof.
  intros Hinv Hp. destruct Hinv as [H1 H2 H3 H4 H5 H6 H7 H8 H9]. constructor; try done.
  intros i Hi Hs. destruct (H6 i Hi Hs). by constructor.
Qed.

Definition visited (st : state) : nat := if decide (checkpos st = MAX_EVENTS) then 0 else checkpos st.

(** An entry that is scanned while idle. *)
Definition idle (t : Z) (e : myevent_s) : Prop := status e = 1%Z /\ (60 <= t - last_active e)%Z.
#[export] Instance idle_dec t e : Decision (idle t e).
Proof. unfold idle. apply _. Defined.

Lemma visited_lt lfd st : inv lfd st -> visited st < MAX_EVENTS.
Proof. intros Hinv. pose proof (inv_pos _ _ Hinv). unfold visited. case_decide; unfold MAX_EVENTS in *; lia. Qed.

Lemma check_one_eq lfd st t :
  inv lfd st ->
  let pos := visited st in
  let st0 := State (g_events st) (pos + 1) (kern st) in
  inv lfd st0 /\
  if decide (idle t (entry st pos)) then
    exists c, conns (kern st) !! fd (entry st pos) = Some c /\ conn_ok (entry st pos) c /\
      let e := entry st pos in
      check_one t st = drop_conn pos (Myevent (fd e) (events e) (arg e) (call_back e) 0 (buf e) (len e) (last_active e)) c st0
  else check_one t st = st0.
Proof.
  intros Hinv pos st0. pose proof (visited_lt _ _ Hinv) as Hlt.
  assert (inv lfd st0) as Hinv0 by (apply inv_checkpos; [done|fold pos in Hlt; lia]).
  split; [done|]. unfold check_one. fold (visited st). fold pos. fold st0. unfold idle.
  destruct (decide (status (entry st pos) = 1%Z)) as [Hs|Hs].
  2: { rewrite decide_False by naive_solver. by rewrite decide_True. }
  destruct (Z.leb_spec 60 (t - last_active (entry st pos))) as [Hi|Hi].
  - rewrite decide_True by done. rewrite decide_False by naive_solver.
    destruct (close_idle_eq lfd st0 pos Hinv0 Hlt Hs) as (c & Hc & Hok & Heq). by exists c.
  - rewrite decide_False by lia. by rewrite decide_False by naive_solver.
Qed.

Lemma check_one_change lfd st t :
  inv lfd st -> change lfd (State (g_events st) (visited st + 1) (kern st)) (visited st) (check_one t st).
Proof.
  intros Hinv. pose proof (check_one_eq lfd st t Hinv) as [Hinv0 H]. cbv zeta in H. case_decide as Hid.
  - destruct H as (c & Hc & Hok & ->). destruct Hid as [Hs _].
    apply change_drop; [by eapply visited_lt|apply Hinv|done|done|done|by eapply conn_ok_echoed|done].
  - rewrite H. constructor.
Qed.

Lemma check_one_inv lfd st t : inv lfd st -> inv lfd (check_one t st).
Proof. intros Hinv. eapply change_inv; [by apply (check_one_eq lfd st t)|by apply check_one_change]. Qed.

Lemma check_idle_inv lfd st t n : inv lfd st -> inv lfd (check_idle n t st).
Proof. revert st. induction n as [|n IH]; intros st Hinv; [done|]. cbn. by apply IH, check_one_inv. Qed.

(** *** Rounds *)

Lemma change_closed lfd st p st' c : change lfd st p st' -> c ∈ closed (kern st) -> c ∈ closed (kern st').
Proof. intros [] Hc; cbn; [done..|]. apply elem_of_app. by left. Qed.

Lemma change_checkpos lfd st p st' : change lfd st p st' -> checkpos st' = checkpos st.
Proof. by intros []. Qed.

(** The rest of a batch is still valid after its first event, which runs on the
    connection it was reported for. *)
Lemma batch_step lfd st r rs :
  inv lfd st -> NoDup (ptr <$> r :: rs) -> Forall (reported st) (r :: rs) -> answered lfd st (r :: rs) ->
  change lfd st (ptr r) (dispatch st r) /\ inv lfd (dispatch st r) /\
  NoDup (ptr <$> rs) /\ Forall (reported (dispatch st r)) rs /\ answered lfd (dispatch st r) rs.
Proof.
  intros Hinv [Hnin Hnd]%NoDup_cons [Hr Hrs]%Forall_cons [Ha Hans].
  pose proof (dispatch_change lfd st r Hinv Hr Ha) as Hch. split; [done|].
  split; [by eapply change_inv|]. split; [done|]. split; [|done].
  rewrite Forall_forall in Hrs |- *. intros r' Hr'. destruct (Hrs r' Hr') as (d & ev & Hd & Hm).
  exists d, ev. split; [|done]. destruct (inv_interest _ _ Hinv _ _ _ Hd) as (Hp & Hs & _).
  destruct (change_other lfd st (ptr r) (dispatch st r) (ptr r') Hinv Hch) as (_ & Hint & _); [|done|done|by apply Hint].
  intros Heq. apply Hnin. rewrite <- Heq. by apply list_elem_of_fmap_2.
Qed.

Lemma batch_inv lfd st rs :
  inv lfd st -> NoDup (ptr <$> rs) -> Forall (reported st) rs -> answered lfd st rs -> inv lfd (foldl dispatch st rs).
Proof.
  revert st. induction rs as [|r rs IH]; intros st Hinv Hnd Hrs Ha; [done|].
  destruct (batch_step lfd st r rs Hinv Hnd Hrs Ha) as (_ & ? & ? & ? & ?). by apply IH.
Qed.

Lemma round_inv lfd st r : inv lfd st -> round_ok lfd st r -> inv lfd (run_round st r).
Proof. intros Hinv (? & ? & ?). apply batch_inv; try done. by apply check_idle_inv. Qed.

Lemma rounds_inv lfd st rs : inv lfd st -> rounds_ok lfd st rs -> inv lfd (run st rs).
Proof.
  revert st. induction rs as [|r rs IH]; intros st Hinv; [done|]. intros [Hr Hrs].
  apply IH; [by apply round_inv|done].
Qed.

Lemma rounds_ok_app lfd st rs1 rs2 :
  rounds_ok lfd st (rs1 ++ rs2) <-> rounds_ok lfd st rs1 /\ rounds_ok lfd (run st rs1) rs2.
Proof. revert st. induction rs1 as [|r rs1 IH]; intros st; cbn; [tauto|]. rewrite IH. tauto. Qed.

Lemma entry_replicate i : entry (State (replicate (MAX_EVENTS + 1) zero_event) 0 (Kernel ∅ ∅ [])) i = zero_event.
Proof.
  unfold entry. cbn [g_events]. destruct (replicate _ _ !! i) as [e|] eqn:He; [|done].
  by apply lookup_replicate in He as [-> _].
Qed.

Lemma reactor_start_inv lfd t : inv lfd (start lfd t).
Proof.
  unfold start, initlistensocket. rewrite eventadd_set; [|done|apply length_replicate|done].
  rewrite entry_replicate. set (st0 := State _ _ _). set (e := Myevent _ _ _ _ _ _ _ _).
  set (st := register _ _ _ _).
  assert (length (g_events st0) = MAX_EVENTS + 1) as Hl by apply length_replicate.
  assert (forall j, entry st j = if decide (j = MAX_EVENTS) then e else zero_event) as He.
  { intros j. unfold st, register. rewrite entry_put by (change (MAX_EVENTS < length (g_events st0)); rewrite Hl; unfold MAX_EVENTS; lia).
    case_decide; [done|]. apply entry_replicate. }
  assert (length (buf zero_event) = BUFLEN) as Hz by apply length_replicate.
  constructor.
  - change (length (<[MAX_EVENTS := e]> (g_events st0)) = MAX_EVENTS + 1). by rewrite length_insert.
  - cbn. lia.
  - intros j. rewrite He. case_decide; [exact Hz|done].
  - intros j. rewrite He. case_decide; [by right|by left].
  - rewrite He, decide_True by done. split_and!; try done. cbn. by rewrite lookup_insert_eq.
  - intros i Hi. rewrite He, decide_False by lia. done.
  - intros d ev i. cbn [st register put set_events kern set_kern interest].
    intros [[<- [= <- <-]]|[_ Hn]]%lookup_insert_Some; [|cbn in Hn; by apply lookup_empty_Some in Hn].
    rewrite He, decide_True by done. split_and!; done.
  - intros d c Hc. cbn in Hc. by apply lookup_empty_Some in Hc.
  - constructor.
Qed.

(** *** Idle connections *)

(** How many entries are scanned before entry [i]. *)
Definition distance (st : state) (i : nat) : nat :=
  if decide (visited st <= i) then i - visited st else i + MAX_EVENTS - visited st.

(** The connection of entry [i] is still there, unchanged. *)
Definition untouched (i : nat) (e : myevent_s) (c : conn) (st : state) : Prop :=
  entry st i = e /\ conns (kern st) !! fd e = Some c.

Lemma check_one_idle lfd st t i e c :
  inv lfd st -> i < MAX_EVENTS -> untouched i e c st -> idle t e ->
  c ∈ closed (kern (check_one t st)) \/
  untouched i e c (check_one t st) /\ distance st i = distance (check_one t st) i + 1.
Proof.
  intros Hinv Hi [He Hc] Hid. pose proof (visited_lt _ _ Hinv) as Hv.
  pose proof (check_one_eq lfd st t Hinv) as [Hinv0 H]. cbv zeta in H.
  destruct (decide (i = visited st)) as [Heq|Hne].
  - left. rewrite <- Heq, He, decide_True in H by done. destruct H as (c' & Hc' & _ & ->).
    assert (c' = c) as -> by congruence. cbn. apply elem_of_app. right. by apply list_elem_of_singleton.
  - right. pose proof (check_one_change lfd st t Hinv) as Hch. destruct Hid as [Hs _].
    destruct (change_other lfd _ _ _ i Hinv0 Hch Hne) as (He' & _ & Hc'); [lia|by change (status (entry st i) = 1%Z); rewrite He|].
    change (entry (State _ _ _) i) with (entry st i) in He', Hc'. rewrite He in He', Hc'.
    split; [split; [done|by rewrite Hc']|].
    assert (checkpos (check_one t st) = visited st + 1) as Hcp by by rewrite (change_checkpos _ _ _ _ Hch).
    assert (visited (check_one t st) = if decide (visited st + 1 = MAX_EVENTS) then 0 else visited st + 1) as Hv'
      by (unfold visited at 1; by rewrite Hcp).
    unfold distance. rewrite Hv'.
    destruct (decide (visited st + 1 = MAX_EVENTS)) as [Hw|Hw]; repeat case_decide; unfold MAX_EVENTS in *; lia.
Qed.

Lemma check_one_closed lfd st t c : inv lfd st -> c ∈ closed (kern st) -> c ∈ closed (kern (check_one t st)).
Proof. intros Hinv Hc. eapply change_closed; [by apply (check_one_change lfd)|done]. Qed.

Lemma check_idle_closed lfd n t st c : inv lfd st -> c ∈ closed (kern st) -> c ∈ closed (kern (check_idle n t st)).
Proof.
  revert st. induction n as [|n IH]; intros st Hinv Hc; [done|]. cbn.
  apply IH; [by apply check_one_inv|by eapply check_one_closed].
Qed.

Lemma check_idle_idle lfd n st t i e c :
  inv lfd st -> i < MAX_EVENTS -> untouched i e c st -> idle t e ->
  c ∈ closed (kern (check_idle n t st)) \/
  untouched i e c (check_idle n t st) /\ distance st i = distance (check_idle n t st) i + n.
Proof.
  revert st. induction n as [|n IH]; intros st Hinv Hi Hu Hid; cbn [check_idle]; [right; split; [done|lia]|].
  destruct (check_one_idle lfd st t i e c Hinv Hi Hu Hid) as [Hc|[Hu' Hd]].
  - left. apply (check_idle_closed lfd); [by apply check_one_inv|done].
  - destruct (IH (check_one t st)) as [Hc|[Hu'' Hd']]; [by apply check_one_inv|done|done|done|by left|].
    right. split; [done|lia].
Qed.

Lemma batch_untouched lfd st rs i e c :
  inv lfd st -> NoDup (ptr <$> rs) -> Forall (reported st) rs -> answered lfd st rs ->
  i < MAX_EVENTS -> status e = 1%Z -> i ∉ ptr <$> rs ->
  untouched i e c st -> untouched i e c (foldl dispatch st rs) /\ distance (foldl dispatch st rs) i = distance st i.
Proof.
  intros Hinv Hnd Hrs Ha Hi Hs Hnin. revert st Hinv Hnd Hrs Ha. induction rs as [|r rs IH]; intros st Hinv Hnd Hrs Ha Hu; [done|].
  destruct (batch_step lfd st r rs Hinv Hnd Hrs Ha) as (Hch & Hinv' & Hnd' & Hrs' & Ha').
  rewrite fmap_cons, not_elem_of_cons in Hnin. destruct Hnin as [Hne Hnin]. destruct Hu as [He Hc].
  destruct (change_other lfd _ _ _ i Hinv Hch Hne) as (He' & _ & Hc'); [lia|by rewrite He|].
  rewrite He in He', Hc'. cbn [foldl].
  destruct (IH Hnin (dispatch st r)) as [Hu' Hd]; [done..|split; [done|by rewrite Hc']|].
  split; [done|]. rewrite Hd. unfold distance, visited. by rewrite (change_checkpos _ _ _ _ Hch).
Qed.

Lemma batch_closed lfd st rs c :
  inv lfd st -> NoDup (ptr <$> rs) -> Forall (reported st) rs -> answered lfd st rs ->
  c ∈ closed (kern st) -> c ∈ closed (kern (foldl dispatch st rs)).
Proof.
  revert st. induction rs as [|r rs IH]; intros st Hinv Hnd Hrs Ha Hc; [done|].
  destruct (batch_step lfd st r rs Hinv Hnd Hrs Ha) as (Hch & ? & ? & ? & ?). apply IH; try done. by eapply change_closed.
Qed.

Lemma run_closed lfd st rs c : inv lfd st -> rounds_ok lfd st rs -> c ∈ closed (kern st) -> c ∈ closed (kern (run st rs)).
Proof.
  revert st. induction rs as [|r rs IH]; intros st Hinv; [done|]. intros [Hr Hrs] Hc.
  cbn [run foldl]. apply IH; [by apply round_inv|done|]. destruct Hr as (? & ? & ?).
  apply (batch_closed lfd); try done; [by apply check_idle_inv|]. by apply (check_idle_closed lfd).
Qed.

Lemma run_idle lfd st rs i e c :
  inv lfd st -> rounds_ok lfd st rs -> i < MAX_EVENTS -> untouched i e c st ->
  Forall (fun r => idle (now r) e /\ i ∉ ptr <$> batch r) rs ->
  c ∈ closed (kern (run st rs)) \/ 100 * length rs <= distance st i.
Proof.
  revert st. induction rs as [|r rs IH]; intros st Hinv; [right; cbn; lia|].
  intros [Hr Hrs] Hi Hu [[Hid Hnin] Hall]%Forall_cons. pose proof (round_inv lfd st r Hinv Hr) as Hinv'.
  destruct Hr as (Hnd & Hrep & Ha). pose proof (check_idle_inv lfd st (now r) 100 Hinv) as Hinv1.
  destruct (check_idle_idle lfd 100 st (now r) i e c Hinv Hi Hu Hid) as [Hc|[Hu1 Hd1]].
  - left. cbn [run foldl]. apply (run_closed lfd); [done|done|]. by apply (batch_closed lfd).
  - destruct (batch_untouched lfd _ (batch r) i e c Hinv1 Hnd Hrep Ha Hi (proj1 Hid) Hnin Hu1) as [Hu2 Hd2].
    destruct (IH (run_round st r) Hinv' Hrs Hi Hu2 Hall) as [Hc|Hle]; [by left|right].
    unfold run_round in Hle. rewrite Hd2 in Hle. cbn [length]. lia.
Qed.

Lemma echoes_length os ins : echoes os ins -> length (concat os) <= length (concat ins).
Proof.
  induction 1 as [|o i os ins [Hp _] _ IH]; [done|]. cbn. rewrite !length_app.
  apply prefix_length in Hp. lia.
Qed.

Lemma echoes_full os ins : echoes os ins -> length (concat os) = length (concat ins) -> os = ins.
Proof.
  induction 1 as [|o i os ins [[k ->] _] H IH]; [done|]. cbn. rewrite !length_app.
  pose proof (echoes_length _ _ H). intros Hl. assert (k = []) as -> by (apply length_zero_iff_nil; lia).
  rewrite app_nil_r. f_equal. apply IH. cbn in Hl. lia.
Qed.

(** ** Properties *)

(** C7: the server echoes. In every run, whatever connections arrive, send,
    stall and end, the table, the interest list and the callbacks agree, so that
    an event runs on the connection it was reported for; and each connection,
    open or closed, has been sent a prefix of every chunk received from it, in
    order and without omission, up to a last chunk still to be answered. Where
    every [send] took all it was given, the bytes sent are the bytes received. *)
Theorem reactor_echo lfd t rs :
  rounds_ok lfd (start lfd t) rs ->
  let st := run (start lfd t) rs in
  inv lfd st /\
  forall c, c ∈ closed (kern st) \/ (exists d, conns (kern st) !! d = Some c) ->
    exists answered pending, input c = answered ++ pending /\ length pending <= 1 /\
      echoes (output c) answered /\
      (length (concat (output c)) = length (concat answered) -> output c = answered).
Proof.
  intros Hrs st. assert (inv lfd st) as Hinv by (apply rounds_inv; [apply reactor_start_inv|done]). split; [done|].
  intros c Hc. assert (echoed c) as (a & pd & Hin & Hl & He).
  { destruct Hc as [Hc|[d Hc]].
    - pose proof (inv_closed _ _ Hinv) as Hcl. rewrite Forall_forall in Hcl. by apply Hcl.
    - destruct (inv_conns _ _ Hinv _ _ Hc) as [(i & Hi & Hs & Hf)| ->].
      + destruct (inv_slot _ _ Hinv i Hi Hs) as [_ _ (c' & Hc' & Hok)].
        assert (c' = c) as -> by congruence. by eapply conn_ok_echoed.
      + exists [], []. split_and!; [done|cbn; lia|constructor]. }
  exists a, pd. split_and!; try done. by apply echoes_full.
Qed.

(** a connection that has been idle for a minute is closed within eleven
    rounds of the loop, whatever the other connections do meanwhile. *)
Theorem reactor_idle lfd t before rs i c :
  let st := run (start lfd t) before in
  let e := entry st i in
  rounds_ok lfd (start lfd t) (before ++ rs) -> length rs = 11 ->
  i < MAX_EVENTS -> status e = 1%Z -> conns (kern st) !! fd e = Some c ->
  Forall (fun r => (60 <= now r - last_active e)%Z /\ i ∉ ptr <$> batch r) rs ->
  c ∈ closed (kern (run st rs)).
Proof.
  intros st e [Hb Hrs]%rounds_ok_app Hlen Hi Hs Hc Hall.
  assert (inv lfd st) as Hinv by (apply rounds_inv; [apply reactor_start_inv|done]).
  destruct (run_idle lfd st rs i e c Hinv Hrs Hi) as [H|H]; [by split| |done|].
  - eapply Forall_impl; [exact Hall|]. by intros r [? ?].
  - exfalso. rewrite Hlen in H. pose proof (visited_lt _ _ Hinv). unfold distance in H.
    revert H. case_decide; unfold MAX_EVENTS in *; lia.
Qed.

(** *** Witnesses: a client that sends five bytes and gets three of them *)

Definition listen_ready (cfd at_ : Z) : ready := Ready MAX_EVENTS EPOLLIN (Results (Some (cfd, true)) None None) at_.
Definition demo : list round :=
  [Round 0 [listen_ready 5 0];
   Round 1 [Ready 0 EPOLLIN (Results None (Some (lit "hello")) None) 1];
   Round 2 [Ready 0 EPOLLOUT (Results None None (Some 3)) 2]].

Ltac decide_run :=
  repeat match goal with
  | |- _ /\ _ => split
  | |- rounds_ok _ _ [] => exact I
  | |- rounds_ok _ _ (_ :: _) => cbn [rounds_ok]
  | |- round_ok _ _ _ => unfold round_ok; cbn [batch now answered]
  | |- NoDup _ => apply (bool_decide_unpack _); vm_compute; exact I
  | |- True => exact I
  | |- Forall _ [] => constructor
  | |- Forall _ (_ :: _) => constructor
  | |- answers_ok _ _ _ => unfold answers_ok; cbn [listen_ready answers accept_res recv_res send_res ptr]
  | |- forall _, _ => intro
  | H : Some _ = Some _ |- _ => simplify_eq
  | H : None = Some _ |- _ => discriminate H
  | |- _ = _ => vm_compute; reflexivity
  | |- _ <> _ => vm_compute; discriminate
  | |- _ <= _ => apply (bool_decide_unpack _); vm_compute; exact I
  end.

Ltac decide_reported d ev :=
  exists d, ev; split; [vm_compute; reflexivity|]; intros bit [-> | ->]; vm_compute; done.

Lemma demo_ok : rounds_ok 3 (start 3 0) demo.
Proof.
  unfold demo. decide_run; [decide_reported 3%Z EPOLLIN|decide_reported 5%Z EPOLLIN|decide_reported 5%Z EPOLLOUT].
Qed.

Lemma reactor_echo_witness :
  let st := run (start 3 0) demo in
  conns (kern st) !! 5%Z = Some (Conn [lit "hello"] [lit "hel"]) /\
  exists answered pending, [lit "hello"] = answered ++ pending /\ length pending <= 1 /\
    echoes [lit "hel"] answered /\ (length (concat [lit "hel"]) = length (concat answered) -> [lit "hel"] = answered).
Proof.
  intros st. assert (conns (kern st) !! 5%Z = Some (Conn [lit "hello"] [lit "hel"])) as Hc by (vm_compute; reflexivity).
  split; [exact Hc|]. apply (proj2 (reactor_echo 3 0 demo demo_ok) (Conn [lit "hello"] [lit "hel"])).
  right. exists 5%Z. exact Hc.
Defined.

(** The same client, silent for a minute. *)
Definition quiet : list round := replicate 11 (Round 62 []).

Lemma quiet_ok : rounds_ok 3 (start 3 0) (demo ++ quiet).
Proof.
  apply rounds_ok_app. split; [exact demo_ok|]. generalize (run (start 3 0) demo) as st. unfold quiet.
  generalize 11 as n. induction n as [|n IH]; intros st; [exact I|]. cbn [replicate rounds_ok].
  split; [|apply IH]. unfold round_ok. cbn. split_and!; [apply NoDup_nil_2|constructor|exact I].
Qed.

Lemma reactor_idle_witness :
  Conn [lit "hello"] [lit "hel"] ∈ closed (kern (run (run (start 3 0) demo) quiet)).
Proof.
  apply (reactor_idle 3 0 demo quiet 0 _ quiet_ok).
  - reflexivity.
  - apply (bool_decide_unpack _). vm_compute. exact I.
  - vm_compute. reflexivity.
  - vm_compute. reflexivity.
  - apply Forall_forall. intros r Hr. apply elem_of_replicate in Hr as [-> _]. cbn. split; [|apply not_elem_of_nil].
    apply (bool_decide_unpack _). vm_compute. exact I.
Defined.
