(* ===== verification/EchoServer.v ===== *)
(** * EchoServer: the Boost.Asio echo servers and their handler memory

    Models [boost/1.*.cpp], an echo server whose handlers are allocated in one
    reusable block per session ([handler_memory], [handler_allocator]), and
    [boost/async_tcp_echo_server.cpp], the same server with the default
    allocation. What a session needs of an allocator is the class
    [Allocator]; the two are its instances, and the sessions are proved against
    the class.

    Boost.Asio is what it documents: an operation allocates one block through
    the allocator of its handler and gives it back before the handler runs;
    [async_write] is a sequence of such operations, of one byte or more each,
    until all is written or an error occurs. The sizes of its operation objects
    are a parameter. *)
From S2P Require Import Prelude.

(** ** Allocation *)

(** A block is the storage of a [handler_memory] or comes from the heap. *)
Inductive pointer := storage | heap_block (n : nat).
#[export] Instance pointer_eq_dec : EqDecision pointer.
Proof. solve_decision. Defined.

(** What a session needs: a block that nobody uses, and its return. *)
Class Allocator (M : Type) := {
  fresh_memory : M;
  allocate : Z -> M -> pointer * M;
  deallocate : pointer -> M -> option M;       (* [None]: not a block in use *)
  blocks : M -> list pointer;                  (* the blocks in use *)
  blocks_fresh : blocks fresh_memory = [];
  allocate_spec size m : (allocate size m).1 ∉ blocks m /\ blocks (allocate size m).2 ≡ₚ (allocate size m).1 :: blocks m;
  deallocate_spec p m : p ∈ blocks m -> exists m', deallocate p m = Some m' /\ blocks m ≡ₚ p :: blocks m' }.

(** [::operator new] and [::operator delete]. *)
Abbreviation heap := (gset nat).
Definition operator_new (h : heap) : nat * heap := let n := fresh h in (n, {[n]} ∪ h).
Definition operator_delete (n : nat) (h : heap) : option heap := if decide (n ∈ h) then Some (h ∖ {[n]}) else None.

Record handler_memory := HandlerMemory { in_use_ : bool; global_heap : heap }.

Definition sizeof_storage : Z := 1024.

Definition handler_allocate (size : Z) (m : handler_memory) : pointer * handler_memory :=
  if negb (in_use_ m) && (size <? sizeof_storage)%Z then (storage, HandlerMemory true (global_heap m))
  else let '(n, h) := operator_new (global_heap m) in (heap_block n, HandlerMemory (in_use_ m) h).

Definition handler_deallocate (p : pointer) (m : handler_memory) : option handler_memory :=
  match p with
  | storage => Some (HandlerMemory false (global_heap m))
  | heap_block n => h ← operator_delete n (global_heap m); Some (HandlerMemory (in_use_ m) h)
  end.

(** [handler_allocator<T>::allocate]: the product is a [size_t]. *)
Definition handler_allocator_allocate (sizeof_T n : Z) (m : handler_memory) : pointer * handler_memory :=
  handler_allocate (size_t (sizeof_T * n)) m.
Definition handler_allocator_deallocate (p : pointer) (m : handler_memory) : option handler_memory := handler_deallocate p m.

Definition handler_blocks (m : handler_memory) : list pointer :=
  (if in_use_ m then [storage] else []) ++ (heap_block <$> elements (global_heap m)).

(** The default allocation. *)
Definition default_allocate (size : Z) (h : heap) : pointer * heap := let '(n, h) := operator_new h in (heap_block n, h).
Definition default_deallocate (p : pointer) (h : heap) : option heap :=
  match p with storage => None | heap_block n => operator_delete n h end.

(** ** Lemmas on allocation *)

Lemma operator_new_spec h :
  let '(n, h') := operator_new h in
  n ∉ h /\ heap_block <$> elements h' ≡ₚ heap_block n :: (heap_block <$> elements h).
Proof.
  unfold operator_new. pose proof (is_fresh h) as Hf. split; [done|].
  rewrite elements_union_singleton by done. done.
Qed.

Lemma heap_block_elem n (h : heap) : heap_block n ∈ heap_block <$> elements h <-> n ∈ h.
Proof.
  rewrite list_elem_of_fmap. split.
  - intros (m & [= ->] & Hm). by apply elem_of_elements.
  - intros Hn. exists n. split; [done|]. by apply elem_of_elements.
Qed.

Lemma storage_elem (h : heap) : storage ∉ heap_block <$> elements h.
Proof. intros H. apply list_elem_of_fmap in H as (n & ? & _). done. Qed.

Lemma operator_delete_spec n h :
  n ∈ h -> exists h', operator_delete n h = Some h' /\
    heap_block <$> elements h ≡ₚ heap_block n :: (heap_block <$> elements h').
Proof.
  intros Hn. unfold operator_delete. rewrite decide_True by done. eexists. split; [done|].
  change (heap_block n :: (heap_block <$> elements (h ∖ {[n]}))) with (heap_block <$> n :: elements (h ∖ {[n]})).
  apply fmap_Permutation. rewrite <- elements_union_singleton by set_solver.
  assert ({[n]} ∪ h ∖ {[n]} = h) as -> by (apply set_eq; intros x; destruct (decide (x = n)); set_solver). done.
Qed.

(** The storage is handed out to one user at a time, and every block comes back. *)
#[export] Program Instance handler_memory_allocator : Allocator handler_memory := {
  fresh_memory := HandlerMemory false ∅;
  allocate := handler_allocate;
  deallocate := handler_deallocate;
  blocks := handler_blocks }.
Next Obligation. done. Qed.
Next Obligation.
  intros size [u h]. unfold handler_allocate, handler_blocks. cbn [in_use_ global_heap].
  destruct (negb u && _) eqn:Hu; cbn [fst snd in_use_ global_heap].
  - destruct u; [done|]. cbn [app]. split; [apply storage_elem|done].
  - pose proof (operator_new_spec h) as Hn. destruct (operator_new h) as [n h']. destruct Hn as [Hn Hp].
    cbn [fst snd in_use_ global_heap]. split.
    + rewrite elem_of_app, heap_block_elem. intros [H|H]; [|done]. by destruct u; set_solver.
    + rewrite Hp. by rewrite <- Permutation_middle.
Qed.
Next Obligation.
  intros p [u h] Hp. unfold handler_blocks, handler_deallocate in *. cbn [in_use_ global_heap] in *. destruct p as [|n].
  - eexists. split; [done|]. cbn. destruct u; [done|]. exfalso. by apply (storage_elem h).
  - apply elem_of_app in Hp as [Hp|Hp]; [by destruct u; set_solver|]. apply heap_block_elem in Hp.
    destruct (operator_delete_spec n h Hp) as (h' & -> & Heq). eexists. split; [done|]. cbn [in_use_ global_heap].
    rewrite Heq. by rewrite <- Permutation_middle.
Qed.

#[export] Program Instance default_allocator : Allocator heap := {
  fresh_memory := ∅;
  allocate := default_allocate;
  deallocate := default_deallocate;
  blocks h := heap_block <$> elements h }.
Next Obligation. done. Qed.
Next Obligation.
  intros size h. unfold default_allocate. pose proof (operator_new_spec h) as Hn. destruct (operator_new h) as [n h'].
  destruct Hn as [Hn Hp]. cbn [fst snd]. split; [|done]. by rewrite heap_block_elem.
Qed.
Next Obligation.
  intros p h Hp. destruct p as [|n]; [by apply storage_elem in Hp|]. apply heap_block_elem in Hp.
  by apply operator_delete_spec.
Qed.

(** ** Sessions *)

Definition max_length : nat := 1024.

(** The operation a session waits for, with the block its handler is in. The
    bytes still to be written are those of [data_] from [off] to [length]. *)
Inductive phase := reading (p : pointer) | writing (p : pointer) (off length : nat) | ended.

Section Session.
Context {M : Type} `{Allocator M}.
(** The sizes of the operation objects of Asio, with the handler in them. *)
Context (read_op_size write_op_size : Z).

Record session := Session {
  at_ : phase;
  data_ : str;
  mem : M;
  received : list str;       (* ghost: what [async_read_some] delivered, *)
  sent : str }.              (* and what [async_write] took *)

Definition new_session : session := Session ended (replicate max_length NUL) fresh_memory [] [].

Definition do_read (s : session) : session :=
  let '(p, m) := allocate read_op_size (mem s) in
  Session (reading p) (data_ s) m (received s) (sent s).

(** [async_write] of [data_\[off, length)]: nothing is left to do when it is
    empty, and the handler, [do_read], runs. *)
Definition write_some (off length : nat) (s : session) : session :=
  let '(p, m) := allocate write_op_size (mem s) in
  Session (writing p off length) (data_ s) m (received s) (sent s).
Definition do_write (length : nat) (s : session) : session := write_some 0 length s.

Definition start : session := do_read new_session.

(** Completions: a read delivers bytes or fails, a write takes some or fails. *)
Inductive completion := read_done (result : option str) | wrote (result : option nat).

Definition with_mem (s : session) (m : M) : session := Session (at_ s) (data_ s) m (received s) (sent s).
Definition finish (s : session) : session := Session ended (data_ s) (mem s) (received s) (sent s).

(** [None]: the block of the handler is not one in use, or the completion is
    not of the operation that is outstanding. *)
Definition complete (s : session) (c : completion) : option session :=
  match at_ s, c with
  | reading p, read_done r =>
      m ← deallocate p (mem s);
      let s := with_mem s m in
      Some match r with
           | Some bytes =>
               do_write (length bytes)
                 (Session (at_ s) (bytes ++ drop (length bytes) (data_ s)) (mem s) (received s ++ [bytes]) (sent s))
           | None => finish s
           end
  | writing p off len, wrote r =>
      m ← deallocate p (mem s);
      let s := with_mem s m in
      Some match r with
           | Some n =>
               let s := Session (at_ s) (data_ s) (mem s) (received s) (sent s ++ take n (drop off (take len (data_ s)))) in
               if decide (len <= off + n) then do_read s else write_some (off + n) len s
           | None => finish s
           end
  | _, _ => None
  end.

Fixpoint completes (s : session) (cs : list completion) : option session :=
  match cs with [] => Some s | c :: cs' => s' ← complete s c; completes s' cs' end.

(** Completions of the outstanding operation: a read delivers at most the
    buffer, a write takes at most what is left. *)
Definition fits (s : session) (c : completion) : Prop :=
  match at_ s, c with
  | reading _, read_done (Some bytes) => bytes <> [] /\ length bytes <= max_length
  | writing _ off len, wrote (Some n) => 0 < n <= len - off
  | reading _, read_done None | writing _ _ _, wrote None => True
  | _, _ => False
  end.
#[export] Instance fits_dec s c : Decision (fits s c).
Proof. unfold fits. destruct (at_ s), c as [[]|[]]; apply _. Defined.

(** The bytes received and not yet written. *)
Definition unsent (s : session) : str :=
  match at_ s with writing _ off len => drop off (take len (data_ s)) | _ => [] end.

(** The block of the outstanding operation is the only one in use. *)
Definition outstanding (s : session) : list pointer :=
  match at_ s with reading p | writing p _ _ => [p] | ended => [] end.

Record session_inv (s : session) : Prop := {
  s_blocks : blocks (mem s) ≡ₚ outstanding s;
  s_data : length (data_ s) = max_length;
  s_bounds : match at_ s with writing _ off len => off < len <= max_length | _ => True end;
  s_echo : match at_ s with
           | ended => exists rest, concat (received s) = sent s ++ rest /\ length rest <= max_length
           | _ => concat (received s) = sent s ++ unsent s
           end }.

Lemma session_alloc s size f :
  blocks (mem s) = [] -> (forall p, f p <> ended) ->
  (forall p, match f p with writing _ off len => off < len <= max_length | _ => True end) ->
  (forall p q, f p = writing q (match f p with writing _ o _ => o | _ => 0 end) (match f p with writing _ _ l => l | _ => 0 end) -> q = p) ->
  (forall p q, f p = reading q -> q = p) ->
  length (data_ s) = max_length ->
  (forall p m, concat (received s) = sent s ++ unsent (Session (f p) (data_ s) m (received s) (sent s))) ->
  session_inv (let '(p, m) := allocate size (mem s) in Session (f p) (data_ s) m (received s) (sent s)).
Proof.
  intros Hb Hne Hbd Hw Hr Hd He. pose proof (allocate_spec size (mem s)) as [_ Ha]. rewrite Hb in Ha.
  destruct (allocate size (mem s)) as [p m]. cbn [fst snd] in Ha. constructor; cbn [mem at_ data_ received sent].
  - rewrite Ha. unfold outstanding. cbn [at_]. specialize (Hne p). specialize (Hw p). specialize (Hr p).
    destruct (f p); [by rewrite (Hr _ eq_refl)|by rewrite (Hw _ eq_refl)|done].
  - done.
  - apply Hbd.
  - specialize (He p m). specialize (Hne p). by destruct (f p).
Qed.

Lemma do_read_inv s :
  blocks (mem s) = [] -> length (data_ s) = max_length -> concat (received s) = sent s -> session_inv (do_read s).
Proof.
  intros Hb Hd He. unfold do_read. apply (session_alloc s read_op_size reading); try done.
  - by intros p q [= ->].
  - intros p m. unfold unsent. cbn. by rewrite app_nil_r.
Qed.

Lemma write_some_inv s off len :
  blocks (mem s) = [] -> length (data_ s) = max_length -> off < len <= max_length ->
  concat (received s) = sent s ++ drop off (take len (data_ s)) -> session_inv (write_some off len s).
Proof.
  intros Hb Hd Hl He. unfold write_some. apply (session_alloc s write_op_size (fun p => writing p off len)); try done.
  by intros p q [= ->].
Qed.

Lemma complete_inv s c :
  session_inv s -> fits s c -> exists s', complete s c = Some s' /\ session_inv s'.
Proof.
  intros [Hb Hd Hbd He] Hf. unfold fits in Hf. unfold complete. unfold outstanding, unsent in *.
  destruct (at_ s) as [p|p off len|] eqn:Hat; destruct c as [r|r]; try (by destruct r).
  all: destruct (deallocate_spec p (mem s)) as (m & -> & Hm); [rewrite Hb; set_solver|].
  all: rewrite Hb in Hm; apply Permutation_cons_inv, Permutation_nil_l in Hm; cbn [mbind option_bind].
  - eexists. split; [done|]. destruct r as [bytes|].
    + destruct Hf as [Hne Hl]. unfold do_write. apply write_some_inv; cbn.
      * done.
      * rewrite length_app, length_drop. lia.
      * destruct bytes; [done|cbn in *; lia].
      * rewrite drop_0, take_app_length, concat_app, He, app_nil_r. cbn. by rewrite app_nil_r.
    + constructor; cbn; try done; [by rewrite Hm|]. exists []. split; [done|cbn; lia].
  - eexists. split; [done|]. destruct r as [n|].
    + case_decide as Hdone.
      * apply do_read_inv; cbn; [done|done|]. rewrite He. f_equal. symmetry. apply take_ge.
        rewrite length_drop, length_take. lia.
      * apply write_some_inv; cbn; [done|done|lia|]. rewrite He, <- app_assoc. f_equal.
        rewrite <- (take_drop n (drop off (take len (data_ s)))) at 1. by rewrite drop_drop.
    + constructor; cbn; try done; [by rewrite Hm|]. eexists. split; [exact He|].
      rewrite length_drop, length_take. lia.
Qed.

Lemma session_start_inv : session_inv start.
Proof. apply do_read_inv; [apply blocks_fresh|apply length_replicate|done]. Qed.

Lemma complete_some s c s' : complete s c = Some s' -> exists p m, deallocate p (mem s) = Some m /\ outstanding s = [p].
Proof.
  unfold complete, outstanding. destruct (at_ s) as [p|p off len|]; destruct c; try done;
    destruct (deallocate p (mem s)) as [m|] eqn:Hd; try done; intros _; by exists p, m.
Qed.
End Session.
Arguments session : clear implicits.

(** ** The server *)

Section Server.
Context {M : Type} `{Allocator M}.
Context (read_op_size write_op_size : Z).

Abbreviation session := (session M).

(** The handler of [async_accept], which starts a session unless there was an
    error, and accepts again; a completion for the [i]th session. *)
Inductive server_event := accepted (error : bool) | completed (i : nat) (c : completion).

Definition do_accept (sessions : list session) (error : bool) : list session :=
  if error then sessions else sessions ++ [start read_op_size].

Definition serve (sessions : list session) (e : server_event) : option (list session) :=
  match e with
  | accepted error => Some (do_accept sessions error)
  | completed i c => s ← sessions !! i; s' ← complete read_op_size write_op_size s c; Some (<[i := s']> sessions)
  end.

Fixpoint served (sessions : list session) (es : list server_event) : option (list session) :=
  match es with [] => Some sessions | e :: es' => ss ← serve sessions e; served ss es' end.

(** Events of operations that are outstanding. *)
Fixpoint events_fit (sessions : list session) (es : list server_event) : Prop :=
  match es with
  | [] => True
  | e :: es' =>
      match e with
      | accepted _ => True
      | completed i c => match sessions !! i with Some s => fits s c | None => False end
      end /\
      match serve sessions e with Some ss => events_fit ss es' | None => True end
  end.
#[export] Instance events_fit_dec sessions es : Decision (events_fit sessions es).
Proof.
  revert sessions. induction es as [|e es IH]; intros sessions; cbn; [apply _|]. apply and_dec.
  - destruct e as [error|i c]; [apply _|]. destruct (sessions !! i); apply _.
  - destruct (serve sessions e); apply _.
Defined.

Lemma served_inv ss es :
  Forall session_inv ss -> events_fit ss es -> exists ss', served ss es = Some ss' /\ Forall session_inv ss'.
Proof.
  revert ss. induction es as [|e es IH]; intros ss Hss; cbn [events_fit served]; [intros _; by exists ss|].
  intros [He Hrest]. assert (exists ss1, serve ss e = Some ss1 /\ Forall session_inv ss1) as (ss1 & Hs & Hss1).
  { destruct e as [error|i c]; cbn [serve].
    - eexists. split; [done|]. destruct error; [done|]. apply Forall_app. split; [done|]. constructor; [apply session_start_inv|done].
    - destruct (ss !! i) as [s|] eqn:Hi; [|done]. cbn [mbind option_bind].
      destruct (complete_inv read_op_size write_op_size s c) as (s' & Hc & Hs'); [by eapply Forall_lookup_1|exact He|].
      rewrite Hc. cbn [mbind option_bind]. eexists. split; [done|]. by apply Forall_insert. }
  rewrite Hs in *. cbn [mbind option_bind]. by apply IH.
Qed.
End Server.

(** ** Properties *)

(** C18: the servers echo, with any allocator of the interface. However the
    clients connect, send, read and break off, no session gives back a block
    that it does not hold; it holds one while an operation is outstanding and
    none when it has ended; and what it has sent, with what is left of the last
    chunk, is what it has received. *)
Theorem echo_server {M} `{Allocator M} read_op_size write_op_size es :
  events_fit (M := M) read_op_size write_op_size [] es ->
  exists sessions, served (M := M) read_op_size write_op_size [] es = Some sessions /\
    forall s, s ∈ sessions -> blocks (mem s) ≡ₚ outstanding s /\
      exists rest, concat (received s) = sent s ++ rest /\ length rest <= max_length /\ (at_ s <> ended -> rest = unsent s).
Proof.
  intros Hes. destruct (served_inv read_op_size write_op_size [] es) as (ss & Heq & Hss); [constructor|done|].
  exists ss. split; [done|]. intros s Hs. rewrite Forall_forall in Hss. destruct (Hss s Hs) as [Hb Hd Hbd He].
  split; [done|]. unfold unsent in *. destruct (at_ s) as [p|p off len|].
  - exists []. split_and!; [done|cbn; lia|done].
  - eexists. split; [exact He|]. split; [|done]. rewrite length_drop, length_take. lia.
  - destruct He as (rest & He & Hl). exists rest. split_and!; [done|done|]. by intros [].
Qed.

Lemma allocate_storage size m :
  in_use_ m = false -> (size < 1024)%Z -> handler_allocate size m = (storage, HandlerMemory true (global_heap m)).
Proof. intros Hu Hs. unfold handler_allocate. rewrite Hu. unfold sizeof_storage. by rewrite (proj2 (Z.ltb_lt _ _)). Qed.

(** A session whose operations fit the storage, with nothing on the heap. *)
Definition lean (s : session handler_memory) : Prop :=
  global_heap (mem s) = ∅ /\ outstanding s = (if in_use_ (mem s) then [storage] else []).

Lemma do_read_lean r s : (r < 1024)%Z -> in_use_ (mem s) = false -> global_heap (mem s) = ∅ -> lean (do_read r s).
Proof. intros Hr Hu Hh. unfold do_read. cbn [allocate handler_memory_allocator]. by rewrite allocate_storage. Qed.

Lemma write_some_lean w off len s : (w < 1024)%Z -> in_use_ (mem s) = false -> global_heap (mem s) = ∅ -> lean (write_some w off len s).
Proof. intros Hw Hu Hh. unfold write_some. cbn [allocate handler_memory_allocator]. by rewrite allocate_storage. Qed.

Lemma complete_lean r w s c s' :
  (r < 1024)%Z -> (w < 1024)%Z -> lean s -> complete r w s c = Some s' -> lean s'.
Proof.
  intros Hr Hw [Hh Ho] Hc. destruct (complete_some r w s c s' Hc) as (p & m & Hd & Hp).
  assert (p = storage) as ->.
  { rewrite Hp in Ho. destruct (in_use_ (mem s)); congruence. }
  cbn [deallocate handler_memory_allocator handler_deallocate] in Hd. injection Hd as <-.
  unfold complete, outstanding in *. destruct (at_ s) as [p|p off len|]; destruct c as [x|x]; try done;
    injection Hp as ->; cbn [deallocate handler_memory_allocator handler_deallocate mbind option_bind] in Hc; injection Hc as <-.
  - destruct x as [bytes|]; [|split; done]. apply write_some_lean; done.
  - destruct x as [n|]; [|split; done]. case_decide; [by apply do_read_lean|by apply write_some_lean].
Qed.

(** The handler memory does its job: where the operations of a session are
    smaller than the storage, the session never takes memory from the heap. *)
Theorem handler_memory_lean read_op_size write_op_size cs s :
  (read_op_size < 1024)%Z -> (write_op_size < 1024)%Z ->
  completes read_op_size write_op_size (start read_op_size) cs = Some s ->
  global_heap (mem s) = ∅.
Proof.
  intros Hr Hw. assert (lean (start read_op_size)) as Hs by by apply do_read_lean.
  revert Hs. generalize (start read_op_size (M := handler_memory)) as s0. induction cs as [|c cs IH]; intros s0 Hs; cbn [completes].
  { intros [= <-]. apply Hs. }
  destruct (complete read_op_size write_op_size s0 c) as [s1|] eqn:Hc; [|done]. cbn [mbind option_bind].
  apply IH. exact (complete_lean read_op_size write_op_size s0 c s1 Hr Hw Hs Hc).
Qed.

(** *** Witnesses *)

Definition talk : list completion := [read_done (Some (lit "hello")); wrote (Some 2); wrote (Some 3); read_done (Some (lit "bye")); wrote (Some 1)].

Lemma handler_memory_lean_witness :
  exists s : session handler_memory, completes 100 200 (start 100) talk = Some s /\ sent s = lit "hellob" /\ global_heap (mem s) = ∅.
Proof.
  destruct (completes (M := handler_memory) 100 200 (start 100) talk) as [s|] eqn:Hc; [|vm_compute in Hc; discriminate Hc].
  exists s. split; [reflexivity|]. split; [vm_compute in Hc; injection Hc as <-; vm_compute; reflexivity|].
  exact (handler_memory_lean 100 200 talk s eq_refl eq_refl Hc).
Defined.

Definition two_clients : list server_event :=
  [accepted false; accepted true; completed 0 (read_done (Some (lit "hi"))); accepted false; completed 1 (read_done None);
   completed 0 (wrote (Some 1))].

Lemma two_clients_fit : events_fit (M := heap) 100 200 [] two_clients.
Proof. apply (bool_decide_unpack _). vm_compute. exact I. Qed.

Lemma echo_server_witness :
  exists sessions, served (M := heap) 100 200 [] two_clients = Some sessions /\
    forall s, s ∈ sessions -> blocks (mem s) ≡ₚ outstanding s /\
      exists rest, concat (received s) = sent s ++ rest /\ length rest <= max_length /\ (at_ s <> ended -> rest = unsent s).
Proof. exact (echo_server 100 200 two_clients two_clients_fit). Defined.
