(* ===== verification/AsioServers.v ===== *)
(** * AsioServers: the other servers written with Boost.Asio

    Models, of [boost], the daytime servers [daytime3] (TCP), [daytime6] (UDP) and
    [daytime7] (both), whose handlers keep alive what the operations use;
    [5...fork_daemon.cpp], which becomes a daemon and answers by UDP; and
    [process_per_connection.cpp], an echo server that forks. The text that [ctime]
    gives is the data of an event. Boost.Asio is what it documents: the bytes of a
    buffer are read until the handler runs, a handler runs once, and what is bound
    to it is released afterwards. *)
From S2P Require Import Prelude.

(** ** TCP: a connection lives as long as a handler that is bound to it *)

Module Tcp.

(** [sent] and [accepted] are ghosts: what the client was sent, and which of the
    clients accepted it is, if there is one. *)
Record tcp_connection := Conn { message_ : str; accepted : option nat; sent : str }.

(** The connections on the heap; the one that [async_accept] waits for; the
    [async_write]s under way with the bytes they have sent; what was destroyed, with
    whether its write was complete; [accepts] is a ghost, the times at which clients
    were accepted. *)
Record tcp_server := TcpServer {
  heap : gmap nat tcp_connection; accepting : option nat; writes : gmap nat nat; destroyed : list (tcp_connection * bool); accepts : list str }.

(** The [shared_ptr]s are in the handlers: an object that none of them has is
    destroyed. *)
Definition held (i : nat) (st : tcp_server) : bool := bool_decide (accepting st = Some i) || bool_decide (is_Some (writes st !! i)).
Definition release (i : nat) (ok : bool) (st : tcp_server) : tcp_server :=
  if held i st then st
  else TcpServer (delete i (heap st)) (accepting st) (writes st)
         (match heap st !! i with Some c => destroyed st ++ [(c, ok)] | None => destroyed st end) (accepts st).

Definition start_accept (st : tcp_server) : tcp_server :=
  let i := fresh (dom (heap st)) in
  TcpServer (<[i := Conn [] None []]> (heap st)) (Some i) (writes st) (destroyed st) (accepts st).

(** [start] of an accepted connection, with what [make_daytime_string] gives. *)
Definition start (i : nat) (time : str) (st : tcp_server) : tcp_server :=
  TcpServer (<[i := Conn time (Some (length (accepts st))) []]> (heap st)) (accepting st) (<[i := 0]> (writes st)) (destroyed st) (accepts st).

Definition handle_accept (i : nat) (error : bool) (time : str) (st : tcp_server) : tcp_server :=
  start_accept (if error then st else start i time st).

Definition t_start : tcp_server := start_accept (TcpServer ∅ None ∅ [] []).

(** The record of an acceptance. *)
Definition logged (error : bool) (time : str) (st : tcp_server) : tcp_server :=
  TcpServer (heap st) (accepting st) (writes st) (destroyed st) (if error then accepts st else accepts st ++ [time]).

(** [async_accept] completes; a write sends [n] bytes more, or fails. *)
Inductive t_event := accept_done (error : bool) (time : str) | wrote (i n : nat) | write_failed (i : nat).

Definition t_step (e : t_event) (st : tcp_server) : option (outcome tcp_server) :=
  match e with
  | accept_done error time =>
      i ← accepting st;
      let st := TcpServer (heap st) None (writes st) (destroyed st) (accepts st) in
      Some (returns (logged error time (release i false (handle_accept i error time st))))
  | wrote i n =>
      off ← writes st !! i;
      match heap st !! i with
      | None => Some undefined (* the buffer is gone *)
      | Some c =>
          let c := Conn (message_ c) (accepted c) (sent c ++ take n (drop off (message_ c))) in
          let st := TcpServer (<[i := c]> (heap st)) (accepting st) (<[i := off + n]> (writes st)) (destroyed st) (accepts st) in
          Some (returns (if decide (length (message_ c) <= off + n) then
                           release i true (TcpServer (heap st) (accepting st) (delete i (writes st)) (destroyed st) (accepts st))
                         else st))
      end
  | write_failed i =>
      _ ← writes st !! i;
      Some (returns (release i false (TcpServer (heap st) (accepting st) (delete i (writes st)) (destroyed st) (accepts st))))
  end.

End Tcp.

(** ** UDP *)

Module Udp.

(** [daytime6] and [daytime7] send with a handler that owns the message; the daemon
    sends at once, and receives again after an error, too. *)
Inductive kind := asynchronous | daemon.

(** Whether a receive is outstanding, [remote_endpoint_], the messages on the heap,
    the sends under way with their destination; [asked] and [answered] are ghosts. *)
Record udp_server := UdpServer {
  receiving : bool; remote_endpoint_ : nat; messages : gmap nat str; sends : list (nat * nat);
  asked : list (nat * str); answered : list (nat * str) }.

Definition u_start : udp_server := UdpServer true 0 ∅ [] [] [].

(** A datagram of [client] arrives at this time, or the receive fails; the [k]-th send
    completes. *)
Inductive u_event := received (client : nat) (time : str) (ok : bool) | receive_failed | send_done (k : nat) (ok : bool).

Definition u_step (kd : kind) (e : u_event) (st : udp_server) : option (outcome udp_server) :=
  match e with
  | received client time ok =>
      if receiving st then
        match kd with
        | asynchronous =>
            let m := fresh (dom (messages st)) in
            Some (returns (UdpServer true client (<[m := time]> (messages st)) (sends st ++ [(client, m)])
                             (asked st ++ [(client, time)]) (answered st)))
        | daemon =>
            Some (returns (UdpServer true client (messages st) (sends st) (asked st ++ [(client, time)])
                             (if ok then answered st ++ [(client, time)] else answered st)))
        end
      else None
  | receive_failed =>
      if receiving st then
        Some (returns (UdpServer (match kd with daemon => true | asynchronous => false end) (remote_endpoint_ st)
                         (messages st) (sends st) (asked st) (answered st)))
      else None
  | send_done k ok =>
      '(client, m) ← sends st !! k;
      match messages st !! m with
      | None => Some undefined
      | Some s =>
          Some (returns (UdpServer (receiving st) (remote_endpoint_ st) (delete m (messages st)) (delete k (sends st))
                           (asked st) (if ok : bool then answered st ++ [(client, s)] else answered st)))
      end
  end.

(** [io_context::run] returns when no operation is outstanding. *)
Definition u_idle (st : udp_server) : bool := negb (receiving st) && bool_decide (sends st = []).

End Udp.

(** ** Both, in one thread *)

Module Both.

Inductive b_event := tcp (e : Tcp.t_event) | udp (e : Udp.u_event).
Definition servers : Type := Tcp.tcp_server * Udp.udp_server.
Definition b_start : servers := (Tcp.t_start, Udp.u_start).

Definition b_step (e : b_event) (st : servers) : option (outcome servers) :=
  match e with
  | tcp e => o ← Tcp.t_step e st.1; Some (map_outcome (fun s => (s, st.2)) o)
  | udp e => o ← Udp.u_step Udp.asynchronous e st.2; Some (map_outcome (fun s => (st.1, s)) o)
  end.

End Both.

(** ** Becoming a daemon *)

Module Daemon.

(** What a descriptor stands for. *)
Inductive target := terminal | socket | io_internal | dev_null | log_file.
#[export] Instance target_eq_dec : EqDecision target.
Proof. solve_decision. Defined.

(** The process that goes on: its descriptors, whether it leads its session and has
    the terminal of its parent, its directory and mask. *)
Record proc := Proc { fds : gmap nat target; leader : bool; has_terminal : bool; cwd : str; umask : nat }.

(** What the calls give: both [fork]s, the two [open]s, [dup]. [fork] gives [Some true]
    in the parent. *)
Record answers := Answers { fork1 : option bool; fork2 : option bool; open1 : bool; open2 : bool; dup_ok : bool }.

(** A new descriptor is the least one that is free. *)
Fixpoint least_free (fuel n : nat) (m : gmap nat target) : nat :=
  match fuel with
  | O => n
  | S fuel' => match m !! n with None => n | Some _ => least_free fuel' (S n) m end
  end.
Definition lowest (m : gmap nat target) : nat := least_free (size m) 0 m.
Definition open_fd (t : target) (p : proc) : proc := Proc (<[lowest (fds p) := t]> (fds p)) (leader p) (has_terminal p) (cwd p) (umask p).
Definition close_fd (n : nat) (p : proc) : proc := Proc (delete n (fds p)) (leader p) (has_terminal p) (cwd p) (umask p).

(** [fork]: the parent ends with status 0, an error with status 1; the child does
    not lead a session. *)
Definition fork (a : option bool) (p : proc) : outcome proc :=
  match a with
  | None => exits 1
  | Some true => exits 0
  | Some false => returns (Proc (fds p) false (has_terminal p) (cwd p) (umask p))
  end.
Definition setsid (p : proc) : proc := Proc (fds p) true false (cwd p) (umask p).

Definition daemonize (a : answers) (p : proc) : outcome proc :=
  bind_outcome (fork (fork1 a) p) (fun p =>
  let p := setsid p in
  let p := Proc (fds p) (leader p) (has_terminal p) (lit "/") 0 in
  bind_outcome (fork (fork2 a) p) (fun p =>
  let p := close_fd 2 (close_fd 1 (close_fd 0 p)) in
  if negb (open1 a) then exits 1 else
  let p := open_fd dev_null p in
  if negb (open2 a) then exits 1 else
  let p := open_fd log_file p in
  match fds p !! 1 with
  | Some t => if dup_ok a then returns (open_fd t p) else exits 1
  | None => exits 1
  end)).

End Daemon.

(** ** A process for each connection *)

Module PerConnection.

(** What a child waits for; [zombie] and [reaped] when it has ended. *)
Inductive phase := reading | writing (off length : nat) | zombie | reaped.
#[export] Instance phase_eq_dec : EqDecision phase.
Proof. solve_decision. Defined.

(** A child: its connection, the array [data_], what was received and sent (ghosts). *)
Record child := Child { conn : nat; at_ : phase; data_ : str; heard : str; said : str }.

(** The parent: whether [async_accept] and [async_wait] are outstanding, its socket,
    whether a SIGCHLD was caught; the children; the connections that were lost. *)
Record server := Server {
  accepting : bool; waiting : bool; socket_ : option nat; sigchld : bool; children : list child; lost : list nat }.

Definition s_start : server := Server true true None false [] [].

(** [async_accept] completes with a connection, or an error; [fork] succeeds or not;
    the signal handler runs; child [k] reads, or writes [n] bytes more ([None]: an
    error). *)
Inductive s_event :=
  | accept_done (c : option nat) (forked : bool)
  | signalled
  | read_done (k : nat) (s : option str) | wrote (k : nat) (n : option nat).

Definition data_size : nat := 1024.

(** The child closes the acceptor and cancels the wait, whose handler does nothing;
    then it reads. The parent closes its socket, also when there is no child. *)
Definition accept_handler (c : nat) (forked : bool) (st : server) : server :=
  let st := Server false (waiting st) (Some c) (sigchld st) (children st) (lost st) in
  let st := if forked then Server false (waiting st) (socket_ st) (sigchld st) (children st ++ [Child c reading (replicate data_size NUL) [] []]) (lost st)
            else Server false (waiting st) (socket_ st) (sigchld st) (children st) (lost st ++ [c]) in
  Server true (waiting st) None (sigchld st) (children st) (lost st).

Definition reap (c : child) : child := match at_ c with zombie => Child (conn c) reaped (data_ c) (heard c) (said c) | _ => c end.

(** What a completion does in a child; when nothing is outstanding it ends. *)
Definition on_read (s : option str) (c : child) : child :=
  match s with
  | Some s => Child (conn c) (writing 0 (length s)) (s ++ drop (length s) (data_ c)) (heard c ++ s) (said c)
  | None => Child (conn c) zombie (data_ c) (heard c) (said c)
  end.
Definition on_write (off len : nat) (n : option nat) (c : child) : child :=
  match n with
  | Some n => Child (conn c) (if decide (len <= off + n) then reading else writing (off + n) len) (data_ c) (heard c)
                (said c ++ take n (drop off (take len (data_ c))))
  | None => Child (conn c) zombie (data_ c) (heard c) (said c)
  end.

Definition update (k : nat) (c : child) (st : server) : server :=
  Server (accepting st) (waiting st) (socket_ st) (sigchld st || bool_decide (at_ c = zombie)) (<[k := c]> (children st)) (lost st).

Definition s_step (e : s_event) (st : server) : option server :=
  match e with
  | accept_done c forked =>
      if accepting st then Some (match c with Some c => accept_handler c forked st | None => st end) else None
  | signalled =>
      if sigchld st && waiting st then
        Some (Server (accepting st) true (socket_ st) false (reap <$> children st) (lost st))
      else None
  | read_done k s =>
      c ← children st !! k;
      match at_ c with reading => Some (update k (on_read s c) st) | _ => None end
  | wrote k n =>
      c ← children st !! k;
      match at_ c with writing off len => Some (update k (on_write off len n c) st) | _ => None end
  end.

Fixpoint s_run (es : list s_event) (st : server) : option server :=
  match es with [] => Some st | e :: es' => st' ← s_step e st; s_run es' st' end.

End PerConnection.

(** ** TCP *)

Section tcp.
Import Tcp.

(** What a connection was sent is the beginning of its text. *)
Definition writing_ok (c : tcp_connection) (off : nat) : Prop := is_Some (accepted c) /\ sent c = take off (message_ c).
Definition destroyed_ok (x : tcp_connection * bool) : Prop :=
  sent x.1 `prefix_of` message_ x.1 /\ (x.2 = true -> is_Some (accepted x.1) /\ sent x.1 = message_ x.1).

Record t_inv (st : tcp_server) : Prop := {
  ti_accept : exists i, accepting st = Some i /\ heap st !! i = Some (Conn [] None []) /\ writes st !! i = None;
  ti_heap : forall j, accepting st <> Some j -> match heap st !! j, writes st !! j with
                                               | Some c, Some off => writing_ok c off
                                               | None, None => True
                                               | _, _ => False
                                               end;
  ti_destroyed : Forall destroyed_ok (destroyed st) }.

Lemma start_accept_inv st :
  (forall j, match heap st !! j, writes st !! j with Some c, Some off => writing_ok c off | None, None => True | _, _ => False end) ->
  Forall destroyed_ok (destroyed st) -> t_inv (start_accept st).
Proof.
  intros Hh Hd. unfold start_accept. set (i := fresh (dom (heap st))).
  assert (Hi : heap st !! i = None) by (apply not_elem_of_dom, is_fresh). constructor; cbn [heap accepting writes destroyed].
  - exists i. rewrite lookup_insert_eq. split_and!; [done..|]. specialize (Hh i). rewrite Hi in Hh. by destruct (writes st !! i).
  - intros j Hj. rewrite lookup_insert_ne by congruence. apply Hh.
  - done.
Qed.

Lemma prefix_take_ok c off : writing_ok c off -> sent c `prefix_of` message_ c.
Proof. intros [_ ->]. exists (drop off (message_ c)). by rewrite take_drop. Qed.

(** A connection whose write ends is destroyed. *)
Lemma write_ends i off c ok st :
  t_inv st -> writes st !! i = Some off -> heap st !! i = Some c -> destroyed_ok (c, ok) ->
  t_inv (release i ok (TcpServer (heap st) (accepting st) (delete i (writes st)) (destroyed st) (accepts st))).
Proof.
  intros [(k & Ha & Hk & Hwk) Hh Hd] Hw Hc Hok. assert (k <> i) by congruence.
  unfold release, held. cbn [accepting writes heap destroyed]. rewrite Ha, lookup_delete_eq.
  rewrite bool_decide_eq_false_2, bool_decide_eq_false_2 by (congruence || by intros []). cbn [orb]. rewrite Hc.
  constructor; cbn [heap accepting writes destroyed].
  - exists k. by rewrite !lookup_delete_ne by done.
  - intros j Hj. destruct (decide (j = i)) as [->|]; [by rewrite !lookup_delete_eq|]. rewrite !lookup_delete_ne by done. apply Hh. congruence.
  - apply Forall_app. split; [done|]. by apply Forall_singleton.
Qed.

(** A connection that nobody made is destroyed. *)
Lemma accept_fails i st :
  t_inv st -> accepting st = Some i -> t_inv (release i false (start_accept (TcpServer (heap st) None (writes st) (destroyed st) (accepts st)))).
Proof.
  intros [(i' & Ha & Hi & Hw) Hh Hd] Ha'. rewrite Ha in Ha'. injection Ha' as ->.
  assert (Hn : heap st !! fresh (dom (heap st)) = None) by (apply not_elem_of_dom, is_fresh).
  unfold start_accept. cbn [heap writes destroyed]. set (n := fresh _) in *. assert (Hni : n <> i) by congruence.
  unfold release, held. cbn [accepting writes heap destroyed]. rewrite lookup_insert_ne, Hi by done.
  rewrite bool_decide_eq_false_2, bool_decide_eq_false_2 by (congruence || by rewrite Hw; intros []). cbn [orb].
  constructor; cbn [heap accepting writes destroyed].
  - exists n. rewrite lookup_delete_ne, lookup_insert_eq by done. split_and!; [done..|]. specialize (Hh n). rewrite Hn in Hh.
    destruct (writes st !! n); [|done]. destruct Hh. congruence.
  - intros j Hj. destruct (decide (j = i)) as [->|]; [by rewrite lookup_delete_eq, Hw|]. rewrite lookup_delete_ne, lookup_insert_ne by congruence. apply Hh. congruence.
  - apply Forall_app. split; [done|]. apply Forall_singleton. split; [by apply prefix_nil|done].
Qed.

Lemma accept_succeeds i time st :
  t_inv st -> accepting st = Some i -> t_inv (release i false (start_accept (start i time (TcpServer (heap st) None (writes st) (destroyed st) (accepts st))))).
Proof.
  intros [(i' & Ha & Hi & Hw) Hh Hd] Ha'. rewrite Ha in Ha'. injection Ha' as ->.
  unfold release, held. cbn [start_accept start writes accepting]. rewrite lookup_insert_eq, orb_true_r.
  apply start_accept_inv; [|done]. intros j. cbn [start heap writes]. destruct (decide (j = i)) as [->|].
  - rewrite !lookup_insert_eq. by split; [eexists|].
  - rewrite !lookup_insert_ne by done. apply Hh. congruence.
Qed.

Lemma logged_inv error time st : t_inv st -> t_inv (logged error time st).
Proof. intros [H1 H2 H3]. by constructor. Qed.

Lemma tcp_step_inv e st o : True -> t_inv st -> t_step e st = Some o -> exists st', o = returns st' /\ t_inv st'.
Proof.
  intros _ Hst. pose proof Hst as [(i & Ha & Hi & Hw) Hh Hd]. destruct e as [error time|j n|j]; cbn [t_step].
  - rewrite Ha. cbn [mbind option_bind]. intros [= <-]. eexists. split; [done|]. unfold handle_accept.
    apply logged_inv. destruct error; [by apply accept_fails|by apply accept_succeeds].
  - destruct (writes st !! j) as [off|] eqn:Hj; [|done]. cbn [mbind option_bind]. specialize (Hh j ltac:(congruence)) as Hjj. rewrite Hj in Hjj.
    destruct (heap st !! j) as [c|] eqn:Hc; [|done]. intros [= <-]. eexists. split; [done|]. destruct Hjj as [Hacc Hs].
    set (c' := Conn _ _ _). set (st' := TcpServer (<[j:=c']> (heap st)) (accepting st) (<[j:=off + n]> (writes st)) (destroyed st) (accepts st)).
    assert (Hs' : sent c' = take (off + n) (message_ c)) by (cbn; rewrite Hs; apply take_take_drop).
    assert (Hst' : t_inv st').
    { constructor; cbn [heap accepting writes destroyed st']; [|intros k Hk|done].
      - exists i. by rewrite !lookup_insert_ne by congruence.
      - destruct (decide (k = j)) as [->|]; [by rewrite !lookup_insert_eq|]. rewrite !lookup_insert_ne by done. by apply Hh. }
    change (t_inv (if decide (length (message_ c) <= off + n)
      then release j true (TcpServer (heap st') (accepting st') (delete j (writes st')) (destroyed st') (accepts st')) else st')).
    case_decide as Hlen; [|done]. rewrite take_ge in Hs' by done.
    apply (write_ends j (off + n) c'); [done|by cbn; rewrite lookup_insert_eq..|]. split; cbn in *; [by rewrite Hs'|done].
  - destruct (writes st !! j) as [off|] eqn:Hj; [|done]. cbn [mbind option_bind]. intros [= <-]. eexists. split; [done|].
    specialize (Hh j ltac:(congruence)). rewrite Hj in Hh. destruct (heap st !! j) as [c|] eqn:Hc; [|done].
    apply (write_ends j off c); [done..|]. split; [by eapply prefix_take_ok|done].
Qed.

Lemma t_start_inv : t_inv t_start.
Proof. apply start_accept_inv; [|constructor]. intros j. cbn [heap writes]. by rewrite !lookup_empty. Qed.

(** All connections there are and were. *)
Definition conns (st : tcp_server) : list tcp_connection := (map_to_list (heap st)).*2 ++ (destroyed st).*1.

(** The [k]-th client accepted has one connection, whose text is that of the moment it
    was accepted; the other connections have no client. *)
Definition log_ok (times : list str) (cs : list tcp_connection) : Prop :=
  (forall c k, c ∈ cs -> accepted c = Some k -> times !! k = Some (message_ c)) /\
  omap accepted cs ≡ₚ seq 0 (length times).

Lemma log_perm times cs cs' : cs ≡ₚ cs' -> log_ok times cs -> log_ok times cs'.
Proof.
  intros Hp [H1 H2]. split; [intros c k; rewrite <- Hp; apply H1|]. by rewrite <- H2, Hp.
Qed.

Lemma conns_at st i c : heap st !! i = Some c -> exists rest, conns st ≡ₚ c :: rest /\
  (forall c' a w d t, d = destroyed st -> conns (TcpServer (<[i := c']> (heap st)) a w d t) ≡ₚ c' :: rest) /\
  (forall a w ok t, conns (TcpServer (delete i (heap st)) a w (destroyed st ++ [(c, ok)]) t) ≡ₚ c :: rest).
Proof.
  intros Hi. exists ((map_to_list (delete i (heap st))).*2 ++ (destroyed st).*1). unfold conns. cbn [heap destroyed]. split_and!.
  - by rewrite <- (map_to_list_delete (heap st) i c Hi).
  - intros c' a w d t ->. rewrite <- insert_delete_eq, map_to_list_insert by apply lookup_delete_eq. done.
  - intros a w ok t. rewrite fmap_app. cbn. solve_Permutation.
Qed.

Lemma conns_release i ok st : conns (release i ok st) ≡ₚ conns st.
Proof.
  unfold release. destruct (held i st); [done|]. destruct (heap st !! i) as [c|] eqn:Hi.
  - destruct (conns_at st i c Hi) as (rest & -> & _ & ->). done.
  - unfold conns. cbn [heap destroyed]. by rewrite delete_id.
Qed.

Lemma conns_start_accept st : conns (start_accept st) ≡ₚ Conn [] None [] :: conns st.
Proof.
  unfold start_accept, conns. cbn [heap destroyed].
  rewrite map_to_list_insert by (apply not_elem_of_dom, is_fresh). done.
Qed.

Lemma log_none times cs : log_ok times cs -> log_ok times (Conn [] None [] :: cs).
Proof. intros [H1 H2]. split; [|done]. intros c k [->|Hc]%elem_of_cons; [done|by apply H1]. Qed.

(** A client is accepted. *)
Lemma log_accept times time cs :
  log_ok times (Conn [] None [] :: cs) -> log_ok (times ++ [time]) (Conn time (Some (length times)) [] :: cs).
Proof.
  intros [H1 H2]. split.
  - intros c k [->|Hc]%elem_of_cons Hk; [injection Hk as <-; cbn; by rewrite lookup_app_r, Nat.sub_diag by lia|].
    apply lookup_app_l_Some. apply H1; [by right|done].
  - cbn in *. rewrite H2, length_app, Nat.add_1_r, seq_S. cbn. solve_Permutation.
Qed.

Lemma log_same times c c' cs :
  accepted c' = accepted c -> message_ c' = message_ c -> log_ok times (c :: cs) -> log_ok times (c' :: cs).
Proof.
  intros Ha Hm [H1 H2]. split; [|cbn in *; by rewrite Ha].
  intros x k [->|Hx]%elem_of_cons Hk; [rewrite Hm; apply H1; [by left|congruence]|apply H1; [by right|done]].
Qed.

Definition t_log (st : tcp_server) : Prop := log_ok (accepts st) (conns st).

(** The time of an acceptance. *)
Definition accept_time (e : t_event) : option str := match e with accept_done false time => Some time | _ => None end.

Lemma accepts_release i ok st : accepts (release i ok st) = accepts st.
Proof. unfold release. by destruct (held i st). Qed.

Lemma tcp_step_log e st st' : t_inv st -> t_log st -> t_step e st = Some (returns st') ->
  t_log st' /\ accepts st' = accepts st ++ option_list (accept_time e).
Proof.
  intros Hinv Hlog. unfold t_log in *. destruct e as [error time|j n|j]; cbn [t_step].
  - destruct (ti_accept _ Hinv) as (i & Ha & Hi & _). rewrite Ha. cbn [mbind option_bind]. intros [= <-].
    unfold logged. cbn [accepts]. rewrite accepts_release.
    change (conns (TcpServer _ _ _ _ _)) with (conns (release i false (handle_accept i error time (TcpServer (heap st) None (writes st) (destroyed st) (accepts st))))).
    destruct (conns_at st i _ Hi) as (rest & Hc & Hins & _). apply (log_perm _ _ _ Hc) in Hlog. destruct error; cbn [accept_time].
    + split; [|by rewrite app_nil_r]. eapply log_perm; [by rewrite conns_release; unfold handle_accept; rewrite conns_start_accept|].
      by eapply log_none, log_perm.
    + split; [|done]. eapply log_perm; [by rewrite conns_release; unfold handle_accept, start; rewrite conns_start_accept, Hins|].
      by apply log_none, log_accept.
  - destruct (writes st !! j) as [off|] eqn:Hj; [|done]. cbn [mbind option_bind]. destruct (heap st !! j) as [c|] eqn:Hc; [|done].
    destruct (conns_at st j c Hc) as (rest & Hp & Hins & _). apply (log_perm _ _ _ Hp) in Hlog.
    cbn [accept_time option_list]. rewrite app_nil_r. intros [= <-]. case_decide; [rewrite accepts_release|]; (split; [|done]).
    + eapply log_perm; [symmetry; etrans; [apply conns_release|by apply Hins]|]. by apply (log_same _ c).
    + eapply log_perm; [symmetry; by apply Hins|]. by apply (log_same _ c).
  - destruct (writes st !! j) as [off|] eqn:Hj; [|done]. cbn [mbind option_bind accept_time option_list]. rewrite app_nil_r. intros [= <-].
    rewrite accepts_release. split; [|done]. by eapply log_perm; [symmetry; apply conns_release|].
Qed.

Lemma t_start_log : t_log t_start.
Proof. split; [|done]. intros c k Hc. apply list_elem_of_singleton in Hc as ->. done. Qed.

End tcp.

(** ** UDP *)

Section udp.
Import Udp.

(** Each send under way has its own message on the heap. *)
Definition sending (msgs : gmap nat str) (x : nat * nat) (y : nat * str) : Prop := x.1 = y.1 /\ msgs !! x.2 = Some y.2.

Record u_inv (kd : kind) (st : udp_server) : Prop := {
  ui_sends : exists pending failed, Forall2 (sending (messages st)) (sends st) pending /\
               asked st ≡ₚ answered st ++ pending ++ failed;
  ui_owners : NoDup (snd <$> sends st) /\ (forall m, is_Some (messages st !! m) <-> m ∈ snd <$> sends st);
  ui_kind : match kd with asynchronous => True | daemon => receiving st = true /\ sends st = [] /\ answered st `sublist_of` asked st end }.

Lemma sending_insert msgs m s l pending :
  m ∉ snd <$> l -> Forall2 (sending msgs) l pending -> Forall2 (sending (<[m := s]> msgs)) l pending.
Proof.
  intros Hm H. induction H as [|x y l p [Hx Hy] H IH]; [constructor|]. rewrite fmap_cons, not_elem_of_cons in Hm.
  constructor; [|by apply IH; apply Hm]. split; [done|]. rewrite lookup_insert_ne by (intros ->; by destruct Hm). done.
Qed.

Lemma sending_delete msgs m l pending :
  m ∉ snd <$> l -> Forall2 (sending msgs) l pending -> Forall2 (sending (delete m msgs)) l pending.
Proof.
  intros Hm H. induction H as [|x y l p [Hx Hy] H IH]; [constructor|]. rewrite fmap_cons, not_elem_of_cons in Hm.
  constructor; [|by apply IH; apply Hm]. split; [done|]. rewrite lookup_delete_ne by (intros ->; by destruct Hm). done.
Qed.

Lemma u_step_inv kd e st o : True -> u_inv kd st -> u_step kd e st = Some o -> exists st', o = returns st' /\ u_inv kd st'.
Proof.
  intros _ [(pending & failed & Hp & Hq) [Hnd Hdom] Hk]. destruct e as [client time ok| |k ok]; cbn [u_step].
  - destruct (receiving st); [|done]. destruct kd; intros [= <-]; (eexists; split; [done|]).
    + set (m := fresh (dom (messages st))). assert (Hm : m ∉ snd <$> sends st).
      { rewrite <- Hdom, <- elem_of_dom. apply is_fresh. }
      constructor; cbn [messages sends asked answered].
      * exists (pending ++ [(client, time)]), failed. split.
        -- apply Forall2_app; [by apply sending_insert|]. constructor; [|constructor]. split; [done|]. by rewrite lookup_insert_eq.
        -- rewrite Hq. solve_Permutation.
      * rewrite fmap_app. split; [apply NoDup_app; split_and!; [done|set_solver|apply NoDup_singleton]|].
        intros m'. rewrite elem_of_app, <- Hdom. cbn. rewrite list_elem_of_singleton, lookup_insert_is_Some'. naive_solver.
      * done.
    + destruct Hk as (Hr & Hs & Hsub). rewrite Hs in *. inversion Hp; subst. constructor; cbn [messages sends asked answered receiving].
      * destruct ok; [exists [], failed|exists [], (failed ++ [(client, time)])]; (split; [constructor|]); rewrite Hq; cbn; solve_Permutation.
      * done.
      * split_and!; [done..|]. destruct ok; [by apply sublist_app|by apply sublist_inserts_r].
  - destruct (receiving st); [|done]. intros [= <-]. eexists. split; [done|]. constructor; cbn [messages sends asked answered receiving]; [by exists pending, failed|done|].
    by destruct kd.
  - destruct (sends st !! k) as [[client m]|] eqn:Hs; [|done]. cbn [mbind option_bind].
    apply list_elem_of_split_length in Hs as (l1 & l2 & Hl & ->). rewrite Hl in *.
    apply Forall2_app_inv_l in Hp as (p1 & p & Hp1 & Hp & ->). apply Forall2_cons_inv_l in Hp as ([c s] & p2 & [Hc Hm] & Hp2 & ->).
    cbn [fst snd] in Hc, Hm. subst c. rewrite Hm. intros [= <-]. eexists. split; [done|].
    rewrite fmap_app, fmap_cons in *. cbn [snd] in *. apply NoDup_app in Hnd as (Hn1 & Hn12 & Hn2). apply NoDup_cons in Hn2 as [Hn2 Hn3].
    assert (Hm1 : m ∉ snd <$> l1) by (intros H; apply (Hn12 m H); left).
    constructor; cbn [messages sends asked answered receiving]; rewrite ?delete_middle.
    + exists (p1 ++ p2), (if ok then failed else failed ++ [(client, s)]). split; [by apply Forall2_app; apply sending_delete|].
      rewrite Hq. destruct ok; solve_Permutation.
    + rewrite fmap_app. split; [apply NoDup_app; split_and!; [done| |done]; intros x Hx; specialize (Hn12 x Hx); set_solver|].
      intros x. rewrite lookup_delete_is_Some, Hdom, !elem_of_app, elem_of_cons.
      split; [naive_solver|]. intros Hx. split; [|tauto]. intros ->. tauto.
    + destruct kd; [done|]. destruct Hk as (_ & Hk & _). by destruct l1.
Qed.

Lemma u_start_inv kd : u_inv kd u_start.
Proof.
  constructor; cbn.
  - exists [], []. by split; [constructor|].
  - split; [constructor|]. intros m. rewrite lookup_empty. split; [by intros []|by intros ?%elem_of_nil].
  - by destruct kd.
Qed.

(** Without a receive under way nothing arrives any more. *)
Lemma u_deaf kd es st st' : receiving st = false -> run (u_step kd) es st = Some (returns st') -> receiving st' = false /\ asked st' = asked st.
Proof.
  revert st. induction es as [|e es IH]; intros st Hr; cbn; [by intros [= ->]|].
  destruct e as [client time ok| |k ok]; cbn [u_step]; rewrite ?Hr; cbn; [done..|].
  destruct (sends st !! k) as [[client m]|]; [|done]. cbn. destruct (messages st !! m); [|done]. cbn. intros H. by apply IH in H.
Qed.

End udp.

(** ** Both *)

Section both.
Import Both.

(** What the program needs of the handlers: while a write is under way its
    connection, with the text, is there, and otherwise only the connection that the
    acceptor waits for; each client has one connection, with its own text. *)
Definition tcp_ok (st : Tcp.tcp_server) : Prop :=
  (exists i, Tcp.accepting st = Some i /\ i ∉ dom (Tcp.writes st) /\ dom (Tcp.heap st) = {[i]} ∪ dom (Tcp.writes st)) /\
  (forall i off, Tcp.writes st !! i = Some off -> exists c, Tcp.heap st !! i = Some c /\ writing_ok c off) /\
  Forall destroyed_ok (Tcp.destroyed st) /\ log_ok (Tcp.accepts st) (conns st).

(** Every datagram was answered, is being answered, or the answer failed; the
    messages on the heap are those being sent. *)
Definition udp_ok (st : Udp.udp_server) : Prop := exists pending failed,
  Forall2 (sending (Udp.messages st)) (Udp.sends st) pending /\ Udp.asked st ≡ₚ Udp.answered st ++ pending ++ failed /\
  NoDup (snd <$> Udp.sends st) /\ dom (Udp.messages st) = list_to_set (snd <$> Udp.sends st).

Lemma t_inv_ok st : t_inv st -> t_log st -> tcp_ok st.
Proof.
  intros [(i & Ha & Hi & Hw) Hh Hd] Hlog. split; [|split; [|done]].
  - exists i. split; [done|]. split; [by apply not_elem_of_dom|]. apply set_eq. intros j.
    rewrite elem_of_union, elem_of_singleton, !elem_of_dom. destruct (decide (j = i)) as [->|Hj]; [rewrite Hi; naive_solver|].
    specialize (Hh j ltac:(congruence)). destruct (Tcp.heap st !! j), (Tcp.writes st !! j); naive_solver.
  - intros j off Hj. specialize (Hh j ltac:(congruence)). rewrite Hj in Hh. destruct (Tcp.heap st !! j) as [c|]; [by exists c|done].
Qed.

Lemma u_inv_ok kd st : u_inv kd st -> udp_ok st.
Proof.
  intros [(pending & failed & Hp & Hq) [Hn Hm] _]. exists pending, failed. split_and!; [done..|].
  apply set_eq. intros m. by rewrite elem_of_dom, Hm, elem_of_list_to_set.
Qed.

Definition b_inv (st : servers) : Prop := t_inv st.1 /\ t_log st.1 /\ u_inv Udp.asynchronous st.2.

Lemma b_step_inv e st o : True -> b_inv st -> b_step e st = Some o -> exists st', o = returns st' /\ b_inv st'.
Proof.
  intros _ (Ht & Hl & Hu). destruct e as [e|e]; cbn [b_step].
  - destruct (Tcp.t_step e st.1) as [o1|] eqn:He; [|done]. destruct (tcp_step_inv e st.1 o1 I Ht He) as (s' & -> & Hs'). intros [= <-].
    exists (s', st.2). split; [done|]. split; [done|]. split; [|done]. by apply (tcp_step_log e st.1 s').
  - destruct (Udp.u_step _ e st.2) as [o1|] eqn:He; [|done]. destruct (u_step_inv _ e st.2 o1 I Hu He) as (s' & -> & Hs'). intros [= <-].
    by eexists.
Qed.

(** When TCP clients were accepted, and who asked by UDP, when. *)
Definition accepted_at (e : b_event) : option str := match e with tcp e => accept_time e | udp _ => None end.
Definition asked_at (e : b_event) : option (nat * str) := match e with udp (Udp.received client time _) => Some (client, time) | _ => None end.

Lemma b_step_log e st st' : b_inv st -> b_step e st = Some (returns st') ->
  Tcp.accepts st'.1 = Tcp.accepts st.1 ++ option_list (accepted_at e) /\ Udp.asked st'.2 = Udp.asked st.2 ++ option_list (asked_at e).
Proof.
  intros (Ht & Hl & _). destruct e as [e|e]; cbn [b_step accepted_at asked_at].
  - destruct (Tcp.t_step e st.1) as [[s'| |]|] eqn:He; try done. intros [= <-]. cbn. rewrite app_nil_r. split; [|done].
    by apply (tcp_step_log e st.1 s').
  - rewrite app_nil_r. destruct e as [client time ok| |k ok]; cbn [Udp.u_step].
    + destruct (Udp.receiving st.2); [|done]. by intros [= <-].
    + destruct (Udp.receiving st.2); [|done]. intros [= <-]. cbn. by rewrite app_nil_r.
    + destruct (Udp.sends st.2 !! k) as [[client m]|]; [|done]. cbn. destruct (Udp.messages st.2 !! m); [|done]. intros [= <-]. cbn. by rewrite app_nil_r.
Qed.

Lemma b_run_log es st st' : b_inv st -> run b_step es st = Some (returns st') ->
  Tcp.accepts st'.1 = Tcp.accepts st.1 ++ omap accepted_at es /\ Udp.asked st'.2 = Udp.asked st.2 ++ omap asked_at es.
Proof.
  revert st. induction es as [|e es IH]; intros st Hst; cbn [run]; [intros [= <-]; by rewrite !app_nil_r|].
  destruct (b_step e st) as [o|] eqn:He; [|done]. destruct (b_step_inv e st o I Hst He) as (st1 & -> & Hst1). cbn [mbind option_bind].
  intros Hrun. destruct (b_step_log e st st1 Hst He) as [H1 H2]. destruct (IH st1 Hst1 Hrun) as [-> ->]. rewrite H1, H2, <- !app_assoc.
  split; f_equal; cbn; [by destruct (accepted_at e)|by destruct (asked_at e)].
Qed.

(** C20: [daytime7], and with only the events of one part [daytime3] and [daytime6]:
    whatever the order of the completions, no operation uses memory that was freed
    and none is leaked; the acceptor always waits; each TCP client has one connection
    and is sent the text of the moment it was accepted, or a beginning of it if its
    write fails; each UDP client is answered at most once for each datagram, with the
    text of the moment it asked. *)
Theorem daytime_servers es o :
  run b_step es b_start = Some o -> exists tcp udp, o = returns (tcp, udp) /\ tcp_ok tcp /\ udp_ok udp /\
    Tcp.accepts tcp = omap accepted_at es /\ Udp.asked udp = omap asked_at es.
Proof.
  intros Hrun. assert (Hstart : b_inv b_start) by (split_and!; [apply t_start_inv|apply t_start_log|apply u_start_inv]).
  destruct (runs_inv b_step (fun _ => True) b_inv b_step_inv es b_start o) as ([t u] & -> & Ht & Hl & Hu); [by apply Forall_true|done..|].
  exists t, u. destruct (b_run_log es b_start (t, u) Hstart Hrun) as [H1 H2].
  split_and!; [done|by apply t_inv_ok|by eapply u_inv_ok|done|done].
Qed.

End both.

(** [5...fork_daemon.cpp] answers in order and never stops receiving. *)
Theorem daemon_answers es o :
  run (Udp.u_step Udp.daemon) es Udp.u_start = Some o ->
  exists st, o = returns st /\ Udp.receiving st = true /\ Udp.answered st `sublist_of` Udp.asked st.
Proof.
  intros Hrun. destruct (runs_inv (Udp.u_step Udp.daemon) (fun _ => True) (u_inv Udp.daemon) (u_step_inv _) es Udp.u_start o)
    as (st & -> & [_ _ (Hr & _ & Hs)]); [by apply Forall_true|apply u_start_inv|done|]. by exists st.
Qed.

(** [daytime6] does: after a failed receive nobody is answered any more, and [run]
    returns when the last answer is sent. *)
Theorem udp_stops es es' st st' :
  run (Udp.u_step Udp.asynchronous) es Udp.u_start = Some (returns st) ->
  run (Udp.u_step Udp.asynchronous) (Udp.receive_failed :: es') st = Some (returns st') ->
  Udp.asked st' = Udp.asked st /\ (Udp.sends st' = [] -> Udp.u_idle st' = true).
Proof.
  intros _. cbn [run Udp.u_step]. destruct (Udp.receiving st); [|done]. cbn [mbind option_bind].
  intros H. apply u_deaf in H as [Hr Ha]; [|done]. split; [done|]. intros Hs. unfold Udp.u_idle. by rewrite Hr, Hs.
Qed.

(** ** The daemon *)

Section daemon.
Import Daemon.

Lemma least_free_spec fuel n k m :
  n <= k -> k - n <= fuel -> (forall j, n <= j < k -> is_Some (m !! j)) -> m !! k = None -> least_free fuel n m = k.
Proof.
  revert n. induction fuel as [|fuel IH]; intros n Hn Hf Hj Hk; cbn; [lia|].
  destruct (decide (n = k)) as [->|]; [by rewrite Hk|]. destruct (Hj n) as [t Ht]; [lia|]. rewrite Ht.
  apply IH; [lia..| |done]. intros j Hlt. apply Hj. lia.
Qed.

Lemma lowest_spec k m : (forall j, j < k -> is_Some (m !! j)) -> m !! k = None -> lowest m = k.
Proof.
  intros Hj Hk. unfold lowest. apply least_free_spec; [lia| |intros j ?; apply Hj; lia|done].
  rewrite Nat.sub_0_r, <- size_dom. etransitivity; [|apply (subseteq_size (set_seq (C := gset nat) 0 k))].
  - rewrite size_set_seq. done.
  - intros j Hin%elem_of_set_seq. apply elem_of_dom, Hj. lia.
Qed.

(** [5...fork_daemon.cpp]: the process goes on exactly if both forks give the child
    and no call fails; the parents end with status 0, errors with 1. Then its input
    is /dev/null, its output and errors go to one file, its other descriptors are as
    before, it does not lead its session, and it has no terminal and no
    directory to keep busy. The socket is lost if it is one of the first three. *)
Theorem daemon_ready a p :
  match daemonize a p with
  | returns p' =>
      a = Answers (Some false) (Some false) true true true /\
      p' = Proc (<[0 := dev_null]> (<[1 := log_file]> (<[2 := log_file]> (fds p)))) false false (lit "/") 0
  | exits code => a <> Answers (Some false) (Some false) true true true /\ (code = 0 <-> fork1 a = Some true \/ fork1 a = Some false /\ fork2 a = Some true)%Z
  | undefined => False
  end.
Proof.
  destruct a as [f1 f2 o1 o2 d]. unfold daemonize. cbn [fork1 fork2 open1 open2 dup_ok].
  destruct f1 as [[]|]; cbn [fork bind_outcome]; [naive_solver| |naive_solver].
  destruct f2 as [[]|]; cbn [fork bind_outcome]; [naive_solver| |naive_solver].
  destruct o1; cbn [negb]; [|naive_solver]. destruct o2; cbn [negb]; [|naive_solver].
  unfold open_fd, close_fd, setsid. cbn [fds leader has_terminal cwd umask].
  set (m0 := delete 2 (delete 1 (delete 0 (fds p)))).
  assert (Hm : forall i, i < 3 -> m0 !! i = None).
  { intros i Hi. unfold m0. destruct i as [|[|[|]]]; [| | |lia]; by rewrite ?lookup_delete_ne, ?lookup_delete_eq by done. }
  rewrite (lowest_spec 0 m0) by (intros; lia || apply Hm; lia). set (m1 := <[0:=dev_null]> m0).
  assert (H1 : m1 !! 1 = None) by (unfold m1; rewrite lookup_insert_ne by done; apply Hm; lia).
  assert (Hl1 : lowest m1 = 1).
  { apply lowest_spec; [|done]. intros j Hj. assert (j = 0) as -> by lia. unfold m1. rewrite lookup_insert_eq. by eexists. }
  rewrite Hl1, lookup_insert_eq. destruct d; [|naive_solver].
  assert (Hl2 : lowest (<[1:=log_file]> m1) = 2).
  { apply lowest_spec.
    - intros j Hj. assert (j = 0 \/ j = 1) as [->| ->] by lia; [rewrite lookup_insert_ne by done; unfold m1|]; rewrite lookup_insert_eq; by eexists.
    - unfold m1. rewrite !lookup_insert_ne by done. apply Hm. lia. }
  rewrite Hl2. split; [done|]. f_equal. apply map_eq. intros i. unfold m1, m0.
  destruct (decide (i = 0)) as [->|]; [by rewrite !lookup_insert_ne, !lookup_insert_eq by done|].
  destruct (decide (i = 1)) as [->|]; [rewrite lookup_insert_ne, lookup_insert_eq, lookup_insert_ne, lookup_insert_eq by done; done|].
  destruct (decide (i = 2)) as [->|]; [by rewrite lookup_insert_eq, !lookup_insert_ne, lookup_insert_eq by done|].
  by rewrite !lookup_insert_ne, !lookup_delete_ne by done.
Qed.

End daemon.

(** ** A process for each connection *)

Section per_connection.
Import PerConnection.

(** A child echoes: what it has not sent yet of what it received is the rest of the
    write under way. *)
Definition child_ok (c : child) : Prop :=
  match at_ c with
  | reading => said c = heard c
  | writing off len => exists before, heard c = before ++ take len (data_ c) /\ said c = before ++ take off (take len (data_ c))
  | zombie | reaped => said c `prefix_of` heard c
  end.

Record s_inv (st : server) : Prop := {
  si_parent : accepting st = true /\ waiting st = true /\ socket_ st = None;
  si_children : Forall child_ok (children st);
  si_zombies : Exists (fun c => at_ c = zombie) (children st) -> sigchld st = true }.

Lemma prefix_said c : child_ok c -> said c `prefix_of` heard c.
Proof.
  unfold child_ok. destruct (at_ c) as [|off len| |]; [by intros ->| |done..]. intros (b & -> & ->). apply prefix_app.
  set (t := take len (data_ c)). exists (drop off t). by rewrite take_drop.
Qed.

Lemma child_read_ok s c : child_ok c -> at_ c = reading -> child_ok (on_read s c).
Proof.
  unfold child_ok. intros Hc Ha. rewrite Ha in Hc. destruct s as [s|]; cbn; [|by rewrite Hc].
  exists (heard c). rewrite take_app_length, Hc, take_0, app_nil_r. done.
Qed.

Lemma child_write_ok off len n c : child_ok c -> at_ c = writing off len -> child_ok (on_write off len n c).
Proof.
  intros Hc Ha. pose proof (prefix_said c Hc) as Hp. unfold child_ok in *. rewrite Ha in Hc. destruct Hc as (b & Hh & Hs).
  destruct n as [n|]; cbn [on_write at_]; [|done].
  assert (Hsaid : said c ++ take n (drop off (take len (data_ c))) = b ++ take (off + n) (take len (data_ c))).
  { rewrite Hs, <- app_assoc. f_equal. apply take_take_drop. }
  cbn [said heard data_]. rewrite Hsaid. case_decide as Hlen; [|by exists b].
  rewrite Hh, take_ge; [done|]. rewrite length_take. lia.
Qed.

Lemma update_inv k c c' st :
  s_inv st -> children st !! k = Some c -> (child_ok c -> child_ok c') -> s_inv (update k c' st).
Proof.
  intros [Hp Hc Hz] Hk Hok. constructor; cbn [accepting waiting socket_ sigchld children update]; [done| |].
  - apply Forall_insert; [done|]. apply Hok. by eapply Forall_lookup_1 in Hk.
  - intros He. apply orb_true_iff. rewrite bool_decide_eq_true. destruct (decide (at_ c' = zombie)) as [|Hn]; [by right|left].
    apply Hz. apply Exists_exists in He as (x & Hx & Hxz). apply Exists_exists. exists x. split; [|done].
    apply list_elem_of_lookup in Hx as [j Hj]. destruct (decide (j = k)) as [->|].
    + rewrite list_lookup_insert_eq in Hj by (by eapply lookup_lt_Some). congruence.
    + rewrite list_lookup_insert_ne in Hj by done. by eapply list_elem_of_lookup_2.
Qed.

Lemma child_reap_ok c : child_ok c -> child_ok (reap c) /\ at_ (reap c) <> zombie /\ conn (reap c) = conn c.
Proof. unfold child_ok, reap. destruct c as [k [] d h s]; intros H; by split_and!. Qed.

Lemma s_step_ok e st st' : s_inv st -> s_step e st = Some st' -> s_inv st'.
Proof.
  intros Hst. pose proof Hst as [(Ha & Hw & Hs) Hc Hz]. destruct e as [o forked| |k s|k n]; cbn [s_step].
  - rewrite Ha. intros [= <-]. destruct o as [c|]; [|done]. destruct forked; constructor; cbn; [done| | |done..].
    + apply Forall_app. split; [done|]. by apply Forall_singleton.
    + intros He. apply Exists_app in He as [He|He]; [by apply Hz|]. by apply Exists_cons in He as [?|?%Exists_nil].
  - destruct (sigchld st && waiting st); [|done]. intros [= <-]. constructor; cbn; [done| |].
    + apply Forall_fmap. eapply Forall_impl; [exact Hc|]. intros c H. by apply child_reap_ok.
    + intros He. exfalso. apply Exists_fmap, Exists_exists in He as (c & Hin & Hx). rewrite Forall_forall in Hc. by apply (child_reap_ok c (Hc c Hin)) in Hx.
  - destruct (children st !! k) as [c|] eqn:Hk; [|done]. cbn [mbind option_bind]. destruct (at_ c) eqn:Hat; [|done..]. intros [= <-].
    eapply update_inv; [done..|]. intros H. by apply child_read_ok.
  - destruct (children st !! k) as [c|] eqn:Hk; [|done]. cbn [mbind option_bind]. destruct (at_ c) eqn:Hat; [done| |done..]. intros [= <-].
    eapply update_inv; [done..|]. intros H. by apply child_write_ok.
Qed.

Definition forked_of (e : s_event) : option nat := match e with accept_done (Some c) true => Some c | _ => None end.
Definition lost_of (e : s_event) : option nat := match e with accept_done (Some c) false => Some c | _ => None end.

Lemma s_step_conns e st st' :
  s_step e st = Some st' ->
  conn <$> children st' = (conn <$> children st) ++ option_list (forked_of e) /\ lost st' = lost st ++ option_list (lost_of e).
Proof.
  assert (Hup : forall k c c', children st !! k = Some c -> conn c' = conn c ->
    conn <$> children (update k c' st) = (conn <$> children st) ++ [] /\ lost (update k c' st) = lost st ++ []).
  { intros k c c' Hk Hc. rewrite !app_nil_r. cbn. split; [|done]. rewrite list_fmap_insert, Hc. apply list_insert_id. by rewrite list_lookup_fmap, Hk. }
  destruct e as [o forked| |k s|k n]; cbn [s_step].
  - destruct (accepting st); [|done]. intros [= <-]. destruct o as [c|], forked; cbn; rewrite ?app_nil_r, ?fmap_app; done.
  - destruct (sigchld st && waiting st); [|done]. intros [= <-]. cbn. rewrite !app_nil_r. split; [|done].
    rewrite <- list_fmap_compose. apply list_fmap_ext. intros i c _. cbn. unfold reap. by destruct (at_ c).
  - destruct (children st !! k) as [c|] eqn:Hk; [|done]. cbn [mbind option_bind]. destruct (at_ c) eqn:Hat; [|done..]. intros [= <-].
    apply (Hup k c); [done|]. by destruct s.
  - destruct (children st !! k) as [c|] eqn:Hk; [|done]. cbn [mbind option_bind]. destruct (at_ c) eqn:Hat; [done| |done..]. intros [= <-].
    apply (Hup k c); [done|]. by destruct n.
Qed.

Lemma s_run_ok es st st' :
  s_inv st -> s_run es st = Some st' ->
  s_inv st' /\ conn <$> children st' = (conn <$> children st) ++ omap forked_of es /\ lost st' = lost st ++ omap lost_of es.
Proof.
  revert st. induction es as [|e es IH]; intros st Hst; cbn; [intros [= ->]; by rewrite !app_nil_r|].
  destruct (s_step e st) as [st1|] eqn:He; [|done]. cbn. intros H. destruct (s_step_conns e st st1 He) as [H1 H2].
  apply IH in H as (Hi & Hc & Hl); [|by eapply s_step_ok]. split; [done|]. rewrite Hc, Hl, H1, H2, <- !app_assoc.
  by destruct (forked_of e), (lost_of e).
Qed.

(** [process_per_connection.cpp]: in every order of the completions the parent keeps
    accepting and waiting for signals and keeps no connection; every accepted
    connection has one child, or is lost where [fork] fails; each child sends back
    what it receives; and when children have ended, their signal is waiting to be
    handled, and the handler leaves no zombie. *)
Theorem process_per_connection es st :
  s_run es s_start = Some st ->
  accepting st = true /\ waiting st = true /\ socket_ st = None /\
  conn <$> children st = omap forked_of es /\ lost st = omap lost_of es /\
  Forall (fun c => said c `prefix_of` heard c /\ (at_ c = reading -> said c = heard c)) (children st) /\
  (Exists (fun c => at_ c = zombie) (children st) ->
     exists st', s_step signalled st = Some st' /\ Forall (fun c => at_ c <> zombie) (children st')).
Proof.
  intros Hrun. apply s_run_ok in Hrun as ([(Ha & Hw & Hs) Hc Hz] & Hconn & Hlost).
  - split_and!; [done..| |].
    + eapply Forall_impl; [exact Hc|]. intros c H. split; [by apply prefix_said|]. intros Hr. unfold child_ok in H. by rewrite Hr in H.
    + intros He. cbn [s_step]. rewrite (Hz He), Hw. cbn. eexists. split; [done|]. cbn. apply Forall_fmap.
      eapply Forall_impl; [exact Hc|]. intros c H. by apply child_reap_ok.
  - constructor; [done|constructor|]. by intros ?%Exists_nil.
Qed.

End per_connection.

(** ** Examples *)

Lemma daytime_servers_witness : exists tcp udp,
  run Both.b_step [Both.tcp (Tcp.accept_done false (lit "noon")); Both.tcp (Tcp.wrote 0 2); Both.udp (Udp.received 7 (lit "one") true);
      Both.udp (Udp.send_done 0 true); Both.tcp (Tcp.wrote 0 2)] Both.b_start = Some (returns (tcp, udp)) /\
  Tcp.destroyed tcp = [(Tcp.Conn (lit "noon") (Some 0) (lit "noon"), true)] /\ Udp.answered udp = [(7, lit "one")] /\ tcp_ok tcp.
Proof.
  destruct (run Both.b_step [Both.tcp (Tcp.accept_done false (lit "noon")); Both.tcp (Tcp.wrote 0 2); Both.udp (Udp.received 7 (lit "one") true);
      Both.udp (Udp.send_done 0 true); Both.tcp (Tcp.wrote 0 2)] Both.b_start) as [o|] eqn:Hr; [|by vm_compute in Hr].
  destruct (daytime_servers _ o Hr) as (tcp & udp & -> & Ht & _). exists tcp, udp. split; [done|].
  vm_compute in Hr. injection Hr as <- <-. split_and!; [reflexivity|reflexivity|exact Ht].
Defined.

(** A server that was started without an input loses its socket. *)
Lemma daemon_loses_socket :
  match Daemon.daemonize (Daemon.Answers (Some false) (Some false) true true true)
      (Daemon.Proc {[0 := Daemon.socket; 1 := Daemon.terminal; 2 := Daemon.terminal]} true true (lit "/home") 18) with
  | returns p => Daemon.fds p = {[0 := Daemon.dev_null; 1 := Daemon.log_file; 2 := Daemon.log_file]}
  | _ => False
  end.
Proof. vm_compute. reflexivity. Qed.

(** A child that ends becomes a zombie until the handler runs. *)
Lemma process_per_connection_witness : exists st,
  PerConnection.s_run [PerConnection.accept_done (Some 9) true; PerConnection.read_done 0 (Some (lit "hi")); PerConnection.wrote 0 (Some 2);
      PerConnection.read_done 0 None] PerConnection.s_start = Some st /\
  Exists (fun c => PerConnection.at_ c = PerConnection.zombie) (PerConnection.children st) /\
  exists st', PerConnection.s_step PerConnection.signalled st = Some st' /\ Forall (fun c => PerConnection.at_ c <> PerConnection.zombie) (PerConnection.children st').
Proof.
  destruct (PerConnection.s_run [PerConnection.accept_done (Some 9) true; PerConnection.read_done 0 (Some (lit "hi")); PerConnection.wrote 0 (Some 2);
      PerConnection.read_done 0 None] PerConnection.s_start) as [st|] eqn:Hr; [|by vm_compute in Hr].
  exists st. split; [done|]. assert (Hz : Exists (fun c => PerConnection.at_ c = PerConnection.zombie) (PerConnection.children st)).
  { vm_compute in Hr. injection Hr as <-. by left. }
  split; [done|]. by apply (process_per_connection _ st Hr).
Defined.

Lemma daemon_answers_witness : exists st,
  run (Udp.u_step Udp.daemon) [Udp.received 7 (lit "one") true; Udp.receive_failed; Udp.received 8 (lit "two") false] Udp.u_start = Some (returns st) /\
  Udp.receiving st = true.
Proof.
  destruct (run (Udp.u_step Udp.daemon) [Udp.received 7 (lit "one") true; Udp.receive_failed; Udp.received 8 (lit "two") false] Udp.u_start) as [o|] eqn:Hr; [|by vm_compute in Hr].
  destruct (daemon_answers _ o Hr) as (st & -> & H & _). by exists st.
Defined.
