(* ===== verification/ForkSamples.v ===== *)
(** * ForkSamples: orphans, zombies, a daemon

    Models [linux*/01*.cpp], [02*.cpp], [orphan_process.cpp] and [daemond.cpp]: a process
    and its child, each with its own memory and its own buffer of [printf], and what the
    kernel does when they end; and a process that leaves its session, with the
    descriptors of [AsioServers]. *)
From S2P Require Import Prelude AsioServers.

(** ** A process and its child *)

Module Pair.

(** The lines of the three programs. *)
Inductive what := before_fork | parent_line | abc_line | child_line | end_parent | end_child | fork_after.
#[export] Instance what_eq_dec : EqDecision what.
Proof. solve_decision. Defined.

(** A text that is printed, the numbers in it, and whether a newline ends it. *)
Record text := Text { says : what; numbers : list nat; ended : bool }.

Inductive instr :=
  | increment                        (* abc++ *)
  | print (w : what) (newline : bool)
  | sleep
  | leave.                           (* exit(0), the end of main *)

(** [signal(SIGCHLD, SIG_IGN)]; what follows [fork] in the parent, in the child, and in
    the process alone if it fails. *)
Record program := Program { ignored : bool; in_parent : list instr; in_child : list instr; on_error : list instr }.

(** [01*.cpp], [02*.cpp] and [orphan_process.cpp]. *)
Definition orphan : program :=
  Program true [increment; print parent_line true; print abc_line true; sleep; print fork_after true; leave]
    [increment; print child_line true; print abc_line false; sleep; print fork_after true; leave] [leave].
Definition zombie_program : program :=
  Program false [increment; print parent_line true; print abc_line true; sleep; print fork_after true; leave]
    [increment; print child_line true; print abc_line false; leave] [leave].
Definition orphan_process : program :=
  Program false [print parent_line true; sleep; print end_parent true; print fork_after true; leave]
    [print child_line true; sleep; print end_child true; print fork_after true; leave] [print fork_after true; leave].

Inductive status := running | zombie | gone.

Record proc := Proc { pid : nat; ppid : nat; abc : nat; buf : list text; code : list instr; state : status }.

(** The process, its child if there is one, and what has been written. *)
Record world := World { parent : proc; kid : option proc; out : list text; forked : bool }.

(** The process, its child and the shell; 1 is the first process of the system. *)
Record pids := Pids { own : nat; kids : nat; shell : nat }.

(** Standard output is line buffered on a terminal and fully buffered in a file; the
    texts are far from filling the buffer. *)
Definition printf (tty : bool) (t : text) (p : proc) (o : list text) : proc * list text :=
  let b := buf p ++ [t] in
  if tty && ended t then (Proc (pid p) (ppid p) (abc p) [] (code p) (state p), o ++ b)
  else (Proc (pid p) (ppid p) (abc p) b (code p) (state p), o).

Definition numbers_of (w : what) (p : proc) : list nat :=
  match w with
  | before_fork | parent_line | end_parent => [pid p]
  | abc_line => [abc p]
  | child_line | end_child => [pid p; ppid p]
  | fork_after => []
  end.

Definition set_code (cs : list instr) (p : proc) : proc := Proc (pid p) (ppid p) (abc p) (buf p) cs (state p).
Definition set_state (s : status) (p : proc) : proc := Proc (pid p) (ppid p) (abc p) (buf p) (code p) s.
Definition set_ppid (n : nat) (p : proc) : proc := Proc (pid p) n (abc p) (buf p) (code p) (state p).

Definition start (tty : bool) (q : pids) : world :=
  let '(p, o) := printf tty (Text before_fork [own q] true) (Proc (own q) (shell q) 0 [] [] running) [] in
  World (Proc (pid p) (ppid p) 10 (buf p) [] running) None o false.

(** An instruction of a process other than [leave]: the process and what is written. *)
Definition proc_step (tty : bool) (p : proc) (o : list text) : option (proc * list text) :=
  match state p, code p with
  | running, increment :: cs => Some (Proc (pid p) (ppid p) (S (abc p)) (buf p) cs running, o)
  | running, print w nl :: cs => Some (printf tty (Text w (numbers_of w p) nl) (set_code cs p) o)
  | running, sleep :: cs => Some (set_code cs p, o)
  | _, _ => None
  end.

Definition leaves (p : proc) : bool := match state p, code p with running, leave :: _ => true | _, _ => false end.
Definition flushed (s : status) (p : proc) : proc := Proc (pid p) (ppid p) (abc p) [] [] s.

(** [fork], with its success; a step of the parent, of the child. *)
Inductive event := fork (ok : bool) | in_the_parent | in_the_kid.

(** The end of the parent: the child has the first process as its parent, which collects
    it if it has ended. *)
Definition adopt (c : proc) : proc := set_ppid 1 (match state c with zombie => set_state gone c | _ => c end).

Definition step (g : program) (tty : bool) (q : pids) (e : event) (w : world) : option world :=
  match e with
  | fork ok =>
      if forked w then None
      else if ok then Some (World (set_code (in_parent g) (parent w)) (Some (Proc (kids q) (own q) (abc (parent w)) (buf (parent w)) (in_child g) running)) (out w) true)
      else Some (World (set_code (on_error g) (parent w)) None (out w) true)
  | in_the_parent =>
      if negb (forked w) then None
      else if leaves (parent w) then Some (World (flushed gone (parent w)) (adopt <$> kid w) (out w ++ buf (parent w)) true)
      else '(p, o) ← proc_step tty (parent w) (out w); Some (World p (kid w) o true)
  | in_the_kid =>
      c ← kid w;
      if leaves c then
        let s := match state (parent w) with gone => gone | _ => if ignored g then gone else zombie end in
        Some (World (parent w) (Some (flushed s c)) (out w ++ buf c) true)
      else '(c', o) ← proc_step tty c (out w); Some (World (parent w) (Some c') o true)
  end.

Fixpoint run (g : program) (tty : bool) (q : pids) (es : list event) (w : world) : option world :=
  match es with [] => Some w | e :: es' => w' ← step g tty q e w; run g tty q es' w' end.

End Pair.

Section pair.
Import Pair.
Context (g : program) (tty : bool) (q : pids).

(** A code that ends, prints no first line, and shows 11 as [abc]. *)
Fixpoint well_coded (n : nat) (cs : list instr) : bool :=
  match cs with
  | [] => false
  | [leave] => true
  | leave :: _ => false
  | increment :: cs' => well_coded (S n) cs'
  | print w _ :: cs' => bool_decide (w <> before_fork) && (bool_decide (w <> abc_line) || (n =? 11)) && well_coded n cs'
  | sleep :: cs' => well_coded n cs'
  end.

Definition is_before (t : text) : nat := if decide (says t = before_fork) then 1 else 0.
Definition befores (ts : list text) : nat := sum_list (is_before <$> ts).
Arguments befores ts : simpl never.
Definition abc_11 (t : text) : Prop := says t = abc_line -> numbers t = [11].

Record proc_ok (p : proc) : Prop := {
  po_code : state p = running -> well_coded (abc p) (code p) = true;
  po_end : state p <> running -> buf p = [];
  po_abc : Forall abc_11 (buf p) }.

Definition kid_befores (w : world) : nat := match kid w with Some c => befores (buf c) | None => 0 end.

(** How often the first line is there, in buffers or written. *)
Definition total_befores (w : world) : nat := befores (out w) + befores (buf (parent w)) + kid_befores w.

Record w_ok (w : world) : Prop := {
  wo_before : forked w = false -> kid w = None /\ state (parent w) = running /\ abc (parent w) = 10 /\ Forall abc_11 (buf (parent w)) /\
    befores (buf (parent w)) = (if tty then 0 else 1);
  wo_parent : forked w = true -> proc_ok (parent w) /\ state (parent w) <> zombie;
  wo_kid : forall c, kid w = Some c -> proc_ok c /\ (state c = zombie -> ignored g = false /\ state (parent w) = running) /\
    pid c = kids q /\ ppid c = (match state (parent w) with gone => 1 | _ => own q end);
  wo_out : Forall abc_11 (out w);
  wo_count : total_befores w = (if tty then 1 else match kid w with Some _ => 2 | None => 1 end) }.

Lemma befores_app a b : befores (a ++ b) = befores a + befores b.
Proof. unfold befores. rewrite fmap_app. apply (sum_list_with_app id). Qed.

(** An instruction keeps a process in order and prints no first line. *)
Lemma proc_step_ok p o p' o' : proc_ok p -> Forall abc_11 o -> proc_step tty p o = Some (p', o') ->
  proc_ok p' /\ Forall abc_11 o' /\ befores o' + befores (buf p') = befores o + befores (buf p) /\ state p = running /\ state p' = running /\
  pid p' = pid p /\ ppid p' = ppid p /\ length (code p) = S (length (code p')).
Proof.
  intros [Hc He Ha] Ho. unfold proc_step. destruct (state p) eqn:Hs; try done. specialize (Hc eq_refl). destruct (code p) as [|i cs] eqn:Hcode; [done|].
  destruct i as [|w nl| |]; cbn in Hc; [..|done].
  - intros [= <- <-]; cbn. split_and!; done.
  - intros H. apply andb_true_iff in Hc as [[Hw Habc]%andb_true_iff Hc]. apply bool_decide_eq_true in Hw.
    assert (Ht : abc_11 (Text w (numbers_of w p) nl)).
    { intros Hsays. cbn in Hsays. subst w. cbn in Habc. apply Nat.eqb_eq in Habc. cbn. by rewrite Habc. }
    assert (Hz : befores [Text w (numbers_of w p) nl] = 0) by (unfold befores, is_before; cbn; by rewrite decide_False).
    unfold printf in H. cbn [buf set_code] in H. destruct (tty && ended _); simplify_eq; cbn.
    + assert (proc_ok (Proc (pid p) (ppid p) (abc p) [] cs (state p))) by (split; cbn; [by rewrite Hs|done|constructor]).
      split_and!; try done; [by repeat apply Forall_app_2; [| |apply Forall_singleton]|].
      rewrite !befores_app, Hz. change (befores []) with 0. lia.
    + assert (Forall abc_11 (buf p ++ [Text w (numbers_of w p) nl])) by (apply Forall_app_2; [done|by apply Forall_singleton]).
      assert (proc_ok (Proc (pid p) (ppid p) (abc p) (buf p ++ [Text w (numbers_of w p) nl]) cs (state p))) by (split; cbn; [done|by rewrite Hs|done]).
      split_and!; try done. rewrite befores_app, Hz. lia.
  - intros [= <- <-]; cbn. split_and!; done.
Qed.

(** A process that ends is written out. *)
Lemma leaves_ok p s : leaves p = true -> s <> running -> proc_ok (flushed s p) /\ state p = running.
Proof. unfold leaves. by destruct (state p). Qed.

Hypothesis Hparent : well_coded 10 (in_parent g) = true.
Hypothesis Hchild : well_coded 10 (in_child g) = true.
Hypothesis Herror : well_coded 10 (on_error g) = true.

Lemma kid_ok_adopt c : (proc_ok c /\ (state c = zombie -> ignored g = false /\ running = running) /\ pid c = kids q /\ ppid c = own q) ->
  proc_ok (adopt c) /\ (state (adopt c) = zombie -> False) /\ pid (adopt c) = kids q /\ ppid (adopt c) = 1 /\ buf (adopt c) = buf c.
Proof.
  intros ([Hc He Ha] & _ & Hp & _). unfold adopt. destruct (state c) eqn:Hs; (split; [split; cbn; rewrite ?Hs; auto; try done|]); cbn; rewrite ?Hs; done.
Qed.

Lemma pair_step_ok e w w' : w_ok w -> step g tty q e w = Some w' -> w_ok w'.
Proof.
  intros [Hb Hp Hk Ho Hn]. destruct e as [ok| |]; cbn.
  - destruct (forked w) eqn:Hf; [done|]. destruct (Hb eq_refl) as (Hkid & Hrun & Habc & Hbuf & Hcount). unfold total_befores, kid_befores in Hn. rewrite Hkid in Hn.
    assert (Hok : forall p, abc p = 10 -> buf p = buf (parent w) -> (well_coded 10 (code p) = true) -> state p = running -> proc_ok p).
    { intros p H1 H2 H3 H4. split; [intros _; by rewrite H1|congruence|by rewrite H2]. }
    destruct ok; intros [= <-]; split; cbn; try done.
    + intros _. split; [|congruence]. by apply Hok.
    + intros c [= <-]. cbn. rewrite Hrun. split_and!; [by apply Hok|done..].
    + unfold total_befores, kid_befores. cbn. rewrite Hcount in *. destruct tty; lia.
    + intros _. split; [|congruence]. by apply Hok.
  - destruct (forked w) eqn:Hf; cbn; [|done]. destruct (Hp eq_refl) as [Hpok Hnz]. destruct (leaves (parent w)) eqn:Hl.
    + intros [= <-]. destruct (leaves_ok _ gone Hl ltac:(done)) as [Hfl Hrun]. split; cbn; [done|done| | |].
      * intros c (c0 & Hc & ->)%fmap_Some_1. specialize (Hk c0 Hc). rewrite Hrun in Hk. destruct (kid_ok_adopt c0 Hk) as (H1 & H2 & H3 & H4 & _).
        split_and!; [done|by intros ?%H2|done|done].
      * apply Forall_app_2; [done|apply (po_abc _ Hpok)].
      * unfold total_befores, kid_befores in *. cbn -[adopt]. rewrite befores_app. change (befores []) with 0. destruct (kid w) as [c|] eqn:Hkid; cbn -[adopt].
        -- specialize (Hk c eq_refl). rewrite Hrun in Hk. destruct (kid_ok_adopt c Hk) as (_ & _ & _ & _ & ->). lia.
        -- lia.
    + destruct (proc_step tty (parent w) (out w)) as [[p o]|] eqn:Hs; [|done]. cbn. intros [= <-].
      destruct (proc_step_ok _ _ _ _ Hpok Ho Hs) as (Hp' & Ho' & Hc' & Hr & Hr' & _).
      split; cbn; [done|intros _; split; [done|congruence]| |done|].
      * intros c Hc. specialize (Hk c Hc). rewrite Hr in Hk. by rewrite Hr'.
      * unfold total_befores, kid_befores in *. cbn. rewrite <- Hn. lia.
  - destruct (kid w) as [c|] eqn:Hkid; [|done]. cbn. destruct (Hk c eq_refl) as (Hcok & Hz & Hpid & Hppid).
    assert (Hf : forked w = true) by (destruct (forked w); [done|]; by destruct (Hb eq_refl)).
    destruct (leaves c) eqn:Hl.
    + intros [= <-]. set (s := match state (parent w) with gone => gone | _ => if ignored g then gone else zombie end).
      assert (Hs : s <> running) by (unfold s; destruct (state (parent w)), (ignored g); done). destruct (leaves_ok c s Hl Hs) as [Hfl Hrun].
      split; cbn; [done|intros _; by apply Hp| | |].
      * intros c2 [= <-]. split_and!; [done| |done|done]. cbn. unfold s. destruct (Hp Hf) as [_ Hnz]. destruct (state (parent w)), (ignored g); done.
      * apply Forall_app_2; [done|apply (po_abc _ Hcok)].
      * unfold total_befores, kid_befores in *. rewrite Hkid in Hn. cbn. rewrite befores_app. change (befores []) with 0. lia.
    + destruct (proc_step tty c (out w)) as [[c' o]|] eqn:Hs; [|done]. cbn. intros [= <-].
      destruct (proc_step_ok _ _ _ _ Hcok Ho Hs) as (Hc' & Ho' & Hcount & Hr & Hr' & Hpid' & Hppid' & _).
      split; cbn; [done|intros _; by apply Hp| |done|].
      * intros c2 [= <-]. split_and!; [done|congruence|congruence|congruence].
      * unfold total_befores, kid_befores in *. cbn. rewrite Hkid in Hn. rewrite <- Hn. lia.
Qed.

Lemma pair_start_ok : w_ok (start tty q).
Proof.
  assert (Hf : Forall abc_11 [Text before_fork [own q] true]) by by apply Forall_singleton.
  assert (Hn : Forall abc_11 []) by by apply Forall_nil.
  unfold start, printf. cbn. destruct tty eqn:Ht; cbn; split; cbn; try done; try (intros _; split_and!); first [done|by rewrite Ht].
Qed.

Lemma pair_run_ok es w w' : w_ok w -> run g tty q es w = Some w' -> w_ok w'.
Proof.
  revert w. induction es as [|e es IH]; intros w Hw; cbn [run]; [congruence|]. destruct (step g tty q e w) as [w1|] eqn:Hs; [|done]. cbn. apply IH. by eapply pair_step_ok.
Qed.

(** What is left to be executed. *)
Definition to_execute (w : world) : nat :=
  if forked w then length (code (parent w)) + match kid w with Some c => length (code c) | None => 0 end
  else S (length (in_parent g) + length (in_child g) + length (on_error g)).

Lemma leaves_length p : leaves p = true -> 1 <= length (code p).
Proof. unfold leaves. destruct (state p); try done. destruct (code p); [done|]. cbn. lia. Qed.

Lemma step_executes e w w' : w_ok w -> step g tty q e w = Some w' -> to_execute w' < to_execute w.
Proof.
  intros [Hb Hp Hk Ho _]. unfold to_execute. destruct e as [ok| |]; cbn.
  - destruct (forked w); [done|]. destruct ok; intros [= <-]; cbn; lia.
  - destruct (forked w) eqn:Hf; cbn; [|done]. destruct (leaves (parent w)) eqn:Hl.
    + intros [= <-]. apply leaves_length in Hl. cbn. destruct (kid w) as [c|]; cbn; [|lia]. destruct (state c); cbn; lia.
    + destruct (proc_step tty (parent w) (out w)) as [[p o]|] eqn:Hs; [|done]. cbn. intros [= <-].
      destruct (proc_step_ok _ _ _ _ (proj1 (Hp eq_refl)) Ho Hs) as (_ & _ & _ & _ & _ & _ & _ & Hlen). cbn. lia.
  - destruct (kid w) as [c|] eqn:Hkid; [|done]. cbn. destruct (Hk c eq_refl) as (Hcok & _).
    assert (Hf : forked w = true) by (destruct (forked w); [done|]; by destruct (Hb eq_refl)). rewrite Hf. destruct (leaves c) eqn:Hl.
    + intros [= <-]. apply leaves_length in Hl. cbn. lia.
    + destruct (proc_step tty c (out w)) as [[c' o]|] eqn:Hs; [|done]. cbn. intros [= <-].
      destruct (proc_step_ok _ _ _ _ Hcok Ho Hs) as (_ & _ & _ & _ & _ & _ & _ & Hlen). cbn. lia.
Qed.

Lemma run_executes es w w' : w_ok w -> run g tty q es w = Some w' -> length es + to_execute w' <= to_execute w.
Proof.
  revert w. induction es as [|e es IH]; intros w Hw; cbn [run]; [intros [= ->]; cbn; lia|].
  destruct (step g tty q e w) as [w1|] eqn:Hs; [|done]. cbn. intros H. specialize (IH w1 (pair_step_ok _ _ _ Hw Hs) H). pose proof (step_executes _ _ _ Hw Hs). lia.
Qed.

(** A process that runs has a next instruction. *)
Lemma proc_goes p o : proc_ok p -> state p = running -> leaves p = true \/ exists x, proc_step tty p o = Some x.
Proof.
  intros [Hc _ _] Hr. specialize (Hc Hr). unfold leaves, proc_step. rewrite Hr. destruct (code p) as [|i cs]; [done|]. destruct i; [right; by eexists..|by left].
Qed.

Definition all_gone (w : world) : Prop := forked w = true /\ state (parent w) = gone /\ forall c, kid w = Some c -> state c = gone.

Lemma pair_goes w : w_ok w -> all_gone w \/ exists e w', step g tty q e w = Some w'.
Proof.
  intros [Hb Hp Hk Ho _]. destruct (forked w) eqn:Hf; [|right; exists (fork true); cbn; rewrite Hf; by eexists].
  destruct (Hp eq_refl) as [Hpok Hnz]. destruct (state (parent w)) eqn:Hs; [|done|].
  - right. exists in_the_parent. cbn. rewrite Hf. cbn. destruct (proc_goes _ (out w) Hpok Hs) as [->|[[p o] ->]]; [by eexists|].
    destruct (leaves _); by eexists.
  - destruct (kid w) as [c|] eqn:Hkid; [|left; split_and!; [done|done|congruence]]. destruct (Hk c eq_refl) as (Hcok & Hz & _).
    destruct (state c) eqn:Hc; [|by destruct (Hz eq_refl)|left; split_and!; [done|done|congruence]].
    right. exists in_the_kid. cbn. rewrite Hkid. cbn. destruct (proc_goes c (out w) Hcok Hc) as [->|[[p o] ->]]; [by eexists|]. destruct (leaves c); by eexists.
Qed.
End pair.

Definition samples (g : Pair.program) : Prop := g = Pair.orphan \/ g = Pair.zombie_program \/ g = Pair.orphan_process.

(** The three programs, in any interleaving of parent and child, on a terminal or into a
    file: they come to their ends; each process has its own [abc], which is shown as
    11; a child that has ended is a zombie only while its parent runs and does not ignore
    SIGCHLD; a child whose parent has ended belongs to the first process. The line before [fork] is written once on a terminal
    and twice into a file, where both processes have it in their buffers. *)
Theorem fork_samples g tty q es w :
  samples g -> Pair.run g tty q es (Pair.start tty q) = Some w ->
  length es <= 15 /\
  (all_gone w \/ exists e w', Pair.step g tty q e w = Some w') /\
  Forall abc_11 (Pair.out w) /\
  (forall c, Pair.kid w = Some c -> Pair.ppid c = (match Pair.state (Pair.parent w) with Pair.gone => 1 | _ => Pair.own q end) /\
     (Pair.state c = Pair.zombie -> Pair.ignored g = false /\ Pair.state (Pair.parent w) = Pair.running)) /\
  (all_gone w -> befores (Pair.out w) = if tty then 1 else match Pair.kid w with Some _ => 2 | None => 1 end).
Proof.
  intros Hg Hr.
  assert (H : well_coded 10 (Pair.in_parent g) = true /\ well_coded 10 (Pair.in_child g) = true /\ well_coded 10 (Pair.on_error g) = true) by (by destruct Hg as [->|[->| ->]]).
  destruct H as (H1 & H2 & H3). pose proof (pair_run_ok g tty q H1 H2 H3 es _ w (pair_start_ok g tty q) Hr) as Hw. split_and!.
  - pose proof (run_executes g tty q H1 H2 H3 es _ w (pair_start_ok g tty q) Hr) as Hl.
    assert (Hb : to_execute g (Pair.start tty q) <= 15) by (by destruct Hg as [->|[->| ->]], tty; vm_compute; lia). lia.
  - by apply (pair_goes g tty q).
  - apply (wo_out _ _ _ _ Hw).
  - intros c Hc. destruct (wo_kid _ _ _ _ Hw c Hc) as (_ & Hz & _ & Hp). by split.
  - intros (Hf & Hp & Hk). pose proof (wo_count _ _ _ _ Hw) as Hn. unfold total_befores, kid_befores in Hn.
    rewrite (po_end _ (proj1 (wo_parent _ _ _ _ Hw Hf))) in Hn by congruence. change (befores []) with 0 in Hn. destruct (Pair.kid w) as [c|] eqn:Hkid; [|lia].
    destruct (wo_kid _ _ _ _ Hw c Hkid) as [Hc _]. rewrite (po_end _ Hc) in Hn by (rewrite (Hk c eq_refl); done). change (befores []) with 0 in Hn. lia.
Qed.

(** The zombie, seen while its parent sleeps, then gone with it; the output of a file. *)
Lemma fork_samples_witness :
  let q := Pair.Pids 7 8 5 in
  let es := [Pair.fork true] ++ replicate 4 Pair.in_the_kid ++ replicate 6 Pair.in_the_parent in
  exists w, Pair.run Pair.zombie_program false q es (Pair.start false q) = Some w /\ befores (Pair.out w) = 2 /\ Forall abc_11 (Pair.out w).
Proof.
  cbv zeta.
  assert (H : exists w, Pair.run Pair.zombie_program false (Pair.Pids 7 8 5) ([Pair.fork true] ++ replicate 4 Pair.in_the_kid ++ replicate 6 Pair.in_the_parent)
    (Pair.start false (Pair.Pids 7 8 5)) = Some w /\ Pair.forked w = true /\ Pair.state (Pair.parent w) = Pair.gone /\ (Pair.state <$> Pair.kid w) = Some Pair.gone).
  { eexists. split; [vm_compute; reflexivity|]. vm_compute. repeat split. }
  destruct H as (w & Hr & Hf & Hp & Hk). exists w. split; [exact Hr|].
  destruct (fork_samples Pair.zombie_program false _ _ w (or_intror (or_introl eq_refl)) Hr) as (_ & _ & Ha & _ & Hb). split; [|exact Ha].
  destruct (Pair.kid w) as [c|] eqn:Hkid; [|discriminate Hk]. injection Hk as Hk. apply Hb. split; [exact Hf|]. split; [exact Hp|].
  intros c' Hc'. rewrite Hkid in Hc'. injection Hc' as <-. exact Hk.
Defined.

(** Until the parent ends the child is a zombie in [02*.cpp]; in [01*.cpp] it is not. *)
Example child_zombie :
  (Pair.state <$> (w ← Pair.run Pair.zombie_program true (Pair.Pids 7 8 5) ([Pair.fork true] ++ replicate 4 Pair.in_the_kid) (Pair.start true (Pair.Pids 7 8 5)); Pair.kid w)) = Some Pair.zombie /\
  (Pair.state <$> (w ← Pair.run Pair.orphan true (Pair.Pids 7 8 5) ([Pair.fork true] ++ replicate 6 Pair.in_the_kid) (Pair.start true (Pair.Pids 7 8 5)); Pair.kid w)) = Some Pair.gone.
Proof. split; vm_compute; reflexivity. Qed.

(** ** The daemon ([daemond.cpp]) *)

Module Daemond.
Import AsioServers.Daemon.

(** What the calls give: [fork] ([Some true] in the parent), the two [open]s. *)
Record answers := Answers { fork_ : option bool; null_open : bool; log_open : bool }.

(** [dup2(fd, n)] of an open descriptor; -1 is [None], and the call fails. *)
Definition dup2 (fd : option nat) (n : nat) (p : proc) : proc :=
  match (i ← fd; fds p !! i) with
  | Some t => Proc (<[n := t]> (fds p)) (leader p) (has_terminal p) (cwd p) (umask p)
  | None => p
  end.

(** After an error of [fork] the process goes on; [setsid] fails for the leader of a
    process group, which the process is unless it is the child. *)
Definition mydaemond (a : answers) (p : proc) : outcome proc :=
  match fork_ a with
  | Some true => exits 0
  | f =>
      let p := match f with None => p | _ => setsid p end in
      let p := close_fd 0 (Proc (fds p) (leader p) (has_terminal p) (lit "/") 2) in
      let fd0 := if null_open a then Some (lowest (fds p)) else None in
      let p := if null_open a then open_fd dev_null p else p in
      returns (dup2 fd0 2 (dup2 fd0 1 p))
  end.

(** A descriptor as [%d] shows it; an error is -1. [sprintf(tmp, "%d\n", fd)] writes it,
    a newline and a null into [char tmp[2]]. *)
Definition number (fd : option nat) : str := match fd with Some n => to_string (N.of_nat n) | None => lit "-1" end.
Definition sprintf_fits (fd : option nat) : bool := (length (number fd) + 2 <=? 2)%nat.

(** [for(int i=0;i<3;++i)]: what the log gets; [times] are the lines of [asctime]. *)
Fixpoint log_loop (times : list str) (fd : option nat) (log : str) : outcome str :=
  match times with
  | [] => returns log
  | time :: times' =>
      let put s log := match fd with Some _ => log ++ s | None => log end in
      if sprintf_fits fd then log_loop times' fd (put (number fd ++ [LF]) (put time log)) else undefined
  end.

Definition main (a : answers) (times : list str) (p : proc) : outcome str :=
  bind_outcome (mydaemond a p) (fun p => log_loop times (if log_open a then Some (lowest (fds p)) else None) []).

End Daemond.

Section daemond.
Import AsioServers.Daemon.

Lemma lowest_closed (m : gmap nat target) : lowest (delete 0 m) = 0.
Proof. apply lowest_spec; [lia|apply lookup_delete_eq]. Qed.

Lemma never_fits fd : Daemond.sprintf_fits fd = false.
Proof.
  apply Nat.leb_gt. destruct fd as [n|]; unfold Daemond.number; [|vm_compute; lia].
  pose proof (to_string_ne (N.of_nat n)) as Hn. destruct (to_string (N.of_nat n)); [done|]. cbn [length]. lia.
Qed.

(** The parent ends with status 0. The child has a session of its own without terminal,
    and /dev/null for its input, output and errors, if that could be opened; without it
    the input is closed and the outputs are as before. After an error of [fork] the
    process goes on all the same and keeps its session and its terminal. *)
Theorem daemond_ready a p :
  Daemond.mydaemond a p =
    match Daemond.fork_ a with
    | Some true => exits 0
    | f =>
        let fds := fds p in
        returns (Proc
          (if Daemond.null_open a then <[2 := dev_null]> (<[1 := dev_null]> (<[0 := dev_null]> fds)) else delete 0 fds)
          (match f with None => leader p | _ => true end) (match f with None => has_terminal p | _ => false end) (lit "/") 2)
    end.
Proof.
  destruct a as [f n l]. unfold Daemond.mydaemond. cbn [Daemond.fork_ Daemond.null_open]. destruct f as [[]|]; [done| |]; destruct n; cbv zeta;
    unfold Daemond.dup2, open_fd, close_fd, setsid;
    cbn [mbind option_bind fds leader has_terminal cwd umask];
    rewrite ?lowest_closed, ?lookup_insert_eq; try done;
    cbn [fds]; rewrite lookup_insert_ne, lookup_insert_eq by done; by rewrite insert_delete_eq.
Qed.

(** The buffer of two characters is too small for every descriptor, so the first round
    of the loop is undefined. *)
Theorem daemond_overruns a times p :
  Daemond.fork_ a <> Some true -> times <> [] -> Daemond.main a times p = undefined.
Proof.
  intros Hf Ht. unfold Daemond.main. rewrite daemond_ready. destruct (Daemond.fork_ a) as [[]|]; [done|..]; cbn [bind_outcome]; destruct times as [|time times]; try done;
    cbn [Daemond.log_loop]; by rewrite never_fits.
Qed.

Lemma daemond_overruns_witness :
  Daemond.main (Daemond.Answers (Some false) true true) [lit "Wed Nov 20 10:11:00 2019"] (Proc ∅ false true [] 0) = undefined.
Proof. apply daemond_overruns; discriminate. Defined.
End daemond.
