(* ===== verification/AsioSamples.v ===== *)
(** * AsioSamples: timers, a counted buffer, blocking programs

    Models the smaller programs of [boost/]: the timers that set themselves again
    ([time3], [time4], and [time5] with two timers, two threads and a strand), the
    daytime server that writes a reference-counted buffer ([2...]), the blocking
    echo programs and the synchronous daytime programs ([daytime1], [2], [4], [5]).
    Boost.Asio appears as what it completes and reads; addresses, ports and the
    messages of exceptions are left out. *)
From S2P Require Import Prelude.

(** ** Timers *)

Module Timers.

(** What the programs differ in: the bound of [count], the number of timers, whether
    the handlers are bound to a strand. *)
Record kind := Kind { limit : nat; timers : nat; strand : bool }.
Definition time3 : kind := Kind 5 1 false.
Definition time4 : kind := Kind 5 1 false.
Definition time5 : kind := Kind 10 2 true.

(** A timer and its handler: waiting for the time, ready to run; in the handler after
    the test, the output, the increment; not set again. *)
Inductive timer := armed | expired | tested | printed | counted | finished.
#[global] Instance timer_eq_dec : EqDecision timer.
Proof. solve_decision. Defined.

Record printer := Printer { timer_ : list timer; count : nat; output : list (nat * nat) }.
Definition new_printer (k : kind) : printer := Printer (replicate (timers k) armed) 0 [].

Definition running (t : timer) : Prop := t = tested \/ t = printed \/ t = counted.
#[export] Instance running_dec t : Decision (running t).
Proof. unfold running. apply _. Defined.

(** A handler can start: on a strand, if no other is running. *)
Definition may_start (k : kind) (p : printer) : Prop := strand k = false \/ Forall (fun t => ~ running t) (timer_ p).
#[export] Instance may_start_dec k p : Decision (may_start k p).
Proof. unfold may_start. apply _. Defined.

(** The next thing that happens to a timer, on any of the threads. *)
Definition step (k : kind) (i : nat) (p : printer) : option printer :=
  t ← timer_ p !! i;
  match t with
  | armed => Some (Printer (<[i := expired]> (timer_ p)) (count p) (output p))
  | expired =>
      if decide (may_start k p) then Some (Printer (<[i := if (count p <? limit k)%nat then tested else finished]> (timer_ p)) (count p) (output p))
      else None
  | tested => Some (Printer (<[i := printed]> (timer_ p)) (count p) (output p ++ [(i, count p)]))
  | printed => Some (Printer (<[i := counted]> (timer_ p)) (S (count p)) (output p))
  | counted => Some (Printer (<[i := armed]> (timer_ p)) (count p) (output p))
  | finished => None
  end.

Fixpoint run (k : kind) (is_ : list nat) (p : printer) : option printer :=
  match is_ with [] => Some p | i :: is' => p' ← step k i p; run k is' p' end.

End Timers.

(** ** A reference-counted buffer *)

Module Refcounted.

(** A connection of the server: the counts of the session and of the vector of the
    buffer, the text that is written, whether the write is outstanding. *)
Record session := Session { self : nat; data_ : nat; text : str; writing : bool }.

(** [make_shared], [shared_const_buffer], the copies in the operation, and the end of
    [start] and of the handler of [accept]. *)
Definition start (now : str) : session :=
  let s := Session 1 1 now false in
  let s := Session (self s + 1) (data_ s + 1) (text s) true in
  Session (self s - 1) (data_ s - 1) (text s) true.

(** The server is accepting; the connections it made; what was sent to each. *)
Record server := Server { accepting : bool; sessions : list session; sent : list (nat * str) }.
Definition new_server : server := Server true [] [].

(** A connection comes at a time, or [accept] fails; a write completes (the error is
    not looked at), after [n] bytes. *)
Inductive event := accepts (now : option str) | wrote (i n : nat).

Definition s_step (e : event) (s : server) : option server :=
  match e with
  | accepts now => if accepting s then Some (Server true (sessions s ++ match now with Some t => [start t] | None => [] end) (sent s)) else None
  | wrote i n =>
      c ← sessions s !! i;
      if writing c && negb (bool_decide (self c = 0)) && negb (bool_decide (data_ c = 0)) then
        Some (Server (accepting s) (<[i := Session (self c - 1) (data_ c - 1) (text c) false]> (sessions s)) (sent s ++ [(i, take n (text c))]))
      else None
  end.

Fixpoint s_run (es : list event) (s : server) : option server :=
  match es with [] => Some s | e :: es' => s' ← s_step e s; s_run es' s' end.

End Refcounted.

(** ** Blocking programs *)

Module Blocking.

Definition max_length : nat := 1024.

(** What [read_some] gives. *)
Inductive got := bytes (s : str) | eof | error.

(** [session]: what it writes, and whether an exception ends it; [None] while it
    waits. *)
Fixpoint tcp_session (reads : list got) : str * option bool :=
  match reads with
  | [] => ([], None)
  | bytes s :: reads' => let '(out, r) := tcp_session reads' in (s ++ out, r)
  | eof :: _ => ([], Some false)
  | error :: _ => ([], Some true)
  end.

(** The threads are detached; an exception of [accept] or of the thread leaves the
    loop. *)
Inductive accepted := connection (reads : list got) | throws.
Fixpoint tcp_server (cs : list accepted) : list (str * option bool) :=
  match cs with [] | throws :: _ => [] | connection reads :: cs' => tcp_session reads :: tcp_server cs' end.

(** [cin.getline(request, max_length)] and [strlen]. *)
Fixpoint first_line (s : str) : str :=
  match s with [] => [] | c :: s' => if decide (c = LF) then [] else c :: first_line s' end.
Definition request (stdin : str) : str := c_str (take (max_length - 1) (first_line stdin)).

(** [boost::asio::read] of [n] bytes: the parts that arrive, as far as they are
    needed. *)
Fixpoint read_n (n : nat) (parts : list str) : option str :=
  match n, parts with
  | O, _ => Some []
  | S _, [] => None
  | S _, p :: parts' => rest ← read_n (n - length (take n p)) parts'; Some (take n p ++ rest)
  end.

Definition tcp_client (stdin : str) (parts : list str) : option str :=
  reply ← read_n (length (request stdin)) parts; Some (lit "Enter message: Reply is: " ++ reply ++ [LF]).

(** The programs on datagrams. *)
Definition udp_server (datagram : str) : str := take max_length datagram.
Definition udp_client (stdin : str) (datagram : str) : str := lit "Enter message: Reply is: " ++ take max_length datagram ++ [LF].

(** The synchronous daytime programs, with what [ctime] gives; the client on a stream
    reads at most 128 bytes at a time. *)
Definition buf_size : nat := 128.
Fixpoint daytime_client (reads : list got) : str * option bool :=
  match reads with
  | [] => ([], None)
  | bytes s :: reads' => let '(out, r) := daytime_client reads' in (take buf_size s ++ out, r)
  | eof :: _ => (lit "Connection closed cleanly by peer" ++ [LF], Some false)
  | error :: _ => (lit "other error" ++ [LF] ++ lit "catch exception" ++ [LF], Some true)
  end.
Definition daytime_udp_client (datagram : str) : str := take buf_size datagram.
Definition daytime_server (ctime : str) : str := ctime.
Definition daytime_udp_server (ctime request : str) : str := ctime.

End Blocking.

(** ** Timers count in order *)

Section timers.
Import Timers.
Context (k : kind) (Hk : strand k = true \/ timers k = 1).

Definition is_running (t : timer) : nat := match t with tested | printed | counted => 1 | _ => 0 end.
Definition will_count (t : timer) : nat := match t with tested | printed => 1 | _ => 0 end.
Definition has_printed (t : timer) : nat := match t with printed => 1 | _ => 0 end.
Definition total (f : timer -> nat) (p : printer) : nat := sum_list (f <$> timer_ p).

Record p_inv (p : printer) : Prop := {
  pi_length : length (timer_ p) = timers k;
  pi_one : total is_running p <= 1;
  pi_count : count p + total will_count p <= limit k;
  pi_finished : finished ∈ timer_ p -> count p = limit k;
  pi_output : snd <$> output p = seq 0 (count p + total has_printed p) }.

Lemma total_replicate f n c o : f armed = 0 -> total f (Printer (replicate n armed) c o) = 0.
Proof. intros Hf. unfold total. cbn. induction n as [|n IH]; cbn; [done|]. by rewrite Hf, IH. Qed.

Lemma new_inv : p_inv (new_printer k).
Proof.
  constructor; unfold new_printer; rewrite ?total_replicate by done; cbn; [apply length_replicate|lia|lia| |done].
  by intros [? _]%elem_of_replicate.
Qed.

Lemma total_move f p i t t' c o : timer_ p !! i = Some t -> total f (Printer (<[i := t']> (timer_ p)) c o) + f t = total f p + f t'.
Proof. intros Hi. unfold total. cbn [timer_]. by apply weight_insert. Qed.

Lemma total_ge f p i t : timer_ p !! i = Some t -> f t <= total f p.
Proof.
  unfold total. revert i. generalize (timer_ p). intros l. induction l as [|u l IH]; intros [|i] Hi; try done.
  - injection Hi as ->. rewrite fmap_cons. cbn. lia.
  - rewrite fmap_cons. specialize (IH i Hi). cbn in *. lia.
Qed.

(** A handler starts while no other runs. *)
Lemma none_running p : Forall (fun t => ~ running t) (timer_ p) -> total is_running p = 0.
Proof.
  unfold total. induction 1 as [|t l Ht _ IH]; [done|]. cbn. change (is_running t + sum_list (is_running <$> l) = 0). rewrite IH.
  unfold running in Ht. destruct t; cbn; naive_solver.
Qed.

Lemma start_alone p i : p_inv p -> timer_ p !! i = Some expired -> may_start k p -> total is_running p = 0.
Proof.
  intros Hp Hi [Hs|Hs]; [|by apply none_running]. destruct Hk as [|Hk']; [congruence|]. pose proof (pi_length p Hp) as Hl. rewrite Hk' in Hl.
  unfold total. destruct (timer_ p) as [|t [|]]; try done. destruct i; [|done]. by injection Hi as ->.
Qed.

Lemma will_count_running p : total will_count p <= total is_running p.
Proof. apply weight_le. intros []; cbn; lia. Qed.
Lemma has_printed_will_count p : total has_printed p <= total will_count p.
Proof. apply weight_le. intros []; cbn; lia. Qed.

Lemma tested_alone p i : timer_ p !! i = Some tested -> total has_printed p + 1 <= total will_count p.
Proof.
  intros Hi. pose proof (total_move will_count p i tested armed 0 [] Hi) as H1. pose proof (total_move has_printed p i tested armed 0 [] Hi) as H2.
  pose proof (has_printed_will_count (Printer (<[i := armed]> (timer_ p)) 0 [])). cbn [will_count has_printed] in *. lia.
Qed.

Lemma timer_step_inv i p p' : p_inv p -> step k i p = Some p' -> p_inv p'.
Proof.
  intros Hinv. pose proof Hinv as [Hl H1 Hc Hf Ho]. unfold step. destruct (timer_ p !! i) as [t|] eqn:Ht; [|done]. cbn [mbind option_bind].
  pose proof (total_ge is_running p i t Ht) as G1. pose proof (total_ge will_count p i t Ht) as G2. pose proof (total_ge has_printed p i t Ht) as G3.
  pose proof (will_count_running p) as W1. pose proof (has_printed_will_count p) as W2.
  assert (Hmove : forall t' c o,
    total is_running p - is_running t + is_running t' <= 1 -> c + (total will_count p - will_count t + will_count t') <= limit k ->
    (t' = finished -> c = limit k) -> (c = count p \/ count p < limit k /\ t' <> finished) ->
    snd <$> o = seq 0 (c + (total has_printed p - has_printed t + has_printed t')) -> p_inv (Printer (<[i := t']> (timer_ p)) c o)).
  { intros t' c o A1 A2 A3 A4 A5. pose proof (total_move is_running p i t t' c o Ht). pose proof (total_move will_count p i t t' c o Ht).
    pose proof (total_move has_printed p i t t' c o Ht). constructor; [by rewrite <- Hl; apply length_insert|lia|cbn [count]; lia| |].
    - cbn [timer_ count]. intros [Heq|Hin]%elem_insert; [by apply A3|]. specialize (Hf Hin). lia.
    - cbn [output count]. rewrite A5. f_equal. lia. }
  destruct t; cbn [is_running will_count has_printed] in *.
  - intros [= <-]. apply Hmove; cbn; try lia; [done|]. rewrite Ho. apply (f_equal (seq 0)). lia.
  - case_decide as Hs; [|done]. intros [= <-]. pose proof (start_alone p i Hinv Ht Hs) as Hz.
    destruct (Nat.ltb_spec (count p) (limit k)); apply Hmove; cbn; try lia; try done; rewrite Ho; apply (f_equal (seq 0)); lia.
  - intros [= <-]. pose proof (tested_alone p i Ht). apply Hmove; cbn; try lia; [done|]. rewrite fmap_app, Ho. cbn.
    replace (count p + (total has_printed p - 0 + 1)) with (S (count p)) by lia. rewrite seq_S. f_equal. f_equal. lia.
  - intros [= <-]. apply Hmove; cbn [is_running will_count has_printed]; [lia|lia|done|right; split; [lia|done]|]. rewrite Ho. apply (f_equal (seq 0)). lia.
  - intros [= <-]. apply Hmove; cbn; try lia; [done|]. rewrite Ho. apply (f_equal (seq 0)). lia.
  - done.
Qed.

Lemma timer_run_inv is_ p p' : p_inv p -> run k is_ p = Some p' -> p_inv p'.
Proof.
  revert p. induction is_ as [|i is_ IH]; intros p Hp; cbn; [by intros [= <-]|]. destruct (step k i p) as [p1|] eqn:Hs; [|done].
  cbn. apply IH. by eapply timer_step_inv.
Qed.

Definition rank (t : timer) : nat := match t with finished => 0 | printed => 1 | tested => 2 | expired => 3 | armed => 4 | counted => 5 end.
Definition steps_left (p : printer) : nat := 5 * (limit k - count p) + total rank p.

Lemma step_rank i p p' : p_inv p -> step k i p = Some p' -> steps_left p' < steps_left p.
Proof.
  intros [Hl H1 Hc Hf Ho]. unfold step. destruct (timer_ p !! i) as [t|] eqn:Ht; [|done]. cbn [mbind option_bind].
  pose proof (total_ge rank p i t Ht) as G. pose proof (total_ge will_count p i t Ht) as G2. unfold steps_left.
  assert (Hr : forall t' c o, total rank (Printer (<[i := t']> (timer_ p)) c o) + rank t = total rank p + rank t') by (intros; by apply total_move).
  destruct t; cbn [rank will_count] in *.
  - intros [= <-]. specialize (Hr expired (count p) (output p)). cbn [rank count] in *. lia.
  - case_decide; [|done]. intros [= <-]. specialize (Hr (if (count p <? limit k)%nat then tested else finished) (count p) (output p)).
    destruct (count p <? limit k)%nat; cbn [rank count] in *; lia.
  - intros [= <-]. specialize (Hr printed (count p) (output p ++ [(i, count p)])). cbn [rank count] in *. lia.
  - intros [= <-]. specialize (Hr counted (S (count p)) (output p)). cbn [rank count] in *. lia.
  - intros [= <-]. specialize (Hr armed (count p) (output p)). cbn [rank count] in *. lia.
  - done.
Qed.

Lemma run_rank is_ p p' : p_inv p -> run k is_ p = Some p' -> length is_ + steps_left p' <= steps_left p.
Proof.
  revert p. induction is_ as [|i is_ IH]; intros p Hp; cbn [run length]; [intros [= <-]; lia|]. destruct (step k i p) as [p1|] eqn:Hs; [|done].
  cbn [mbind option_bind]. pose proof (step_rank i p p1 Hp Hs). intros Hr. specialize (IH p1 (timer_step_inv _ _ _ Hp Hs) Hr). lia.
Qed.

(** Some timer can go on: the one whose handler runs, or any, if none does. *)
Lemma some_step p t : p_inv p -> t ∈ timer_ p -> t <> finished -> exists i p', step k i p = Some p'.
Proof.
  intros Hp Hin Hne. destruct (decide (Exists running (timer_ p))) as [(u & Hu & Hr)%Exists_exists|Hn].
  - apply list_elem_of_lookup in Hu as [i Hi]. exists i. unfold step. rewrite Hi. destruct Hr as [->|[->| ->]]; by eexists.
  - apply list_elem_of_lookup in Hin as [i Hi]. exists i. unfold step. rewrite Hi.
    assert (Hs : may_start k p) by (right; by apply not_Exists_Forall in Hn; [|apply _]).
    destruct t; try done; cbn; rewrite ?decide_True by done; by eexists.
Qed.
End timers.

(** The timers of [time3], [time4] and [time5], in every interleaving of the two
    threads: the run is bounded; what is printed is 0, 1, 2, ..., each number once and
    by one handler, which on two threads is due to the strand; it never gets stuck, and
    when no timer is set any more the numbers up to the bound have been printed and the
    final count is the bound. *)
Theorem timers_count k is_ p :
  k = Timers.time3 \/ k = Timers.time4 \/ k = Timers.time5 -> Timers.run k is_ (Timers.new_printer k) = Some p ->
  length is_ <= 5 * Timers.limit k + 4 * Timers.timers k /\
  (exists n, snd <$> Timers.output p = seq 0 n /\ n <= Timers.limit k) /\
  ((exists i p', Timers.step k i p = Some p') \/ Forall (fun t => t = Timers.finished) (Timers.timer_ p)) /\
  (Forall (fun t => t = Timers.finished) (Timers.timer_ p) -> Timers.count p = Timers.limit k /\ snd <$> Timers.output p = seq 0 (Timers.limit k)).
Proof.
  intros Hkind Hr. assert (Hk : Timers.strand k = true \/ Timers.timers k = 1) by (destruct Hkind as [->|[->| ->]]; auto).
  assert (Hpos : 0 < Timers.timers k) by (destruct Hkind as [->|[->| ->]]; cbn; lia).
  pose proof (timer_run_inv k Hk is_ _ p (new_inv k Hk) Hr) as Hp. split_and!.
  - pose proof (run_rank k Hk is_ _ p (new_inv k Hk) Hr) as Hm. unfold steps_left, Timers.new_printer, total in Hm. cbn [Timers.count Timers.timer_] in Hm.
    assert (Hs : forall n, sum_list (rank <$> replicate n Timers.armed) = 4 * n) by (induction n as [|n IH]; [done|]; cbn in *; lia).
    rewrite Hs in Hm. lia.
  - exists (Timers.count p + total has_printed p). split; [apply (pi_output k p Hp)|]. pose proof (pi_count k p Hp). pose proof (has_printed_will_count k Hk p). lia.
  - destruct (decide (Forall (fun t => t = Timers.finished) (Timers.timer_ p))) as [|Hn]; [by right|left].
    apply not_Forall_Exists in Hn; [|apply _]. apply Exists_exists in Hn as (t & Hin & Hne). by apply (some_step k p t).
  - intros Hall. pose proof (pi_output k p Hp) as Ho. pose proof (pi_length k p Hp) as Hl. pose proof (pi_finished k p Hp) as Hf.
    destruct (Timers.timer_ p) as [|t l] eqn:Ht; [cbn in Hl; lia|]. pose proof Hall as [-> _]%Forall_cons. rewrite Hf in Ho by by left.
    split; [apply Hf; by left|]. rewrite Ho. f_equal. unfold total. rewrite Ht.
    assert (Hz : sum_list (has_printed <$> Timers.finished :: l) = 0) by (clear -Hall; induction Hall as [|? ? -> _ IH]; [done|by cbn]). lia.
Qed.

(** ** The counted buffer *)

Section refcounted.
Import Refcounted.

(** While a write is outstanding the operation alone holds the session and the
    buffer; after it nobody does. *)
Definition counts_ok (c : session) : Prop := if writing c then self c = 1 /\ data_ c = 1 else self c = 0 /\ data_ c = 0.

Record s_inv (s : server) : Prop := {
  si_counts : Forall counts_ok (sessions s);
  si_once : NoDup (fst <$> sent s);
  si_sent : forall i t, (i, t) ∈ sent s -> exists c, sessions s !! i = Some c /\ writing c = false /\ t `prefix_of` text c }.

Lemma counted_step_inv e s s' : s_inv s -> s_step e s = Some s' -> s_inv s'.
Proof.
  intros [Hc Ho Hs]. destruct e as [now|i n]; cbn [s_step].
  - destruct (accepting s); [|done]. intros [= <-]. constructor; cbn; [|done|].
    + apply Forall_app. split; [done|]. destruct now; [|constructor]. by apply Forall_singleton.
    + intros i t Hin. destruct (Hs i t Hin) as (c & Hi & Hr). exists c. split; [by apply lookup_app_l_Some|done].
  - destruct (sessions s !! i) as [c|] eqn:Hi; [|done]. cbn [mbind option_bind]. destruct (writing c) eqn:Hw; [|done]. cbn [andb].
    destruct (_ && _); [|done]. intros [= <-]. pose proof (Forall_lookup_1 _ _ _ _ Hc Hi) as Hok. unfold counts_ok in Hok. rewrite Hw in Hok. destruct Hok as [H1 H2].
    assert (Hnew : i ∉ fst <$> sent s).
    { intros ([i' t] & Heq & Hin)%list_elem_of_fmap. cbn in Heq. subst i'. destruct (Hs i t Hin) as (c' & Hi' & Hw' & _). congruence. }
    constructor; cbn.
    + apply Forall_insert; [done|]. unfold counts_ok. cbn. rewrite H1, H2. done.
    + rewrite fmap_app. apply NoDup_app. split_and!; [done|set_solver|apply NoDup_singleton].
    + intros j t [Hin|Hin%list_elem_of_singleton]%elem_of_app.
      * destruct (Hs j t Hin) as (c' & Hj & Hr). exists c'. split; [|done]. rewrite list_lookup_insert_ne; [done|]. intros ->.
        apply Hnew, list_elem_of_fmap. by exists (j, t).
      * injection Hin as -> ->. eexists. rewrite list_lookup_insert_eq by by eapply lookup_lt_Some. split; [done|]. split; [done|].
        cbn. exists (drop n (text c)). by rewrite take_drop.
Qed.

(** The server that writes a counted buffer: it accepts for ever, whatever fails; a
    write that is outstanding can complete, since it holds its session and its
    buffer, which are destroyed with it and not before; each connection is sent the
    text of the moment it was accepted, or its beginning, once. *)
Theorem refcounted_server es s :
  s_run es new_server = Some s ->
  accepting s = true /\
  (forall i c, sessions s !! i = Some c -> writing c = true -> self c = 1 /\ data_ c = 1 /\ forall n, exists s', s_step (wrote i n) s = Some s') /\
  (forall i c, sessions s !! i = Some c -> writing c = false -> self c = 0 /\ data_ c = 0) /\
  NoDup (fst <$> sent s) /\ (forall i t, (i, t) ∈ sent s -> exists c, sessions s !! i = Some c /\ t `prefix_of` text c).
Proof.
  assert (H : forall es s0, s_inv s0 -> accepting s0 = true -> s_run es s0 = Some s -> s_inv s /\ accepting s = true).
  { clear es. intros es. induction es as [|e es IH]; intros s0 Hs0 Ha; cbn; [by intros [= <-]|].
    destruct (s_step e s0) as [s1|] eqn:He; [|done]. cbn. apply IH; [by eapply counted_step_inv|]. destruct e as [now|i n]; cbn in He.
    - rewrite Ha in He. by injection He as <-.
    - destruct (sessions s0 !! i); [|done]. cbn in He. destruct (_ && _); [|done]. by injection He as <-. }
  intros Hr. destruct (H es new_server) as [[Hc Ho Hs] Ha]; [|done..|].
  { constructor; cbn; [constructor|constructor|]. by intros i t ?%elem_of_nil. }
  split_and!; [done| | |done|].
  - intros i c Hi Hw. pose proof (Forall_lookup_1 _ _ _ _ Hc Hi) as Hok. unfold counts_ok in Hok. rewrite Hw in Hok. destruct Hok as [H1 H2].
    split_and!; [done..|]. intros n. cbn [s_step]. rewrite Hi. cbn. rewrite Hw, H1, H2. by eexists.
  - intros i c Hi Hw. pose proof (Forall_lookup_1 _ _ _ _ Hc Hi) as Hok. unfold counts_ok in Hok. by rewrite Hw in Hok.
  - intros i t Hin. destruct (Hs i t Hin) as (c & Hi & _ & Hp). by exists c.
Qed.
End refcounted.

(** ** Blocking programs together *)

Section blocking.
Import Blocking.

Lemma session_writes parts r : tcp_session ((bytes <$> parts) ++ r) = (concat parts ++ fst (tcp_session r), snd (tcp_session r)).
Proof.
  induction parts as [|p parts IH]; [apply surjective_pairing|]. rewrite fmap_cons. cbn [app tcp_session concat]. rewrite IH. by rewrite app_assoc.
Qed.

Lemma read_n_all n parts : n <= length (concat parts) -> read_n n parts = Some (take n (concat parts)).
Proof.
  revert n. induction parts as [|p parts IH]; intros n Hn; [cbn in Hn; by replace n with 0 by lia|].
  destruct n as [|n]; [done|]. cbn [read_n concat] in *. rewrite length_app in Hn. rewrite length_take, IH by lia. cbn [mbind option_bind].
  rewrite take_app. f_equal. f_equal. destruct (Nat.le_gt_cases (S n) (length p)).
  - rewrite Nat.min_l, Nat.sub_diag by lia. by replace (S n - length p) with 0 by lia.
  - by rewrite Nat.min_r by lia.
Qed.

Lemma request_length stdin : length (request stdin) < max_length.
Proof.
  unfold request. pose proof (length_c_str (take (max_length - 1) (first_line stdin))) as H. rewrite length_take in H.
  change max_length with (S (max_length - 1)) at 2. lia.
Qed.

(** The blocking echo programs: however the system cuts up the two directions, the
    client on a stream prints the line that was typed, as far as it has 1023
    characters and up to a NUL byte; so does the client on datagrams, whose
    messages fit both arrays. *)
Theorem blocking_echo stdin chunks parts reads :
  concat chunks = request stdin -> concat parts = fst (tcp_session ((bytes <$> chunks) ++ reads)) ->
  tcp_client stdin parts = Some (lit "Enter message: Reply is: " ++ request stdin ++ [LF]) /\
  udp_client stdin (udp_server (request stdin)) = lit "Enter message: Reply is: " ++ request stdin ++ [LF].
Proof.
  intros Hc Hp. rewrite session_writes, Hc in Hp. cbn [fst] in Hp. split.
  - unfold tcp_client. rewrite read_n_all by (rewrite Hp, length_app; lia). cbn [mbind option_bind]. by rewrite Hp, take_app_length.
  - unfold udp_client, udp_server. pose proof (request_length stdin). by rewrite !(take_ge (request stdin)) by lia.
Qed.

(** The synchronous daytime programs: the client on a stream prints all it is sent,
    at most 128 bytes at a time, and then says that the connection was closed; the
    client on datagrams prints the text if it has at most 128 bytes. *)
Theorem daytime_printed ctime parts :
  concat parts = daytime_server ctime -> Forall (fun p => length p <= buf_size) parts ->
  daytime_client ((bytes <$> parts) ++ [eof]) = (ctime ++ lit "Connection closed cleanly by peer" ++ [LF], Some false) /\
  (length ctime <= buf_size -> daytime_udp_client (daytime_udp_server ctime [NUL]) = ctime).
Proof.
  unfold daytime_server. intros <-. intros Hf. split.
  - induction Hf as [|p parts Hp _ IH]; [done|]. rewrite fmap_cons. cbn [app daytime_client concat]. rewrite IH, take_ge by done. by rewrite app_assoc.
  - intros Hl. unfold daytime_udp_client, daytime_udp_server. by apply take_ge.
Qed.
End blocking.

(** ** Examples *)

(** The two timers of [time5] in turn. *)
Definition turns : list nat := mjoin (replicate 10 [0; 1; 0; 0; 0; 0; 1; 1; 1; 1]).

Lemma timers_count_witness : exists p,
  Timers.run Timers.time5 (turns ++ [0]) (Timers.new_printer Timers.time5) = None /\
  Timers.run Timers.time5 (take 50 turns ++ [0; 1; 0; 1]) (Timers.new_printer Timers.time5) = Some p /\
  Timers.count p = 10 /\ snd <$> Timers.output p = seq 0 10.
Proof.
  destruct (Timers.run Timers.time5 (take 50 turns ++ [0; 1; 0; 1]) (Timers.new_printer Timers.time5)) as [p|] eqn:Hr; [|by vm_compute in Hr].
  exists p. split; [vm_compute; reflexivity|]. split; [reflexivity|].
  destruct (timers_count Timers.time5 _ p ltac:(auto) Hr) as (_ & _ & _ & H). apply H. vm_compute in Hr. injection Hr as <-. repeat constructor.
Defined.

(** Without the strand both handlers may show the same number. *)
Example without_strand : exists p,
  Timers.run (Timers.Kind 10 2 false) [0; 1; 0; 1; 0; 1] (Timers.new_printer (Timers.Kind 10 2 false)) = Some p /\ Timers.output p = [(0, 0); (1, 0)].
Proof. eexists. split; [vm_compute; reflexivity|done]. Qed.

Lemma blocking_echo_witness :
  Blocking.tcp_client (lit "hello" ++ [LF]) [lit "hel"; lit "lo"] = Some (lit "Enter message: Reply is: hello" ++ [LF]).
Proof.
  destruct (blocking_echo (lit "hello" ++ [LF]) [lit "h"; lit "ello"] [lit "hel"; lit "lo"] [Blocking.eof]) as [H _]; [reflexivity..|exact H].
Defined.
