(* ===== verification/Chat.v ===== *)
(** * Chat: the chat protocol, its server and its client

    Models [boost/3.chat_message.hpp], [3.chat_server.cpp] and
    [3.chat_client.cpp]. A message is four bytes of decimal length and a body of
    at most 512 bytes. Everything a server does happens in completion handlers
    of one [io_context] run by one thread, so its executions are sequences of
    whole handlers: these are the events. A transfer into or out of the fixed
    array of a message outside its bounds is undefined and shows as [None].

    The ghost fields of a session record what went over its connection, and the
    ghost log of the room everything that was posted to it. *)
From S2P Require Import Prelude.

(** ** [chat_message] *)

Definition header_length : nat := 4.
Definition max_body_length : Z := 512.
Definition data_size : nat := 516.

Record chat_message := Message { data_ : str; body_length_ : Z }.

(** The constructor leaves the array as it finds it. *)
Definition new_message (garbage : str) : chat_message := Message garbage 0.
Definition msg_length (m : chat_message) : Z := Z.of_nat header_length + body_length_ m.
Definition body (m : chat_message) : str := take (Z.to_nat (body_length_ m)) (drop header_length (data_ m)).

Definition set_body_length (m : chat_message) (new_length : Z) : chat_message :=
  Message (data_ m) (if (max_body_length <? new_length)%Z then max_body_length else new_length).

(** What [decode_header] assigns to [body_length_]: [strncat] stops at a NUL,
    and a negative [int] becomes a huge [size_t]. *)
Definition header_value (data : str) : Z := size_t (atoi (c_str (take header_length data))).

Definition decode_header (m : chat_message) : bool * chat_message :=
  let n := header_value (data_ m) in
  if (max_body_length <? n)%Z then (false, Message (data_ m) 0) else (true, Message (data_ m) n).

(** [memcpy] and [async_read] into the array. *)
Definition store (data : str) (offset : nat) (bytes : str) : option str :=
  if (offset + length bytes <=? data_size)%nat
  then Some (take offset data ++ bytes ++ drop (offset + length bytes) data) else None.

(** [sprintf] into five bytes, of which four are copied. *)
Definition encode_header (m : chat_message) : option chat_message :=
  let header := format_int 4 (int32 (body_length_ m)) in
  if (5 <? length header + 1)%nat then None
  else data ← store (data_ m) 0 header; Some (Message data (body_length_ m)).

(** The bytes [buffer(m.data(), m.length())] stands for. *)
Definition message_bytes (m : chat_message) : option str :=
  if (msg_length m <=? Z.of_nat data_size)%Z then Some (take (Z.to_nat (msg_length m)) (data_ m)) else None.

(** ** Reading messages from a connection *)

(** What an outstanding [async_read] is for, and how many bytes it wants. *)
Inductive read_op := read_header | read_body.
#[export] Instance read_op_eq_dec : EqDecision read_op.
Proof. solve_decision. Defined.

Definition wanted (m : chat_message) (op : read_op) : nat :=
  match op with read_header => header_length | read_body => Z.to_nat (body_length_ m) end.
Definition read_offset (op : read_op) : nat :=
  match op with read_header => 0 | read_body => header_length end.

(** The end of a composed read: all it wants, or an error after fewer bytes. *)
Inductive read_result := read_ok (bytes : str) | read_error (bytes : str).
Definition result_bytes (r : read_result) : str := match r with read_ok b | read_error b => b end.
Definition possible_read (want : nat) (r : read_result) : bool :=
  match r with
  | read_ok b => (length b =? want)%nat
  | read_error b => (length b <? want)%nat
  end.

(** ** The server *)

Record chat_session := Session {
  read_msg : chat_message;
  reading : option read_op;         (* the outstanding read *)
  write_msgs : list chat_message;
  writing : bool;                   (* a write is outstanding *)
  received : str;                   (* ghost: everything read from the socket *)
  sent : str;                       (* ghost: everything written to it *)
  joined : nat;                     (* ghost: length of the log on joining *)
  left : option nat }.              (* ghost: and on leaving *)

Record chat_room := Room {
  participants : gset nat;
  recent_msgs : list chat_message;
  sessions : list chat_session;     (* by number, in the order of accepting *)
  posted : list (nat * chat_message) }. (* ghost: who posted what *)

Definition max_recent_msgs : nat := 100.

Definition init_room : chat_room := Room ∅ [] [] [].

(** [chat_session::deliver] with [do_write]. *)
Definition session_deliver (s : chat_session) (msg : chat_message) : chat_session :=
  let write_in_progress := negb (bool_decide (write_msgs s = [])) in
  Session (read_msg s) (reading s) (write_msgs s ++ [msg]) (if write_in_progress then writing s else true)
    (received s) (sent s) (joined s) (left s).

(** [while (recent_msgs_.size() > max_recent_msgs) recent_msgs_.pop_front();] *)
Fixpoint trim_recent (l : list chat_message) : list chat_message :=
  match l with
  | [] => []
  | _ :: l' => if (max_recent_msgs <? length l)%nat then trim_recent l' else l
  end.

(** [chat_room::deliver]; the participants are visited in some order, and each
    visit changes one session, so the order does not matter. *)
Definition room_deliver (w : chat_room) (from : nat) (msg : chat_message) : chat_room :=
  Room (participants w) (trim_recent (recent_msgs w ++ [msg]))
    (imap (fun i s => if decide (i ∈ participants w) then session_deliver s msg else s) (sessions w))
    (posted w ++ [(from, msg)]).

Definition set_session (w : chat_room) (i : nat) (s : chat_session) : chat_room :=
  Room (participants w) (recent_msgs w) (<[i := s]> (sessions w)) (posted w).

(** [chat_room::join] and [do_read_header] for a new session. *)
Definition join (w : chat_room) (garbage : str) : chat_room :=
  let s := Session (new_message garbage) (Some read_header) [] false [] [] (length (posted w)) None in
  Room ({[length (sessions w)]} ∪ participants w) (recent_msgs w)
    (sessions w ++ [foldl session_deliver s (recent_msgs w)]) (posted w).

Definition leave (w : chat_room) (i : nat) : chat_room :=
  Room (participants w ∖ {[i]}) (recent_msgs w)
    (alter (fun s => Session (read_msg s) (reading s) (write_msgs s) (writing s) (received s) (sent s) (joined s)
       (if decide (i ∈ participants w) then Some (length (posted w)) else left s)) i (sessions w)) (posted w).

Definition set_read (s : chat_session) (m : chat_message) (op : option read_op) (bytes : str) : chat_session :=
  Session m op (write_msgs s) (writing s) (received s ++ bytes) (sent s) (joined s) (left s).

(** The handlers of [do_read_header] and [do_read_body]. *)
Definition on_read (w : chat_room) (i : nat) (s : chat_session) (op : read_op) (r : read_result) : option chat_room :=
  data ← store (data_ (read_msg s)) (read_offset op) (result_bytes r);
  let m := Message data (body_length_ (read_msg s)) in
  match r, op with
  | read_error bytes, _ => Some (leave (set_session w i (set_read s m None bytes)) i)
  | read_ok bytes, read_header =>
      let '(ok, m) := decode_header m in
      if ok : bool then Some (set_session w i (set_read s m (Some read_body) bytes))
      else Some (leave (set_session w i (set_read s m None bytes)) i)
  | read_ok bytes, read_body =>
      Some (room_deliver (set_session w i (set_read s m (Some read_header) bytes)) i m)
  end.

(** The handler of [do_write]: the front message went out, or an error struck
    after [n] of its bytes. *)
Definition on_write (w : chat_room) (i : nat) (s : chat_session) (error : option nat) : option chat_room :=
  match write_msgs s with
  | [] => None
  | front :: rest =>
      bytes ← message_bytes front;
      match error with
      | None =>
          Some (set_session w i (Session (read_msg s) (reading s) rest (negb (bool_decide (rest = [])))
            (received s) (sent s ++ bytes) (joined s) (left s)))
      | Some n =>
          Some (leave (set_session w i (Session (read_msg s) (reading s) (write_msgs s) false
            (received s) (sent s ++ take n bytes) (joined s) (left s))) i)
      end
  end.

Inductive chat_event :=
  | accepted (garbage : str)             (* a connection, and what its message array holds *)
  | accept_failed
  | read_done (i : nat) (r : read_result)
  | write_done (i : nat) (error : option nat).

Inductive chat_outcome := chat_next (w : chat_room) | chat_disabled | chat_undefined.
Definition of_step (o : option chat_room) : chat_outcome :=
  match o with Some w => chat_next w | None => chat_undefined end.

Definition chat_step (w : chat_room) (e : chat_event) : chat_outcome :=
  match e with
  | accepted garbage => if (length garbage =? data_size)%nat then chat_next (join w garbage) else chat_disabled
  | accept_failed => chat_next w
  | read_done i r =>
      match sessions w !! i with
      | Some s =>
          match reading s with
          | Some op => if possible_read (wanted (read_msg s) op) r then of_step (on_read w i s op r) else chat_disabled
          | None => chat_disabled
          end
      | None => chat_disabled
      end
  | write_done i error =>
      match sessions w !! i with
      | Some s => if writing s then of_step (on_write w i s error) else chat_disabled
      | None => chat_disabled
      end
  end.

Fixpoint chat_run (w : chat_room) (es : list chat_event) : chat_outcome :=
  match es with
  | [] => chat_next w
  | e :: es' =>
      match chat_step w e with
      | chat_next w' => chat_run w' es'
      | o => o
      end
  end.

(** ** Specification *)

(** The bytes of a message on the wire. *)
Definition wire (m : chat_message) : str := take (header_length + Z.to_nat (body_length_ m)) (data_ m).

(** A message whose array holds what its length says. *)
Definition framed (m : chat_message) : Prop :=
  length (data_ m) = data_size /\ (0 <= body_length_ m <= max_body_length)%Z /\
  header_value (data_ m) = body_length_ m.

(** The messages in a stream of bytes, up to the first one that is malformed or
    not complete. *)
Fixpoint frames_fuel (fuel : nat) (s : str) : list str :=
  match fuel with
  | O => []
  | S f =>
      let n := header_length + Z.to_nat (header_value s) in
      if decide (header_length <= length s /\ (header_value s <= max_body_length)%Z /\ n <= length s) then
        take n s :: frames_fuel f (drop n s)
      else []
  end.
Definition frames (s : str) : list str := frames_fuel (S (length s)) s.

(** What a room has posted for user [i], and what a session should be sent:
    the hundred messages before it joined and those until it left. *)
Definition posted_by (i : nat) (ps : list (nat * chat_message)) : list str :=
  (fun p => wire (snd p)) <$> filter (fun p => fst p = i) ps.
Definition delivered (ps : list (nat * chat_message)) (s : chat_session) : list chat_message :=
  drop (joined s - max_recent_msgs) (take (default (length ps) (left s)) (snd <$> ps)).

(** ** Frames *)

Definition is_frame (f : str) : Prop :=
  header_length <= length f /\ (header_value f <= max_body_length)%Z /\
  length f = header_length + Z.to_nat (header_value f).
Definition incomplete (t : str) : Prop :=
  ~ (header_length <= length t /\ (header_value t <= max_body_length)%Z /\
     header_length + Z.to_nat (header_value t) <= length t).

Lemma header_value_app x s : header_length <= length x -> header_value (x ++ s) = header_value x.
Proof. intros Hx. unfold header_value. by rewrite take_app_le. Qed.

Lemma header_value_take n x : header_length <= n -> header_value (take n x) = header_value x.
Proof. intros Hn. unfold header_value. rewrite take_take. by rewrite Nat.min_l. Qed.

Lemma header_value_range x : (0 <= header_value x < 2 ^ 64)%Z.
Proof. unfold header_value, size_t. apply Z.mod_pos_bound. lia. Qed.

Lemma frames_concat fuel fs t :
  length (concat fs ++ t) < fuel -> Forall is_frame fs -> incomplete t -> frames_fuel fuel (concat fs ++ t) = fs.
Proof.
  revert fuel. induction fs as [|f fs IH]; intros fuel Hl Hfs Ht; (destruct fuel as [|fuel]; [lia|]); cbn [frames_fuel].
  - by rewrite decide_False.
  - apply Forall_cons in Hfs as [(Hf1 & Hf2 & Hf3) Hfs]. cbn [concat] in *. rewrite <- app_assoc in *.
    rewrite header_value_app by done. rewrite decide_True; [|rewrite length_app; lia].
    rewrite <- Hf3, take_app_length, drop_app_length. f_equal. apply IH; [|done..].
    rewrite length_app in Hl. unfold header_length in *. lia.
Qed.

Lemma frames_of fs t : Forall is_frame fs -> incomplete t -> frames (concat fs ++ t) = fs.
Proof. intros. apply frames_concat; [lia|done..]. Qed.

Lemma incomplete_nil : incomplete [].
Proof. intros [H _]. cbn in H. unfold header_length in H. lia. Qed.

Lemma wire_length m : framed m -> length (wire m) = header_length + Z.to_nat (body_length_ m).
Proof.
  intros (Hl & Hb & _). unfold wire. rewrite length_take. unfold data_size, max_body_length, header_length in *. lia.
Qed.

Lemma wire_frame m : framed m -> is_frame (wire m).
Proof.
  intros Hm. pose proof (wire_length m Hm) as Hl. destruct Hm as (_ & Hb & Hh).
  assert (header_value (wire m) = body_length_ m) as Hw
    by (unfold wire; rewrite header_value_take by lia; done).
  split_and!; rewrite ?Hw; lia.
Qed.

Lemma message_bytes_framed m : framed m -> message_bytes m = Some (wire m).
Proof.
  intros (_ & Hb & _). unfold message_bytes, msg_length, wire, max_body_length, data_size, header_length in *.
  destruct (Z.leb_spec (Z.of_nat 4 + body_length_ m) (Z.of_nat 516)); [|lia]. do 2 f_equal. lia.
Qed.

Lemma store_ok data offset bytes :
  length data = data_size -> offset + length bytes <= data_size ->
  exists data', store data offset bytes = Some data' /\ length data' = data_size /\
    take (offset + length bytes) data' = take offset data ++ bytes /\
    drop (offset + length bytes) data' = drop (offset + length bytes) data.
Proof.
  intros Hd Hb. unfold store. destruct (Nat.leb_spec (offset + length bytes) data_size); [|lia].
  eexists. split; [done|]. split; [rewrite !length_app, length_take, length_drop; lia|].
  assert (length (take offset data ++ bytes) = offset + length bytes) as Hl by (rewrite length_app, length_take; lia).
  by rewrite app_assoc, take_app_length', drop_app_length'.
Qed.

(** Reading a body leaves the header as it was. *)
Lemma body_keeps_header (data old bytes : str) :
  length old = data_size -> take (header_length + length bytes) data = take header_length old ++ bytes ->
  take header_length data = take header_length old.
Proof.
  intros Ho Hd. apply (f_equal (take header_length)) in Hd. rewrite take_take, Nat.min_l in Hd by lia.
  rewrite Hd, take_app_le; rewrite ?take_take, ?length_take; [done|]. unfold data_size, header_length in *. lia.
Qed.

(** After the body the message is complete, and it is what was read. *)
Lemma body_read m data bytes :
  framed m -> length data = data_size ->
  take (header_length + length bytes) data = take header_length (data_ m) ++ bytes ->
  length bytes = Z.to_nat (body_length_ m) ->
  framed (Message data (body_length_ m)) /\
  wire (Message data (body_length_ m)) = take header_length (data_ m) ++ bytes.
Proof.
  intros (Hd & Hb & Hv) Hdl Hdt Hl. split.
  - split; [done|]. split; [done|]. cbn [data_ body_length_]. rewrite <- Hv. unfold header_value.
    by rewrite (body_keeps_header _ _ _ Hd Hdt).
  - unfold wire; cbn [data_ body_length_]. rewrite <- Hl. exact Hdt.
Qed.

(** ** Invariant *)

Definition reads_ok (ps : list (nat * chat_message)) (i : nat) (s : chat_session) : Prop :=
  length (data_ (read_msg s)) = data_size /\
  exists t, received s = concat (posted_by i ps) ++ t /\
    match reading s with
    | Some read_header => t = []
    | Some read_body => t = take header_length (data_ (read_msg s)) /\ framed (read_msg s)
    | None => incomplete t
    end.

Definition writes_ok (ps : list (nat * chat_message)) (inroom : Prop) (s : chat_session) : Prop :=
  joined s <= length ps /\
  match left s with None => inroom | Some l => ~ inroom /\ joined s <= l <= length ps end /\
  exists done part, delivered ps s = done ++ write_msgs s /\ sent s = concat (wire <$> done) ++ part /\
    (writing s = true -> write_msgs s <> [] /\ part = []) /\
    (writing s = false -> part `prefix_of` concat (wire <$> write_msgs s)).

Definition session_ok (ps : list (nat * chat_message)) (inroom : Prop) (i : nat) (s : chat_session) : Prop :=
  reads_ok ps i s /\ writes_ok ps inroom s /\
  (inroom -> reading s <> None /\ (writing s = false -> write_msgs s = [])).

Record room_ok (w : chat_room) : Prop := {
  ok_posted : Forall (fun p => framed (snd p) /\ fst p < length (sessions w)) (posted w);
  ok_recent : recent_msgs w = drop (length (posted w) - max_recent_msgs) (snd <$> posted w);
  ok_participants : forall i, i ∈ participants w -> i < length (sessions w);
  ok_sessions : forall i s, sessions w !! i = Some s -> session_ok (posted w) (i ∈ participants w) i s }.

Lemma trim_recent_drop l : trim_recent l = drop (length l - max_recent_msgs) l.
Proof.
  induction l as [|m l IH]; [done|]. cbn [trim_recent]. destruct (Nat.ltb_spec max_recent_msgs (length (m :: l))).
  - rewrite IH. cbn [length] in *. by replace (S (length l) - max_recent_msgs) with (S (length l - max_recent_msgs)) by lia.
  - by replace (length (m :: l) - max_recent_msgs) with 0 by lia.
Qed.

Lemma posted_by_snoc i ps j m :
  posted_by i (ps ++ [(j, m)]) = posted_by i ps ++ (if decide (j = i) then [wire m] else []).
Proof.
  unfold posted_by. rewrite filter_app, fmap_app. f_equal. rewrite filter_cons. cbn. by case_decide.
Qed.

Lemma posted_by_frames i ps n :
  Forall (fun p => framed (snd p) /\ fst p < n) ps -> Forall is_frame (posted_by i ps).
Proof.
  intros Hps. apply Forall_fmap, Forall_forall. intros p [_ Hp]%list_elem_of_filter.
  rewrite Forall_forall in Hps. apply wire_frame. by apply Hps.
Qed.

Lemma foldl_deliver s ms :
  foldl session_deliver s ms =
  Session (read_msg s) (reading s) (write_msgs s ++ ms)
    (if decide (write_msgs s = [] /\ ms <> []) then true else writing s) (received s) (sent s) (joined s) (left s).
Proof.
  revert s. induction ms as [|m ms IH]; intros s; cbn [foldl].
  - rewrite app_nil_r, decide_False by tauto. by destruct s.
  - rewrite IH. unfold session_deliver; cbn. rewrite <- app_assoc. f_equal.
    rewrite decide_False by (intros [H _]; by apply app_nil in H as [_ ?]).
    case_bool_decide; cbn; [by rewrite decide_True|by rewrite decide_False by tauto].
Qed.

(** What is delivered to a session when a message is posted. *)
Lemma delivered_snoc ps s p :
  joined s <= length ps -> (forall l, left s = Some l -> l <= length ps) ->
  delivered (ps ++ [p]) s = delivered ps s ++ (if decide (left s = None) then [snd p] else []).
Proof.
  intros Hj Hl. unfold delivered. destruct (left s) as [l|]; cbn [default].
  - rewrite decide_False, app_nil_r by done. rewrite fmap_app, take_app_le; [done|].
    rewrite length_fmap. by apply Hl.
  - rewrite decide_True by done. rewrite !take_ge by (rewrite length_fmap; lia).
    rewrite fmap_app, drop_app_le; [done|]. rewrite length_fmap. lia.
Qed.

Lemma reads_other ps i s j m :
  j <> i -> reads_ok ps i s -> reads_ok (ps ++ [(j, m)]) i s.
Proof. intros Hj. unfold reads_ok. by rewrite posted_by_snoc, decide_False, app_nil_r by done. Qed.

Lemma reads_deliver ps i s m : reads_ok ps i s -> reads_ok ps i (session_deliver s m).
Proof. done. Qed.

Lemma writes_deliver ps (inroom : Prop) `{Decision inroom} s p :
  writes_ok ps inroom s -> (inroom -> writing s = false -> write_msgs s = []) ->
  writes_ok (ps ++ [p]) inroom (if decide inroom then session_deliver s (snd p) else s).
Proof.
  intros (Hj & Hl & dn & part & Hd & Hs & Hw1 & Hw3) Hw2.
  assert (forall l, left s = Some l -> l <= length ps) as Hle by (intros l Hls; rewrite Hls in Hl; lia).
  pose proof (delivered_snoc ps s p Hj Hle) as Hsnoc. rewrite Hd in Hsnoc.
  destruct (decide inroom) as [Hin|Hin].
  - destruct (left s) as [l|] eqn:Hls; [tauto|]. cbn in Hsnoc.
    unfold writes_ok, session_deliver; cbn. split; [rewrite length_app; lia|]. split; [by rewrite Hls|].
    exists dn, part. unfold delivered in Hsnoc |- *. cbn [joined left]. rewrite Hls in Hsnoc |- *.
    rewrite Hsnoc, <- app_assoc. split; [done|]. split; [done|]. case_bool_decide as Hnil; cbn [negb].
    + split; [|done]. intros _. rewrite Hnil. split; [done|].
      destruct (writing s); [by apply Hw1|]. specialize (Hw3 eq_refl). rewrite Hnil in Hw3.
      by apply prefix_nil_inv in Hw3.
    + split; [intros Hw; split; [by destruct (write_msgs s)|by apply Hw1]|].
      intros Hw. by destruct Hnil, Hw2.
  - destruct (left s) as [l|] eqn:Hls; [|done]. cbn in Hsnoc. rewrite app_nil_r in Hsnoc.
    unfold writes_ok. rewrite Hls, length_app. split; [lia|]. split; [split; [done|lia]|]. by exists dn, part.
Qed.

Lemma session_deliver_idle s m : writing s = true \/ write_msgs s = [] -> writing (session_deliver s m) = true.
Proof. unfold session_deliver; cbn. case_bool_decide; cbn; [done|]. by intros [|]. Qed.

(** ** Preservation *)

Lemma join_ok w garbage : room_ok w -> length garbage = data_size -> room_ok (join w garbage).
Proof.
  intros [Hp Hr Hpar Hs] Hg. constructor; cbn.
  - rewrite length_app. eapply Forall_impl; [exact Hp|]. cbn. intros p [? ?]. split; [done|lia].
  - done.
  - intros i [->%elem_of_singleton|Hi%Hpar]%elem_of_union; rewrite length_app; cbn; lia.
  - intros i s [Hi|[Hi Heq]]%lookup_app_Some.
    + assert (i <> length (sessions w)) by (apply lookup_lt_Some in Hi; lia).
      destruct (Hs i s Hi) as (Hrd & (Hj & Hl & Hex) & Hin).
      assert (i ∈ ({[length (sessions w)]} ∪ participants w : gset nat) <-> i ∈ participants w) as Hiff by set_solver.
      unfold session_ok, writes_ok. rewrite Hiff. split_and!; try done. by destruct (left s); rewrite ?Hiff.
    + apply list_lookup_singleton_Some in Heq as [Hi0 <-]. rewrite foldl_deliver; cbn.
      assert (i = length (sessions w)) as -> by lia. split; [|split; [split_and!; cbn|]].
      * split; [done|]. exists []. cbn. rewrite app_nil_r. split; [|done]. unfold posted_by. rewrite filter_none; [done|].
        intros p Hin Heq. rewrite Forall_forall in Hp. destruct (Hp p Hin). lia.
      * done.
      * set_solver.
      * exists [], []. unfold delivered; cbn [joined left default]. rewrite take_ge by (rewrite length_fmap; lia).
        rewrite <- Hr. split; [done|]. split; [done|]. split.
        -- intros Hw. split; [|done]. case_decide as Hd; [by destruct Hd|done].
        -- intros _. apply prefix_nil.
      * intros _. split; [done|]. intros Hw. case_decide as Hd; [done|].
        destruct (recent_msgs w); [done|]. by destruct Hd.
Qed.

(** One session changes, and perhaps its place in the room. *)
Lemma session_change w i s s' par :
  room_ok w -> sessions w !! i = Some s -> (forall j, j <> i -> j ∈ par <-> j ∈ participants w) ->
  session_ok (posted w) (i ∈ par) i s' ->
  room_ok (Room par (recent_msgs w) (<[i := s']> (sessions w)) (posted w)).
Proof.
  intros [Hp Hr Hpar Hs] Hi Hj Hs'. pose proof (lookup_lt_Some _ _ _ Hi). constructor; cbn; rewrite ?length_insert; try done.
  - intros j Hjp. destruct (decide (j = i)) as [->|Hne]; [done|]. by apply Hpar, Hj.
  - intros j t [(-> & <- & _)|[Hne Ht]]%list_lookup_insert_Some; [done|].
    specialize (Hs j t Ht). unfold session_ok, writes_ok in *. specialize (Hj j ltac:(done)).
    destruct Hs as (? & (? & Hl & ?) & ?). split_and!; try done; [by destruct (left t); rewrite Hj|by rewrite Hj].
Qed.

(** The session after it left, however it was when it did. *)
Lemma leave_ok w i s s' :
  room_ok w -> sessions w !! i = Some s ->
  reads_ok (posted w) i s' -> writes_ok (posted w) (i ∈ participants w) s' ->
  room_ok (leave (set_session w i s') i).
Proof.
  intros Hw Hi Hrd (Hj & Hl & dn & part & Hd & Hrest). unfold leave, set_session; cbn.
  pose proof (lookup_lt_Some _ _ _ Hi) as Hlt.
  assert (forall (f : chat_session -> chat_session), alter f i (<[i:=s']> (sessions w)) = <[i := f s']> (sessions w)) as ->.
  { intros f. apply list_eq. intros j. destruct (decide (j = i)) as [->|].
    - rewrite list_lookup_alter_eq, !list_lookup_insert_eq; done.
    - by rewrite list_lookup_alter_ne, !list_lookup_insert_ne by done. }
  eapply session_change; [done..|set_solver|]. split; [done|]. split; [|set_solver].
  assert (i ∉ participants w ∖ {[i]}) as Hout by set_solver.
  unfold writes_ok, delivered; cbn. split; [done|]. split.
  { case_decide as Hin; [split; [done|lia]|]. destruct (left s'); [|done]. split; [done|lia]. }
  exists dn, part. split; [|done]. rewrite <- Hd. unfold delivered. case_decide as Hin; [|done].
  destruct (left s') as [l|]; [tauto|done].
Qed.

Lemma recent_post (ms : list chat_message) m :
  trim_recent (drop (length ms - max_recent_msgs) ms ++ [m]) =
  drop (length ms + 1 - max_recent_msgs) (ms ++ [m]).
Proof.
  rewrite trim_recent_drop, length_app, length_drop. cbn [length].
  rewrite <- drop_app_le by lia. rewrite drop_drop. f_equal. unfold max_recent_msgs. lia.
Qed.

Lemma room_deliver_ok w i s s' m :
  room_ok w -> sessions w !! i = Some s -> framed m ->
  writes_ok (posted w) (i ∈ participants w) s' ->
  (i ∈ participants w -> writing s' = false -> write_msgs s' = []) ->
  reads_ok (posted w ++ [(i, m)]) i s' -> reading s' <> None ->
  room_ok (room_deliver (set_session w i s') i m).
Proof.
  intros [Hp Hr Hpar Hs] Hi Hm Hwr Hidle Hrd Hne. pose proof (lookup_lt_Some _ _ _ Hi) as Hlt.
  constructor; cbn; rewrite ?length_imap, ?length_insert; try done.
  - apply Forall_app. split; [done|]. constructor; [by split|constructor].
  - rewrite Hr, length_app, fmap_app. rewrite <- (length_fmap snd (posted w)). apply recent_post.
  - intros j t Hj. rewrite list_lookup_imap in Hj.
    apply fmap_Some in Hj as (t0 & Ht0 & ->).
    assert (forall t0 : chat_session, writes_ok (posted w) (j ∈ participants w) t0 ->
      (j ∈ participants w -> reading t0 <> None /\ (writing t0 = false -> write_msgs t0 = [])) ->
      reads_ok (posted w ++ [(i, m)]) j t0 ->
      session_ok (posted w ++ [(i, m)]) (j ∈ participants w) j
        (if decide (j ∈ participants w) then session_deliver t0 m else t0)) as Hgen.
    { intros t1 Hw1 Hin1 Hr1. split; [by case_decide|]. split.
      - apply (writes_deliver _ _ _ (i, m)); [done|]. intros H1 H2. by apply Hin1.
      - intros Hjp. rewrite decide_True by done. destruct (Hin1 Hjp) as [H1 H2]. split; [done|].
        rewrite session_deliver_idle; [done|]. destruct (writing t1); [by left|right; by apply H2]. }
    apply list_lookup_insert_Some in Ht0 as [(-> & <- & _)|[Hji Ht0]].
    + apply Hgen; [done| |done]. intros Hjp. split; [done|]. by apply Hidle.
    + destruct (Hs j t0 Ht0) as (H1 & H2 & H3). apply Hgen; [done..|]. by apply reads_other.
Qed.

(** The handlers keep the invariant. *)
Lemma on_read_ok w i s op r :
  room_ok w -> sessions w !! i = Some s -> reading s = Some op -> possible_read (wanted (read_msg s) op) r = true ->
  exists w', on_read w i s op r = Some w' /\ room_ok w'.
Proof.
  intros Hw Hi Hop Hr. destruct (ok_sessions _ Hw i s Hi) as ((Hd & t & Hrec & Ht) & Hwr & Hin). rewrite Hop in Ht.
  assert (length (result_bytes r) <= wanted (read_msg s) op) as Hlen.
  { destruct r; cbn in *; [apply Nat.eqb_eq in Hr|apply Nat.ltb_lt in Hr]; lia. }
  assert (read_offset op + wanted (read_msg s) op <= data_size) as Hfit.
  { destruct op; cbn; [unfold data_size, header_length; lia|]. destruct Ht as (_ & _ & Hb & _).
    unfold max_body_length, header_length, data_size in *. lia. }
  unfold on_read. destruct (store_ok (data_ (read_msg s)) (read_offset op) (result_bytes r)) as (data & -> & Hdl & Hdt & _);
    [done|lia|]. cbn [mbind option_bind].
  assert (forall m u, length (data_ m) = data_size -> t ++ result_bytes r = u -> incomplete u ->
    room_ok (leave (set_session w i (set_read s m None (result_bytes r))) i)) as Hleave.
  { intros m u Hm <- Hinc. eapply leave_ok; [done..|split; [done|]|done]. exists (t ++ result_bytes r). cbn.
    by rewrite Hrec, <- app_assoc. }
  destruct r as [b|b]; cbn [result_bytes possible_read] in *.
  - apply Nat.eqb_eq in Hr. destruct op; cbn [wanted read_offset] in *.
    + subst t. cbn in Hdt. rewrite Hr in Hdt.
      assert (header_value data = header_value b) as Hh.
      { rewrite <- (header_value_take header_length data), Hdt by done. done. }
      unfold decode_header; cbn [data_]. destruct (Z.ltb_spec max_body_length (header_value data)).
      * eexists. split; [done|]. apply (Hleave _ b); [done..|]. intros (_ & Hv & _). lia.
      * eexists. split; [done|]. eapply session_change; [done..|]. split; [|split; [done|]].
        -- split; [done|]. exists b. cbn. rewrite Hrec, app_nil_r. split; [done|]. split; [done|].
           split; [done|]. cbn. pose proof (header_value_range data). split; [lia|done].
        -- intros Hpar. by destruct (Hin Hpar).
    + destruct Ht as (-> & Hf). destruct (body_read (read_msg s) data b Hf Hdl Hdt Hr) as [Hfr Hwire].
      eexists. split; [done|].
      apply (room_deliver_ok w i s); [done..| | | |done].
      * done.
      * intros Hpar. by apply Hin.
      * split; [done|]. exists []. cbn. rewrite posted_by_snoc, decide_True, concat_app by done. cbn. split; [|done].
        rewrite Hrec, !app_nil_r, <- app_assoc. do 2 f_equal. exact (eq_sym Hwire).
  - apply Nat.ltb_lt in Hr. eexists. split; [done|]. apply (Hleave (Message data _) _ Hdl eq_refl).
    intros (H1 & H2 & H3). destruct op; cbn [wanted] in *.
    + subst t. cbn in H1. lia.
    + destruct Ht as (-> & _ & Hb & Hv). rewrite length_app, length_take in H3.
      rewrite header_value_app, header_value_take, Hv in H3 by (rewrite ?length_take; unfold data_size, header_length in *; lia).
      lia.
Qed.

(** The queue of a session only holds posted messages. *)
Lemma queue_framed w i s :
  room_ok w -> sessions w !! i = Some s -> Forall framed (write_msgs s).
Proof.
  intros Hw Hi. destruct (ok_sessions _ Hw i s Hi) as (_ & (_ & _ & dn & part & Hd & _) & _).
  assert (Forall framed (delivered (posted w) s)) as H; [|rewrite Hd in H; by apply Forall_app in H as [_ ?]].
  apply Forall_drop, Forall_take, Forall_fmap. eapply Forall_impl; [apply (ok_posted _ Hw)|]. by intros p [? _].
Qed.

Lemma on_write_ok w i s error :
  room_ok w -> sessions w !! i = Some s -> writing s = true ->
  exists w', on_write w i s error = Some w' /\ room_ok w'.
Proof.
  intros Hw Hi Hwrt. pose proof (queue_framed w i s Hw Hi) as Hq.
  destruct (ok_sessions _ Hw i s Hi) as (Hrd & (Hj & Hl & dn & part & Hd & Hs & Hw1 & _) & Hin).
  destruct (Hw1 Hwrt) as [Hne ->]. rewrite app_nil_r in Hs. unfold on_write.
  destruct (write_msgs s) as [|front rest] eqn:Hqs; [done|]. apply Forall_cons in Hq as [Hf _].
  rewrite message_bytes_framed by done. cbn [mbind option_bind]. destruct error as [n|]; (eexists; split; [done|]).
  - eapply leave_ok; [done..|]. split; [done|]. split; [done|]. exists dn, (take n (wire front)).
    split_and!; [exact Hd|cbn; by rewrite Hs|done|]. intros _. cbn [write_msgs fmap list_fmap concat].
    apply prefix_app_r. exists (drop n (wire front)). by rewrite take_drop.
  - eapply session_change; [done..|]. split; [done|]. split.
    + split; [done|]. split; [done|]. exists (dn ++ [front]), []. unfold delivered; cbn.
      fold (delivered (posted w) s). rewrite Hd, <- app_assoc, fmap_app, concat_app, Hs. cbn. rewrite !app_nil_r.
      split_and!; [done|done| |].
      * intros Hb. split; [|done]. intros ->. done.
      * intros _. apply prefix_nil.
    + intros Hpar. destruct (Hin Hpar) as [Hr _]. split; [done|]. cbn. by destruct rest.
Qed.

Lemma chat_step_ok w e : room_ok w ->
  match chat_step w e with chat_next w' => room_ok w' | chat_disabled => True | chat_undefined => False end.
Proof.
  intros Hw. destruct e as [g| |i r|i err]; cbn [chat_step].
  - destruct (Nat.eqb_spec (length g) data_size); [by apply join_ok|done].
  - done.
  - destruct (sessions w !! i) as [s|] eqn:Hi; [|done]. destruct (reading s) as [op|] eqn:Hop; [|done].
    destruct (possible_read _ r) eqn:Hr; [|done].
    by destruct (on_read_ok w i s op r Hw Hi Hop Hr) as (w' & -> & ?).
  - destruct (sessions w !! i) as [s|] eqn:Hi; [|done]. destruct (writing s) eqn:Hwr; [|done].
    by destruct (on_write_ok w i s err Hw Hi Hwr) as (w' & -> & ?).
Qed.

Lemma init_room_ok : room_ok init_room.
Proof. by constructor. Qed.

Lemma chat_run_ok w es : room_ok w ->
  match chat_run w es with chat_next w' => room_ok w' | chat_disabled => True | chat_undefined => False end.
Proof.
  revert w. induction es as [|e es IH]; intros w Hw; [done|]. cbn [chat_run].
  pose proof (chat_step_ok w e Hw). destruct (chat_step w e); [by apply IH|done..].
Qed.

Lemma chat_run_inv es w : chat_run init_room es = chat_next w -> room_ok w.
Proof. intros Hr. pose proof (chat_run_ok init_room es init_room_ok) as H. by rewrite Hr in H. Qed.

Lemma sent_prefix ps inroom s :
  writes_ok ps inroom s ->
  sent s `prefix_of` concat (wire <$> delivered ps s) /\
  (writing s = false -> write_msgs s = [] -> sent s = concat (wire <$> delivered ps s)).
Proof.
  intros (_ & _ & dn & part & -> & -> & Hw1 & Hw3). rewrite fmap_app, concat_app. split.
  - apply prefix_app. destruct (writing s); [|by apply Hw3].
    destruct (Hw1 eq_refl) as [_ ->]. apply prefix_nil.
  - intros Hw Hq. specialize (Hw3 Hw). rewrite Hq in *. by apply prefix_nil_inv in Hw3 as ->.
Qed.

Lemma reads_frames ps n i s :
  Forall (fun p => framed (snd p) /\ fst p < n) ps -> reads_ok ps i s ->
  posted_by i ps `prefix_of` frames (received s) /\
  (~ (reading s = Some read_body /\ body_length_ (read_msg s) = 0%Z) -> posted_by i ps = frames (received s)).
Proof.
  intros Hps (_ & t & -> & Ht). pose proof (posted_by_frames i ps n Hps) as Hfs.
  assert (incomplete t -> posted_by i ps = frames (concat (posted_by i ps) ++ t)) as Hinc.
  { intros Hi. symmetry. by apply frames_of. }
  destruct (reading s) as [[]|].
  - subst t. rewrite <- Hinc by apply incomplete_nil. by split.
  - destruct Ht as [-> (Hd & Hb & Hv)].
    assert (length (take header_length (data_ (read_msg s))) = header_length) as Hl.
    { rewrite length_take, Hd. done. }
    destruct (decide (body_length_ (read_msg s) = 0%Z)) as [H0|Hne].
    + split; [|tauto]. assert (is_frame (take header_length (data_ (read_msg s)))) as Hf.
      { unfold is_frame. rewrite Hl, header_value_take, Hv, H0 by done. split_and!; [done|done|by cbn]. }
      pose proof (frames_of (posted_by i ps ++ [take header_length (data_ (read_msg s))]) []) as Hx.
      rewrite concat_app in Hx. cbn [concat] in Hx. rewrite !app_nil_r in Hx.
      rewrite Hx; [by exists [take header_length (data_ (read_msg s))]| |apply incomplete_nil].
      apply Forall_app. by split; [|constructor].
    + rewrite <- Hinc; [by split|]. intros (_ & _ & Hlen). rewrite header_value_take, Hv, Hl in Hlen by done. lia.
  - rewrite <- Hinc by done. by split.
Qed.

Lemma posted_delivered_framed w s : room_ok w -> Forall framed (delivered (posted w) s).
Proof.
  intros Hw. apply Forall_drop, Forall_take, Forall_fmap.
  eapply Forall_impl; [apply (ok_posted _ Hw)|]. by intros p [? _].
Qed.

(** ** Properties *)

(** C8: the chat server, under every interleaving of its handlers and whatever
    its clients send: nothing is transferred outside a message array; what a
    client posted is exactly the complete messages its bytes consist of, up to
    the first malformed one (a message without a body is posted by one more
    handler, until when it is missing); what a session was sent is an initial part of the
    hundred messages before it joined followed by every message until it left,
    in order, each once; all of it as soon as no write is outstanding while the
    session is in the room; and the history stays within one hundred. *)
Theorem chat_delivers es :
  match chat_run init_room es with
  | chat_next w =>
      length (recent_msgs w) <= max_recent_msgs /\
      forall i s, sessions w !! i = Some s ->
        posted_by i (posted w) `prefix_of` frames (received s) /\
        (~ (reading s = Some read_body /\ body_length_ (read_msg s) = 0%Z) ->
           posted_by i (posted w) = frames (received s)) /\
        sent s `prefix_of` concat (wire <$> delivered (posted w) s) /\
        (i ∈ participants w <-> left s = None) /\
        (i ∈ participants w -> reading s <> None /\
           (writing s = false -> sent s = concat (wire <$> delivered (posted w) s)))
  | chat_disabled => True
  | chat_undefined => False
  end.
Proof.
  pose proof (chat_run_ok init_room es init_room_ok) as Hw. destruct (chat_run init_room es) as [w| |]; try done.
  split; [rewrite (ok_recent _ Hw), length_drop, length_fmap; unfold max_recent_msgs; lia|].
  intros i s Hi. destruct (ok_sessions _ Hw i s Hi) as (Hrd & Hwr & Hin).
  destruct (reads_frames _ _ _ _ (ok_posted _ Hw) Hrd) as [Hf1 Hf2].
  destruct (sent_prefix _ _ _ Hwr) as [Hs1 Hs2]. split_and!; [done|done|done| |].
  - destruct Hwr as (_ & Hl & _). destruct (left s); [split; [tauto|done]|done].
  - intros Hpar. destruct (Hin Hpar) as [Hne Hq]. split; [done|]. intros Hwf. apply Hs2; [done|by apply Hq].
Qed.
