(* ===== verification/ChatClient.v ===== *)
(** * ChatClient: the chat client, and client and server together

    Models [boost/3.chat_client.cpp]: the thread of [main] turns lines of the
    standard input into messages and posts them, the other thread runs the
    handlers. One event is one handler or one function posted. An operation
    started on a socket that is not connected or was closed can only fail; one
    already under way when the socket is closed may still have succeeded. *)
From S2P Require Import Prelude Chat.

(** ** [main]: from lines to messages *)

(** [cin.getline(line, n + 1)]: the lines up to the first one longer than [n],
    which makes the stream fail. *)
Fixpoint getlines (n : nat) (line : str) (input : str) : list str :=
  match input with
  | [] => if decide (line = []) then [] else [line]
  | c :: input' =>
      if decide (c = LF) then line :: getlines n [] input'
      else if (n <? length line + 1)%nat then [] else getlines n (line ++ [c]) input'
  end.

(** [char line[max_body_length + 1]]. *)
Definition main_lines (stdin : str) : list str := getlines (Z.to_nat max_body_length) [] stdin.

(** The body of the loop, up to [c.write(msg)]. *)
Definition compose (garbage line : str) : option chat_message :=
  let text := c_str line in
  let msg := set_body_length (new_message garbage) (Z.of_nat (length text)) in
  data ← store (data_ msg) header_length (take (Z.to_nat (body_length_ msg)) text);
  encode_header (Message data (body_length_ msg)).

(** ** [chat_client] *)

Record chat_client := Client {
  connecting : bool;                     (* the connect is outstanding *)
  connected : bool;
  is_open : bool;                        (* the socket was not closed *)
  c_read_msg : chat_message;
  c_reading : option (read_op * bool);   (* the outstanding read, and whether it may succeed *)
  c_write_msgs : list chat_message;
  c_writing : option bool;               (* likewise *)
  printed : str;                         (* what went to the standard output *)
  c_received : str;                      (* ghost: what was read from the socket *)
  c_sent : str;                          (* ghost: what was written to it *)
  written : list chat_message }.         (* ghost: the messages posted so far *)

Definition new_client (garbage : str) : chat_client :=
  Client true false true (new_message garbage) None [] None [] [] [] [].

Definition usable (c : chat_client) : bool := connected c && is_open c.

Definition close_socket (c : chat_client) : chat_client :=
  Client (connecting c) (connected c) false (c_read_msg c) (c_reading c) (c_write_msgs c) (c_writing c)
    (printed c) (c_received c) (c_sent c) (written c).

(** A handler of the reads: what the message is now, what is printed, and which
    read is next. *)
Definition set_reading (c : chat_client) (m : chat_message) (op : option read_op) (bytes out : str) : chat_client :=
  Client (connecting c) (connected c) (is_open c) m ((fun o => (o, usable c)) <$> op) (c_write_msgs c) (c_writing c)
    (printed c ++ out) (c_received c ++ bytes) (c_sent c) (written c).

Definition set_writing (c : chat_client) (q : list chat_message) (start : bool) (bytes : str) : chat_client :=
  Client (connecting c) (connected c) (is_open c) (c_read_msg c) (c_reading c) q
    (if start then Some (usable c) else None) (printed c) (c_received c) (c_sent c ++ bytes) (written c).

(** [write]: the posted function. *)
Definition client_write (c : chat_client) (msg : chat_message) : chat_client :=
  let write_in_progress := negb (bool_decide (c_write_msgs c = [])) in
  Client (connecting c) (connected c) (is_open c) (c_read_msg c) (c_reading c) (c_write_msgs c ++ [msg])
    (if write_in_progress then c_writing c else Some (usable c))
    (printed c) (c_received c) (c_sent c) (written c ++ [msg]).

(** The handler of [do_connect]. *)
Definition on_connect (c : chat_client) (ok : bool) : chat_client :=
  let c' := Client false ok (is_open c) (c_read_msg c) (c_reading c) (c_write_msgs c) (c_writing c)
              (printed c) (c_received c) (c_sent c) (written c) in
  if ok then set_reading c' (c_read_msg c) (Some read_header) [] [] else c'.

(** The handlers of [do_read_header] and [do_read_body]. *)
Definition client_on_read (c : chat_client) (op : read_op) (r : read_result) : option chat_client :=
  data ← store (data_ (c_read_msg c)) (read_offset op) (result_bytes r);
  let m := Message data (body_length_ (c_read_msg c)) in
  match r, op with
  | read_error bytes, _ => Some (close_socket (set_reading c m None bytes []))
  | read_ok bytes, read_header =>
      let '(ok, m) := decode_header m in
      if ok : bool then Some (set_reading c m (Some read_body) bytes [])
      else Some (close_socket (set_reading c m None bytes []))
  | read_ok bytes, read_body => Some (set_reading c m (Some read_header) bytes (body m ++ [LF]))
  end.

(** The handler of [do_write]. *)
Definition client_on_write (c : chat_client) (error : option nat) : option chat_client :=
  match c_write_msgs c with
  | [] => None
  | front :: rest =>
      bytes ← message_bytes front;
      match error with
      | None => Some (set_writing c rest (negb (bool_decide (rest = []))) bytes)
      | Some n => Some (close_socket (set_writing c (c_write_msgs c) false (take n bytes)))
      end
  end.

Inductive client_event :=
  | connect_done (ok : bool)
  | line_posted (garbage line : str)     (* the function posted for a line *)
  | close_posted
  | client_read_done (r : read_result)
  | client_write_done (error : option nat).

Inductive client_outcome := client_next (c : chat_client) | client_disabled | client_undefined.
Definition client_of (o : option chat_client) : client_outcome :=
  match o with Some c => client_next c | None => client_undefined end.

Definition succeeded (r : read_result) : bool := match r with read_ok _ => true | read_error _ => false end.

Definition client_step (c : chat_client) (e : client_event) : client_outcome :=
  match e with
  | connect_done ok => if connecting c then client_next (on_connect c ok) else client_disabled
  | line_posted garbage line =>
      if (length garbage =? data_size)%nat && (Z.of_nat (length line) <=? max_body_length)%Z
      then client_of (client_write c <$> compose garbage line) else client_disabled
  | close_posted => client_next (close_socket c)
  | client_read_done r =>
      match c_reading c with
      | Some (op, may) =>
          if possible_read (wanted (c_read_msg c) op) r && (may || negb (succeeded r))
          then client_of (client_on_read c op r) else client_disabled
      | None => client_disabled
      end
  | client_write_done error =>
      match c_writing c with
      | Some may => if may || negb (bool_decide (error = None)) then client_of (client_on_write c error) else client_disabled
      | None => client_disabled
      end
  end.

Fixpoint client_run (c : chat_client) (es : list client_event) : client_outcome :=
  match es with
  | [] => client_next c
  | e :: es' =>
      match client_step c e with
      | client_next c' => client_run c' es'
      | o => o
      end
  end.

(** The lines posted by a run, as C strings. *)
Definition lines_posted (es : list client_event) : list str :=
  omap (fun e => match e with line_posted _ line => Some (c_str line) | _ => None end) es.

(** What a reader prints for a sequence of frames. *)
Definition print_frames (fs : list str) : str := concat ((fun f => drop header_length f ++ [LF]) <$> fs).

(** ** Messages *)

(** Encoding a length and decoding it, for every length there is. *)
Lemma header_roundtrip n :
  (0 <= n <= max_body_length)%Z ->
  let h := format_int 4 (int32 n) in length h = header_length /\ header_value h = n.
Proof.
  intros Hn.
  set (check := fun k => let h := format_int 4 (int32 (Z.of_nat k)) in
    (length h =? header_length)%nat && (header_value h =? Z.of_nat k)%Z).
  assert (forallb check (seq 0 513) = true) as Hall by (vm_compute; reflexivity).
  rewrite forallb_forall in Hall. specialize (Hall (Z.to_nat n)).
  rewrite <- list_elem_of_In, elem_of_seq in Hall. unfold max_body_length in Hn.
  assert (check (Z.to_nat n) = true) as Hk by (apply Hall; lia). subst check. cbv beta zeta in Hk.
  rewrite Z2Nat.id in Hk by lia. apply andb_true_iff in Hk as [Hk1 Hk2].
  split; [by apply Nat.eqb_eq|by apply Z.eqb_eq].
Qed.

(** Every line [main] posts fits a message. *)
Lemma getlines_length n line input :
  length line <= n -> Forall (fun l => length l <= n) (getlines n line input).
Proof.
  revert line. induction input as [|c input IH]; intros line Hl; cbn [getlines].
  - case_decide; [done|]. by repeat constructor.
  - case_decide; [constructor; [done|]; apply IH; cbn; lia|].
    destruct (Nat.ltb_spec n (length line + 1)); [done|]. apply IH. rewrite length_app. cbn. lia.
Qed.

Lemma main_lines_fit stdin : Forall (fun l => (Z.of_nat (length l) <= max_body_length)%Z) (main_lines stdin).
Proof.
  eapply Forall_impl; [apply getlines_length; cbn; lia|]. cbn beta. unfold max_body_length. lia.
Qed.

Lemma drop_wire m : drop header_length (wire m) = body m.
Proof. unfold wire, body. rewrite <- firstn_skipn_comm. done. Qed.

Lemma compose_ok garbage line :
  length garbage = data_size -> (Z.of_nat (length line) <= max_body_length)%Z ->
  exists m, compose garbage line = Some m /\ framed m /\ body m = c_str line.
Proof.
  intros Hg Hl. unfold compose. destruct (c_str_prefix line) as [t Ht].
  assert (Z.of_nat (length (c_str line)) <= max_body_length)%Z as Hc.
  { apply (f_equal length) in Ht. rewrite length_app in Ht. lia. }
  unfold set_body_length; cbn [body_length_ data_ new_message].
  destruct (Z.ltb_spec max_body_length (Z.of_nat (length (c_str line)))); [lia|].
  rewrite Nat2Z.id, firstn_all. unfold max_body_length in *.
  destruct (store_ok garbage header_length (c_str line)) as (d1 & -> & Hd1 & Ht1 & _); [done|unfold header_length, data_size; lia|].
  cbn [mbind option_bind]. unfold encode_header; cbn [body_length_ data_].
  destruct (header_roundtrip (Z.of_nat (length (c_str line)))) as [Hh1 Hh2]; [unfold max_body_length; lia|].
  set (h := format_int 4 _) in *. rewrite Hh1. cbn [header_length Nat.add Nat.ltb Nat.leb].
  destruct (store_ok d1 0 h) as (d2 & -> & Hd2 & Ht2 & Hr2); [done|rewrite Hh1; unfold header_length, data_size; lia|].
  cbn [mbind option_bind]. rewrite Hh1 in *. change (take header_length d2 = h) in Ht2.
  change (drop header_length d2 = drop header_length d1) in Hr2. eexists. split; [done|]. split.
  - split; [done|]. split; [unfold max_body_length; cbn; lia|]. cbn [data_ body_length_].
    by rewrite <- Hh2, <- Ht2, header_value_take.
  - unfold body; cbn [data_ body_length_]. rewrite Nat2Z.id, Hr2, firstn_skipn_comm, Ht1.
    rewrite drop_app_length'; [done|]. rewrite length_take. unfold data_size, header_length in *. lia.
Qed.

Lemma print_wires ms : print_frames (wire <$> ms) = concat ((fun m => body m ++ [LF]) <$> ms).
Proof. unfold print_frames. rewrite <- list_fmap_compose. f_equal. apply list_fmap_ext. intros j m _. unfold Basics.compose. by rewrite drop_wire. Qed.

Lemma print_frames_app fs gs : print_frames (fs ++ gs) = print_frames fs ++ print_frames gs.
Proof. unfold print_frames. by rewrite fmap_app, concat_app. Qed.

(** An initial part of a stream of frames: some frames, and an incomplete one. *)
Lemma frames_prefix fs x :
  Forall is_frame fs -> x `prefix_of` concat fs ->
  exists n t, x = concat (take n fs) ++ t /\ incomplete t.
Proof.
  intros Hfs. revert x. induction Hfs as [|f fs (Hf1 & Hf2 & Hf3) _ IH]; intros x Hx.
  - cbn in Hx. apply prefix_nil_inv in Hx as ->. exists 0, []. split; [done|apply incomplete_nil].
  - cbn [concat] in Hx. assert (f `prefix_of` f ++ concat fs) as Hf by by exists (concat fs).
    destruct (prefix_weak_total _ _ _ Hf Hx) as [[x' ->]|[y Hy]].
    + apply prefix_app_inv in Hx. destruct (IH x' Hx) as (n & t & -> & Ht).
      exists (S n), t. cbn. by rewrite app_assoc.
    + destruct y as [|c y].
      * rewrite app_nil_r in Hy. subst x. exists 1, []. cbn. rewrite !app_nil_r.
        split; [done|apply incomplete_nil].
      * exists 0, x. split; [done|]. intros (H1 & H2 & H3).
        rewrite Hy, header_value_app, length_app in Hf3 by done. cbn [length] in Hf3. lia.
Qed.

Lemma frames_of_prefix fs x :
  Forall is_frame fs -> x `prefix_of` concat fs -> frames x `prefix_of` fs.
Proof.
  intros Hfs (n & t & -> & Ht)%frames_prefix; [|done]. rewrite frames_of; [|by apply Forall_take|done].
  exists (drop n fs). by rewrite take_drop.
Qed.

(** ** Invariant of the client *)

Definition client_reads (c : chat_client) : Prop :=
  length (data_ (c_read_msg c)) = data_size /\
  (connecting c = true -> c_received c = [] /\ c_reading c = None) /\
  exists fs t, Forall is_frame fs /\ c_received c = concat fs ++ t /\ printed c = print_frames fs /\
    match c_reading c with
    | Some (read_header, _) => t = []
    | Some (read_body, _) => t = take header_length (data_ (c_read_msg c)) /\ framed (c_read_msg c)
    | None => incomplete t
    end.

Definition client_writes (c : chat_client) : Prop :=
  Forall framed (written c) /\
  exists dn part, written c = dn ++ c_write_msgs c /\ c_sent c = concat (wire <$> dn) ++ part /\
    (c_writing c <> None -> c_write_msgs c <> [] /\ part = []) /\
    (c_writing c = None -> part `prefix_of` concat (wire <$> c_write_msgs c)).

Definition client_ok (c : chat_client) : Prop := client_reads c /\ client_writes c.

Lemma new_client_ok garbage : length garbage = data_size -> client_ok (new_client garbage).
Proof.
  intros Hg. split.
  - split; [done|]. split; [done|]. exists [], []. split_and!; try done. apply incomplete_nil.
  - split; [by constructor|]. exists [], []. by split_and!.
Qed.

Lemma client_write_ok c m : client_ok c -> framed m -> client_ok (client_write c m).
Proof.
  intros [Hr (Hf & dn & part & Hw & Hs & Hw1 & Hw2)] Hm. split; [done|]. split.
  { cbn. apply Forall_app. by split; [|constructor]. }
  exists dn, part. cbn. rewrite Hw, <- app_assoc. split; [done|]. split; [done|].
  case_bool_decide as Hq; cbn [negb].
  - split; [|done]. intros _. rewrite Hq. split; [done|]. destruct (c_writing c); [by apply Hw1|].
    specialize (Hw2 eq_refl). rewrite Hq in Hw2. by apply prefix_nil_inv in Hw2.
  - split.
    + intros H. destruct (Hw1 H) as [_ ->]. split; [|done]. by destruct (c_write_msgs c).
    + intros H. rewrite fmap_app, concat_app. by apply prefix_app_r, Hw2.
Qed.

Lemma on_connect_ok c ok : client_ok c -> connecting c = true -> client_ok (on_connect c ok).
Proof.
  intros [(Hd & Hc & fs & t & Hfs & Hrec & Hp & Ht) Hw] Hcn. destruct (Hc Hcn) as [Hr0 Hno]. rewrite Hno in Ht.
  unfold on_connect. destruct ok; (split; [|exact Hw]); (split; [done|split; [done|]]); cbn.
  - exists [], []. rewrite Hr0, app_nil_r. split_and!; try done.
    assert (fs = []) as ->; [|by rewrite Hp]. rewrite Hr0 in Hrec. symmetry in Hrec. apply app_nil in Hrec as [Hrec _].
    destruct fs as [|f fs]; [done|]. apply Forall_cons in Hfs as [(Hf & _) _].
    cbn in Hrec. apply app_nil in Hrec as [-> _]. cbn in Hf. unfold header_length in Hf. lia.
  - exists fs, t. rewrite Hno. by split_and!.
Qed.

Lemma close_ok c : client_ok c -> client_ok (close_socket c).
Proof. done. Qed.

Lemma client_on_read_ok c op may r :
  client_ok c -> c_reading c = Some (op, may) -> possible_read (wanted (c_read_msg c) op) r = true ->
  exists c', client_on_read c op r = Some c' /\ client_ok c' /\ written c' = written c.
Proof.
  intros [(Hd & Hcn & fs & t & Hfs & Hrec & Hpr & Ht) Hw] Hop Hr. rewrite Hop in Ht.
  assert (connecting c = false) as Hnc.
  { destruct (connecting c); [|done]. destruct (Hcn eq_refl) as [_ ?]. congruence. }
  assert (length (result_bytes r) <= wanted (c_read_msg c) op) as Hlen.
  { destruct r; cbn in *; [apply Nat.eqb_eq in Hr|apply Nat.ltb_lt in Hr]; lia. }
  assert (read_offset op + wanted (c_read_msg c) op <= data_size) as Hfit.
  { destruct op; cbn; [unfold data_size, header_length; lia|]. destruct Ht as (_ & _ & Hb & _).
    unfold max_body_length, header_length, data_size in *. lia. }
  unfold client_on_read. destruct (store_ok (data_ (c_read_msg c)) (read_offset op) (result_bytes r))
    as (data & -> & Hdl & Hdt & _); [done|lia|]. cbn [mbind option_bind].
  assert (forall m, length (data_ m) = data_size -> incomplete (t ++ result_bytes r) ->
    client_ok (close_socket (set_reading c m None (result_bytes r) []))) as Hclose.
  { intros m Hm Hinc. split; [|exact Hw]. split; [done|]. split; [cbn; by rewrite Hnc|].
    exists fs, (t ++ result_bytes r). cbn. rewrite Hrec, Hpr, app_nil_r, <- app_assoc. by split_and!. }
  destruct r as [b|b]; cbn [result_bytes possible_read] in *.
  - apply Nat.eqb_eq in Hr. destruct op; cbn [wanted read_offset] in *.
    + subst t. rewrite Hr in Hdt. change (take header_length data = b) in Hdt.
      assert (header_value data = header_value b) as Hh by (by rewrite <- Hdt, header_value_take).
      unfold decode_header; cbn [data_]. destruct (Z.ltb_spec max_body_length (header_value data)).
      * eexists. split; [done|]. split; [|done]. apply Hclose; [done|]. cbn. intros (_ & Hv & _). lia.
      * eexists. split; [done|]. split; [|done]. split; [|exact Hw]. split; [done|]. split; [cbn; by rewrite Hnc|].
        exists fs, b. cbn. rewrite Hrec, Hpr, !app_nil_r. split_and!; try done.
        split; [done|]. cbn. pose proof (header_value_range data). split; [lia|done].
    + destruct Ht as (-> & Hf). destruct (body_read (c_read_msg c) data b Hf Hdl Hdt Hr) as [Hfr Hwire].
      eexists. split; [done|]. split; [|done]. split; [|exact Hw]. split; [done|]. split; [cbn; by rewrite Hnc|].
      exists (fs ++ [wire (Message data (body_length_ (c_read_msg c)))]), []. split_and!.
      * apply Forall_app. split; [done|]. constructor; [by apply wire_frame|done].
      * cbn [c_received set_reading]. rewrite Hrec, concat_app, !app_nil_r, Hwire. cbn. by rewrite app_nil_r, <- app_assoc.
      * cbn [printed set_reading]. rewrite print_frames_app, Hpr. f_equal. unfold print_frames.
        cbn [fmap list_fmap concat]. by rewrite drop_wire, app_nil_r.
      * done.
  - apply Nat.ltb_lt in Hr. eexists. split; [done|]. split; [|done]. apply Hclose; [done|].
    intros (H1 & H2 & H3). destruct op; cbn [wanted] in *.
    + subst t. cbn in H1. lia.
    + destruct Ht as (-> & _ & Hb & Hv). rewrite length_app, length_take in H3.
      rewrite header_value_app, header_value_take, Hv in H3 by (rewrite ?length_take; unfold data_size, header_length in *; lia).
      lia.
Qed.

Lemma client_on_write_ok c may error :
  client_ok c -> c_writing c = Some may ->
  exists c', client_on_write c error = Some c' /\ client_ok c' /\ written c' = written c.
Proof.
  intros [Hrd (Hf & dn & part & Hw & Hs & Hw1 & _)] Hwr. destruct (Hw1 ltac:(by rewrite Hwr)) as [Hne ->].
  rewrite app_nil_r in Hs. unfold client_on_write.
  destruct (c_write_msgs c) as [|front rest] eqn:Hq; [done|].
  assert (framed front) as Hfr. { rewrite Hw in Hf. apply Forall_app in Hf as [_ Hf]. by apply Forall_cons in Hf as [? _]. }
  rewrite message_bytes_framed by done. cbn [mbind option_bind].
  destruct error as [n|]; (eexists; split; [done|]; split; [|done]; split; [exact Hrd|]; split; [exact Hf|]).
  - exists dn, (take n (wire front)). split_and!; [exact Hw|cbn; by rewrite Hs|done|].
    intros _. cbn [close_socket set_writing c_write_msgs fmap list_fmap concat].
    apply prefix_app_r. exists (drop n (wire front)). by rewrite take_drop.
  - exists (dn ++ [front]), []. split_and!.
    + cbn. by rewrite Hw, <- app_assoc.
    + cbn. by rewrite fmap_app, concat_app, Hs, !app_nil_r; cbn; rewrite app_nil_r.
    + cbn. case_bool_decide; done.
    + intros _. apply prefix_nil.
Qed.

Lemma client_step_ok c e : client_ok c ->
  match client_step c e with
  | client_next c' => client_ok c' /\ body <$> written c' = (body <$> written c) ++ lines_posted [e]
  | client_disabled => True
  | client_undefined => False
  end.
Proof.
  intros Hc. destruct e as [ok|g line| |r|err]; cbn [client_step lines_posted omap list_omap].
  - destruct (connecting c) eqn:Hcn; [|done]. split; [by apply on_connect_ok|]. rewrite app_nil_r. by destruct ok.
  - destruct (Nat.eqb_spec (length g) data_size) as [Hg|]; [|done].
    destruct (Z.leb_spec (Z.of_nat (length line)) max_body_length); [|done].
    destruct (compose_ok g line) as (m & -> & Hm & Hb); [done..|]. cbn. split; [by apply client_write_ok|].
    by rewrite fmap_app, <- Hb.
  - split; [by apply close_ok|]. by rewrite app_nil_r.
  - destruct (c_reading c) as [[op may]|] eqn:Hop; [|done].
    destruct (possible_read _ r) eqn:Hr; [|done]. destruct (may || _); [|done].
    destruct (client_on_read_ok c op may r Hc Hop Hr) as (c' & -> & ? & Hwc). cbn. by rewrite app_nil_r, Hwc.
  - destruct (c_writing c) as [may|] eqn:Hwr; [|done]. destruct (may || _); [|done].
    destruct (client_on_write_ok c may err Hc Hwr) as (c' & -> & ? & Hwc). cbn. by rewrite app_nil_r, Hwc.
Qed.

Lemma lines_posted_app es fs : lines_posted (es ++ fs) = lines_posted es ++ lines_posted fs.
Proof. unfold lines_posted. apply omap_app. Qed.

Lemma client_run_ok c es : client_ok c ->
  match client_run c es with
  | client_next c' => client_ok c' /\ body <$> written c' = (body <$> written c) ++ lines_posted es
  | client_disabled => True
  | client_undefined => False
  end.
Proof.
  revert c. induction es as [|e es IH]; intros c Hc; [split; [done|by rewrite app_nil_r]|]. cbn [client_run].
  pose proof (client_step_ok c e Hc) as Hs. destruct (client_step c e) as [c1| |]; try done. destruct Hs as [H1 Hw].
  specialize (IH c1 H1). destruct (client_run c1 es) as [c2| |]; try done. destruct IH as [H2 Hw2]. split; [done|].
  rewrite Hw2, Hw, <- app_assoc. by rewrite <- lines_posted_app.
Qed.

Lemma printed_prefix c : client_reads c -> exists fs, Forall is_frame fs /\ printed c = print_frames fs /\
  fs `prefix_of` frames (c_received c).
Proof.
  intros (Hd & _ & fs & t & Hfs & -> & Hp & Ht). exists fs. split_and!; try done.
  assert (incomplete t -> fs `prefix_of` frames (concat fs ++ t)) as Hinc by (intros; by rewrite frames_of).
  destruct (c_reading c) as [[[] may]|]; [subst t; apply Hinc, incomplete_nil| |by apply Hinc].
  destruct Ht as [-> (_ & Hb & Hv)]. destruct (decide (incomplete (take header_length (data_ (c_read_msg c))))) as [Hi|Hi].
  - by apply Hinc.
  - assert (is_frame (take header_length (data_ (c_read_msg c)))) as Hf.
    { unfold incomplete in Hi. rewrite header_value_take, Hv in Hi by done.
      unfold is_frame. rewrite header_value_take, Hv by done. rewrite length_take in *.
      unfold data_size, header_length in *. split_and!; lia. }
    pose proof (frames_of (fs ++ [take header_length (data_ (c_read_msg c))]) []) as Hx.
    rewrite concat_app in Hx. cbn [concat] in Hx. rewrite !app_nil_r in Hx.
    rewrite Hx; [by exists [take header_length (data_ (c_read_msg c))]| |apply incomplete_nil].
    apply Forall_app. by split; [|constructor].
Qed.

Lemma print_frames_prefix fs gs : fs `prefix_of` gs -> print_frames fs `prefix_of` print_frames gs.
Proof. intros [hs ->]. rewrite print_frames_app. by apply prefix_app_r. Qed.

Lemma sent_written c : client_writes c -> c_sent c `prefix_of` concat (wire <$> written c).
Proof.
  intros (_ & dn & part & -> & -> & Hw1 & Hw2). rewrite fmap_app, concat_app. apply prefix_app.
  destruct (c_writing c); [|by apply Hw2]. destruct (Hw1 ltac:(done)) as [_ ->]. apply prefix_nil.
Qed.

Lemma wires_frames ms : Forall framed ms -> Forall is_frame (wire <$> ms).
Proof. intros H. apply Forall_fmap. eapply Forall_impl; [exact H|]. apply wire_frame. Qed.

(** ** Properties *)

(** The chat client, under every interleaving of its two threads and
    whatever the server sends: nothing is transferred outside a message array;
    the messages it posts carry the lines typed, in order; the bytes it sends
    are an initial part of those messages; and what it prints is the bodies of
    complete messages of what it received, one per line. *)
Theorem client_correct garbage es :
  length garbage = data_size ->
  match client_run (new_client garbage) es with
  | client_next c =>
      body <$> written c = lines_posted es /\
      c_sent c `prefix_of` concat (wire <$> written c) /\
      frames (concat (wire <$> written c)) = wire <$> written c /\
      printed c `prefix_of` print_frames (frames (c_received c))
  | client_disabled => True
  | client_undefined => False
  end.
Proof.
  intros Hg. pose proof (client_run_ok _ es (new_client_ok _ Hg)) as Hc.
  destruct (client_run _ es) as [c| |]; try done. destruct Hc as [[Hr Hw] Hb]. split_and!.
  - done.
  - by apply sent_written.
  - rewrite <- (app_nil_r (concat _)). apply frames_of; [apply wires_frames, Hw|apply incomplete_nil].
  - destruct (printed_prefix c Hr) as (fs & _ & -> & Hfs). by apply print_frames_prefix.
Qed.

(** C15: from keyboard to screen: take any run of the server and any run of a
    client connected to its session [i], so that each has read an initial part
    of what the other sent. What the session posted to the room is an initial
    part of the lines typed, and what the client printed is an initial part of
    the hundred messages before it joined and all those after, one per line. *)
Theorem chat_end_to_end es w i s garbage ces c :
  chat_run init_room es = chat_next w -> sessions w !! i = Some s ->
  length garbage = data_size -> client_run (new_client garbage) ces = client_next c ->
  received s `prefix_of` c_sent c -> c_received c `prefix_of` sent s ->
  (drop header_length <$> posted_by i (posted w)) `prefix_of` lines_posted ces /\
  printed c `prefix_of` concat ((fun m => body m ++ [LF]) <$> delivered (posted w) s).
Proof.
  intros Hrun Hi Hg Hcrun Hup Hdown. pose proof (chat_run_inv es w Hrun) as Hw.
  pose proof (client_run_ok _ ces (new_client_ok _ Hg)) as Hc. rewrite Hcrun in Hc. destruct Hc as [[Hr Hcw] Hb].
  destruct (ok_sessions _ Hw i s Hi) as (Hrd & Hwr & _). split.
  - destruct (reads_frames _ _ _ _ (ok_posted _ Hw) Hrd) as [Hf _].
    assert (posted_by i (posted w) `prefix_of` wire <$> written c) as Hp.
    { etrans; [exact Hf|]. apply frames_of_prefix; [apply wires_frames, Hcw|].
      etrans; [exact Hup|]. by apply sent_written. }
    change (body <$> written (new_client garbage)) with (@nil str) in Hb. cbn [app] in Hb. rewrite <- Hb.
    destruct Hp as [k Hk]. exists (drop header_length <$> k). rewrite <- fmap_app, <- Hk, <- list_fmap_compose.
    apply list_fmap_ext. intros j m _. unfold Basics.compose. by rewrite drop_wire.
  - destruct (printed_prefix c Hr) as (fs & _ & -> & Hfs). rewrite <- print_wires. apply print_frames_prefix.
    etrans; [exact Hfs|]. apply frames_of_prefix; [by apply wires_frames, posted_delivered_framed|].
    etrans; [exact Hdown|]. by apply (sent_prefix _ _ _ Hwr).
Qed.

(** ** Witnesses: two clients, one of which says hello *)

Definition blank : str := replicate 516 NUL.
Definition hello_header : str := lit "   5".

Definition client_events : list client_event :=
  [connect_done true; line_posted blank (lit "hello"); client_write_done None;
   client_read_done (read_ok hello_header); client_read_done (read_ok (lit "hello"))].
Definition server_events : list chat_event :=
  [accepted blank; accepted blank; read_done 0 (read_ok hello_header); read_done 0 (read_ok (lit "hello"));
   write_done 1 None; write_done 0 None].

Definition example_client : chat_client :=
  match client_run (new_client blank) client_events with client_next c => c | _ => new_client blank end.
Definition example_room : chat_room :=
  match chat_run init_room server_events with chat_next w => w | _ => init_room end.

Theorem client_correct_witness :
  body <$> written example_client = [lit "hello"] /\ printed example_client = lit "hello" ++ [LF].
Proof.
  pose proof (client_correct blank client_events eq_refl) as H.
  assert (client_run (new_client blank) client_events = client_next example_client) as Hr by (vm_compute; reflexivity).
  rewrite Hr in H. destruct H as (H & _). split; [exact H|vm_compute; reflexivity].
Defined.

Definition example_session : chat_session :=
  default (Session (new_message blank) None [] false [] [] 0 None) (sessions example_room !! 0).

Theorem chat_end_to_end_witness :
  (drop header_length <$> posted_by 0 (posted example_room)) `prefix_of` [lit "hello"] /\
  printed example_client `prefix_of` concat ((fun m => body m ++ [LF]) <$> delivered (posted example_room) example_session).
Proof.
  refine (chat_end_to_end server_events example_room 0 example_session blank client_events example_client _ _ eq_refl _ _ _).
  - vm_compute. reflexivity.
  - vm_compute. reflexivity.
  - vm_compute. reflexivity.
  - exists []. vm_compute. reflexivity.
  - exists []. vm_compute. reflexivity.
Defined.

(** Closing the client as soon as its input ends drops what is still queued. *)
Example close_drops_queue :
  exists c, client_run (new_client blank)
    [connect_done true; line_posted blank (lit "one"); line_posted blank (lit "two"); close_posted; client_write_done (Some 0)]
    = client_next c /\ c_sent c = [] /\ length (written c) = 2.
Proof. eexists. split; [vm_compute; reflexivity|]. split; vm_compute; reflexivity. Qed.
