(* ===== verification/ThreadPool.v ===== *)
(** * ThreadPool: the thread pools of [zl_threadpool]

    Models the pools of [03_ThreadPool], [ThreadPoolCpp14], [ThreadPoolCpp11],
    [ThreadPoolCpp03] and [ThreadPoolCpp98]: a queue of tasks behind a mutex and
    a condition variable, workers that take tasks from it, threads that submit
    tasks and an owner that stops the pool. They differ in five points, the
    fields of [kind].

    One step is what a thread does between two points where another thread can
    get in between. A worker that found nothing to do still holds the mutex
    while it goes to sleep on the condition variable, and it is in this window
    that a notification sent without the mutex is lost; it is a state of its
    own. Tasks are numbers. A task may be null where the pool takes plain functions
    or pointers (C++03, C++98); a [packaged_task] is never null, and a null function
    given to the pool of C++14, whose call would end the program, is not modelled. *)
From S2P Require Import Prelude.

(** ** The pools *)

(** What a worker does with a null task it has taken: there is none and it calls
    the task, it ends, it looks at the queue again. *)
Inductive null_task := N_called | N_ends | N_skipped.

Record kind := Kind {
  stop_locked : bool;   (* the stop flag is set while the mutex is held *)
  drains : bool;        (* a stopped worker first empties the queue *)
  rejects : bool;       (* a stopped pool refuses tasks *)
  top_check : bool;     (* the loop of a worker tests the flag before it locks *)
  on_null : null_task }.

Definition kind_03 : kind := Kind true true true false N_called.
Definition kind_cpp14 : kind := Kind true true false false N_called.
Definition kind_cpp11 : kind := Kind false false true true N_called.
Definition kind_cpp03 : kind := Kind false false false true N_ends.
Definition kind_cpp98 : kind := Kind false false false true N_skipped.

(** A worker is at the head of its loop, about to lock and look at the queue,
    about to sleep with the mutex still held, asleep, in a task, or has
    returned. *)
Inductive worker := W_top | W_check | W_blocking | W_wait | W_run (t : nat) | W_exit.
#[export] Instance worker_eq_dec : EqDecision worker.
Proof. solve_decision. Defined.

(** The owner has not stopped the pool, has set the flag, has notified. *)
Inductive owner_state := O_alive | O_stopped | O_notified.
#[export] Instance owner_eq_dec : EqDecision owner_state.
Proof. solve_decision. Defined.

Record pool := Pool {
  workers : list worker;
  tasks : list nat;
  owner : owner_state;
  to_notify : nat;          (* submitters between their unlock and [notify_one] *)
  submitted : list nat;     (* ghost: the tasks accepted, in order *)
  started : list nat;       (* ghost: the tasks taken from the queue, in order *)
  finished : list nat }.    (* ghost: the tasks that returned *)

Definition stop (p : pool) : bool := bool_decide (owner p <> O_alive).
Definition mutex_free (p : pool) : bool := bool_decide (W_blocking ∉ workers p).

Definition new_pool (threads : nat) : pool := Pool (replicate threads W_top) [] O_alive 0 [] [] [].

Definition set_worker (p : pool) (i : nat) (w : worker) : pool :=
  Pool (<[i := w]> (workers p)) (tasks p) (owner p) (to_notify p) (submitted p) (started p) (finished p).

Definition wake (w : worker) : worker := match w with W_wait => W_check | _ => w end.

Section pool.

(** Which tasks are null. *)
Variable null : nat -> bool.

(** The state of a worker that has taken [t] from the queue. *)
Definition hand (k : kind) (t : nat) : worker :=
  match on_null k with
  | N_called => W_run t
  | N_ends => if null t then W_exit else W_run t
  | N_skipped => if null t then W_check else W_run t
  end.

(** The function of worker [i], to the next point where it may be overtaken. *)
Definition worker_step (k : kind) (p : pool) (i : nat) : option pool :=
  w ← workers p !! i;
  match w with
  | W_top => Some (set_worker p i (if top_check k && stop p then W_exit else W_check))
  | W_check =>
      if mutex_free p then
        match tasks p with
        | t :: rest =>
            if stop p && negb (drains k) then Some (set_worker p i W_exit)
            else Some (Pool (<[i := hand k t]> (workers p)) rest (owner p) (to_notify p)
                         (submitted p) (started p ++ [t]) (finished p))
        | [] => Some (set_worker p i (if stop p then W_exit else W_blocking))
        end
      else None
  | W_blocking => Some (set_worker p i W_wait)
  | W_run t =>
      Some (Pool (<[i := W_top]> (workers p)) (tasks p) (owner p) (to_notify p)
              (submitted p) (started p) (finished p ++ [t]))
  | W_wait | W_exit => None
  end.

(** Submitting a task, up to the unlock; a pool that refuses it throws and is
    unchanged. *)
Definition submit (k : kind) (p : pool) (t : nat) : option pool :=
  if mutex_free p then
    if rejects k && stop p then Some p
    else Some (Pool (workers p) (tasks p ++ [t]) (owner p) (S (to_notify p)) (submitted p ++ [t]) (started p) (finished p))
  else None.

(** [notify_one]: some sleeping worker is woken, if there is one. *)
Definition notified (p : pool) : pool :=
  Pool (workers p) (tasks p) (owner p) (pred (to_notify p)) (submitted p) (started p) (finished p).
Definition notify_one (p : pool) (i : nat) : option pool :=
  if decide (0 < to_notify p /\ workers p !! i = Some W_wait) then Some (set_worker (notified p) i W_check) else None.
Definition notify_nobody (p : pool) : option pool :=
  if decide (0 < to_notify p /\ W_wait ∉ workers p) then Some (notified p) else None.

(** Stopping: the flag, then [notify_all] without the mutex. *)
Definition stop_set (k : kind) (p : pool) : option pool :=
  if decide (owner p = O_alive /\ (stop_locked k = true -> mutex_free p = true)) then
    Some (Pool (workers p) (tasks p) O_stopped (to_notify p) (submitted p) (started p) (finished p))
  else None.
Definition notify_all (p : pool) : option pool :=
  if decide (owner p = O_stopped) then
    Some (Pool (wake <$> workers p) (tasks p) O_notified (to_notify p) (submitted p) (started p) (finished p))
  else None.

Inductive pool_event :=
  | worker_runs (i : nat) | task_submitted (t : nat) | one_notified (i : nat) | nobody_notified
  | flag_set | all_notified | spurious_wakeup (i : nat).

Definition pool_step (k : kind) (p : pool) (e : pool_event) : option pool :=
  match e with
  | worker_runs i => worker_step k p i
  | task_submitted t => submit k p t
  | one_notified i => notify_one p i
  | nobody_notified => notify_nobody p
  | flag_set => stop_set k p
  | all_notified => notify_all p
  | spurious_wakeup i => if decide (workers p !! i = Some W_wait) then Some (set_worker p i W_check) else None
  end.

Fixpoint pool_run (k : kind) (p : pool) (es : list pool_event) : option pool :=
  match es with
  | [] => Some p
  | e :: es' => p' ← pool_step k p e; pool_run k p' es'
  end.

(** ** The operations as the files name them *)

(** [03_ThreadPool]: the constructor's lambda, [enqueue], the destructor. *)
Definition ThreadPool_03 := worker_step kind_03.
Definition enqueue_03 := submit kind_03.
Definition destroy_03 (p : pool) : option pool := p' ← stop_set kind_03 p; notify_all p'.

(** [ThreadPoolCpp14]: detached workers, [execute], the destructor. *)
Definition ThreadPool_cpp14 := worker_step kind_cpp14.
Definition execute_cpp14 := submit kind_cpp14.
Definition destroy_cpp14 (p : pool) : option pool := p' ← stop_set kind_cpp14 p; notify_all p'.

(** [ThreadPoolCpp11]: the constructor's lambda, [add], [stop]. *)
Definition ThreadPool_cpp11 := worker_step kind_cpp11.
Definition add_cpp11 := submit kind_cpp11.
Definition stop_cpp11 := stop_set kind_cpp11.

(** [ThreadPoolCpp03] and [ThreadPoolCpp98]: [threadFunc] with [take],
    [addTask], and [stop] up to its broadcast. *)
Definition threadFunc_cpp03 := worker_step kind_cpp03.
Definition addTask_cpp03 := submit kind_cpp03.
Definition stop_cpp03 := stop_set kind_cpp03.
Definition threadFunc_cpp98 := worker_step kind_cpp98.
Definition addTask_cpp98 := submit kind_cpp98.
Definition stop_cpp98 := stop_set kind_cpp98.

(** ** Specification *)

Definition running_task (w : worker) : option nat := match w with W_run t => Some t | _ => None end.
Definition all_exited (p : pool) : Prop := Forall (eq W_exit) (workers p).
Definition awake (w : worker) : bool :=
  match w with W_wait | W_exit | W_blocking => false | _ => true end.
Definition exited (w : worker) : bool := match w with W_exit => true | _ => false end.
Definition count (f : worker -> bool) (ws : list worker) : nat := sum_list ((fun w => if f w then 1 else 0) <$> ws).
#[local] Arguments count : simpl never.

(** Whether a task that is taken is run, and how many workers ended with the tasks
    taken. *)
Definition runs (k : kind) (t : nat) : bool := match on_null k with N_called => true | _ => negb (null t) end.
Definition ended_by (k : kind) (ts : list nat) : nat :=
  match on_null k with N_ends => length (filter (fun t => null t = true) ts) | _ => 0 end.

Definition submits (e : pool_event) : bool := match e with task_submitted _ => true | _ => false end.
Definition submit_steps (es : list pool_event) : nat := length (filter (fun e => submits e = true) es).
Definition other_steps (es : list pool_event) : nat := length (filter (fun e => submits e = false) es).

(** After the owner has notified, the workers can always run to their end, by steps
    of their own, and whatever the schedule, the steps are bounded in the number of
    tasks still submitted. *)
Definition shutdown_safe (k : kind) : Prop :=
  forall n es p, pool_run k (new_pool n) es = Some p -> owner p = O_notified ->
  (exists order p', pool_run k p (worker_runs <$> order) = Some p' /\ all_exited p') /\
  (exists bound, forall es' p', pool_run k p es' = Some p' -> other_steps es' <= bound + 4 * submit_steps es').

(** ** Invariant *)

Record pool_ok (k : kind) (n : nat) (p : pool) : Prop := {
  ok_size : length (workers p) = n;
  ok_fifo : started p ++ tasks p = submitted p;
  ok_running : filter (fun t => runs k t = true) (started p) ≡ₚ finished p ++ omap running_task (workers p);
  ok_alive : owner p = O_alive -> count exited (workers p) = ended_by k (started p);
  ok_blocking : W_blocking ∈ workers p -> tasks p = [];
  ok_awake : owner p = O_alive -> W_wait ∉ workers p \/ length (tasks p) <= to_notify p + count awake (workers p) }.

Lemma counted_insert f ws i w w' :
  ws !! i = Some w ->
  count f (<[i := w']> ws) + (if f w then 1 else 0) = count f ws + (if f w' then 1 else 0).
Proof. intros Hi. apply (weight_insert (fun w => if f w then 1 else 0) _ _ _ w' Hi). Qed.

Lemma count_pos f ws : 0 < count f ws <-> exists i w, ws !! i = Some w /\ f w = true.
Proof.
  induction ws as [|w ws IH]; [split; [by intros ?%Nat.lt_irrefl|by intros (i & w & H & _)]|].
  change (count f (w :: ws)) with ((if f w then 1 else 0) + count f ws). split.
  - destruct (f w) eqn:Hw; [by exists 0, w|]. intros (i & v & Hi & Hv)%IH. by exists (S i), v.
  - intros ([|i] & v & Hi & Hv); [injection Hi as <-; rewrite Hv; lia|]. assert (0 < count f ws) by (apply IH; by exists i, v). lia.
Qed.

Lemma count_le f ws : count f ws <= length ws.
Proof. induction ws as [|w ws IH]; [done|]. unfold count in *. cbn. destruct (f w); lia. Qed.

Lemma hand_running k t : option_list (running_task (hand k t)) = filter (fun t => runs k t = true) [t].
Proof. unfold hand, runs. rewrite filter_cons, filter_nil. by destruct (on_null k), (null t). Qed.

Lemma hand_exited k ts t : (if exited (hand k t) then 1 else 0) + ended_by k ts = ended_by k (ts ++ [t]).
Proof.
  unfold hand, ended_by. destruct (on_null k); [done| |by destruct (null t)].
  rewrite filter_app, filter_cons, filter_nil, length_app. destruct (null t); [rewrite decide_True by done|rewrite decide_False by done]; cbn; lia.
Qed.

Lemma hand_cases k t : hand k t = W_run t \/ hand k t = W_exit \/ hand k t = W_check.
Proof. unfold hand. destruct (on_null k), (null t); auto. Qed.

Lemma stop_false p : stop p = false <-> owner p = O_alive.
Proof. unfold stop. rewrite bool_decide_eq_false. split; [apply dec_stable|by intros -> ?]. Qed.

(** A worker that neither takes nor ends a task changes its state. *)
Lemma set_worker_ok k n p i w w' :
  pool_ok k n p -> workers p !! i = Some w -> running_task w = running_task w' -> w <> W_exit ->
  (w' = W_exit -> owner p <> O_alive) -> (w' = W_blocking -> tasks p = []) ->
  (awake w' = true \/ tasks p = [] \/ owner p <> O_alive) -> pool_ok k n (set_worker p i w').
Proof.
  intros [Hs Hf Hr Ha Hb Hw] Hi Hrun Hx Hex Hbl Hawk. constructor; cbn; try done.
  - by rewrite length_insert.
  - destruct (omap_at running_task _ _ _ Hi) as (rest & Hr1 & Hr2). by rewrite Hr, Hr1, Hr2, Hrun.
  - intros Ho. rewrite <- Ha by done. pose proof (counted_insert exited _ _ _ w' Hi) as Hc.
    destruct w; try done; destruct w'; cbn in Hc; try lia; by destruct (Hex eq_refl).
  - intros [Heq|Hin]%elem_insert; [by apply Hbl|by apply Hb].
  - intros Ho. destruct Hawk as [Hawk|[Ht|]]; [|right; rewrite Ht; cbn; lia|done].
    pose proof (counted_insert awake _ _ _ w' Hi) as Hc. rewrite Hawk in Hc.
    destruct (Hw Ho) as [Hnw|Hle]; [left|right; destruct (awake w); lia].
    intros [Heq|Hin]%elem_insert; [by subst|by apply Hnw].
Qed.

Lemma stop_true p : stop p = true -> owner p <> O_alive.
Proof. intros Hs H%stop_false. congruence. Qed.

(** A worker takes the first task. *)
Lemma task_taken_ok k n p i t rest :
  pool_ok k n p -> workers p !! i = Some W_check -> W_blocking ∉ workers p -> tasks p = t :: rest ->
  pool_ok k n (Pool (<[i := hand k t]> (workers p)) rest (owner p) (to_notify p) (submitted p) (started p ++ [t]) (finished p)).
Proof.
  intros [Hs Hf Hr Ha Hb Hw] Hi Hfree Ht. constructor; cbn; try done.
  - by rewrite length_insert.
  - rewrite <- Hf, Ht, <- app_assoc. done.
  - destruct (omap_at running_task _ _ _ Hi) as (w' & Hr1 & Hr2). rewrite filter_app, Hr, Hr1, Hr2, <- (hand_running k t). cbn. solve_Permutation.
  - intros Ho. rewrite <- hand_exited, <- Ha by done. pose proof (counted_insert exited _ _ _ (hand k t) Hi) as Hc. cbn in Hc. lia.
  - intros [Heq|Hin]%elem_insert; [|done]. by destruct (hand_cases k t) as [|[|]]; congruence.
  - intros Ho. pose proof (counted_insert awake _ _ _ (hand k t) Hi) as Hc. cbn in Hc. rewrite Ht in Hw. cbn in Hw.
    destruct (Hw Ho) as [Hnw|Hle]; [left|right; lia]. intros [Heq|Hin]%elem_insert; [|done].
    by destruct (hand_cases k t) as [|[|]]; congruence.
Qed.

Lemma worker_step_ok k n p i p' :
  pool_ok k n p -> worker_step k p i = Some p' -> pool_ok k n p'.
Proof.
  intros Hok. unfold worker_step. destruct (workers p !! i) as [w|] eqn:Hi; [|done]. cbn [mbind option_bind].
  destruct w as [| | | |t|]; try done.
  - intros [= <-]. destruct (top_check k && stop p) eqn:Hst.
    + apply andb_true_iff in Hst as [_ Hst%stop_true]. eapply set_worker_ok; try done. by right; right.
    + eapply set_worker_ok; try done. by left.
  - destruct (mutex_free p) eqn:Hfree; [|done]. apply bool_decide_eq_true_1 in Hfree.
    destruct (tasks p) as [|t rest] eqn:Ht.
    + intros [= <-]. destruct (stop p) eqn:Hst.
      * apply stop_true in Hst. eapply set_worker_ok; try done. by right; right.
      * eapply set_worker_ok; try done. by right; left.
    + destruct (stop p && negb (drains k)) eqn:Hst.
      { apply andb_true_iff in Hst as [Hst%stop_true _]. intros [= <-]. eapply set_worker_ok; try done. by right; right. }
      intros [= <-]. by apply task_taken_ok.
  - intros [= <-]. eapply set_worker_ok; try done. right; left. apply (ok_blocking _ _ _ Hok).
    apply list_elem_of_lookup. by exists i.
  - intros [= <-]. destruct Hok as [Hs Hf Hr Ha Hb Hw].
    pose proof (counted_insert exited _ _ _ W_top Hi) as Hcx. pose proof (counted_insert awake _ _ _ W_top Hi) as Hca. cbn in Hcx, Hca.
    constructor; cbn; try done.
    + by rewrite length_insert.
    + destruct (omap_at running_task _ _ _ Hi) as (w' & Hr1 & Hr2). rewrite Hr, Hr1, Hr2. cbn. solve_Permutation.
    + intros Ho. rewrite <- Ha by done. lia.
    + intros [?|Hin]%elem_insert; [done|by apply Hb].
    + intros Ho. destruct (Hw Ho) as [Hnw|Hle]; [left|right; lia]. by intros [?|Hin]%elem_insert.
Qed.

(** Where nobody sleeps and not all workers have ended, one is awake if there is a
    task. *)
Lemma nobody_waits k n p :
  pool_ok k n p -> owner p = O_alive -> W_wait ∉ workers p -> tasks p <> [] -> ended_by k (started p) < n ->
  0 < count awake (workers p).
Proof.
  intros Hok Ho Hw Ht Hlt. rewrite <- (ok_alive _ _ _ Hok Ho), <- (ok_size _ _ _ Hok) in Hlt.
  assert (W_blocking ∉ workers p) as Hb by (intros Hb; by apply Ht, (ok_blocking _ _ _ Hok)).
  clear -Hw Hb Hlt. induction (workers p) as [|w ws IH]; [cbn in Hlt; lia|]. apply not_elem_of_cons in Hw as [Hw1 Hw2], Hb as [Hb1 Hb2].
  change (count awake (w :: ws)) with ((if awake w then 1 else 0) + count awake ws).
  change (count exited (w :: ws)) with ((if exited w then 1 else 0) + count exited ws) in Hlt.
  destruct w; try done; cbn in *; try lia. apply IH; [done|lia|done].
Qed.

Lemma wake_running (ws : list worker) : omap running_task (wake <$> ws) = omap running_task ws.
Proof. induction ws as [|w ws IH]; [done|]. destruct w; cbn; rewrite ?IH; done. Qed.

Lemma pool_step_ok k n p e p' : pool_ok k n p -> pool_step k p e = Some p' -> pool_ok k n p'.
Proof.
  intros Hok. destruct e as [i|t|i| | | |i]; cbn [pool_step].
  - by apply worker_step_ok.
  - unfold submit. destruct (mutex_free p) eqn:Hfree; [|done]. apply bool_decide_eq_true_1 in Hfree.
    destruct (rejects k && stop p); intros [= <-]; [done|]. destruct Hok as [Hs Hf Hr Ha Hb Hw].
    constructor; cbn; try done; [by rewrite <- Hf, app_assoc|].
    intros Ho. destruct (Hw Ho) as [Hnw|Hle]; [by left|right]. rewrite length_app. cbn. lia.
  - unfold notify_one. case_decide as Hc; [|done]. destruct Hc as [Hn Hi]. intros [= <-].
    destruct Hok as [Hs Hf Hr Ha Hb Hw].
    pose proof (counted_insert exited _ _ _ W_check Hi) as Hcx. pose proof (counted_insert awake _ _ _ W_check Hi) as Hca. cbn in Hcx, Hca.
    constructor; cbn; try done.
    + by rewrite length_insert.
    + destruct (omap_at running_task _ _ _ Hi) as (rest & Hr1 & Hr2). by rewrite Hr, Hr1, Hr2.
    + intros Ho. rewrite <- Ha by done. lia.
    + intros [?|Hin]%elem_insert; [done|by apply Hb].
    + intros Ho. right. destruct (Hw Ho) as [Hnw|Hle]; [|lia]. destruct Hnw. apply list_elem_of_lookup. by exists i.
  - unfold notify_nobody. case_decide as Hc; [|done]. destruct Hc as [Hn Hi]. intros [= <-].
    destruct Hok. constructor; cbn; try done. intros _. by left.
  - unfold stop_set. case_decide; [|done]. intros [= <-]. destruct Hok. by constructor.
  - unfold notify_all. case_decide; [|done]. intros [= <-]. destruct Hok as [Hs Hf Hr Ha Hb Hw]. constructor; cbn; try done.
    + by rewrite length_fmap.
    + by rewrite wake_running.
    + intros (w & Hw' & Hin)%list_elem_of_fmap. apply Hb. by destruct w.
  - case_decide as Hi; [|done]. intros [= <-]. eapply set_worker_ok; try done. by left.
Qed.

Lemma pool_run_ok k n p es p' : pool_ok k n p -> pool_run k p es = Some p' -> pool_ok k n p'.
Proof.
  revert p. induction es as [|e es IH]; intros p Hok; cbn [pool_run]; [by intros [= <-]|].
  destruct (pool_step k p e) as [p1|] eqn:He; [|done]. cbn. apply IH. by eapply pool_step_ok.
Qed.

Lemma new_pool_ok k n : pool_ok k n (new_pool n).
Proof.
  constructor; cbn; try done.
  - by rewrite length_replicate.
  - assert (omap running_task (replicate n W_top) = []) as ->; [|done]. induction n; [done|]. cbn. done.
  - intros _. unfold ended_by. assert (count exited (replicate n W_top) = 0) as -> by (induction n; [done|by cbn]). by destruct (on_null k).
  - intros _. right. lia.
Qed.

(** ** Shutdown *)

(** With the flag set under the mutex, nobody is about to sleep any more. *)
Definition quiet (p : pool) : Prop :=
  (owner p <> O_alive -> W_blocking ∉ workers p) /\ (owner p = O_notified -> W_wait ∉ workers p).

Lemma quiet_set p i w :
  quiet p -> (owner p <> O_alive -> w <> W_blocking /\ w <> W_wait) -> quiet (set_worker p i w).
Proof.
  intros [H1 H2] Hw. split; cbn.
  - intros Ho [Heq|Hin]%elem_insert; [|by apply H1]. by destruct (Hw Ho).
  - intros Ho [Heq|Hin]%elem_insert; [|by apply H2]. destruct (Hw ltac:(by rewrite Ho)); by subst.
Qed.

Lemma quiet_step k p e p' : stop_locked k = true -> quiet p -> pool_step k p e = Some p' -> quiet p'.
Proof.
  intros Hk Hq. destruct e as [i|t|i| | | |i]; cbn [pool_step].
  - unfold worker_step. destruct (workers p !! i) as [w|] eqn:Hi; [|done]. cbn [mbind option_bind].
    assert (forall v, v <> W_blocking -> v <> W_wait -> quiet (set_worker p i v)) as Hset by (intros; by apply quiet_set).
    destruct w as [| | | |t|]; try done.
    + intros [= <-]. destruct (_ && _); by apply Hset.
    + destruct (mutex_free p); [|done]. destruct (tasks p) as [|t rest].
      * intros [= <-]. destruct (stop p) eqn:Hs; [by apply Hset|]. apply quiet_set; [done|].
        intros Ho. by apply stop_false in Hs.
      * destruct (stop p && _); intros [= <-]; apply (Hset _); try done; by destruct (hand_cases k t) as [|[|]]; congruence.
    + intros [= <-]. apply quiet_set; [done|]. intros Ho. destruct Hq as [H1 _]. destruct (H1 Ho).
      apply list_elem_of_lookup. by exists i.
    + intros [= <-]. by apply (Hset W_top).
  - unfold submit. destruct (mutex_free p); [|done]. by destruct (rejects k && stop p); intros [= <-].
  - unfold notify_one. case_decide; [|done]. intros [= <-]. by apply quiet_set.
  - unfold notify_nobody. case_decide; [|done]. by intros [= <-].
  - unfold stop_set. case_decide as Hc; [|done]. destruct Hc as [Ho Hf]. intros [= <-]. split; cbn; [|done].
    intros _. by apply (bool_decide_eq_true_1 _), Hf.
  - unfold notify_all. case_decide as Hc; [|done]. intros [= <-]. destruct Hq as [H1 _]. split; cbn.
    + intros _ (w & Hw & Hin)%list_elem_of_fmap. apply H1; [by rewrite Hc|]. by destruct w.
    + intros _ (w & Hw & Hin)%list_elem_of_fmap. by destruct w.
  - case_decide; [|done]. intros [= <-]. by apply quiet_set.
Qed.

Lemma quiet_run k p es p' : stop_locked k = true -> quiet p -> pool_run k p es = Some p' -> quiet p'.
Proof.
  intros Hk. revert p. induction es as [|e es IH]; intros p Hq; cbn [pool_run]; [by intros [= <-]|].
  destruct (pool_step k p e) as [p1|] eqn:He; [|done]. cbn. apply IH. by eapply quiet_step.
Qed.

Lemma new_pool_quiet n : quiet (new_pool n).
Proof. by split. Qed.

Lemma quiet_progress k p : quiet p -> owner p = O_notified ->
  all_exited p \/ exists i p', worker_step k p i = Some p'.
Proof.
  intros [H1 H2] Ho. destruct (decide (all_exited p)) as [|Hn]; [by left|]. right.
  apply not_Forall_Exists, Exists_exists in Hn as (w & (i & Hi)%list_elem_of_lookup & Hne); [|apply _].
  exists i. unfold worker_step. rewrite Hi. cbn [mbind option_bind].
  assert (mutex_free p = true) as -> by (apply bool_decide_eq_true_2, H1; by rewrite Ho).
  assert (w <> W_wait) by (intros ->; apply (H2 Ho), list_elem_of_lookup; by exists i).
  destruct w; try done; try (by eexists). destruct (tasks p); [by eexists|]. destruct (stop p && _); by eexists.
Qed.

(** *** How much work is left *)

Definition worker_weight (w : worker) : nat :=
  match w with W_run _ => 3 | W_top => 2 | W_check => 1 | _ => 0 end.
Definition pool_work (p : pool) : nat :=
  sum_list (worker_weight <$> workers p) + 3 * length (tasks p) + to_notify p.

Lemma hand_weight k t : worker_weight (hand k t) <= 3.
Proof. destruct (hand_cases k t) as [->|[->| ->]]; cbn; lia. Qed.

Lemma pool_step_work k p e p' :
  quiet p -> owner p = O_notified -> pool_step k p e = Some p' ->
  owner p' = O_notified /\
  if submits e then pool_work p' <= pool_work p + 4 else pool_work p' < pool_work p.
Proof.
  intros [H1 H2] Ho. specialize (H2 Ho). specialize (H1 ltac:(by rewrite Ho)).
  assert (forall i, workers p !! i <> Some W_wait) as Hnw by (intros i Hi; apply H2, list_elem_of_lookup; by exists i).
  assert (stop p = true) as Hst by (apply bool_decide_eq_true_2; by rewrite Ho).
  destruct e as [i|t|i| | | |i]; cbn [pool_step submits].
  - unfold worker_step. destruct (workers p !! i) as [w|] eqn:Hi; [|done]. cbn [mbind option_bind].
    unfold pool_work. destruct w as [| | | |t|]; try done.
    + intros [= <-]. split; [done|]. cbn. destruct (_ && _);
        [pose proof (weight_insert worker_weight _ _ _ W_exit Hi)|pose proof (weight_insert worker_weight _ _ _ W_check Hi)]; cbn in *; lia.
    + destruct (mutex_free p); [|done]. rewrite Hst. destruct (tasks p) as [|t rest] eqn:Ht.
      * intros [= <-]. split; [done|]. cbn. pose proof (weight_insert worker_weight _ _ _ W_exit Hi). rewrite Ht. cbn in *. lia.
      * destruct (true && _); intros [= <-]; (split; [done|]); cbn; rewrite ?Ht;
          [pose proof (weight_insert worker_weight _ _ _ W_exit Hi)|pose proof (weight_insert worker_weight _ _ _ (hand k t) Hi); pose proof (hand_weight k t)]; cbn in *; lia.
    + destruct H1. apply list_elem_of_lookup. by exists i.
    + intros [= <-]. split; [done|]. cbn. pose proof (weight_insert worker_weight _ _ _ W_top Hi). cbn in *. lia.
  - unfold submit. destruct (mutex_free p); [|done]. destruct (rejects k && stop p); intros [= <-]; split; try done; [lia|].
    unfold pool_work; cbn. rewrite length_app. cbn. lia.
  - unfold notify_one. rewrite decide_False; [done|]. intros [_ Hi]. by apply Hnw in Hi.
  - unfold notify_nobody. case_decide as Hc; [|done]. intros [= <-]. split; [done|]. unfold pool_work; cbn. lia.
  - unfold stop_set. rewrite decide_False; [done|]. rewrite Ho. by intros [].
  - unfold notify_all. rewrite decide_False; [done|]. by rewrite Ho.
  - rewrite decide_False; [done|]. apply Hnw.
Qed.

Lemma pool_run_work k p es p' :
  stop_locked k = true -> quiet p -> owner p = O_notified -> pool_run k p es = Some p' ->
  owner p' = O_notified /\ other_steps es + pool_work p' <= pool_work p + 4 * submit_steps es.
Proof.
  intros Hk. revert p. induction es as [|e es IH]; intros p Hq Ho; cbn [pool_run]; [intros [= <-]; split; [done|cbn; lia]|].
  destruct (pool_step k p e) as [p1|] eqn:He; [|done]. cbn [mbind option_bind].
  destruct (pool_step_work k p e p1 Hq Ho He) as [Ho1 Hw]. intros Hr.
  destruct (IH p1 (quiet_step _ _ _ _ Hk Hq He) Ho1 Hr) as [Ho' Hw']. split; [done|].
  unfold other_steps, submit_steps in *. rewrite !filter_cons. destruct (submits e);
    [rewrite decide_False, decide_True by done|rewrite decide_True, decide_False by done]; cbn [length]; lia.
Qed.

(** The workers can always run to their end. *)
Lemma quiet_ends k p :
  stop_locked k = true -> quiet p -> owner p = O_notified ->
  exists order p', pool_run k p (worker_runs <$> order) = Some p' /\ all_exited p'.
Proof.
  intros Hk. remember (pool_work p) as m eqn:Hm. revert p Hm. induction (lt_wf m) as [m _ IH]. intros p -> Hq Ho.
  destruct (quiet_progress k p Hq Ho) as [Hall|(i & p1 & Hp1)]; [by exists [], p|].
  destruct (pool_step_work k p (worker_runs i) p1 Hq Ho Hp1) as [Ho1 Hlt]. cbn [submits] in Hlt.
  destruct (IH _ Hlt p1 eq_refl (quiet_step k p (worker_runs i) p1 Hk Hq Hp1) Ho1) as (order & p' & Hrun & Hall).
  exists (i :: order), p'. split; [|done]. cbn. by rewrite Hp1.
Qed.

(** *** Draining *)

Lemma hand_called k t : on_null k = N_called -> hand k t = W_run t.
Proof. unfold hand. by intros ->. Qed.

Lemma called_alive k n p : on_null k = N_called -> pool_ok k n p -> owner p = O_alive -> W_exit ∉ workers p.
Proof.
  intros Hk Hok Ho (i & Hi)%list_elem_of_lookup. pose proof (ok_alive _ _ _ Hok Ho) as Hc. unfold ended_by in Hc. rewrite Hk in Hc.
  assert (0 < count exited (workers p)); [|lia]. apply count_pos. by exists i, W_exit.
Qed.

Lemma called_filter k (ts : list nat) : on_null k = N_called -> filter (fun t => runs k t = true) ts = ts.
Proof. intros Hk. induction ts as [|t ts IH]; [done|]. rewrite filter_cons, IH, decide_True; [done|]. unfold runs. by rewrite Hk. Qed.

Definition drained (before : list nat) (p : pool) : Prop :=
  before `prefix_of` submitted p /\ (W_exit ∈ workers p -> before `prefix_of` started p).

Lemma drained_set before p i w :
  drained before p -> (w = W_exit -> before `prefix_of` started p) -> drained before (set_worker p i w).
Proof. intros [H1 H2] Hw. split; [done|]. cbn. intros [Heq|Hin]%elem_insert; [by apply Hw|by apply H2]. Qed.

Lemma drained_step k n before p e p' :
  drains k = true -> top_check k = false -> on_null k = N_called -> pool_ok k n p -> drained before p ->
  pool_step k p e = Some p' -> drained before p'.
Proof.
  intros Hk1 Hk2 Hk3 Hok Hd. destruct e as [i|t|i| | | |i]; cbn [pool_step].
  - unfold worker_step. rewrite Hk1, Hk2. cbn [andb negb]. destruct (workers p !! i) as [w|] eqn:Hi; [|done].
    cbn [mbind option_bind]. destruct w as [| | | |t|]; try done.
    + intros [= <-]. by apply drained_set.
    + destruct (mutex_free p); [|done]. destruct (tasks p) as [|t rest] eqn:Ht.
      * intros [= <-]. destruct (stop p); [|by apply drained_set]. apply drained_set; [done|]. intros _.
        pose proof (ok_fifo _ _ _ Hok) as Hf. rewrite Ht, app_nil_r in Hf. rewrite Hf. apply Hd.
      * rewrite andb_false_r, hand_called by done. intros [= <-]. destruct Hd as [H1 H2]. split; [done|]. cbn.
        intros [?|Hin]%elem_insert; [done|]. by apply prefix_app_r, H2.
    + intros [= <-]. by apply drained_set.
    + intros [= <-]. destruct Hd as [H1 H2]. split; [done|]. cbn. intros [?|Hin]%elem_insert; [done|]. by apply H2.
  - unfold submit. destruct (mutex_free p); [|done]. destruct (rejects k && stop p); intros [= <-]; [done|].
    destruct Hd as [H1 H2]. split; [|done]. cbn. by apply prefix_app_r.
  - unfold notify_one. case_decide; [|done]. intros [= <-]. by apply drained_set.
  - unfold notify_nobody. case_decide; [|done]. by intros [= <-].
  - unfold stop_set. case_decide; [|done]. by intros [= <-].
  - unfold notify_all. case_decide; [|done]. intros [= <-]. destruct Hd as [H1 H2]. split; [done|]. cbn.
    intros (w & Hw & Hin)%list_elem_of_fmap. apply H2. by destruct w.
  - case_decide; [|done]. intros [= <-]. by apply drained_set.
Qed.

Lemma drained_run k n before p es p' :
  drains k = true -> top_check k = false -> on_null k = N_called -> pool_ok k n p -> drained before p ->
  pool_run k p es = Some p' -> drained before p'.
Proof.
  intros Hk1 Hk2 Hk3. revert p. induction es as [|e es IH]; intros p Hok Hd; cbn [pool_run]; [by intros [= <-]|].
  destruct (pool_step k p e) as [p1|] eqn:He; [|done]. cbn.
  apply IH; [by eapply pool_step_ok|by eapply drained_step].
Qed.

(** An awake worker can go on when there is a task. *)
Lemma awake_steps k n p i w :
  pool_ok k n p -> tasks p <> [] -> workers p !! i = Some w -> awake w = true -> exists p', worker_step k p i = Some p'.
Proof.
  intros Hok Ht Hi Hw. unfold worker_step. rewrite Hi. cbn [mbind option_bind].
  assert (mutex_free p = true) as -> by (apply bool_decide_eq_true_2; intros Hb; by apply Ht, (ok_blocking _ _ _ Hok)).
  destruct w; try done; try (by eexists). destruct (tasks p); [done|]. destruct (stop p && _); by eexists.
Qed.

(** A worker of a pool that does not drain takes no task once the pool is stopped. *)
Lemma stopped_keeps k p : drains k = false -> owner p <> O_alive ->
  forall i p', worker_step k p i = Some p' -> tasks p' = tasks p.
Proof.
  intros Hk Ho i p'. assert (stop p = true) as Hs by by apply bool_decide_eq_true_2.
  unfold worker_step. rewrite Hs, Hk. destruct (workers p !! i) as [w|]; [|done]. cbn [mbind option_bind].
  destruct w; try done; try (by intros [= <-]). destruct (mutex_free p); [|done].
  destruct (tasks p) eqn:Ht; intros [= <-]; by cbn.
Qed.

(** ** Properties *)

(** C32: every pool, under every interleaving of workers, submitters and owner,
    spurious wake-ups included, takes the submitted tasks in the order of
    submission, each once, and every task taken that is not null is finished or in
    the hands of one worker (C++03 and C++98 do not run null tasks; a null task ends
    a worker of C++03). As long as the pool is not stopped and not all of its workers
    have ended with null tasks - at least one worker, then, and in C++03 fewer null
    tasks taken than workers - a task in the queue never waits in vain: a worker can
    run or be notified. A stopped pool of C++11, C++03 or C++98 leaves the queue as
    it is. *)
Theorem pool_runs_tasks k n es p :
  pool_run k (new_pool n) es = Some p ->
  started p ++ tasks p = submitted p /\
  filter (fun t => runs k t = true) (started p) ≡ₚ finished p ++ omap running_task (workers p) /\
  (owner p = O_alive -> count exited (workers p) = ended_by k (started p)) /\
  (owner p = O_alive -> tasks p <> [] -> ended_by k (started p) < n ->
     (exists i p', worker_step k p i = Some p') \/ (exists i p', notify_one p i = Some p')) /\
  (drains k = false -> owner p <> O_alive -> forall i p', worker_step k p i = Some p' -> tasks p' = tasks p).
Proof.
  intros Hr. pose proof (pool_run_ok _ _ _ _ _ (new_pool_ok k n) Hr) as Hok.
  split_and!; [apply Hok..| |by apply stopped_keeps]. intros Ho Ht Hn.
  assert (0 < count awake (workers p) -> exists i p', worker_step k p i = Some p') as Hgo.
  { intros (i & w & Hi & Hw)%count_pos. exists i. by eapply awake_steps. }
  destruct (decide (W_wait ∈ workers p)) as [Hin|Hnw]; [|left; by eapply Hgo, nobody_waits].
  destruct (ok_awake _ _ _ Hok Ho) as [?|Hle]; [done|]. destruct (decide (0 < to_notify p)) as [Hp|Hp].
  - right. apply list_elem_of_lookup in Hin as [i Hi]. exists i. unfold notify_one. rewrite decide_True by done. by eexists.
  - left. apply Hgo. destruct (tasks p); [done|]. cbn in Hle. lia.
Qed.

(** A worker of a pool whose flag is set without the mutex goes to sleep after
    the only notification. *)
Definition lost_wakeup : list pool_event := [worker_runs 0; worker_runs 0; flag_set; all_notified; worker_runs 0].

(** C34: from every state of a stopped pool that has been notified the workers can
    run until all have returned, and every schedule is bounded in the number of tasks
    still submitted, if and only if the stop flag is set under the mutex: the pools of
    C++11, C++03 and C++98, which set it without, have a schedule in which a worker
    misses the notification and sleeps for ever, so that stopping the pool never
    returns. *)
Theorem shutdown_safe_iff k : shutdown_safe k <-> stop_locked k = true.
Proof.
  split.
  - intros Hsafe. destruct (stop_locked k) eqn:Hk; [done|]. exfalso.
    destruct (pool_run k (new_pool 1) lost_wakeup) as [p|] eqn:Hr;
      [|destruct k as [[] d r c o]; [done|destruct c; vm_compute in Hr; done]].
    destruct k as [[] d r c o]; [done|].
    assert (p = Pool [W_wait] [] O_notified 0 [] [] []) as -> by (destruct c; vm_compute in Hr; congruence).
    destruct (Hsafe 1 _ _ Hr eq_refl) as [([|i order] & p' & Hrun & Hall) _].
    + injection Hrun as <-. by apply Forall_cons in Hall as [? _].
    + by destruct i.
  - intros Hk n es p Hr Ho. pose proof (quiet_run _ _ _ _ Hk (new_pool_quiet n) Hr) as Hq. split; [by apply quiet_ends|].
    exists (pool_work p). intros es' p' Hr'. destruct (pool_run_work _ _ _ _ Hk Hq Ho Hr'). lia.
Qed.

(** Stopping such a pool terminates: once the owner has notified, the number
    of steps is bounded by the work there is and the tasks still submitted, and
    as long as a worker has not returned one can run. *)
Lemma pool_terminates k n es0 p0 es p :
  stop_locked k = true -> pool_run k (new_pool n) es0 = Some p0 -> owner p0 = O_notified ->
  pool_run k p0 es = Some p ->
  other_steps es <= pool_work p0 + 4 * submit_steps es /\
  (all_exited p \/ exists i p', worker_step k p i = Some p').
Proof.
  intros Hk H0 Ho Hr. pose proof (quiet_run _ _ _ _ Hk (new_pool_quiet n) H0) as Hq.
  destruct (pool_run_work _ _ _ _ Hk Hq Ho Hr) as [Ho' Hw]. split; [lia|].
  apply quiet_progress; [by eapply quiet_run|done].
Qed.

(** The pools of [03_ThreadPool] and C++14 finish what they accepted: when
    all workers have returned, every task submitted before the pool was stopped
    has been executed. *)
Lemma pool_drains k n es0 p0 es p :
  drains k = true -> top_check k = false -> on_null k = N_called -> n <> 0 ->
  pool_run k (new_pool n) es0 = Some p0 -> owner p0 = O_alive ->
  pool_run k p0 es = Some p -> all_exited p ->
  exists later, finished p ≡ₚ submitted p0 ++ later.
Proof.
  intros Hk1 Hk2 Hk3 Hn H0 Ho Hr Hall. pose proof (pool_run_ok _ _ _ _ _ (new_pool_ok k n) H0) as Hok0.
  pose proof (pool_run_ok _ _ _ _ _ Hok0 Hr) as Hok.
  assert (drained (submitted p0) p) as [_ Hd].
  { apply (drained_run k n _ p0 es); [done..| |done]. split; [done|]. intros Hin. by destruct (called_alive k n p0). }
  assert (W_exit ∈ workers p) as Hex.
  { pose proof (ok_size _ _ _ Hok). destruct (workers p) as [|w ws] eqn:Hws; [done|].
    unfold all_exited in Hall. rewrite Hws in Hall. apply Forall_cons in Hall as [<- _]. by left. }
  destruct (Hd Hex) as [later Hl]. exists later. pose proof (ok_running _ _ _ Hok) as Hrun. rewrite called_filter in Hrun by done. rewrite <- Hl, Hrun.
  assert (omap running_task (workers p) = []) as ->; [|by rewrite app_nil_r].
  unfold all_exited in Hall. clear -Hall. induction Hall as [|w ws <- _ IH]; [done|]. by cbn.
Qed.

(** shutdown. Stopping a pool that sets its flag under the mutex terminates:
    once the owner has notified, the number of steps is bounded by the work there
    is and the tasks still submitted, and as long as a worker has not returned
    one can run. And the pools of [03_ThreadPool] and C++14 finish what they
    accepted: when all workers have returned, every task submitted before the
    pool was stopped has been executed. *)
Theorem pool_shutdown k n es0 p0 :
  pool_run k (new_pool n) es0 = Some p0 ->
  (stop_locked k = true -> owner p0 = O_notified -> forall es p, pool_run k p0 es = Some p ->
     other_steps es <= pool_work p0 + 4 * submit_steps es /\
     (all_exited p \/ exists i p', worker_step k p i = Some p')) /\
  (drains k = true -> top_check k = false -> on_null k = N_called -> n <> 0 -> owner p0 = O_alive ->
   forall es p, pool_run k p0 es = Some p -> all_exited p -> exists later, finished p ≡ₚ submitted p0 ++ later).
Proof.
  intros H0. split.
  - intros Hk Ho es p Hr. by apply (pool_terminates k n es0 p0).
  - intros Hk1 Hk2 Hk3 Hn Ho es p Hr Hall. by apply (pool_drains k n es0 p0 es).
Qed.

End pool.

(** No task is null. *)
Definition never_null : nat -> bool := fun _ => false.

Lemma never_null_hand k t : hand never_null k t = W_run t.
Proof. unfold hand. by destruct (on_null k). Qed.

Lemma never_null_running k n p : pool_ok never_null k n p -> started p ≡ₚ finished p ++ omap running_task (workers p).
Proof.
  intros Hok. rewrite <- (ok_running _ _ _ _ Hok). induction (started p) as [|t ts IH]; [done|].
  rewrite filter_cons, decide_True; [by f_equiv|]. unfold runs. by destruct (on_null k).
Qed.

(** ** Witnesses: two workers, two tasks *)

Definition example_before : list pool_event :=
  [worker_runs 0; worker_runs 0; worker_runs 0; task_submitted 7; one_notified 0; task_submitted 8].
Definition example_after : list pool_event :=
  [flag_set; worker_runs 1; worker_runs 1; all_notified; worker_runs 0; worker_runs 1; worker_runs 1; worker_runs 1;
   worker_runs 0; worker_runs 0; worker_runs 0].
Definition example_pool (es : list pool_event) : pool :=
  match pool_run never_null kind_03 (new_pool 2) es with Some p => p | None => new_pool 2 end.

Theorem pool_runs_tasks_witness :
  pool_run never_null kind_03 (new_pool 2) example_before = Some (example_pool example_before) /\
  started (example_pool example_before) ++ tasks (example_pool example_before) = [7; 8].
Proof.
  assert (pool_run never_null kind_03 (new_pool 2) example_before = Some (example_pool example_before)) as Hr by (vm_compute; reflexivity).
  split; [exact Hr|]. rewrite (proj1 (pool_runs_tasks never_null kind_03 2 _ _ Hr)). vm_compute. reflexivity.
Defined.

Theorem pool_shutdown_witness :
  (let p0 := example_pool (example_before ++ take 4 example_after) in
   owner p0 = O_notified /\ 7 <= pool_work p0 + 4 * 0) /\
  exists later, finished (example_pool (example_before ++ example_after)) ≡ₚ [7; 8] ++ later.
Proof.
  split; [split; [vm_compute; reflexivity|]|].
  - refine (proj1 (proj1 (pool_shutdown never_null kind_03 2 (example_before ++ take 4 example_after) _ _) eq_refl _ (drop 4 example_after)
      (example_pool (example_before ++ example_after)) _)); vm_compute; reflexivity.
  - refine (proj2 (pool_shutdown never_null kind_03 2 example_before (example_pool example_before) _) eq_refl eq_refl eq_refl _ _ example_after
      (example_pool (example_before ++ example_after)) _ _); [vm_compute; reflexivity|lia|vm_compute; reflexivity..|].
    apply (bool_decide_unpack (Forall (eq W_exit) (workers (example_pool (example_before ++ example_after))))).
    vm_compute. exact I.
Defined.

(** A null task ends the one worker of C++03, and the task after it waits for ever;
    the worker of C++98 passes it over. *)
Definition null_zero (t : nat) : bool := (t =? 0)%nat.
Definition null_first : list pool_event :=
  [task_submitted 0; task_submitted 1; nobody_notified; nobody_notified; worker_runs 0; worker_runs 0].

Example null_strands :
  pool_run null_zero kind_cpp03 (new_pool 1) null_first = Some (Pool [W_exit] [1] O_alive 0 [0; 1] [0] []) /\
  pool_run null_zero kind_cpp98 (new_pool 1) (null_first ++ [worker_runs 0]) = Some (Pool [W_run 1] [] O_alive 0 [0; 1] [0; 1] []).
Proof. vm_compute. by split. Qed.
