(* ===== verification/PoolFutures.v ===== *)
(** * PoolFutures: what becomes of the tasks of a pool

    Completes [ThreadPool] by what the pools of [zl_threadpool] return for a task
    and do with it in the end: the futures of [03_ThreadPool] ([enqueue]) and
    [ThreadPoolCpp11] ([add]), the tasks that are left over when a pool is destroyed
    ([ThreadPoolCpp98] deletes them), [size], the number of threads, and the queue of
    one worker with null tasks. The tasks that have futures are never null. *)
From S2P Require Import Prelude.
From S2P Require Import ThreadPool.

(** ** Futures and the end of a pool *)

(** A [packaged_task] keeps what its function returns or throws; destroying one that
    did not run breaks its promise. *)
Inductive result := value (v : Z) | exception (e : Z).
Inductive future := pending | ready (r : result) | broken_promise.

(** The pool, the futures of its tasks, and once it is destroyed the tasks that were
    destroyed with it. *)
Record managed := Managed { base : pool; futures : gmap nat future; freed : list nat; destroyed : bool }.

Definition new_managed (n : nat) : managed := Managed (new_pool n) ∅ [] false.

(** [hardware_concurrency] replaces a number that is not positive, 2 where it does
    not know. *)
Definition nthreads_cpp11 (n hardware_concurrency : Z) : Z :=
  if (n <=? 0)%Z then if (hardware_concurrency =? 0)%Z then 2 else hardware_concurrency else n.

Section managed.
Context (k : kind) (run_task : nat -> result).

(** Each task is an object of its own, so its number is new; where the pool is
    stopped and refuses it, the exception leaves no future. *)
Definition futures_after (p : pool) (e : pool_event) (m : gmap nat future) : gmap nat future :=
  match e with
  | task_submitted t => if rejects k && stop p then m else <[t := pending]> m
  | worker_runs i => match workers p !! i with Some (W_run t) => <[t := ready (run_task t)]> m | _ => m end
  | _ => m
  end.

Definition fresh_task (e : pool_event) (m : gmap nat future) : Prop :=
  match e with task_submitted t => m !! t = None | _ => True end.
#[export] Instance fresh_task_dec e m : Decision (fresh_task e m).
Proof. destruct e; cbn; apply _. Defined.

Definition managed_step (e : pool_event) (m : managed) : option managed :=
  if destroyed m then None
  else if decide (fresh_task e (futures m)) then
    p ← pool_step never_null k (base m) e;
    Some (Managed p (futures_after (base m) e (futures m)) (freed m) false)
  else None.

(** The destructor joins the workers; then the queue is destroyed, and the tasks in it. *)
Definition destroy (m : managed) : option managed :=
  if decide (destroyed m = false /\ owner (base m) = O_notified /\ all_exited (base m)) then
    Some (Managed (base m) (foldr (fun t fs => <[t := broken_promise]> fs) (futures m) (tasks (base m))) (tasks (base m)) true)
  else None.

Fixpoint managed_run (es : list pool_event) (m : managed) : option managed :=
  match es with [] => Some m | e :: es' => m' ← managed_step e m; managed_run es' m' end.

End managed.

(** [future::get]: waits, or gives the result or throws. *)
Definition get (t : nat) (m : managed) : option (option result) :=
  f ← futures m !! t;
  match f with pending => None | ready r => Some (Some r) | broken_promise => Some None end.

(** [size], under the mutex; [addTask] returns it after the task is in the queue. *)
Definition size_of (p : pool) : option nat := if mutex_free p then Some (length (tasks p)) else None.
Definition addTask_size (k : kind) (p : pool) (t : nat) : option (nat * pool) :=
  p' ← submit k p t; Some (length (tasks p'), p').

(** ** Null tasks *)

(** [take] of C++98 and C++03 on a queue with null tasks: C++98 takes the next one,
    C++03 returns an empty function. *)
Inductive taken := got (t : nat) | null | waits.

Fixpoint take_cpp98 (isRunning : bool) (q : list (option nat)) : taken * list (option nat) :=
  match q, isRunning with
  | _, false => (null, q)
  | [], true => (waits, [])
  | None :: q', true => take_cpp98 isRunning q'
  | Some t :: q', true => (got t, q')
  end.

Definition take_cpp03 (isRunning : bool) (q : list (option nat)) : taken * list (option nat) :=
  match q, isRunning with
  | _, false => (null, q)
  | [], true => (waits, [])
  | None :: q', true => (null, q')
  | Some t :: q', true => (got t, q')
  end.

(** [threadFunc] alone with a queue: what it runs, whether it has ended and what is
    left; each turn takes one task or more. *)
Fixpoint threadFunc (take : bool -> list (option nat) -> taken * list (option nat)) (fuel : nat) (q : list (option nat))
    : list nat * bool * list (option nat) :=
  match fuel with
  | O => ([], false, q)
  | S fuel' =>
      match take true q with
      | (got t, q') => let '(ran, ended, rest) := threadFunc take fuel' q' in (t :: ran, ended, rest)
      | (null, q') => ([], true, q')
      | (waits, q') => ([], false, q')
      end
  end.

(** ** Theorems *)

Section proofs.
Context (k : kind) (run_task : nat -> result).

Record m_ok (n : nat) (m : managed) : Prop := {
  mo_pool : pool_ok never_null k n (base m);
  mo_dom : dom (futures m) = list_to_set (submitted (base m));
  mo_nodup : NoDup (submitted (base m));
  mo_futures : forall t f, futures m !! t = Some f ->
    f = if decide (t ∈ finished (base m)) then ready (run_task t) else pending }.

(** Steps that neither accept nor finish a task. *)
Lemma m_ok_same n m p :
  m_ok n m -> pool_ok never_null k n p -> submitted p = submitted (base m) -> finished p = finished (base m) -> m_ok n (Managed p (futures m) (freed m) false).
Proof. intros [H1 H2 H3 H4] Hp Hs Hf. constructor; cbn; rewrite ?Hs, ?Hf; done. Qed.

Lemma finished_submitted n p t : pool_ok never_null k n p -> t ∈ finished p \/ t ∈ omap running_task (workers p) -> t ∈ submitted p.
Proof.
  intros Hp Ht. rewrite <- (ok_fifo _ _ _ _ Hp), elem_of_app. left. rewrite (never_null_running _ _ _ Hp). by apply elem_of_app.
Qed.

Lemma m_step_ok n e m m' : m_ok n m -> managed_step k run_task e m = Some m' -> m_ok n m'.
Proof.
  intros Hm. unfold managed_step. destruct (destroyed m); [done|]. case_decide as Hfresh; [|done].
  destruct (pool_step never_null k (base m) e) as [p|] eqn:He; [|done]. intros [= <-].
  pose proof (pool_step_ok _ _ _ _ _ _ (mo_pool _ _ Hm) He) as Hp. destruct e as [i|t|i| | | |i]; cbn [pool_step futures_after fresh_task] in *.
  - unfold worker_step in He. destruct (workers (base m) !! i) as [w|] eqn:Hi; [|done]. cbn [mbind option_bind] in He.
    destruct w as [| | | |t|]; try done.
    + injection He as <-. by apply m_ok_same.
    + destruct (mutex_free _); [|done]. destruct (tasks (base m)); [|destruct (stop _ && _)]; injection He as <-; by apply m_ok_same.
    + injection He as <-. by apply m_ok_same.
    + injection He as <-. destruct Hm as [H1 H2 H3 H4].
      assert (Ht : t ∈ submitted (base m)).
      { apply (finished_submitted n); [done|]. right. apply list_elem_of_omap. exists (W_run t). split; [|done]. apply list_elem_of_lookup. by exists i. }
      constructor; cbn [base futures submitted finished]; [done| |done|].
      * rewrite dom_insert_L, H2. set_solver.
      * intros t' f. destruct (decide (t' = t)) as [->|Hne].
        -- rewrite lookup_insert_eq, decide_True by (apply elem_of_app; right; by apply list_elem_of_singleton). by intros [= <-].
        -- rewrite lookup_insert_ne by done. intros Hf. rewrite (H4 t' f Hf).
           destruct (decide (t' ∈ finished (base m))) as [Hin|Hin]; [rewrite decide_True|rewrite decide_False]; [done| |done|];
             rewrite elem_of_app, list_elem_of_singleton; naive_solver.
  - unfold submit in He. destruct (mutex_free _); [|done]. destruct (rejects k && stop (base m)); injection He as <-.
    + by apply m_ok_same.
    + destruct Hm as [H1 H2 H3 H4]. assert (Ht : t ∉ submitted (base m)) by (intros Hin; apply not_elem_of_dom in Hfresh; apply Hfresh; rewrite H2; set_solver).
      constructor; cbn [base futures submitted finished]; [done| | |].
      * rewrite dom_insert_L, H2, list_to_set_app_L. set_solver.
      * apply NoDup_app. split_and!; [done|set_solver|apply NoDup_singleton].
      * intros t' f. destruct (decide (t' = t)) as [->|Hne].
        -- rewrite lookup_insert_eq, decide_False; [by intros [= <-]|]. intros Hin. apply Ht. apply (finished_submitted n); [done|by left].
        -- rewrite lookup_insert_ne by done. apply H4.
  - unfold notify_one in He. case_decide; [|done]. injection He as <-. by apply m_ok_same.
  - unfold notify_nobody in He. case_decide; [|done]. injection He as <-. by apply m_ok_same.
  - unfold stop_set in He. case_decide; [|done]. injection He as <-. by apply m_ok_same.
  - unfold notify_all in He. case_decide; [|done]. injection He as <-. by apply m_ok_same.
  - case_decide; [|done]. injection He as <-. by apply m_ok_same.
Qed.

Lemma m_run_ok n es m m' : m_ok n m -> managed_run k run_task es m = Some m' -> m_ok n m'.
Proof.
  revert m. induction es as [|e es IH]; intros m Hm; cbn; [by intros [= <-]|].
  destruct (managed_step k run_task e m) as [m1|] eqn:He; [|done]. cbn. apply IH. by eapply m_step_ok.
Qed.

Lemma new_m_ok n : m_ok n (new_managed n).
Proof. constructor; cbn; [apply new_pool_ok|done|constructor|done]. Qed.

(** A pool that empties its queue and refuses tasks when it is stopped: no task is
    left when a worker has returned. *)
Definition nothing_left (p : pool) : Prop := W_exit ∈ workers p -> tasks p = [] /\ stop p = true.

Lemma nothing_left_set p i w : nothing_left p -> (w = W_exit -> tasks p = [] /\ stop p = true) -> nothing_left (set_worker p i w).
Proof. intros H Hw. unfold nothing_left. cbn. intros [Heq|Hin]%elem_insert; [by apply Hw|by apply H]. Qed.

Lemma nothing_left_step p e p' :
  drains k = true -> rejects k = true -> top_check k = false -> nothing_left p -> pool_step never_null k p e = Some p' -> nothing_left p'.
Proof.
  intros Hd Hr Ht Hl. destruct e as [i|t|i| | | |i]; cbn [pool_step].
  - unfold worker_step. destruct (workers p !! i) as [w|] eqn:Hi; [|done]. cbn [mbind option_bind]. rewrite Hd, Ht. cbn [andb negb].
    destruct w as [| | | |t|]; try done.
    + intros [= <-]. by apply nothing_left_set.
    + destruct (mutex_free p); [|done]. destruct (tasks p) as [|t rest] eqn:Htasks.
      * intros [= <-]. destruct (stop p) eqn:Hs; by apply nothing_left_set.
      * rewrite andb_false_r, never_null_hand. intros [= <-]. intros [?|Hin]%elem_insert; [done|]. destruct (Hl Hin). congruence.
    + intros [= <-]. by apply nothing_left_set.
    + intros [= <-] [?|Hin]%elem_insert; [done|]. by apply Hl.
  - unfold submit. rewrite Hr. destruct (mutex_free p); [|done]. cbn [andb]. destruct (stop p) eqn:Hs; intros [= <-]; [done|].
    intros Hin. destruct (Hl Hin). congruence.
  - unfold notify_one. case_decide; [|done]. intros [= <-]. by apply nothing_left_set.
  - unfold notify_nobody. case_decide; [|done]. by intros [= <-].
  - unfold stop_set. case_decide; [|done]. intros [= <-] Hin. split; [by apply Hl|done].
  - unfold notify_all. case_decide as Ho; [|done]. intros [= <-]. intros (w & Hw & Hin)%list_elem_of_fmap. split; [|done]. apply Hl. by destruct w.
  - case_decide; [|done]. intros [= <-]. by apply nothing_left_set.
Qed.

Lemma nothing_left_run es m m' :
  drains k = true -> rejects k = true -> top_check k = false -> nothing_left (base m) ->
  managed_run k run_task es m = Some m' -> nothing_left (base m').
Proof.
  intros Hd Hr Ht. revert m. induction es as [|e es IH]; intros m Hm; cbn; [by intros [= <-]|].
  unfold managed_step. destruct (destroyed m); [done|]. case_decide; [|done].
  destruct (pool_step never_null k (base m) e) as [p|] eqn:He; [|done]. cbn. apply IH. cbn. by eapply nothing_left_step.
Qed.

Lemma lookup_broken l (fs : gmap nat future) (t : nat) :
  foldr (fun t fs => <[t := broken_promise]> fs) fs l !! t = if decide (t ∈ l) then Some broken_promise else fs !! t.
Proof.
  induction l as [|x l IH]; [by rewrite decide_False by apply not_elem_of_nil|]. cbn. destruct (decide (t = x)) as [->|Hne].
  - rewrite lookup_insert_eq, decide_True; [done|]. by left.
  - rewrite lookup_insert_ne, IH by done. destruct (decide (t ∈ l)); [rewrite decide_True|rewrite decide_False]; try done; rewrite elem_of_cons; naive_solver.
Qed.

Lemma exited_idle p : all_exited p -> omap running_task (workers p) = [].
Proof. unfold all_exited. induction 1 as [|w ws <- _ IH]; [done|]. by cbn. Qed.

(** C33: When a pool is destroyed, nobody waits for a future for ever: every task it
    accepted has either run, once, and its future has what it returned or threw, or
    was destroyed without running, and its future throws; none was both run
    and destroyed. The pool of [03_ThreadPool] with at least one worker has run them
    all. *)
Theorem futures_settled n es m m' :
  managed_run k run_task es (new_managed n) = Some m -> destroy m = Some m' ->
  finished (base m') ++ freed m' ≡ₚ submitted (base m') /\ NoDup (submitted (base m')) /\
  (forall t, t ∈ submitted (base m') ->
     t ∈ finished (base m') /\ get t m' = Some (Some (run_task t)) \/ t ∈ freed m' /\ get t m' = Some None) /\
  (forall t, t ∉ submitted (base m') -> futures m' !! t = None) /\
  (drains k = true -> rejects k = true -> top_check k = false -> n <> 0 -> freed m' = []).
Proof.
  intros Hrun Hdes. pose proof (m_run_ok n es _ _ (new_m_ok n) Hrun) as Hm.
  assert (Hleft : drains k = true -> rejects k = true -> top_check k = false -> nothing_left (base m)).
  { intros Hd Hr Ht. apply (nothing_left_run es (new_managed n)); [done..| |done]. by intros [? _]%elem_of_replicate. }
  unfold destroy in Hdes. case_decide as Hc; [|done]. destruct Hc as (_ & Ho & Hall). injection Hdes as <-. cbn [base futures freed].
  destruct Hm as [Hp Hdom Hnd Hf]. pose proof (never_null_running _ _ _ Hp) as Hr. rewrite (exited_idle _ Hall), app_nil_r in Hr.
  assert (Hperm : finished (base m) ++ tasks (base m) ≡ₚ submitted (base m)) by (rewrite <- (ok_fifo _ _ _ _ Hp); by rewrite Hr).
  assert (Hdisj : forall t, t ∈ finished (base m) -> t ∉ tasks (base m)) by (rewrite <- Hperm in Hnd; by apply NoDup_app in Hnd as (_ & ? & _)).
  split_and!; [done|done| | |].
  - intros t Ht. unfold get. cbn [futures]. rewrite lookup_broken. rewrite <- Hperm in Ht. apply elem_of_app in Ht as [Ht|Ht].
    + left. split; [done|]. rewrite decide_False by by apply Hdisj. assert (is_Some (futures m !! t)) as [f Hft].
      { apply elem_of_dom. rewrite Hdom. apply elem_of_list_to_set. rewrite <- Hperm. apply elem_of_app. by left. }
      rewrite Hft. specialize (Hf t f Hft). rewrite decide_True in Hf by done. by subst f.
    + right. split; [done|]. by rewrite decide_True.
  - intros t Ht. rewrite lookup_broken, decide_False; [apply not_elem_of_dom; rewrite Hdom; set_solver|].
    intros Hin. apply Ht. rewrite <- Hperm. apply elem_of_app. by right.
  - intros Hd Hrj Ht Hn. apply (Hleft Hd Hrj Ht). pose proof (ok_size _ _ _ _ Hp) as Hs. unfold all_exited in Hall.
    destruct (workers (base m)) as [|w ws]; [done|]. apply Forall_cons in Hall as [<- _]. by left.
Qed.

(** [size] counts what was accepted and not started yet. *)
Lemma size_counts n es p s :
  pool_run never_null k (new_pool n) es = Some p -> size_of p = Some s -> length (submitted p) = length (started p) + s.
Proof.
  intros Hrun Hs. pose proof (pool_run_ok _ _ _ _ _ _ (new_pool_ok never_null k n) Hrun) as Hp. unfold size_of in Hs.
  destruct (mutex_free p); [|done]. injection Hs as <-. by rewrite <- (ok_fifo _ _ _ _ Hp), length_app.
Qed.

End proofs.

Lemma nthreads_positive n h : (0 <= h)%Z -> (0 < nthreads_cpp11 n h)%Z.
Proof. intros Hh. unfold nthreads_cpp11. destruct (Z.leb_spec n 0), (Z.eqb_spec h 0); lia. Qed.

(** A worker of C++98 runs what is not null and waits; one of C++03 ends at
    the first null task. *)
Lemma null_skipped q fuel : length q < fuel -> threadFunc take_cpp98 fuel q = (omap id q, false, []).
Proof.
  revert q. induction fuel as [|fuel IH]; intros q Hq; [lia|]. cbn [threadFunc].
  assert (H : take_cpp98 true q = match omap id q with [] => (waits, []) | t :: _ => (got t, snd (take_cpp98 true q)) end /\
    (omap id q <> [] -> omap id q = match omap id q with t :: _ => t :: omap id (snd (take_cpp98 true q)) | [] => [] end /\ length (snd (take_cpp98 true q)) < length q)).
  { clear. induction q as [|[t|] q [IH1 IH2]]; [by split|cbn; by split; [|split; [|lia]]|]. cbn. split; [exact IH1|].
    intros Hne. destruct (IH2 Hne) as [IH3 IH4]. split; [exact IH3|cbn; lia]. }
  destruct H as [H1 H2]. rewrite H1. destruct (omap id q) as [|t l] eqn:Hl; [done|]. destruct (H2 ltac:(done)) as [H3 H4].
  rewrite IH by lia. by rewrite <- H3.
Qed.

Lemma null_ends q q' fuel : length q < fuel -> threadFunc take_cpp03 fuel ((Some <$> q) ++ None :: q') = (q, true, q').
Proof. revert fuel. induction q as [|t q IH]; intros [|fuel] Hf; cbn in *; try lia; [done|]. by rewrite IH by lia. Qed.

(** ** Examples *)

Definition squares (t : nat) : result := if (t =? 8)%nat then exception 8 else value (Z.of_nat (t * t)).

(** Two tasks, of which one throws. *)
Lemma futures_settled_witness : exists m m',
  managed_run kind_03 squares (example_before ++ example_after) (new_managed 2) = Some m /\ destroy m = Some m' /\
  freed m' = [] /\ get 7 m' = Some (Some (value 49)) /\ get 8 m' = Some (Some (exception 8)).
Proof.
  destruct (managed_run kind_03 squares (example_before ++ example_after) (new_managed 2)) as [m|] eqn:Hm; [|by vm_compute in Hm].
  destruct (destroy m) as [m'|] eqn:Hd; [|vm_compute in Hm; injection Hm as <-; by vm_compute in Hd].
  assert (Hs : submitted (base m') = [7; 8]) by (vm_compute in Hm; injection Hm as <-; vm_compute in Hd; by injection Hd as <-).
  exists m, m'. split; [reflexivity|]. split; [exact Hd|].
  destruct (futures_settled kind_03 squares 2 _ m m' Hm Hd) as (_ & _ & Hall & _ & Hfreed).
  specialize (Hfreed eq_refl eq_refl eq_refl ltac:(lia)). split; [exact Hfreed|]. rewrite Hs, Hfreed in Hall. clear Hm Hd Hs Hfreed.
  split.
  - destruct (Hall 7 ltac:(by left)) as [[_ H]|[H _]]; [rewrite H; reflexivity|by apply elem_of_nil in H].
  - destruct (Hall 8 ltac:(by right; left)) as [[_ H]|[H _]]; [rewrite H; reflexivity|by apply elem_of_nil in H].
Defined.

(** A pool without workers breaks every promise. *)
Lemma no_workers :
  (m ← managed_run kind_03 squares [task_submitted 7; flag_set; all_notified] (new_managed 0); m' ← destroy m; get 7 m') = Some None.
Proof. vm_compute. reflexivity. Qed.

(** The pool of C++11 breaks the promises of what waits when it is stopped. *)
Lemma stopped_cpp11 :
  (m ← managed_run kind_cpp11 squares [task_submitted 7; flag_set; all_notified; worker_runs 0] (new_managed 1); m' ← destroy m; get 7 m') = Some None.
Proof. vm_compute. reflexivity. Qed.
