(* ===== verification/SimplePool.v ===== *)
(** * SimplePool: the thread pool in C of [01_simple_threadPool]

    Models [zl_threadpool/01_simple_threadPool/threadPool.cpp]: the intrusive
    doubly linked lists of the macros [LL_INSERT] and [LL_REMOVE], on a memory
    of cells; the pool with its stack of jobs, its list of workers and its
    monitor, as a step relation; creating and destroying it.

    A pointer to a job or a worker is a number, [None] is [NULL]. A worker is
    also the thread that serves it, and frees its own cell when it ends. What a
    thread does between locking and unlocking the mutex is one step, except that
    a worker about to sleep still holds it; [nThreadPoolDestory] walks the list
    of workers without the mutex, one access at a time. *)
From S2P Require Import Prelude.

(** ** Intrusive lists *)

Record link := Link { next : option nat; prev : option nat }.

(** Assignments through a pointer; [None] is an access to no cell. *)
Definition set_next (x : nat) (v : option nat) (h : gmap nat link) : option (gmap nat link) :=
  l ← h !! x; Some (<[x := Link v (prev l)]> h).
Definition set_prev (x : nat) (v : option nat) (h : gmap nat link) : option (gmap nat link) :=
  l ← h !! x; Some (<[x := Link (next l) v]> h).

Definition LL_INSERT (item : nat) (list : option nat) (h : gmap nat link) : option (gmap nat link * option nat) :=
  h ← set_prev item None h;
  h ← set_next item list h;
  h ← match list with Some x => set_prev x (Some item) h | None => Some h end;
  Some (h, Some item).

Definition LL_REMOVE (item : nat) (list : option nat) (h : gmap nat link) : option (gmap nat link * option nat) :=
  l ← h !! item;
  h ← match prev l with Some p => set_next p (next l) h | None => Some h end;
  l ← h !! item;
  h ← match next l with Some n => set_prev n (prev l) h | None => Some h end;
  l ← h !! item;
  let list := if decide (list = Some item) then next l else list in
  h ← set_next item None h;
  h ← set_prev item None h;
  Some (h, list).

(** ** The pool *)

(** A worker is about to lock the mutex, holds it and is about to sleep,
    sleeps, runs a job, has left its loop, has freed its cell and ended. *)
Inductive thread := T_lock | T_blocking | T_wait | T_run (job : nat) | T_free | T_exit.
#[export] Instance thread_eq_dec : EqDecision thread.
Proof. solve_decision. Defined.

(** [nThreadPoolDestory]: not called, at the head of its loop with [worker],
    about to read [worker->next], after the loop, returned. *)
Inductive destroyer := D_alive | D_loop (worker : option nat) | D_next (worker : nat) | D_broadcast | D_done.
#[export] Instance destroyer_eq_dec : EqDecision destroyer.
Proof. solve_decision. Defined.

(** Worker [i] is the cell [i] and the thread [i]. *)
Record nThreadPool := NPool {
  jobs : option nat;
  workers : option nat;
  job_links : gmap nat link;
  worker_links : gmap nat link;       (* the cells not freed *)
  terminate : gset nat;               (* the workers whose flag is set *)
  threads : list thread;
  destroy : destroyer;
  stack : list nat;                   (* ghost: the jobs that wait, *)
  pushed : list nat;                  (* those pushed and those that returned *)
  executed : list nat }.

(** [use_after_free]: an access to a cell that is not there. *)
Inductive effect := now_in (p : nThreadPool) | use_after_free.

Definition or_uaf (o : option nThreadPool) : effect := match o with Some p => now_in p | None => use_after_free end.

Definition mutex_free (p : nThreadPool) : bool := bool_decide (T_blocking ∉ threads p).

Definition with_thread (p : nThreadPool) (i : nat) (t : thread) : nThreadPool :=
  NPool (jobs p) (workers p) (job_links p) (worker_links p) (terminate p) (<[i := t]> (threads p)) (destroy p) (stack p) (pushed p) (executed p).
Definition with_destroy (p : nThreadPool) (d : destroyer) : nThreadPool :=
  NPool (jobs p) (workers p) (job_links p) (worker_links p) (terminate p) (threads p) d (stack p) (pushed p) (executed p).

(** [nThreadCallback], to its next point; [None] while it cannot go on. *)
Definition nThreadCallback (p : nThreadPool) (i : nat) : option effect :=
  t ← threads p !! i;
  match t with
  | T_lock =>
      if mutex_free p then Some
        match jobs p with
        | None => now_in (with_thread p i (if decide (i ∈ terminate p) then T_free else T_blocking))
        | Some job =>
            if decide (i ∈ terminate p) then now_in (with_thread p i T_free)
            else or_uaf ('(h, l) ← LL_REMOVE job (Some job) (job_links p);
                   Some (NPool l (workers p) h (worker_links p) (terminate p) (<[i := T_run job]> (threads p))
                           (destroy p) (tail (stack p)) (pushed p) (executed p)))
        end
      else None
  | T_blocking => Some (now_in (with_thread p i T_wait))
  | T_run job => Some (now_in
      (NPool (jobs p) (workers p) (job_links p) (worker_links p) (terminate p) (<[i := T_lock]> (threads p))
         (destroy p) (stack p) (pushed p) (executed p ++ [job])))
  | T_free => Some (now_in
      (NPool (jobs p) (workers p) (job_links p) (delete i (worker_links p)) (terminate p) (<[i := T_exit]> (threads p))
         (destroy p) (stack p) (pushed p) (executed p)))
  | T_wait | T_exit => None
  end.

(** [nThreadPoolPushTask]; the signal, given under the mutex, wakes the
    sleeping worker [w], or nobody where nobody sleeps. The memory of the job
    is the caller's. *)
Definition nThreadPoolPushTask (p : nThreadPool) (job : nat) (w : option nat) : option effect :=
  if mutex_free p then
    let ths := match w with
               | Some i => if decide (threads p !! i = Some T_wait) then Some (<[i := T_lock]> (threads p)) else None
               | None => if decide (T_wait ∈ threads p) then None else Some (threads p)
               end in
    ths ← ths;
    Some (or_uaf
      ('(h, l) ← LL_INSERT job (jobs p) (match job_links p !! job with
                                         | Some _ => job_links p
                                         | None => <[job := Link None None]> (job_links p)
                                         end);
       Some (NPool l (workers p) h (worker_links p) (terminate p) ths (destroy p)
               (job :: stack p) (pushed p ++ [job]) (executed p))))
  else None.

Definition awake (t : thread) : thread := match t with T_wait => T_lock | _ => t end.

(** [nThreadPoolDestory], one access at a time. *)
Definition nThreadPoolDestory (p : nThreadPool) : option effect :=
  match destroy p with
  | D_alive => Some (now_in (with_destroy p (D_loop (workers p))))
  | D_loop (Some w) => Some
      match worker_links p !! w with
      | Some _ => now_in (NPool (jobs p) (workers p) (job_links p) (worker_links p) ({[w]} ∪ terminate p) (threads p)
                            (D_next w) (stack p) (pushed p) (executed p))
      | None => use_after_free
      end
  | D_next w => Some
      match worker_links p !! w with
      | Some l => now_in (with_destroy p (D_loop (next l)))
      | None => use_after_free
      end
  | D_loop None => Some (now_in (with_destroy p D_broadcast))
  | D_broadcast =>
      if mutex_free p then Some (now_in
        (NPool (jobs p) (workers p) (job_links p) (worker_links p) (terminate p) (awake <$> threads p)
           D_done (stack p) (pushed p) (executed p)))
      else None
  | D_done => None
  end.

Inductive event := worker_runs (i : nat) | push (job : nat) (w : option nat) | destroy_runs | spurious_wakeup (i : nat).

Definition step (p : nThreadPool) (e : event) : option effect :=
  match e with
  | worker_runs i => nThreadCallback p i
  | push job w => nThreadPoolPushTask p job w
  | destroy_runs => nThreadPoolDestory p
  | spurious_wakeup i => if decide (threads p !! i = Some T_wait) then Some (now_in (with_thread p i T_lock)) else None
  end.

Fixpoint run (p : nThreadPool) (es : list event) : option effect :=
  match es with
  | [] => Some (now_in p)
  | e :: es' => r ← step p e; match r with now_in p' => run p' es' | use_after_free => Some use_after_free end
  end.

(** [nThreadPoolCreate]: how each of the allocations and thread creations
    ends, with the return value and the pool as it is left. *)
Inductive creation := created | malloc_fails | pthread_create_fails.

Definition blank_pool : nThreadPool := NPool None None ∅ ∅ ∅ [] D_alive [] [] [].

Definition add_worker (p : nThreadPool) : option nThreadPool :=
  let i := length (threads p) in
  '(h, l) ← LL_INSERT i (workers p) (<[i := Link None None]> (worker_links p));
  Some (NPool (jobs p) l (job_links p) h (terminate p) (threads p ++ [T_lock]) (destroy p) (stack p) (pushed p) (executed p)).

Fixpoint create_workers (n : nat) (results : nat -> creation) (p : nThreadPool) : option (Z * nThreadPool) :=
  match n with
  | O => Some (0%Z, p)
  | S n' =>
      match results (length (threads p)) with
      | malloc_fails => Some ((-2)%Z, p)
      | pthread_create_fails => Some ((-3)%Z, p)
      | created => p ← add_worker p; create_workers n' results p
      end
  end.
Definition nThreadPoolCreate (numWorker : Z) (results : nat -> creation) : option (Z * nThreadPool) :=
  create_workers (Z.to_nat (Z.max 1 numWorker)) results blank_pool.

(** ** Lists *)

(** The cells of [l], linked both ways: [pv] comes before, [hd] points at the
    first of them and the last one at [nx]. *)
Fixpoint segment (h : gmap nat link) (pv hd : option nat) (l : list nat) (nx : option nat) : Prop :=
  match l with
  | [] => hd = nx
  | x :: l' => hd = Some x /\ exists n, h !! x = Some (Link n pv) /\ segment h (Some x) n l' nx
  end.

Definition is_list (h : gmap nat link) (hd : option nat) (l : list nat) : Prop := segment h None hd l None /\ NoDup l.

Lemma segment_frame h h' pv hd l nx :
  (forall x, x ∈ l -> h' !! x = h !! x) -> segment h pv hd l nx -> segment h' pv hd l nx.
Proof.
  revert pv hd. induction l as [|x l IH]; intros pv hd Heq; [done|]. cbn. intros (-> & n & Hx & Hl). split; [done|].
  exists n. rewrite Heq by set_solver. split; [done|]. apply IH; [|done]. intros y Hy. apply Heq. set_solver.
Qed.

Lemma segment_insert h pv hd l nx x v : x ∉ l -> segment h pv hd l nx -> segment (<[x := v]> h) pv hd l nx.
Proof. intros Hx. apply segment_frame. intros y Hy. apply lookup_insert_ne. by intros ->. Qed.

(** What comes before a cell after the cells of [l]. *)
Definition last_or (pv : option nat) (l : list nat) : option nat :=
  match last l with Some x => Some x | None => pv end.

Lemma last_or_cons pv x l : last_or pv (x :: l) = last_or (Some x) l.
Proof. unfold last_or. rewrite last_cons. by destruct (last l). Qed.

Lemma segment_app h pv hd l1 l2 nx :
  segment h pv hd (l1 ++ l2) nx <-> exists m, segment h pv hd l1 m /\ segment h (last_or pv l1) m l2 nx.
Proof.
  revert pv hd. induction l1 as [|x l1 IH]; intros pv hd; cbn [app segment].
  - split; [intros H; by exists hd|]. by intros (m & -> & H).
  - split.
    + intros (-> & n & Hx & Hl). apply IH in Hl as (m & H1 & H2). exists m. rewrite last_or_cons. split; [|done].
      split; [done|]. by exists n.
    + intros (m & (-> & n & Hx & H1) & H2). split; [done|]. exists n. split; [done|]. apply IH. exists m.
      by rewrite last_or_cons in H2.
Qed.

Lemma segment_head h pv hd l nx : segment h pv hd l nx -> hd = match l with [] => nx | x :: _ => Some x end.
Proof. destruct l; cbn; [done|]. by intros [-> _]. Qed.

(** [LL_INSERT] is cons. *)
Lemma LL_INSERT_spec item hd h l :
  is_list h hd l -> item ∉ l -> is_Some (h !! item) ->
  exists h', LL_INSERT item hd h = Some (h', Some item) /\ is_list h' (Some item) (item :: l) /\
    (forall x, x ∉ item :: l -> h' !! x = h !! x) /\ dom h' = dom h.
Proof.
  intros [Hs Hnd] Hin [v Hv]. unfold LL_INSERT, set_prev, set_next. rewrite Hv. cbn [mbind option_bind].
  rewrite lookup_insert_eq. cbn [mbind option_bind prev]. rewrite insert_insert_eq.
  assert (item ∈ dom h) as Hdom by (apply elem_of_dom; by eexists).
  destruct l as [|x l].
  - cbn in Hs. subst hd. eexists. split; [done|]. split_and!.
    + split; [|by apply NoDup_singleton]. cbn. split; [done|]. exists None. by rewrite lookup_insert_eq.
    + intros y Hy. apply lookup_insert_ne. set_solver.
    + rewrite dom_insert_L. set_solver.
  - destruct Hs as (-> & n & Hx & Hl). assert (x <> item) as Hne by set_solver.
    rewrite lookup_insert_ne, Hx by done. cbn [mbind option_bind next]. eexists. split; [done|].
    apply NoDup_cons in Hnd as [Hxl Hnd]. split_and!.
    + split; [|by apply NoDup_cons; split; [|apply NoDup_cons]]. cbn [segment]. split; [done|]. exists (Some x).
      split; [by rewrite lookup_insert_ne, lookup_insert_eq by done|]. split; [done|]. exists n.
      split; [by rewrite lookup_insert_eq|]. apply segment_insert; [done|]. apply segment_insert; [set_solver|done].
    + intros y Hy. rewrite !lookup_insert_ne by set_solver. done.
    + rewrite !dom_insert_L. assert (x ∈ dom h) by (apply elem_of_dom; by eexists). set_solver.
Qed.

(** [LL_REMOVE] takes an element out, wherever it is. *)
Lemma LL_REMOVE_spec item hd h l1 l2 :
  is_list h hd (l1 ++ item :: l2) ->
  exists h' hd', LL_REMOVE item hd h = Some (h', hd') /\ is_list h' hd' (l1 ++ l2) /\
    h' !! item = Some (Link None None) /\ (forall x, x ∉ l1 ++ item :: l2 -> h' !! x = h !! x) /\ dom h' = dom h.
Proof.
  intros [Hs Hnd]. apply segment_app in Hs as (m & H1 & (-> & n & Hx & H2)).
  pose proof (segment_head _ _ _ _ _ H1) as Hhd. pose proof (segment_head _ _ _ _ _ H2) as Hn.
  apply NoDup_app in Hnd as (Hnd1 & Hdis & Hnd2). apply NoDup_cons in Hnd2 as [Hi2 Hnd2].
  assert (item ∉ l1) as Hi1 by (intros Hi; apply (Hdis item Hi); set_solver).
  assert (NoDup (l1 ++ l2)) as Hnd by (apply NoDup_app; split_and!; [done|set_solver|done]).
  assert (item ∈ dom h) as Hdi by (apply elem_of_dom; by eexists).
  unfold LL_REMOVE. rewrite Hx. cbn [mbind option_bind prev next].
  (* the predecessor, then the successor *)
  assert (exists hA, match last_or None l1 with Some p => set_next p n h | None => Some h end = Some hA /\
    segment hA None (match l1 with [] => n | _ => hd end) l1 n /\
    (forall x, x ∉ l1 -> hA !! x = h !! x) /\ dom hA = dom h) as (hA & -> & HA1 & HA2 & HA3).
  { destruct l1 as [|p l1' _] using rev_ind; [by exists h|].
    unfold last_or. rewrite last_snoc. apply segment_app in H1 as (m & H1a & (-> & n' & Hp & Hn')). cbn in Hn'. subst n'.
    unfold set_next. rewrite Hp. cbn [mbind option_bind prev]. eexists. split; [done|].
    apply NoDup_app in Hnd1 as (Hnd1a & Hdis1 & _). assert (p ∉ l1') as Hp' by (intros Hpp; apply (Hdis1 p Hpp); set_solver).
    split_and!.
    - replace (match l1' ++ [p] with [] => n | _ => hd end) with hd by (by destruct l1').
      apply segment_app. exists (Some p). split; [by apply segment_insert|]. cbn [segment]. split; [done|].
      exists n. by rewrite lookup_insert_eq.
    - intros x Hxn. apply lookup_insert_ne. set_solver.
    - rewrite dom_insert_L. assert (p ∈ dom h) by (apply elem_of_dom; by eexists). set_solver. }
  cbn [mbind option_bind]. rewrite (HA2 item) by done. rewrite Hx. cbn [mbind option_bind prev next].
  assert (exists hB, match n with Some y => set_prev y (last_or None l1) hA | None => Some hA end = Some hB /\
    segment hB (last_or None l1) n l2 None /\
    (forall x, x ∉ l2 -> hB !! x = hA !! x) /\ dom hB = dom hA) as (hB & -> & HB1 & HB2 & HB3).
  { destruct l2 as [|y l2].
    - cbn in H2. subst n. by exists hA.
    - destruct H2 as (-> & n2 & Hy & H2). unfold set_prev. assert (y ∉ l1) as Hy1.
      { intros Hy1. apply (Hdis y Hy1). set_solver. }
      rewrite (HA2 y), Hy by done. cbn [mbind option_bind next]. eexists. split; [done|].
      apply NoDup_cons in Hnd2 as [Hyl Hnd2]. split_and!.
      + cbn [segment]. split; [done|]. exists n2. rewrite lookup_insert_eq. split; [done|].
        apply segment_insert; [done|]. eapply segment_frame; [|exact H2]. intros z Hz. apply HA2.
        intros Hz1. apply (Hdis z Hz1). set_solver.
      + intros x Hxn. apply lookup_insert_ne. set_solver.
      + rewrite dom_insert_L. assert (y ∈ dom hA) by (rewrite HA3; apply elem_of_dom; by eexists). set_solver. }
  cbn [mbind option_bind]. rewrite (HB2 item), (HA2 item), Hx by done. cbn [mbind option_bind next].
  unfold set_next, set_prev. rewrite (HB2 item), (HA2 item), Hx by done. cbn [mbind option_bind prev].
  rewrite lookup_insert_eq. cbn [mbind option_bind next]. rewrite insert_insert_eq.
  eexists _, _. split; [done|]. split_and!.
  - split; [|done]. apply segment_insert; [set_solver|]. apply segment_app. exists n.
    assert ((if decide (hd = Some item) then n else hd) = match l1 with [] => n | _ => hd end) as ->.
    { destruct l1 as [|p l1]; [by rewrite decide_True|]. rewrite decide_False; [done|]. intros ->. set_solver. }
    split; [|done]. eapply segment_frame; [|exact HA1]. intros z Hz. apply HB2. set_solver.
  - by rewrite lookup_insert_eq.
  - intros x Hxn. rewrite lookup_insert_ne by set_solver. rewrite HB2, HA2 by set_solver. done.
  - rewrite dom_insert_L, HB3, HA3. set_solver.
Qed.

(** ** The invariant *)

(** The cell of worker [i] of [n], as [nThreadPoolCreate] leaves it. *)
Definition created_link (n i : nat) : link :=
  Link (match i with O => None | S j => Some j end) (if decide (S i < n) then Some (S i) else None).

(** The workers whose flag [nThreadPoolDestory] has set: it walks from the
    last one created to the first. *)
Definition flagged (n : nat) (d : destroyer) (i : nat) : Prop :=
  match d with
  | D_alive => False
  | D_loop (Some w) => w < i < n
  | D_next w => w <= i < n
  | D_loop None | D_broadcast | D_done => i < n
  end.

Definition running (p : nThreadPool) : list nat := omap (fun t => match t with T_run j => Some j | _ => None end) (threads p).

Record inv (p : nThreadPool) : Prop := {
  inv_stack : is_list (job_links p) (jobs p) (stack p);
  inv_jobs : pushed p ≡ₚ stack p ++ running p ++ executed p;
  inv_links i : worker_links p !! i =
    if decide (i < length (threads p) /\ threads p !! i <> Some T_exit) then Some (created_link (length (threads p)) i) else None;
  inv_workers : workers p = match length (threads p) with O => None | S n => Some n end;
  inv_flags i : i ∈ terminate p <-> flagged (length (threads p)) (destroy p) i;
  inv_walk : match destroy p with D_loop (Some w) | D_next w => w < length (threads p) | _ => True end;
  inv_left i : threads p !! i = Some T_free \/ threads p !! i = Some T_exit -> i ∈ terminate p;
  inv_done : destroy p = D_done -> T_wait ∉ threads p /\ T_blocking ∉ threads p }.

(** A job is not pushed again while it waits. *)
Definition push_ok (p : nThreadPool) (e : event) : Prop := match e with push job _ => job ∉ stack p | _ => True end.

Fixpoint pushes_ok (p : nThreadPool) (es : list event) : Prop :=
  match es with
  | [] => True
  | e :: es' => push_ok p e /\ match step p e with Some (now_in p') => pushes_ok p' es' | _ => True end
  end.

#[export] Instance push_ok_dec p e : Decision (push_ok p e).
Proof. destruct e; cbn; apply _. Defined.
#[export] Instance pushes_ok_dec p es : Decision (pushes_ok p es).
Proof.
  revert p. induction es as [|e es IH]; intros p; cbn; [apply _|].
  apply and_dec; [apply _|]. destruct (step p e) as [[p'|]|]; apply _.
Defined.

(** ** Lemmas *)

Lemma omap_insert {A B} (f : A -> option B) l i x y :
  l !! i = Some x ->
  option_list (f x) ++ omap f (<[i := y]> l) ≡ₚ option_list (f y) ++ omap f l.
Proof.
  revert i. induction l as [|z l IH]; intros [|i]; intros H; try done; cbn in *.
  - injection H as ->. destruct (f x), (f y); cbn; try done. by constructor.
  - specialize (IH i H). destruct (f z) as [b|]; cbn; [|done].
    rewrite <- (Permutation_middle (option_list (f x))), <- (Permutation_middle (option_list (f y))). by constructor.
Qed.

Section WorkerStep.
Context (p : nThreadPool) (i : nat) (t t' : thread).
Context (Hinv : inv p) (Ht : threads p !! i = Some t).

(** A step of worker [i] that touches nothing but its own state. *)
Lemma with_thread_inv :
  (forall j, t <> T_run j) -> (forall j, t' <> T_run j) -> t <> T_exit -> t' <> T_exit ->
  (t' = T_free -> i ∈ terminate p) ->
  (destroy p = D_done -> t' <> T_wait /\ t' <> T_blocking) -> inv (with_thread p i t').
Proof.
  intros Hr Hr' Hx Hx' Hf Hd. assert (i < length (threads p)) as Hi by by eapply lookup_lt_Some.
  destruct Hinv as [H1 H2 H3 H4 H5 H6 H7 H8]. constructor; cbn; try done.
  - unfold running in *. cbn. pose proof (omap_insert (fun t => match t with T_run j => Some j | _ => None end) _ _ _ t' Ht) as Hp.
    destruct t; try (by specialize (Hr job)); destruct t'; try (by specialize (Hr' job)); cbn in Hp; by rewrite Hp.
  - intros j. rewrite length_insert, H3. apply decide_ext. destruct (decide (j = i)) as [->|Hne].
    + rewrite Ht, list_lookup_insert_eq by done. naive_solver.
    + by rewrite list_lookup_insert_ne.
  - by rewrite length_insert.
  - intros j. by rewrite length_insert.
  - by rewrite length_insert.
  - intros j. destruct (decide (j = i)) as [->|Hne].
    + rewrite list_lookup_insert_eq by done. intros [[= ->]|[= ->]]; [by apply Hf|done].
    + rewrite list_lookup_insert_ne by done. apply H7.
  - intros Hdd. destruct (H8 Hdd) as [Hw Hb]. destruct (Hd Hdd) as [Hw' Hb'].
    split; intros Hin; apply list_elem_of_lookup in Hin as [j Hj];
      (destruct (decide (j = i)) as [->|Hne];
       [rewrite list_lookup_insert_eq in Hj by done; congruence|rewrite list_lookup_insert_ne in Hj by done]).
    + by apply Hw, list_elem_of_lookup; exists j.
    + by apply Hb, list_elem_of_lookup; exists j.
Qed.
End WorkerStep.

Abbreviation run_of := (fun t => match t with T_run j => Some j | _ => None end).

(** Entries of the list of threads after one of them changed. *)
Lemma threads_change (l : list thread) i t' u j :
  i < length l -> <[i := t']> l !! j = Some u -> (j = i /\ u = t') \/ (j <> i /\ l !! j = Some u).
Proof.
  intros Hi. destruct (decide (j = i)) as [->|Hne].
  - rewrite list_lookup_insert_eq by done. intros [= ->]. by left.
  - rewrite list_lookup_insert_ne by done. by right.
Qed.

Lemma no_thread_change (l : list thread) i t' u :
  i < length l -> t' <> u -> u ∉ l -> u ∉ <[i := t']> l.
Proof.
  intros Hi Hne Hu Hin. apply list_elem_of_lookup in Hin as [j Hj].
  apply threads_change in Hj as [[_ ->]|[_ Hj]]; [done| |done]. apply Hu, list_elem_of_lookup. by exists j.
Qed.

Lemma exit_change (l : list thread) i t' j :
  i < length l -> t' <> T_exit -> l !! i <> Some T_exit ->
  (<[i := t']> l !! j <> Some T_exit <-> l !! j <> Some T_exit).
Proof.
  intros Hi Ht' Hli. destruct (decide (j = i)) as [->|Hne].
  - rewrite list_lookup_insert_eq by done. naive_solver.
  - by rewrite list_lookup_insert_ne.
Qed.

(** Taking the job on top. *)
Lemma take_inv p i job rest :
  inv p -> threads p !! i = Some T_lock -> i ∉ terminate p -> stack p = job :: rest ->
  exists h l, LL_REMOVE job (Some job) (job_links p) = Some (h, l) /\ jobs p = Some job /\
    inv (NPool l (workers p) h (worker_links p) (terminate p) (<[i := T_run job]> (threads p)) (destroy p)
           (tail (stack p)) (pushed p) (executed p)).
Proof.
  intros Hinv Ht Hi Hst. assert (i < length (threads p)) as Hlt by by eapply lookup_lt_Some.
  destruct Hinv as [H1 H2 H3 H4 H5 H6 H7 H8]. rewrite Hst in H1.
  assert (jobs p = Some job) as Hj by (destruct H1 as [[-> _] _]; done). rewrite Hj in H1.
  destruct (LL_REMOVE_spec job (Some job) (job_links p) [] rest H1) as (h & l & Hrem & Hl & _).
  exists h, l. split; [done|]. split; [done|]. rewrite Hst. constructor; cbn; try done.
  - rewrite H2, Hst. unfold running. cbn. pose proof (omap_insert run_of _ _ _ (T_run job) Ht) as Hp. cbn in Hp. rewrite Hp.
    cbn [app]. apply Permutation_middle.
  - intros j. rewrite length_insert, H3. apply decide_ext. by rewrite exit_change by (done || congruence).
  - by rewrite length_insert.
  - intros j. by rewrite length_insert.
  - by rewrite length_insert.
  - intros j [Hj'|Hj']; apply threads_change in Hj' as [[-> ?]|[? Hj']]; try done; apply H7; auto.
  - intros Hd. exfalso. apply Hi, H5. rewrite Hd. done.
Qed.

(** A job that returns, and a worker that frees its cell. *)
Lemma finish_inv p i job :
  inv p -> threads p !! i = Some (T_run job) ->
  inv (NPool (jobs p) (workers p) (job_links p) (worker_links p) (terminate p) (<[i := T_lock]> (threads p)) (destroy p)
         (stack p) (pushed p) (executed p ++ [job])).
Proof.
  intros Hinv Ht. assert (i < length (threads p)) as Hlt by by eapply lookup_lt_Some.
  destruct Hinv as [H1 H2 H3 H4 H5 H6 H7 H8]. constructor; cbn; try done.
  - rewrite H2. unfold running. cbn. pose proof (omap_insert run_of _ _ _ T_lock Ht) as Hp. cbn in Hp. rewrite <- Hp.
    cbn [app]. rewrite (Permutation_app_comm (executed p)). cbn [app]. by rewrite Permutation_middle.
  - intros j. rewrite length_insert, H3. apply decide_ext. by rewrite exit_change by (done || congruence).
  - by rewrite length_insert.
  - intros j. by rewrite length_insert.
  - by rewrite length_insert.
  - intros j [Hj'|Hj']; apply threads_change in Hj' as [[-> ?]|[? Hj']]; try done; apply H7; auto.
  - intros Hd. destruct (H8 Hd). split; by apply no_thread_change.
Qed.

Lemma free_inv p i :
  inv p -> threads p !! i = Some T_free ->
  inv (NPool (jobs p) (workers p) (job_links p) (delete i (worker_links p)) (terminate p) (<[i := T_exit]> (threads p)) (destroy p)
         (stack p) (pushed p) (executed p)).
Proof.
  intros Hinv Ht. assert (i < length (threads p)) as Hlt by by eapply lookup_lt_Some.
  destruct Hinv as [H1 H2 H3 H4 H5 H6 H7 H8]. constructor; cbn; try done.
  - rewrite H2. unfold running. cbn. pose proof (omap_insert run_of _ _ _ T_exit Ht) as Hp. cbn in Hp. by rewrite Hp.
  - intros j. rewrite length_insert. destruct (decide (j = i)) as [->|Hne].
    + rewrite lookup_delete_eq, list_lookup_insert_eq by done. rewrite decide_False; [done|]. naive_solver.
    + rewrite lookup_delete_ne, list_lookup_insert_ne by done. apply H3.
  - by rewrite length_insert.
  - intros j. by rewrite length_insert.
  - by rewrite length_insert.
  - intros j [Hj'|Hj']; apply threads_change in Hj' as [[-> ?]|[? Hj']]; try done; apply H7; auto.
  - intros Hd. destruct (H8 Hd). split; by apply no_thread_change.
Qed.

Lemma callback_inv p i r :
  inv p -> nThreadCallback p i = Some r -> exists p', r = now_in p' /\ inv p'.
Proof.
  intros Hinv. unfold nThreadCallback. destruct (threads p !! i) as [t|] eqn:Ht; [|done]. cbn [mbind option_bind].
  destruct t as [| | |job| |]; try done.
  - destruct (mutex_free p); [|done]. intros [= <-].
    destruct (stack p) as [|job rest] eqn:Hst.
    { assert (jobs p = None) as -> by (pose proof (inv_stack p Hinv) as [Hs _]; by rewrite Hst in Hs).
      eexists. split; [done|]. destruct (decide (i ∈ terminate p)) as [Hi|Hi].
      - apply (with_thread_inv p i T_lock); done.
      - apply (with_thread_inv p i T_lock); try done. intros Hd. exfalso. apply Hi, (inv_flags p Hinv). rewrite Hd.
        by eapply lookup_lt_Some. }
    destruct (decide (i ∈ terminate p)) as [Hi|Hi].
    + assert (jobs p = Some job) as -> by (pose proof (inv_stack p Hinv) as [Hs _]; rewrite Hst in Hs; by destruct Hs as [-> _]).
      eexists. split; [done|]. apply (with_thread_inv p i T_lock); done.
    + destruct (take_inv p i job rest Hinv Ht Hi Hst) as (h & l & Hrem & -> & Hinv'). rewrite Hrem, Hst in *.
      cbn [mbind option_bind or_uaf]. eexists. split; [done|]. exact Hinv'.
  - intros [= <-]. eexists. split; [done|]. apply (with_thread_inv p i T_blocking); try done.
    intros Hd. destruct (inv_done p Hinv Hd) as [_ Hb]. exfalso. apply Hb, list_elem_of_lookup. by exists i.
  - intros [= <-]. eexists. split; [done|]. by apply finish_inv.
  - intros [= <-]. eexists. split; [done|]. by apply free_inv.
Qed.

Lemma wake_inv p i : inv p -> threads p !! i = Some T_wait -> inv (with_thread p i T_lock).
Proof. intros Hinv Hi. by apply (with_thread_inv p i T_wait). Qed.

Lemma add_job_inv p job h0 :
  inv p -> job ∉ stack p ->
  h0 = match job_links p !! job with Some _ => job_links p | None => <[job := Link None None]> (job_links p) end ->
  exists h l, LL_INSERT job (jobs p) h0 = Some (h, l) /\
    inv (NPool l (workers p) h (worker_links p) (terminate p) (threads p) (destroy p) (job :: stack p) (pushed p ++ [job]) (executed p)).
Proof.
  intros Hinv Hj ->. destruct Hinv as [H1 H2 H3 H4 H5 H6 H7 H8]. set (h0 := match _ with Some _ => _ | None => _ end).
  assert (is_list h0 (jobs p) (stack p) /\ is_Some (h0 !! job)) as [Hl Hs].
  { unfold h0. destruct (job_links p !! job) eqn:Hjl; [split; [done|by eexists]|].
    split; [|rewrite lookup_insert_eq; by eexists]. destruct H1. split; [|done]. by apply segment_insert. }
  destruct (LL_INSERT_spec job (jobs p) h0 (stack p) Hl Hj Hs) as (h & Hins & Hl' & _).
  exists h, (Some job). split; [done|]. constructor; cbn; try done.
  rewrite H2. by rewrite Permutation_app_comm.
Qed.

Lemma push_inv p job w r :
  inv p -> job ∉ stack p -> nThreadPoolPushTask p job w = Some r -> exists p', r = now_in p' /\ inv p'.
Proof.
  intros Hinv Hj. unfold nThreadPoolPushTask. destruct (mutex_free p); [|done].
  set (h0 := match job_links p !! job with Some _ => _ | None => _ end). destruct w as [i|].
  - case_decide as Hw; [|done]. cbn [mbind option_bind]. intros [= <-].
    destruct (add_job_inv (with_thread p i T_lock) job h0 (wake_inv p i Hinv Hw) Hj eq_refl) as (h & l & Heq & Hinv').
    cbn in Heq. rewrite Heq. cbn [mbind option_bind or_uaf]. eexists. split; [done|]. exact Hinv'.
  - case_decide; [done|]. cbn [mbind option_bind]. intros [= <-].
    destruct (add_job_inv p job h0 Hinv Hj eq_refl) as (h & l & Heq & Hinv').
    rewrite Heq. cbn [mbind option_bind or_uaf]. eexists. split; [done|]. exact Hinv'.
Qed.

Lemma with_destroy_inv p d f :
  inv p -> destroy p <> D_done -> d <> D_done ->
  (forall i, i ∈ f <-> flagged (length (threads p)) d i) -> terminate p ⊆ f ->
  match d with D_loop (Some w) | D_next w => w < length (threads p) | _ => True end ->
  inv (NPool (jobs p) (workers p) (job_links p) (worker_links p) f (threads p) d (stack p) (pushed p) (executed p)).
Proof. intros [] ? ? ? Hsub ?. constructor; cbn; try done. intros i Hi. apply Hsub. auto. Qed.

Lemma destroy_step p r :
  inv p -> nThreadPoolDestory p = Some r ->
  match r with
  | now_in p' => inv p' /\ ~ (exists w, destroy p = D_next w /\ threads p !! w = Some T_exit)
  | use_after_free => exists w, destroy p = D_next w /\ threads p !! w = Some T_exit
  end.
Proof.
  intros Hinv. unfold nThreadPoolDestory. pose proof (inv_walk p Hinv) as Hw. pose proof (inv_links p Hinv) as Hl.
  pose proof (inv_flags p Hinv) as Hf.
  destruct (destroy p) as [|[w|]|w| |] eqn:Hd; try done.
  - intros [= <-]. split; [|by intros (w & ? & _)]. apply with_destroy_inv; try done; [by rewrite Hd| |].
    + intros i. rewrite Hf, (inv_workers p Hinv). unfold flagged. destruct (length (threads p)); lia.
    + rewrite (inv_workers p Hinv). destruct (length (threads p)); [done|lia].
  - rewrite Hl. assert (threads p !! w <> Some T_exit) as Hx.
    { intros Hx. assert (w ∈ terminate p) as Hin by (apply (inv_left p Hinv); by right).
      apply Hf in Hin. cbn in Hin. lia. }
    rewrite decide_True by done. intros [= <-]. split; [|by intros (w' & ? & _)].
    apply with_destroy_inv; try done; [by rewrite Hd| |set_solver].
    intros i. rewrite elem_of_union, elem_of_singleton, Hf. cbn. lia.
  - intros [= <-]. split; [|by intros (w & ? & _)]. apply with_destroy_inv; try done. by rewrite Hd.
  - rewrite Hl. case_decide as Hx.
    + intros [= <-]. split; [|intros (w' & [= <-] & He); by destruct Hx].
      cbn [next created_link]. apply with_destroy_inv; try done; [by rewrite Hd| |by destruct w; cbn; lia].
      intros i. rewrite Hf. destruct w; cbn; lia.
    + intros [= <-]. exists w. split; [done|]. apply dec_stable. naive_solver.
  - unfold mutex_free. case_bool_decide as Hm; [|done]. intros [= <-]. split; [|by intros (w & ? & _)].
    assert (forall t, awake t = T_exit <-> t = T_exit) as Hx by (by intros []).
    assert (forall t j, run_of (awake t) = Some j <-> run_of t = Some j) as Hr by (by intros []).
    destruct Hinv as [H1 H2 H3 H4 H5 H6 H7 H8]. constructor; cbn; try done.
    + rewrite H2. unfold running. cbn. do 2 f_equiv. clear. induction (threads p) as [|[] l IH]; cbn; try done. by constructor.
    + intros i. rewrite length_fmap, H3. apply decide_ext. rewrite list_lookup_fmap.
      destruct (threads p !! i) as [[]|]; naive_solver.
    + by rewrite length_fmap.
    + intros i. rewrite length_fmap, H5, Hd. done.
    + intros i. rewrite list_lookup_fmap. intros Hi. apply H7.
      destruct (threads p !! i) as [[]|]; destruct Hi as [[=]|[=]]; auto.
    + intros _. split; intros Hin; apply list_elem_of_fmap in Hin as (t & Ht & Hin).
      * by destruct t.
      * destruct t; try done.
Qed.

Lemma pool_step_inv p e r :
  inv p -> push_ok p e -> step p e = Some r ->
  match r with
  | now_in p' => inv p'
  | use_after_free => e = destroy_runs /\ exists w, destroy p = D_next w /\ threads p !! w = Some T_exit
  end.
Proof.
  intros Hinv Hp. destruct e as [i|job w| |i]; cbn [step].
  - intros H. by destruct (callback_inv p i r Hinv H) as (p' & -> & ?).
  - intros H. by destruct (push_inv p job w r Hinv Hp H) as (p' & -> & ?).
  - intros H. pose proof (destroy_step p r Hinv H) as Hd. destruct r; [by destruct Hd|done].
  - case_decide as Hi; [|done]. intros [= <-]. by apply wake_inv.
Qed.

Lemma pool_run_inv p es p' : inv p -> pushes_ok p es -> run p es = Some (now_in p') -> inv p'.
Proof.
  revert p. induction es as [|e es IH]; intros p Hinv; cbn [pushes_ok run].
  - by intros _ [= <-].
  - intros [Hp Hps]. destruct (step p e) as [r|] eqn:Hs; [|done]. cbn [mbind option_bind].
    pose proof (pool_step_inv p e r Hinv Hp Hs) as Hr. destruct r as [q|]; [|done]. by apply IH.
Qed.

(** *** Creation *)

Lemma add_worker_inv p :
  inv p -> destroy p = D_alive -> Forall (.= T_lock) (threads p) ->
  exists p', add_worker p = Some p' /\ inv p' /\ destroy p' = D_alive /\ threads p' = threads p ++ [T_lock].
Proof.
  intros Hinv Hd Hall. destruct Hinv as [H1 H2 H3 H4 H5 H6 H7 H8]. set (n := length (threads p)) in *.
  assert (forall i, worker_links p !! i = if decide (i < n) then Some (created_link n i) else None) as Hl.
  { intros i. rewrite H3. apply decide_ext. split; [by intros []|]. intros Hi. split; [done|]. intros Hx.
    rewrite Forall_forall in Hall. specialize (Hall T_exit). apply list_elem_of_lookup_2 in Hx. by specialize (Hall Hx). }
  set (h0 := <[n := Link None None]> (worker_links p)).
  assert (exists h, LL_INSERT n (workers p) h0 = Some (h, Some n) /\
    forall i, h !! i = if decide (i < S n) then Some (created_link (S n) i) else None) as (h & Hins & Hh).
  { unfold LL_INSERT, set_prev, set_next, h0. rewrite lookup_insert_eq. cbn [mbind option_bind].
    rewrite lookup_insert_eq. cbn [mbind option_bind prev next]. rewrite !insert_insert_eq, H4.
    destruct n as [|m] eqn:Hn.
    - eexists. split; [done|]. intros i. destruct (decide (i = 0)) as [->|Hi].
      + by rewrite lookup_insert_eq.
      + rewrite lookup_insert_ne, Hl by done. by rewrite !decide_False by lia.
    - rewrite lookup_insert_ne, Hl, decide_True by lia. cbn [mbind option_bind next created_link]. eexists. split; [done|].
      intros i. destruct (decide (i = m)) as [->|Him]; [|destruct (decide (i = S m)) as [->|Hin]].
      + rewrite lookup_insert_eq, decide_True by lia. unfold created_link. by rewrite decide_True by lia.
      + rewrite lookup_insert_ne, lookup_insert_eq, decide_True by lia. unfold created_link. by rewrite decide_False by lia.
      + rewrite !lookup_insert_ne, Hl by done. destruct (decide (i < S m)).
        * rewrite decide_True by lia. unfold created_link. by rewrite !decide_True by lia.
        * by rewrite decide_False by lia. }
  unfold add_worker. fold n h0. rewrite Hins. cbn [mbind option_bind]. eexists. split; [done|].
  assert (forall u, u <> T_lock -> u ∉ threads p ++ [T_lock]) as Hno.
  { intros u Hu Hin. rewrite Forall_forall in Hall. apply elem_of_app in Hin as [Hin|Hin]; [by apply Hu, Hall|set_solver]. }
  split; [|done]. constructor; cbn; try done.
  - rewrite H2. unfold running. cbn. by rewrite omap_app, app_nil_r.
  - intros i. rewrite Hh, length_app. fold n. cbn [length]. rewrite Nat.add_1_r. apply decide_ext. split; [|by intros []].
    intros Hi. split; [done|]. intros Hx. apply list_elem_of_lookup_2 in Hx. by apply (Hno T_exit) in Hx.
  - rewrite length_app. cbn. by rewrite Nat.add_1_r.
  - intros i. rewrite H5, Hd. done.
  - by rewrite Hd.
  - intros i [Hi|Hi]; apply list_elem_of_lookup_2 in Hi; by apply Hno in Hi.
  - by rewrite Hd.
Qed.

Lemma create_workers_inv k results p :
  inv p -> destroy p = D_alive -> Forall (.= T_lock) (threads p) ->
  exists ret p', create_workers k results p = Some (ret, p') /\ inv p' /\
    (ret = 0%Z /\ length (threads p') = length (threads p) + k /\
       (forall i, length (threads p) <= i < length (threads p) + k -> results i = created) \/
     results (length (threads p')) = malloc_fails /\ ret = (-2)%Z \/
     results (length (threads p')) = pthread_create_fails /\ ret = (-3)%Z).
Proof.
  revert p. induction k as [|k IH]; intros p Hinv Hd Hall; cbn [create_workers].
  { exists 0%Z, p. split; [done|]. split; [done|]. left. split_and!; [done|lia|intros; lia]. }
  destruct (results (length (threads p))) eqn:Hr.
  - destruct (add_worker_inv p Hinv Hd Hall) as (p' & -> & Hinv' & Hd' & Ht'). cbn [mbind option_bind].
    destruct (IH p' Hinv' Hd') as (ret & q & -> & Hq & Hres).
    { rewrite Ht'. apply Forall_app. split; [done|by constructor]. }
    exists ret, q. split; [done|]. split; [done|]. rewrite Ht', length_app in Hres. cbn in Hres.
    destruct Hres as [(-> & Hlen & Hall')|Hres]; [left|by right].
    split_and!; [done|lia|]. intros i Hi. destruct (decide (i = length (threads p))) as [->|]; [done|]. apply Hall'. lia.
  - eexists _, _. split; [done|]. split; [done|]. right. by left.
  - eexists _, _. split; [done|]. split; [done|]. right. by right.
Qed.

Lemma blank_inv : inv blank_pool.
Proof.
  constructor; cbn; try done.
  - split; [done|constructor].
  - intros i [Hi|Hi]; done.
Qed.

(** ** Properties *)

Lemma pool_inv numWorker results ret p0 es p :
  nThreadPoolCreate numWorker results = Some (ret, p0) -> pushes_ok p0 es -> run p0 es = Some (now_in p) -> inv p.
Proof.
  intros Hc Hp Hr. destruct (create_workers_inv (Z.to_nat (Z.max 1 numWorker)) results blank_pool blank_inv) as (ret' & q & Heq & Hq & _);
    [done|constructor|]. unfold nThreadPoolCreate in Hc. rewrite Heq in Hc. injection Hc as -> ->. by eapply pool_run_inv.
Qed.

(** C10: in every run of a pool, whatever the order of pushes, workers, wake-ups
    and the call of [nThreadPoolDestory], the list of jobs is a well-formed
    doubly linked list of the jobs that wait, the last one pushed first, and
    every job pushed waits, is being run by one worker, or has been run once.
    Creating the pool gives at least one worker, or fails with -2 or -3. *)
Theorem simple_pool_correct numWorker results :
  exists ret p0, nThreadPoolCreate numWorker results = Some (ret, p0) /\
    (ret = 0%Z /\ length (threads p0) = Z.to_nat (Z.max 1 numWorker) \/ ret = (-2)%Z \/ ret = (-3)%Z) /\
    forall es p, pushes_ok p0 es -> run p0 es = Some (now_in p) ->
      is_list (job_links p) (jobs p) (stack p) /\ pushed p ≡ₚ stack p ++ running p ++ executed p.
Proof.
  destruct (create_workers_inv (Z.to_nat (Z.max 1 numWorker)) results blank_pool blank_inv) as (ret & p0 & Heq & Hinv & Hres);
    [done|constructor|]. exists ret, p0. split; [done|]. split; [cbn in Hres; naive_solver|].
  intros es p Hp Hr. pose proof (pool_run_inv p0 es p Hinv Hp Hr) as Hi. split; apply Hi.
Qed.

(** C35: [nThreadPoolDestory] reads freed memory exactly when the worker whose
    flag it has just set ends before it reads its link; nothing else in the
    program ever touches a freed cell. *)
Theorem destroy_uaf_iff numWorker results ret p0 es p e :
  nThreadPoolCreate numWorker results = Some (ret, p0) -> pushes_ok p0 es -> run p0 es = Some (now_in p) -> push_ok p e ->
  (step p e = Some use_after_free <-> e = destroy_runs /\ exists w, destroy p = D_next w /\ threads p !! w = Some T_exit).
Proof.
  intros Hc Hp Hr He. pose proof (pool_inv _ _ _ _ _ _ Hc Hp Hr) as Hinv. split.
  - intros Hs. exact (pool_step_inv p e _ Hinv He Hs).
  - intros (-> & w & Hd & Hx). cbn [step]. destruct (nThreadPoolDestory p) as [r|] eqn:Hn.
    + pose proof (destroy_step p r Hinv Hn) as H. destruct r; [|done]. exfalso. apply H. by exists w.
    + unfold nThreadPoolDestory in Hn. by rewrite Hd in Hn.
Qed.

(** How many steps a worker can still make once its flag is set. *)
Definition steps_left (t : thread) : nat :=
  match t with T_blocking | T_wait => 4 | T_run _ => 3 | T_lock => 2 | T_free => 1 | T_exit => 0 end.
Definition work_left (p : nThreadPool) : nat := sum_list (steps_left <$> threads p).
Definition is_work (e : event) : bool := match e with worker_runs _ => true | _ => false end.

Lemma work_left_change p i t t' :
  threads p !! i = Some t -> sum_list (steps_left <$> <[i := t']> (threads p)) + steps_left t = work_left p + steps_left t'.
Proof. intros Ht. by apply weight_insert. Qed.

Lemma stopping_step p e p' :
  inv p -> destroy p = D_done -> step p e = Some (now_in p') ->
  destroy p' = D_done /\ work_left p' + (if is_work e then 1 else 0) <= work_left p.
Proof.
  intros Hinv Hd. destruct (inv_done p Hinv Hd) as [Hw Hb].
  assert (forall i t, threads p !! i = Some t -> t <> T_wait /\ t <> T_blocking) as Hnb.
  { intros i t Hi. apply list_elem_of_lookup_2 in Hi. split; by intros ->. }
  destruct e as [i|job w| |i]; cbn [step is_work].
  - unfold nThreadCallback. destruct (threads p !! i) as [t|] eqn:Ht; [|done]. cbn [mbind option_bind].
    assert (i ∈ terminate p) as Hi by (apply (inv_flags p Hinv); rewrite Hd; by eapply lookup_lt_Some).
    pose proof (fun t' => work_left_change p i t t' Ht) as Hc. destruct (Hnb i t Ht).
    destruct t as [| | |job| |]; try done.
    + destruct (mutex_free p); [|done]. intros Heq. assert (p' = with_thread p i T_free) as ->.
      { destruct (jobs p); rewrite !decide_True in Heq by done; congruence. }
      split; [done|]. specialize (Hc T_free). cbn in Hc. unfold work_left in *. cbn. lia.
    + intros [= <-]. split; [done|]. specialize (Hc T_lock). cbn in Hc. unfold work_left in *. cbn. lia.
    + intros [= <-]. split; [done|]. specialize (Hc T_exit). cbn in Hc. unfold work_left in *. cbn. lia.
  - unfold nThreadPoolPushTask. destruct (mutex_free p); [|done]. destruct w as [i|].
    + case_decide as Hi; [|done]. by destruct (Hnb i T_wait Hi).
    + case_decide; [done|]. cbn [mbind option_bind]. destruct (LL_INSERT _ _ _) as [[h l]|]; [|done].
      cbn. intros [= <-]. split; [done|]. unfold work_left. cbn. lia.
  - unfold nThreadPoolDestory. by rewrite Hd.
  - case_decide as Hi; [|done]. by destruct (Hnb i T_wait Hi).
Qed.

Lemma stopping_run p es p' :
  inv p -> destroy p = D_done -> pushes_ok p es -> run p es = Some (now_in p') ->
  destroy p' = D_done /\ work_left p' + length (filter (fun e => is_work e = true) es) <= work_left p.
Proof.
  revert p. induction es as [|e es IH]; intros p Hinv Hd; cbn [pushes_ok run].
  - intros _ [= <-]. split; [done|]. cbn. lia.
  - intros [Hp Hps]. destruct (step p e) as [r|] eqn:Hs; [|done]. cbn [mbind option_bind].
    pose proof (pool_step_inv p e r Hinv Hp Hs) as Hr. destruct r as [q|]; [|done]. intros Hrun.
    destruct (stopping_step p e q Hinv Hd Hs) as [Hd' Hle]. destruct (IH q Hr Hd' Hps Hrun) as [? Hle'].
    split; [done|]. rewrite filter_cons. destruct (is_work e); case_decide; try done; cbn [length]; lia.
Qed.

Lemma work_left_bound (l : list thread) :
  T_wait ∉ l -> T_blocking ∉ l -> sum_list (steps_left <$> l) <= 3 * length l.
Proof.
  induction l as [|t l IH]; [done|]. intros [Hw Hl]%not_elem_of_cons [Hb Hl']%not_elem_of_cons.
  specialize (IH Hl Hl'). cbn. destruct t; cbn; try done; unfold sum_list in *; cbn in *; lia.
Qed.

(** the pool stops. Once [nThreadPoolDestory] has returned, no worker sleeps
    or can fall asleep again, a worker that has not ended can go on, and
    together they make at most three steps each, whatever is pushed meanwhile;
    when they have ended, the jobs that waited are still there, not run. *)
Theorem simple_pool_stops numWorker results ret p0 es p :
  nThreadPoolCreate numWorker results = Some (ret, p0) -> pushes_ok p0 es -> run p0 es = Some (now_in p) ->
  destroy p = D_done ->
  (forall es' p', pushes_ok p es' -> run p es' = Some (now_in p') ->
     length (filter (fun e => is_work e = true) es') <= 3 * length (threads p)) /\
  (forall i t, threads p !! i = Some t -> t <> T_exit -> exists p', step p (worker_runs i) = Some (now_in p')) /\
  (Forall (.= T_exit) (threads p) -> pushed p ≡ₚ stack p ++ executed p).
Proof.
  intros Hc Hp Hr Hd. pose proof (pool_inv _ _ _ _ _ _ Hc Hp Hr) as Hinv. destruct (inv_done p Hinv Hd) as [Hw Hb].
  split_and!.
  - intros es' p' Hp' Hr'. destruct (stopping_run p es' p' Hinv Hd Hp' Hr') as [_ Hle].
    pose proof (work_left_bound (threads p) Hw Hb). unfold work_left in *. lia.
  - intros i t Ht Hx. cbn [step]. assert (exists r, nThreadCallback p i = Some r) as [r Hn].
    { unfold nThreadCallback. rewrite Ht. cbn [mbind option_bind]. unfold mutex_free. rewrite bool_decide_true by done.
      pose proof (list_elem_of_lookup_2 _ _ _ Ht). destruct t; try done; by eexists. }
    destruct (callback_inv p i r Hinv Hn) as (p' & -> & _). by exists p'.
  - intros Hall. rewrite (inv_jobs p Hinv). assert (running p = []) as ->; [|done].
    unfold running. clear - Hall. induction Hall as [|t l -> Hall IH]; [done|]. done.
Qed.

(** *** Witnesses: two workers *)

Definition all_created : nat -> creation := fun _ => created.
Definition two_workers : nThreadPool := match nThreadPoolCreate 2 all_created with Some (_, p) => p | None => blank_pool end.

(** Worker 1 runs a job, is told to stop, finishes, and frees its cell while
    [nThreadPoolDestory] is about to read it. *)
Definition early_exit : list event :=
  [push 7 None; worker_runs 1; destroy_runs; destroy_runs; worker_runs 1; worker_runs 1; worker_runs 1].

Lemma destroy_uaf_iff_witness :
  exists p, run two_workers early_exit = Some (now_in p) /\ step p destroy_runs = Some use_after_free.
Proof.
  destruct (run two_workers early_exit) as [[p|]|] eqn:Hr; [|vm_compute in Hr; discriminate Hr..].
  exists p. split; [reflexivity|].
  apply (destroy_uaf_iff 2 all_created 0 two_workers early_exit p destroy_runs).
  - vm_compute. reflexivity.
  - apply (bool_decide_unpack _). vm_compute. exact I.
  - exact Hr.
  - exact I.
  - vm_compute in Hr. injection Hr as <-. split; [reflexivity|]. exists 1. split; reflexivity.
Defined.

(** Two jobs, the last one first; then an orderly end with one job left. *)
Definition orderly : list event :=
  [worker_runs 0; worker_runs 0; push 7 (Some 0); push 8 None; push 9 None; worker_runs 1; worker_runs 0; worker_runs 1;
   worker_runs 0; destroy_runs; destroy_runs; destroy_runs; destroy_runs; destroy_runs; destroy_runs; destroy_runs].

Lemma simple_pool_correct_witness :
  exists p, run two_workers orderly = Some (now_in p) /\ stack p = [7] /\ executed p = [9; 8] /\
    is_list (job_links p) (jobs p) (stack p).
Proof.
  destruct (run two_workers orderly) as [[p|]|] eqn:Hr; [|vm_compute in Hr; discriminate Hr..].
  exists p. split; [reflexivity|]. assert (stack p = [7] /\ executed p = [9; 8]) as [H1 H2].
  { vm_compute in Hr. injection Hr as <-. split; reflexivity. }
  split; [exact H1|]. split; [exact H2|].
  destruct (simple_pool_correct 2 all_created) as (ret & p0 & Heq & _ & Hall).
  assert (p0 = two_workers) as -> by (vm_compute in Heq; injection Heq as _ <-; vm_compute; reflexivity).
  apply (Hall orderly p); [|exact Hr]. apply (bool_decide_unpack _). vm_compute. exact I.
Defined.

Lemma simple_pool_stops_witness :
  exists p, run two_workers orderly = Some (now_in p) /\
    forall es' p', pushes_ok p es' -> run p es' = Some (now_in p') ->
      length (filter (fun e => is_work e = true) es') <= 6.
Proof.
  destruct (run two_workers orderly) as [[p|]|] eqn:Hr; [|vm_compute in Hr; discriminate Hr..].
  exists p. split; [reflexivity|].
  assert (destroy p = D_done /\ length (threads p) = 2) as [Hd Hl] by (vm_compute in Hr; injection Hr as <-; split; reflexivity).
  replace 6 with (3 * length (threads p)) by (rewrite Hl; reflexivity).
  apply (simple_pool_stops 2 all_created 0 two_workers orderly p); [vm_compute; reflexivity| |exact Hr|exact Hd].
  apply (bool_decide_unpack _). vm_compute. exact I.
Defined.

(** The same job pushed while it waits is linked to itself: the [main] of the
    file pushes one local variable in every round, a second apart. *)
Example insert_twice :
  LL_INSERT 7 (Some 7) {[7 := Link None None]} = Some ({[7 := Link (Some 7) (Some 7)]}, Some 7).
Proof. vm_compute. reflexivity. Qed.
