(* ===== verification/CPool.v ===== *)
(** * CPool: the thread pool in C of [02_thread_pool]

    Models [zl_threadpool/02_thread_pool/threadpool.c]: a ring of tasks, workers,
    callers of [threadpool_add] that wait while the ring is full, the thread that
    adjusts the number of workers, and the destruction of the pool, as a step
    relation over every interleaving.

    What a thread does between locking and unlocking [lock] is one step, except
    that a thread about to wait on a condition still holds it. Accesses without
    the mutex ([shutdown], [live_thr_num]) are steps of their own and see the
    current value; [pthread_create] succeeds. The memory of [malloc] has any
    contents. What POSIX leaves undefined is [undefined]; destroying a locked
    mutex, which it does too, returns [EBUSY] on Linux and is taken so. [free] of an
    argument is undefined unless it is a block of [malloc] that was not freed, and
    so is running a task, which uses its argument, after its argument was freed. *)
From S2P Require Import Prelude.

(** ** The pool and its threads *)

(** [threadpool_task_t]: functions and arguments are numbers, [None] is [NULL]. *)
Record threadpool_task_t := Task { function : nat; arg : option nat }.
#[export] Instance task_eq_dec : EqDecision threadpool_task_t.
Proof. solve_decision. Defined.

Definition DEFAULT_THREAD_VARY : nat := 10.
Definition MIN_WAIT_TASK_NUM : nat := 10.

(** The fields of the pool that change; the other three are set once. *)
Record threadpool_t := Pool {
  threads : list (option nat);            (* [None] is 0 *)
  task_queue : list threadpool_task_t;
  live_thr_num : Z;
  busy_thr_num : Z;
  wait_exit_thr_num : Z;
  queue_front : nat;
  queue_rear : nat;
  queue_size : nat;
  shutdown : bool }.

(** A worker is about to lock, holds the mutex and is about to wait, waits, has
    been woken and is about to lock again, has a task and is not counted as
    busy yet, runs it, has ended. *)
Inductive worker := W_lock | W_blocking | W_wait | W_woken | W_task (t : threadpool_task_t) | W_run (t : threadpool_task_t) | W_exit.
#[export] Instance worker_eq_dec : EqDecision worker.
Proof. solve_decision. Defined.

(** A call of [threadpool_add]: about to lock (or to lock again), holds the
    mutex and is about to wait, waits, has returned. *)
Inductive adder := P_lock (t : threadpool_task_t) | P_blocking (t : threadpool_task_t) | P_wait (t : threadpool_task_t) | P_done.
#[export] Instance adder_eq_dec : EqDecision adder.
Proof. solve_decision. Defined.

(** [adjust_thread]: at the head of its loop, asleep, and with what it has read:
    the size of the queue and the live threads, then the busy ones; after the
    creation of threads; with signals to send; ended. *)
Inductive adjuster :=
  | M_head | M_sleep | M_counted (queue_size : nat) (live : Z) | M_busy (queue_size : nat) (live busy : Z)
  | M_grown (live busy : Z) | M_signal (n : nat) | M_exit.
#[export] Instance adjuster_eq_dec : EqDecision adjuster.
Proof. solve_decision. Defined.

(** [threadpool_destroy]: not called, joins the adjuster, has broadcast [i]
    times, has joined [i] threads, is about to free the pool, returned. *)
Inductive destroyer := D_alive | D_join_adjuster | D_broadcast (i : nat) | D_join (i : nat) | D_free | D_done.
#[export] Instance destroyer_eq_dec : EqDecision destroyer.
Proof. solve_decision. Defined.

(** A thread is its number: the place of its state in [workers]. *)
Record world := World {
  pool : threadpool_t;
  workers : list worker;
  adders : list adder;
  adjust : adjuster;
  destroy : destroyer;
  frees : list nat;                        (* arguments the pool has freed *)
  added : list threadpool_task_t;          (* ghost: tasks put into the ring, taken *)
  taken : list threadpool_task_t;          (* from it, and returned *)
  executed : list threadpool_task_t }.

Inductive effect := now_in (w : world) | undefined.

Definition with_workers (w : world) (ws : list worker) : world :=
  World (pool w) ws (adders w) (adjust w) (destroy w) (frees w) (added w) (taken w) (executed w).
Definition with_worker (w : world) (i : nat) (s : worker) : world := with_workers w (<[i := s]> (workers w)).
Definition with_pool (w : world) (p : threadpool_t) : world :=
  World p (workers w) (adders w) (adjust w) (destroy w) (frees w) (added w) (taken w) (executed w).
Definition with_adder (w : world) (j : nat) (a : adder) : world :=
  World (pool w) (workers w) (<[j := a]> (adders w)) (adjust w) (destroy w) (frees w) (added w) (taken w) (executed w).
Definition with_adjust (w : world) (m : adjuster) : world :=
  World (pool w) (workers w) (adders w) m (destroy w) (frees w) (added w) (taken w) (executed w).
Definition with_destroy (w : world) (d : destroyer) : world :=
  World (pool w) (workers w) (adders w) (adjust w) d (frees w) (added w) (taken w) (executed w).

Definition set_live (p : threadpool_t) (n : Z) : threadpool_t :=
  Pool (threads p) (task_queue p) n (busy_thr_num p) (wait_exit_thr_num p) (queue_front p) (queue_rear p) (queue_size p) (shutdown p).
Definition set_busy (p : threadpool_t) (n : Z) : threadpool_t :=
  Pool (threads p) (task_queue p) (live_thr_num p) n (wait_exit_thr_num p) (queue_front p) (queue_rear p) (queue_size p) (shutdown p).
Definition set_wait_exit (p : threadpool_t) (n : Z) : threadpool_t :=
  Pool (threads p) (task_queue p) (live_thr_num p) (busy_thr_num p) n (queue_front p) (queue_rear p) (queue_size p) (shutdown p).
Definition set_shutdown (p : threadpool_t) : threadpool_t :=
  Pool (threads p) (task_queue p) (live_thr_num p) (busy_thr_num p) (wait_exit_thr_num p) (queue_front p) (queue_rear p) (queue_size p) true.

Definition holds_lock_a (a : adder) : bool := match a with P_blocking _ => true | _ => false end.
Definition lock_free (w : world) : bool :=
  bool_decide (W_blocking ∉ workers w) && negb (existsb holds_lock_a (adders w)).

(** [pthread_cond_signal] wakes the waiting worker [c], or nobody where nobody
    waits. *)
Definition signal (ws : list worker) (c : option nat) : option (list worker) :=
  match c with
  | Some i => if decide (ws !! i = Some W_wait) then Some (<[i := W_woken]> ws) else None
  | None => if decide (W_wait ∈ ws) then None else Some ws
  end.
Definition woken (s : worker) : worker := match s with W_wait => W_woken | _ => s end.
Definition readied (a : adder) : adder := match a with P_wait t => P_lock t | _ => a end.

Section threadpool.
Variables (min_thr_num max_thr_num : Z) (queue_max_size : nat).

(** Whether [pthread_kill] reports a thread that has ended and was not joined
    as [ESRCH]; the system may do either. *)
Variable esrch : bool.

(** Which arguments are blocks of [malloc]. *)
Variable from_malloc : nat -> bool.

Definition can_free (w : world) (a : nat) : bool := from_malloc a && bool_decide (a ∉ frees w).

(** Whether [free] of an argument that is not [NULL] is defined, and whether a task
    can use its argument. *)
Definition frees_well (w : world) (t : threadpool_task_t) : bool := match arg t with Some a => can_free w a | None => true end.
Definition arg_usable (w : world) (t : threadpool_task_t) : bool := match arg t with Some a => bool_decide (a ∉ frees w) | None => true end.

Definition freed (w : world) : bool := bool_decide (destroy w = D_done).

(** ** Adding a task *)

(** The part of [threadpool_add] after the wait; a pool that is shut down
    is unlocked twice. *)
Definition add_task (w : world) (j : nat) (t : threadpool_task_t) (c : option nat) : option effect :=
  let p := pool w in
  if shutdown p then Some undefined
  else match task_queue p !! queue_rear p with
       | None => Some undefined
       | Some old =>
           if negb (frees_well w old) then Some undefined else
           ws ← signal (workers w) c;
           Some (now_in (World
             (Pool (threads p) (<[queue_rear p := t]> (task_queue p)) (live_thr_num p) (busy_thr_num p) (wait_exit_thr_num p)
                (queue_front p) ((queue_rear p + 1) mod queue_max_size) (S (queue_size p)) (shutdown p))
             ws (<[j := P_done]> (adders w)) (adjust w) (destroy w)
             (frees w ++ option_list (arg old)) (added w ++ [t]) (taken w) (executed w)))
       end.

Definition threadpool_add (w : world) (j : nat) (c : option nat) : option effect :=
  a ← adders w !! j;
  match a with
  | P_lock t =>
      if freed w then Some undefined
      else if lock_free w then
        if bool_decide (queue_size (pool w) = queue_max_size) && negb (shutdown (pool w))
        then Some (now_in (with_adder w j (P_blocking t)))
        else add_task w j t c
      else None
  | P_blocking t => Some (now_in (with_adder w j (P_wait t)))
  | P_wait _ | P_done => None
  end.

(** ** Workers *)

(** The test of the waiting loop and what follows it, with the mutex held. *)
Definition take_task (w : world) (i : nat) : effect :=
  let p := pool w in
  if bool_decide (queue_size p = 0) && negb (shutdown p) then now_in (with_worker w i W_blocking)
  else if shutdown p then now_in (with_worker w i W_exit)
  else match task_queue p !! queue_front p with
       | None => undefined
       | Some t => now_in (World
           (Pool (threads p) (task_queue p) (live_thr_num p) (busy_thr_num p) (wait_exit_thr_num p)
              ((queue_front p + 1) mod queue_max_size) (queue_rear p) (queue_size p - 1) (shutdown p))
           (<[i := W_task t]> (workers w)) (readied <$> adders w) (adjust w) (destroy w)
           (frees w) (added w) (taken w ++ [t]) (executed w))
       end.

(** What a woken worker does first: it may be one of those to end. *)
Definition after_wait (w : world) (i : nat) : effect :=
  let p := pool w in
  if (0 <? wait_exit_thr_num p)%Z then
    let p := set_wait_exit p (wait_exit_thr_num p - 1) in
    if (min_thr_num <? live_thr_num p)%Z
    then now_in (with_worker (with_pool w (set_live p (live_thr_num p - 1))) i W_exit)
    else take_task (with_pool w p) i
  else take_task w i.

Definition threadpool_thread (w : world) (i : nat) : option effect :=
  s ← workers w !! i;
  match s with
  | W_wait | W_exit => None
  | _ =>
      if freed w then Some undefined
      else match s with
           | W_lock => if lock_free w then Some (take_task w i) else None
           | W_blocking => Some (now_in (with_worker w i W_wait))
           | W_woken => if lock_free w then Some (after_wait w i) else None
           | W_task t =>
               if negb (arg_usable w t) then Some undefined else Some (now_in (with_worker (with_pool w (set_busy (pool w) (busy_thr_num (pool w) + 1))) i (W_run t)))
           | W_run t =>
               if negb (arg_usable w t) then Some undefined else Some (now_in (World (set_busy (pool w) (busy_thr_num (pool w) - 1)) (<[i := W_lock]> (workers w))
                          (adders w) (adjust w) (destroy w) (frees w) (added w) (taken w) (executed w ++ [t])))
           | W_wait | W_exit => None
           end
  end.

(** ** The adjuster *)

Definition is_thread_alive (ws : list worker) (tid : nat) : bool :=
  negb (bool_decide (ws !! tid = Some W_exit) && esrch).

Definition is_free (ws : list worker) (s : option nat) : bool :=
  match s with None => true | Some tid => negb (is_thread_alive ws tid) end.

(** The loop that creates threads: slots from [i] on, what was added, the live
    threads, all threads. *)
Fixpoint grow (slots : list (option nat)) (add : nat) (live : Z) (ws : list worker) : list (option nat) * Z * list worker :=
  match slots with
  | [] => ([], live, ws)
  | s :: slots' =>
      if (add <? DEFAULT_THREAD_VARY)%nat && (live <? max_thr_num)%Z then
        if is_free ws s then
          let '(r, live', ws') := grow slots' (S add) (live + 1) (ws ++ [W_lock]) in (Some (length ws) :: r, live', ws')
        else
          let '(r, live', ws') := grow slots' add live ws in (s :: r, live', ws')
      else (slots, live, ws)
  end.

Definition grow_pool (w : world) : world :=
  let p := pool w in
  let '(slots, live, ws) := grow (threads p) 0 (live_thr_num p) (workers w) in
  World (Pool slots (task_queue p) live (busy_thr_num p) (wait_exit_thr_num p) (queue_front p) (queue_rear p) (queue_size p) (shutdown p))
    ws (adders w) (adjust w) (destroy w) (frees w) (added w) (taken w) (executed w).

Definition adjust_thread (w : world) (c : option nat) : option effect :=
  if freed w then match adjust w with M_exit => None | _ => Some undefined end
  else match adjust w with
  | M_head => Some (now_in (with_adjust w (if shutdown (pool w) then M_exit else M_sleep)))
  | M_sleep => if lock_free w then Some (now_in (with_adjust w (M_counted (queue_size (pool w)) (live_thr_num (pool w))))) else None
  | M_counted q l => Some (now_in (with_adjust w (M_busy q l (busy_thr_num (pool w)))))
  | M_busy q l b =>
      if (MIN_WAIT_TASK_NUM <=? q)%nat && (l <? max_thr_num)%Z then
        if lock_free w then Some (now_in (with_adjust (grow_pool w) (M_grown l b))) else None
      else Some (now_in (with_adjust w (M_grown l b)))
  | M_grown l b =>
      if (b * 2 <? l)%Z && (min_thr_num <? l)%Z then
        if lock_free w then
          Some (now_in (with_adjust (with_pool w (set_wait_exit (pool w) (Z.of_nat DEFAULT_THREAD_VARY))) (M_signal DEFAULT_THREAD_VARY)))
        else None
      else Some (now_in (with_adjust w M_head))
  | M_signal (S n) => ws ← signal (workers w) c; Some (now_in (with_adjust (with_workers w ws) (M_signal n)))
  | M_signal O => Some (now_in (with_adjust w M_head))
  | M_exit => None
  end.

(** ** Destroying *)

(** What an allocation left: whether the two blocks were allocated ([None] for
    a field not yet assigned) and the mutexes and conditions set up. *)
Record allocation := Alloc { queue_block : option bool; threads_block : option bool; initialised : bool }.
Inductive freeing := free_returns (ret : Z) | free_undefined.

Definition threadpool_free (a : option allocation) : freeing :=
  match a with
  | None => free_returns (-1)
  | Some a =>
      match queue_block a, threads_block a with
      | Some _, Some true => if initialised a then free_returns 0 else free_undefined
      | Some _, Some false => free_returns 0
      | _, _ => free_undefined
      end
  end.

Definition threadpool_destroy (w : world) : option effect :=
  let p := pool w in
  match destroy w with
  | D_alive => Some (now_in (with_destroy (with_pool w (set_shutdown p)) D_join_adjuster))
  | D_join_adjuster => match adjust w with M_exit => Some (now_in (with_destroy w (D_broadcast 0))) | _ => None end
  | D_broadcast i =>
      if (Z.of_nat i <? live_thr_num p)%Z then Some (now_in (with_destroy (with_workers w (woken <$> workers w)) (D_broadcast (S i))))
      else Some (now_in (with_destroy w (D_join 0)))
  | D_join i =>
      if (Z.of_nat i <? live_thr_num p)%Z then
        match threads p !! i with
        | Some (Some tid) => if decide (workers w !! tid = Some W_exit) then Some (now_in (with_destroy w (D_join (S i)))) else None
        | _ => Some undefined
        end
      else Some (now_in (with_destroy w D_free))
  | D_free =>
      if lock_free w then
        match threadpool_free (Some (Alloc (Some true) (Some true) true)) with
        | free_returns _ => Some (now_in (with_destroy w D_done))
        | free_undefined => Some undefined
        end
      else None
  | D_done => None
  end.

(** ** Runs *)

Inductive event :=
  | worker_runs (i : nat) | add_called (t : threadpool_task_t) | adder_runs (j : nat) (c : option nat)
  | adjuster_runs (c : option nat) | destroy_runs | spurious_worker (i : nat) | spurious_adder (j : nat).
#[local] Instance event_eq_dec : EqDecision event.
Proof. solve_decision. Defined.

Definition step (w : world) (e : event) : option effect :=
  match e with
  | worker_runs i => threadpool_thread w i
  | add_called t => Some (now_in (World (pool w) (workers w) (adders w ++ [P_lock t]) (adjust w) (destroy w)
                                    (frees w) (added w) (taken w) (executed w)))
  | adder_runs j c => threadpool_add w j c
  | adjuster_runs c => adjust_thread w c
  | destroy_runs => threadpool_destroy w
  | spurious_worker i => if decide (workers w !! i = Some W_wait) then Some (now_in (with_worker w i W_woken)) else None
  | spurious_adder j =>
      match adders w !! j with Some (P_wait t) => Some (now_in (with_adder w j (P_lock t))) | _ => None end
  end.

Definition is_call (e : event) : bool := match e with add_called _ => true | _ => false end.

Fixpoint run (w : world) (es : list event) : option effect :=
  match es with
  | [] => Some (now_in w)
  | e :: es' => r ← step w e; match r with now_in w' => run w' es' | undefined => Some undefined end
  end.

(** [threadpool_all_threadnum] and [threadpool_busy_threadnum]; [None] while
    the mutex is taken. *)
Definition threadpool_all_threadnum (w : world) : option Z := if lock_free w then Some (live_thr_num (pool w)) else None.
Definition threadpool_busy_threadnum (w : world) : Z := busy_thr_num (pool w).

(** ** Creating *)

Inductive creation := created (w : world) | returns_null | create_undefined.

(** How the three allocations and the initialisation of the mutexes end;
    [garbage] and [exits] are what the memory of the ring and of
    [wait_exit_thr_num] holds. *)
Definition threadpool_create (malloc : nat -> bool) (init_ok : bool) (garbage : list threadpool_task_t) (exits : Z) : creation :=
  let bail a := match threadpool_free a with free_returns _ => returns_null | free_undefined => create_undefined end in
  if negb (malloc 0) then bail None
  else if negb (malloc 1) then bail (Some (Alloc None (Some false) false))
  else if negb (malloc 2) then bail (Some (Alloc (Some false) (Some true) false))
  else if negb init_ok then bail (Some (Alloc (Some true) (Some true) false))
  else if (max_thr_num <? min_thr_num)%Z then create_undefined
  else
    let n := Z.to_nat min_thr_num in
    created (World
      (Pool ((Some <$> seq 0 n) ++ replicate (Z.to_nat max_thr_num - n) None) garbage min_thr_num 0 exits 0 0 0 false)
      (replicate n W_lock) [] M_head D_alive [] [] [] []).

(** ** Specification *)

(** The tasks that wait, as they lie in the ring. *)
Definition queued (w : world) : list threadpool_task_t :=
  let p := pool w in
  omap (fun k => task_queue p !! ((queue_front p + k) mod queue_max_size)) (seq 0 (queue_size p)).

Definition current (s : worker) : option threadpool_task_t := match s with W_task t | W_run t => Some t | _ => None end.
Definition is_busy (s : worker) : nat := match s with W_run _ => 1 | _ => 0 end.
Definition is_alive (s : worker) : nat := match s with W_exit => 0 | _ => 1 end.
Definition count (f : worker -> nat) (ws : list worker) : nat := sum_list (f <$> ws).

(** ** The invariant *)

Variable garbage : list threadpool_task_t.

Definition waits (a : adder) : bool := match a with P_blocking _ | P_wait _ => true | _ => false end.

(** The slots hold threads, [0] where there is none. *)
Definition ids (slots : list (option nat)) : list nat := omap id slots.

(** The ring holds the tail of what was ever in it, the garbage first. *)
Record ring_ok (p : threadpool_t) (fr : list nat) (ad tk : list threadpool_task_t) : Prop := {
  ring_len : length (task_queue p) = queue_max_size;
  ring_cells : forall k, k < queue_max_size ->
    task_queue p !! ((length ad + k) mod queue_max_size) = (garbage ++ ad) !! (length ad + k);
  ring_rear : queue_rear p = length ad mod queue_max_size;
  ring_front : queue_front p = length tk mod queue_max_size;
  ring_fifo : tk ++ drop (length tk) ad = ad;
  ring_size : length ad = length tk + queue_size p;
  ring_bound : queue_size p <= queue_max_size;
  ring_frees : fr = omap arg (take (length ad) (garbage ++ ad)) }.

Record work_ok (ws : list worker) (busy : Z) (tk ex : list threadpool_task_t) : Prop := {
  work_current : tk ≡ₚ ex ++ omap current ws;
  work_busy : busy = Z.of_nat (count is_busy ws) }.

Record live_ok (slots : list (option nat)) (live : Z) (down : bool) (ws : list worker) : Prop := {
  live_len : length slots = Z.to_nat max_thr_num;
  live_nodup : NoDup (ids slots);
  live_bound : Forall (fun t => t < length ws) (ids slots);
  live_slot : forall t s, ws !! t = Some s -> s <> W_exit -> t ∈ ids slots;
  live_range : (min_thr_num <= live <= max_thr_num)%Z;
  live_count : (Z.of_nat (count is_alive ws) <= live)%Z;
  live_exact : down = false -> Z.of_nat (count is_alive ws) = live }.

Record inv (w : world) : Prop := {
  inv_ring : ring_ok (pool w) (frees w) (added w) (taken w);
  inv_work : work_ok (workers w) (busy_thr_num (pool w)) (taken w) (executed w);
  inv_live : live_ok (threads (pool w)) (live_thr_num (pool w)) (shutdown (pool w)) (workers w);
  inv_full : forall a, a ∈ adders w -> waits a = true -> queue_size (pool w) = queue_max_size;
  inv_idle : W_blocking ∈ workers w -> queue_size (pool w) = 0;
  inv_down : shutdown (pool w) = bool_decide (destroy w <> D_alive);
  inv_joined : destroy w <> D_alive -> destroy w <> D_join_adjuster -> adjust w = M_exit }.

(** *** The ring *)

Lemma mod_next a n : ((a mod n + 1) mod n = S a mod n)%nat.
Proof. destruct n; [by cbn; rewrite Nat.add_1_r|]. by rewrite Nat.Div0.add_mod_idemp_l, Nat.add_1_r. Qed.

Lemma ring_queued w : ring_ok (pool w) (frees w) (added w) (taken w) -> length garbage = queue_max_size ->
  queued w = drop (length (taken w)) (added w).
Proof.
  intros [Hl Hc Hr Hf Hfifo Hs Hb _] Hg. unfold queued.
  assert (forall k, k < queue_size (pool w) ->
    task_queue (pool w) !! ((queue_front (pool w) + k) mod queue_max_size) = added w !! (length (taken w) + k)) as H.
  { intros k Hk. assert (0 < queue_max_size) as Hq by lia.
    rewrite Hf, Nat.Div0.add_mod_idemp_l.
    specialize (Hc (queue_max_size - queue_size (pool w) + k) ltac:(lia)).
    replace (length (added w) + (queue_max_size - queue_size (pool w) + k)) with (length (taken w) + k + 1 * queue_max_size) in Hc by lia.
    rewrite Nat.Div0.mod_add, lookup_app_r in Hc by lia. rewrite Hc. f_equal. lia. }
  assert (queue_size (pool w) = length (drop (length (taken w)) (added w))) as Hlen by (rewrite length_drop; lia).
  clear - H Hlen. revert H Hlen. generalize (queue_size (pool w)) as n. intros n.
  assert (forall m l, m = length l -> (forall k, k < m -> task_queue (pool w) !! ((queue_front (pool w) + (n - m + k)) mod queue_max_size) = l !! k) ->
    m <= n -> omap (fun k => task_queue (pool w) !! ((queue_front (pool w) + k) mod queue_max_size)) (seq (n - m) m) = l) as Hgen.
  { induction m as [|m IH]; intros l Hm Hk Hn; [by destruct l|]. destruct l as [|x l]; [done|]. cbn [seq omap list_omap].
    pose proof (Hk 0 ltac:(lia)) as H0. rewrite Nat.add_0_r in H0. rewrite H0. cbn. f_equal.
    replace (S (n - S m)) with (n - m) by lia. apply IH; [by injection Hm|intros k Hk'|lia].
    specialize (Hk (S k) ltac:(lia)). replace (n - m + k) with (n - S m + S k) by lia. exact Hk. }
  intros H Hlen. rewrite <- (Hgen n _ Hlen); [by rewrite Nat.sub_diag|intros k Hk|lia].
  rewrite Nat.sub_diag, lookup_drop. by apply H.
Qed.

Lemma ring_add p fr ad tk t old c1 c2 c3 c4 c5 :
  ring_ok p fr ad tk -> queue_size p <> queue_max_size -> length garbage = queue_max_size ->
  task_queue p !! queue_rear p = Some old ->
  ring_ok (Pool c1 (<[queue_rear p := t]> (task_queue p)) c2 c3 c4 (queue_front p) ((queue_rear p + 1) mod queue_max_size)
             (S (queue_size p)) c5) (fr ++ option_list (arg old)) (ad ++ [t]) tk.
Proof.
  intros [Hl Hc Hr Hf Hfifo Hs Hb Hfr] Hn Hg Hold. assert (0 < queue_max_size) as Hq by lia.
  constructor; cbn [task_queue queue_rear queue_front queue_size].
  - by rewrite length_insert.
  - intros k Hk. rewrite length_app. cbn [length]. rewrite app_assoc.
    destruct (decide (S k = queue_max_size)) as [Hlast|Hlast].
    + replace (length ad + 1 + k) with (length ad + 1 * queue_max_size) by lia. rewrite Nat.Div0.mod_add, <- Hr.
      rewrite list_lookup_insert_eq by (apply lookup_lt_Some in Hold; done).
      rewrite lookup_app_r by (rewrite length_app; lia). rewrite length_app. by replace (_ - _) with 0 by lia.
    + rewrite list_lookup_insert_ne.
      * replace (length ad + 1 + k) with (length ad + S k) by lia. rewrite Hc by lia.
        rewrite (lookup_app_l (garbage ++ ad)); [done|]. rewrite length_app. lia.
      * rewrite Hr. intros Heq. replace (length ad + 1 + k) with (length ad + S k) in Heq by lia.
        rewrite <- (Nat.Div0.add_mod_idemp_l (length ad)) in Heq. pose proof (Nat.mod_upper_bound (length ad) queue_max_size ltac:(lia)).
        destruct (decide (length ad mod queue_max_size + S k < queue_max_size)).
        -- rewrite (Nat.mod_small (_ + _)) in Heq by lia. lia.
        -- replace (length ad mod queue_max_size + S k) with (length ad mod queue_max_size + S k - queue_max_size + 1 * queue_max_size) in Heq by lia.
           rewrite Nat.Div0.mod_add, (Nat.mod_small (_ - _)) in Heq by lia. lia.
  - rewrite Hr, mod_next, length_app. cbn [length]. by rewrite Nat.add_1_r.
  - done.
  - rewrite drop_app_le by lia. by rewrite app_assoc, Hfifo.
  - rewrite length_app. cbn [length]. lia.
  - lia.
  - rewrite length_app. cbn [length]. rewrite app_assoc, Nat.add_1_r, (take_S_r _ _ old).
    + rewrite omap_app, Hfr, (take_app_le (garbage ++ ad)) by (rewrite length_app; lia). cbn [omap list_omap]. by destruct (arg old).
    + specialize (Hc 0 ltac:(lia)). rewrite !Nat.add_0_r, <- Hr in Hc. rewrite lookup_app_l; [congruence|].
      rewrite length_app. lia.
Qed.

Lemma ring_take p fr ad tk t c1 c2 c3 c4 c5 :
  ring_ok p fr ad tk -> queue_size p <> 0 -> length garbage = queue_max_size ->
  task_queue p !! queue_front p = Some t ->
  ring_ok (Pool c1 (task_queue p) c2 c3 c4 ((queue_front p + 1) mod queue_max_size) (queue_rear p) (queue_size p - 1) c5)
    fr ad (tk ++ [t]).
Proof.
  intros [Hl Hc Hr Hf Hfifo Hs Hb Hfr] Hn Hg Ht. assert (ad !! length tk = Some t) as Hnext.
  { specialize (Hc (queue_max_size - queue_size p) ltac:(lia)).
    replace (length ad + (queue_max_size - queue_size p)) with (length tk + 1 * queue_max_size) in Hc by lia.
    rewrite Nat.Div0.mod_add, <- Hf, Ht, lookup_app_r in Hc by lia. rewrite Hc. f_equal. lia. }
  constructor; cbn [task_queue queue_rear queue_front queue_size]; try done.
  - rewrite Hf, mod_next, length_app. cbn [length]. by rewrite Nat.add_1_r.
  - rewrite length_app. cbn [length]. rewrite <- Hfifo at 2. rewrite <- app_assoc. f_equal.
    rewrite Nat.add_1_r. symmetry. by apply drop_S.
  - rewrite length_app. cbn [length]. lia.
  - lia.
Qed.

(** *** Workers *)

(** States that differ only in what a thread waits for. *)
Definition similar (s s' : worker) : Prop := current s = current s' /\ is_busy s = is_busy s' /\ (s = W_exit <-> s' = W_exit).

#[local] Instance similar_refl : Reflexive similar.
Proof. by intros s. Qed.

Lemma similar_insert ws i s s' : ws !! i = Some s -> similar s s' -> Forall2 similar ws (<[i := s']> ws).
Proof.
  intros Hi Hs. apply Forall2_lookup. intros j. destruct (decide (j = i)) as [->|Hne].
  - rewrite list_lookup_insert_eq, Hi by (by eapply lookup_lt_Some). by constructor.
  - rewrite list_lookup_insert_ne by done. by destruct (ws !! j); constructor.
Qed.

Lemma similar_signal ws c ws' : signal ws c = Some ws' -> Forall2 similar ws ws'.
Proof.
  destruct c as [i|]; cbn; case_decide as Hi; try done; intros [= <-]; [by eapply similar_insert|].
  by apply Forall_Forall2_diag, Forall_true.
Qed.

Lemma similar_woken ws : Forall2 similar ws (woken <$> ws).
Proof. apply Forall2_fmap_r, Forall_Forall2_diag, Forall_true. by intros []. Qed.

Lemma similar_sums ws ws' : Forall2 similar ws ws' ->
  omap current ws' = omap current ws /\ count is_busy ws' = count is_busy ws /\ count is_alive ws' = count is_alive ws.
Proof.
  induction 1 as [|s s' ws ws' (Hc & Hb & Hx) _ (IH1 & IH2 & IH3)]; [done|]. unfold count in *. cbn. rewrite <- Hc, <- Hb, IH1, IH2, IH3.
  split_and!; [done..|]. f_equal. destruct s, s'; try done; naive_solver.
Qed.

Lemma work_similar ws ws' b tk ex : work_ok ws b tk ex -> Forall2 similar ws ws' -> work_ok ws' b tk ex.
Proof. intros [Hc Hb] (H1 & H2 & _)%similar_sums. constructor; congruence. Qed.

Lemma live_similar sl n d ws ws' : live_ok sl n d ws -> Forall2 similar ws ws' -> live_ok sl n d ws'.
Proof.
  intros [Hl Hnd Hb Hs Hr Hc He] Hsim. destruct (similar_sums _ _ Hsim) as (_ & _ & Ha). pose proof (Forall2_length _ _ _ Hsim) as Hlen.
  constructor; try done.
  - by rewrite <- Hlen.
  - intros t s' Hs' Hx. destruct (Forall2_lookup_r _ _ _ _ _ Hsim Hs') as (s & Ht & _ & _ & Hiff). apply (Hs t s Ht). naive_solver.
  - by rewrite Ha.
  - by rewrite Ha.
Qed.

Lemma count_insert f ws i s s' : ws !! i = Some s -> count f (<[i := s']> ws) + f s = count f ws + f s'.
Proof. apply weight_insert. Qed.

Lemma work_take ws b tk ex i s t :
  work_ok ws b tk ex -> ws !! i = Some s -> current s = None -> is_busy s = 0 ->
  work_ok (<[i := W_task t]> ws) b (tk ++ [t]) ex.
Proof.
  intros [Hc Hb] Hi Hs Hn. destruct (omap_at current _ _ _ Hi) as (rest & H1 & H2).
  pose proof (count_insert is_busy _ _ _ (W_task t) Hi) as Hk. constructor.
  - rewrite Hc, H1, H2, Hs. cbn. solve_Permutation.
  - rewrite Hb. f_equal. cbn in Hk. lia.
Qed.

Lemma work_start ws b tk ex i t :
  work_ok ws b tk ex -> ws !! i = Some (W_task t) -> work_ok (<[i := W_run t]> ws) (b + 1) tk ex.
Proof.
  intros [Hc Hb] Hi. destruct (omap_at current _ _ _ Hi) as (rest & H1 & H2).
  pose proof (count_insert is_busy _ _ _ (W_run t) Hi) as Hk. constructor.
  - by rewrite Hc, H1, H2.
  - rewrite Hb. cbn in Hk. lia.
Qed.

Lemma work_finish ws b tk ex i t :
  work_ok ws b tk ex -> ws !! i = Some (W_run t) -> work_ok (<[i := W_lock]> ws) (b - 1) tk (ex ++ [t]).
Proof.
  intros [Hc Hb] Hi. destruct (omap_at current _ _ _ Hi) as (rest & H1 & H2).
  pose proof (count_insert is_busy _ _ _ W_lock Hi) as Hk. constructor.
  - rewrite Hc, H1, H2. cbn. solve_Permutation.
  - rewrite Hb. cbn in Hk. lia.
Qed.

Lemma work_exit ws b tk ex i s :
  work_ok ws b tk ex -> ws !! i = Some s -> current s = None -> is_busy s = 0 -> work_ok (<[i := W_exit]> ws) b tk ex.
Proof.
  intros [Hc Hb] Hi Hs Hn. destruct (omap_at current _ _ _ Hi) as (rest & H1 & H2).
  pose proof (count_insert is_busy _ _ _ W_exit Hi) as Hk. constructor.
  - by rewrite Hc, H1, H2, Hs.
  - rewrite Hb. f_equal. cbn in Hk. lia.
Qed.

(** A thread that ends, with or without the counter of live threads. *)
Lemma live_exit sl n d ws i s n' :
  live_ok sl n d ws -> ws !! i = Some s -> s <> W_exit ->
  (n' = n /\ d = true \/ n' = (n - 1)%Z /\ (min_thr_num < n)%Z) -> live_ok sl n' d (<[i := W_exit]> ws).
Proof.
  intros [Hl Hnd Hb Hs Hr Hc He] Hi Hx Hn. pose proof (count_insert is_alive _ _ _ W_exit Hi) as Hk.
  assert (is_alive s = 1) as H1 by (by destruct s). rewrite H1 in Hk. cbn in Hk. constructor; try done.
  - by rewrite length_insert.
  - intros t s' Ht Hx'. destruct (decide (t = i)) as [->|Hne].
    + rewrite list_lookup_insert_eq in Ht by (by eapply lookup_lt_Some). congruence.
    + rewrite list_lookup_insert_ne in Ht by done. by eapply Hs.
  - lia.
  - lia.
  - intros Hd. destruct Hn as [[_ Hd']|Hn]; [congruence|]. specialize (He Hd). lia.
Qed.

(** A thread goes from one task state to another. *)
Lemma live_same sl n d ws i s s' :
  live_ok sl n d ws -> ws !! i = Some s -> s <> W_exit -> s' <> W_exit -> live_ok sl n d (<[i := s']> ws).
Proof.
  intros [Hl Hnd Hb Hs Hr Hc He] Hi Hx Hx'. pose proof (count_insert is_alive _ _ _ s' Hi) as Hk.
  assert (is_alive s = 1 /\ is_alive s' = 1) as [H1 H2] by (split; [by destruct s|by destruct s']). constructor; try done.
  - by rewrite length_insert.
  - intros t s0 Ht Hx0. destruct (decide (t = i)) as [->|Hne]; [by apply (Hs i s)|].
    rewrite list_lookup_insert_ne in Ht by done. by eapply Hs.
  - lia.
  - intros Hd. specialize (He Hd). lia.
Qed.

(** *** Growth *)

Lemma ids_cons s l : ids (s :: l) = option_list s ++ ids l.
Proof. by destruct s. Qed.

Lemma elem_ids t l : t ∈ ids l <-> Some t ∈ l.
Proof. unfold ids. rewrite list_elem_of_omap. split; [by intros (? & ? & [= ->])|]. intros H. by exists (Some t). Qed.

(** After the loop: the threads that are new, where they are, and which slots
    were given to them. *)
Record grown (slots : list (option nat)) (live : Z) (ws : list worker) (slots' : list (option nat)) (live' : Z) (ws' : list worker) : Prop := {
  grown_threads : exists k, ws' = ws ++ replicate k W_lock /\ live' = (live + Z.of_nat k)%Z;
  grown_limit : (live' <= Z.max live max_thr_num)%Z;
  grown_len : length slots' = length slots;
  grown_old : forall t, t ∈ ids slots -> t ∈ ids slots' \/ ws !! t = Some W_exit;
  grown_from : forall t, t ∈ ids slots' -> t ∈ ids slots \/ length ws <= t < length ws';
  grown_new : forall t, length ws <= t < length ws' -> t ∈ ids slots';
  grown_nodup : NoDup (ids slots') }.

Lemma grow_spec slots add live ws slots' live' ws' :
  NoDup (ids slots) -> Forall (fun t => t < length ws) (ids slots) ->
  grow slots add live ws = (slots', live', ws') -> grown slots live ws slots' live' ws'.
Proof.
  revert add live ws slots' live' ws'. induction slots as [|s slots IH]; intros add live ws slots' live' ws' Hnd Hb; cbn [grow].
  { intros [= <- <- <-]. constructor; try done; [exists 0; rewrite app_nil_r; split; [done|lia]|lia|by left|by left|lia]. }
  pose proof Hnd as Hnd0. rewrite ids_cons in Hnd, Hb. apply NoDup_app in Hnd as (Hns & Hdis & Hnd). apply Forall_app in Hb as [Hbs Hb].
  rewrite Forall_forall in Hbs.
  destruct (_ && _) eqn:Hgo.
  2:{ intros [= <- <- <-]. constructor; try done; [exists 0; rewrite app_nil_r; split; [done|lia]|lia|by left|by left|lia]. }
  apply andb_true_iff in Hgo as [_ Hlive]. apply Z.ltb_lt in Hlive.
  destruct (is_free ws s) eqn:Hfree.
  - destruct (grow slots (S add) (live + 1) (ws ++ [W_lock])) as [[r l1] w1] eqn:Hg. intros [= <- <- <-].
    assert (Forall (fun t => t < length (ws ++ [W_lock])) (ids slots)) as Hb'.
    { rewrite Forall_forall in Hb |- *. intros t Ht. specialize (Hb t Ht). rewrite length_app. lia. }
    destruct (IH _ _ _ _ _ _ Hnd Hb' Hg) as [(k & -> & ->) Hlim Hlen Hold Hfrom Hnew Hnd'].
    rewrite !length_app, length_replicate in Hfrom, Hnew. cbn [length] in Hfrom, Hnew. rewrite Forall_forall in Hb.
    constructor; try (rewrite !length_app, length_replicate; cbn [length]); try (intros t; rewrite !ids_cons, !elem_of_app).
    + exists (S k). rewrite <- app_assoc. split; [done|lia].
    + lia.
    + cbn. by rewrite Hlen.
    + intros [Hs|Ht].
      * right. destruct s as [t'|]; [|inversion Hs]. apply list_elem_of_singleton in Hs as ->. unfold is_free, is_thread_alive in Hfree.
        rewrite negb_involutive, andb_true_iff, bool_decide_eq_true in Hfree. apply Hfree.
      * destruct (Hold t Ht) as [|Hx]; [by left; right|]. right. by rewrite lookup_app_l in Hx by (by apply Hb).
    + intros [Ht%list_elem_of_singleton|Ht]; [right; lia|]. destruct (Hfrom t Ht); [by left; right|right; lia].
    + intros Ht. destruct (decide (t = length ws)) as [->|Hne]; [left; by apply list_elem_of_singleton|right; apply Hnew; lia].
    + rewrite ids_cons. apply NoDup_cons. split; [|done]. intros [Ht|Ht]%Hfrom; [specialize (Hb _ Ht)|]; lia.
  - destruct (grow slots add live ws) as [[r l1] w1] eqn:Hg. intros [= <- <- <-].
    destruct (IH _ _ _ _ _ _ Hnd Hb Hg) as [Hthr Hlim Hlen Hold Hfrom Hnew Hnd'].
    constructor; try done; try (intros t; rewrite !ids_cons, !elem_of_app).
    + cbn. by rewrite Hlen.
    + intros [Hs|Ht]; [by left; left|]. destruct (Hold t Ht); auto.
    + intros [Hs|Ht]; [by left; left|]. destruct (Hfrom t Ht); auto.
    + auto.
    + rewrite ids_cons. apply NoDup_app. split_and!; [done| |done].
      intros t Ht [Ht'|Hge]%Hfrom; [by apply (Hdis t)|]. specialize (Hbs t Ht). lia.
Qed.

Lemma count_app f l1 l2 : count f (l1 ++ l2) = count f l1 + count f l2.
Proof. unfold count. rewrite fmap_app. apply sum_list_with_app. Qed.

Lemma count_locked f k : count f (replicate k W_lock) = k * f W_lock.
Proof. unfold count. rewrite fmap_replicate. apply sum_list_replicate. Qed.

Lemma live_grow slots live d ws slots' live' ws' :
  live_ok slots live d ws -> grow slots 0 live ws = (slots', live', ws') -> live_ok slots' live' d ws'.
Proof.
  intros [Hl Hnd Hb Hs Hr Hc He] Hg. destruct (grow_spec _ _ _ _ _ _ _ Hnd Hb Hg) as [(k & -> & ->) Hlim Hlen Hold Hfrom Hnew Hnd'].
  rewrite length_app, length_replicate in Hfrom, Hnew. rewrite Forall_forall in Hb.
  constructor.
  - by rewrite Hlen.
  - done.
  - apply Forall_forall. intros t [Ht|Ht]%Hfrom; rewrite length_app, length_replicate; [specialize (Hb t Ht)|]; lia.
  - intros t s Ht Hx. destruct (decide (t < length ws)) as [Hlt|Hge].
    + rewrite lookup_app_l in Ht by done. destruct (Hold t (Hs t s Ht Hx)); [done|congruence].
    + apply Hnew. apply lookup_lt_Some in Ht. rewrite length_app, length_replicate in Ht. lia.
  - lia.
  - rewrite count_app, count_locked. cbn. lia.
  - intros Hd. rewrite count_app, count_locked. specialize (He Hd). cbn. lia.
Qed.

Lemma work_grow ws b tk ex k : work_ok ws b tk ex -> work_ok (ws ++ replicate k W_lock) b tk ex.
Proof.
  intros [Hc Hb]. constructor.
  - rewrite omap_app. assert (omap current (replicate k W_lock) = []) as ->; [|by rewrite app_nil_r]. by induction k.
  - rewrite count_app, count_locked, Hb. cbn. lia.
Qed.

(** *** Every step *)

Lemma lock_free_spec w : lock_free w = true ->
  W_blocking ∉ workers w /\ forall a, a ∈ adders w -> holds_lock_a a = false.
Proof.
  unfold lock_free. intros [H1%bool_decide_eq_true H2]%andb_true_iff. split; [done|].
  intros a Ha. apply negb_true_iff in H2. destruct (holds_lock_a a) eqn:Hh; [|done].
  assert (existsb holds_lock_a (adders w) = true); [|congruence]. apply existsb_exists. exists a. by rewrite <- list_elem_of_In.
Qed.

Lemma elem_of_insert {A} (x : A) (l : list A) (i : nat) y : x ∈ <[i := y]> l -> x = y \/ x ∈ l.
Proof.
  intros (j & Hj)%list_elem_of_lookup. apply list_lookup_insert_Some in Hj as [(_ & -> & _)|[_ Hj]]; [by left|].
  right. apply list_elem_of_lookup. by exists j.
Qed.

(** A step that touches no field of the pool but [wait_exit_thr_num] and keeps
    what the threads have in hand. *)
Lemma same_inv w p' ws' ads' m' d' :
  inv w -> p' = set_wait_exit (pool w) (wait_exit_thr_num p') -> Forall2 similar (workers w) ws' ->
  (W_blocking ∈ ws' -> W_blocking ∈ workers w \/ queue_size (pool w) = 0) ->
  (forall a, a ∈ ads' -> waits a = true -> queue_size (pool w) = queue_max_size) ->
  bool_decide (d' <> D_alive) = bool_decide (destroy w <> D_alive) ->
  (d' <> D_alive -> d' <> D_join_adjuster -> m' = M_exit) ->
  inv (World p' ws' ads' m' d' (frees w) (added w) (taken w) (executed w)).
Proof.
  intros [Hr Hw Hl Hf Hi Hd Hj] -> Hs Hbl Had Hdd Hm. constructor; cbn in *; try done.
  - destruct Hr. by constructor.
  - by eapply work_similar.
  - by eapply live_similar.
  - intros [Hb|Hb]%Hbl; [by apply Hi|done].
  - by rewrite Hdd.
Qed.

Lemma similar_all ws : Forall2 similar ws ws.
Proof. by apply Forall_Forall2_diag, Forall_true. Qed.

Lemma set_wait_exit_same p : p = set_wait_exit p (wait_exit_thr_num p).
Proof. by destruct p. Qed.

Lemma with_worker_inv w i s s' :
  inv w -> workers w !! i = Some s -> similar s s' -> (s' = W_blocking -> queue_size (pool w) = 0) ->
  inv (with_worker w i s').
Proof.
  intros Hinv Hi Hs Hb. apply same_inv; [done|apply set_wait_exit_same|by eapply similar_insert| |apply (inv_full w Hinv)|done|apply (inv_joined w Hinv)].
  intros [Heq|Hin]%elem_of_insert; [right; by apply Hb|by left].
Qed.

Lemma with_adder_inv w j a :
  inv w -> (waits a = true -> queue_size (pool w) = queue_max_size) -> inv (with_adder w j a).
Proof.
  intros Hinv Ha. apply same_inv; [done|apply set_wait_exit_same|apply similar_all|by left| |done|apply (inv_joined w Hinv)].
  intros b [->|Hb]%elem_of_insert; [done|by apply (inv_full w Hinv)].
Qed.

Lemma with_adjust_inv w m : inv w -> (adjust w = M_exit -> m = M_exit) -> inv (with_adjust w m).
Proof.
  intros Hinv Hm. apply same_inv; [done|apply set_wait_exit_same|apply similar_all|by left|apply (inv_full w Hinv)|done|].
  intros Hd Hd'. apply Hm. by apply (inv_joined w Hinv).
Qed.

Lemma destroyer_inv w d :
  inv w -> d <> D_alive -> destroy w <> D_alive -> (d = D_join_adjuster \/ adjust w = M_exit) -> inv (with_destroy w d).
Proof.
  intros Hinv Hd Hdw Hm. apply same_inv; [done|apply set_wait_exit_same|apply similar_all|by left|apply (inv_full w Hinv)| |].
  - by rewrite !bool_decide_true.
  - intros _ Hj. by destruct Hm.
Qed.

Lemma signal_blocking ws c ws' : signal ws c = Some ws' -> W_blocking ∈ ws' -> W_blocking ∈ ws.
Proof. destruct c as [i|]; cbn; case_decide; try done; intros [= <-]; [|done]. by intros [|]%elem_of_insert. Qed.

Lemma signal_inv w c ws' : inv w -> signal (workers w) c = Some ws' -> inv (with_workers w ws').
Proof.
  intros Hinv Hs. apply same_inv; [done|apply set_wait_exit_same|by eapply similar_signal| |apply (inv_full w Hinv)|done|apply (inv_joined w Hinv)].
  intros Hb. left. by eapply signal_blocking.
Qed.

Lemma wait_exit_inv w n : inv w -> inv (with_pool w (set_wait_exit (pool w) n)).
Proof.
  intros Hinv. apply same_inv; [done|done|apply similar_all|by left|apply (inv_full w Hinv)|done|apply (inv_joined w Hinv)].
Qed.

(** The cell that is used again has an argument that cannot be freed, or a task uses
    an argument that was freed. *)
Definition misuse (w : world) (e : event) : Prop :=
  match e with
  | adder_runs _ _ => exists old, task_queue (pool w) !! queue_rear (pool w) = Some old /\ frees_well w old = false
  | worker_runs i => exists t, (workers w !! i = Some (W_task t) \/ workers w !! i = Some (W_run t)) /\ arg_usable w t = false
  | _ => False
  end.

(** What a step may give: undefined behaviour only after [threadpool_destroy]
    was called or by the misuse of an argument. *)
Definition good (w : world) (e : event) (r : effect) : Prop :=
  match r with now_in w' => inv w' | undefined => shutdown (pool w) = true \/ misuse w e end.

Lemma freed_down w : inv w -> freed w = true -> shutdown (pool w) = true.
Proof. intros Hinv Hf. rewrite (inv_down w Hinv). apply bool_decide_eq_true in Hf. by rewrite Hf. Qed.

Lemma ring_cell w k : inv w -> 0 < queue_max_size -> exists t, task_queue (pool w) !! (k mod queue_max_size) = Some t.
Proof.
  intros [Hr _ _ _ _ _ _] Hq. apply lookup_lt_is_Some. rewrite (ring_len _ _ _ _ Hr). apply Nat.mod_upper_bound. lia.
Qed.

Lemma threadpool_add_inv w j c r :
  inv w -> length garbage = queue_max_size -> threadpool_add w j c = Some r -> good w (adder_runs j c) r.
Proof.
  intros Hinv Hg. unfold threadpool_add. destruct (adders w !! j) as [a|] eqn:Hj; [|done]. cbn [mbind option_bind].
  destruct a as [t|t|t|]; try done.
  2:{ intros [= <-]. apply with_adder_inv; [done|]. intros _. apply (inv_full w Hinv (P_blocking t)); [|done]. by eapply list_elem_of_lookup_2. }
  destruct (freed w) eqn:Hfr; [intros [= <-]; left; by apply freed_down|].
  destruct (lock_free w) eqn:Hlf; [|done]. apply lock_free_spec in Hlf as [Hnb Hna].
  destruct (_ && _) eqn:Hfull.
  { apply andb_true_iff in Hfull as [Hfull%bool_decide_eq_true _]. intros [= <-]. by apply with_adder_inv. }
  unfold add_task. destruct (shutdown (pool w)) eqn:Hdown; [intros [= <-]; by left|].
  rewrite andb_true_r in Hfull. apply bool_decide_eq_false in Hfull.
  pose proof (ring_bound _ _ _ _ (inv_ring w Hinv)) as Hle.
  destruct (ring_cell w (length (added w)) Hinv ltac:(lia)) as [old Hold].
  rewrite <- (ring_rear _ _ _ _ (inv_ring w Hinv)) in Hold. rewrite Hold.
  destruct (frees_well w old) eqn:Hfw; cbn [negb]; [|intros [= <-]; right; by exists old].
  destruct (signal (workers w) c) as [ws|] eqn:Hs; [|done]. cbn [mbind option_bind]. intros [= <-].
  pose proof (similar_signal _ _ _ Hs) as Hsim. destruct Hinv as [Hr Hw Hl Hf Hi Hd Hm]. constructor; cbn; try done.
  - by apply ring_add.
  - by eapply work_similar.
  - eapply live_similar; [|exact Hsim]. by rewrite <- Hdown.
  - intros a Ha Hwa. apply elem_of_insert in Ha as [->|Ha]; [done|]. by destruct Hfull, (Hf a).
  - intros Hb. destruct Hnb. by eapply signal_blocking.
  - by rewrite <- Hd, Hdown.
Qed.

Lemma take_task_inv w i s :
  inv w -> length garbage = queue_max_size -> W_blocking ∉ workers w -> (forall a, a ∈ adders w -> holds_lock_a a = false) ->
  workers w !! i = Some s -> similar s W_lock -> good w (worker_runs i) (take_task w i).
Proof.
  intros Hinv Hg Hnb Hna Hi Hs. unfold take_task. assert (s <> W_exit) as Hx by (intros ->; destruct Hs as (_ & _ & H); naive_solver).
  destruct (shutdown (pool w)) eqn:Hdown.
  - rewrite andb_false_r. cbn. destruct Hinv as [Hr Hw Hl Hf Hidle Hd Hm]. destruct Hs as (Hc & Hb & _). constructor; cbn; try done.
    + by eapply work_exit.
    + rewrite Hdown in *. eapply live_exit; [done..|]. by left.
    + intros [|Hin]%elem_of_insert; [done|by apply Hidle].
  - rewrite andb_true_r. case_bool_decide as Hsz.
    { cbn. eapply with_worker_inv; [done..| |by intros _]. destruct Hs as (Hc & Hb & Hiff). by split_and!. }
    pose proof (ring_bound _ _ _ _ (inv_ring w Hinv)) as Hle.
    destruct (ring_cell w (length (taken w)) Hinv ltac:(lia)) as [t Ht].
    rewrite <- (ring_front _ _ _ _ (inv_ring w Hinv)) in Ht. rewrite Ht. cbn.
    destruct Hinv as [Hr Hw Hl Hf Hidle Hd Hm]. destruct Hs as (Hc & Hb & _). constructor; cbn; try done.
    + by apply ring_take.
    + by eapply work_take.
    + rewrite Hdown in *. by eapply live_same.
    + intros a (a' & -> & Ha')%list_elem_of_fmap Hwa. destruct a' as [t'|t'|t'|]; try done. by specialize (Hna _ Ha').
    + intros [|Hin]%elem_of_insert; [done|]. specialize (Hidle Hin). lia.
    + by rewrite <- Hd, Hdown.
Qed.

Lemma after_wait_inv w i :
  inv w -> length garbage = queue_max_size -> W_blocking ∉ workers w -> (forall a, a ∈ adders w -> holds_lock_a a = false) ->
  workers w !! i = Some W_woken -> good w (worker_runs i) (after_wait w i).
Proof.
  intros Hinv Hg Hnb Hna Hi. unfold after_wait. destruct (0 <? wait_exit_thr_num (pool w))%Z.
  - cbn [live_thr_num set_wait_exit]. destruct (min_thr_num <? live_thr_num (pool w))%Z eqn:Hmin.
    + apply Z.ltb_lt in Hmin. destruct Hinv as [Hr Hw Hl Hf Hidle Hd Hm]. constructor; cbn; try done.
      * destruct Hr. by constructor.
      * by eapply work_exit.
      * eapply live_exit; [done..|]. by right.
      * intros [|Hin]%elem_of_insert; [done|by apply Hidle].
    + set (w1 := with_pool w _). apply (take_task_inv w1 i W_woken); [by apply wait_exit_inv|done..].
  - by apply (take_task_inv w i W_woken).
Qed.

Lemma threadpool_thread_inv w i r :
  inv w -> length garbage = queue_max_size -> threadpool_thread w i = Some r -> good w (worker_runs i) r.
Proof.
  intros Hinv Hg. unfold threadpool_thread. destruct (workers w !! i) as [s|] eqn:Hi; [|done]. cbn [mbind option_bind].
  destruct (freed w) eqn:Hfr; [destruct s; try done; intros [= <-]; left; by apply freed_down|].
  destruct s as [| | | |t|t|]; try done.
  - destruct (lock_free w) eqn:Hlf; [|done]. apply lock_free_spec in Hlf as [Hnb Hna]. intros [= <-]. by eapply take_task_inv.
  - intros [= <-]. by eapply with_worker_inv.
  - destruct (lock_free w) eqn:Hlf; [|done]. apply lock_free_spec in Hlf as [Hnb Hna]. intros [= <-]. by apply after_wait_inv.
  - destruct (arg_usable w t) eqn:Hu; cbn [negb]; [|intros [= <-]; right; exists t; by auto].
    intros [= <-]. destruct Hinv as [Hr Hw Hl Hf Hidle Hd Hm]. constructor; cbn; try done.
    + destruct Hr. by constructor.
    + by apply work_start.
    + by eapply live_same.
    + intros [|Hin]%elem_of_insert; [done|by apply Hidle].
  - destruct (arg_usable w t) eqn:Hu; cbn [negb]; [|intros [= <-]; right; exists t; by auto].
    intros [= <-]. destruct Hinv as [Hr Hw Hl Hf Hidle Hd Hm]. constructor; cbn; try done.
    + destruct Hr. by constructor.
    + by apply work_finish.
    + by eapply live_same.
    + intros [|Hin]%elem_of_insert; [done|by apply Hidle].
Qed.

Lemma grow_pool_inv w : inv w -> W_blocking ∉ workers w -> inv (grow_pool w).
Proof.
  intros [Hr Hw Hl Hf Hidle Hd Hm] Hnb. unfold grow_pool. destruct (grow _ _ _ _) as [[sl lv] ws] eqn:Hg.
  pose proof (live_grow _ _ _ _ _ _ _ Hl Hg) as Hl'.
  destruct (grow_spec _ _ _ _ _ _ _ (live_nodup _ _ _ _ Hl) (live_bound _ _ _ _ Hl) Hg) as [(k & -> & _) _ _ _ _ _ _].
  constructor; cbn; try done.
  - destruct Hr. by constructor.
  - by apply work_grow.
  - intros [Hin|[? _]%elem_of_replicate]%elem_of_app; done.
Qed.

Lemma adjust_thread_inv w c r : inv w -> adjust_thread w c = Some r -> good w (adjuster_runs c) r.
Proof.
  intros Hinv. unfold adjust_thread. destruct (freed w) eqn:Hfr; [destruct (adjust w); try done; intros [= <-]; left; by apply freed_down|].
  destruct (adjust w) as [| |q l|q l b|l b|[|n]|] eqn:Hm; try done.
  - intros [= <-]. apply with_adjust_inv; [done|]. by rewrite Hm.
  - destruct (lock_free w); [|done]. intros [= <-]. apply with_adjust_inv; [done|]. by rewrite Hm.
  - intros [= <-]. apply with_adjust_inv; [done|]. by rewrite Hm.
  - destruct (_ && _); [destruct (lock_free w) eqn:Hlf; [|done]|]; intros [= <-].
    + apply lock_free_spec in Hlf as [Hnb _]. apply with_adjust_inv; [by apply grow_pool_inv|].
      unfold grow_pool. destruct (grow _ _ _ _) as [[sl lv] ws]. cbn. by rewrite Hm.
    + apply with_adjust_inv; [done|]. by rewrite Hm.
  - destruct (_ && _); [destruct (lock_free w); [|done]|]; intros [= <-].
    + apply with_adjust_inv; [by apply wait_exit_inv|]. cbn. by rewrite Hm.
    + apply with_adjust_inv; [done|]. by rewrite Hm.
  - intros [= <-]. apply with_adjust_inv; [done|]. by rewrite Hm.
  - destruct (signal (workers w) c) as [ws|] eqn:Hs; [|done]. cbn [mbind option_bind]. intros [= <-].
    apply with_adjust_inv; [by eapply signal_inv|]. cbn. by rewrite Hm.
Qed.

Lemma threadpool_destroy_inv w r : inv w -> threadpool_destroy w = Some r -> good w destroy_runs r.
Proof.
  intros Hinv. unfold threadpool_destroy. destruct (destroy w) as [| |i|i| |] eqn:Hdw; try done;
    (assert (destroy w <> D_alive -> destroy w <> D_join_adjuster -> adjust w = M_exit) as Hjoined by apply (inv_joined w Hinv)).
  - intros [= <-]. destruct Hinv as [Hr Hw Hl Hf Hidle Hd Hm]. constructor; cbn; try done.
    + destruct Hr. by constructor.
    + destruct Hl. by constructor.
  - destruct (adjust w) eqn:Hm; try done. intros [= <-]. apply destroyer_inv; rewrite ?Hdw; auto.
  - destruct (_ <? _)%Z; intros [= <-].
    + apply destroyer_inv; cbn; rewrite ?Hdw; auto; [|right; by apply Hjoined; rewrite Hdw].
      apply same_inv; [done|apply set_wait_exit_same|apply similar_woken| |apply (inv_full w Hinv)|done|apply (inv_joined w Hinv)].
      intros (s & Hs & Hin)%list_elem_of_fmap. left. by destruct s.
    + apply destroyer_inv; rewrite ?Hdw; auto. right. by apply Hjoined; rewrite Hdw.
  - destruct (_ <? _)%Z.
    + destruct (threads (pool w) !! i) as [[t|]|].
      * case_decide; [|done]. intros [= <-]. apply destroyer_inv; rewrite ?Hdw; auto. right. by apply Hjoined; rewrite Hdw.
      * intros [= <-]. left. by rewrite (inv_down w Hinv), Hdw.
      * intros [= <-]. left. by rewrite (inv_down w Hinv), Hdw.
    + intros [= <-]. apply destroyer_inv; rewrite ?Hdw; auto. right. by apply Hjoined; rewrite Hdw.
  - destruct (lock_free w); [|done]. cbn. intros [= <-]. apply destroyer_inv; rewrite ?Hdw; auto. right. by apply Hjoined; rewrite Hdw.
Qed.

Lemma cpool_step_inv w e r : inv w -> length garbage = queue_max_size -> step w e = Some r -> good w e r.
Proof.
  intros Hinv Hg. destruct e as [i|t|j c|c| |i|j]; cbn [step].
  - by apply threadpool_thread_inv.
  - intros [= <-]. apply same_inv; [done|apply set_wait_exit_same|apply similar_all|by left| |done|apply (inv_joined w Hinv)].
    intros a [Ha|Ha%list_elem_of_singleton]%elem_of_app; [by apply (inv_full w Hinv)|by subst].
  - by apply threadpool_add_inv.
  - by apply adjust_thread_inv.
  - by apply threadpool_destroy_inv.
  - case_decide as Hi; [|done]. intros [= <-]. by eapply with_worker_inv.
  - destruct (adders w !! j) as [[]|]; try done. intros [= <-]. by apply with_adder_inv.
Qed.

(** ** Runs *)

(** The task that a call of [threadpool_add] has not put into the ring yet. *)
Definition pending (a : adder) : option threadpool_task_t :=
  match a with P_lock t | P_blocking t | P_wait t => Some t | P_done => None end.
Definition call_of (e : event) : option threadpool_task_t := match e with add_called t => Some t | _ => None end.

(** The tasks of the calls so far. *)
Definition called (w : world) : list threadpool_task_t := added w ++ omap pending (adders w).

(** A step that neither destroys nor calls. *)
Definition frame (w w' : world) : Prop := destroy w' = destroy w /\ called w' ≡ₚ called w.

Lemma pending_readied (ads : list adder) : omap pending (readied <$> ads) = omap pending ads.
Proof. induction ads as [|a ads IH]; [done|]. cbn. rewrite IH. by destruct a. Qed.

Lemma take_task_frame w i w' : take_task w i = now_in w' -> frame w w'.
Proof.
  unfold take_task, frame, called. destruct (_ && _); [by intros [= <-]|]. destruct (shutdown _); [by intros [= <-]|].
  destruct (_ !! _); [|done]. intros [= <-]. cbn. by rewrite pending_readied.
Qed.

Lemma thread_frame w i w' : threadpool_thread w i = Some (now_in w') -> frame w w'.
Proof.
  unfold threadpool_thread. destruct (workers w !! i) as [s|]; [|done]. cbn [mbind option_bind].
  destruct s, (freed w); try done; try (destruct (lock_free w); [|done]); try (destruct (negb _); [done|]);
    try (by intros [= <-]); intros [= H].
  - by apply take_task_frame in H.
  - revert H. unfold after_wait. destruct (_ <? _)%Z; [destruct (_ <? _)%Z; [by intros [= <-]|]|]; intros H;
      by apply take_task_frame in H.
Qed.

Lemma adder_frame w j a b :
  adders w !! j = Some a -> pending b = pending a -> frame w (with_adder w j b).
Proof.
  intros Hj Hb. split; [done|]. unfold called. cbn.
  destruct (omap_at pending _ _ _ Hj) as (rest & -> & Hins). by rewrite Hins, Hb.
Qed.

Lemma threadpool_add_frame w j c w' : threadpool_add w j c = Some (now_in w') -> frame w w'.
Proof.
  unfold threadpool_add. destruct (adders w !! j) as [a|] eqn:Hj; [|done]. cbn [mbind option_bind]. destruct a as [t|t|t|]; try done.
  2:{ intros [= <-]. by eapply adder_frame. }
  destruct (freed w); [done|]. destruct (lock_free w); [|done]. destruct (_ && _); [intros [= <-]; by eapply adder_frame|].
  unfold add_task. destruct (shutdown _); [done|]. destruct (task_queue (pool w) !! queue_rear (pool w)); [|done]. destruct (negb _); [done|].
  destruct (signal _ _); [|done]. intros [= <-]. split; [done|]. unfold called. cbn.
  destruct (omap_at pending _ _ _ Hj) as (rest & -> & Hins). by rewrite Hins, <- app_assoc.
Qed.

Lemma adjust_frame w c w' : adjust_thread w c = Some (now_in w') -> frame w w'.
Proof.
  unfold adjust_thread. destruct (freed w), (adjust w) as [| | | | |[|]|]; try done; try (by intros [= <-]);
    try (destruct (_ && _); [|by intros [= <-]]); try (destruct (lock_free w); [|done]); try (by intros [= <-]).
  - intros [= <-]. unfold grow_pool. by destruct (grow _ _ _ _) as [[? ?] ?].
  - destruct (signal _ _); [|done]. by intros [= <-].
Qed.

Lemma destroy_called w w' : threadpool_destroy w = Some (now_in w') -> called w' = called w.
Proof.
  unfold threadpool_destroy. destruct (destroy w) as [| |i|i| |]; try done.
  - by intros [= <-].
  - destruct (adjust w); try done. by intros [= <-].
  - destruct (_ <? _)%Z; by intros [= <-].
  - destruct (_ <? _)%Z; [|by intros [= <-]]. destruct (threads (pool w) !! i) as [[t|]|]; try done.
    destruct (decide _); [|done]. by intros [= <-].
  - destruct (lock_free w); [|done]. cbn. by intros [= <-].
Qed.

(** Each step but those of [threadpool_destroy] leaves its state alone, and the
    tasks called for grow by calls only. *)
Lemma step_frame w e w' : step w e = Some (now_in w') ->
  (e = destroy_runs \/ destroy w' = destroy w) /\ called w' ≡ₚ called w ++ option_list (call_of e).
Proof.
  assert (forall w', frame w w' -> (e = destroy_runs \/ destroy w' = destroy w) /\ called w' ≡ₚ called w ++ []) as Hf.
  { intros w1 [Hd Hc]. rewrite app_nil_r. split; [by right|done]. }
  destruct e as [i|t|j c|c| |i|j]; cbn [step call_of option_list].
  - intros Hs. by apply Hf, (thread_frame w i).
  - intros [= <-]. unfold called. cbn. rewrite omap_app, app_assoc. split; [by right|done].
  - intros Hs. by apply Hf, (threadpool_add_frame w j c).
  - intros Hs. by apply Hf, (adjust_frame w c).
  - intros Hs. rewrite (destroy_called _ _ Hs), app_nil_r. split; [by left|done].
  - destruct (decide _); [|done]. intros [= <-]. by apply Hf.
  - destruct (adders w !! j) as [a|] eqn:Hj; [|done]. destruct a; try done. intros [= <-]. apply Hf. by eapply adder_frame.
Qed.

Lemma step_destroy w e w' : step w e = Some (now_in w') -> e = destroy_runs \/ destroy w' = destroy w.
Proof. intros Hs. by apply step_frame in Hs as [H _]. Qed.

(** Arguments can be misused only where the memory of the ring held one, or where
    a call with an argument is among more calls than there are cells. *)
Definition may_misuse (calls : list threadpool_task_t) : Prop :=
  (exists t, t ∈ garbage /\ arg t <> None) \/ (queue_max_size < length calls /\ exists t, t ∈ calls /\ arg t <> None).

Lemma frees_misuse w a : inv w -> length garbage = queue_max_size -> a ∈ frees w -> may_misuse (added w).
Proof.
  intros Hinv Hg. rewrite (ring_frees _ _ _ _ (inv_ring w Hinv)). intros (t & Ht & Ha)%list_elem_of_omap.
  rewrite take_app in Ht. apply elem_of_app in Ht as [Ht|Ht].
  - left. exists t. split; [by eapply subseteq_take|congruence].
  - right. rewrite Hg in Ht. split; [|exists t; split; [by eapply subseteq_take|congruence]].
    destruct (decide (length (added w) <= queue_max_size)) as [Hle|]; [|lia].
    replace (length (added w) - queue_max_size) with 0 in Ht by lia. by apply elem_of_nil in Ht.
Qed.

Lemma adder_pending w j t : adders w !! j = Some (P_lock t) -> length (added w) < length (called w).
Proof.
  intros Hj. unfold called. destruct (omap_at pending _ _ _ Hj) as (rest & Hp & _).
  rewrite length_app, (Permutation_length Hp). cbn. lia.
Qed.

Lemma misuse_calls w e : inv w -> length garbage = queue_max_size -> step w e = Some undefined -> misuse w e -> may_misuse (called w).
Proof.
  intros Hinv Hg Hs Hm.
  assert (may_misuse (added w) -> may_misuse (called w)) as Hw.
  { intros [?|(Hlt & t & Ht & Ha)]; [by left|right]. unfold called. rewrite length_app. split; [lia|]. exists t. rewrite elem_of_app. auto. }
  destruct e as [i|t|j c|c| |i|j]; try done; cbn in Hm.
  - destruct Hm as (t & _ & Hu). unfold arg_usable in Hu. destruct (arg t) as [a|]; [|done].
    apply bool_decide_eq_false, dec_stable in Hu. by eapply Hw, frees_misuse.
  - destruct Hm as (old & Hold & Hf). unfold frees_well in Hf. destruct (arg old) as [a|] eqn:Ha; [|done].
    cbn [step] in Hs. unfold threadpool_add in Hs. destruct (adders w !! j) as [[t|t|t|]|] eqn:Hj; try done.
    pose proof (adder_pending w j t Hj) as Hlt. destruct (inv_ring w Hinv) as [Hl Hcell Hrear _ _ _ _ _].
    assert (0 < queue_max_size) as Hq by (rewrite <- Hl; apply lookup_lt_Some in Hold; lia).
    specialize (Hcell 0 Hq). rewrite !Nat.add_0_r, <- Hrear, Hold in Hcell. symmetry in Hcell.
    apply lookup_app_Some in Hcell as [Hcell|[Hge Hcell]].
    + left. exists old. split; [by eapply list_elem_of_lookup_2|congruence].
    + right. split; [lia|]. exists old. split; [|congruence]. unfold called. rewrite elem_of_app. left. by eapply list_elem_of_lookup_2.
Qed.

(** What a run gives. *)
Lemma cpool_run_inv w es r :
  inv w -> length garbage = queue_max_size -> run w es = Some r ->
  match r with
  | now_in w' => inv w' /\ (destroy w' = destroy w \/ destroy_runs ∈ es)
  | undefined => destroy w = D_alive -> destroy_runs ∈ es \/ may_misuse (called w ++ omap call_of es)
  end.
Proof.
  intros Hinv Hg. revert w Hinv. induction es as [|e es IH]; intros w Hinv; cbn [run]; [intros [= <-]; by auto|].
  destruct (step w e) as [r1|] eqn:Hs; [|done]. cbn [mbind option_bind]. pose proof (cpool_step_inv w e r1 Hinv Hg Hs) as Hr1.
  destruct r1 as [w1|].
  - intros Hrun. pose proof (IH w1 Hr1 Hrun) as Hr. destruct (step_frame w e w1 Hs) as [Hd Hc]. destruct r as [w'|].
    + destruct Hr as [Hw [Hd'|Hd']]; (split; [done|]); [|right; by right].
      destruct Hd as [->|Hd]; [right; by left|left; congruence].
    + intros Ha. destruct Hd as [->|Hd]; [left; by left|]. destruct Hr as [Hr|Hr]; [congruence|left; by right|]. right.
      assert (called w1 ++ omap call_of es ≡ₚ called w ++ omap call_of (e :: es)) as Hp.
      { rewrite Hc, <- app_assoc. f_equiv. cbn. by destruct (call_of e). }
      destruct Hr as [?|(Hlt & t & Ht & Hx)]; [by left|right]. rewrite <- (Permutation_length Hp). split; [done|].
      exists t. by rewrite <- Hp.
  - intros [= <-] Ha. cbn in Hr1. destruct Hr1 as [Hr1|Hm]; [rewrite (inv_down w Hinv), Ha in Hr1; done|]. right.
    destruct (misuse_calls w e Hinv Hg Hs Hm) as [?|(Hlt & t & Ht & Hx)]; [by left|right]. rewrite length_app. split; [lia|].
    exists t. rewrite elem_of_app. auto.
Qed.

Lemma omap_Some_seq a n : omap id (Some <$> seq a n) = seq a n.
Proof. revert a. induction n as [|n IH]; intros a; [done|]. cbn. by rewrite IH. Qed.

Lemma ids_created n m : ids ((Some <$> seq 0 n) ++ replicate m None) = seq 0 n.
Proof.
  unfold ids. rewrite omap_app, omap_Some_seq. assert (omap id (replicate m (@None nat)) = []) as ->; [by induction m|apply app_nil_r].
Qed.

Lemma created_start malloc init_ok exits w0 :
  threadpool_create malloc init_ok garbage exits = created w0 -> destroy w0 = D_alive /\ called w0 = [].
Proof. unfold threadpool_create. intros Hc. repeat case_match; try done; by injection Hc as <-. Qed.

Lemma created_inv malloc init_ok exits w0 :
  (0 <= min_thr_num)%Z -> length garbage = queue_max_size -> threadpool_create malloc init_ok garbage exits = created w0 -> inv w0.
Proof.
  intros Hmin Hg. unfold threadpool_create. do 4 (case_match; [done|]). destruct (_ <? _)%Z eqn:Hle; [done|]. apply Z.ltb_ge in Hle.
  intros [= <-]. constructor; cbn; try done; [| | |by intros ? ?%elem_of_nil].
  - constructor; cbn; try done; [|by rewrite Nat.Div0.mod_0_l..|lia].
    intros k Hk. rewrite Nat.mod_small by done. by rewrite lookup_app_l by lia.
  - constructor; [|rewrite count_locked; cbn; lia]. cbn. by induction (Z.to_nat min_thr_num).
  - constructor; rewrite ?ids_created, ?length_replicate; try done.
    + rewrite length_app, length_fmap, length_seq, length_replicate. lia.
    + apply NoDup_seq.
    + apply Forall_forall. intros t Ht%elem_of_seq. lia.
    + intros t s Ht _. apply elem_of_seq. apply lookup_lt_Some in Ht. rewrite length_replicate in Ht. lia.
    + rewrite count_locked. cbn. lia.
    + intros _. rewrite count_locked. cbn. lia.
Qed.

(** C11: the pool works, in every interleaving, whatever the memory it was given
    holds. Tasks are taken in the order in which they were put into the ring,
    each once, and each task taken is in the hands of one worker or has
    returned; nobody waits to add a task unless the ring is full. The arguments
    freed are those that the cells held before they were used again: first the
    garbage, then those of the tasks that came [queue_max_size] places before,
    which have been taken, though they may still run. The counters are right:
    the workers in a task are the busy ones, the live ones are counted until the
    pool is destroyed and stay between the two limits. As long as
    [threadpool_destroy] is not called, the one undefined behaviour is the misuse
    of an argument: a call frees what the cell it uses again held, which is no
    block of [malloc] or was freed before, or a task runs whose argument was
    freed. Neither happens where the memory of the ring held no argument and no
    more calls were made than it has cells, or none with an argument. *)
Theorem cpool_correct malloc init_ok exits w0 es :
  (0 <= min_thr_num)%Z -> length garbage = queue_max_size -> threadpool_create malloc init_ok garbage exits = created w0 ->
  (run w0 es = Some undefined -> destroy_runs ∈ es \/ may_misuse (omap call_of es)) /\
  forall w, run w0 es = Some (now_in w) ->
    (forall e, step w e = Some undefined -> destroy_runs ∈ es \/ misuse w e) /\
    added w = taken w ++ queued w /\ queue_size (pool w) <= queue_max_size /\
    taken w ≡ₚ executed w ++ omap current (workers w) /\
    (forall a, a ∈ adders w -> waits a = true -> queue_size (pool w) = queue_max_size) /\
    frees w = omap arg (take (length (added w)) (garbage ++ added w)) /\
    take (length (added w) - queue_max_size) (added w) `prefix_of` taken w /\
    threadpool_busy_threadnum w = Z.of_nat (count is_busy (workers w)) /\
    (forall n, threadpool_all_threadnum w = Some n ->
       (min_thr_num <= n <= max_thr_num)%Z /\ (threadpool_busy_threadnum w <= n)%Z /\
       (destroy w = D_alive -> n = Z.of_nat (count is_alive (workers w)))).
Proof.
  intros Hmin Hg Hc. pose proof (created_inv _ _ _ _ Hmin Hg Hc) as Hinv0. destruct (created_start _ _ _ _ Hc) as [Ha Hcalls]. split.
  - intros Hrun. pose proof (cpool_run_inv w0 es _ Hinv0 Hg Hrun Ha) as H. by rewrite Hcalls in H.
  - intros w Hrun. pose proof (cpool_run_inv w0 es _ Hinv0 Hg Hrun) as [Hinv Hdes].
    pose proof (inv_ring w Hinv) as Hr. pose proof (inv_live w Hinv) as Hl. pose proof (work_busy _ _ _ _ (inv_work w Hinv)) as Hb.
    split_and!; [| |apply Hr|apply (inv_work w Hinv)|apply (inv_full w Hinv)|apply Hr| |done|].
    + intros e Hs. destruct (cpool_step_inv w e _ Hinv Hg Hs) as [Hd|Hm]; [left|by right].
      destruct Hdes as [Heq|?]; [|done]. by rewrite (inv_down w Hinv), Heq, Ha in Hd.
    + by rewrite (ring_queued w Hr Hg), (ring_fifo _ _ _ _ Hr).
    + exists (take (queue_max_size - queue_size (pool w)) (drop (length (added w) - queue_max_size) (taken w))).
      pose proof (ring_size _ _ _ _ Hr). pose proof (ring_bound _ _ _ _ Hr).
      rewrite <- (ring_fifo _ _ _ _ Hr) at 2. rewrite take_app_le by lia. rewrite (take_ge (drop _ _)) by (rewrite length_drop; lia).
      by rewrite take_drop.
    + intros n. unfold threadpool_all_threadnum. destruct (lock_free w); [|done]. intros [= <-]. split; [apply Hl|]. split.
      * unfold threadpool_busy_threadnum. rewrite Hb. etrans; [|apply (live_count _ _ _ _ Hl)]. apply inj_le.
        apply weight_le. by intros []; cbn; lia.
      * intros Hd. symmetry. apply (live_exact _ _ _ _ Hl). by rewrite (inv_down w Hinv), Hd.
Qed.

(** ** Pools of a fixed size *)

Definition is_awake (s : worker) : bool := match s with W_blocking | W_wait | W_exit => false | _ => true end.

(** What the adjuster has read, and that it sends no signals. *)
Definition adjust_fixed (m : adjuster) : Prop :=
  match m with M_counted _ l | M_busy _ l _ | M_grown l _ => l = min_thr_num | M_signal _ => False | _ => True end.

(** Without room to grow the thread [t] stays in slot [t], and nobody is told
    to end. *)
Record fixed_ok (w : world) : Prop := {
  fx_threads : threads (pool w) = Some <$> seq 0 (Z.to_nat min_thr_num);
  fx_workers : length (workers w) = Z.to_nat min_thr_num;
  fx_live : live_thr_num (pool w) = min_thr_num;
  fx_alive : shutdown (pool w) = false -> W_exit ∉ workers w;
  fx_adjust : adjust_fixed (adjust w);
  fx_joined : match destroy w with
              | D_join i => forall t, t < i -> workers w !! t = Some W_exit
              | D_free | D_done => Forall (eq W_exit) (workers w)
              | _ => True
              end;
  fx_awake : shutdown (pool w) = false -> queue_size (pool w) <> 0 -> (0 < min_thr_num)%Z ->
             exists i s, workers w !! i = Some s /\ is_awake s = true }.

Section fixed.
Context (fixed : min_thr_num = max_thr_num) (Hmin : (0 <= min_thr_num)%Z) (Hg : length garbage = queue_max_size).

(** A step of worker [i]: the others stay as they are. *)
Lemma fixed_worker w i s s' p' ads tk ex :
  inv w -> fixed_ok w -> workers w !! i = Some s -> s <> W_exit ->
  threads p' = threads (pool w) -> live_thr_num p' = live_thr_num (pool w) -> shutdown p' = shutdown (pool w) ->
  (s' = W_exit -> shutdown (pool w) = true) -> (is_awake s' = true \/ queue_size p' = 0 \/ shutdown (pool w) = true) ->
  fixed_ok (World p' (<[i := s']> (workers w)) ads (adjust w) (destroy w) (frees w) (added w) tk ex).
Proof.
  intros Hinv [Ht Hw Hl Ha Hm Hj Haw] Hi Hx Ht' Hl' Hd' Hex Hs'. constructor; cbn; try done.
  - by rewrite Ht'.
  - by rewrite length_insert.
  - by rewrite Hl'.
  - rewrite Hd'. intros Hd [Heq|Hin]%elem_of_insert; [by rewrite Hex in Hd|by apply Ha].
  - assert (forall t, workers w !! t = Some W_exit -> <[i := s']> (workers w) !! t = Some W_exit) as Hkeep.
    { intros t Hte. rewrite list_lookup_insert_ne; [done|]. intros ->. congruence. }
    destruct (destroy w); try done; [intros t Hti; by apply Hkeep, Hj|..];
      (rewrite Forall_forall in Hj; by destruct Hx; symmetry; apply Hj; eapply list_elem_of_lookup_2).
  - rewrite Hd'. intros Hd Hsz _. destruct Hs' as [Hs'|[Hs'|Hs']]; [|congruence..]. exists i, s'. split; [|done].
    apply list_lookup_insert_eq. by eapply lookup_lt_Some.
Qed.

Lemma fixed_take w i s : inv w -> fixed_ok w -> workers w !! i = Some s -> s <> W_exit ->
  match take_task w i with now_in w' => fixed_ok w' | undefined => misuse w (worker_runs i) end.
Proof.
  intros Hinv Hfx Hi Hx. unfold take_task. destruct (shutdown (pool w)) eqn:Hdown.
  - rewrite andb_false_r. eapply fixed_worker; try done. by right; right.
  - rewrite andb_true_r. case_bool_decide as Hsz; [eapply fixed_worker; try done; by right; left|].
    pose proof (ring_bound _ _ _ _ (inv_ring w Hinv)) as Hle.
    destruct (ring_cell w (length (taken w)) Hinv ltac:(lia)) as [t Ht].
    rewrite <- (ring_front _ _ _ _ (inv_ring w Hinv)) in Ht. rewrite Ht.
    eapply fixed_worker; try done. by left.
Qed.

Lemma fixed_thread w i r : inv w -> fixed_ok w -> threadpool_thread w i = Some r ->
  match r with now_in w' => fixed_ok w' | undefined => misuse w (worker_runs i) end.
Proof.
  intros Hinv Hfx. unfold threadpool_thread. destruct (workers w !! i) as [s|] eqn:Hi; [|done]. cbn [mbind option_bind].
  destruct (freed w) eqn:Hfr.
  { apply bool_decide_eq_true in Hfr. pose proof (fx_joined w Hfx) as Hj. rewrite Hfr, Forall_forall in Hj.
    by rewrite <- (Hj s) by (by eapply list_elem_of_lookup_2). }
  destruct s as [| | | |t|t|]; try done; try (destruct (lock_free w); [|done]);
    try (destruct (arg_usable w t) eqn:Hu; cbn [negb]; [|intros [= <-]; exists t; by auto]); intros [= <-].
  - by eapply fixed_take.
  - eapply fixed_worker; try done. right; left. apply (inv_idle w Hinv). by eapply list_elem_of_lookup_2.
  - unfold after_wait. cbn [live_thr_num set_wait_exit]. rewrite (fx_live w Hfx), Z.ltb_irrefl.
    destruct (_ <? _)%Z; [|by eapply fixed_take]. apply (fixed_take (with_pool w _) i W_woken); [by apply wait_exit_inv| |done..].
    destruct Hfx. by constructor.
  - apply (fixed_worker w i (W_task t)); try done. by left.
  - apply (fixed_worker w i (W_run t)); try done. by left.
Qed.

Lemma fixed_same w p' ws' ads' m' fr' ad' :
  fixed_ok w -> threads p' = threads (pool w) -> live_thr_num p' = live_thr_num (pool w) -> shutdown p' = shutdown (pool w) ->
  Forall2 similar (workers w) ws' -> adjust_fixed m' ->
  (shutdown p' = false -> queue_size p' <> 0 -> (0 < min_thr_num)%Z -> exists i s, ws' !! i = Some s /\ is_awake s = true) ->
  fixed_ok (World p' ws' ads' m' (destroy w) fr' ad' (taken w) (executed w)).
Proof.
  intros [Ht Hw Hl Ha Hm Hj Haw] Ht' Hl' Hd' Hs Hm' Haw'.
  assert (forall t, workers w !! t = Some W_exit -> ws' !! t = Some W_exit) as Hkeep.
  { intros t Hte. destruct (Forall2_lookup_l _ _ _ _ _ Hs Hte) as (s' & Ht1 & _ & _ & Hiff). rewrite Ht1. f_equal. naive_solver. }
  constructor; cbn; try done.
  - by rewrite Ht'.
  - by rewrite <- (Forall2_length _ _ _ Hs).
  - by rewrite Hl'.
  - rewrite Hd'. intros Hd (t & Hte)%list_elem_of_lookup. destruct (Forall2_lookup_r _ _ _ _ _ Hs Hte) as (s & Ht1 & _ & _ & Hiff).
    apply (Ha Hd), list_elem_of_lookup. exists t. rewrite Ht1. f_equal. naive_solver.
  - destruct (destroy w); try done; [intros t Hti; by apply Hkeep, Hj|..]; apply Forall_lookup; intros t s' Hte;
      (destruct (Forall2_lookup_r _ _ _ _ _ Hs Hte) as (s & Ht1 & _ & _ & Hiff); rewrite Forall_lookup in Hj;
       symmetry; apply Hiff; symmetry; by eapply Hj).
Qed.

Lemma fixed_add w j c w' : inv w -> fixed_ok w -> threadpool_add w j c = Some (now_in w') -> fixed_ok w'.
Proof.
  intros Hinv Hfx. unfold threadpool_add. destruct (adders w !! j) as [a|]; [|done]. cbn [mbind option_bind].
  destruct a as [t|t|t|]; try done.
  2:{ intros [= <-]. apply (fixed_same w); [done..|apply similar_all|apply (fx_adjust w Hfx)|apply (fx_awake w Hfx)]. }
  destruct (freed w); [done|]. destruct (lock_free w) eqn:Hlf; [|done]. apply lock_free_spec in Hlf as [Hnb _].
  destruct (_ && _).
  { intros [= <-]. apply (fixed_same w); [done..|apply similar_all|apply (fx_adjust w Hfx)|apply (fx_awake w Hfx)]. }
  unfold add_task. destruct (shutdown (pool w)) eqn:Hdown; [done|].
  destruct (task_queue (pool w) !! queue_rear (pool w)) as [old|]; [|done]. destruct (negb _); [done|].
  destruct (signal (workers w) c) as [ws|] eqn:Hs; [|done]. cbn [mbind option_bind]. intros [= <-].
  apply (fixed_same w); cbn; [done..|by eapply similar_signal|apply (fx_adjust w Hfx)|]. intros _ _ Hpos.
  destruct c as [i|]; cbn in Hs; case_decide as Hc; try done; injection Hs as <-.
  - exists i, W_woken. split; [|done]. apply list_lookup_insert_eq. by eapply lookup_lt_Some.
  - pose proof (fx_alive w Hfx Hdown) as Hne. pose proof (fx_workers w Hfx) as Hlen.
    destruct (workers w) as [|s ws]; [cbn in Hlen; lia|]. exists 0, s. split; [done|]. destruct s; try done; set_solver.
Qed.

Lemma fixed_adjust w c r : inv w -> fixed_ok w -> adjust_thread w c = Some r ->
  match r with now_in w' => fixed_ok w' | undefined => False end.
Proof.
  intros Hinv Hfx. unfold adjust_thread. destruct (freed w) eqn:Hfr.
  { apply bool_decide_eq_true in Hfr. rewrite (inv_joined w Hinv) by (by rewrite Hfr). done. }
  pose proof (fx_adjust w Hfx) as Hm. pose proof (fx_awake w Hfx) as Haw.
  assert (forall m, adjust_fixed m -> fixed_ok (with_adjust w m)) as Hgo.
  { intros m Hm'. apply (fixed_same w); [done..|apply similar_all|done|done]. }
  destruct (adjust w) as [| |q l|q l b|l b|[|n]|] eqn:Hadj; try done; cbn in Hm.
  - intros [= <-]. apply Hgo. by destruct (shutdown (pool w)).
  - destruct (lock_free w); [|done]. intros [= <-]. apply Hgo, (fx_live w Hfx).
  - intros [= <-]. by apply Hgo.
  - rewrite Hm, fixed, Z.ltb_irrefl, andb_false_r. intros [= <-]. by apply Hgo.
  - rewrite Hm, Z.ltb_irrefl, andb_false_r. intros [= <-]. by apply Hgo.
Qed.

Lemma fixed_destroy w r : inv w -> fixed_ok w -> threadpool_destroy w = Some r ->
  match r with now_in w' => fixed_ok w' | undefined => False end.
Proof.
  intros Hinv Hfx. unfold threadpool_destroy. pose proof (fx_live w Hfx) as Hlive. pose proof (fx_joined w Hfx) as Hj.
  pose proof (inv_down w Hinv) as Hdown.
  assert (forall d, d <> D_alive -> destroy w <> D_alive ->
    match d with D_join i => forall t, t < i -> workers w !! t = Some W_exit | D_free | D_done => Forall (eq W_exit) (workers w) | _ => True end ->
    fixed_ok (with_destroy w d)) as Hgo.
  { intros d Hd Hdw Hd'. rewrite bool_decide_true in Hdown by done. destruct Hfx. by constructor. }
  destruct (destroy w) as [| |i|i| |] eqn:Hdw; try done.
  - intros [= <-]. destruct Hfx as [Ht Hw Hl Ha Hm Hj' Haw]. by constructor.
  - destruct (adjust w); try done. intros [= <-]. by apply Hgo.
  - destruct (_ <? _)%Z; intros [= <-].
    + assert (fixed_ok (with_workers w (woken <$> workers w))) as Hfx'.
      { apply (fixed_same w); [done..|apply similar_woken|apply (fx_adjust w Hfx)|]. rewrite Hdown. done. }
      destruct Hfx'. by constructor.
    + apply Hgo; try done. lia.
  - destruct (_ <? _)%Z eqn:Hlt.
    + apply Z.ltb_lt in Hlt. rewrite (fx_threads w Hfx), list_lookup_fmap, lookup_seq_lt by lia. cbn.
      destruct (decide (workers w !! i = Some W_exit)) as [Hx|]; [|done]. intros [= <-]. apply Hgo; try done. intros t Ht.
      destruct (decide (t = i)) as [->|Hne]; [done|apply Hj; lia].
    + apply Z.ltb_ge in Hlt. intros [= <-]. apply Hgo; try done. apply Forall_lookup. intros t s Ht.
      pose proof (lookup_lt_Some _ _ _ Ht) as Hlt'. rewrite (fx_workers w Hfx) in Hlt'. rewrite Hj in Ht by lia. by injection Ht.
  - destruct (lock_free w); [|done]. cbn. intros [= <-]. by apply Hgo.
Qed.

(** In a pool of a fixed size only a caller of [threadpool_add] can meet
    undefined behaviour, if no argument is misused. *)
Lemma fixed_step w e r : inv w -> fixed_ok w -> step w e = Some r ->
  match r with now_in w' => fixed_ok w' | undefined => misuse w e \/ exists j c, e = adder_runs j c end.
Proof.
  intros Hinv Hfx. pose proof (fx_adjust w Hfx) as Hm. pose proof (fx_awake w Hfx) as Haw.
  destruct e as [i|t|j c|c| |i|j]; cbn [step]; intros Hs.
  - pose proof (fixed_thread w i r Hinv Hfx Hs). destruct r; [done|by left].
  - injection Hs as <-. apply (fixed_same w); [done..|apply similar_all|done|done].
  - destruct r as [w'|]; [by eapply fixed_add|right; by eexists _, _].
  - pose proof (fixed_adjust w c r Hinv Hfx Hs). by destruct r.
  - pose proof (fixed_destroy w r Hinv Hfx Hs). by destruct r.
  - case_decide as Hi; [|done]. injection Hs as <-. eapply fixed_worker; try done. by left.
  - destruct (adders w !! j) as [[]|]; try done. injection Hs as <-. apply (fixed_same w); [done..|apply similar_all|done|done].
Qed.

Lemma fixed_run w es w' : inv w -> fixed_ok w -> run w es = Some (now_in w') -> inv w' /\ fixed_ok w'.
Proof.
  revert w. induction es as [|e es IH]; intros w Hinv Hfx; cbn [run]; [by intros [= <-]|].
  destruct (step w e) as [r1|] eqn:Hs; [|done]. cbn [mbind option_bind].
  pose proof (cpool_step_inv w e r1 Hinv Hg Hs) as Hr1. pose proof (fixed_step w e r1 Hinv Hfx Hs) as Hf1.
  destruct r1 as [w1|]; [|done]. by apply IH.
Qed.

Lemma created_fixed malloc init_ok exits w0 : threadpool_create malloc init_ok garbage exits = created w0 -> fixed_ok w0.
Proof.
  unfold threadpool_create. do 4 (case_match; [done|]). destruct (_ <? _)%Z; [done|].
  intros [= <-]. constructor; cbn; try done.
  - rewrite <- fixed, Nat.sub_diag. apply app_nil_r.
  - apply length_replicate.
  - intros _ [? _]%elem_of_replicate. done.
Qed.

(** *** Shutting down *)

Definition worker_work (s : worker) : nat :=
  match s with W_exit => 0 | W_lock | W_woken => 1 | W_wait | W_run _ => 2 | W_blocking | W_task _ => 3 end.
Definition adder_work (a : adder) : nat := match a with P_blocking _ => 2 | P_wait _ => 1 | _ => 0 end.
Definition adjust_work (m : adjuster) : nat :=
  match m with
  | M_exit | M_signal _ => 0 | M_head => 1 | M_grown _ _ => 2 | M_busy _ _ _ => 3 | M_counted _ _ => 4 | M_sleep => 5
  end.
Definition destroy_work (n : nat) (d : destroyer) : nat :=
  match d with
  | D_done => 0 | D_free => 1 | D_join i => 2 + (n - i) | D_broadcast i => n + 3 + (n - i) | D_join_adjuster => 2 * n + 4
  | D_alive => 2 * n + 5
  end.

(** What is left to do once the pool is shut down. *)
Definition work (w : world) : nat :=
  sum_list (worker_work <$> workers w) + sum_list (adder_work <$> adders w) + adjust_work (adjust w) +
  destroy_work (Z.to_nat min_thr_num) (destroy w).

(** A step that a thread takes of its own. *)
Definition is_own (e : event) : bool :=
  match e with add_called _ | spurious_worker _ | spurious_adder _ => false | _ => true end.

Lemma work_worker w i s s' p' : workers w !! i = Some s ->
  work (World p' (<[i := s']> (workers w)) (adders w) (adjust w) (destroy w) (frees w) (added w) (taken w) (executed w)) + worker_work s
  = work w + worker_work s'.
Proof. intros Hi. unfold work. cbn. pose proof (weight_insert worker_work _ _ _ s' Hi). lia. Qed.

Lemma woken_work ws : sum_list (worker_work <$> (woken <$> ws)) <= sum_list (worker_work <$> ws).
Proof.
  rewrite <- list_fmap_compose. apply weight_le. by intros []; cbn; lia.
Qed.

(** Once the pool is shut down, every step that is not a new call uses up some
    of the work left. *)
Lemma shutdown_step w e w' : inv w -> fixed_ok w -> shutdown (pool w) = true -> step w e = Some (now_in w') ->
  work w' + (if is_call e then 0 else 1) <= work w.
Proof.
  intros Hinv Hfx Hdown. pose proof (fx_adjust w Hfx) as Hm. pose proof (fx_live w Hfx) as Hlive.
  destruct e as [i|t|j c|c| |i|j]; cbn [step is_call].
  - unfold threadpool_thread. destruct (workers w !! i) as [s|] eqn:Hi; [|done]. cbn [mbind option_bind].
    assert (forall p', worker_work s <> 0 -> with_worker (with_pool w p') i W_exit = w' -> work w' + 1 <= work w) as Hexit.
    { intros p' Hpos <-. pose proof (work_worker w i s W_exit p' Hi) as H. cbn in H |- *. lia. }
    unfold after_wait, take_task. cbn [live_thr_num set_wait_exit pool with_pool shutdown].
    rewrite Hdown, Hlive, Z.ltb_irrefl, !andb_false_r.
    destruct s as [| | | |t|t|], (freed w); try done; try (destruct (lock_free w); [|done]); try (destruct (negb _); [done|]); cbn [work].
    + intros [= H]. by apply (Hexit (pool w)).
    + intros [= <-]. pose proof (work_worker w i W_blocking W_wait (pool w) Hi) as H. cbn in H |- *. lia.
    + destruct (_ <? _)%Z; intros [= H]; [by eapply Hexit|by apply (Hexit (pool w))].
    + intros [= <-]. pose proof (work_worker w i (W_task t) (W_run t) (set_busy (pool w) (busy_thr_num (pool w) + 1)) Hi) as H. cbn in H |- *. lia.
    + intros [= <-]. pose proof (weight_insert worker_work _ _ _ W_lock Hi) as H. unfold work. cbn in H |- *. lia.
  - intros [= <-]. unfold work. cbn. rewrite fmap_app, (sum_list_with_app id). cbn. lia.
  - unfold threadpool_add. destruct (adders w !! j) as [a|] eqn:Hj; [|done]. cbn [mbind option_bind]. destruct a as [t|t|t|]; try done.
    + destruct (freed w); [done|]. destruct (lock_free w); [|done]. unfold add_task. rewrite Hdown, andb_false_r. done.
    + intros [= <-]. pose proof (weight_insert adder_work _ _ _ (P_wait t) Hj) as H. unfold work. cbn in H |- *. lia.
  - unfold adjust_thread. destruct (freed w); [by destruct (adjust w)|].
    assert (forall m, adjust_work m < adjust_work (adjust w) -> Some (now_in (with_adjust w m)) = Some (now_in w') -> work w' + 1 <= work w) as Hgo.
    { intros m Hlt [= <-]. unfold work. cbn. lia. }
    destruct (adjust w) as [| |q l|q l b|l b|[|n]|] eqn:Hadj; try done; rewrite ?Hdown; cbn in Hm.
    + apply Hgo. cbn. lia.
    + destruct (lock_free w); [|done]. apply Hgo. cbn. lia.
    + apply Hgo. cbn. lia.
    + rewrite Hm, fixed, Z.ltb_irrefl, andb_false_r. apply Hgo. cbn. lia.
    + rewrite Hm, Z.ltb_irrefl, andb_false_r. apply Hgo. cbn. lia.
  - unfold threadpool_destroy. rewrite Hlive.
    assert (forall d, destroy_work (Z.to_nat min_thr_num) d < destroy_work (Z.to_nat min_thr_num) (destroy w) ->
      Some (now_in (with_destroy w d)) = Some (now_in w') -> work w' + 1 <= work w) as Hgo.
    { intros d Hlt [= <-]. unfold work. cbn. lia. }
    destruct (destroy w) as [| |i|i| |] eqn:Hdw; try done.
    + intros [= <-]. unfold work. cbn. rewrite Hdw. cbn. lia.
    + destruct (adjust w); try done. apply Hgo. cbn. lia.
    + destruct (_ <? _)%Z eqn:Hlt; [apply Z.ltb_lt in Hlt|apply Z.ltb_ge in Hlt].
      * intros [= <-]. pose proof (woken_work (workers w)). unfold work. cbn [workers adders adjust destroy with_destroy with_workers].
        rewrite Hdw. cbn [destroy_work]. lia.
      * apply Hgo. cbn [destroy_work]. lia.
    + destruct (_ <? _)%Z eqn:Hlt; [apply Z.ltb_lt in Hlt|apply Z.ltb_ge in Hlt].
      * destruct (threads (pool w) !! i) as [[t|]|]; try done. destruct (decide _); [|done]. apply Hgo. cbn [destroy_work]. lia.
      * apply Hgo. cbn [destroy_work]. lia.
    + destruct (lock_free w); [|done]. cbn. apply Hgo. cbn. lia.
  - destruct (decide _) as [Hi|]; [|done]. intros [= <-]. pose proof (work_worker w i W_wait W_woken (pool w) Hi) as H. cbn in H |- *. lia.
  - destruct (adders w !! j) as [a|] eqn:Hj; [|done]. destruct a as [t|t|t|]; try done. intros [= <-].
    pose proof (weight_insert adder_work _ _ _ (P_lock t) Hj) as H. unfold work. cbn in H |- *. lia.
Qed.

Lemma step_down w e w' : inv w -> shutdown (pool w) = true -> step w e = Some (now_in w') -> shutdown (pool w') = true.
Proof.
  intros Hinv Hd Hs. pose proof (cpool_step_inv w e _ Hinv Hg Hs) as Hinv'. cbn in Hinv'.
  rewrite (inv_down w Hinv) in Hd. rewrite (inv_down w' Hinv'). apply bool_decide_eq_true in Hd. apply bool_decide_eq_true.
  destruct (step_destroy w e w' Hs) as [->|Heq]; [|by rewrite Heq]. revert Hs. cbn [step]. unfold threadpool_destroy.
  destruct (destroy w) as [| |i|i| |]; try done.
  - destruct (adjust w); try done. by intros [= <-].
  - destruct (_ <? _)%Z; by intros [= <-].
  - destruct (_ <? _)%Z; [|by intros [= <-]]. destruct (threads (pool w) !! i) as [[t|]|]; try done. destruct (decide _); [|done]. by intros [= <-].
  - destruct (lock_free w); [|done]. cbn. by intros [= <-].
Qed.

Lemma shutdown_run w es w' : inv w -> fixed_ok w -> shutdown (pool w) = true -> run w es = Some (now_in w') ->
  work w' + length (filter (fun e => is_call e = false) es) <= work w.
Proof.
  revert w. induction es as [|e es IH]; intros w Hinv Hfx Hd; cbn [run]; [intros [= <-]; cbn; lia|].
  destruct (step w e) as [r1|] eqn:Hs; [|done]. cbn [mbind option_bind].
  pose proof (cpool_step_inv w e r1 Hinv Hg Hs) as Hr1. pose proof (fixed_step w e r1 Hinv Hfx Hs) as Hf1.
  destruct r1 as [w1|]; [|done]. intros Hrun. pose proof (shutdown_step w e w1 Hinv Hfx Hd Hs) as Hw.
  pose proof (IH w1 Hr1 Hf1 (step_down w e w1 Hinv Hd Hs) Hrun) as Hr. rewrite filter_cons.
  destruct (is_call e); case_decide; try done; cbn [length]; lia.
Qed.

(** Who can go on: a thread that holds the mutex, *)
Definition can_go_on (w : world) : Prop := exists e r, is_own e = true /\ step w e = Some r /\ (r = undefined -> misuse w e).

Lemma holder_progress w : freed w = false -> lock_free w = false -> can_go_on w.
Proof.
  intros Hnf [Hb|Hb]%andb_false_iff.
  - apply bool_decide_eq_false, dec_stable, list_elem_of_lookup in Hb as [i Hi].
    exists (worker_runs i). eexists. split; [done|]. cbn [step]. unfold threadpool_thread. rewrite Hi, Hnf. done.
  - apply negb_false_iff, existsb_exists in Hb as (a & Ha & Hh). apply list_elem_of_In, list_elem_of_lookup in Ha as [j Hj].
    destruct a as [t|t|t|]; try done. exists (adder_runs j None). eexists. split; [done|].
    cbn [step]. unfold threadpool_add. by rewrite Hj.
Qed.

Lemma some_signal ws : exists c ws', signal ws c = Some ws'.
Proof.
  destruct (decide (W_wait ∈ ws)) as [Hin|Hin].
  - apply list_elem_of_lookup in Hin as [i Hi]. exists (Some i). cbn. rewrite decide_True by done. by eexists.
  - exists None. cbn. rewrite decide_False by done. by eexists.
Qed.

(** the adjuster, until it has ended, *)
Lemma adjust_progress w : freed w = false -> lock_free w = true -> adjust w <> M_exit -> can_go_on w.
Proof.
  intros Hnf Hlf Hx. destruct (some_signal (workers w)) as (c & ws & Hs).
  cut (exists w', adjust_thread w c = Some (now_in w')); [intros [w' Hw']; by exists (adjuster_runs c), (now_in w')|].
  unfold adjust_thread. rewrite Hnf, Hlf. destruct (adjust w) as [| |q l|q l b|l b|[|n]|]; try done; try by eexists.
  - destruct (_ && _); by eexists.
  - destruct (_ && _); by eexists.
  - rewrite Hs. cbn. by eexists.
Qed.

(** a worker that does not sleep, *)
Lemma worker_progress w i s :
  inv w -> fixed_ok w -> freed w = false -> lock_free w = true -> workers w !! i = Some s -> s <> W_wait -> s <> W_exit -> can_go_on w.
Proof.
  intros Hinv Hfx Hnf Hlf Hs Hnw Hnx.
  cut (exists r, threadpool_thread w i = Some r).
  { intros [r Hr]. pose proof (fixed_thread w i r Hinv Hfx Hr) as Ht. exists (worker_runs i), r. split_and!; [done|exact Hr|].
    by intros ->. }
  unfold threadpool_thread. rewrite Hs, Hnf, Hlf. cbn [mbind option_bind].
  destruct s; try done; try destruct (negb _); by eexists.
Qed.

(** and [threadpool_destroy], unless it waits for a worker that sleeps. *)
Lemma shutdown_progress w : inv w -> fixed_ok w -> shutdown (pool w) = true ->
  destroy w = D_done \/ (exists i, destroy w = D_join i /\ workers w !! i = Some W_wait) \/ can_go_on w.
Proof.
  intros Hinv Hfx Hd. pose proof (fx_live w Hfx) as Hlive.
  destruct (decide (destroy w = D_done)) as [|Hnd]; [by left|]. right.
  assert (freed w = false) as Hnf by (by apply bool_decide_eq_false).
  destruct (lock_free w) eqn:Hlf; [|right; by apply holder_progress].
  cut ((exists w', threadpool_destroy w = Some (now_in w')) \/ (exists i, destroy w = D_join i /\ workers w !! i = Some W_wait) \/ can_go_on w).
  { intros [[w' Hw']|H]; [right; by exists destroy_runs, (now_in w')|done]. }
  unfold threadpool_destroy. rewrite (inv_down w Hinv) in Hd. apply bool_decide_eq_true in Hd.
  destruct (destroy w) as [| |i|i| |] eqn:Hdw; try done.
  - destruct (decide (adjust w = M_exit)) as [->|Hx]; [left; by eexists|right; right; by apply adjust_progress].
  - left. destruct (_ <? _)%Z; by eexists.
  - rewrite Hlive. destruct (_ <? _)%Z eqn:Hlt; [apply Z.ltb_lt in Hlt|left; by eexists].
    rewrite (fx_threads w Hfx), list_lookup_fmap, lookup_seq_lt by lia. cbn.
    assert (i < length (workers w)) as [s Hs]%lookup_lt_is_Some by (rewrite (fx_workers w Hfx); lia).
    destruct (decide (s = W_wait)) as [->|Hnw]; [right; left; by exists i|].
    destruct (decide (s = W_exit)) as [->|Hnx]; [|right; right; by eapply worker_progress].
    left. rewrite decide_True by done. by eexists.
  - left. rewrite Hlf. by eexists.
Qed.

Lemma work_bound w : work w <=
  3 * length (workers w) + 2 * length (adders w) + adjust_work (adjust w) + destroy_work (Z.to_nat min_thr_num) (destroy w).
Proof.
  unfold work. pose proof (weight_bound worker_work 3 (workers w) ltac:(by intros []; cbn; lia)).
  pose proof (weight_bound adder_work 2 (adders w) ltac:(by intros []; cbn; lia)). lia.
Qed.
End fixed.

(** a pool that cannot grow ([min_thr_num] is [max_thr_num]) keeps its
    promises. Where no argument is misused, only a caller of [threadpool_add] that
    comes after [threadpool_destroy] meets undefined behaviour; when the memory of the pool
    is freed every worker has ended; and a task that waits never waits in vain:
    until the pool is destroyed some worker is awake that will look at the ring.
    None of this holds for the pools that the program creates: see [grown_uaf]
    and [task_stranded]. *)
Theorem cpool_fixed malloc init_ok exits w0 es w :
  min_thr_num = max_thr_num -> (0 <= min_thr_num)%Z -> length garbage = queue_max_size ->
  threadpool_create malloc init_ok garbage exits = created w0 -> run w0 es = Some (now_in w) ->
  (forall e, step w e = Some undefined -> misuse w e \/ (destroy w <> D_alive /\ exists j c, e = adder_runs j c)) /\
  (destroy w = D_free \/ destroy w = D_done -> Forall (eq W_exit) (workers w)) /\
  (destroy w = D_alive -> (0 < min_thr_num)%Z -> queue_size (pool w) <> 0 ->
     exists i s, workers w !! i = Some s /\ is_awake s = true).
Proof.
  intros Hfix Hmin Hg Hc Hrun.
  destruct (fixed_run Hfix Hmin Hg w0 es w (created_inv _ _ _ _ Hmin Hg Hc) (created_fixed Hfix _ _ _ _ Hc) Hrun) as [Hinv Hfx].
  split_and!.
  - intros e Hs. destruct (cpool_step_inv w e _ Hinv Hg Hs) as [Hd|]; [|by left].
    destruct (fixed_step Hfix Hmin Hg w e undefined Hinv Hfx Hs) as [|He]; [by left|right]. split; [|done].
    rewrite (inv_down w Hinv) in Hd. by apply bool_decide_eq_true in Hd.
  - intros Hd. pose proof (fx_joined w Hfx) as Hj. by destruct Hd as [Hd|Hd]; rewrite Hd in Hj.
  - intros Hd Hpos Hsz. apply (fx_awake w Hfx); [|done..]. by rewrite (inv_down w Hinv), Hd.
Qed.

(** destroying a pool of a fixed size ends. Once [threadpool_destroy] has
    been called the threads make a bounded number of steps, whatever is woken
    or called meanwhile, and some thread can make a step, or misuse an argument, until it has returned
    or joins a worker that sleeps and missed the broadcasts. The flag is set
    without the mutex, so that can happen: see [lost_broadcast]. *)
Theorem cpool_shutdown malloc init_ok exits w0 es w :
  min_thr_num = max_thr_num -> (0 <= min_thr_num)%Z -> length garbage = queue_max_size ->
  threadpool_create malloc init_ok garbage exits = created w0 -> run w0 es = Some (now_in w) -> destroy w <> D_alive ->
  (forall es' w', run w es' = Some (now_in w') ->
     length (filter (fun e => is_call e = false) es') <= 5 * Z.to_nat min_thr_num + 2 * length (adders w) + 9) /\
  (destroy w = D_done \/ (exists i, destroy w = D_join i /\ workers w !! i = Some W_wait) \/ can_go_on w).
Proof.
  intros Hfix Hmin Hg Hc Hrun Hd.
  destruct (fixed_run Hfix Hmin Hg w0 es w (created_inv _ _ _ _ Hmin Hg Hc) (created_fixed Hfix _ _ _ _ Hc) Hrun) as [Hinv Hfx].
  assert (shutdown (pool w) = true) as Hdown by (by rewrite (inv_down w Hinv), bool_decide_true).
  split; [|by eapply shutdown_progress].
  intros es' w' Hrun'. pose proof (shutdown_run Hfix Hmin Hg w es' w' Hinv Hfx Hdown Hrun') as Hle.
  pose proof (work_bound Hg w) as Hb. rewrite (fx_workers w Hfx) in Hb.
  assert (adjust_work (adjust w) <= 5) by (destruct (adjust w); cbn; lia).
  assert (destroy_work (Z.to_nat min_thr_num) (destroy w) <= 2 * Z.to_nat min_thr_num + 4) by (destruct (destroy w); cbn; [done|lia..]).
  lia.
Qed.
End threadpool.

(** ** Runs on concrete pools *)

(** An allocation that succeeds; arguments that are blocks of [malloc]. *)
Definition succeeds : nat -> bool := fun _ => true.
Definition blocks : nat -> bool := fun _ => true.

(** A pool created with zeroed memory. *)
Definition fresh_pool (min max : Z) (size : nat) : world :=
  match threadpool_create min max succeeds true (replicate size (Task 0 None)) 0 with
  | created w => w
  | _ => World (Pool [] [] 0 0 0 0 0 0 true) [] [] M_exit D_done [] [] [] []
  end.

(** The [j]-th call adds a task while no worker sleeps, or wakes [c]. *)
Definition add (c : option nat) (j : nat) : list event := [add_called (Task j (Some j)); adder_runs j c].
Definition takes (i : nat) : list event := [worker_runs i; worker_runs i].
Definition sleeps (i : nat) : list event := [worker_runs i; worker_runs i].
Definition adjusts : list event := replicate 5 (adjuster_runs None).

(** The pool of [main], grown from three threads to thirteen by ten tasks. *)
Definition ten_tasks : list event := mjoin (add None <$> seq 0 10) ++ adjusts.

(** All ten are done and all threads sleep; ten are told to end, those in the
    first slots. [threadpool_destroy] joins the first three slots and frees the
    pool that the other three threads still use. *)
Definition joins_the_wrong : list event :=
  ten_tasks ++ mjoin ((fun i => takes i ++ [worker_runs i]) <$> seq 0 10) ++ mjoin (sleeps <$> seq 0 13) ++ adjusts ++
  ((fun i => adjuster_runs (Some i)) <$> seq 0 10) ++ [adjuster_runs None] ++ (worker_runs <$> seq 0 10) ++
  [destroy_runs; adjuster_runs None] ++ replicate 10 destroy_runs.

(** Evaluates the run of a goal and what is said of the world it ends in. *)
Ltac by_running :=
  intros []; match goal with |- exists w, ?r = Some (now_in w) /\ _ =>
    destruct r as [[?|]|] eqn:Hr; vm_compute in Hr; try discriminate Hr; injection Hr as <-
  end; eexists; (split; [reflexivity|]); split_and!; try (vm_compute; reflexivity);
  apply (bool_decide_unpack _); vm_compute; exact I.

Example grown_uaf :
  forall esrch, exists w, run 3 100 100 esrch blocks (fresh_pool 3 100 100) joins_the_wrong = Some (now_in w) /\
    destroy w = D_done /\ workers w !! 10 = Some W_woken /\ step 3 100 100 esrch blocks w (worker_runs 10) = Some undefined.
Proof. by_running. Qed.

(** Four threads are busy when nine sleeping ones are told to end; one order is
    left over, and the worker that the next task wakes obeys it. Three threads
    sleep, and the adjuster sends no more signals to three. *)
Definition strands : list event :=
  ten_tasks ++ mjoin (takes <$> seq 0 4) ++ mjoin ((fun i => takes i ++ [worker_runs i]) <$> seq 4 6) ++
  mjoin (sleeps <$> seq 4 9) ++ adjusts ++ ((fun i => adjuster_runs (Some i)) <$> seq 4 9) ++ [adjuster_runs None; adjuster_runs None] ++
  (worker_runs <$> seq 4 9) ++ (worker_runs <$> seq 0 4) ++ mjoin (sleeps <$> seq 0 4) ++ add (Some 0) 10 ++ [worker_runs 0].

Example task_stranded :
  forall esrch, exists w, run 3 100 100 esrch blocks (fresh_pool 3 100 100) strands = Some (now_in w) /\
    queued 100 w = [Task 10 (Some 10)] /\ live_thr_num (pool w) = 3%Z /\ adjust w = M_head /\
    Forall (fun s => s = W_wait \/ s = W_exit) (workers w).
Proof. by_running. Qed.

(** The worker has found the ring empty and the flag clear when the flag is set
    and broadcast; then it sleeps, and is joined for ever. *)
Example lost_broadcast :
  forall esrch, exists w, run 1 1 1 esrch blocks (fresh_pool 1 1 1)
      [worker_runs 0; destroy_runs; adjuster_runs None; destroy_runs; destroy_runs; destroy_runs; worker_runs 0] = Some (now_in w) /\
    destroy w = D_join 0 /\ workers w = [W_wait] /\ step 1 1 1 esrch blocks w destroy_runs = None.
Proof. by_running. Qed.

(** The argument of a running task is freed when its cell is used again, and the
    task still uses it. *)
Example argument_freed :
  forall esrch, exists w, run 1 1 1 esrch blocks (fresh_pool 1 1 1) (add None 0 ++ takes 0 ++ add None 1) = Some (now_in w) /\
    workers w = [W_run (Task 0 (Some 0))] /\ frees w = [0] /\ step 1 1 1 esrch blocks w (worker_runs 0) = Some undefined.
Proof. by_running. Qed.

(** The first call frees what the memory of the ring holds; a call that comes round
    frees the argument of an earlier one, no block of [malloc] where the caller
    takes it from an array, as [main] does (with fewer tasks than cells). *)
Definition dirty_pool (old : option nat) : world :=
  match threadpool_create 1 2 succeeds true [Task 9 old; Task 9 None] 5 with created w => w | _ => fresh_pool 0 0 0 end.

Example garbage_freed :
  run 1 2 2 true (fun a => negb (a =? 90)%nat) (dirty_pool (Some 90)) (add None 0) = Some undefined.
Proof. reflexivity. Qed.

Example array_freed :
  run 3 100 1 true (fun _ => false) (fresh_pool 3 100 1) (add None 0 ++ takes 0 ++ [worker_runs 0] ++ add None 1) = Some undefined.
Proof. reflexivity. Qed.

(** When the second allocation fails, a field that was never assigned is freed. *)
Example failed_creation : threadpool_create 3 100 (fun i => negb (i =? 1)%nat) true [] 0 = create_undefined.
Proof. reflexivity. Qed.

(** *** Witnesses *)

(** A ring that goes round after its tasks have run. *)
Definition goes_round : list event :=
  add None 0 ++ add None 1 ++ takes 0 ++ [worker_runs 0] ++ add None 2 ++ [add_called (Task 3 None); adder_runs 3 None; adder_runs 3 None].

Lemma cpool_correct_witness :
  exists w, run 1 2 2 true blocks (dirty_pool None) goes_round = Some (now_in w) /\
    queued 2 w = [Task 1 (Some 1); Task 2 (Some 2)] /\ frees w = [0] /\
    added w = taken w ++ queued 2 w.
Proof.
  destruct (run 1 2 2 true blocks (dirty_pool None) goes_round) as [[w|]|] eqn:Hr; [|vm_compute in Hr; discriminate Hr..].
  exists w. split; [reflexivity|].
  assert (queued 2 w = [Task 1 (Some 1); Task 2 (Some 2)] /\ frees w = [0]) as [H1 H2].
  { vm_compute in Hr. injection Hr as <-. split; reflexivity. }
  split; [exact H1|]. split; [exact H2|].
  apply (cpool_correct 1 2 2 true blocks [Task 9 None; Task 9 None] succeeds true 5 (dirty_pool None) goes_round);
    [lia|reflexivity|reflexivity|exact Hr].
Defined.

(** A pool of two workers, destroyed while one of them runs a task. *)
Definition ends_well : list event :=
  sleeps 1 ++ add (Some 1) 0 ++ takes 0 ++ [destroy_runs; adjuster_runs None; destroy_runs].
Definition ends_well_rest : list event :=
  replicate 3 destroy_runs ++ [worker_runs 0; worker_runs 0; worker_runs 1] ++ replicate 4 destroy_runs.

Lemma cpool_fixed_witness :
  exists w, run 2 2 4 true blocks (fresh_pool 2 2 4) (ends_well ++ ends_well_rest) = Some (now_in w) /\
    destroy w = D_done /\ Forall (eq W_exit) (workers w).
Proof.
  destruct (run 2 2 4 true blocks (fresh_pool 2 2 4) (ends_well ++ ends_well_rest)) as [[w|]|] eqn:Hr; [|vm_compute in Hr; discriminate Hr..].
  exists w. split; [reflexivity|]. assert (destroy w = D_done) as Hd by (vm_compute in Hr; injection Hr as <-; reflexivity).
  split; [exact Hd|].
  apply (cpool_fixed 2 2 4 true blocks (replicate 4 (Task 0 None)) succeeds true 0 (fresh_pool 2 2 4) (ends_well ++ ends_well_rest) w);
    [reflexivity|lia|reflexivity|reflexivity|exact Hr|right; exact Hd].
Defined.

Lemma cpool_shutdown_witness :
  exists w, run 2 2 4 true blocks (fresh_pool 2 2 4) ends_well = Some (now_in w) /\
    forall es' w', run 2 2 4 true blocks w es' = Some (now_in w') -> length (filter (fun e => is_call e = false) es') <= 21.
Proof.
  destruct (run 2 2 4 true blocks (fresh_pool 2 2 4) ends_well) as [[w|]|] eqn:Hr; [|vm_compute in Hr; discriminate Hr..].
  exists w. split; [reflexivity|].
  assert (destroy w <> D_alive /\ length (adders w) = 1) as [Hd Hl] by (vm_compute in Hr; injection Hr as <-; split; [discriminate|reflexivity]).
  replace 21 with (5 * Z.to_nat 2 + 2 * length (adders w) + 9) by (rewrite Hl; reflexivity).
  apply (cpool_shutdown 2 2 4 true blocks (replicate 4 (Task 0 None)) succeeds true 0 (fresh_pool 2 2 4) ends_well w);
    [reflexivity|lia|reflexivity|reflexivity|exact Hr|exact Hd].
Defined.
