(* ===== verification/FileCopy.v ===== *)
(** * FileCopy: copying a file with several threads or processes

    Models [file_cp/mult_thread_cp.c], which divides a mapped file among threads
    that copy byte by byte while another thread draws a progress bar, and
    [file_cp/mult_process_cp.c], which divides it among child processes.

    A mapped file is the bytes it holds; opening files, allocating less than all
    memory and creating threads succeed. A thread copies one byte in a step; the
    thread that draws reads one counter in a step. *)
From S2P Require Import Prelude.
#[local] Open Scope Z_scope.

(** ** Threads *)

Definition ITEMS : Z := 50.

Record arg_t := Arg { off : Z; size : Z; t_no : nat }.

(** The loop over [arr] in [main]; [None] where [off], an [int], overflows. *)
Fixpoint fill_args (n i : nat) (off len : Z) : option (list arg_t) :=
  match n with
  | O => Some []
  | S n' => if int32 (off + len) =? off + len then rest ← fill_args n' (S i) (off + len) len; Some (Arg off len i :: rest) else None
  end.

(** The tasks of the threads; [len] and the last [size] are [int]s. *)
Definition build_args (st_size : Z) (n : nat) : option (list arg_t) :=
  let len := int32 (st_size / Z.of_nat n) in
  arr ← fill_args n 0 0 len;
  Some (alter (fun a => Arg (off a) (int32 (size a + st_size mod Z.of_nat n)) (t_no a)) (n - 1)%nat arr).

(** [display]: has added the counters of [i] threads and drawn [draw] marks, or
    has ended. *)
Inductive display := D_sum (i : nat) (sum draw : Z) | D_done (draw : Z).

Record world := World {
  d : str;                   (* the mapped copy *)
  progress : list nat;       (* [i] of each thread *)
  done : list Z;
  disp : display }.

Inductive effect := now_in (w : world) | undefined.

Section copying.
Variable s : str.            (* the mapped source *)
Variable arr : list arg_t.

(** One round of the loop of thread [t]. *)
Definition tfn (w : world) (t : nat) : option effect :=
  a ← arr !! t; i ← progress w !! t;
  if Z.of_nat i <? size a then
    match s !! Z.to_nat (off a + Z.of_nat i), d w !! Z.to_nat (off a + Z.of_nat i) with
    | Some c, Some _ => Some (now_in
        (World (<[Z.to_nat (off a + Z.of_nat i) := c]> (d w)) (<[t := S i]> (progress w)) (alter Z.succ (t_no a) (done w)) (disp w)))
    | _, _ => Some undefined
    end
  else None.

(** [display], to its next counter or its next test; a division by an
    [interval] of zero has no result. *)
Definition display_step (w : world) : option effect :=
  let interval := Z.of_nat (length s) / (ITEMS - 1) in
  match disp w with
  | D_done _ => None
  | D_sum i sum draw =>
      match done w !! i with
      | Some x => Some (now_in (World (d w) (progress w) (done w) (D_sum (S i) (sum + x) draw)))
      | None =>
          if interval =? 0 then Some undefined
          else
            let draw := Z.max draw (sum / interval + 1) in
            Some (now_in (World (d w) (progress w) (done w) (if draw <? ITEMS then D_sum 0 0 draw else D_done draw)))
      end
  end.

Inductive event := copies (t : nat) | displays.

Definition step (w : world) (e : event) : option effect :=
  match e with copies t => tfn w t | displays => display_step w end.

Fixpoint run (w : world) (es : list event) : option effect :=
  match es with
  | [] => Some (now_in w)
  | e :: es' => r ← step w e; match r with now_in w' => run w' es' | undefined => Some undefined end
  end.
End copying.

(** [main] up to the threads: it leaves the process, with what the copy then
    holds, has no result, or runs the threads. *)
Inductive start := exits (dst : str) | start_undefined | copying (arr : list arg_t) (w : world).

Definition A_CHAR : ascii := "a"%char.

(** [lseek] and [write]; [lseek] to before the start fails. *)
Definition extended (st_size : nat) : str := replicate (st_size - 1) NUL ++ [A_CHAR].

Definition thread_main (n : Z) (src : str) : start :=
  let dst := extended (length src) in
  if (length src =? 0)%nat then exits dst          (* [mmap] of no bytes *)
  else if n <? 0 then exits dst                    (* [calloc] of too many *)
  else if n =? 0 then start_undefined
  else let n := Z.to_nat n in
       match build_args (Z.of_nat (length src)) n with
       | Some arr => copying arr (World dst (replicate n 0%nat) (replicate n 0) (D_sum 0 0 0))
       | None => start_undefined
       end.

(** ** Processes *)

(** Where child [i] copies, and how many bytes. *)
Definition chunk (n bs modulo i : nat) : nat * nat :=
  if (i =? n - 1)%nat then (i * bs, bs + modulo)%nat
  else if (i =? 0)%nat then (0, bs)%nat
  else (i * bs + 1, bs)%nat.

Definition memcpy (src : str) (off len : nat) (dst : str) : option str :=
  if (off + len <=? length src)%nat && (off + len <=? length dst)%nat
  then Some (take off dst ++ take len (drop off src) ++ drop (off + len) dst) else None.

Inductive copied := copy_is (dst : str) | copy_undefined.

(** The children of [order], those that [fork] created, in the order in which
    they get to their [memcpy]. *)
Fixpoint children (src : str) (n bs modulo : nat) (order : list nat) (dst : str) : copied :=
  match order with
  | [] => copy_is dst
  | i :: order' =>
      let '(o, l) := chunk n bs modulo i in
      match memcpy src o l dst with
      | Some dst' => children src n bs modulo order' dst'
      | None => copy_undefined
      end
  end.

Definition process_main (n : Z) (src : str) (order : list nat) : copied :=
  let len := length src in
  let n := if Z.of_nat len <? n then Z.of_nat len else n in
  let dst := replicate len NUL in                      (* [ftruncate] *)
  if (len =? 0)%nat then copy_is dst                   (* [mmap] of no bytes fails *)
  else if n <=? 0 then copy_undefined
  else let n := Z.to_nat n in
       let bs := (len / n)%nat in
       children src n bs (len mod bs)%nat order dst.

(** ** The tasks *)

(** What the loop gives where nothing overflows. *)
Fixpoint spread (n i : nat) (off len : Z) : list arg_t :=
  match n with
  | O => []
  | S n' => Arg off len i :: spread n' (S i) (off + len) len
  end.
Definition shares (st_size : Z) (n : nat) : list arg_t :=
  let len := int32 (st_size / Z.of_nat n) in
  alter (fun a => Arg (off a) (int32 (size a + st_size mod Z.of_nat n)) (t_no a)) (n - 1)%nat (spread n 0 0 len).

Lemma fill_args_spread n i off len :
  0 <= off -> 0 <= len -> off + Z.of_nat n * len < 2 ^ 31 -> fill_args n i off len = Some (spread n i off len).
Proof.
  revert i off. induction n as [|n IH]; intros i off Ho Hl Hb; cbn [fill_args spread]; [done|].
  rewrite int32_id, Z.eqb_refl by (unfold in_int32; nia). by rewrite IH by nia.
Qed.

Lemma spread_app n m i off len :
  spread (n + m) i off len = spread n i off len ++ spread m (i + n) (off + Z.of_nat n * len) len.
Proof.
  revert i off. induction n as [|n IH]; intros i off; cbn [spread app Nat.add].
  - by rewrite Nat.add_0_r, Z.mul_0_l, Z.add_0_r.
  - rewrite IH. replace (i + S n)%nat with (S i + n)%nat by lia.
    by replace (off + Z.of_nat (S n) * len) with (off + len + Z.of_nat n * len) by lia.
Qed.

Lemma spread_length n i off len : length (spread n i off len) = n.
Proof. revert i off. induction n as [|n IH]; intros i off; cbn; [done|]. by rewrite IH. Qed.

Lemma spread_lookup n i off len k : (k < n)%nat ->
  spread n i off len !! k = Some (Arg (off + Z.of_nat k * len) len (i + k)).
Proof.
  intros Hk. replace n with (k + (1 + (n - k - 1)))%nat by lia. rewrite spread_app, lookup_app_r, spread_length by (by rewrite spread_length).
  rewrite Nat.sub_diag. cbn. done.
Qed.

Section tasks.
Context (st_size : Z) (n : nat) (Hst : 0 <= st_size < 2 ^ 31) (Hn : (0 < n)%nat).

Lemma last_task q : Z.of_nat (n - 1) * q + q = Z.of_nat n * q.
Proof. replace (Z.of_nat (n - 1)) with (Z.of_nat n - 1) by lia. ring. Qed.

Lemma shares_eq :
  shares st_size n = spread (n - 1) 0 0 (st_size / Z.of_nat n) ++
    [Arg (Z.of_nat (n - 1) * (st_size / Z.of_nat n)) (st_size / Z.of_nat n + st_size mod Z.of_nat n) (n - 1)].
Proof.
  assert (0 <= st_size / Z.of_nat n <= st_size) as Hq by (split; [apply Z.div_pos; lia|apply Z.div_le_upper_bound; nia]).
  pose proof (Z.mod_pos_bound st_size (Z.of_nat n) ltac:(lia)) as Hm. pose proof (Z.div_mod st_size (Z.of_nat n) ltac:(lia)) as Heq.
  unfold shares. rewrite (int32_id (_ / _)) by (unfold in_int32; lia).
  replace (spread n 0 0 (st_size / Z.of_nat n)) with (spread (n - 1 + 1) 0 0 (st_size / Z.of_nat n)) by (f_equal; lia).
  rewrite spread_app. cbn [spread].
  replace (n - 1)%nat with (length (spread (n - 1) 0 0 (st_size / Z.of_nat n)) + 0)%nat at 1 by (rewrite spread_length; lia).
  rewrite alter_app_r. cbn. rewrite int32_id; [done|]. unfold in_int32. nia.
Qed.

Lemma build_args_shares : build_args st_size n = Some (shares st_size n).
Proof.
  assert (0 <= st_size / Z.of_nat n <= st_size) as Hq by (split; [apply Z.div_pos; lia|apply Z.div_le_upper_bound; nia]).
  pose proof (Z.mul_div_le st_size (Z.of_nat n) ltac:(lia)).
  unfold build_args, shares. rewrite (int32_id (_ / _)) by (unfold in_int32; lia). by rewrite fill_args_spread by lia.
Qed.

(** A byte belongs to a thread, and no thread goes past the end. *)
Lemma task_of k : (k < Z.to_nat st_size)%nat ->
  exists t a, shares st_size n !! t = Some a /\ off a <= Z.of_nat k < off a + size a.
Proof.
  intros Hk. rewrite shares_eq. set (q := st_size / Z.of_nat n). pose proof (Z.div_mod st_size (Z.of_nat n) ltac:(lia)) as Heq.
  fold q in Heq. destruct (decide (Z.of_nat k < Z.of_nat (n - 1) * q)) as [Hlt|Hge].
  - assert (0 < q) as Hq by nia. pose proof (Z.div_mod (Z.of_nat k) q ltac:(lia)) as Hd. pose proof (Z.mod_pos_bound (Z.of_nat k) q Hq).
    assert (0 <= Z.of_nat k / q) by (apply Z.div_pos; lia). assert (Z.of_nat k / q < Z.of_nat (n - 1)) by (apply Z.div_lt_upper_bound; lia).
    exists (Z.to_nat (Z.of_nat k / q)). eexists. rewrite lookup_app_l by (rewrite spread_length; lia).
    rewrite spread_lookup by lia. split; [done|]. cbn. rewrite Z2Nat.id by done. lia.
  - exists (n - 1)%nat. eexists. rewrite lookup_app_r by (by rewrite spread_length). rewrite spread_length, Nat.sub_diag.
    split; [done|]. cbn. pose proof (last_task q). lia.
Qed.

Lemma task_ok t a : shares st_size n !! t = Some a -> t_no a = t /\ (t < n)%nat /\ 0 <= off a /\ 0 <= size a /\ off a + size a <= st_size.
Proof.
  rewrite shares_eq. set (q := st_size / Z.of_nat n). pose proof (Z.div_mod st_size (Z.of_nat n) ltac:(lia)) as Heq.
  pose proof (Z.mod_pos_bound st_size (Z.of_nat n) ltac:(lia)) as Hm. assert (0 <= q) by (apply Z.div_pos; lia). fold q in Heq.
  intros [Ha|[Hlen Ha]]%lookup_app_Some.
  - pose proof (lookup_lt_Some _ _ _ Ha) as Ht. rewrite spread_length in Ht. rewrite spread_lookup in Ha by done.
    injection Ha as <-. cbn. split_and!; [done|lia|nia|done|nia].
  - rewrite spread_length in *. apply list_lookup_singleton_Some in Ha as [Ht <-]. pose proof (last_task q). cbn. split_and!; [lia|lia|nia|lia|lia].
Qed.

Lemma shares_length : length (shares st_size n) = n.
Proof. rewrite shares_eq, length_app, spread_length. cbn. lia. Qed.

Lemma spread_sizes m i o len : 0 <= len -> sum_list ((fun a => Z.to_nat (size a)) <$> spread m i o len) = (m * Z.to_nat len)%nat.
Proof. intros Hl. revert i o. induction m as [|m IH]; intros i o; [done|]. cbn [spread]. rewrite fmap_cons. cbn [sum_list sum_list_with foldr id size]. rewrite IH. lia. Qed.

Definition sizes (arr : list arg_t) : list nat := (fun a => Z.to_nat (size a)) <$> arr.

Lemma sizes_sum : sum_list (sizes (shares st_size n)) = Z.to_nat st_size.
Proof.
  unfold sizes. rewrite shares_eq, fmap_app. pose proof (Z.div_mod st_size (Z.of_nat n) ltac:(lia)) as Heq.
  assert (0 <= st_size / Z.of_nat n) by (apply Z.div_pos; lia). pose proof (Z.mod_pos_bound st_size (Z.of_nat n) ltac:(lia)).
  pose proof (last_task (st_size / Z.of_nat n)). rewrite (sum_list_with_app id), spread_sizes by done. cbn. nia.
Qed.
End tasks.

(** ** Every interleaving *)

Lemma sum_le l l' : Forall2 le l l' -> (sum_list l <= sum_list l')%nat.
Proof. induction 1 as [|x y l l' Hxy _ IH]; [done|]. cbn [sum_list sum_list_with foldr id]. lia. Qed.

Section runs.
Context (s : str) (n : nat) (Hs : (0 < length s)%nat) (Hbig : Z.of_nat (length s) < 2 ^ 31) (Hn : (0 < n)%nat).

Let arr := shares (Z.of_nat (length s)) n.
Let interval := Z.of_nat (length s) / (ITEMS - 1).

Definition display_ok (p : list nat) (di : display) : Prop :=
  match di with
  | D_sum i sum draw => (i <= n)%nat /\ 0 <= sum <= Z.of_nat (sum_list (take i p)) /\ 0 <= draw < ITEMS
  | D_done draw => ITEMS <= draw <= Z.of_nat (length s) / interval + 1
  end.

Record inv (w : world) : Prop := {
  inv_len : length (d w) = length s;
  inv_done : done w = Z.of_nat <$> progress w;
  inv_limit : Forall2 le (progress w) (sizes arr);
  inv_bytes : forall t a p i, arr !! t = Some a -> progress w !! t = Some p -> (i < p)%nat ->
    d w !! Z.to_nat (off a + Z.of_nat i) = s !! Z.to_nat (off a + Z.of_nat i);
  inv_disp : display_ok (progress w) (disp w) }.

Lemma arr_ok t a : arr !! t = Some a ->
  t_no a = t /\ (t < n)%nat /\ 0 <= off a /\ 0 <= size a /\ off a + size a <= Z.of_nat (length s).
Proof. apply task_ok; lia. Qed.

Lemma sizes_lookup t p : sizes arr !! t = Some p -> exists a, arr !! t = Some a /\ p = Z.to_nat (size a).
Proof. unfold sizes. rewrite list_lookup_fmap. destruct (arr !! t) as [a|]; [|done]. intros [= <-]. by exists a. Qed.

Lemma sum_limit w i : inv w -> (sum_list (take i (progress w)) <= length s)%nat.
Proof.
  intros Hinv. pose proof (sizes_sum (Z.of_nat (length s)) n ltac:(lia) Hn) as Hsum. rewrite Nat2Z.id in Hsum. fold arr in Hsum.
  etrans; [apply sum_le, Forall2_take, (inv_limit w Hinv)|]. rewrite <- Hsum.
  rewrite <- (take_drop i (sizes arr)) at 2. rewrite (sum_list_with_app id). lia.
Qed.

Lemma tfn_inv w t r : inv w -> tfn s arr w t = Some r -> exists w', r = now_in w' /\ inv w'.
Proof.
  intros Hinv. unfold tfn. destruct (arr !! t) as [a|] eqn:Ha; [|done]. cbn [mbind option_bind].
  destruct (progress w !! t) as [i|] eqn:Hi; [|done]. cbn [mbind option_bind]. destruct (_ <? _) eqn:Hlt; [|done]. apply Z.ltb_lt in Hlt.
  destruct (arr_ok t a Ha) as (Ht & Htn & Ho & Hsz & Hend). set (k := Z.to_nat (off a + Z.of_nat i)).
  assert (k < length s)%nat as Hk by (unfold k; lia). destruct (lookup_lt_is_Some_2 s k Hk) as [c Hc]. rewrite Hc.
  assert (k < length (d w))%nat as Hk' by (by rewrite (inv_len w Hinv)). destruct (lookup_lt_is_Some_2 _ _ Hk') as [c' Hc']. rewrite Hc'.
  intros [= <-]. eexists. split; [done|]. destruct Hinv as [Hl Hd Hlim Hb Hdisp].
  assert (Forall2 le (progress w) (<[t := S i]> (progress w))) as Hmono.
  { apply Forall2_lookup. intros j. destruct (decide (j = t)) as [->|Hne].
    - rewrite Hi, list_lookup_insert_eq by (by eapply lookup_lt_Some). constructor. lia.
    - rewrite list_lookup_insert_ne by done. destruct (progress w !! j); constructor. lia. }
  constructor; cbn.
  - by rewrite length_insert.
  - rewrite Hd, Ht, list_fmap_insert. apply list_eq. intros j. destruct (decide (t = j)) as [->|Hne]; [rewrite list_lookup_alter_eq|rewrite list_lookup_alter_ne by done].
    + rewrite list_lookup_insert_eq by (rewrite length_fmap; by eapply lookup_lt_Some).
      rewrite list_lookup_fmap, Hi. cbn. f_equal. lia.
    + by rewrite list_lookup_insert_ne.
  - rewrite <- (list_insert_id (sizes arr) t (Z.to_nat (size a))) by (unfold sizes; by rewrite list_lookup_fmap, Ha).
    apply Forall2_insert; [done|lia].
  - intros t' a' p j Ha' Hp Hj. destruct (decide (Z.to_nat (off a' + Z.of_nat j) = k)) as [->|Hne].
    + by rewrite list_lookup_insert_eq.
    + rewrite list_lookup_insert_ne by done. destruct (decide (t' = t)) as [->|Htt].
      * rewrite list_lookup_insert_eq in Hp by (by eapply lookup_lt_Some). injection Hp as <-. rewrite Ha in Ha'. injection Ha' as <-.
        apply (Hb t a i); [done..|]. assert (j <> i) by (intros ->; by apply Hne). lia.
      * rewrite list_lookup_insert_ne in Hp by done. by apply (Hb t' a' p).
  - destruct (disp w) as [m sum draw|draw]; [|done]. destruct Hdisp as (Hm & Hsum & Hdraw).
    split; [done|]. split; [|done]. split; [lia|].
    etrans; [apply Hsum|]. apply inj_le, sum_le, Forall2_take, Hmono.
Qed.

Lemma display_step_inv w r : ITEMS - 1 <= Z.of_nat (length s) -> length (progress w) = n ->
  inv w -> display_step s w = Some r -> exists w', r = now_in w' /\ inv w'.
Proof.
  intros Hlen Hp Hinv. unfold display_step. fold interval. unfold ITEMS in Hlen.
  assert (0 < interval) as Hint by (apply Z.div_str_pos; unfold ITEMS; lia).
  destruct (disp w) as [i sum draw|draw] eqn:Hdi; [|done]. pose proof (inv_disp w Hinv) as Hok. rewrite Hdi in Hok.
  destruct Hok as (Hi & Hsum & Hdraw). rewrite (inv_done w Hinv), list_lookup_fmap. destruct (progress w !! i) as [x|] eqn:Hx; cbn.
  - intros [= <-]. eexists. split; [done|]. destruct Hinv as [Hl Hd Hlim Hb _]. constructor; cbn; [done..|].
    pose proof (lookup_lt_Some _ _ _ Hx). split; [lia|]. split; [|done]. rewrite (take_S_r _ _ x) by done.
    rewrite (sum_list_with_app id). cbn. lia.
  - rewrite (proj2 (Z.eqb_neq _ _)) by lia. intros [= <-]. eexists. split; [done|].
    pose proof (sum_limit w i Hinv) as Hlimit. destruct Hinv as [Hl Hd Hlim Hb _]. constructor; cbn; [done..|].
    assert (sum / interval <= Z.of_nat (length s) / interval) by (apply Z.div_le_mono; lia).
    assert (0 <= sum / interval) by (apply Z.div_pos; lia).
    assert (49 <= Z.of_nat (length s) / interval).
    { apply Z.div_le_lower_bound; [done|]. unfold interval, ITEMS. pose proof (Z.mul_div_le (Z.of_nat (length s)) (50 - 1) ltac:(lia)). lia. }
    unfold ITEMS in *. destruct (_ <? 50) eqn:Hlt; cbn; [apply Z.ltb_lt in Hlt|apply Z.ltb_ge in Hlt]; unfold ITEMS; lia.
Qed.

Lemma progress_length w : inv w -> length (progress w) = n.
Proof.
  intros Hinv. rewrite (Forall2_length _ _ _ (inv_limit w Hinv)). unfold sizes. rewrite length_fmap. apply shares_length; lia.
Qed.

Lemma step_inv_copy w e r : ITEMS - 1 <= Z.of_nat (length s) -> inv w -> step s arr w e = Some r -> exists w', r = now_in w' /\ inv w'.
Proof.
  intros Hlen Hinv. destruct e as [t|]; cbn [step]; [by apply tfn_inv|]. apply display_step_inv; [done|by apply progress_length|done].
Qed.

Lemma run_inv_copy w es r : ITEMS - 1 <= Z.of_nat (length s) -> inv w -> run s arr w es = Some r -> exists w', r = now_in w' /\ inv w'.
Proof.
  intros Hlen. revert w. induction es as [|e es IH]; intros w Hinv; cbn [run]; [intros [= <-]; by exists w|].
  destruct (step s arr w e) as [r1|] eqn:Hr1; [|done]. cbn [mbind option_bind].
  destruct (step_inv_copy w e r1 Hlen Hinv Hr1) as (w1 & -> & Hinv1). by apply IH.
Qed.

(** *** When the threads have ended *)

Definition all_copied (w : world) : Prop := progress w = sizes arr.

Lemma copied_all w : inv w -> all_copied w -> d w = s.
Proof.
  intros Hinv Hall. apply list_eq. intros k. destruct (decide (k < length s)%nat) as [Hk|Hk].
  - destruct (task_of (Z.of_nat (length s)) n ltac:(lia) Hn k ltac:(lia)) as (t & a & Ha & Hlo). fold arr in Ha.
    destruct (arr_ok t a Ha) as (_ & _ & Ho & _ & _).
    replace k with (Z.to_nat (off a + Z.of_nat (k - Z.to_nat (off a)))) by lia.
    apply (inv_bytes w Hinv t a (Z.to_nat (size a))); [done| |lia]. rewrite Hall. unfold sizes. by rewrite list_lookup_fmap, Ha.
  - rewrite !lookup_ge_None_2; [done|lia|rewrite (inv_len w Hinv); lia].
Qed.

(** A thread that is not at its end can copy a byte. *)
Lemma tfn_ready w t a p :
  inv w -> arr !! t = Some a -> progress w !! t = Some p -> Z.of_nat p <> size a -> exists w', tfn s arr w t = Some (now_in w').
Proof.
  intros Hinv Ha Hp Hne. destruct (Forall2_lookup_l _ _ _ _ _ (inv_limit w Hinv) Hp) as (q & Hq & Hle).
  destruct (sizes_lookup _ _ Hq) as (a' & Ha' & ->). rewrite Ha in Ha'. injection Ha' as <-.
  destruct (arr_ok t a Ha) as (_ & _ & _ & Hsz & _).
  assert (exists r, tfn s arr w t = Some r) as [r Hr].
  { unfold tfn. rewrite Ha, Hp. cbn. rewrite (proj2 (Z.ltb_lt _ _)) by lia. repeat case_match; by eexists. }
  destruct (tfn_inv w t r Hinv Hr) as (w' & -> & _). by exists w'.
Qed.

Lemma run_app w es1 es2 w' : run s arr w es1 = Some (now_in w') -> run s arr w (es1 ++ es2) = run s arr w' es2.
Proof.
  revert w. induction es1 as [|e es1 IH]; intros w; cbn [run app]; [by intros [= <-]|].
  destruct (step s arr w e) as [[w1|]|]; [|done..]. cbn. apply IH.
Qed.

(** The counters of [m] threads are added. *)
Lemma display_sums m i sum draw w : done w = Z.of_nat <$> progress w -> disp w = D_sum i sum draw -> (i + m <= length (progress w))%nat ->
  run s arr w (replicate m displays) = Some (now_in (World (d w) (progress w) (done w)
    (D_sum (i + m) (sum + Z.of_nat (sum_list (take m (drop i (progress w))))) draw))).
Proof.
  revert i sum w. induction m as [|m IH]; intros i sum w Hd Hdi Hlen.
  - cbn. rewrite Nat.add_0_r, take_0, Z.add_0_r, <- Hdi. by destruct w.
  - cbn [replicate run step]. unfold display_step. rewrite Hdi. destruct (lookup_lt_is_Some_2 (progress w) i ltac:(lia)) as [x Hx].
    rewrite Hd, list_lookup_fmap, Hx. cbn [fmap option_fmap option_map mbind option_bind]. rewrite <- Hd.
    rewrite (IH (S i) (sum + Z.of_nat x)); cbn; [|done|done|lia].
    rewrite (drop_S _ x i) by done. cbn [take]. replace (i + S m)%nat with (S (i + m)) by lia.
    change (sum_list (x :: take m (drop (S i) (progress w)))) with (x + sum_list (take m (drop (S i) (progress w))))%nat. by rewrite Nat2Z.inj_add, Z.add_assoc.
Qed.

Lemma display_test sum draw w : 0 < interval -> done w = Z.of_nat <$> progress w -> disp w = D_sum (length (progress w)) sum draw ->
  run s arr w [displays] = Some (now_in (World (d w) (progress w) (done w)
    (if Z.max draw (sum / interval + 1) <? ITEMS then D_sum 0 0 (Z.max draw (sum / interval + 1)) else D_done (Z.max draw (sum / interval + 1))))).
Proof.
  intros Hint Hd Hdi. cbn [run step]. unfold display_step. rewrite Hdi, Hd. rewrite lookup_ge_None_2 by (by rewrite length_fmap).
  fold interval. by rewrite (proj2 (Z.eqb_neq _ _)) by lia.
Qed.

Lemma enough_marks : ITEMS - 1 <= Z.of_nat (length s) -> 0 < interval /\ ITEMS <= Z.of_nat (length s) / interval + 1.
Proof.
  unfold ITEMS. intros Hlen. assert (0 < interval) as Hint by (apply Z.div_str_pos; unfold ITEMS; lia). split; [done|].
  assert (49 <= Z.of_nat (length s) / interval); [|lia].
  apply Z.div_le_lower_bound; [done|]. unfold interval, ITEMS. pose proof (Z.mul_div_le (Z.of_nat (length s)) (50 - 1) ltac:(lia)). lia.
Qed.

(** Once every thread has ended a whole round draws the rest. *)
Lemma display_round w draw : ITEMS - 1 <= Z.of_nat (length s) -> inv w -> all_copied w -> disp w = D_sum 0 0 draw ->
  exists bars, run s arr w (replicate n displays ++ [displays]) = Some (now_in (World (d w) (progress w) (done w) (D_done bars))).
Proof.
  intros Hlen Hinv Hall Hdi. destruct (enough_marks Hlen) as [Hint Hmarks].
  pose proof (progress_length w Hinv) as Hp. pose proof (sizes_sum (Z.of_nat (length s)) n ltac:(lia) Hn) as Hsum. fold arr in Hsum.
  assert (sum_list (take n (drop 0 (progress w))) = length s) as Hfull.
  { rewrite drop_0, take_ge by lia. rewrite Hall, Hsum. lia. }
  eexists. rewrite (run_app w _ _ _ (display_sums n 0 0 draw w (inv_done w Hinv) Hdi ltac:(lia))). rewrite Hfull.
  erewrite display_test; [|done|apply (inv_done w Hinv)|cbn; by rewrite Hp]. cbn [progress done d].
  rewrite Z.add_0_l, (proj2 (Z.ltb_ge _ _)) by lia. done.
Qed.

Lemma display_ends w : ITEMS - 1 <= Z.of_nat (length s) -> inv w -> all_copied w ->
  exists k w' bars, (k <= 2 * (n + 1))%nat /\ run s arr w (replicate k displays) = Some (now_in w') /\ disp w' = D_done bars.
Proof.
  intros Hlen Hinv Hall. destruct (enough_marks Hlen) as [Hint _]. pose proof (progress_length w Hinv) as Hp.
  destruct (disp w) as [i sum draw|bars] eqn:Hdi; [|exists 0%nat, w, bars; split; [lia|done]].
  pose proof (inv_disp w Hinv) as Hok. rewrite Hdi in Hok. destruct Hok as (Hi & _ & _).
  pose proof (display_sums (n - i) i sum draw w (inv_done w Hinv) Hdi ltac:(lia)) as H1.
  replace (i + (n - i))%nat with (length (progress w)) in H1 by lia.
  pose proof (run_app w _ [displays] _ H1) as H2. erewrite display_test in H2; [|done|apply (inv_done w Hinv)|done].
  cbn [progress done d] in H2. destruct (_ <? ITEMS) eqn:Hlt.
  - match type of H2 with _ = Some (now_in ?x) => set (w1 := x) in * end.
    assert (inv w1) as Hinv1.
    { destruct (run_inv_copy w _ _ Hlen Hinv H2) as (w2 & [= <-] & H); exact H. }
    destruct (display_round w1 _ Hlen Hinv1 Hall eq_refl) as [bars H3].
    exists (n - i + 1 + (n + 1))%nat. eexists (World _ _ _ (D_done bars)), bars. split; [lia|]. split; [|reflexivity].
    rewrite !replicate_add. rewrite (run_app w _ _ w1 H2). exact H3.
  - exists (n - i + 1)%nat. eexists (World _ _ _ (D_done _)), _. split; [lia|]. split; [rewrite replicate_add; exact H2|reflexivity].
Qed.
End runs.

(** ** Children *)

Lemma memcpy_spec src off len dst :
  (off + len <= length src)%nat -> length dst = length src ->
  exists dst', memcpy src off len dst = Some dst' /\ length dst' = length dst /\
    forall k, dst' !! k = if decide (off <= k < off + len)%nat then src !! k else dst !! k.
Proof.
  intros Hs Hd. unfold memcpy. rewrite Hd, (proj2 (Nat.leb_le _ _)) by done. cbn [andb]. eexists. split; [done|].
  assert (length (take len (drop off src)) = len) as Hl by (rewrite length_take, length_drop; lia).
  split; [rewrite !length_app, Hl, length_take, length_drop; lia|]. intros k. case_decide as Hk.
  - rewrite lookup_app_r by (rewrite length_take; lia). rewrite length_take, Nat.min_l by lia.
    rewrite lookup_app_l by lia. rewrite lookup_take_lt by lia. rewrite lookup_drop. f_equal. lia.
  - destruct (decide (k < off)%nat).
    + rewrite lookup_app_l by (rewrite length_take; lia). by rewrite lookup_take_lt.
    + rewrite lookup_app_r by (rewrite length_take; lia). rewrite length_take, Nat.min_l by lia.
      rewrite lookup_app_r by lia. rewrite Hl, lookup_drop. f_equal. lia.
Qed.

(** Whether child [i] writes byte [k]. *)
Definition writes (n bs modulo k i : nat) : Prop :=
  (fst (chunk n bs modulo i) <= k < fst (chunk n bs modulo i) + snd (chunk n bs modulo i))%nat.
#[local] Instance writes_dec n bs modulo k i : Decision (writes n bs modulo k i).
Proof. unfold writes. apply _. Defined.

Lemma children_spec src n bs modulo order dst :
  (forall i, i ∈ order -> fst (chunk n bs modulo i) + snd (chunk n bs modulo i) <= length src)%nat -> length dst = length src ->
  exists dst', children src n bs modulo order dst = copy_is dst' /\ length dst' = length src /\
    forall k, dst' !! k = if decide (Exists (writes n bs modulo k) order) then src !! k else dst !! k.
Proof.
  revert dst. induction order as [|i order IH]; intros dst Hin Hd; cbn [children].
  - exists dst. split; [done|]. split; [done|]. intros k. rewrite decide_False; [done|]. intros H. inversion H.
  - pose proof (Hin i ltac:(left)) as Hi. destruct (chunk n bs modulo i) as [o l] eqn:Hc. cbn in Hi.
    destruct (memcpy_spec src o l dst Hi Hd) as (dst1 & -> & Hl1 & H1).
    destruct (IH dst1 ltac:(intros j Hj; apply Hin; by right) ltac:(lia)) as (dst2 & -> & Hl2 & H2).
    exists dst2. split; [done|]. split; [done|]. intros k. rewrite H2.
    assert (writes n bs modulo k i <-> (o <= k < o + l)%nat) as Hw by (unfold writes; by rewrite Hc).
    destruct (decide (Exists _ (i :: order))) as [He|He]; rewrite Exists_cons in He; case_decide as Ho; try tauto.
    + rewrite H1. by rewrite decide_True by tauto.
    + rewrite H1. by rewrite decide_False by tauto.
Qed.

(** The bytes that nobody copies: the one after the first chunk, where there are
    three children or more, and those after [len % bs] more than [n] chunks. *)
Definition lost (n bs modulo k : nat) : Prop := (3 <= n /\ k = bs \/ n * bs + modulo <= k)%nat.

Lemma written_iff n bs modulo k : (0 < n)%nat -> (0 < bs)%nat ->
  (exists i, (i < n)%nat /\ writes n bs modulo k i) <-> ~ lost n bs modulo k.
Proof.
  intros Hn Hbs. unfold writes, chunk, lost. split.
  - intros (i & Hi & Hw). destruct (Nat.eqb_spec i (n - 1)) as [->|Hl]; cbn in Hw; [nia|].
    destruct (Nat.eqb_spec i 0) as [->|H0]; cbn in Hw; [|nia]. nia.
  - intros Hk. destruct (decide ((n - 1) * bs <= k)%nat) as [Hge|Hlt].
    + exists (n - 1)%nat. split; [lia|]. rewrite Nat.eqb_refl. cbn. nia.
    + destruct (decide (k < bs)%nat) as [Hb|Hb].
      * exists 0%nat. split; [lia|]. destruct (Nat.eqb_spec 0 (n - 1)) as [H1|H1]; cbn; [nia|lia].
      * assert (3 <= n)%nat as Hn3 by nia. assert (k <> bs) as Hne by lia.
        pose proof (Nat.div_mod (k - 1) bs ltac:(lia)) as Hd. pose proof (Nat.mod_upper_bound (k - 1) bs ltac:(lia)) as Hm.
        exists ((k - 1) / bs)%nat. assert ((k - 1) / bs < n - 1)%nat as Hi by (apply Nat.Div0.div_lt_upper_bound; nia).
        split; [lia|]. rewrite (proj2 (Nat.eqb_neq _ _)) by lia.
        destruct (Nat.eqb_spec ((k - 1) / bs) 0) as [H0|H0]; cbn; [rewrite H0 in Hd; lia|nia].
Qed.
#[local] Instance lost_dec n bs modulo k : Decision (lost n bs modulo k).
Proof. unfold lost. apply _. Defined.

Lemma chunk_fits len n i : (0 < n <= len)%nat -> (i < n)%nat ->
  (fst (chunk n (len / n) (len mod (len / n)) i) + snd (chunk n (len / n) (len mod (len / n)) i) <= len)%nat.
Proof.
  intros Hn Hi. set (bs := (len / n)%nat). assert (0 < bs)%nat as Hbs by (apply Nat.div_str_pos; lia).
  pose proof (Nat.div_mod len n ltac:(lia)) as Hd. fold bs in Hd.
  assert (len mod bs <= len mod n)%nat as Hm.
  { replace (len mod bs)%nat with ((len mod n + n * bs) mod bs)%nat by (f_equal; lia). rewrite Nat.Div0.mod_add. apply Nat.Div0.mod_le. }
  unfold chunk. destruct (Nat.eqb_spec i (n - 1)) as [->|Hl]; cbn; [nia|].
  destruct (Nat.eqb_spec i 0) as [->|H0]; cbn; nia.
Qed.

(** ** Properties *)

(** C30: copying with threads works for every positive number of threads and every
    interleaving, where the file has at least 49 bytes and less than 2 GiB: no access
    is outside the two mappings, a thread that is not at its end can go on, and when
    all are, the copy is the source and the thread that draws ends within two rounds
    over the counters. For a shorter file that is not empty it divides by zero. Of an
    empty file nothing can be mapped, and the copy is left with one byte. *)
Theorem thread_copy n src :
  0 < n -> 0 < Z.of_nat (length src) < 2 ^ 31 ->
  thread_main n [] = exits [A_CHAR] /\ exists arr w0, thread_main n src = copying arr w0 /\
    (ITEMS - 1 <= Z.of_nat (length src) -> forall es r, run src arr w0 es = Some r ->
       exists w, r = now_in w /\ length (d w) = length src /\
         (forall t a p, arr !! t = Some a -> progress w !! t = Some p ->
            Z.of_nat p = size a \/ exists w', step src arr w (copies t) = Some (now_in w')) /\
         (progress w = sizes arr -> d w = src /\ exists k w' bars,
            (k <= 2 * (Z.to_nat n + 1))%nat /\ run src arr w (replicate k displays) = Some (now_in w') /\ disp w' = D_done bars)) /\
    (Z.of_nat (length src) < ITEMS - 1 -> run src arr w0 (replicate (Z.to_nat n + 1) displays) = Some undefined).
Proof.
  intros Hn Hlen. split; [done|]. unfold thread_main. rewrite (proj2 (Nat.eqb_neq _ _)), (proj2 (Z.ltb_ge _ _)), (proj2 (Z.eqb_neq _ _)) by lia.
  rewrite build_args_shares by lia.
  eexists _, _. split; [reflexivity|]. set (m := Z.to_nat n). set (w0 := World _ _ _ _).
  assert (done w0 = Z.of_nat <$> progress w0) as Hd0 by (cbn; by rewrite fmap_replicate). split.
  - intros Hbig es r Hrun.
    assert (inv src m w0) as Hinv0.
    { constructor; cbn; [| exact Hd0 | | |].
      - unfold extended. rewrite length_app, length_replicate. cbn. lia.
      - apply Forall2_same_length_lookup_2; [unfold sizes; rewrite length_replicate, length_fmap, shares_length; [done|lia..]|].
        intros i x y Hx _. apply lookup_replicate in Hx as [-> _]. lia.
      - intros t a p i _ Hp Hi. apply lookup_replicate in Hp as [-> _]. lia.
      - unfold ITEMS. lia. }
    destruct (run_inv_copy src m ltac:(lia) ltac:(lia) ltac:(lia) w0 es r Hbig Hinv0 Hrun) as (w & -> & Hinv).
    exists w. split; [done|]. split; [apply (inv_len _ _ _ Hinv)|]. split.
    + intros t a p Ha Hp. destruct (decide (Z.of_nat p = size a)) as [|Hne]; [by left|right].
      by apply (tfn_ready src m ltac:(lia) ltac:(lia) ltac:(lia) w t a p).
    + intros Hall. split; [by apply (copied_all src m ltac:(lia) ltac:(lia) ltac:(lia) w)|].
      by apply (display_ends src m ltac:(lia) ltac:(lia) ltac:(lia) w).
  - intros Hsmall. rewrite replicate_add. erewrite run_app; [|eapply (display_sums src m) with (i := 0%nat) (w := w0); [lia..|done|done|cbn; rewrite length_replicate; lia]].
    cbn [replicate run step]. unfold display_step. cbn [disp done]. rewrite lookup_ge_None_2 by (cbn; rewrite length_replicate; lia).
    rewrite (Z.div_small (Z.of_nat (length src))) by (unfold ITEMS in *; lia). done.
Qed.

(** copying with processes, in whatever order they come to it, gives the
    source with the bytes that nobody copies left zero: the one after the first
    chunk where there are three processes or more, and what is left of the file
    after the last chunk, because its remainder is taken by the size of a chunk
    and not by the number of processes. So the copy is exact if and only if
    these bytes are zero in the source. *)
Theorem process_copy n src order :
  let len := length src in
  let m := Z.to_nat (Z.min n (Z.of_nat len)) in
  let bs := (len / m)%nat in
  0 < n -> (0 < len)%nat -> order ≡ₚ seq 0 m ->
  exists dst, process_main n src order = copy_is dst /\
    (forall k c, src !! k = Some c -> dst !! k = Some (if decide (lost m bs (len mod bs) k) then NUL else c)) /\
    (dst = src <-> forall k c, src !! k = Some c -> lost m bs (len mod bs) k -> c = NUL).
Proof.
  intros len m bs Hn Hlen Hord. unfold process_main. fold len.
  replace (if Z.of_nat len <? n then Z.of_nat len else n) with (Z.min n (Z.of_nat len)) by (destruct (Z.ltb_spec (Z.of_nat len) n); lia).
  rewrite (proj2 (Nat.eqb_neq _ _)), (proj2 (Z.leb_gt _ _)) by lia. fold m bs.
  assert (0 < m <= len)%nat as Hm by lia. assert (0 < bs)%nat as Hbs by (apply Nat.div_str_pos; lia).
  destruct (children_spec src m bs (len mod bs) order (replicate len NUL)) as (dst & -> & Hl & Hk).
  { intros i Hi. rewrite Hord in Hi. apply elem_of_seq in Hi. apply chunk_fits; lia. }
  { apply length_replicate. }
  assert (forall k c, src !! k = Some c -> dst !! k = Some (if decide (lost m bs (len mod bs) k) then NUL else c)) as Hdst.
  { intros k c Hc. pose proof (lookup_lt_Some _ _ _ Hc) as Hkl. rewrite Hk, Hc, (lookup_replicate_2 _ NUL) by done.
    assert (Exists (writes m bs (len mod bs) k) order <-> ~ lost m bs (len mod bs) k) as Hw.
    { rewrite <- written_iff, Exists_exists by lia. split; intros (i & Hi & Hw); exists i; split; try done.
      - rewrite Hord in Hi. apply elem_of_seq in Hi. lia.
      - rewrite Hord. apply elem_of_seq. lia. }
    repeat case_decide; tauto. }
  exists dst. split; [done|]. split; [done|]. split.
  - intros -> k c Hc Hlost. pose proof (Hdst k c Hc) as Heq. rewrite decide_True in Heq by done. congruence.
  - intros Hall. apply list_eq. intros k. destruct (src !! k) as [c|] eqn:Hc.
    + rewrite (Hdst k c Hc). case_decide as Hlost; [|done]. by rewrite (Hall k c Hc Hlost).
    + apply lookup_ge_None. rewrite Hl. by apply lookup_ge_None.
Qed.

(** *** Witnesses *)

Definition fifty : str := replicate 25 "x"%char ++ replicate 25 "y"%char.
Definition three_threads : list event :=
  mjoin (replicate 16 [copies 2; displays; copies 0; copies 1]) ++ [copies 2; copies 2].

Lemma thread_copy_witness :
  exists w, run fifty (shares 50 3) (World (extended 50) [0; 0; 0]%nat [0; 0; 0] (D_sum 0 0 0)) three_threads = Some (now_in w) /\
    d w = fifty /\ exists k w' bars, (k <= 8)%nat /\ run fifty (shares 50 3) w (replicate k displays) = Some (now_in w') /\ disp w' = D_done bars.
Proof.
  destruct (thread_copy 3 fifty ltac:(lia) ltac:(vm_compute; split; reflexivity)) as (_ & arr & w0 & Heq & Hall & _).
  vm_compute in Heq. injection Heq as <- <-.
  destruct (run fifty (shares 50 3) (World (extended 50) [0; 0; 0]%nat [0; 0; 0] (D_sum 0 0 0)) three_threads) as [[w|]|] eqn:Hr;
    [|vm_compute in Hr; discriminate Hr..].
  exists w. split; [reflexivity|].
  destruct (Hall ltac:(vm_compute; discriminate) three_threads (now_in w)) as (w' & Hw & _ & _ & Hend); [vm_compute in Hr |- *; exact Hr|].
  injection Hw as <-. apply Hend. vm_compute in Hr. injection Hr as <-. reflexivity.
Defined.

(** Five processes and fourteen bytes: the third is lost, and the last four. *)
Lemma process_copy_witness :
  exists dst, process_main 5 (lit "abcdefghijklmn") [3; 0; 4; 1; 2]%nat = copy_is dst /\
    dst = lit "ab" ++ [NUL] ++ lit "defghij" ++ replicate 4 NUL /\ dst <> lit "abcdefghijklmn".
Proof.
  destruct (process_copy 5 (lit "abcdefghijklmn") [3; 0; 4; 1; 2]%nat) as (dst & Heq & Hk & Hiff);
    [lia|vm_compute; lia|vm_compute; solve_Permutation|].
  exists dst. split; [exact Heq|]. split; [vm_compute in Heq; injection Heq as <-; reflexivity|].
  intros Hd. pose proof (proj1 Hiff Hd 2%nat "c"%char eq_refl) as H. discriminate H. left. vm_compute. split; [lia|reflexivity].
Defined.

(** Sizes of 2 GiB and more: one thread gets a negative size and copies nothing; with
    three threads of 2 GiB each the offsets overflow. *)
Example large_files :
  build_args (2 ^ 31) 1 = Some [Arg 0 (- 2 ^ 31) 0] /\ build_args (3 * 2 ^ 31) 3 = None.
Proof. vm_compute. by split. Qed.
