(* ===== verification/Philosophers.v ===== *)
(** * Philosophers: the dining philosophers with threads and with processes

    Models [philosopher_thread.c] and [philosopher_process.c] of the folder of the
    dining philosophers. Both have five forks, mutexes or semaphores of value one;
    a philosopher locks one fork, tries the other without waiting, eats when it got
    it, and puts down what it has. They differ in which forks they take, and in
    the waiting: the semaphores are made for the threads of one process ([pshared]
    is zero) but used by processes, so nothing promises that [sem_post] wakes a
    process that waits, which is the parameter [wakes].

    An event is an action of one philosopher, and whom it wakes if it puts down a
    fork others wait for. There are 6^5 places of five philosophers, and what is
    invariant is checked for each of them. *)
From S2P Require Import Prelude.

(** ** Forks *)

(** [l] and [r] of [tfn]: without braces only [l = i] belongs to the [else]. *)
Definition thread_l (i : nat) : nat := if (i =? 4)%nat then 0 else i.
Definition thread_r (i : nat) : nat := i + 1.
(** [l] and [r] of the child processes. *)
Definition process_l (i : nat) : nat := if (i =? 4)%nat then 0 else i.
Definition process_r (i : nat) : nat := if (i =? 4)%nat then 4 else i + 1.

(** Where a philosopher is: before locking the left fork, waiting for it, before
    trying the right one, eating, before unlocking the left one, in [sleep]. *)
Inductive place := hungry | waiting | has_left | eating | leaving | resting.

#[export] Instance place_eq_dec : EqDecision place.
Proof. solve_decision. Defined.

(** The values of the semaphores (one for a mutex that is not locked). *)
Record table := Table { forks : list nat; places : list place }.

Definition start : table := Table (replicate 5 1) (replicate 5 hungry).

Record event := Act { who : nat; woken : option nat }.

Section program.
Context (l r : nat -> nat) (wakes : bool).

Definition move (i : nat) (p : place) (t : table) : table := Table (forks t) (<[i := p]> (places t)).
Definition set_fork (f v : nat) (t : table) : table := Table (<[f := v]> (forks t)) (places t).

(** Who waits for a fork. *)
Definition waiters (f : nat) (t : table) : list nat :=
  filter (fun j => places t !! j = Some waiting /\ l j = f) (seq 0 5).

(** [pthread_mutex_unlock], [sem_post]; [None] if nobody, or not this one, can be
    woken. *)
Definition post (f : nat) (w : option nat) (t : table) : option (outcome table) :=
  match forks t !! f with
  | None => Some undefined
  | Some v =>
      let t := set_fork f (S v) t in
      match w with
      | None => if decide (wakes = true /\ waiters f t <> []) then None else Some (returns t)
      | Some j => if decide (wakes = true /\ j ∈ waiters f t) then Some (returns (move j hungry t)) else None
      end
  end.

(** One action; [None] if it is not possible. A fork outside the array is
    undefined. *)
Definition step (t : table) (e : event) : option (outcome table) :=
  let i := who e in
  p ← places t !! i;
  match p, woken e with
  | hungry, None =>
      Some match forks t !! l i with
           | None => undefined
           | Some O => returns (move i waiting t)
           | Some (S v) => returns (move i has_left (set_fork (l i) v t))
           end
  | has_left, None =>
      Some match forks t !! r i with
           | None => undefined
           | Some O => returns (move i leaving t)
           | Some (S v) => returns (move i eating (set_fork (r i) v t))
           end
  | eating, w => post (r i) w (move i leaving t)
  | leaving, w => post (l i) w (move i resting t)
  | resting, None => Some (returns (move i hungry t))
  | _, _ => None
  end.

Fixpoint run (t : table) (es : list event) : option (outcome table) :=
  match es with
  | [] => Some (returns t)
  | e :: es' => o ← step t e; match o with returns t' => run t' es' | _ => Some o end
  end.

(** ** Specification *)

(** The forks a philosopher has in its hands. *)
Definition holds (i : nat) (p : place) (f : nat) : Prop :=
  match p with
  | has_left | leaving => f = l i
  | eating => f = l i \/ f = r i
  | _ => False
  end.
Definition has (t : table) (i f : nat) : Prop := exists p, places t !! i = Some p /\ holds i p f.

(** A semaphore is zero exactly while its fork is in the hands of one philosopher. *)
Definition fork_ok (t : table) (f v : nat) : Prop :=
  (v = 1 /\ forall i, ~ has t i f) \/ (v = 0 /\ exists i, has t i f /\ forall j, has t j f -> j = i).

(** Who waits for a fork that is free has been overtaken by one who was woken. *)
Definition patient (t : table) (j : nat) : Prop :=
  places t !! j = Some waiting -> forks t !! l j = Some 0 \/ exists k, places t !! k = Some hungry /\ l k = l j.

Record table_ok (t : table) : Prop := {
  ok_forks : length (forks t) = 5;
  ok_places : length (places t) = 5;
  ok_values : forall f v, forks t !! f = Some v -> fork_ok t f v;
  ok_range : forall i, places t !! i = Some eating -> r i < 5;
  ok_patient : wakes = true -> forall j, patient t j }.

(** ** Every step keeps the table *)

Context (Hl : forall i, i < 5 -> l i < 5) (Hlr : forall i, i < 5 -> l i <> r i).

Lemma has_move i p q t j f : places t !! i = Some q -> has (move i p t) j f <-> if decide (j = i) then holds i p f else has t j f.
Proof.
  intros Hi. unfold has, move. cbn [places]. case_decide as Hd.
  - subst j. rewrite list_lookup_insert_eq by by eapply lookup_lt_Some. naive_solver.
  - by rewrite list_lookup_insert_ne by congruence.
Qed.

Lemma has_place t i p f : places t !! i = Some p -> has t i f <-> holds i p f.
Proof. unfold has. naive_solver. Qed.

(** A fork is taken, and one is put down. *)
Lemma take_ok t i p q f v :
  table_ok t -> places t !! i = Some q -> forks t !! f = Some (S v) ->
  (forall g, holds i p g <-> g = f \/ holds i q g) ->
  (forall g u, <[f := v]> (forks t) !! g = Some u -> fork_ok (move i p (set_fork f v t)) g u).
Proof.
  intros Hok Hi Hf Hp g u Hg. destruct (ok_values t Hok f (S v) Hf) as [[Hv Hno]|[Hv _]]; [|done]. injection Hv as ->.
  assert (forall j, has (move i p (set_fork f 0 t)) j g <-> (j = i /\ g = f) \/ has t j g) as Hhas.
  { intros j. rewrite (has_move i p q (set_fork f 0 t)) by done. case_decide as Hd; [subst j; rewrite Hp, (has_place t i q) by done; tauto|].
    unfold has. cbn [set_fork places]. naive_solver. }
  destruct (decide (g = f)) as [->|Hne].
  - rewrite list_lookup_insert_eq in Hg by by eapply lookup_lt_Some. injection Hg as <-. right. split; [done|]. exists i.
    split; [apply Hhas; by left|]. intros j [[-> _]|Hj]%Hhas; [done|]. by destruct (Hno j).
  - rewrite list_lookup_insert_ne in Hg by done. destruct (ok_values t Hok g u Hg) as [[-> Hn]|(-> & k & Hk & Hu)]; [left|right]; (split; [done|]).
    + intros j [[_ ?]|Hj]%Hhas; [done|]. by destruct (Hn j).
    + exists k. split; [apply Hhas; by right|]. intros j [[_ ?]|Hj]%Hhas; [done|]. by apply Hu.
Qed.

Lemma put_down_ok t i p q f v w :
  table_ok t -> places t !! i = Some q -> forks t !! f = Some v -> holds i q f ->
  (forall g, holds i p g <-> g <> f /\ holds i q g) ->
  (forall j f', has w j f' <-> has (move i p t) j f') ->
  (forall g u, <[f := S v]> (forks t) !! g = Some u -> fork_ok w g u).
Proof.
  intros Hok Hi Hf Hq Hp Hw g u Hg.
  assert (forall j, has w j g <-> has t j g /\ ~ (j = i /\ g = f)) as Hhas.
  { intros j. rewrite Hw, (has_move i p q t) by done. case_decide as Hd; [subst j; rewrite Hp, (has_place t i q) by done|]; tauto. }
  assert (has t i f) as Hi' by by exists q.
  destruct (decide (g = f)) as [->|Hne].
  - rewrite list_lookup_insert_eq in Hg by by eapply lookup_lt_Some. injection Hg as <-.
    destruct (ok_values t Hok f v Hf) as [[_ Hno]|(-> & k & Hk & Hu)]; [by destruct (Hno i)|]. left. split; [done|].
    intros j [Hj Hn]%Hhas. apply Hn. split; [|done]. rewrite (Hu j Hj). symmetry. by apply Hu.
  - rewrite list_lookup_insert_ne in Hg by done. destruct (ok_values t Hok g u Hg) as [[-> Hn]|(-> & k & Hk & Hu)]; [left|right]; (split; [done|]).
    + intros j [Hj _]%Hhas. by destruct (Hn j).
    + exists k. split; [apply Hhas; split; [done|]; by intros [_ ?]|]. intros j [Hj _]%Hhas. by apply Hu.
Qed.

Lemma place_lt t i p : table_ok t -> places t !! i = Some p -> i < 5.
Proof. intros Hok Hi%lookup_lt_Some. by rewrite (ok_places t Hok) in Hi. Qed.

(** Going from one place to another with the same forks. *)
Lemma same_ok t i p q :
  table_ok t -> places t !! i = Some q -> (forall g, holds i p g <-> holds i q g) -> p <> eating ->
  (wakes = true -> forall j, patient (move i p t) j) -> table_ok (move i p t).
Proof.
  intros Hok Hi Hp Hne Hpat. assert (forall j g, has (move i p t) j g <-> has t j g) as Hhas.
  { intros j g. rewrite (has_move i p q t) by done. case_decide; [subst j; by rewrite Hp, (has_place t i q)|done]. }
  constructor; cbn [move forks places]; [apply Hok|rewrite length_insert; apply Hok| | |done].
  - intros f v Hf. destruct (ok_values t Hok f v Hf) as [[-> Hn]|(-> & k & Hk & Hu)]; [left|right]; (split; [done|]).
    + intros j. rewrite Hhas. apply Hn.
    + exists k. rewrite Hhas. split; [done|]. intros j. rewrite Hhas. apply Hu.
  - intros j. destruct (decide (j = i)) as [->|]; [|rewrite list_lookup_insert_ne by done; apply Hok].
    rewrite list_lookup_insert_eq by by eapply lookup_lt_Some. congruence.
Qed.

Lemma elem_waiters f t j : length (places t) = 5 -> j ∈ waiters f t <-> places t !! j = Some waiting /\ l j = f.
Proof.
  intros Hlen. unfold waiters. rewrite list_elem_of_filter, elem_of_seq. split; [tauto|]. intros H. split; [done|].
  destruct H as [H%lookup_lt_Some _]. lia.
Qed.

Lemma post_ok t i p q f w :
  table_ok t -> places t !! i = Some q -> q = eating \/ q = leaving -> p = leaving \/ p = resting ->
  f < 5 -> holds i q f -> (forall g, holds i p g <-> g <> f /\ holds i q g) ->
  match post f w (move i p t) with Some (returns t') => table_ok t' | Some _ => False | None => True end.
Proof.
  intros Hok Hi Hq Hp Hf Hh Hpq. unfold post. cbn [move forks]. destruct (forks t !! f) as [v|] eqn:Hv.
  2:{ apply lookup_ge_None in Hv. rewrite (ok_forks t Hok) in Hv. lia. }
  assert (Hlt := Hi). apply lookup_lt_Some in Hlt. set (t1 := set_fork f (S v) (move i p t)).
  assert (length (places t1) = 5) as Hlen by (cbn; rewrite length_insert; apply Hok).
  assert (forall k, places t !! k = Some hungry -> k <> i) as Hnk by (intros k Hk ->; naive_solver).
  assert (forall j, j <> i -> places t1 !! j = places t !! j) as Hpl by (intros j Hj; cbn; by rewrite list_lookup_insert_ne).
  assert (places t1 !! i = Some p) as Hpi by (cbn; by apply list_lookup_insert_eq).
  assert (forall j, places t1 !! j = Some eating -> r j < 5) as Hrange.
  { intros j Hj. destruct (decide (j = i)) as [->|Hne]; [naive_solver|]. rewrite Hpl in Hj by done. by apply Hok. }
  (* who waits for another fork waits as before *)
  assert (wakes = true -> forall j, places t1 !! j = Some waiting -> l j <> f ->
    forks t1 !! l j = Some 0 \/ exists k, places t1 !! k = Some hungry /\ l k = l j) as Hold.
  { intros Hw j Hj Hne. assert (j <> i) as Hji by (intros ->; naive_solver). rewrite Hpl in Hj by done.
    destruct (ok_patient t Hok Hw j Hj) as [H0|(k & Hk & Hlk)]; [left|right].
    - cbn. by rewrite list_lookup_insert_ne.
    - exists k. by rewrite Hpl by by apply Hnk. }
  destruct w as [j|]; case_decide as Hd; try done.
  - destruct Hd as [Hw [Hj Hlj]%elem_waiters]; [|done].
    assert (forall k, places (move j hungry t1) !! k = if decide (k = j) then Some hungry else places t1 !! k) as Hpl'.
    { intros k. cbn. case_decide; [subst k; apply list_lookup_insert_eq; eapply lookup_lt_Some, Hj|by rewrite list_lookup_insert_ne]. }
    constructor; cbn [forks places move].
    + cbn. rewrite length_insert. apply Hok.
    + rewrite length_insert. exact Hlen.
    + apply (put_down_ok t i p q f v); try done. intros k g. rewrite (has_move j hungry waiting t1) by done.
      case_decide; [subst k; rewrite <- (has_place t1 j waiting) by done|]; unfold has; cbn [t1 set_fork places]; naive_solver.
    + intros k. rewrite Hpl'. case_decide; [done|apply Hrange].
    + intros _ k Hk. rewrite Hpl' in Hk. case_decide as Hkj; [done|]. destruct (decide (l k = f)) as [Hlk|Hlk].
      * right. exists j. rewrite Hpl', decide_True by done. by rewrite Hlj, Hlk.
      * destruct (Hold Hw k Hk Hlk) as [H0|(k' & Hk' & Hlk')]; [by left|right]. exists k'. rewrite Hpl'. split; [|done]. by case_decide.
  - constructor; cbn [forks places t1 set_fork].
    + rewrite length_insert. apply Hok.
    + exact Hlen.
    + apply (put_down_ok t i p q f v); try done.
    + exact Hrange.
    + intros Hw k Hk. apply (Hold Hw k Hk). intros Hlk. apply Hd. split; [done|]. intros He.
      assert (k ∈ waiters f t1) as Hin by (apply elem_waiters; done). rewrite He in Hin. by apply not_elem_of_nil in Hin.
Qed.

Lemma step_ok t e :
  table_ok t ->
  match step t e with
  | None => True
  | Some (returns t') => table_ok t'
  | Some (exits _) => False
  | Some undefined => who e < 5 /\ e = Act (who e) None /\ places t !! who e = Some has_left /\ 5 <= r (who e)
  end.
Proof.
  intros Hok. destruct e as [i w]. unfold step. cbn [who woken]. destruct (places t !! i) as [q|] eqn:Hi; [|done]. cbn [mbind option_bind].
  pose proof (place_lt t i q Hok Hi) as Hi5. assert (Hlt := Hi). apply lookup_lt_Some in Hlt.
  assert (forall p j, places (move i p t) !! j = if decide (j = i) then Some p else places t !! j) as Hpl.
  { intros p j. cbn. case_decide; [subst j; by apply list_lookup_insert_eq|by rewrite list_lookup_insert_ne]. }
  destruct q; try (destruct w; [done|]); try done.
  - destruct (lookup_lt_is_Some_2 (forks t) (l i)) as [v Hv]; [rewrite (ok_forks t Hok); by apply Hl|]. rewrite Hv.
    destruct v as [|v].
    + apply (same_ok t i waiting hungry); try done. intros Hw j Hj. rewrite Hpl in Hj. destruct (decide (j = i)) as [->|Hne]; [by left|].
      destruct (ok_patient t Hok Hw j Hj) as [H0|(k & Hk & Hlk)]; [by left|]. destruct (decide (k = i)) as [->|Hki]; [left; cbn; by rewrite <- Hlk|].
      right. exists k. by rewrite Hpl, decide_False.
    + constructor; cbn [move set_fork forks places]; [rewrite length_insert; apply Hok|rewrite length_insert; apply Hok| | |].
      * apply (take_ok t i has_left hungry); try done. intros g. cbn. tauto.
      * intros j. change (places (move i has_left t) !! j = Some eating -> r j < 5). rewrite Hpl. case_decide; [done|apply Hok].
      * intros Hw j Hj. change (places (move i has_left t) !! j = Some waiting) in Hj. rewrite Hpl in Hj. case_decide; [done|].
        destruct (ok_values t Hok _ _ Hv) as [[Hv1 _]|[? _]]; [injection Hv1 as ->|done].
        destruct (decide (l j = l i)) as [Hlj|Hlj]; [left; cbn; rewrite Hlj; apply list_lookup_insert_eq; eapply lookup_lt_Some, Hv|].
        destruct (ok_patient t Hok Hw j Hj) as [H0|(k & Hk & Hlk)]; [left; cbn; by rewrite list_lookup_insert_ne by congruence|].
        right. exists k. change (places (move i has_left t) !! k = Some hungry /\ l k = l j). rewrite Hpl, decide_False; [done|congruence].
  - destruct (forks t !! r i) as [v|] eqn:Hv.
    2:{ apply lookup_ge_None in Hv. by rewrite (ok_forks t Hok) in Hv. }
    assert (wakes = true -> forall p, p <> waiting -> forall j, places (move i p t) !! j = Some waiting ->
      forks t !! l j = Some 0 \/ exists k, places (move i p t) !! k = Some hungry /\ l k = l j) as Hpat.
    { intros Hw p Hp j Hj. rewrite Hpl in Hj. case_decide; [congruence|]. destruct (ok_patient t Hok Hw j Hj) as [H0|(k & Hk & Hlk)]; [by left|].
      right. exists k. rewrite Hpl, decide_False; [done|congruence]. }
    destruct v as [|v].
    + apply (same_ok t i leaving has_left); try done. intros Hw. exact (Hpat Hw leaving ltac:(done)).
    + constructor; cbn [move set_fork forks places]; [rewrite length_insert; apply Hok|rewrite length_insert; apply Hok| | |].
      * apply (take_ok t i eating has_left); try done. intros g. cbn. tauto.
      * intros j. change (places (move i eating t) !! j = Some eating -> r j < 5). rewrite Hpl. case_decide; [subst j|apply Hok].
        intros _. apply lookup_lt_Some in Hv. by rewrite (ok_forks t Hok) in Hv.
      * intros Hw j Hj. destruct (Hpat Hw eating ltac:(done) j Hj) as [H0|H]; [left|by right]. cbn.
        destruct (decide (l j = r i)) as [Heq|]; [|by rewrite list_lookup_insert_ne by congruence].
        destruct (ok_values t Hok _ _ Hv) as [[Hv1 _]|[? _]]; [injection Hv1 as ->|done]. congruence.
  - pose proof (post_ok t i leaving eating (r i) w Hok Hi ltac:(by left) ltac:(by left) (ok_range t Hok i Hi) ltac:(by right)) as H.
    specialize (H ltac:(intros g; cbn; specialize (Hlr i Hi5); naive_solver)). by destruct (post (r i) w (move i leaving t)) as [[]|].
  - pose proof (post_ok t i resting leaving (l i) w Hok Hi ltac:(by right) ltac:(by right) (Hl i Hi5) eq_refl) as H.
    specialize (H ltac:(intros g; cbn; naive_solver)). by destruct (post (l i) w (move i resting t)) as [[]|].
  - apply (same_ok t i hungry resting); try done. intros Hw j Hj. rewrite Hpl in Hj. case_decide; [done|].
    destruct (ok_patient t Hok Hw j Hj) as [H0|(k & Hk & Hlk)]; [by left|]. right. exists k. rewrite Hpl, decide_False; [done|congruence].
Qed.

Lemma run_split t es1 es2 : run t (es1 ++ es2) = (o ← run t es1; match o with returns t' => run t' es2 | _ => Some o end).
Proof.
  revert t. induction es1 as [|e es1 IH]; intros t; [done|]. cbn [app run]. destruct (step t e) as [[t'|c|]|]; cbn [mbind option_bind]; done.
Qed.

Lemma run_ok t es o : table_ok t -> run t es = Some o ->
  match o with
  | returns t' => table_ok t'
  | exits _ => False
  | undefined => exists es1 e es2 t1, es = es1 ++ e :: es2 /\ run t es1 = Some (returns t1) /\
      who e < 5 /\ e = Act (who e) None /\ places t1 !! who e = Some has_left /\ 5 <= r (who e)
  end.
Proof.
  revert t. induction es as [|e es IH]; intros t Hok; cbn [run]; [by intros [= <-]|].
  pose proof (step_ok t e Hok) as Hs. destruct (step t e) as [[t1|c|]|] eqn:He; cbn [mbind option_bind]; try done.
  - intros Hr. specialize (IH t1 Hs Hr). destruct o as [t'|c|]; try done. destruct IH as (es1 & e' & es2 & t2 & -> & Hr' & H).
    exists (e :: es1), e', es2, t2. split; [done|]. cbn [run]. by rewrite He.
  - intros [= <-]. exists [], e, es, t. done.
Qed.

(** Two that eat have no fork in common. *)
Definition exclusive (t : table) : Prop := forall i j, i <> j -> places t !! i = Some eating -> places t !! j = Some eating ->
  l i <> l j /\ l i <> r j /\ r i <> l j /\ r i <> r j.

Lemma one_holder t i j f : table_ok t -> has t i f -> has t j f -> f < 5 -> i = j.
Proof.
  intros Hok Hi Hj Hf. destruct (lookup_lt_is_Some_2 (forks t) f) as [v Hv]; [by rewrite (ok_forks t Hok)|].
  destruct (ok_values t Hok f v Hv) as [[_ Hn]|(_ & k & _ & Hu)]; [by destruct (Hn i)|]. by rewrite (Hu i Hi), (Hu j Hj).
Qed.

Lemma exclusive_ok t : table_ok t -> exclusive t.
Proof.
  intros Hok i j Hne Hi Hj.
  assert (forall k f, places t !! k = Some eating -> f = l k \/ f = r k -> has t k f /\ f < 5) as Hhas.
  { intros k f Hk Hf. split; [by exists eating|]. destruct Hf as [->| ->]; [apply Hl; by eapply place_lt|by apply Hok]. }
  assert (forall f, f = l i \/ f = r i -> f = l j \/ f = r j -> False) as Hno.
  { intros f Hf Hf'. destruct (Hhas i f Hi Hf) as [H1 H2], (Hhas j f Hj Hf') as [H3 _]. by apply Hne, (one_holder t i j f). }
  split_and!; intros He; [apply (Hno (l i))|apply (Hno (l i))|apply (Hno (r i))|apply (Hno (r i))]; tauto.
Qed.

(** ** Everybody can eat *)

Context (Hr : forall i, i < 5 -> r i < 5) (Hwakes : wakes = true).

Definition leads (t t' : table) : Prop := exists es, run t es = Some (returns t').

(** The others stay where they are, or are woken. *)
Definition calm (j : nat) (t t' : table) : Prop :=
  forall k, k <> j -> places t' !! k = places t !! k \/ (places t !! k = Some waiting /\ places t' !! k = Some hungry).

Lemma leads_trans t1 t2 t3 : leads t1 t2 -> leads t2 t3 -> leads t1 t3.
Proof. intros [es1 H1] [es2 H2]. exists (es1 ++ es2). by rewrite run_split, H1. Qed.

Lemma leads_step t e t' : step t e = Some (returns t') -> leads t t'.
Proof. intros H. exists [e]. cbn [run]. by rewrite H. Qed.

Lemma leads_ok t t' : table_ok t -> leads t t' -> table_ok t'.
Proof. intros Hok [es H]. exact (run_ok t es _ Hok H). Qed.

Lemma calm_trans j t1 t2 t3 : calm j t1 t2 -> calm j t2 t3 -> calm j t1 t3.
Proof. intros H1 H2 k Hk. destruct (H1 k Hk) as [E1|[E1 E1']], (H2 k Hk) as [E2|[E2 E2']]; rewrite ?E1, ?E1' in *; naive_solver congruence. Qed.

(** Posting is possible and can wake whom one likes. *)
Lemma post_can t f v i : length (places t) = 5 -> forks t !! f = Some v ->
  exists w t', post f w t = Some (returns t') /\
    (forall k, places t' !! k = places t !! k \/ (places t !! k = Some waiting /\ places t' !! k = Some hungry)) /\
    (places t !! i = Some waiting -> l i = f -> places t' !! i = Some hungry).
Proof.
  intros Hlen Hf. unfold post. rewrite Hf.
  assert (forall j, j ∈ waiters f (set_fork f (S v) t) <-> places t !! j = Some waiting /\ l j = f) as Hw
    by exact (fun j => elem_waiters f (set_fork f (S v) t) j Hlen).
  assert (forall j, places t !! j = Some waiting /\ l j = f -> exists w t',
    match w with
    | None => if decide (wakes = true /\ waiters f (set_fork f (S v) t) <> []) then None else Some (returns (set_fork f (S v) t))
    | Some j => if decide (wakes = true /\ j ∈ waiters f (set_fork f (S v) t)) then Some (returns (move j hungry (set_fork f (S v) t))) else None
    end = Some (returns t') /\
    (forall k, places t' !! k = places t !! k \/ (places t !! k = Some waiting /\ places t' !! k = Some hungry)) /\ places t' !! j = Some hungry) as Hwake.
  { intros j Hj. exists (Some j). eexists. rewrite decide_True by by rewrite Hw. split; [done|]. destruct Hj as [Hj _].
    cbn [move places set_fork]. split; [|apply list_lookup_insert_eq; by eapply lookup_lt_Some].
    intros k. destruct (decide (k = j)) as [->|]; [right|left; by rewrite list_lookup_insert_ne].
    split; [done|]. apply list_lookup_insert_eq. by eapply lookup_lt_Some. }
  destruct (decide (places t !! i = Some waiting /\ l i = f)) as [Hi|Hi].
  - destruct (Hwake i Hi) as (w & t' & H1 & H2 & H3). by exists w, t'.
  - destruct (waiters f (set_fork f (S v) t)) as [|j ws] eqn:He.
    + exists None. eexists. rewrite decide_False by naive_solver. split; [done|]. split; [by left|tauto].
    + destruct (Hwake j) as (w & t' & H1 & H2 & H3); [apply Hw; by left|]. exists w, t'. split; [done|]. split; [done|tauto].
Qed.

(** A philosopher that holds forks gets rid of them; [i], if it waits for the left
    one, is woken. *)
Definition idle (p : place) : Prop := p = hungry \/ p = waiting \/ p = resting.

Lemma leave_can t j i : table_ok t -> places t !! j = Some leaving ->
  exists t', leads t t' /\ calm j t t' /\ places t' !! j = Some resting /\
    (places t !! i = Some waiting -> l i = l j -> places t' !! i = Some hungry).
Proof.
  intros Hok Hj. pose proof (place_lt t j _ Hok Hj) as Hj5.
  destruct (lookup_lt_is_Some_2 (forks t) (l j)) as [v Hv]; [rewrite (ok_forks t Hok); by apply Hl|].
  assert (Hlt := Hj). apply lookup_lt_Some in Hlt.
  destruct (post_can (move j resting t) (l j) v i) as (w & t' & Hp & Hk & Hi); [cbn; rewrite length_insert; apply Hok|done|].
  exists t'. split; [apply (leads_step t (Act j w)); unfold step; cbn [who woken]; by rewrite Hj|]. cbn [move places] in Hk, Hi. split_and!.
  - intros k Hkj. specialize (Hk k). by rewrite list_lookup_insert_ne in Hk.
  - specialize (Hk j). rewrite list_lookup_insert_eq in Hk by done. by destruct Hk as [|[? _]].
  - intros Hw Hlij. apply Hi; [|done]. rewrite list_lookup_insert_ne; [done|]. intros ->. congruence.
Qed.

Lemma eat_can t j : table_ok t -> places t !! j = Some eating ->
  exists t', leads t t' /\ calm j t t' /\ places t' !! j = Some leaving.
Proof.
  intros Hok Hj. destruct (lookup_lt_is_Some_2 (forks t) (r j)) as [v Hv]; [rewrite (ok_forks t Hok); by apply Hok|].
  assert (Hlt := Hj). apply lookup_lt_Some in Hlt.
  destruct (post_can (move j leaving t) (r j) v j) as (w & t' & Hp & Hk & _); [cbn; rewrite length_insert; apply Hok|done|].
  exists t'. split; [apply (leads_step t (Act j w)); unfold step; cbn [who woken]; by rewrite Hj|]. cbn [move places] in Hk. split.
  - intros k Hkj. specialize (Hk k). by rewrite list_lookup_insert_ne in Hk.
  - specialize (Hk j). rewrite list_lookup_insert_eq in Hk by done. by destruct Hk as [|[? _]].
Qed.

Lemma try_can t j : table_ok t -> places t !! j = Some has_left ->
  exists t' p, leads t t' /\ calm j t t' /\ places t' !! j = Some p /\ (p = eating \/ p = leaving) /\ (forks t !! r j = Some 1 -> p = eating).
Proof.
  intros Hok Hj. destruct (lookup_lt_is_Some_2 (forks t) (r j)) as [v Hv].
  { rewrite (ok_forks t Hok). apply Hr. by apply (place_lt t j has_left). }
  assert (Hlt := Hj). apply lookup_lt_Some in Hlt.
  exists (match v with O => move j leaving t | S v => move j eating (set_fork (r j) v t) end), (match v with O => leaving | S _ => eating end).
  split_and!.
  - apply (leads_step t (Act j None)). unfold step. cbn [who woken]. rewrite Hj. cbn [mbind option_bind]. rewrite Hv. by destruct v.
  - intros k Hk. left. destruct v; cbn; by rewrite list_lookup_insert_ne.
  - destruct v; cbn; by apply list_lookup_insert_eq.
  - destruct v; tauto.
  - intros H1. rewrite Hv in H1. injection H1 as ->. done.
Qed.

Lemma calm_waits j t t' i : calm j t t' -> i <> j -> places t !! i = Some waiting -> places t' !! i = Some waiting \/ places t' !! i = Some hungry.
Proof. intros Hc Hi Hw. destruct (Hc i Hi) as [->|[_ ->]]; tauto. Qed.

Lemma calm_hungry j t t' i : calm j t t' -> i <> j -> places t !! i = Some hungry -> places t' !! i = Some hungry.
Proof. intros Hc Hi Hw. destruct (Hc i Hi) as [->|[? ->]]; congruence. Qed.

Lemma finish_one t j i p : table_ok t -> i <> j -> places t !! j = Some p ->
  exists t' q, leads t t' /\ calm j t t' /\ places t' !! j = Some q /\ idle q /\
    (~ idle p -> places t !! i = Some waiting -> l i = l j -> places t' !! i = Some hungry).
Proof.
  intros Hok Hij.
  assert (forall t, table_ok t -> places t !! j = Some leaving -> exists t' q, leads t t' /\ calm j t t' /\ places t' !! j = Some q /\ idle q /\
    (places t !! i = Some waiting -> l i = l j -> places t' !! i = Some hungry)) as H1.
  { intros t1 Hok1 Hj. destruct (leave_can t1 j i Hok1 Hj) as (t' & H1 & H2 & H3 & H4). exists t', resting. unfold idle. tauto. }
  (* after a step that keeps the others calm *)
  assert (forall t t1, table_ok t -> leads t t1 -> calm j t t1 ->
    (exists t' q, leads t1 t' /\ calm j t1 t' /\ places t' !! j = Some q /\ idle q /\ (places t1 !! i = Some waiting -> l i = l j -> places t' !! i = Some hungry)) ->
    exists t' q, leads t t' /\ calm j t t' /\ places t' !! j = Some q /\ idle q /\ (places t !! i = Some waiting -> l i = l j -> places t' !! i = Some hungry)) as Hthen.
  { intros t0 t1 Hok0 Hlead Hcalm (t' & q & H2 & H3 & H4 & H5 & H6). exists t', q. split_and!; [by eapply leads_trans|by eapply calm_trans|done|done|].
    intros Hw Hlij. destruct (calm_waits j t0 t1 i Hcalm Hij Hw) as [Hw1|Hh]; [by apply H6|by apply (calm_hungry j t1 t' i)]. }
  assert (forall t, table_ok t -> places t !! j = Some eating -> exists t' q, leads t t' /\ calm j t t' /\ places t' !! j = Some q /\ idle q /\
    (places t !! i = Some waiting -> l i = l j -> places t' !! i = Some hungry)) as H2.
  { intros t1 Hok1 Hj. destruct (eat_can t1 j Hok1 Hj) as (t2 & Ha & Hb & Hc). apply (Hthen t1 t2); try done. apply H1; [|done]. by apply (leads_ok t1). }
  destruct (decide (idle p)) as [Hp|Hp].
  - intros Hj. exists t, p. split_and!; [exists []; done|intros k _; by left|done|done|done].
  - intros Hj. assert (exists t' q, leads t t' /\ calm j t t' /\ places t' !! j = Some q /\ idle q /\
      (places t !! i = Some waiting -> l i = l j -> places t' !! i = Some hungry)) as (t' & q & H3 & H4 & H5 & H6 & H7).
    { destruct p; try (destruct Hp; unfold idle; tauto); [|by apply H2|by apply H1].
      destruct (try_can t j Hok Hj) as (t2 & p & Ha & Hb & Hc & Hd & _). apply (Hthen t t2); try done.
      assert (table_ok t2) by by apply (leads_ok t). destruct Hd as [->| ->]; [by apply H2|by apply H1]. }
    exists t', q. split_and!; done || tauto.
Qed.

(** Nobody but [i] holds a fork. *)
Definition quiet (i : nat) (t : table) : Prop := forall j p, j <> i -> places t !! j = Some p -> idle p.

Lemma calm_quiet i t t' : calm i t t' -> quiet i t -> quiet i t'.
Proof.
  intros Hc Hq j p Hj Hp. destruct (Hc j Hj) as [He|[_ He]]; rewrite He in Hp; [by apply (Hq j)|]. injection Hp as <-. unfold idle. tauto.
Qed.


Lemma get_quiet t i n : table_ok t -> n <= 5 ->
  exists t', leads t t' /\ forall j p, j < n -> j <> i -> places t' !! j = Some p -> idle p.
Proof.
  intros Hok. induction n as [|n IH]; intros Hn; [exists t; split; [exists []; done|lia]|].
  destruct (IH ltac:(lia)) as (t1 & H1 & Hq). pose proof (leads_ok _ _ Hok H1) as Hok1.
  destruct (decide (n = i)) as [->|Hne]; [exists t1; split; [done|]; intros j p Hj Hji; apply Hq; lia|].
  destruct (lookup_lt_is_Some_2 (places t1) n) as [p Hp]; [rewrite (ok_places t1 Hok1); lia|].
  destruct (finish_one t1 n i p Hok1 ltac:(done) Hp) as (t2 & q & H2 & Hc & Hq2 & Hidle & _).
  exists t2. split; [by eapply leads_trans|]. intros j q' Hj Hji Hjp. destruct (decide (j = n)) as [->|Hjn]; [congruence|].
  destruct (Hc j Hjn) as [He|[_ He]]; rewrite He in Hjp; [apply (Hq j); [lia|done..]|]. injection Hjp as <-. unfold idle. tauto.
Qed.

Lemma free_fork t i f : table_ok t -> quiet i t -> f < 5 -> ~ has t i f -> forks t !! f = Some 1.
Proof.
  intros Hok Hq Hf Hno. destruct (lookup_lt_is_Some_2 (forks t) f) as [v Hv]; [by rewrite (ok_forks t Hok)|].
  destruct (ok_values t Hok f v Hv) as [[-> _]|(_ & k & Hk & _)]; [done|]. exfalso. destruct (decide (k = i)) as [->|Hne]; [done|].
  destruct Hk as (p & Hp & Hh). by destruct (Hq k p Hne Hp) as [->|[->| ->]].
Qed.

Lemma lock_can t j : table_ok t -> places t !! j = Some hungry -> forks t !! l j = Some 1 ->
  exists t', leads t t' /\ calm j t t' /\ places t' !! j = Some has_left.
Proof.
  intros Hok Hj Hf. assert (Hlt := Hj). apply lookup_lt_Some in Hlt. exists (move j has_left (set_fork (l j) 0 t)). split_and!.
  - apply (leads_step t (Act j None)). unfold step. cbn [who woken]. rewrite Hj. cbn [mbind option_bind]. by rewrite Hf.
  - intros k Hk. left. cbn. by rewrite list_lookup_insert_ne.
  - cbn. by apply list_lookup_insert_eq.
Qed.

Definition eats (t : table) (i : nat) : Prop := exists t', leads t t' /\ places t' !! i = Some eating.

Lemma eats_after t t1 i : leads t t1 -> eats t1 i -> eats t i.
Proof. intros H1 (t2 & H2 & H). exists t2. split; [by eapply leads_trans|done]. Qed.

Lemma left_eats t i : table_ok t -> quiet i t -> places t !! i = Some has_left -> eats t i.
Proof.
  intros Hok Hq Hi. pose proof (place_lt t i _ Hok Hi) as Hi5. destruct (try_can t i Hok Hi) as (t1 & p & H1 & _ & Hp & _ & Hfree).
  exists t1. split; [done|]. rewrite Hp, Hfree; [done|]. apply (free_fork t i); try done; [by apply Hr|].
  rewrite (has_place t i has_left) by done. cbn. intros He. by apply (Hlr i).
Qed.

Lemma hungry_eats t i : table_ok t -> quiet i t -> places t !! i = Some hungry -> eats t i.
Proof.
  intros Hok Hq Hi. pose proof (place_lt t i _ Hok Hi) as Hi5. destruct (lock_can t i Hok Hi) as (t1 & H1 & Hc & Hp).
  - apply (free_fork t i); try done; [by apply Hl|]. rewrite (has_place t i hungry) by done. by intros [].
  - apply (eats_after t t1); [done|]. apply left_eats; [by apply (leads_ok t)|by apply (calm_quiet i t)|done].
Qed.

Lemma resting_eats t i : table_ok t -> quiet i t -> places t !! i = Some resting -> eats t i.
Proof.
  intros Hok Hq Hi. assert (leads t (move i hungry t)) as H1.
  { apply (leads_step t (Act i None)). unfold step. cbn [who woken]. by rewrite Hi. }
  apply (eats_after t _ i H1). apply hungry_eats; [by apply (leads_ok t)| |].
  - apply (calm_quiet i t); [|done]. intros k Hk. left. cbn. by rewrite list_lookup_insert_ne.
  - cbn. apply list_lookup_insert_eq. by eapply lookup_lt_Some.
Qed.

Lemma waiting_eats t i : table_ok t -> quiet i t -> places t !! i = Some waiting -> eats t i.
Proof.
  intros Hok Hq Hi. pose proof (place_lt t i _ Hok Hi) as Hi5.
  assert (forks t !! l i = Some 1) as Hfree by (apply (free_fork t i); [done..|by apply Hl|rewrite (has_place t i waiting) by done; by intros []]).
  destruct (ok_patient t Hok Hwakes i Hi) as [H0|(k & Hk & Hlk)]; [congruence|]. assert (k <> i) as Hki by congruence.
  destruct (lock_can t k Hok Hk) as (t1 & H1 & Hc1 & Hp1); [by rewrite Hlk|]. pose proof (leads_ok _ _ Hok H1) as Hok1.
  destruct (finish_one t1 k i has_left Hok1 ltac:(done) Hp1) as (t2 & q & H2 & Hc2 & Hp2 & Hidle & Hwoken).
  apply (eats_after t t2); [by eapply leads_trans|]. apply hungry_eats; [by apply (leads_ok t1)| |].
  - intros j p Hj Hjp. destruct (decide (j = k)) as [->|Hjk]; [congruence|].
    destruct (calm_trans k t t1 t2 Hc1 Hc2 j Hjk) as [He|[_ He]]; rewrite He in Hjp; [by apply (Hq j)|]. injection Hjp as <-. unfold idle. tauto.
  - destruct (calm_waits k t t1 i Hc1 ltac:(done) Hi) as [Hw|Hh]; [|by apply (calm_hungry k t1)].
    apply Hwoken; [unfold idle; naive_solver|done|done].
Qed.

Lemma everybody_eats t i : table_ok t -> i < 5 -> eats t i.
Proof.
  intros Hok Hi. destruct (get_quiet t i 5 Hok ltac:(lia)) as (t1 & H1 & Hq). pose proof (leads_ok _ _ Hok H1) as Hok1.
  apply (eats_after t t1 i H1). assert (quiet i t1) as Hq1.
  { intros j p Hj Hp. apply (Hq j); [|done|done]. by eapply place_lt. }
  destruct (lookup_lt_is_Some_2 (places t1) i) as [p Hp]; [by rewrite (ok_places t1 Hok1)|]. destruct p.
  - by apply hungry_eats.
  - by apply waiting_eats.
  - by apply left_eats.
  - exists t1. split; [exists []; done|done].
  - destruct (leave_can t1 i i Hok1 Hp) as (t2 & H2 & Hc & Hp2 & _). apply (eats_after t1 t2 i H2).
    apply resting_eats; [by apply (leads_ok t1)|by apply (calm_quiet i t1)|done].
  - by apply resting_eats.
Qed.
End program.

(** ** The two programs *)

Lemma process_forks i : i < 5 -> process_l i < 5 /\ process_r i < 5 /\ process_l i <> process_r i.
Proof. unfold process_l, process_r. destruct (Nat.eqb_spec i 4); lia. Qed.

Lemma thread_forks i : i < 5 -> thread_l i < 5 /\ thread_l i <> thread_r i /\ (5 <= thread_r i -> i = 4).
Proof. unfold thread_l, thread_r. destruct (Nat.eqb_spec i 4); lia. Qed.

Lemma start_ok l r wakes : table_ok l r wakes start.
Proof.
  assert (forall i p, places start !! i = Some p -> p = hungry) as Hp by (intros i p Hi; cbn [start places] in Hi; by apply lookup_replicate in Hi as [-> _]).
  constructor; [done|done| | |].
  - intros f v Hf. apply (lookup_replicate 5 1) in Hf as [-> _]. left. split; [done|]. intros i (p & Hi & Hh). by rewrite (Hp i p Hi) in Hh.
  - intros i Hi. by apply Hp in Hi.
  - intros _ j Hj. by apply Hp in Hj.
Qed.

(** Without waking, who waits waits for ever. *)
Lemma waits_forever l r t es t' i : run l r false t es = Some (returns t') -> places t !! i = Some waiting -> places t' !! i = Some waiting.
Proof.
  revert t. induction es as [|e es IH]; intros t; cbn [run]; [by intros [= <-]|].
  destruct (step l r false t e) as [[t1|c|]|] eqn:He; cbn [mbind option_bind]; try done. intros Hr Hi. apply (IH t1 Hr).
  unfold step in He. destruct (decide (who e = i)) as [Heq|Hne]; [rewrite Heq, Hi in He; by destruct (woken e)|].
  assert (forall p t0, places (move (who e) p t0) !! i = places t0 !! i) as Hm by (intros p t0; cbn; by rewrite list_lookup_insert_ne).
  assert (forall f w t0, post l false f w t0 = Some (returns t1) -> places t1 !! i = places t0 !! i) as Hpost.
  { intros f w t0. unfold post. destruct (forks t0 !! f); [|done]. destruct w; case_decide as Hd; try done; [by destruct Hd|by intros [= <-]]. }
  destruct (places t !! who e) as [p|]; [|done]. cbn [mbind option_bind] in He. destruct p, (woken e); try done;
    repeat match goal with
    | H : Some _ = Some (returns t1) |- _ => injection H as H
    | H : context [forks t !! ?f] |- _ => destruct (forks t !! f) as [[|]|]
    | H : returns _ = returns t1 |- _ => injection H as H
    end; try done; subst; try (by rewrite Hm); by rewrite (Hpost _ _ _ He), Hm.
Qed.

(** C29: The philosophers that are processes never use a fork outside the array,
    never two of them eat with the same fork, and a semaphore is zero exactly while
    one philosopher has its fork, in every interleaving. If [sem_post] wakes, each
    philosopher can get to eat from everywhere, so there is no deadlock; if it does
    not, as for semaphores that are not made for several processes, who once waits
    for a fork waits for ever. *)
Theorem process_philosophers wakes es o :
  run process_l process_r wakes start es = Some o ->
  exists t, o = returns t /\ exclusive process_l process_r t /\
    (forall f v, forks t !! f = Some v -> fork_ok process_l process_r t f v) /\
    if wakes then forall i, i < 5 -> exists es' t', run process_l process_r wakes t es' = Some (returns t') /\ places t' !! i = Some eating
    else forall i es' t', places t !! i = Some waiting -> run process_l process_r wakes t es' = Some (returns t') -> places t' !! i = Some waiting.
Proof.
  intros Hr. pose proof (fun i Hi => proj1 (process_forks i Hi)) as Hl. pose proof (fun i Hi => proj1 (proj2 (process_forks i Hi))) as Hr5.
  pose proof (fun i Hi => proj2 (proj2 (process_forks i Hi))) as Hlr.
  pose proof (run_ok process_l process_r wakes Hl Hlr start es o (start_ok _ _ _) Hr) as Hok. destruct o as [t|c|]; [|done|].
  2:{ destruct Hok as (es1 & e & es2 & t1 & _ & _ & Hw & _ & _ & He). specialize (Hr5 (who e) Hw). lia. }
  exists t. split; [done|]. split; [by apply (exclusive_ok _ _ wakes)|]. split; [apply Hok|].
  destruct wakes.
  - intros i Hi. destruct (everybody_eats process_l process_r true Hl Hlr Hr5 eq_refl t i Hok Hi) as (t' & [es' Hes] & Ht'). by exists es', t'.
  - intros i es' t' Hi Hes. by eapply waits_forever.
Qed.

(** The program with threads: it is undefined exactly where the last philosopher,
    holding its left fork, tries the right one, because there is no sixth mutex; up
    to there no two philosophers eat with the same fork. *)
Theorem thread_philosophers es o :
  run thread_l thread_r true start es = Some o ->
  match o with
  | returns t => exclusive thread_l thread_r t /\
      (places t !! 4 = Some has_left -> step thread_l thread_r true t (Act 4 None) = Some undefined)
  | exits _ => False
  | undefined => exists es1 es2 t1, es = es1 ++ Act 4 None :: es2 /\
      run thread_l thread_r true start es1 = Some (returns t1) /\ places t1 !! 4 = Some has_left
  end.
Proof.
  intros Hr. pose proof (fun i Hi => proj1 (thread_forks i Hi)) as Hl. pose proof (fun i Hi => proj1 (proj2 (thread_forks i Hi))) as Hlr.
  pose proof (run_ok thread_l thread_r true Hl Hlr start es o (start_ok _ _ _) Hr) as Hok. destruct o as [t|c|]; [|done|].
  - split; [by apply (exclusive_ok _ _ true)|]. intros Hp. unfold step. cbn [who woken]. rewrite Hp. cbn [mbind option_bind].
    rewrite (lookup_ge_None_2 (forks t)); [done|]. rewrite (ok_forks _ _ _ t Hok). unfold thread_r. lia.
  - destruct Hok as (es1 & e & es2 & t1 & -> & Hr1 & Hw & He & Hp & H5). apply thread_forks in H5; [|done]. rewrite H5 in *.
    exists es1, es2, t1. rewrite He. done.
Qed.

(** ** Witnesses and examples *)

(** 0 eats, 4 waits for the fork they share, 0 puts its forks down. *)
Definition one_meal (w : option nat) : list event := [Act 0 None; Act 0 None; Act 4 None; Act 0 None; Act 0 w].

Lemma process_philosophers_witness :
  exists t, run process_l process_r true start (one_meal (Some 4)) = Some (returns t) /\ exclusive process_l process_r t /\
    exists es' t', run process_l process_r true t es' = Some (returns t') /\ places t' !! 4 = Some eating.
Proof.
  destruct (run process_l process_r true start (one_meal (Some 4))) as [o|] eqn:Hr; [|vm_compute in Hr; discriminate Hr].
  destruct (process_philosophers true (one_meal (Some 4)) o Hr) as (t & -> & Hx & _ & Heat). exists t.
  split; [reflexivity|]. split; [exact Hx|]. apply (Heat 4). lia.
Defined.

(** Nobody holds a fork, and 4 waits for one for ever. *)
Example never_woken :
  run process_l process_r false start (one_meal None) = Some (returns (Table [1; 1; 1; 1; 1] [resting; hungry; hungry; hungry; waiting])).
Proof. vm_compute. reflexivity. Qed.

Lemma thread_philosophers_witness :
  exists es1 es2 t1, [Act 0 None; Act 0 None; Act 0 None; Act 0 None; Act 4 None; Act 4 None] = es1 ++ Act 4 None :: es2 /\
    run thread_l thread_r true start es1 = Some (returns t1) /\ places t1 !! 4 = Some has_left.
Proof.
  apply (thread_philosophers [Act 0 None; Act 0 None; Act 0 None; Act 0 None; Act 4 None; Act 4 None] undefined).
  vm_compute. reflexivity.
Defined.
