(* ===== verification/Tools.v ===== *)
(** * Tools: byte order, addresses, and the output of a command

    Models [test/endianconv.c] (reversing the bytes of integers),
    [test/htons_is_big.c], [ipConvert.cpp] (an IPv4 address as a number and as
    text) and [ExecuteCMD] of [c_shell.c], on a little-endian machine, which is
    what their makefiles build for. [ntohl] and [htons] reverse the bytes there;
    what [inet_addr] makes of a text is a parameter. *)
From S2P Require Import Prelude.

(** ** Integers in memory *)

(** The [n] bytes of an unsigned integer, the low one first. *)
Fixpoint le_bytes (n : nat) (z : Z) : str :=
  match n with O => [] | S n' => to_char z :: le_bytes n' (z / 256) end.
Fixpoint of_le (s : str) : Z :=
  match s with [] => 0 | c :: s' => uchar c + 256 * of_le s' end%Z.

(** [t = x[i]; x[i] = x[j]; x[j] = t;] *)
Definition swap (i j : nat) (x : str) : option str :=
  a ← x !! i; b ← x !! j; Some (<[j := a]> (<[i := b]> x)).

Definition memrev16 (x : str) : option str := swap 0 1 x.
Definition memrev32 (x : str) : option str := x ← swap 0 3 x; swap 1 2 x.
Definition memrev64 (x : str) : option str := x ← swap 0 7 x; x ← swap 1 6 x; x ← swap 2 5 x; swap 3 4 x.

(** [memrev(&v); return v;] for an integer of [n] bytes. *)
Definition intrev (memrev : str -> option str) (n : nat) (v : Z) : option Z := of_le <$> memrev (le_bytes n v).
Definition intrev16 : Z -> option Z := intrev memrev16 2.
Definition intrev32 : Z -> option Z := intrev memrev32 4.
Definition intrev64 : Z -> option Z := intrev memrev64 8.

(** [main] of [endianconv.c]: what is printed of a buffer that [sprintf] filled. *)
Definition endian_main : list (option str) :=
  (fun memrev : str -> option str => c_str <$> memrev (lit "ciaoroma" ++ NUL :: replicate 23 NUL)) <$> [memrev16; memrev32; memrev64].

(** [htonl] and [htons] of a little-endian machine and back. *)
Definition ntohl (z : Z) : Z := of_le (reverse (le_bytes 4 z)).
Definition htons (z : Z) : Z := of_le (reverse (le_bytes 2 z)).

(** [main] of [htons_is_big.c]: the test of the first byte in memory. *)
Definition htons_is_big (htons : Z -> Z) : str :=
  let tmp := htons 4660%Z in
  match le_bytes 2 tmp with
  | c :: _ => if decide (c = to_char 52%Z) then lit "It's little" else if decide (c = to_char 18%Z) then lit "It's big" else []
  | [] => []
  end.

(** ** Addresses *)

(** [%d] of a byte. *)
Definition decimal (c : ascii) : str := to_string (Z.to_N (uchar c)).
Definition quad (a b c d : ascii) : str := decimal a ++ lit "." ++ decimal b ++ lit "." ++ decimal c ++ lit "." ++ decimal d.

(** [snprintf]: at most [size - 1] bytes and the terminating zero; what is in the
    array before. *)
Definition snprintf (dest : str) (size : nat) (s : str) : str :=
  match size with O => dest | S n => take n s ++ NUL :: drop (S (length (take n s))) dest end.

Definition ddip_int2ip (ip_int : Z) (dest : str) (dest_size : nat) : str :=
  match le_bytes 4 (ntohl ip_int) with
  | [a; b; c; d] => snprintf dest dest_size (quad a b c d)
  | _ => dest
  end.

Section inet_addr.
Context (inet_addr : str -> Z).
Definition ddip_ip2int (ip : str) : Z := ntohl (inet_addr (c_str ip)).
End inet_addr.

(** What the manual says of [inet_addr]: four decimal numbers are the bytes of the
    address in memory. *)
Definition reads_quads (inet_addr : str -> Z) : Prop := forall a b c d, inet_addr (quad a b c d) = of_le [a; b; c; d].

(** ** The output of a command *)

Definition CMD_RESULT_BUF_SIZE : nat := 1024.

(** The loop over the lines that [fgets] gives: [result] holds a C string in an
    array of [size] bytes; [None] is a write past the array. *)
Fixpoint gather (fuel size : nat) (out result : str) : option str :=
  match fuel with
  | O => Some result
  | S f =>
      match fgets (CMD_RESULT_BUF_SIZE - 1) out with
      | ([], _) => Some result
      | (buf_ps, rest) =>
          let result := result ++ c_str buf_ps in
          if (size <=? length result)%nat then None
          else if (CMD_RESULT_BUF_SIZE <? length result)%nat then Some result
          else gather f size rest result
      end
  end.

(** [popen cmd] gives the output of the command, or fails. *)
Definition ExecuteCMD (popen : str -> option str) (cmd : str) (size : nat) (result : str) : option (Z * str) :=
  if (CMD_RESULT_BUF_SIZE <=? length cmd)%nat then None
  else match popen cmd with
       | None => Some (-1, result)%Z
       | Some out => (0%Z,.) <$> gather (S (length out)) size out result
       end.

(** [main]: the array has as many bytes as a line. *)
Definition shell_main (popen : str -> option str) : option str := snd <$> ExecuteCMD popen (lit "ls -l") CMD_RESULT_BUF_SIZE [].

(** ** Byte order *)

Lemma length_le_bytes n z : length (le_bytes n z) = n.
Proof. revert z. induction n as [|n IH]; intros z; [done|]. cbn. by rewrite IH. Qed.

Lemma of_le_range s : (0 <= of_le s < 256 ^ Z.of_nat (length s))%Z.
Proof.
  induction s as [|c s IH]; [done|]. cbn [of_le length]. rewrite Nat2Z.inj_succ, Z.pow_succ_r by lia. pose proof (uchar_range c). nia.
Qed.

Lemma le_bytes_of_le s : le_bytes (length s) (of_le s) = s.
Proof.
  induction s as [|c s IH]; [done|]. cbn [of_le length le_bytes]. pose proof (uchar_range c) as Hc. f_equal.
  - rewrite <- (to_char_uchar c) at 2. unfold to_char. rewrite (Z.mul_comm 256), Z_mod_plus_full. done.
  - rewrite (Z.mul_comm 256), Z.div_add, Z.div_small by lia. exact IH.
Qed.

Lemma of_le_bytes n z : of_le (le_bytes n z) = (z mod 256 ^ Z.of_nat n)%Z.
Proof.
  revert z. induction n as [|n IH]; intros z; [cbn; by rewrite Z.mod_1_r|]. cbn [le_bytes of_le].
  rewrite IH, uchar_to_char, Nat2Z.inj_succ, Z.pow_succ_r, (Z.rem_mul_r z 256) by lia. done.
Qed.

(** The swaps reverse the first bytes and leave the others. *)
Lemma memrev_spec :
  (forall x, memrev16 x = if decide (2 <= length x) then Some (reverse (take 2 x) ++ drop 2 x) else None) /\
  (forall x, memrev32 x = if decide (4 <= length x) then Some (reverse (take 4 x) ++ drop 4 x) else None) /\
  (forall x, memrev64 x = if decide (8 <= length x) then Some (reverse (take 8 x) ++ drop 8 x) else None).
Proof.
  split_and!; intros x; do 8 (destruct x as [|? x];
    [first [rewrite decide_False by (cbn; lia); reflexivity|rewrite decide_True by (cbn; lia); reflexivity]|]);
    rewrite decide_True by (cbn; lia); reflexivity.
Qed.

Lemma intrev_spec memrev n v :
  (forall x, memrev x = if decide (n <= length x) then Some (reverse (take n x) ++ drop n x) else None) ->
  intrev memrev n v = Some (of_le (reverse (le_bytes n v))).
Proof.
  intros H. unfold intrev. rewrite H, decide_True by by rewrite length_le_bytes.
  rewrite take_ge, drop_ge, app_nil_r by by rewrite length_le_bytes. done.
Qed.

Lemma reverse_twice n v : of_le (reverse (le_bytes n (of_le (reverse (le_bytes n v))))) = (v mod 256 ^ Z.of_nat n)%Z.
Proof.
  assert (length (reverse (le_bytes n v)) = n) as Hn by by rewrite length_reverse, length_le_bytes.
  rewrite <- Hn at 1. by rewrite le_bytes_of_le, reverse_involutive, of_le_bytes.
Qed.

(** Reversing the bytes of memory exchanges the first [n] and leaves the rest, or
    is undefined where there are fewer; reversing an integer gives the integer with
    its bytes in the other order, within the range of its type, and reversing it
    again gives it back. *)
Theorem intrev_involutive memrev n v :
  (memrev, n) ∈ [(memrev16, 2); (memrev32, 4); (memrev64, 8)] -> (0 <= v < 256 ^ Z.of_nat n)%Z ->
  (forall x, memrev x = if decide (n <= length x) then Some (reverse (take n x) ++ drop n x) else None) /\
  exists w, intrev memrev n v = Some w /\ le_bytes n w = reverse (le_bytes n v) /\ (0 <= w < 256 ^ Z.of_nat n)%Z /\ intrev memrev n w = Some v.
Proof.
  intros Hin Hv. assert (forall x, memrev x = if decide (n <= length x) then Some (reverse (take n x) ++ drop n x) else None) as Hm.
  { destruct memrev_spec as (H16 & H32 & H64). rewrite !elem_of_cons, elem_of_nil in Hin. destruct Hin as [[= -> ->]|[[= -> ->]|[[= -> ->]|[]]]]; done. }
  split; [done|]. exists (of_le (reverse (le_bytes n v))). assert (length (reverse (le_bytes n v)) = n) as Hn by by rewrite length_reverse, length_le_bytes.
  split_and!; [by apply intrev_spec| | | |].
  - rewrite <- Hn at 1. apply le_bytes_of_le.
  - apply of_le_range.
  - rewrite <- Hn at 2. apply of_le_range.
  - rewrite (intrev_spec memrev n) by done. f_equal. rewrite reverse_twice, Z.mod_small by done. done.
Qed.

Lemma ntohl_intrev v : intrev32 v = Some (ntohl v).
Proof. unfold intrev32. by rewrite (intrev_spec memrev32 4) by apply memrev_spec. Qed.

(** ** Addresses *)

Lemma decimal_short : forall c, length (decimal c) <= 3.
Proof. by_bytes. Qed.
Lemma decimal_digits : forall c, NUL ∉ decimal c /\ "."%char ∉ decimal c.
Proof. by_bytes. Qed.
Lemma decimal_value : forall c, to_char (dec_value (decimal c)) = c.
Proof. by_bytes. Qed.

Lemma quad_text a b c d : length (quad a b c d) <= 15 /\ NUL ∉ quad a b c d.
Proof.
  unfold quad. split.
  - pose proof (decimal_short a). pose proof (decimal_short b). pose proof (decimal_short c). pose proof (decimal_short d).
    rewrite !length_app. cbn [length lit String.list_ascii_of_string]. lia.
  - rewrite !not_elem_of_app. destruct (decimal_digits a), (decimal_digits b), (decimal_digits c), (decimal_digits d).
    assert (NUL ∉ lit ".") by (apply (bool_decide_unpack _); vm_compute; exact I). done.
Qed.

Lemma snprintf_fits dest size s : length s < size -> NUL ∉ s -> c_str (snprintf dest size s) = s.
Proof.
  intros Hl Hn. unfold snprintf. destruct size as [|n]; [lia|]. rewrite take_ge by lia. rewrite c_str_app by done.
  change (NUL :: drop (S (length s)) dest) with ([NUL] ++ drop (S (length s)) dest). cbn. apply app_nil_r.
Qed.

Lemma le_bytes_4 z : exists a b c d, le_bytes 4 z = [a; b; c; d].
Proof. by eexists _, _, _, _. Qed.

(** An address as a number, printed into an array of 16 bytes, fits, is the four
    bytes in decimal from the highest to the lowest, and is read back as the same
    number; and the text of four decimal bytes is what is printed for the number it
    is read as. *)
Theorem ip_roundtrip inet_addr x dest a b c d :
  reads_quads inet_addr ->
  c_str (ddip_int2ip x dest 16) = quad (to_char (x / 16777216)) (to_char (x / 65536)) (to_char (x / 256)) (to_char x) /\
  ddip_ip2int inet_addr (ddip_int2ip x dest 16) = uint32 x /\
  c_str (ddip_int2ip (ddip_ip2int inet_addr (quad a b c d)) dest 16) = quad a b c d.
Proof.
  intros Hread.
  assert (forall x, le_bytes 4 (ntohl x) = reverse (le_bytes 4 x)) as Hn.
  { intros y. unfold ntohl. assert (length (reverse (le_bytes 4 y)) = 4) as H4 by by rewrite length_reverse, length_le_bytes.
    rewrite <- H4 at 1. apply le_bytes_of_le. }
  assert (forall y a b c d, le_bytes 4 (ntohl y) = [a; b; c; d] -> c_str (ddip_int2ip y dest 16) = quad a b c d) as Hprint.
  { intros y a1 b1 c1 d1 Hy. unfold ddip_int2ip. rewrite Hy. destruct (quad_text a1 b1 c1 d1). apply snprintf_fits; [lia|done]. }
  assert (le_bytes 4 (ntohl x) = [to_char (x / 16777216); to_char (x / 65536); to_char (x / 256); to_char x]) as Hx.
  { rewrite Hn. cbn [le_bytes]. rewrite !Z.div_div by lia. done. }
  split_and!.
  - by apply Hprint.
  - unfold ddip_ip2int. rewrite (Hprint x _ _ _ _ Hx), Hread, <- Hx. unfold ntohl. rewrite of_le_bytes.
    rewrite Z.mod_small; [apply (reverse_twice 4 x)|]. pose proof (of_le_range (reverse (le_bytes 4 x))) as Hr.
    by rewrite length_reverse, length_le_bytes in Hr.
  - apply Hprint. destruct (quad_text a b c d) as [_ Hq]. unfold ddip_ip2int. rewrite c_str_id by done. rewrite Hread.
    change (ntohl (ntohl (of_le [a; b; c; d]))) with (of_le (reverse (le_bytes 4 (of_le (reverse (le_bytes 4 (of_le [a; b; c; d]))))))).
    rewrite reverse_twice, Z.mod_small by apply of_le_range. apply (le_bytes_of_le [a; b; c; d]).
Qed.

(** ** The output of a command *)

(** One round of the loop. *)
Lemma gather_step size out result f : NUL ∉ out -> length out < S f ->
  exists l rest, out = l ++ rest /\ length l <= 1023 /\ NUL ∉ rest /\
    if decide (l = []) then out = [] /\ gather (S f) size out result = Some result
    else length rest < f /\ gather (S f) size out result =
      (if (size <=? length (result ++ l))%nat then None
       else if (CMD_RESULT_BUF_SIZE <? length (result ++ l))%nat then Some (result ++ l)
       else gather f size rest (result ++ l)).
Proof.
  intros Hn Hf. destruct (fgets (CMD_RESULT_BUF_SIZE - 1) out) as [l rest] eqn:Hg.
  destruct (fgets_spec _ _ _ _ Hg) as (-> & Hl & He). apply not_elem_of_app in Hn as [Hn1 Hn2]. exists l, rest.
  rewrite length_app in Hf. split_and!; [done|unfold CMD_RESULT_BUF_SIZE in Hl; lia|done|]. cbn [gather]. rewrite Hg.
  destruct l as [|c l]; [rewrite decide_True by done; split; [by destruct He|done]|].
  rewrite decide_False by done. cbn [length] in Hf. split; [lia|]. by rewrite c_str_id.
Qed.

Lemma gather_small size fuel out result : size <= S CMD_RESULT_BUF_SIZE -> length result < size -> NUL ∉ out -> length out < fuel ->
  gather fuel size out result = if decide (length (result ++ out) < size) then Some (result ++ out) else None.
Proof.
  intros Hs. revert out result. induction fuel as [|f IH]; intros out result Hr Hn Hf; [lia|].
  destruct (gather_step size out result f Hn Hf) as (l & rest & -> & Hl & Hn2 & H). case_decide as Hd.
  - destruct H as [He ->]. rewrite He, app_nil_r. by rewrite decide_True.
  - destruct H as [Hrest ->]. rewrite app_assoc. rewrite (length_app (result ++ l)).
    destruct (Nat.leb_spec size (length (result ++ l))) as [Hge|Hlt]; [rewrite decide_False by lia; done|].
    rewrite (proj2 (Nat.ltb_ge _ _)) by lia. rewrite IH by done. by rewrite length_app.
Qed.

Lemma gather_large size fuel out result : 2 * CMD_RESULT_BUF_SIZE <= size -> length result <= CMD_RESULT_BUF_SIZE -> NUL ∉ out -> length out < fuel ->
  exists r, gather fuel size out result = Some (result ++ r) /\ r `prefix_of` out /\ (r = out \/ CMD_RESULT_BUF_SIZE < length (result ++ r)).
Proof.
  intros Hs. revert out result. induction fuel as [|f IH]; intros out result Hr Hn Hf; [lia|].
  destruct (gather_step size out result f Hn Hf) as (l & rest & -> & Hl & Hn2 & H). case_decide as Hd.
  - destruct H as [He ->]. exists []. rewrite app_nil_r. split; [done|]. split; [apply prefix_nil|left]. by rewrite He.
  - destruct H as [Hrest ->]. unfold CMD_RESULT_BUF_SIZE in *.
    rewrite (proj2 (Nat.leb_gt _ _)) by (rewrite length_app; lia).
    destruct (Nat.ltb_spec 1024 (length (result ++ l))) as [Hbig|Hsmall].
    + exists l. split; [done|]. split; [by apply prefix_app_r|by right].
    + destruct (IH rest (result ++ l) Hsmall Hn2 Hrest) as (r & -> & Hp & Hor). exists (l ++ r). rewrite <- !app_assoc in *.
      split; [done|]. split; [by apply prefix_app|]. destruct Hor as [->|Hor]; [by left|right; by rewrite <- app_assoc in Hor || done].
Qed.

(** The output of a command (without zeros) is gathered without writing past the
    caller's array exactly when it fits, where the array has at most 1025 bytes, as
    that of [main] has: the test that should end the loop in time comes too late. An
    array of 2048 bytes is large enough for every output, of which it then holds a
    start of more than 1024 bytes, or all. *)
Theorem command_output popen cmd size out :
  length cmd < CMD_RESULT_BUF_SIZE -> popen cmd = Some out -> NUL ∉ out -> 0 < size ->
  (size <= S CMD_RESULT_BUF_SIZE ->
     ExecuteCMD popen cmd size [] = if decide (length out < size) then Some (0%Z, out) else None) /\
  (2 * CMD_RESULT_BUF_SIZE <= size ->
     exists r, ExecuteCMD popen cmd size [] = Some (0%Z, r) /\ r `prefix_of` out /\ (r = out \/ CMD_RESULT_BUF_SIZE < length r)).
Proof.
  intros Hc Hp Hn Hs. unfold ExecuteCMD. rewrite (proj2 (Nat.leb_gt _ _)), Hp by done. split; intros Hsize.
  - rewrite gather_small by (done || cbn; lia). cbn [app]. by case_decide.
  - destruct (gather_large size (S (length out)) out [] Hsize ltac:(cbn; lia) Hn ltac:(lia)) as (r & -> & H). exists r. done.
Qed.

(** ** Witnesses and examples *)

Lemma intrev_involutive_witness :
  exists w, intrev memrev32 4 305419896 = Some w /\ w = 2018915346%Z /\ intrev memrev32 4 w = Some 305419896%Z.
Proof.
  destruct (intrev_involutive memrev32 4 305419896%Z) as [_ (w & Hw & _ & _ & Hback)].
  - right. left.
  - split; vm_compute; congruence.
  - exists w. split; [exact Hw|]. split; [|exact Hback]. vm_compute in Hw. injection Hw as <-. reflexivity.
Defined.

Example ciaoroma : endian_main = [Some (lit "icaoroma"); Some (lit "oaicroma"); Some (lit "amoroaic")].
Proof. vm_compute. reflexivity. Qed.

(** The test does not look at the order of the machine: [htons] makes it the order
    of the network. *)
Example always_big : htons_is_big htons = lit "It's big" /\ htons_is_big id = lit "It's little".
Proof. split; vm_compute; reflexivity. Qed.

(** An [inet_addr] for four decimal numbers. *)
Fixpoint fields (s : str) : list str :=
  match s with
  | [] => [[]]
  | c :: s' => if decide (c = "."%char) then [] :: fields s'
      else match fields s' with x :: xs => (c :: x) :: xs | [] => [[c]] end
  end.
Definition four_fields (s : str) : Z := of_le ((fun x => to_char (dec_value x)) <$> fields s).

Lemma fields_app x s : "."%char ∉ x -> fields (x ++ "."%char :: s) = x :: fields s.
Proof.
  induction x as [|c x IH]; intros H; cbn; [done|]. apply not_elem_of_cons in H as [Hc Hx].
  rewrite decide_False by congruence. by rewrite IH.
Qed.

Lemma fields_one x : "."%char ∉ x -> fields x = [x].
Proof.
  induction x as [|c x IH]; intros H; cbn; [done|]. apply not_elem_of_cons in H as [Hc Hx].
  rewrite decide_False by congruence. by rewrite IH.
Qed.

Lemma four_fields_reads : reads_quads four_fields.
Proof.
  intros a b c d. unfold four_fields, quad. cbn [lit String.list_ascii_of_string app].
  rewrite !fields_app, fields_one by apply decimal_digits. cbn [fmap list_fmap]. by rewrite !decimal_value.
Qed.

Lemma ip_roundtrip_witness :
  c_str (ddip_int2ip 3232235777 (replicate 16 NUL) 16) = lit "192.168.1.1" /\
  ddip_ip2int four_fields (ddip_int2ip 3232235777 (replicate 16 NUL) 16) = 3232235777%Z.
Proof.
  destruct (ip_roundtrip four_fields 3232235777%Z (replicate 16 NUL) NUL NUL NUL NUL four_fields_reads) as (H1 & H2 & _).
  rewrite H1, H2. split; vm_compute; reflexivity.
Defined.

(** The listing of a directory with a few files is too long for [main]. *)
Lemma command_output_witness :
  let ls := mjoin (replicate 20 (replicate 51 "x"%char ++ [LF])) in
  ExecuteCMD (fun _ => Some ls) (lit "ls -l") CMD_RESULT_BUF_SIZE [] = None /\ shell_main (fun _ => Some ls) = None.
Proof.
  cbv zeta. destruct (command_output (fun _ => Some (mjoin (replicate 20 (replicate 51 "x"%char ++ [LF])))) (lit "ls -l") CMD_RESULT_BUF_SIZE
    (mjoin (replicate 20 (replicate 51 "x"%char ++ [LF])))) as [H _].
  - unfold CMD_RESULT_BUF_SIZE. cbn. lia.
  - reflexivity.
  - apply (bool_decide_unpack _). vm_compute. exact I.
  - unfold CMD_RESULT_BUF_SIZE. lia.
  - rewrite H by (unfold CMD_RESULT_BUF_SIZE; lia).
    assert (ExecuteCMD (fun _ => Some (mjoin (replicate 20 (replicate 51 "x"%char ++ [LF])))) (lit "ls -l") CMD_RESULT_BUF_SIZE [] = None) as He
      by (rewrite H by (unfold CMD_RESULT_BUF_SIZE; lia); vm_compute; reflexivity).
    split; [vm_compute; reflexivity|]. unfold shell_main. rewrite He. reflexivity.
Defined.
