(* ===== verification/SysSamples.v ===== *)
(** * SysSamples: programs on system calls

    Models [test/test_environ.c], [test/test_va_start.c], [test/linux_file_op/madvise-test.c],
    [readAndMmapTest.cpp] and [cpu_load.cpp]: where the strings of a process lie in its
    memory, variable arguments, mapped files and measured times. What system calls give
    is an argument of the definitions. *)
From S2P Require Import Prelude.

(** ** The strings of a process ([test_environ.c]) *)

(** A string in memory: its address and its length; a null pointer is [None]. *)
Record cstring := CString { at_ : Z; len : nat }.
Definition past (s : cstring) : Z := (at_ s + Z.of_nat (len s) + 1)%Z.

(** The two loops: [end], and the numbers of the lines they print. *)
Definition visit (i : nat) (s : option cstring) (st : Z * list nat) : Z * list nat :=
  match s with
  | None => st
  | Some s => if (at_ s <? st.1)%Z then st else (past s, st.2 ++ [i])
  end.

Fixpoint visit_all (i : nat) (ss : list (option cstring)) (st : Z * list nat) : Z * list nat :=
  match ss with [] => st | s :: ss' => visit_all (S i) ss' (visit i s st) end.

(** [spt_init]: [argv] has [argc] entries before its null pointer; [end] and the lines
    of both loops, or nothing without a name. *)
Definition spt_init (argv : list (option cstring)) (envp : list cstring) : option (Z * list nat * list nat) :=
  match argv with
  | Some base :: _ =>
      let '(e, lines) := visit_all 0 argv (past base, []) in
      let '(e, lines') := visit_all 0 (Some <$> envp) (e, []) in
      Some (e, lines, lines')
  | _ => None
  end.

(** Each string begins where the one before it ends. *)
Fixpoint contiguous (e : Z) (ss : list cstring) : Prop :=
  match ss with [] => True | s :: ss' => at_ s = e /\ contiguous (past s) ss' end.

Definition last_past (e : Z) (ss : list cstring) : Z := default e (past <$> last ss).

Lemma visit_contiguous i ss e l : contiguous e ss -> visit_all i (Some <$> ss) (e, l) = (last_past e ss, l ++ seq i (length ss)).
Proof.
  revert i e l. induction ss as [|s ss IH]; intros i e l; [intros _; cbn; by rewrite app_nil_r|]. intros [Ha Hc]. rewrite fmap_cons. cbn [visit_all visit fst snd].
  rewrite (proj2 (Z.ltb_ge _ _)) by lia. rewrite IH by done. f_equal; [|cbn; by rewrite <- app_assoc].
  unfold last_past. rewrite last_cons. by destruct (last ss).
Qed.

Lemma contiguous_app e a b : contiguous e (a ++ b) <-> contiguous e a /\ contiguous (last_past e a) b.
Proof.
  revert e. induction a as [|s a IH]; intros e; cbn; [tauto|]. rewrite IH. unfold last_past. rewrite last_cons. destruct (last a); cbn; tauto.
Qed.

(** In a process as the kernel starts it, where the strings follow one another, arguments
    first, [spt_init] ends at the end of the last string, having passed each string
    once; and as many bytes lie between the name and that end as the strings have. *)
Theorem spt_init_contiguous base args envp : contiguous (at_ base) (base :: args ++ envp) ->
  exists e, spt_init (Some <$> base :: args) envp = Some (e, seq 1 (length args), seq 0 (length envp)) /\
    (e - at_ base = Z.of_nat (sum_list ((fun s => S (len s)) <$> base :: args ++ envp)))%Z.
Proof.
  intros [_ Hc]. apply contiguous_app in Hc as [Ha He]. exists (last_past (last_past (past base) args) envp). split.
  { rewrite fmap_cons. cbn [spt_init visit_all visit fst snd]. rewrite (proj2 (Z.ltb_lt _ _)) by (unfold past; lia).
    rewrite (visit_contiguous 1 args) by done. cbn [app]. by rewrite (visit_contiguous 0 envp). }
  assert (Hs : forall ss e, contiguous e ss -> (last_past e ss - e = Z.of_nat (sum_list ((fun s => S (len s)) <$> ss)))%Z).
  { clear. induction ss as [|s ss IH]; intros e; [cbn; lia|]. intros [Hat Hc]. specialize (IH _ Hc). rewrite fmap_cons. cbn [sum_list sum_list_with foldr id].
    unfold last_past in *. rewrite last_cons. unfold past in *. destruct (last ss); cbn in *; lia. }
  rewrite fmap_cons, fmap_app. cbn [sum_list sum_list_with foldr id]. rewrite (sum_list_with_app id). pose proof (Hs _ _ Ha). pose proof (Hs _ _ He). unfold past in *. cbn in *. lia.
Qed.

(** [test_argv_environ] and the lines of [sum] and [log] ([test_va_start.c]). *)

(** [sum]: [None] where an addition overflows. *)
Fixpoint sum (val : Z) (args : list Z) : option Z :=
  match args with
  | [] => Some val
  | a :: args' => if bool_decide (in_int32 (val + a)) then sum (val + a) args' else None
  end.

(** [log], for what [vsnprintf] makes of its arguments. *)
Definition log (formatted : str) : str := lit "[fjp...] " ++ c_str (take 1023 formatted) ++ [LF].

Example sum_3 : sum 0 [10; 20; 30]%Z = Some 60%Z.
Proof. reflexivity. Qed.
Example sum_overflows : sum 0 [2147483647; 1]%Z = None.
Proof. reflexivity. Qed.
Example log_line : log (lit "3,word") = lit "[fjp...] 3,word" ++ [LF].
Proof. reflexivity. Qed.

(** A string of the heap after the block: [end] is then past that one. *)
Example environment_moved : spt_init [Some (CString 100 3)] [CString 104 5; CString 5000 7] = Some (5008%Z, [], [0; 1]).
Proof. reflexivity. Qed.

(** ** Mapped files ([madvise-test.c]) *)

Definition FILE_LEGNTH : Z := 1000 * 1024 * 1024.

(** [TIMER], of [tv_sec] and [tv_usec]. *)
Definition TIMER (t : Z * Z) : Z := (t.1 * 1000 + t.2 / 1000)%Z.

(** The loop of [doprocess] over the bytes of the mapping; [None] for an overflow of
    [nSum]. *)
Fixpoint sum_bytes (nSum : Z) (bytes : str) : option Z :=
  match bytes with
  | [] => Some nSum
  | b :: bytes' => if bool_decide (in_int32 (nSum + schar b)) then sum_bytes (nSum + schar b) bytes' else None
  end.

Definition doprocess (bytes : str) (start finish : Z * Z) : option Z :=
  _ ← sum_bytes 0 bytes; Some (int32 (TIMER finish - TIMER start)).

(** [CreateFile]: the file afterwards. A descriptor below 1 counts as an error; a longer
    file keeps its length, and the byte is set. *)
Definition CreateFile (len : nat) (fd : Z) (file : str) : str :=
  if (fd <? 1)%Z then file else take (len - 1) (file ++ replicate (len - 1) NUL) ++ NUL :: drop len file.

(** The three readers. MADV_NORMAL is 0, MADV_RANDOM 1, MADV_SEQUENTIAL 2 and
    MADV_WILLNEED 3. *)
Inductive reader := SequenceRead | RandomRead | WithMadviseRead.
Definition advice (r : reader) : Z :=
  match r with SequenceRead => Z.lor 3 2 | RandomRead => 1 | WithMadviseRead => 0 end.
Definition advises (r : reader) : bool := match r with WithMadviseRead => false | _ => true end.

(** What the calls give. *)
Record answers := Answers { opens : bool; maps : bool; madvises : bool; unmaps : bool; bytes : str; before : Z * Z; after : Z * Z }.

Inductive message := open_error | map_error | madvise_error | unmap_error | read_time (ms : Z).

(** The messages, and whether a descriptor and a mapping are left. *)
Record result := Result { messages : list message; open_fd : bool; mapped : bool }.

Definition read_file (r : reader) (a : answers) : option result :=
  if negb (opens a) then Some (Result [open_error] false false)
  else if negb (maps a) then Some (Result [map_error] true false)
  else if advises r && negb (madvises a) then Some (Result [madvise_error] false true)
  else interval ← doprocess (bytes a) (before a) (after a);
       Some (if unmaps a then Result [read_time interval] false false
             else Result [read_time interval; unmap_error] false true).

Lemma sum_zeros n : sum_bytes 0 (replicate n NUL) = Some 0%Z.
Proof. induction n as [|n IH]; [done|]. cbn. done. Qed.

(** A file that is made has the length wanted, all of it null bytes. *)
Lemma CreateFile_new n fd : (0 < fd)%Z -> CreateFile (S n) fd [] = replicate (S n) NUL.
Proof.
  intros Hfd. unfold CreateFile. rewrite (proj2 (Z.ltb_ge _ _)) by lia. cbn [Nat.sub app drop]. rewrite Nat.sub_0_r, take_ge by (by rewrite length_replicate).
  change (replicate n NUL ++ replicate 1 NUL = replicate (1 + n) NUL). by rewrite <- replicate_add, Nat.add_comm.
Qed.

(** Reading the file that was made: the sum does not overflow and the time is shown; the
    descriptor is left open exactly where the mapping fails, and the mapping is left
    exactly where the advice or the end of it fails. *)
Theorem read_file_made r a n : bytes a = replicate n NUL ->
  exists res, read_file r a = Some res /\
    (open_fd res = true <-> opens a = true /\ maps a = false) /\
    (mapped res = true <-> opens a = true /\ maps a = true /\ (advises r = true /\ madvises a = false \/ unmaps a = false)) /\
    (forall ms, read_time ms ∈ messages res -> ms = int32 (TIMER (after a) - TIMER (before a))).
Proof.
  intros Hb. unfold read_file, doprocess. rewrite Hb, sum_zeros. cbn [mbind option_bind].
  destruct (opens a), (maps a), (advises r), (madvises a), (unmaps a); cbn; eexists; (split; [done|]); cbn;
    (split; [naive_solver|]); (split; [naive_solver|]); intros ms Hin; repeat (apply elem_of_cons in Hin as [Hin|Hin]; [by simplify_eq|]); by apply elem_of_nil in Hin.
Qed.

Lemma read_file_made_witness : exists res,
  read_file SequenceRead (Answers true true true true (replicate 5 NUL) (10, 999000)%Z (12, 1000)%Z) = Some res /\ messages res = [read_time 1002].
Proof.
  destruct (read_file_made SequenceRead (Answers true true true true (replicate 5 NUL) (10, 999000)%Z (12, 1000)%Z) 5 eq_refl) as (res & Hr & _).
  exists res. split; [exact Hr|]. injection Hr as <-. reflexivity.
Defined.

(** Both advices together are MADV_WILLNEED alone. *)
Example sequential_lost : advice SequenceRead = 3%Z.
Proof. reflexivity. Qed.

(** ** Reading and mapping ([readAndMmapTest.cpp]) *)

Definition MAX : Z := 10000.

Inductive printed := reading_failed | read_took (ms : Z) | mmap_took (ms : Z).

(** [read] gives [got] bytes or -1; the four times. *)
Definition read_and_mmap (got : Z) (tv1 tv2 tv3 tv4 : Z * Z) : list printed :=
  if negb (4 * MAX =? got)%Z then [reading_failed]
  else [read_took (tv2.2 - tv1.2); mmap_took (tv4.2 - tv3.2)].

(** The time shown is microseconds, not milliseconds, and right within one second only. *)
Theorem read_and_mmap_times tv1 tv2 tv3 tv4 :
  let elapsed (a b : Z * Z) := ((b.1 - a.1) * 1000000 + (b.2 - a.2))%Z in
  exists d d', read_and_mmap 40000 tv1 tv2 tv3 tv4 = [read_took d; mmap_took d'] /\
    (d = elapsed tv1 tv2 <-> tv1.1 = tv2.1) /\ (d' = elapsed tv3 tv4 <-> tv3.1 = tv4.1).
Proof. cbn. eexists _, _. split; [done|]. split; split; lia. Qed.

(** ** A load on the processor ([cpu_load.cpp]) *)

Definition INTERVAL : Z := 100.
Definition GetTickCount (now : Z * Z) : Z := (now.1 * 1000 + now.2 / 1000000)%Z.
Definition busyTime (cpuinfo : Z) : Z := Z.quot (INTERVAL * cpuinfo) 100.
Definition idleTime (cpuinfo : Z) : Z := (INTERVAL - busyTime cpuinfo)%Z.

(** [while((GetTickCount() - startTime) <= busyTime);]: how often the clock is read, of a
    clock that shows [ticks]. *)
Fixpoint spin (busy startTime : Z) (ticks : list Z) : option nat :=
  match ticks with
  | [] => None
  | t :: ticks' => if (t - startTime <=? busy)%Z then S <$> spin busy startTime ticks' else Some 1
  end.

(** The argument of [usleep], an unsigned number of 32 bits. *)
Definition sleeps (cpuinfo : Z) : Z := uint32 (idleTime cpuinfo * 1000).

(** For a rate from 0 to 100 the two times make up the interval; the loop lasts until
    the clock is past the busy time; for a rate above 100 the pause is of more than an
    hour. *)
Theorem cpu_load_times cpuinfo :
  (0 <= cpuinfo <= 100 -> busyTime cpuinfo = cpuinfo /\ sleeps cpuinfo = 1000 * (INTERVAL - cpuinfo))%Z /\
  (100 < cpuinfo <= 500000 -> 3600 * 1000000 < sleeps cpuinfo)%Z /\
  (forall start ticks n, spin (busyTime cpuinfo) start ticks = Some n ->
     exists t, ticks !! (n - 1) = Some t /\ (busyTime cpuinfo < t - start)%Z /\ Forall (fun t => (t - start <= busyTime cpuinfo)%Z) (take (n - 1) ticks)).
Proof.
  assert (Hb : busyTime cpuinfo = cpuinfo) by (unfold busyTime, INTERVAL; rewrite Z.mul_comm; apply Z.quot_mul; lia).
  unfold sleeps, idleTime, uint32. rewrite Hb. unfold INTERVAL. split_and!.
  - intros H. split; [done|]. rewrite Z.mod_small; lia.
  - intros H. assert (((100 - cpuinfo) * 1000) mod 2 ^ 32 = (100 - cpuinfo) * 1000 + 2 ^ 32)%Z as ->; [|lia].
    symmetry. apply (Z.mod_unique_pos _ _ (-1)); lia.
  - intros start ticks. induction ticks as [|t ticks IH]; intros n; [done|]. cbn [spin]. destruct (Z.leb_spec (t - start) cpuinfo) as [Ht|Ht].
    + destruct (spin cpuinfo start ticks) as [m|] eqn:E; [|done]. cbn. intros [= <-]. destruct (IH m eq_refl) as (u & Hu & Hlt & Hall).
      assert (m <> 0) by (intros ->; clear -E; destruct ticks as [|u ticks]; [done|]; cbn in E; destruct (_ <=? _)%Z; [destruct (spin cpuinfo start ticks)|]; done).
      exists u. replace (S m - 1) with (S (m - 1)) by lia. cbn. split_and!; [done|done|by constructor].
    + intros [= <-]. exists t. cbn. split_and!; [done|lia|constructor].
Qed.
