(* ===== verification/Multiplex.v ===== *)
(** * Multiplex: the servers on select, poll and epoll

    Models [Linux_Net/concurrent/moreIO_concurrent], three servers that send back
    in upper case what they receive: [select_concurrent/server.c] and
    [poll_conncurrent/server.c], which keep a table of clients and count the
    ready descriptors down, and [epoll_concurrent/server.c], which goes through
    the events of a batch. [Socket], [Bind] and [Listen] are left out.

    A round is what the system reports and answers: the ready descriptors, the
    descriptor of an accepted connection, and what reading each of them gives,
    with the number of bytes that are sent back ([Writen] sends all unless the
    connection breaks; a single [Write] may send less). [Accept] succeeds. What a
    connection received and was sent is recorded in [conns], and in [closed] once
    the server has closed it. *)
From S2P Require Import Prelude.
From S2P Require WrapIO.

(** ** What the servers share *)

(** [toupper] in the C locale. *)
Definition toupper (c : ascii) : ascii :=
  if ((97 <=? uchar c) && (uchar c <=? 122))%Z then to_char (uchar c - 32) else c.
Definition upper (s : str) : str := toupper <$> s.

Record conn := Conn { input : list str; output : list str }.
Record net := Net { conns : gmap nat conn; closed : list conn }.

(** What reading gives: bytes, of which [sent] reach the client again, the end of
    the stream, [ECONNRESET], another error. *)
Inductive answer := Data (s : str) (sent : nat) | Eof | Reset | Failed.

Definition talk (s : str) (sent : nat) (c : conn) : conn := Conn (input c ++ [s]) (output c ++ [take sent (upper s)]).
Definition net_talk (fd : nat) (s : str) (sent : nat) (n : net) : net := Net (alter (talk s sent) fd (conns n)) (closed n).
Definition net_open (fd : nat) (n : net) : net := Net (<[fd := Conn [] []]> (conns n)) (closed n).
Definition net_close (fd : nat) (n : net) : net := Net (delete fd (conns n)) (closed n ++ option_list (conns n !! fd)).

Record round := Round { ready : gset nat; connfd : nat; answers : nat -> answer }.

(** The first slot without a client. *)
Fixpoint find_free (i : nat) (l : list (option nat)) : option nat :=
  match l with
  | [] => None
  | None :: _ => Some i
  | Some _ :: l' => find_free (S i) l'
  end.

(** The loop over the table: [k] slots from [i] on, of which [fires] says whether
    the descriptor is ready; it ends early where [stop] holds of the count. *)
Section scan.
Context {S : Type} (slot : S -> nat -> option nat) (fires : S -> nat -> nat -> bool) (handle : nat -> nat -> S -> outcome S) (stop : Z -> bool).
Fixpoint scan (k i : nat) (nready : Z) (st : S) : outcome S :=
  match k with
  | O => returns st
  | Datatypes.S k' =>
      match slot st i with
      | None => scan k' (Datatypes.S i) nready st
      | Some fd =>
          if fires st i fd then
            bind_outcome (handle i fd st) (fun st' =>
              if stop (nready - 1)%Z then returns st' else scan k' (Datatypes.S i) (nready - 1) st')
          else scan k' (Datatypes.S i) nready st
      end
  end.
End scan.

(** ** select *)

Definition FD_SETSIZE : nat := 1024.

Record select_state := Select {
  client : list (option nat); maxi : Z; allset : gset nat; maxfd : nat; s_net : net }.

Definition select_start (listenfd : nat) : select_state :=
  Select (replicate FD_SETSIZE None) (-1) {[listenfd]} listenfd (Net ∅ []).

Definition select_slot (st : select_state) (i : nat) : option nat := mjoin (client st !! i).

(** The body of the loop; an error is not looked at. *)
Definition select_client (r : round) (i fd : nat) (st : select_state) : outcome select_state :=
  returns match answers r fd with
          | Eof => Select (<[i := None]> (client st)) (maxi st) (allset st ∖ {[fd]}) (maxfd st) (net_close fd (s_net st))
          | Data s n => Select (client st) (maxi st) (allset st) (maxfd st) (net_talk fd s n (s_net st))
          | Reset | Failed => st
          end.

Definition select_serve (r : round) (nready : Z) (st : select_state) : outcome select_state :=
  scan select_slot (fun _ _ fd => bool_decide (fd ∈ ready r)) (select_client r) (fun n => n =? 0)%Z
    (Z.to_nat (maxi st + 1)) 0 nready st.

(** [FD_SET] of a descriptor of [FD_SETSIZE] or more writes outside the set. *)
Definition select_accept (fd : nat) (st : select_state) : outcome select_state :=
  match find_free 0 (client st) with
  | None => exits 1
  | Some i =>
      if (fd <? FD_SETSIZE)%nat then
        returns (Select (<[i := Some fd]> (client st)) (Z.max (maxi st) (Z.of_nat i)) ({[fd]} ∪ allset st)
                   (Nat.max (maxfd st) fd) (net_open fd (s_net st)))
      else undefined
  end.

Definition select_round (listenfd : nat) (r : round) (st : select_state) : outcome select_state :=
  let nready := Z.of_nat (size (ready r)) in
  if decide (listenfd ∈ ready r) then
    bind_outcome (select_accept (connfd r) st) (fun st =>
      if (nready - 1 =? 0)%Z then returns st else select_serve r (nready - 1) st)
  else select_serve r nready st.

(** ** poll *)

Definition OPEN_MAX : nat := 1024.

(** [p_client] with the listening descriptor in slot 0; [revents] is [POLLIN] of
    each slot. *)
Record poll_state := Poll { p_client : list (option nat); revents : list bool; p_maxi : nat; p_net : net }.

(** The memory of [revents] holds anything. *)
Definition poll_start (listenfd : nat) (garbage : list bool) : poll_state :=
  Poll (Some listenfd :: replicate (OPEN_MAX - 1) None) garbage 0 (Net ∅ []).

(** [poll] sets [revents] of the slots it is given, to zero where there is no
    descriptor. *)
Definition poll_call (r : round) (st : poll_state) : poll_state :=
  let fired s := match s with Some fd => bool_decide (fd ∈ ready r) | None => false end in
  Poll (p_client st) ((fired <$> take (p_maxi st + 1) (p_client st)) ++ drop (p_maxi st + 1) (revents st)) (p_maxi st) (p_net st).

Definition poll_slot (st : poll_state) (i : nat) : option nat := mjoin (p_client st !! i).

Definition poll_client (r : round) (i fd : nat) (st : poll_state) : outcome poll_state :=
  match answers r fd with
  | Eof | Reset => returns (Poll (<[i := None]> (p_client st)) (revents st) (p_maxi st) (net_close fd (p_net st)))
  | Data s n => returns (Poll (p_client st) (revents st) (p_maxi st) (net_talk fd s n (p_net st)))
  | Failed => WrapIO.perr_exit
  end.

Definition poll_serve (r : round) (nready : Z) (st : poll_state) : outcome poll_state :=
  scan poll_slot (fun st i _ => default false (revents st !! i)) (poll_client r) (fun n => n <=? 0)%Z
    (p_maxi st) 1 nready st.

Definition poll_accept (fd : nat) (st : poll_state) : outcome poll_state :=
  match find_free 1 (tail (p_client st)) with
  | None => WrapIO.perr_exit
  | Some i => returns (Poll (<[i := Some fd]> (p_client st)) (revents st) (Nat.max (p_maxi st) i) (net_open fd (p_net st)))
  end.

Definition poll_round (r : round) (st : poll_state) : outcome poll_state :=
  let st := poll_call r st in
  let nready := Z.of_nat (size (ready r)) in
  if default false (revents st !! 0) then
    bind_outcome (poll_accept (connfd r) st) (fun st =>
      if (nready - 1 <=? 0)%Z then returns st else poll_serve r (nready - 1) st)
  else poll_serve r nready st.

(** ** epoll *)

(** The interest list, and the batch with the index [i] while there is one. *)
Record epoll_state := Epoll { tree : gset nat; batch : option (list nat * nat); e_net : net }.

Definition epoll_start (listenfd : nat) : epoll_state := Epoll {[listenfd]} None (Net ∅ []).

(** [epoll_wait] returns these descriptors; [Accept] returns this one; [Read]
    gives this answer. *)
Inductive epoll_event := waits (ep : list nat) | accepts (fd : nat) | reads (a : answer).

(** One event of the batch. The loop that converts the bytes counts with the
    variable of the loop over the events. *)
Definition epoll_step (listenfd : nat) (st : epoll_state) (e : epoll_event) : option (outcome epoll_state) :=
  match batch st, e with
  | None, waits ep => Some (returns (Epoll (tree st) (Some (ep, 0)) (e_net st)))
  | Some (ep, i), _ =>
      match ep !! i with
      | None => match e with waits ep' => Some (returns (Epoll (tree st) (Some (ep', 0)) (e_net st))) | _ => None end
      | Some fd =>
          if decide (fd = listenfd) then
            match e with
            | accepts c => Some (returns (Epoll ({[c]} ∪ tree st) (Some (ep, S i)) (net_open c (e_net st))))
            | _ => None
            end
          else
            match e with
            | reads Eof =>
                if decide (fd ∈ tree st) then Some (returns (Epoll (tree st ∖ {[fd]}) (Some (ep, S i)) (net_close fd (e_net st))))
                else Some WrapIO.perr_exit
            | reads (Data s n) => Some (returns (Epoll (tree st) (Some (ep, S (length s))) (net_talk fd s n (e_net st))))
            | reads Reset | reads Failed =>
                (* [Close] fails on a descriptor that is not open *)
                match conns (e_net st) !! fd with
                | Some _ => Some (returns (Epoll (tree st ∖ {[fd]}) (Some (ep, S i)) (net_close fd (e_net st))))
                | None => Some WrapIO.perr_exit
                end
            | _ => None
            end
      end
  | None, _ => None
  end.

Fixpoint epoll_run (listenfd : nat) (st : epoll_state) (es : list epoll_event) : option (outcome epoll_state) :=
  match es with
  | [] => Some (returns st)
  | e :: es' => o ← epoll_step listenfd st e;
      match o with returns st' => epoll_run listenfd st' es' | _ => Some o end
  end.

(** ** Specification *)

(** What was sent back is, read by read, a part from its start of what was
    received, in upper case. *)
Definition conn_ok (c : conn) : Prop := Forall2 (fun o i => o `prefix_of` upper i) (output c) (input c).
Definition net_ok (n : net) : Prop := map_Forall (fun _ => conn_ok) (conns n) /\ Forall conn_ok (closed n).

(** What a round makes of a connection that is ready. *)
Definition respond (on_reset : bool) (a : answer) (c : conn) : option conn :=
  match a with
  | Data s n => Some (talk s n c)
  | Eof => None
  | Reset => if on_reset then None else Some c
  | Failed => Some c
  end.

(** The connections after a round: the new one, and each ready one served. *)
Definition round_conns (on_reset : bool) (listenfd : nat) (r : round) (cs : gmap nat conn) (fd : nat) : option conn :=
  if decide (listenfd ∈ ready r /\ fd = connfd r) then Some (Conn [] [])
  else c ← cs !! fd; if decide (fd ∈ ready r) then respond on_reset (answers r fd) c else Some c.

(** The table and the open connections agree. *)
Record table_ok (lo : nat) (slot : nat -> option nat) (cs : gmap nat conn) : Prop := {
  tab_inj : forall i j fd, lo <= i -> lo <= j -> slot i = Some fd -> slot j = Some fd -> i = j;
  tab_dom : forall fd, is_Some (cs !! fd) <-> exists i, lo <= i /\ slot i = Some fd }.

(** ** Connections *)

Lemma talk_ok s n c : conn_ok c -> conn_ok (talk s n c).
Proof. intros Hc. apply Forall2_app; [done|]. constructor; [|done]. exists (drop n (upper s)). by rewrite take_drop. Qed.

Lemma net_talk_ok fd s n nt : net_ok nt -> net_ok (net_talk fd s n nt).
Proof.
  intros [H1 H2]. split; [|done]. intros fd' c. cbn. rewrite lookup_alter. case_decide; [subst fd'|apply H1].
  intros (c' & Hc & ->)%fmap_Some. apply talk_ok. by apply (H1 fd).
Qed.

Lemma net_open_ok fd nt : net_ok nt -> net_ok (net_open fd nt).
Proof. intros [H1 H2]. split; [|done]. apply map_Forall_insert_2; [constructor|done]. Qed.

Lemma net_close_ok fd nt : net_ok nt -> net_ok (net_close fd nt).
Proof.
  intros [H1 H2]. split; cbn; [by apply map_Forall_delete|]. apply Forall_app. split; [done|].
  destruct (conns nt !! fd) as [c|] eqn:Hc; [|constructor]. constructor; [by apply (H1 fd)|constructor].
Qed.

(** ** The table *)

Lemma slot_insert (l : list (option nat)) i x j :
  mjoin (<[i := x]> l !! j) = if decide (j = i /\ i < length l) then x else mjoin (l !! j).
Proof.
  destruct (decide (j = i)) as [->|Hne].
  - destruct (decide (i < length l)) as [Hlt|Hge].
    + rewrite list_lookup_insert_eq, decide_True by done. done.
    + rewrite list_insert_ge, decide_False by (try lia; intros [_ ?]; lia). done.
  - rewrite list_lookup_insert_ne, decide_False by (try done; by intros [? _]). done.
Qed.

Lemma free_slot_spec k l :
  match find_free k l with
  | Some i => k <= i < k + length l /\ l !! (i - k) = Some None /\ forall j, k <= j < i -> exists fd, l !! (j - k) = Some (Some fd)
  | None => forall j o, l !! j = Some o -> o <> None
  end.
Proof.
  revert k. induction l as [|[fd|] l IH]; intros k; cbn [find_free].
  - intros j o. by rewrite lookup_nil.
  - specialize (IH (S k)). destruct (find_free (S k) l) as [i|].
    + destruct IH as (Hi & Hn & Hb). split; [cbn; lia|]. split.
      * replace (i - k) with (S (i - S k)) by lia. exact Hn.
      * intros j Hj. destruct (decide (j = k)) as [->|Hne]; [rewrite Nat.sub_diag; by exists fd|].
        destruct (Hb j ltac:(lia)) as [fd' Hfd]. exists fd'. by replace (j - k) with (S (j - S k)) by lia.
    + intros [|j] o; cbn; [by intros [= <-]|apply IH].
  - split; [cbn; lia|]. rewrite Nat.sub_diag. split; [done|]. intros j Hj. lia.
Qed.

Section table.
Context (lo : nat) (slot slot' : nat -> option nat) (cs : gmap nat conn) (Hok : table_ok lo slot cs).

Lemma table_open i fd c :
  lo <= i -> slot i = None -> cs !! fd = None -> (forall j, slot' j = if decide (j = i) then Some fd else slot j) ->
  table_ok lo slot' (<[fd := c]> cs).
Proof.
  intros Hi Hn Hfd Hs. assert (forall j, lo <= j -> slot j <> Some fd) as Hno.
  { intros j Hj Hx. assert (is_Some (cs !! fd)) as [? Hx']; [|congruence]. apply (tab_dom _ _ _ Hok). by exists j. }
  constructor.
  - intros j1 j2 fd' H1 H2. rewrite !Hs. repeat case_decide; subst; intros Ha Hb; simplify_eq; try done; [by destruct (Hno j2 H2)|by destruct (Hno j1 H1)|].
    by apply (tab_inj _ _ _ Hok _ _ fd').
  - intros fd'. rewrite lookup_insert_is_Some, (tab_dom _ _ _ Hok). split.
    + intros [<-|[Hne (j & Hj & Hx)]]; [exists i; rewrite Hs, decide_True by done; done|].
      exists j. rewrite Hs. case_decide as Hd; [subst; congruence|done].
    + intros (j & Hj & Hx). rewrite Hs in Hx. case_decide; [injection Hx as <-; by left|].
      destruct (decide (fd = fd')) as [->|Hne]; [by left|right]. split; [done|]. by exists j.
Qed.

Lemma table_close i fd :
  lo <= i -> slot i = Some fd -> (forall j, slot' j = if decide (j = i) then None else slot j) -> table_ok lo slot' (delete fd cs).
Proof.
  intros Hi Hfd Hs. constructor.
  - intros j1 j2 fd' H1 H2. rewrite !Hs. repeat case_decide; try done. by apply (tab_inj _ _ _ Hok).
  - intros fd'. rewrite lookup_delete_is_Some, (tab_dom _ _ _ Hok). split.
    + intros (Hne & j & Hj & Hx). exists j. rewrite Hs, decide_False; [done|]. intros ->. congruence.
    + intros (j & Hj & Hx). rewrite Hs in Hx. case_decide as Hd; [done|]. split; [|by exists j].
      intros ->. destruct Hd. by apply (tab_inj _ _ _ Hok _ _ fd').
Qed.

Lemma table_same fd f : (forall j, slot' j = slot j) -> table_ok lo slot' (alter f fd cs).
Proof.
  intros Hs. constructor.
  - intros j1 j2 fd'. rewrite !Hs. apply (tab_inj _ _ _ Hok).
  - intros fd'. rewrite lookup_alter_is_Some, (tab_dom _ _ _ Hok). split; intros (j & Hj & Hx); exists j; by rewrite ?Hs in *.
Qed.
End table.

(** ** The loop over the table *)

Section loop.
Context {S : Type} (slot : S -> nat -> option nat) (fires : S -> nat -> nat -> bool) (handle : nat -> nat -> S -> outcome S) (stop : Z -> bool).

(** The slots that fire, and the loop without the count. *)
Definition fired (st : S) (i k : nat) : list (nat * nat) :=
  omap (fun j => fd ← slot st j; if fires st j fd then Some (j, fd) else None) (seq i k).

Fixpoint serve_all (l : list (nat * nat)) (st : S) : outcome S :=
  match l with [] => returns st | (j, fd) :: l' => bind_outcome (handle j fd st) (serve_all l') end.

Context (Hkeep : forall j fd st st' j', handle j fd st = returns st' -> j <> j' ->
  slot st' j' = slot st j' /\ forall fd', fires st' j' fd' = fires st j' fd').
Context (Hstop : forall n, (0 <= n)%Z -> stop n = (n =? 0)%Z).

Lemma fired_S st i k : fired st i (Datatypes.S k) =
  match slot st i with
  | Some fd => if fires st i fd then (i, fd) :: fired st (Datatypes.S i) k else fired st (Datatypes.S i) k
  | None => fired st (Datatypes.S i) k
  end.
Proof. unfold fired. cbn. destruct (slot st i) as [fd|]; cbn; [by destruct (fires st i fd)|done]. Qed.

Lemma fired_keep j fd st st' i k : handle j fd st = returns st' -> j < i -> fired st' i k = fired st i k.
Proof.
  intros Hh. revert i. induction k as [|k IH]; intros i Hi; [done|]. rewrite !fired_S, IH by lia.
  destruct (Hkeep j fd st st' i Hh ltac:(lia)) as [-> Hf]. by destruct (slot st i); rewrite ?Hf.
Qed.

(** Counting down serves every slot that fires, if the count is right. *)
Lemma scan_all k i nready st :
  nready = Z.of_nat (length (fired st i k)) \/ fired st i k = [] ->
  scan slot fires handle stop k i nready st = serve_all (fired st i k) st.
Proof.
  revert i nready st. induction k as [|k IH]; intros i nready st Hn; [done|].
  cbn [scan]. rewrite fired_S in *. destruct (slot st i) as [fd|] eqn:Hs; [|by apply IH].
  destruct (fires st i fd); [|by apply IH]. cbn [serve_all]. destruct Hn as [->|]; [|done].
  destruct (handle i fd st) as [st'| |] eqn:Hh; cbn [bind_outcome]; [|done..].
  pose proof (fired_keep i fd st st' (Datatypes.S i) k Hh ltac:(lia)) as Hk. rewrite <- Hk.
  cbn [length]. replace (Z.of_nat (Datatypes.S _) - 1)%Z with (Z.of_nat (length (fired st' (Datatypes.S i) k))) by lia.
  rewrite Hstop by lia. destruct (Z.eqb_spec (Z.of_nat (length (fired st' (Datatypes.S i) k))) 0) as [Hz|Hz].
  - destruct (fired st' (Datatypes.S i) k); [done|cbn in Hz; lia].
  - apply IH. by left.
Qed.

(** If it is the count of the first [k0] slots, the loop ends there. *)
Lemma scan_some k0 k i st :
  k0 <= k -> fired st i k0 <> [] ->
  scan slot fires handle stop k i (Z.of_nat (length (fired st i k0))) st = serve_all (fired st i k0) st.
Proof.
  revert k i st. induction k0 as [|k0 IH]; intros k i st Hk Hn; [done|]. destruct k as [|k]; [lia|].
  cbn [scan]. rewrite fired_S in *. destruct (slot st i) as [fd|] eqn:Hs; [|apply IH; [lia|done]].
  destruct (fires st i fd); [|apply IH; [lia|done]]. cbn [serve_all].
  destruct (handle i fd st) as [st'| |] eqn:Hh; cbn [bind_outcome]; [|done..].
  pose proof (fired_keep i fd st st' (Datatypes.S i) k0 Hh ltac:(lia)) as Hkp. rewrite <- Hkp.
  cbn [length]. replace (Z.of_nat (Datatypes.S _) - 1)%Z with (Z.of_nat (length (fired st' (Datatypes.S i) k0))) by lia.
  rewrite Hstop by lia. destruct (Z.eqb_spec (Z.of_nat (length (fired st' (Datatypes.S i) k0))) 0) as [Hz|Hz].
  - destruct (fired st' (Datatypes.S i) k0); [done|cbn in Hz; lia].
  - apply IH; [lia|]. by intros He; rewrite He in Hz.
Qed.

(** Which slots these are. *)
Lemma elem_fired st i k j fd : (j, fd) ∈ fired st i k <-> i <= j < i + k /\ slot st j = Some fd /\ fires st j fd = true.
Proof.
  unfold fired. rewrite list_elem_of_omap. split.
  - intros (j' & Hj%elem_of_seq & Hx). destruct (slot st j') as [fd'|] eqn:Hs; [|done]. cbn in Hx.
    destruct (fires st j' fd') eqn:Hf; [|done]. injection Hx as -> ->. done.
  - intros (Hj & Hs & Hf). exists j. split; [by apply elem_of_seq|]. rewrite Hs. cbn. by rewrite Hf.
Qed.

Lemma fired_sorted st i k : NoDup (fst <$> fired st i k) /\ Forall (fun p => i <= fst p) (fired st i k).
Proof.
  revert i. induction k as [|k IH]; intros i; [split; constructor|]. rewrite fired_S. destruct (IH (Datatypes.S i)) as [H1 H2].
  assert (Forall (fun p => i <= fst p) (fired st (Datatypes.S i) k)) as H3 by (eapply Forall_impl; [exact H2|cbn; intros; lia]).
  destruct (slot st i) as [fd|]; [|done]. destruct (fires st i fd); [|done]. split; [|by constructor].
  rewrite fmap_cons. apply NoDup_cons. split; [|done]. intros ((j & fd') & Heq & Hin)%list_elem_of_fmap. cbn in Heq. subst j.
  rewrite Forall_forall in H2. specialize (H2 _ Hin). cbn in H2. lia.
Qed.

(** Serving a list of clients changes these connections, each as its handler
    does, and keeps what the handler keeps. *)
Context (cs : S -> gmap nat conn) (change : nat -> conn -> option conn) (I : S -> Prop).
Context (Heff : forall j fd st st', I st -> slot st j = Some fd -> handle j fd st = returns st' ->
  I st' /\ forall fd', cs st' !! fd' = if decide (fd' = fd) then cs st !! fd ≫= change fd else cs st !! fd').

Lemma serve_all_spec l st st' :
  I st -> NoDup (fst <$> l) -> NoDup (snd <$> l) -> (forall j fd, (j, fd) ∈ l -> slot st j = Some fd) -> serve_all l st = returns st' ->
  I st' /\ forall fd', cs st' !! fd' = if decide (fd' ∈ snd <$> l) then cs st !! fd' ≫= change fd' else cs st !! fd'.
Proof.
  revert st. induction l as [|[j fd] l IH]; intros st HI Hj Hfd Hin; cbn [serve_all].
  - intros [= <-]. split; [done|]. intros fd'. rewrite decide_False; [done|]. apply not_elem_of_nil.
  - rewrite !fmap_cons in *. cbn in Hj, Hfd. apply NoDup_cons in Hj as [Hj1 Hj2]. apply NoDup_cons in Hfd as [Hf1 Hf2].
    destruct (handle j fd st) as [st1| |] eqn:Hh; cbn [bind_outcome]; [|done..]. intros Hs.
    destruct (Heff j fd st st1 HI (Hin j fd ltac:(left)) Hh) as [HI1 H1].
    assert (forall j' fd', (j', fd') ∈ l -> slot st1 j' = Some fd') as Hin1.
    { intros j' fd' Hx. destruct (Hkeep j fd st st1 j' Hh) as [-> _]; [|by apply Hin; right].
      intros ->. destruct Hj1. apply list_elem_of_fmap. by exists (j', fd'). }
    destruct (IH st1 HI1 Hj2 Hf2 Hin1 Hs) as [HI2 H2]. split; [done|]. intros fd'. rewrite H2, !H1. cbn [fst snd].
    destruct (decide (fd' = fd)) as [->|Hne].
    + rewrite decide_False, decide_True by (try done; by left). done.
    + destruct (decide (fd' ∈ snd <$> l)) as [Hl|Hl]; [rewrite decide_True by (by right); done|].
      rewrite decide_False; [done|]. by intros [|]%elem_of_cons.
Qed.
End loop.

(** ** select *)

Record select_inv (listenfd : nat) (st : select_state) : Prop := {
  sel_len : length (client st) = FD_SETSIZE;
  sel_table : table_ok 0 (select_slot st) (conns (s_net st));
  sel_listen : conns (s_net st) !! listenfd = None;
  sel_set : forall fd, fd ∈ allset st <-> fd = listenfd \/ is_Some (conns (s_net st) !! fd);
  sel_max : (forall fd, fd ∈ allset st -> fd <= maxfd st) /\ maxfd st < FD_SETSIZE;
  sel_maxi : (-1 <= maxi st)%Z /\ forall i, (maxi st < Z.of_nat i)%Z -> select_slot st i = None;
  sel_net : net_ok (s_net st) }.

(** What the system does: it reports descriptors of the set it was given, and
    accepts a connection with a new descriptor. *)
Definition select_reports (listenfd : nat) (st : select_state) (r : round) : Prop :=
  ready r <> ∅ /\ ready r ⊆ allset st /\
  (listenfd ∈ ready r -> connfd r <> listenfd /\ conns (s_net st) !! connfd r = None).

Definition select_change (r : round) (fd : nat) : conn -> option conn := respond false (answers r fd).

Lemma select_client_effect listenfd r j fd st st' :
  select_inv listenfd st -> select_slot st j = Some fd -> select_client r j fd st = returns st' ->
  select_inv listenfd st' /\
  forall fd', conns (s_net st') !! fd' = if decide (fd' = fd) then conns (s_net st) !! fd ≫= select_change r fd else conns (s_net st) !! fd'.
Proof.
  intros Hinv Hj. pose proof (sel_table _ _ Hinv) as Ht.
  assert (is_Some (conns (s_net st) !! fd)) as [c Hc] by (apply (tab_dom _ _ _ Ht); exists j; split; [lia|done]).
  assert (fd <> listenfd) as Hne by (intros ->; pose proof (sel_listen _ _ Hinv); congruence).
  unfold select_client, select_change. intros [= <-]. destruct Hinv as [Hl _ Hli Hset Hmax Hmaxi Hnet].
  destruct (answers r fd) as [s n| | |].
  - split.
    + constructor; cbn; try done.
      * by apply (table_same 0 (select_slot st)).
      * by rewrite lookup_alter_ne.
      * intros fd'. by rewrite lookup_alter_is_Some.
      * by apply net_talk_ok.
    + intros fd'. cbn. rewrite lookup_alter. case_decide as Hd; [subst fd'|by rewrite decide_False by congruence].
      rewrite decide_True by done. by rewrite Hc.
  - assert (forall i, select_slot (Select (<[j:=None]> (client st)) (maxi st) (allset st ∖ {[fd]}) (maxfd st) (net_close fd (s_net st))) i
      = if decide (i = j) then None else select_slot st i) as Hs.
    { intros i. unfold select_slot. cbn. rewrite slot_insert. repeat case_decide; try tauto; subst.
      assert (mjoin (client st !! j) = Some fd) as Hx by exact Hj. destruct (client st !! j) eqn:He; [|done].
      apply lookup_lt_Some in He. tauto. }
    split.
    + constructor; cbn [client maxi allset maxfd s_net net_close conns]; try done.
      * by rewrite length_insert.
      * apply (table_close 0 (select_slot st) _ _ Ht j fd); [lia|done|exact Hs].
      * rewrite lookup_delete_ne by done. exact Hli.
      * intros fd'. rewrite elem_of_difference, not_elem_of_singleton, Hset, lookup_delete_is_Some. naive_solver.
      * destruct Hmax as [H1 H2]. split; [|done]. intros fd' [Hx _]%elem_of_difference. by apply H1.
      * split; [apply Hmaxi|]. intros i Hi. rewrite Hs. case_decide; [done|]. by apply Hmaxi.
      * by apply net_close_ok.
    + intros fd'. cbn. rewrite lookup_delete. case_decide as Hd; [subst fd'|by rewrite decide_False by congruence].
      rewrite decide_True by done. by rewrite Hc.
  - split; [by constructor|]. intros fd'. case_decide; [subst|done]. by rewrite Hc.
  - split; [by constructor|]. intros fd'. case_decide; [subst|done]. by rewrite Hc.
Qed.

Lemma select_client_keep r j fd st st' j' : select_client r j fd st = returns st' -> j <> j' -> select_slot st' j' = select_slot st j'.
Proof.
  unfold select_client. intros [= <-] Hne. destruct (answers r fd); try done. unfold select_slot. cbn.
  by rewrite list_lookup_insert_ne.
Qed.

(** The slots that fire are those of the ready clients. *)
Lemma fired_clients {S} lo (slot : S -> nat -> option nat) (fires : S -> nat -> nat -> bool) st k cs (rd : gset nat) :
  table_ok lo (slot st) cs -> (forall j fd, lo + k <= j -> slot st j = Some fd -> fd ∉ rd) ->
  (forall j fd, lo <= j < lo + k -> slot st j = Some fd -> fires st j fd = bool_decide (fd ∈ rd)) ->
  let l := fired slot fires st lo k in
  NoDup (fst <$> l) /\ NoDup (snd <$> l) /\ (forall j fd, (j, fd) ∈ l -> slot st j = Some fd) /\
  (forall fd, fd ∈ snd <$> l <-> fd ∈ rd /\ is_Some (cs !! fd)) /\
  length l = size (rd ∩ dom cs).
Proof.
  intros Ht Hbeyond Hf l. destruct (fired_sorted slot fires st lo k) as [Hnd _].
  assert (forall j fd, (j, fd) ∈ l -> slot st j = Some fd /\ lo <= j < lo + k) as Hin by (intros j fd (? & ? & _)%elem_fired; split; [done|lia]).
  assert (NoDup (snd <$> l)) as Hnd2.
  { apply NoDup_fmap_2_strong; [|by apply NoDup_fmap_1 in Hnd]. intros [j1 f1] [j2 f2] H1 H2 Heq. cbn in Heq. subst f2.
    destruct (Hin _ _ H1), (Hin _ _ H2). f_equal. apply (tab_inj _ _ _ Ht _ _ f1); lia || done. }
  assert (forall fd, fd ∈ snd <$> l <-> fd ∈ rd /\ is_Some (cs !! fd)) as Hset.
  { intros fd. rewrite (tab_dom _ _ _ Ht), list_elem_of_fmap. split.
    - intros ([j fd'] & -> & Hx). destruct (Hin _ _ Hx) as [Hs Hlo]. apply elem_fired in Hx as (_ & _ & Hfire).
      rewrite Hf in Hfire by done. apply bool_decide_eq_true in Hfire. split; [done|]. exists j. split; [lia|done].
    - intros (Hrd & j & Hj & Hs). exists (j, fd). split; [done|]. apply elem_fired.
      assert (j < lo + k) as Hjk by (destruct (decide (j < lo + k)); [done|]; destruct (Hbeyond j fd ltac:(lia) Hs Hrd)).
      split; [done|split; [done|]]. rewrite Hf by done. by apply bool_decide_eq_true. }
  split_and!; [done|done|by intros j fd Hx; apply Hin|done|].
  rewrite <- (length_fmap snd), <- (size_list_to_set (C := gset nat)) by done. apply set_size_proper. intros fd.
  by rewrite elem_of_list_to_set, Hset, elem_of_intersection, elem_of_dom.
Qed.

Lemma nobody_ready (rd : gset nat) (cs : gmap nat conn) fd : size (rd ∩ dom cs) = 0 -> fd ∈ rd -> cs !! fd = None.
Proof.
  intros He%size_empty_inv Hr. destruct (cs !! fd) eqn:Hs; [|done]. exfalso.
  apply (not_elem_of_empty (C := gset nat) fd). rewrite <- He. apply elem_of_intersection. split; [done|]. by apply elem_of_dom.
Qed.

Lemma serve_all_total {S} (handle : nat -> nat -> S -> outcome S) l st :
  (forall j fd st, exists st', handle j fd st = returns st') -> exists st', serve_all handle l st = returns st'.
Proof.
  intros Ht. revert st. induction l as [|[j fd] l IH]; intros st; [by exists st|]. cbn. destruct (Ht j fd st) as [st1 ->]. apply IH.
Qed.

Lemma select_serve_spec listenfd r nready st :
  select_inv listenfd st -> (nready = Z.of_nat (size (ready r ∩ dom (conns (s_net st)))) \/ ready r ∩ dom (conns (s_net st)) = ∅) ->
  exists st', select_serve r nready st = returns st' /\ select_inv listenfd st' /\
    forall fd, conns (s_net st') !! fd = if decide (fd ∈ ready r) then conns (s_net st) !! fd ≫= select_change r fd else conns (s_net st) !! fd.
Proof.
  intros Hinv Hn. unfold select_serve. set (k := Z.to_nat (maxi st + 1)). set (fires := fun _ _ fd => bool_decide (fd ∈ ready r)).
  destruct (sel_maxi _ _ Hinv) as [Hm1 Hm2].
  destruct (fired_clients 0 select_slot fires st k (conns (s_net st)) (ready r) (sel_table _ _ Hinv)) as (Hnd1 & Hnd2 & Hin & Hset & Hlen);
    [intros j fd Hj Hs; rewrite Hm2 in Hs by lia; done|done|].
  rewrite scan_all.
  - destruct (serve_all_total (select_client r) (fired select_slot fires st 0 k) st) as [st' Hs]; [by intros; eexists|].
    rewrite Hs. exists st'. split; [done|].
    destruct (serve_all_spec select_slot fires (select_client r)
      (fun j fd s1 s2 j' H Hne => conj (select_client_keep r j fd s1 s2 j' H Hne) (fun _ => eq_refl))
      (fun s => conns (s_net s)) (select_change r) (select_inv listenfd)
      (fun j fd s1 s2 H1 H2 => select_client_effect listenfd r j fd s1 s2 H1 H2)
      _ st st' Hinv Hnd1 Hnd2 Hin Hs) as [Hinv' Heff].
    split; [done|]. intros fd. rewrite Heff. destruct (decide (fd ∈ ready r)) as [Hr|Hr].
    + case_decide as Hl; [done|]. destruct (conns (s_net st) !! fd) eqn:Hc; [|done]. destruct Hl. apply Hset. by rewrite Hc.
    + rewrite decide_False; [done|]. by intros [? _]%Hset.
  - intros j fd s1 s2 j' H Hne. split; [by eapply select_client_keep|done].
  - done.
  - rewrite Hlen. destruct Hn as [->|He]; [by left|right].
    destruct (fired select_slot fires st 0 k); [done|]. rewrite He in Hlen. done.
Qed.

Lemma select_accept_spec listenfd fd st :
  select_inv listenfd st -> fd <> listenfd -> conns (s_net st) !! fd = None ->
  match select_accept fd st with
  | returns st' => select_inv listenfd st' /\ conns (s_net st') = <[fd := Conn [] []]> (conns (s_net st)) /\ fd < FD_SETSIZE
  | exits _ => False
  | undefined => FD_SETSIZE <= fd
  end.
Proof.
  intros Hinv Hne Hfd. unfold select_accept. pose proof (free_slot_spec 0 (client st)) as Hff.
  destruct Hinv as [Hl Ht Hli Hset Hmax Hmaxi Hnet]. destruct (find_free 0 (client st)) as [i|].
  - destruct Hff as (Hi & Hnone & _). rewrite Nat.sub_0_r in Hnone. destruct (Nat.ltb_spec fd FD_SETSIZE) as [Hlt|]; [|done].
    assert (forall j, mjoin (<[i := Some fd]> (client st) !! j) = if decide (j = i) then Some fd else select_slot st j) as Hs.
    { intros j. rewrite slot_insert. unfold select_slot. repeat case_decide; try done; tauto || lia. }
    split; [|split; [done|done]]. constructor; cbn [client maxi allset maxfd s_net net_open conns]; try done.
    + by rewrite length_insert.
    + apply (table_open 0 (select_slot st) _ _ Ht i fd); [lia|unfold select_slot; by rewrite Hnone|done|exact Hs].
    + by rewrite lookup_insert_ne.
    + intros fd'. rewrite elem_of_union, elem_of_singleton, Hset, lookup_insert_is_Some'. naive_solver.
    + destruct Hmax as [H1 H2]. split; [|lia]. intros fd' [->%elem_of_singleton|Hx%H1]%elem_of_union; lia.
    + destruct Hmaxi as [H1 H2]. split; [lia|]. intros j Hj. unfold select_slot. cbn. rewrite Hs, decide_False by lia. apply H2. lia.
    + by apply net_open_ok.
  - (* the table cannot be full: all descriptors are below [FD_SETSIZE] *)
    assert (NoDup (listenfd :: omap id (client st))) as Hnd.
    { apply NoDup_cons. split.
      - rewrite list_elem_of_omap. intros (o & Ho & Hx). cbn in Hx. subst o. apply list_elem_of_lookup in Ho as [j Hj].
        assert (is_Some (conns (s_net st) !! listenfd)) as [? Hx]; [|congruence]. apply (tab_dom _ _ _ Ht).
        exists j. split; [lia|]. unfold select_slot. by rewrite Hj.
      - assert (client st = Some <$> omap id (client st)) as Heq.
        { clear - Hff. induction (client st) as [|o l IH]; [done|]. destruct o as [x|]; [|by destruct (Hff 0 None eq_refl)].
          cbn. f_equal. apply IH. intros j o Ho. by apply (Hff (S j)). }
        apply NoDup_alt. intros j1 j2 x H1 H2. apply (tab_inj _ _ _ Ht _ _ x); [lia..| |]; unfold select_slot;
          rewrite Heq, list_lookup_fmap; [by rewrite H1|by rewrite H2]. }
    assert (length (listenfd :: omap id (client st)) <= length (seq 0 FD_SETSIZE)) as Hle.
    { apply submseteq_length, NoDup_submseteq; [done|]. intros x Hx. apply elem_of_seq. destruct Hmax as [H1 H2].
      assert (x ∈ allset st) as Hxs; [|specialize (H1 x Hxs); lia]. apply Hset. apply elem_of_cons in Hx as [->|Hx]; [by left|right].
      rewrite list_elem_of_omap in Hx. destruct Hx as (o & Ho & Hx). cbn in Hx. subst o. apply list_elem_of_lookup in Ho as [j Hj].
      apply (tab_dom _ _ _ Ht). exists j. split; [lia|]. unfold select_slot. by rewrite Hj. }
    rewrite length_seq in Hle. cbn [length] in Hle.
    assert (length (omap id (client st)) = length (client st)) as Hlen.
    { clear - Hff. induction (client st) as [|o l IH]; [done|]. destruct o as [x|]; [|by destruct (Hff 0 None eq_refl)].
      cbn. f_equal. apply IH. intros j o Ho. by apply (Hff (S j)). }
    rewrite Hlen, Hl in Hle. lia.
Qed.

(** Counting the ready clients, with a new connection that is not one of them. *)
Lemma ready_clients (rd : gset nat) (cs : gmap nat conn) listenfd fd c :
  listenfd ∈ rd -> cs !! listenfd = None -> cs !! fd = None -> fd <> listenfd ->
  (forall f, f ∈ rd -> f = listenfd \/ is_Some (cs !! f)) ->
  fd ∉ rd /\ (Z.of_nat (size rd) - 1)%Z = Z.of_nat (size (rd ∩ dom (<[fd := c]> cs))).
Proof.
  intros Hl Hli Hfd Hne Hr. assert (fd ∉ rd) as Hn by (intros Hx; destruct (Hr _ Hx) as [|[? ?]]; congruence). split; [done|].
  assert (rd ∩ dom (<[fd := c]> cs) = rd ∖ {[listenfd]}) as ->.
  { apply set_eq. intros f. rewrite elem_of_intersection, elem_of_dom, elem_of_difference, not_elem_of_singleton, lookup_insert_is_Some'.
    split.
    - intros [Hx [<-|Hy]]; [done|]. split; [done|]. intros ->. rewrite Hli in Hy. by destruct Hy.
    - intros [Hx Hy]. split; [done|]. destruct (Hr f Hx); [done|by right]. }
  pose proof (subseteq_size {[listenfd]} rd ltac:(set_solver)) as Hs1. rewrite size_singleton in Hs1.
  rewrite size_difference, size_singleton by set_solver. lia.
Qed.

(** The effect on each connection is that of the specification. *)
Lemma round_conns_eq on_reset listenfd r (cs cs1 cs2 : gmap nat conn) :
  (if decide (listenfd ∈ ready r) then cs1 = <[connfd r := Conn [] []]> cs /\ connfd r ∉ ready r else cs1 = cs) ->
  (forall fd, cs2 !! fd = if decide (fd ∈ ready r) then cs1 !! fd ≫= respond on_reset (answers r fd) else cs1 !! fd) ->
  forall fd, cs2 !! fd = round_conns on_reset listenfd r cs fd.
Proof.
  intros H1 H2 fd. rewrite H2. unfold round_conns. case_decide as Hl.
  - destruct H1 as [-> Hn]. destruct (decide (fd = connfd r)) as [->|Hf].
    + rewrite decide_False by done. rewrite lookup_insert_eq. by rewrite decide_True by done.
    + rewrite lookup_insert_ne by done. rewrite (decide_False (P := listenfd ∈ ready r /\ fd = connfd r)) by tauto.
      case_decide; by destruct (cs !! fd).
  - rewrite (decide_False (P := listenfd ∈ ready r /\ fd = connfd r)) by tauto. subst cs1. case_decide; by destruct (cs !! fd).
Qed.

Lemma select_round_spec listenfd r st :
  select_inv listenfd st -> select_reports listenfd st r ->
  match select_round listenfd r st with
  | returns st' => select_inv listenfd st' /\ forall fd, conns (s_net st') !! fd = round_conns false listenfd r (conns (s_net st)) fd
  | exits _ => False
  | undefined => listenfd ∈ ready r /\ FD_SETSIZE <= connfd r
  end.
Proof.
  intros Hinv (Hne & Hsub & Hacc). unfold select_round. pose proof (sel_listen _ _ Hinv) as Hli.
  assert (forall fd, fd ∈ ready r -> fd = listenfd \/ is_Some (conns (s_net st) !! fd)) as Hr by (intros fd Hx; by apply (sel_set _ _ Hinv), Hsub).
  case_decide as Hl.
  - destruct (Hacc Hl) as [Hc1 Hc2]. pose proof (select_accept_spec listenfd (connfd r) st Hinv Hc1 Hc2) as Ha.
    destruct (select_accept (connfd r) st) as [st1| |]; cbn [bind_outcome]; [|done|done]. destruct Ha as (Hinv1 & Hcs & _).
    destruct (ready_clients (ready r) _ listenfd (connfd r) (Conn [] []) Hl Hli Hc2 Hc1 Hr) as [Hcr Hcount].
    rewrite <- Hcs in Hcount. rewrite Hcount.
    assert (forall cs2 : gmap nat conn, (forall fd, cs2 !! fd = if decide (fd ∈ ready r) then conns (s_net st1) !! fd ≫= select_change r fd else conns (s_net st1) !! fd) ->
      forall fd, cs2 !! fd = round_conns false listenfd r (conns (s_net st)) fd) as Hspec.
    { intros cs2. apply round_conns_eq. rewrite decide_True, Hcs by done. done. }
    destruct (Z.eqb_spec (Z.of_nat (size (ready r ∩ dom (conns (s_net st1))))) 0) as [Hz|Hz].
    + split; [done|]. apply Hspec. intros fd. case_decide; [|done]. by rewrite (nobody_ready (ready r)) by (done || lia).
    + destruct (select_serve_spec listenfd r _ st1 Hinv1 (or_introl eq_refl)) as (st2 & -> & Hinv2 & Heff).
      split; [done|]. by apply Hspec.
  - assert (ready r ∩ dom (conns (s_net st)) = ready r) as Hcl.
    { apply set_eq. intros fd. rewrite elem_of_intersection, elem_of_dom. split; [tauto|]. intros Hx. split; [done|].
      by destruct (Hr fd Hx) as [->|]. }
    destruct (select_serve_spec listenfd r (Z.of_nat (size (ready r))) st Hinv ltac:(left; by rewrite Hcl)) as (st' & -> & Hinv' & Heff).
    split; [done|]. apply (round_conns_eq false listenfd r _ (conns (s_net st))); [|exact Heff]. by rewrite decide_False.
Qed.

Lemma select_start_inv listenfd : listenfd < FD_SETSIZE -> select_inv listenfd (select_start listenfd).
Proof.
  intros Hl. assert (forall i, select_slot (select_start listenfd) i = None) as Hs.
  { intros i. unfold select_slot, select_start. cbn [client]. destruct (replicate FD_SETSIZE None !! i) as [o|] eqn:Ho; [|done].
    apply lookup_replicate in Ho as [-> _]. done. }
  constructor; cbn [select_start client maxi allset maxfd s_net conns].
  - apply length_replicate.
  - constructor; [intros i j fd _ _; by rewrite Hs|]. intros fd. split; [intros [? Hx]; by rewrite lookup_empty in Hx|].
    intros (i & _ & Hx). by rewrite Hs in Hx.
  - apply lookup_empty.
  - intros fd. rewrite elem_of_singleton, lookup_empty. split; [by left|]. by intros [|[? ?]].
  - split; [|done]. by intros fd ->%elem_of_singleton.
  - split; [lia|]. intros i _. apply Hs.
  - split; [apply map_Forall_empty|constructor].
Qed.

(** ** poll *)

Record poll_inv (listenfd : nat) (st : poll_state) : Prop := {
  pol_len : length (p_client st) = OPEN_MAX;
  pol_first : p_client st !! 0 = Some (Some listenfd);
  pol_table : table_ok 1 (poll_slot st) (conns (p_net st));
  pol_listen : conns (p_net st) !! listenfd = None;
  pol_maxi : p_maxi st < OPEN_MAX /\ forall i, p_maxi st < i -> poll_slot st i = None;
  pol_events : length (revents st) = OPEN_MAX;
  pol_net : net_ok (p_net st) }.

Definition poll_change (r : round) (fd : nat) : conn -> option conn := respond true (answers r fd).

Lemma poll_client_effect listenfd r j fd st st' :
  poll_inv listenfd st -> poll_slot st j = Some fd -> 1 <= j -> poll_client r j fd st = returns st' ->
  poll_inv listenfd st' /\
  forall fd', conns (p_net st') !! fd' = if decide (fd' = fd) then conns (p_net st) !! fd ≫= poll_change r fd else conns (p_net st) !! fd'.
Proof.
  intros Hinv Hj Hlo. pose proof (pol_table _ _ Hinv) as Ht.
  assert (is_Some (conns (p_net st) !! fd)) as [c Hc] by (apply (tab_dom _ _ _ Ht); by exists j).
  assert (fd <> listenfd) as Hne by (intros ->; pose proof (pol_listen _ _ Hinv); congruence).
  destruct Hinv as [Hl Hfirst _ Hli Hmaxi Hev Hnet].
  assert (poll_inv listenfd (Poll (<[j:=None]> (p_client st)) (revents st) (p_maxi st) (net_close fd (p_net st))) /\
    forall fd', conns (net_close fd (p_net st)) !! fd' = if decide (fd' = fd) then None else conns (p_net st) !! fd') as Hclose.
  { assert (forall i, mjoin (<[j:=None]> (p_client st) !! i) = if decide (i = j) then None else poll_slot st i) as Hs.
    { intros i. unfold poll_slot. rewrite slot_insert. repeat case_decide; try tauto; subst.
      assert (mjoin (p_client st !! j) = Some fd) as Hx by exact Hj. destruct (p_client st !! j) eqn:He; [|done].
      apply lookup_lt_Some in He. tauto. }
    split.
    - constructor; cbn [p_client revents p_maxi p_net net_close conns]; try done.
      + by rewrite length_insert.
      + by rewrite list_lookup_insert_ne by lia.
      + by apply (table_close 1 (poll_slot st) _ _ Ht j fd).
      + by rewrite lookup_delete_ne by done.
      + split; [apply Hmaxi|]. intros i Hi. unfold poll_slot. cbn. rewrite Hs. case_decide; [done|]. by apply Hmaxi.
      + by apply net_close_ok.
    - intros fd'. cbn. rewrite lookup_delete. repeat case_decide; congruence. }
  unfold poll_client, poll_change. destruct (answers r fd) as [s n| | |]; [|intros [= <-]; rewrite Hc; exact Hclose..|done].
  intros [= <-]. split.
  - constructor; cbn; try done.
    + by apply (table_same 1 (poll_slot st)).
    + by rewrite lookup_alter_ne.
    + by apply net_talk_ok.
  - intros fd'. cbn. rewrite lookup_alter. case_decide as Hd; [subst fd'|by rewrite decide_False by congruence].
    rewrite decide_True by done. by rewrite Hc.
Qed.

Lemma poll_client_keep r j fd st st' j' : poll_client r j fd st = returns st' -> j <> j' ->
  poll_slot st' j' = poll_slot st j' /\ revents st' = revents st.
Proof.
  unfold poll_client. intros H Hne. destruct (answers r fd); try done; injection H as <-; split; try done;
    unfold poll_slot; cbn; by rewrite list_lookup_insert_ne.
Qed.

(** Serving ends early only where a handler does. *)
Lemma serve_all_ends {S} (handle : nat -> nat -> S -> outcome S) (P : nat -> Z -> Prop) l st :
  (forall j fd st, match handle j fd st with returns _ => True | exits c => P fd c | undefined => False end) ->
  match serve_all handle l st with returns _ => True | exits c => exists fd, fd ∈ snd <$> l /\ P fd c | undefined => False end.
Proof.
  intros Ht. revert st. induction l as [|[j fd] l IH]; intros st; [done|]. cbn [serve_all]. pose proof (Ht j fd st) as H.
  destruct (handle j fd st) as [st1|c|]; cbn [bind_outcome]; [|exists fd; split; [by left|done]|done].
  specialize (IH st1). destruct (serve_all handle l st1); [done| |done]. destruct IH as (fd' & Hin & HP). exists fd'. split; [by right|done].
Qed.

(** [revents] agrees with the report up to slot [k]. *)
Definition reported (r : round) (k : nat) (st : poll_state) : Prop :=
  forall j fd, 1 <= j <= k -> poll_slot st j = Some fd -> default false (revents st !! j) = bool_decide (fd ∈ ready r).

Lemma poll_serve_spec listenfd r k st :
  poll_inv listenfd st -> k <= p_maxi st -> reported r k st -> (forall j fd, k < j -> poll_slot st j = Some fd -> fd ∉ ready r) ->
  ready r ∩ dom (conns (p_net st)) <> ∅ ->
  match poll_serve r (Z.of_nat (size (ready r ∩ dom (conns (p_net st))))) st with
  | returns st' => poll_inv listenfd st' /\
      forall fd, conns (p_net st') !! fd = if decide (fd ∈ ready r) then conns (p_net st) !! fd ≫= poll_change r fd else conns (p_net st) !! fd
  | exits c => exists fd, fd ∈ ready r /\ answers r fd = Failed
  | undefined => False
  end.
Proof.
  intros Hinv Hk Hrep Hbeyond Hn. unfold poll_serve. set (fires := fun st i _ => default false (revents st !! i)).
  destruct (fired_clients 1 poll_slot fires st k (conns (p_net st)) (ready r) (pol_table _ _ Hinv)) as (Hnd1 & Hnd2 & Hin & Hset & Hlen);
    [intros j fd Hj; apply Hbeyond; lia|intros j fd Hj; apply Hrep; lia|].
  rewrite <- Hlen, scan_some; [|..|done|].
  - set (l := fired poll_slot fires st 1 k) in *.
    assert (forall j fd, (j, fd) ∈ l -> 1 <= j) as Hlo by (intros j fd Hx; apply elem_fired in Hx; lia).
    pose proof (serve_all_ends (poll_client r) (fun fd _ => answers r fd = Failed) l st
      ltac:(intros j fd s; unfold poll_client; by destruct (answers r fd))) as Hends.
    destruct (serve_all (poll_client r) l st) as [st'|c|] eqn:Hs; [| |done].
    + destruct (serve_all_spec (fun s i => if decide (1 <= i) then poll_slot s i else None) fires (poll_client r)) with
        (cs := fun s : poll_state => conns (p_net s)) (change := poll_change r) (I := poll_inv listenfd) (l := l) (st := st) (st' := st')
        as [Hinv' Heff]; try done.
      * intros j fd s1 s2 j' H Hne. destruct (poll_client_keep r j fd s1 s2 j' H Hne) as [H1 H2]. rewrite H1.
        split; [done|]. intros fd'. unfold fires. by rewrite H2.
      * intros j fd s1 s2 H1 H2 H3. case_decide; [|done]. by apply (poll_client_effect listenfd r j fd s1 s2).
      * intros j fd Hx. rewrite decide_True by (by eapply Hlo). by apply Hin.
      * split; [done|]. intros fd. rewrite Heff. destruct (decide (fd ∈ ready r)) as [Hr|Hr].
        -- case_decide as Hl; [done|]. destruct (conns (p_net st) !! fd) eqn:Hc; [|done]. destruct Hl. apply Hset. by rewrite Hc.
        -- rewrite decide_False; [done|]. by intros [? _]%Hset.
    + destruct Hends as (fd & Hin' & HP). exists fd. split; [|done]. by apply Hset in Hin' as [? _].
  - intros j fd s1 s2 j' H Hne. destruct (poll_client_keep r j fd s1 s2 j' H Hne) as [H1 H2]. split; [done|]. intros fd'. unfold fires. by rewrite H2.
  - intros n H. destruct (Z.leb_spec n 0), (Z.eqb_spec n 0); lia || done.
  - intros He. rewrite He in Hlen. symmetry in Hlen. by apply size_empty_inv, leibniz_equiv in Hlen.
Qed.

Lemma poll_call_spec listenfd r st :
  poll_inv listenfd st ->
  poll_inv listenfd (poll_call r st) /\ reported r (p_maxi st) (poll_call r st) /\
  default false (revents (poll_call r st) !! 0) = bool_decide (listenfd ∈ ready r) /\
  (forall j, j <= p_maxi st -> poll_slot st j = None -> default false (revents (poll_call r st) !! j) = false) /\
  conns (p_net (poll_call r st)) = conns (p_net st) /\ (forall j, poll_slot (poll_call r st) j = poll_slot st j).
Proof.
  intros Hinv. destruct (pol_maxi _ _ Hinv) as [Hm1 Hm2].
  assert (length (take (p_maxi st + 1) (p_client st)) = p_maxi st + 1) as Hlen by (rewrite length_take, (pol_len _ _ Hinv); lia).
  assert (forall j, j <= p_maxi st -> default false (revents (poll_call r st) !! j) =
    match poll_slot st j with Some fd => bool_decide (fd ∈ ready r) | None => false end) as Hrev.
  { intros j Hj. unfold poll_call, poll_slot. cbn [revents].
    rewrite lookup_app_l by (rewrite length_fmap; lia). rewrite list_lookup_fmap, lookup_take_lt by lia.
    destruct (p_client st !! j) as [[fd|]|] eqn:Hs; done. }
  split_and!; try done.
  - destruct Hinv as [Hl Hf Ht Hli Hm He Hn]. constructor; try done. unfold poll_call. cbn [revents].
    rewrite length_app, length_fmap, Hlen, length_drop, He. lia.
  - intros j fd [_ Hj] Hs. rewrite Hrev by done. change (poll_slot (poll_call r st) j) with (poll_slot st j) in Hs. by rewrite Hs.
  - rewrite Hrev by lia. unfold poll_slot. by rewrite (pol_first _ _ Hinv).
  - intros j Hj Hs. by rewrite Hrev, Hs.
Qed.

Lemma poll_accept_spec listenfd fd st :
  poll_inv listenfd st -> fd <> listenfd -> conns (p_net st) !! fd = None ->
  match poll_accept fd st with
  | returns st' => poll_inv listenfd st' /\ conns (p_net st') = <[fd := Conn [] []]> (conns (p_net st)) /\ revents st' = revents st /\
      exists i, 1 <= i /\ poll_slot st i = None /\ p_maxi st' = Nat.max (p_maxi st) i /\ forall j, poll_slot st' j = if decide (j = i) then Some fd else poll_slot st j
  | exits c => c = (-1)%Z /\ forall i, 1 <= i < OPEN_MAX -> poll_slot st i <> None
  | undefined => False
  end.
Proof.
  intros Hinv Hne Hfd. unfold poll_accept. pose proof (free_slot_spec 1 (tail (p_client st))) as Hff.
  destruct Hinv as [Hl Hfirst Ht Hli Hmaxi Hev Hnet]. destruct (p_client st) as [|o l] eqn:Hcl; [done|]. cbn [tail] in *.
  destruct (find_free 1 l) as [i|].
  - destruct Hff as (Hi & Hnone & _). cbn in Hl.
    assert (p_client st !! i = Some None) as Hsi by (rewrite Hcl; destruct i as [|i]; [lia|]; cbn; by replace i with (S i - 1) by lia).
    assert (forall j, mjoin (<[i := Some fd]> (p_client st) !! j) = if decide (j = i) then Some fd else poll_slot st j) as Hs.
    { intros j. rewrite slot_insert. unfold poll_slot. rewrite Hcl. cbn [length]. repeat case_decide; try done; tauto || lia. }
    rewrite <- Hcl. split; [|split; [done|split; [done|]]].
    + constructor; cbn [p_client revents p_maxi p_net net_open conns].
      * by rewrite length_insert, Hcl.
      * rewrite list_lookup_insert_ne by lia. by rewrite Hcl.
      * apply (table_open 1 (poll_slot st) _ _ Ht i fd); [lia|unfold poll_slot; by rewrite Hsi|done|exact Hs].
      * by rewrite lookup_insert_ne.
      * destruct Hmaxi as [H1 H2]. split; [lia|]. intros j Hj. unfold poll_slot. cbn. rewrite Hs, decide_False by lia. apply H2. lia.
      * done.
      * by apply net_open_ok.
    + exists i. split; [lia|]. split; [unfold poll_slot; by rewrite Hsi|split; [done|exact Hs]].
  - split; [done|]. intros i Hi. unfold poll_slot. rewrite Hcl. destruct i as [|i]; [lia|].
    destruct (lookup_lt_is_Some_2 l i ltac:(cbn in Hl; lia)) as [x Hx]. change ((o :: l) !! S i) with (l !! i).
    rewrite Hx. destruct x; [done|]. by destruct (Hff i None Hx).
Qed.

(** What the system does: [poll] counts the ready descriptors of its table. *)
Definition poll_reports (listenfd : nat) (st : poll_state) (r : round) : Prop :=
  ready r <> ∅ /\ (forall fd, fd ∈ ready r -> fd = listenfd \/ is_Some (conns (p_net st) !! fd)) /\
  (listenfd ∈ ready r -> connfd r <> listenfd /\ conns (p_net st) !! connfd r = None).

Lemma poll_round_spec listenfd r st :
  poll_inv listenfd st -> poll_reports listenfd st r ->
  match poll_round r st with
  | returns st' => poll_inv listenfd st' /\ forall fd, conns (p_net st') !! fd = round_conns true listenfd r (conns (p_net st)) fd
  | exits _ => (exists fd, fd ∈ ready r /\ answers r fd = Failed) \/
               listenfd ∈ ready r /\ forall i, 1 <= i < OPEN_MAX -> poll_slot st i <> None
  | undefined => False
  end.
Proof.
  intros Hinv (Hne & Hr & Hacc). pose proof (pol_listen _ _ Hinv) as Hli. unfold poll_round.
  destruct (poll_call_spec listenfd r st Hinv) as (Hinv0 & Hrep0 & Hfirst & Hclear & Hcs0 & Hslot0).
  set (st0 := poll_call r st) in *. rewrite Hfirst. case_bool_decide as Hl.
  - destruct (Hacc Hl) as [Hc1 Hc2]. rewrite <- Hcs0 in Hc2, Hr, Hli.
    pose proof (poll_accept_spec listenfd (connfd r) st0 Hinv0 Hc1 Hc2) as Ha.
    destruct (poll_accept (connfd r) st0) as [st1|c|]; cbn [bind_outcome]; [| |done].
    2:{ right. split; [done|]. intros i Hi. rewrite <- Hslot0. by apply Ha. }
    destruct Ha as (Hinv1 & Hcs & Hrev & i & Hi1 & Hi2 & Hmax & Hs).
    destruct (ready_clients (ready r) _ listenfd (connfd r) (Conn [] []) Hl Hli Hc2 Hc1 Hr) as [Hcr Hcount].
    rewrite <- Hcs in Hcount. rewrite Hcount.
    assert (reported r (p_maxi st) st1) as Hrep1.
    { intros j fd Hj Hsj. rewrite Hrev. rewrite Hs in Hsj. case_decide; [subst j; injection Hsj as <-|by apply Hrep0].
      rewrite Hclear by (lia || by rewrite <- Hslot0). symmetry. by apply bool_decide_eq_false. }
    assert (forall j fd, p_maxi st < j -> poll_slot st1 j = Some fd -> fd ∉ ready r) as Hbeyond1.
    { intros j fd Hj. rewrite Hs. case_decide; [by intros [= <-]|]. rewrite Hslot0. by rewrite (proj2 (pol_maxi _ _ Hinv)). }
    assert (forall cs2 : gmap nat conn, (forall fd, cs2 !! fd = if decide (fd ∈ ready r) then conns (p_net st1) !! fd ≫= poll_change r fd else conns (p_net st1) !! fd) ->
      forall fd, cs2 !! fd = round_conns true listenfd r (conns (p_net st)) fd) as Hspec.
    { intros cs2. apply round_conns_eq. rewrite decide_True, Hcs, Hcs0 by done. done. }
    destruct (Z.leb_spec (Z.of_nat (size (ready r ∩ dom (conns (p_net st1))))) 0) as [Hz|Hz].
    + split; [done|]. apply Hspec. intros fd. case_decide; [|done]. by rewrite (nobody_ready (ready r)) by (done || lia).
    + pose proof (poll_serve_spec listenfd r (p_maxi st) st1 Hinv1 ltac:(rewrite Hmax; apply Nat.le_max_l) Hrep1 Hbeyond1) as Hserve.
      specialize (Hserve ltac:(intros He; rewrite He, size_empty in Hz; lia)).
      destruct (poll_serve r _ st1) as [st2|c|]; [|by left|done]. destruct Hserve as [Hinv2 Heff]. split; [done|]. by apply Hspec.
  - assert (ready r ∩ dom (conns (p_net st0)) = ready r) as Hcl.
    { apply set_eq. intros fd. rewrite elem_of_intersection, elem_of_dom, Hcs0. split; [tauto|]. intros Hx. split; [done|].
      by destruct (Hr fd Hx) as [->|]. }
    pose proof (poll_serve_spec listenfd r (p_maxi st) st0 Hinv0 ltac:(done) Hrep0) as Hserve. rewrite Hcl in Hserve.
    specialize (Hserve ltac:(intros j fd Hj; rewrite Hslot0, (proj2 (pol_maxi _ _ Hinv)) by done; done) Hne).
    destruct (poll_serve r _ st0) as [st2|c|]; [|by left|done]. destruct Hserve as [Hinv2 Heff]. split; [done|].
    apply (round_conns_eq true listenfd r _ (conns (p_net st0))); [|exact Heff]. by rewrite decide_False.
Qed.

Lemma poll_start_inv listenfd garbage : length garbage = OPEN_MAX -> poll_inv listenfd (poll_start listenfd garbage).
Proof.
  intros Hg. assert (forall i, 1 <= i -> poll_slot (poll_start listenfd garbage) i = None) as Hs.
  { intros [|i] Hi; [lia|]. unfold poll_slot, poll_start. cbn [p_client]. change (mjoin (replicate (OPEN_MAX - 1) None !! i) = @None nat).
    destruct (replicate (OPEN_MAX - 1) None !! i) as [o|] eqn:Ho; [|done]. by apply lookup_replicate in Ho as [-> _]. }
  constructor; cbn [poll_start p_client revents p_maxi p_net conns].
  - cbn [length]. by rewrite length_replicate.
  - done.
  - constructor; [intros i j fd Hi _; by rewrite Hs|]. intros fd. split; [intros [? Hx]; by rewrite lookup_empty in Hx|].
    intros (i & Hi & Hx). by rewrite Hs in Hx.
  - apply lookup_empty.
  - split; [unfold OPEN_MAX; lia|]. intros i Hi. apply Hs. lia.
  - done.
  - split; [apply map_Forall_empty|constructor].
Qed.

(** ** The runs of the servers *)

(** The states in which [select] and [poll] wait, whatever the memory of [revents]
    holds at first. *)
Definition select_reached (listenfd : nat) : select_state -> Prop :=
  reached (select_start listenfd) (select_reports listenfd) (select_round listenfd).
Definition poll_reached (listenfd : nat) (garbage : list bool) : poll_state -> Prop :=
  reached (poll_start listenfd garbage) (poll_reports listenfd) poll_round.

Lemma select_reached_inv listenfd st : listenfd < FD_SETSIZE -> select_reached listenfd st -> select_inv listenfd st.
Proof.
  intros Hl. apply reached_inv; [by apply select_start_inv|]. clear st. intros st r st' Hst Hr Hs.
  pose proof (select_round_spec listenfd r st Hst Hr) as H. rewrite Hs in H. apply H.
Qed.

Lemma poll_reached_inv listenfd garbage st : length garbage = OPEN_MAX -> poll_reached listenfd garbage st -> poll_inv listenfd st.
Proof.
  intros Hg. apply reached_inv; [by apply poll_start_inv|]. clear st. intros st r st' Hst Hr Hs.
  pose proof (poll_round_spec listenfd r st Hst Hr) as H. rewrite Hs in H. apply H.
Qed.

(** C21: The server on [select] keeps the set it gives to [select], the table
    [client] and the open connections in agreement, sends back, read by read, a
    start of the upper case of what it received, and in each round, whatever is
    ready, serves all of the ready clients and accepts the new one. It never runs
    out of slots, so "too many clients" is not printed; what ends its correct
    behaviour is a new descriptor of [FD_SETSIZE] or more, which it puts into the set. *)
Theorem select_server listenfd st r :
  listenfd < FD_SETSIZE -> select_reached listenfd st -> select_reports listenfd st r ->
  net_ok (s_net st) /\ table_ok 0 (select_slot st) (conns (s_net st)) /\
  (forall fd, fd ∈ allset st <-> fd = listenfd \/ is_Some (conns (s_net st) !! fd)) /\
  match select_round listenfd r st with
  | returns st' => forall fd, conns (s_net st') !! fd = round_conns false listenfd r (conns (s_net st)) fd
  | exits _ => False
  | undefined => listenfd ∈ ready r /\ FD_SETSIZE <= connfd r
  end.
Proof.
  intros Hl Hst%select_reached_inv Hr; [|done]. pose proof (select_round_spec listenfd r st Hst Hr) as H.
  destruct Hst. split_and!; [done..|]. destruct (select_round listenfd r st); [apply H|done..].
Qed.

(** The server on [poll] keeps its table and the open connections in agreement,
    sends back a start of the upper case of what it received, and in each round
    serves all of the ready clients and accepts the new one, whatever the
    uninitialised [revents] of its array hold: the count of ready descriptors ends
    the loop before a slot that [poll] was not given. It exits only where reading fails with another error than a
    reset, or where a client comes and every slot of the table is taken. *)
Theorem poll_server listenfd garbage st r :
  length garbage = OPEN_MAX -> poll_reached listenfd garbage st -> poll_reports listenfd st r ->
  net_ok (p_net st) /\ table_ok 1 (poll_slot st) (conns (p_net st)) /\
  match poll_round r st with
  | returns st' => forall fd, conns (p_net st') !! fd = round_conns true listenfd r (conns (p_net st)) fd
  | exits _ => (exists fd, fd ∈ ready r /\ answers r fd = Failed) \/
               listenfd ∈ ready r /\ forall i, 1 <= i < OPEN_MAX -> poll_slot st i <> None
  | undefined => False
  end.
Proof.
  intros Hg Hst%poll_reached_inv Hr; [|done]. pose proof (poll_round_spec listenfd r st Hst Hr) as H.
  destruct Hst. split_and!; [done..|]. destruct (poll_round r st); [apply H|done..].
Qed.

(** ** epoll *)

(** The descriptor of a new connection is new. *)
Definition event_ok (listenfd : nat) (st : epoll_state) (e : epoll_event) : Prop :=
  match e with accepts c => c <> listenfd /\ conns (e_net st) !! c = None | _ => True end.

(** The interest list is that of the open connections. *)
Definition epoll_inv (listenfd : nat) (st : epoll_state) : Prop :=
  tree st = {[listenfd]} ∪ dom (conns (e_net st)) /\ conns (e_net st) !! listenfd = None /\ net_ok (e_net st).

Lemma epoll_step_inv listenfd st e st' :
  epoll_inv listenfd st -> event_ok listenfd st e -> epoll_step listenfd st e = Some (returns st') -> epoll_inv listenfd st'.
Proof.
  intros (Ht & Hl & Hn) He. unfold epoll_step.
  assert (forall fd, fd <> listenfd -> forall b, epoll_inv listenfd (Epoll (tree st ∖ {[fd]}) b (net_close fd (e_net st)))) as Hclose.
  { intros fd Hne b. unfold epoll_inv. cbn [tree e_net net_close conns]. rewrite lookup_delete_ne, dom_delete_L, Ht by done.
    split; [set_solver|]. split; [done|]. by apply net_close_ok. }
  assert (forall b, epoll_inv listenfd (Epoll (tree st) b (e_net st))) as Hsame by done.
  destruct (batch st) as [[ep i]|]; [|destruct e; naive_solver].
  destruct (ep !! i) as [fd|]; [|destruct e; naive_solver]. case_decide as Hfd; destruct e as [|c|a]; try done.
  - intros [= <-]. destruct He as [H1 H2]. unfold epoll_inv. cbn [tree e_net net_open conns]. rewrite lookup_insert_ne, dom_insert_L, Ht by done.
    split; [set_solver|]. split; [done|]. by apply net_open_ok.
  - destruct a as [s n| | |].
    + intros [= <-]. unfold epoll_inv. cbn [tree e_net net_talk conns]. rewrite lookup_alter_ne, dom_alter_L, Ht by done.
      split; [done|]. split; [done|]. by apply net_talk_ok.
    + case_decide; intros [= <-]. by apply Hclose.
    + destruct (conns (e_net st) !! fd); intros [= <-]. by apply Hclose.
    + destruct (conns (e_net st) !! fd); intros [= <-]. by apply Hclose.
Qed.

(** What the loop over the batch of events needs: an event is handled and the
    index goes to the next one, unless bytes were read. Then it goes to the
    number of bytes plus one, so after a batch of one event the server waits again. *)
Lemma epoll_next listenfd st ep i e st' :
  batch st = Some (ep, i) -> i < length ep -> epoll_step listenfd st e = Some (returns st') ->
  batch st' = Some (ep, match e with reads (Data s _) => S (length s) | _ => S i end).
Proof.
  intros Hb [fd Hi]%lookup_lt_is_Some_2. unfold epoll_step. rewrite Hb, Hi.
  case_decide; destruct e as [|c|[s n| | |]]; try done; try (intros [= <-]; done).
  - case_decide; by intros [= <-].
  - destruct (conns (e_net st) !! fd); by intros [= <-].
  - destruct (conns (e_net st) !! fd); by intros [= <-].
Qed.

(** ** Witnesses *)

(** A client, 4; then another, 5, while 4 sends. *)
Definition first_client : round := Round {[3]} 4 (fun _ => Failed).
Definition second_client : round := Round {[3; 4]} 5 (fun _ => Data (lit "abc") 3).
(** The second closes, and the first sends with half of the answer arriving. *)
Definition one_closes : round := Round {[4; 5]} 0 (fun fd => if (fd =? 4)%nat then Data (lit "de") 1 else Eof).

Definition select_now (rs : list round) : select_state :=
  foldl (fun st r => match select_round 3 r st with returns st' => st' | _ => st end) (select_start 3) rs.
Definition poll_now (garbage : list bool) (rs : list round) : poll_state :=
  foldl (fun st r => match poll_round r st with returns st' => st' | _ => st end) (poll_start 3 garbage) rs.

Lemma select_server_witness :
  exists st', select_round 3 one_closes (select_now [first_client; second_client]) = returns st' /\
    conns (s_net st') !! 4 = Some (Conn [lit "abc"; lit "de"] [lit "ABC"; lit "D"]) /\ conns (s_net st') !! 5 = None.
Proof.
  destruct (select_server 3 (select_now [first_client; second_client]) one_closes) as (_ & _ & _ & H).
  - apply (bool_decide_unpack _). vm_compute. exact I.
  - apply (reached_round _ _ _ (select_now [first_client]) second_client); [|split_and!|].
    + apply (reached_round _ _ _ (select_start 3) first_client); [apply reached_start|split_and!|vm_compute; reflexivity].
      * apply (bool_decide_unpack _). vm_compute. exact I.
      * apply (bool_decide_unpack _). vm_compute. exact I.
      * intros _. split; [done|reflexivity].
    + apply (bool_decide_unpack _). vm_compute. exact I.
    + apply (bool_decide_unpack _). vm_compute. exact I.
    + intros _. split; [done|vm_compute; reflexivity].
    + vm_compute. reflexivity.
  - split_and!; [apply (bool_decide_unpack _); vm_compute; exact I..|]. intros Hx. exfalso. revert Hx.
    apply (bool_decide_unpack _). vm_compute. exact I.
  - destruct (select_round 3 one_closes (select_now [first_client; second_client])) as [st'| |] eqn:Hs;
      [|vm_compute in Hs; discriminate Hs..].
    exists st'. split; [reflexivity|]. rewrite !H. split; vm_compute; reflexivity.
Defined.

(** With [POLLIN] in every [revents] at first. *)
Lemma poll_server_witness :
  exists st', poll_round one_closes (poll_now (replicate OPEN_MAX true) [first_client; second_client]) = returns st' /\
    conns (p_net st') !! 4 = Some (Conn [lit "abc"; lit "de"] [lit "ABC"; lit "D"]) /\ conns (p_net st') !! 5 = None.
Proof.
  destruct (poll_server 3 (replicate OPEN_MAX true) (poll_now (replicate OPEN_MAX true) [first_client; second_client]) one_closes) as (_ & _ & H).
  - apply length_replicate.
  - apply (reached_round _ _ _ (poll_now (replicate OPEN_MAX true) [first_client]) second_client); [|split_and!|].
    + apply (reached_round _ _ _ (poll_start 3 (replicate OPEN_MAX true)) first_client); [apply reached_start|split_and!|vm_compute; reflexivity].
      * apply (bool_decide_unpack _). vm_compute. exact I.
      * intros fd Hx. left. exact (proj1 (elem_of_singleton (C := gset nat) fd 3) Hx).
      * intros _. split; [done|reflexivity].
    + apply (bool_decide_unpack _). vm_compute. exact I.
    + intros fd Hx. apply (elem_of_union (C := gset nat)) in Hx as [Hx|Hx]; apply (elem_of_singleton (C := gset nat)) in Hx as ->; [by left|right]. vm_compute. eexists. reflexivity.
    + intros _. split; [done|vm_compute; reflexivity].
    + vm_compute. reflexivity.
  - split_and!; [apply (bool_decide_unpack _); vm_compute; exact I| |].
    + intros fd Hx. apply (elem_of_union (C := gset nat)) in Hx as [Hx|Hx]; apply (elem_of_singleton (C := gset nat)) in Hx as ->; right; vm_compute; eexists; reflexivity.
    + intros Hx. exfalso. revert Hx. apply (bool_decide_unpack _). vm_compute. exact I.
  - destruct (poll_round one_closes (poll_now (replicate OPEN_MAX true) [first_client; second_client])) as [st'| |] eqn:Hs;
      [|vm_compute in Hs; discriminate Hs..].
    exists st'. split; [reflexivity|]. rewrite !H. split; vm_compute; reflexivity.
Defined.

(** A connection with a descriptor that the set has no bit for. *)
Example fd_set_overrun :
  select_round 3 (Round {[3]} 1024 (fun _ => Failed)) (select_start 3) = undefined.
Proof. vm_compute. reflexivity. Qed.

(** The clients 5, 6 and 7 are connected; their events are in one batch. *)
Definition three_clients : list epoll_event :=
  [waits [3]; accepts 5; waits [3]; accepts 6; waits [3]; accepts 7; waits [5; 6; 7]].

(** When 5 sends four bytes the loop is over, and 6 and 7 are not looked at. When it
    sends one byte the loop comes to 7, and, as long as 7 sends single bytes, to 7
    again and again: it is read though nothing was reported, and 6 is not. *)
Example reads_again :
  exists st, epoll_run 3 (epoll_start 3) (three_clients ++ [reads (Data (lit "abcd") 4)]) = Some (returns st) /\ batch st = Some ([5; 6; 7], 5) /\
    conns (e_net st) !! 6 = Some (Conn [] []) /\
  exists st', epoll_run 3 (epoll_start 3) (three_clients ++ [reads (Data (lit "a") 1); reads (Data (lit "b") 1); reads (Data (lit "c") 1); reads (Data (lit "d") 1)]) = Some (returns st') /\
    batch st' = Some ([5; 6; 7], 2) /\ conns (e_net st') !! 6 = Some (Conn [] []) /\
    conns (e_net st') !! 7 = Some (Conn [lit "b"; lit "c"; lit "d"] [lit "B"; lit "C"; lit "D"]).
Proof.
  eexists. split; [vm_compute; reflexivity|]. split; [reflexivity|]. split; [vm_compute; reflexivity|].
  eexists. split; [vm_compute; reflexivity|]. split; [reflexivity|]. split; vm_compute; reflexivity.
Qed.

(** 5, 6 and 7 close, and 8, after them, sends one byte: the loop comes back to 7,
    which is closed, so reading and then [Close] fail and the server exits. *)
Example closes_twice :
  epoll_run 3 (epoll_start 3)
    [waits [3]; accepts 5; waits [3]; accepts 6; waits [3]; accepts 7; waits [3]; accepts 8;
     waits [5; 6; 7; 8]; reads Eof; reads Eof; reads Eof; reads (Data (lit "a") 1); reads Failed] =
  Some (exits (-1)).
Proof. vm_compute. reflexivity. Qed.
