(* ===== verification/NetServers.v ===== *)
(** * NetServers: the C++ servers on select, poll and epoll

    Models [server.cpp] of three folders of [Linux_Net]: [02...select], which keeps
    five clients and prints what they send, [03...poll] and [04...epoll], which send
    back what they receive. Creating the listening socket is left out.

    [select] and [epoll] receive into one buffer of 1024 bytes that all clients
    share, and print or send it as a C string; the first section says what such a
    buffer holds. What the system reports and answers is the data of a round or an
    event. Histories ([heard], [accepted], [lost], ...) are ghosts: no operation
    reads them. *)
From S2P Require Import Prelude.

(** ** A buffer that receives messages of different lengths *)

Definition MAXSIZE : nat := 1024.

(** [bzero], [memset]. *)
Definition cleared : str := replicate MAXSIZE NUL.

(** [recv] and [read] overwrite as many bytes as they return. *)
Definition recv_into (s buf : str) : str := s ++ drop (length s) buf.

(** [%s] and [strlen]: the text up to the zero; undefined where there is none in
    the buffer. *)
Definition shown (buf : str) : outcome str :=
  if decide (NUL ∈ buf) then returns (c_str buf) else undefined.

(** What is in the buffer after these messages, the last one first. *)
Definition overlay (l : list str) : str := foldr recv_into cleared l.

(** A message without a zero that fits. *)
Definition clean (s : str) : Prop := NUL ∉ s /\ length s <= MAXSIZE.

(** The loops [for (i = ...; i < ...; i++)], with a body that may not return. *)
Fixpoint for_range {S} (k i : nat) (body : nat -> S -> outcome S) (st : S) : outcome S :=
  match k with
  | O => returns st
  | Datatypes.S k' => bind_outcome (body i st) (for_range k' (Datatypes.S i) body)
  end.

(** ** select: five clients *)

Module SelectServer.

Definition MAX_CLIENTS : nat := 5.
Definition FD_SETSIZE : nat := 1024.

(** What is printed, addresses left out. *)
Inductive s_line :=
  | timeout | start_recv (i : nat) | client_close (i : nat) | recv_from (i : nat) (s : str)
  | new_connection (n : nat) | recv_first (s : str) | max_connections.

(** An empty slot of [client_sockfd] is 0. *)
Record select_srv := SelectSrv {
  client_sockfd : list nat; conn_amount : nat; maxsock : nat; buffer : str; console : list s_line;
  s_heard : list str; s_accepted : list nat; s_lost : list nat; s_closed : list nat;
  s_sent : list (nat * str) }.

(** The buffer is not initialised. *)
Definition s_start (server_fd : nat) (garbage : str) : select_srv :=
  SelectSrv (replicate MAX_CLIENTS 0) 0 server_fd garbage [] [] [] [] [] [].

(** [select] fails, times out, or reports the descriptors [ready]; [recv] gives
    [answers] of a descriptor, [None] for an error; [accept] gives a descriptor
    or fails, and [recv] on it gives [first]. *)
Inductive s_round :=
  | select_error
  | select_timeout
  | select_ready (ready : gset nat) (answers : nat -> option str) (acc : option nat) (first : option str).

Definition add_line (x : s_line) (st : select_srv) : select_srv :=
  SelectSrv (client_sockfd st) (conn_amount st) (maxsock st) (buffer st) (console st ++ [x]) (s_heard st) (s_accepted st) (s_lost st) (s_closed st) (s_sent st).

Definition print_buffer (x : str -> s_line) (st : select_srv) : outcome select_srv :=
  bind_outcome (shown (buffer st)) (fun s => returns (add_line (x s) st)).

Definition receive (s : str) (st : select_srv) : select_srv :=
  SelectSrv (client_sockfd st) (conn_amount st) (maxsock st) (recv_into s (buffer st)) (console st) (s :: s_heard st) (s_accepted st) (s_lost st) (s_closed st) (s_sent st).

(** [FD_SET] of the listening descriptor and of the slots in use; outside the set
    its behaviour is not defined. *)
Definition fd_set (server_fd : nat) (st : select_srv) : outcome (gset nat) :=
  let fds := {[server_fd]} ∪ list_to_set (filter (fun fd => fd <> 0) (client_sockfd st)) in
  if decide (set_Forall (fun fd => fd < FD_SETSIZE) fds) then returns fds else undefined.

(** [select] leaves what is ready of the descriptors up to [maxsock]. *)
Definition s_select (ready fdset : gset nat) (st : select_srv) : gset nat :=
  filter (fun fd => fd <= maxsock st) (fdset ∩ ready).

Definition close_client (i fd : nat) (st : select_srv) : select_srv :=
  SelectSrv (<[i := 0]> (client_sockfd st)) (conn_amount st) (maxsock st) (buffer st) (console st) (s_heard st) (s_accepted st) (s_lost st) (s_closed st ++ [fd]) (s_sent st).

(** The body of the loop over the clients, with the set it clears bits of. *)
Definition s_serve (answers : nat -> option str) (i : nat) (x : gset nat * select_srv) : outcome (gset nat * select_srv) :=
  let '(fdset, st) := x in
  let fd := nth i (client_sockfd st) 0 in
  if decide (fd ∈ fdset) then
    let st := add_line (start_recv i) st in
    match answers fd with
    | None | Some [] => returns (fdset ∖ {[fd]}, close_client i fd (add_line (client_close i) st))
    | Some s => map_outcome (pair fdset) (print_buffer (recv_from i) (receive s st))
    end
  else returns x.

Definition welcome : str := lit "this is server,welcome!" ++ [LF].

(** A new connection is stored and sent the whole buffer with the greeting in it;
    then the buffer is cleared. *)
Definition take_slot (fd : nat) (st : select_srv) : select_srv :=
  SelectSrv (<[conn_amount st := fd]> (client_sockfd st)) (Datatypes.S (conn_amount st)) (maxsock st) cleared (console st) [] (s_accepted st ++ [fd]) (s_lost st) (s_closed st)
    (s_sent st ++ [(fd, recv_into welcome cleared)]).
Definition lose (fd : nat) (st : select_srv) : select_srv :=
  SelectSrv (client_sockfd st) (conn_amount st) (maxsock st) (buffer st) (console st) (s_heard st) (s_accepted st ++ [fd]) (s_lost st ++ [fd]) (s_closed st) (s_sent st).
Definition raise_maxsock (fd : nat) (st : select_srv) : select_srv :=
  if decide (maxsock st < fd) then
    SelectSrv (client_sockfd st) (conn_amount st) fd (buffer st) (console st) (s_heard st) (s_accepted st) (s_lost st) (s_closed st) (s_sent st)
  else add_line max_connections st.

Definition s_accept (acc : option nat) (first : option str) (st : select_srv) : outcome select_srv :=
  match acc with
  | None => returns st
  | Some fd =>
      if (conn_amount st <? MAX_CLIENTS)%nat then
        let st := take_slot fd st in
        let st := add_line (new_connection (conn_amount st)) st in
        match first with
        | None => exits 255
        | Some s => map_outcome (raise_maxsock fd) (print_buffer recv_first (receive s st))
        end
      else returns (lose fd st)
  end.

(** One turn of [while(1)]; an error of [select] ends the loop and the program. *)
Definition s_turn (server_fd : nat) (r : s_round) (st : select_srv) : outcome select_srv :=
  bind_outcome (fd_set server_fd st) (fun fds =>
    match r with
    | select_error => exits 0
    | select_timeout => returns (add_line timeout st)
    | select_ready ready answers acc first =>
        bind_outcome (for_range (conn_amount st) 0 (s_serve answers) (s_select ready fds st, st)) (fun '(fdset, st') =>
          if decide (server_fd ∈ fdset) then s_accept acc first st' else returns st')
    end).

Fixpoint s_run (server_fd : nat) (st : select_srv) (rs : list s_round) : outcome select_srv :=
  match rs with
  | [] => returns st
  | r :: rs' => bind_outcome (s_turn server_fd r st) (fun st' => s_run server_fd st' rs')
  end.

End SelectServer.

(** ** poll: what [accept] returns is compared before it is stored *)

Module PollServer.

Definition OPEN_MAX : nat := 3.

Inductive syscall := reads (fd : nat) | writes (fd : nat) | closes (fd : nat).

(** [clientfds]: [fd] ([None] for a negative one) and whether [revents] has
    [POLLIN]; [calls] records the calls on clients, [lost] what [accept] returned and
    nothing kept. *)
Record poll_srv := PollSrv {
  clientfds : list (option nat * bool); maxi : nat; out : list str; calls : list syscall; lost : list nat }.

(** Only slot 0 is initialised apart from the descriptors. *)
Definition p_start (listenfd : nat) (garbage : list bool) : poll_srv :=
  PollSrv (zip (Some listenfd :: replicate (OPEN_MAX - 1) None) garbage) 0 [] [] [].

(** [accept] returns a descriptor, or -1 and sets [errno]. *)
Inductive accept_answer := accepted (fd : nat) | interrupted | accept_failed.

(** [poll] fails, or reports [nready] descriptors with these [revents]; [read] of
    the slot gives [answers], [None] for an error. *)
Inductive p_round :=
  | poll_error
  | poll_ready (nready : Z) (revents : nat -> bool) (acc : accept_answer) (answers : nat -> option str).

(** [poll] sets [revents] of the slots it is given, to zero where there is no
    descriptor. *)
Definition poll (revents : nat -> bool) (st : poll_srv) : poll_srv :=
  PollSrv (imap (fun i x => if (i <=? maxi st)%nat then (x.1, bool_decide (is_Some x.1) && revents i) else x) (clientfds st))
    (maxi st) (out st) (calls st) (lost st).

Fixpoint free_slot (i : nat) (l : list (option nat * bool)) : option nat :=
  match l with
  | [] => None
  | (None, _) :: _ => Some i
  | _ :: l' => free_slot (S i) l'
  end.

(** [connfd = accept(...) == -1] stores the outcome of the comparison; what the
    condition then says of a failure is right. *)
Definition connfd_of (acc : accept_answer) : nat :=
  Nat.b2n match acc with accepted _ => false | _ => true end.

(** The new connection; [None] is [continue]. *)
Definition p_accept (acc : accept_answer) (st : poll_srv) : outcome (option poll_srv) :=
  let connfd := connfd_of acc in
  match acc with
  | interrupted => returns None
  | accept_failed => exits 1
  | accepted fd =>
      match free_slot 1 (tail (clientfds st)) with
      | None => exits 1
      | Some i =>
          let l := alter (fun x => (Some connfd, x.2)) i (clientfds st) in
          returns (Some (PollSrv l (Nat.max (maxi st) i) (out st) (calls st)
                           (if decide (connfd = fd) then lost st else lost st ++ [fd])))
      end
  end.

(** The body of the loop over the clients. After an error of [read] its -1 is
    given to [write] as a length, which [write] refuses. *)
Definition p_serve (answers : nat -> option str) (i : nat) (st : poll_srv) : outcome poll_srv :=
  match clientfds st !! i with
  | Some (Some fd, true) =>
      returns match answers i with
              | Some [] => PollSrv (alter (fun x => (None, x.2)) i (clientfds st)) (maxi st) (out st) (calls st ++ [reads fd; closes fd]) (lost st)
              | Some s => PollSrv (clientfds st) (maxi st) (out st ++ [s]) (calls st ++ [reads fd; writes fd]) (lost st)
              | None => PollSrv (clientfds st) (maxi st) (out st) (calls st ++ [reads fd; writes fd]) (lost st)
              end
  | _ => returns st
  end.

Definition p_serve_all (answers : nat -> option str) (st : poll_srv) : outcome poll_srv :=
  for_range (maxi st) 1 (p_serve answers) st.

Definition p_turn (r : p_round) (st : poll_srv) : outcome poll_srv :=
  match r with
  | poll_error => exits 1
  | poll_ready nready revents acc answers =>
      let st := poll revents st in
      if default false (snd <$> clientfds st !! 0) then
        bind_outcome (p_accept acc st) (fun o =>
          match o with
          | None => returns st
          | Some st => if (nready - 1 <=? 0)%Z then returns st else p_serve_all answers st
          end)
      else p_serve_all answers st
  end.

Fixpoint p_run (st : poll_srv) (rs : list p_round) : outcome poll_srv :=
  match rs with
  | [] => returns st
  | r :: rs' => bind_outcome (p_turn r st) (fun st' => p_run st' rs')
  end.

End PollServer.

(** ** epoll: one buffer for all clients *)

Module EpollServer.

Inductive direction := EPOLLIN | EPOLLOUT.
#[export] Instance direction_eq_dec : EqDecision direction.
Proof. solve_decision. Defined.

(** What a connection sent and was sent. *)
Record chan := Chan { received : list str; sent : list str }.

(** The interest list, the buffer, the connections; [heard] is what was read
    since the buffer was last cleared, by whom, the last one first. *)
Record epoll_srv := EpollSrv {
  interest : gmap nat direction; buf : str; chans : gmap nat chan; heard : list (nat * str) }.

(** What the calls on an event give. *)
Inductive answer :=
  | accepted (fd : nat) | accept_failed
  | got (s : str) | eof | read_failed
  | wrote (n : nat) | write_failed.

(** [events[i]], with the two bits the code looks at, and what the call answers. *)
Record event := Event { fd : nat; can_read : bool; can_write : bool; call : answer }.

Definition add_event (f : nat) (d : direction) (m : gmap nat direction) : gmap nat direction := <[f := d]> m.
Definition modify_event (f : nat) (d : direction) (m : gmap nat direction) : gmap nat direction := alter (fun _ => d) f m.
Definition delete_event (f : nat) (m : gmap nat direction) : gmap nat direction := delete f m.

Definition epoll_init (listenfd : nat) : epoll_srv := EpollSrv (add_event listenfd EPOLLIN ∅) cleared ∅ [].

(** The kernel drops a closed descriptor from the interest list. *)
Definition close_fd (f : nat) (st : epoll_srv) : epoll_srv :=
  EpollSrv (delete f (interest st)) (buf st) (delete f (chans st)) (heard st).

Definition handle_accept (a : answer) (st : epoll_srv) : outcome epoll_srv :=
  match a with
  | accepted f => returns (EpollSrv (add_event f EPOLLIN (interest st)) (buf st) (<[f := Chan [] []]> (chans st)) (heard st))
  | _ => returns st
  end.

(** [close] comes before [delete_event], which then fails and changes nothing. *)
Definition do_read (f : nat) (a : answer) (st : epoll_srv) : outcome epoll_srv :=
  match a with
  | got s =>
      let b := recv_into s (buf st) in
      bind_outcome (shown b) (fun _ =>
        returns (EpollSrv (modify_event f EPOLLOUT (interest st)) b
                   (alter (fun c => Chan (received c ++ [s]) (sent c)) f (chans st)) ((f, s) :: heard st)))
  | _ => let st := close_fd f st in
         returns (EpollSrv (delete_event f (interest st)) (buf st) (chans st) (heard st))
  end.

Definition do_write (f : nat) (a : answer) (st : epoll_srv) : outcome epoll_srv :=
  bind_outcome (shown (buf st)) (fun text =>
    match a with
    | wrote n => returns (EpollSrv (modify_event f EPOLLIN (interest st)) cleared
                            (alter (fun c => Chan (received c) (sent c ++ [take n text])) f (chans st)) [])
    | _ => let st := close_fd f st in
           returns (EpollSrv (delete_event f (interest st)) cleared (chans st) [])
    end).

Definition handle_event (listenfd : nat) (e : event) (st : epoll_srv) : outcome epoll_srv :=
  if decide (fd e = listenfd) then if can_read e then handle_accept (call e) st else
    if can_write e then do_write (fd e) (call e) st else returns st
  else if can_read e then do_read (fd e) (call e) st
  else if can_write e then do_write (fd e) (call e) st
  else returns st.

Fixpoint handle_events (listenfd : nat) (es : list event) (st : epoll_srv) : outcome epoll_srv :=
  match es with
  | [] => returns st
  | e :: es' => bind_outcome (handle_event listenfd e st) (handle_events listenfd es')
  end.

(** [do_epoll]: one batch after the other. *)
Fixpoint do_epoll (listenfd : nat) (batches : list (list event)) (st : epoll_srv) : outcome epoll_srv :=
  match batches with
  | [] => returns st
  | es :: batches' => bind_outcome (handle_events listenfd es st) (do_epoll listenfd batches')
  end.

End EpollServer.

#[local] Arguments cleared : simpl never.
#[local] Arguments recv_into : simpl never.
#[local] Arguments Nat.min : simpl never.
#[local] Arguments SelectServer.MAX_CLIENTS : simpl never.
#[local] Arguments MAXSIZE : simpl never.

(** ** What the shared buffer holds *)

Lemma recv_into_length s b : length s <= length b -> length (recv_into s b) = length b.
Proof. intros. unfold recv_into. rewrite length_app, length_drop. lia. Qed.

Lemma overlay_length l : Forall clean l -> length (overlay l) = MAXSIZE.
Proof.
  intros Hl. induction Hl as [|s l [_ Hs] Hl IH]; [apply length_replicate|]. cbn [overlay foldr].
  by rewrite recv_into_length; fold (overlay l); rewrite IH.
Qed.

(** Each place of the buffer has the byte of the last message that reached it. *)
Lemma overlay_lookup l j :
  Forall clean l -> j < MAXSIZE -> overlay l !! j = Some (default NUL (head (omap (fun s => s !! j) l))).
Proof.
  intros Hl Hj. induction Hl as [|s l [_ Hs] Hl IH]; [by apply lookup_replicate_2|].
  cbn [overlay foldr omap list_omap]. fold (overlay l). unfold recv_into. destruct (s !! j) as [c|] eqn:Hc.
  - cbn. by apply lookup_app_l_Some.
  - apply lookup_ge_None in Hc. rewrite lookup_app_r, lookup_drop by done.
    replace (length s + (j - length s)) with j by lia. exact IH.
Qed.

Lemma clean_lookup s j c : clean s -> s !! j = Some c -> c <> NUL.
Proof. intros [Hs _] Hc ->. apply Hs. by eapply list_elem_of_lookup_2. Qed.

(** A place is zero where no message reached it. *)
Lemma overlay_zero l j :
  Forall clean l -> j < MAXSIZE -> overlay l !! j = Some NUL <-> Forall (fun s => length s <= j) l.
Proof.
  intros Hl Hj. rewrite overlay_lookup by done. clear Hj. induction Hl as [|s l Hs Hl IH]; [by split|].
  cbn [omap list_omap]. rewrite Forall_cons. destruct (s !! j) as [c|] eqn:Hc; cbn.
  - pose proof (lookup_lt_Some _ _ _ Hc). split; [|lia]. intros [= ->]. by destruct (clean_lookup s j NUL Hs Hc).
  - apply lookup_ge_None in Hc. rewrite <- IH. split; [by split|by intros [_ H]].
Qed.

Lemma c_str_app_iff s t : NUL ∉ s -> c_str (s ++ t) = s <-> t = [] \/ head t = Some NUL.
Proof.
  intros Hs. rewrite c_str_app by done. split.
  - intros H. destruct t as [|c t]; [by left|]. right. cbn [c_str] in H. case_decide as Hc; [by subst|].
    apply (f_equal length) in H. rewrite length_app in H. cbn in H. lia.
  - intros [->|H]; [apply app_nil_r|]. destruct t as [|c t]; [done|]. injection H as ->. apply app_nil_r.
Qed.

(** A message is shown as it was sent exactly if it leaves room for the zero and
    none since the buffer was cleared was longer. *)
Lemma shown_iff s l :
  clean s -> Forall clean l ->
  shown (overlay (s :: l)) = returns s <-> length s < MAXSIZE /\ Forall (fun t => length t <= length s) l.
Proof.
  intros Hs Hl. pose proof (overlay_length l Hl) as Hlen. cbn [overlay foldr]. fold (overlay l).
  unfold shown, recv_into. destruct Hs as [Hs Hmax].
  assert (Hd : forall t, head (drop (length s) (overlay l)) = Some t <-> overlay l !! length s = Some t).
  { intros t. rewrite <- (Nat.add_0_r (length s)) at 2. rewrite <- lookup_drop. by destruct (drop _ _). }
  case_decide as Hz.
  - transitivity (c_str (s ++ drop (length s) (overlay l)) = s); [split; [by intros [= H]|by intros ->]|].
    rewrite c_str_app_iff, Hd by done. split.
    + intros [Hn|Hn].
      * rewrite Hn, app_nil_r in Hz. done.
      * pose proof (lookup_lt_Some _ _ _ Hn). rewrite Hlen in *. split; [done|]. by apply overlay_zero in Hn.
    + intros [Hlt Hf]. right. by apply overlay_zero.
  - split; [done|]. intros [Hlt Hf]. destruct Hz. apply elem_of_app. right.
    assert (Hn : overlay l !! length s = Some NUL) by by apply overlay_zero.
    apply Hd in Hn. destruct (drop _ _) as [|c r]; [done|]. injection Hn as ->. by left.
Qed.

(** The end of the buffer is passed exactly if one message filled it. *)
Lemma overflow_iff l :
  Forall clean l -> shown (overlay l) = undefined <-> Exists (fun s => length s = MAXSIZE) l.
Proof.
  intros Hl. pose proof (overlay_length l Hl) as Hlen.
  transitivity (NUL ∉ overlay l); [unfold shown; case_decide; by split|].
  transitivity (~ overlay l !! (MAXSIZE - 1) = Some NUL).
  - split; [intros H Hn; apply H; by eapply list_elem_of_lookup_2|]. intros H [j Hj]%list_elem_of_lookup.
    apply H. pose proof (lookup_lt_Some _ _ _ Hj) as Hlt. rewrite Hlen in Hlt. apply overlay_zero in Hj; [|done|lia].
    apply overlay_zero; [done|unfold MAXSIZE; lia|]. eapply Forall_impl; [exact Hj|]. intros s Hs. unfold MAXSIZE in *. lia.
  - rewrite overlay_zero, <- Exists_Forall_neg by (auto; unfold MAXSIZE; try lia; intros ?; lia).
    rewrite Forall_forall in Hl. rewrite !Exists_exists. split; intros (s & Hin & Hs); exists s; (split; [done|]);
      destruct (Hl s Hin); unfold MAXSIZE in *; lia.
Qed.

(** A message that leaves room for the zero; with only such messages the text of
    the buffer is defined. *)
Definition short (s : str) : Prop := NUL ∉ s /\ length s < MAXSIZE.

Lemma short_clean s : short s -> clean s.
Proof. intros [H Hs]. split; [done|lia]. Qed.

Lemma shown_short l : Forall short l -> exists text, shown (overlay l) = returns text.
Proof.
  intros Hl. assert (Hc : Forall clean l) by (eapply Forall_impl; eauto using short_clean).
  assert (Hn : shown (overlay l) <> undefined).
  { rewrite overflow_iff, Exists_exists by done. intros (s & Hin & Hs). rewrite Forall_forall in Hl.
    destruct (Hl s Hin). lia. }
  unfold shown in *. case_decide; [by eexists|done].
Qed.

(** The text of a short message is the message exactly if no earlier one was longer. *)
Lemma text_iff s l text :
  short s -> Forall short l -> shown (overlay (s :: l)) = returns text ->
  text = s <-> Forall (fun t => length t <= length s) l.
Proof.
  intros Hs Hl Ht. pose proof (shown_iff s l (short_clean s Hs)) as H. rewrite Ht in H.
  assert (Hc : Forall clean l) by (eapply Forall_impl; eauto using short_clean).
  destruct (H Hc) as [H1 H2]. destruct Hs. split; [intros ->; by apply H1|]. intros Hf.
  assert (returns text = returns s) as [= ->] by auto. done.
Qed.

(** ** Loops *)

Lemma for_range_snoc {S} (body : nat -> S -> outcome S) k i st :
  for_range (Datatypes.S k) i body st = bind_outcome (for_range k i body st) (body (i + k)).
Proof.
  revert i st. induction k as [|k IH]; intros i st.
  - cbn. rewrite Nat.add_0_r. by destruct (body i st).
  - change (for_range (Datatypes.S (Datatypes.S k)) i body st)
      with (bind_outcome (body i st) (for_range (Datatypes.S k) (Datatypes.S i) body)).
    change (for_range (Datatypes.S k) i body st) with (bind_outcome (body i st) (for_range k (Datatypes.S i) body)).
    destruct (body i st) as [st'| |]; [|done|done]. cbn [bind_outcome]. rewrite IH.
    by replace (Datatypes.S i + k) with (i + Datatypes.S k) by lia.
Qed.

(** ** select *)

Section select.
Import SelectServer.
Context (server_fd : nat) (garbage : str).

(** What the system may report in a state: the messages are short, and [accept]
    returns a descriptor that is not in use, or was until this round closes it. *)
Definition s_ok (st : select_srv) (r : s_round) : Prop :=
  match r with
  | select_ready ready answers acc first =>
      (forall fd s, answers fd = Some s -> short s) /\ (forall s, first = Some s -> short s) /\
      (forall fd, acc = Some fd -> 0 < fd < FD_SETSIZE /\ fd <> server_fd /\
         forall j, client_sockfd st !! j = Some fd -> fd ∈ ready /\ (answers fd = None \/ answers fd = Some []))
  | _ => True
  end.

Definition s_reached : select_srv -> Prop :=
  reached (s_start server_fd garbage) s_ok (s_turn server_fd).

Record s_inv (st : select_srv) : Prop := {
  si_length : length (client_sockfd st) = MAX_CLIENTS;
  si_amount : conn_amount st = Nat.min MAX_CLIENTS (length (s_accepted st));
  si_slot : forall i fd, client_sockfd st !! i = Some fd -> fd <> 0 -> s_accepted st !! i = Some fd;
  si_free : forall i fd, client_sockfd st !! i = Some fd -> fd <> 0 -> i < conn_amount st;
  si_distinct : forall i j fd, client_sockfd st !! i = Some fd -> client_sockfd st !! j = Some fd -> fd <> 0 -> i = j;
  si_fd : forall i fd, client_sockfd st !! i = Some fd -> fd <> 0 -> fd <= maxsock st /\ fd <> server_fd /\ fd < FD_SETSIZE;
  si_server : server_fd <= maxsock st;
  si_lost : s_lost st = drop MAX_CLIENTS (s_accepted st);
  si_closed : Forall (fun fd => fd ∈ take MAX_CLIENTS (s_accepted st)) (s_closed st);
  si_sent : s_sent st = (fun fd => (fd, recv_into welcome cleared)) <$> take MAX_CLIENTS (s_accepted st);
  si_buffer : 0 < conn_amount st -> buffer st = overlay (s_heard st);
  si_heard : Forall short (s_heard st) }.

Definition message (a : option str) : option str :=
  match a with Some [] => None | _ => a end.

(** What the clients in the slots below [k] send in a round. *)
Definition messages (F : gset nat) (answers : nat -> option str) (slots : list nat) (k : nat) : list str :=
  omap (fun j => fd ← slots !! j; if decide (fd <> 0 /\ fd ∈ F) then message (answers fd) else None) (seq 0 k).

(** The loop over the clients after [k] of them. *)
Record s_loop (F : gset nat) (answers : nat -> option str) (st : select_srv) (k : nat) (F' : gset nat) (st' : select_srv) : Prop := {
  sl_inv : s_inv st';
  sl_same : conn_amount st' = conn_amount st /\ maxsock st' = maxsock st /\ s_accepted st' = s_accepted st;
  sl_zero : 0 ∉ F';
  sl_server : server_fd ∈ F' <-> server_fd ∈ F;
  sl_rest : forall j, k <= j -> client_sockfd st' !! j = client_sockfd st !! j;
  sl_bits : forall j fd, k <= j -> client_sockfd st !! j = Some fd -> fd ∈ F' <-> fd ∈ F;
  sl_done : forall j fd, j < k -> client_sockfd st !! j = Some fd ->
    client_sockfd st' !! j = Some (if decide (fd ∈ F /\ message (answers fd) = None) then 0 else fd);
  sl_heard : s_heard st' = reverse (messages F answers (client_sockfd st) k) ++ s_heard st;
  sl_console : console st `prefix_of` console st' }.

Lemma messages_S F answers slots k fd :
  slots !! k = Some fd ->
  messages F answers slots (S k) = messages F answers slots k ++ option_list (if decide (fd <> 0 /\ fd ∈ F) then message (answers fd) else None).
Proof.
  intros Hk. unfold messages. rewrite seq_S, omap_app. f_equal. cbn. rewrite Hk. cbn. case_decide; [by destruct (message (answers fd))|done].
Qed.

Lemma inv_line x st : s_inv st -> s_inv (add_line x st).
Proof. by intros []. Qed.

Lemma inv_receive s st : s_inv st -> short s -> 0 < conn_amount st -> s_inv (receive s st).
Proof.
  intros [] Hs Hc. constructor; cbn; auto. intros _. unfold overlay. cbn. by rewrite si_buffer0.
Qed.

Lemma inv_close i fd st : s_inv st -> client_sockfd st !! i = Some fd -> fd <> 0 -> s_inv (close_client i fd st).
Proof.
  intros [] Hi Hfd. pose proof (si_slot0 i fd Hi Hfd) as Ha.
  assert (Hins : forall j x, <[i := 0]> (client_sockfd st) !! j = Some x -> x <> 0 -> client_sockfd st !! j = Some x)
    by (intros j x [[_ [<- _]]|[_ Hj]]%list_lookup_insert_Some Hx; done).
  constructor; cbn; eauto.
  - by rewrite length_insert.
  - apply Forall_app. split; [done|]. constructor; [|done]. apply list_elem_of_lookup. exists i.
    rewrite lookup_take_lt; [done|]. pose proof (lookup_lt_Some _ _ _ Hi). unfold MAX_CLIENTS in *. lia.
Qed.

Lemma print_short x st :
  s_inv st -> 0 < conn_amount st ->
  exists text, shown (buffer st) = returns text /\ print_buffer x st = returns (add_line (x text) st).
Proof.
  intros [] Hc. destruct (shown_short (s_heard st)) as [text Ht]; [done|]. exists text.
  unfold print_buffer. by rewrite si_buffer0, Ht by done.
Qed.

Lemma s_loop_start F answers st : s_inv st -> 0 ∉ F -> s_loop F answers st 0 F st.
Proof. intros Hi H0. constructor; auto; lia. Qed.

(** One more client, [k] with descriptor [fd]. *)
Section step.
Context (F : gset nat) (answers : nat -> option str) (st : select_srv) (k : nat) (F' : gset nat) (st' : select_srv) (fd : nat).
Context (Hloop : s_loop F answers st k F' st') (Hst : s_inv st) (Hans : forall fd s, answers fd = Some s -> short s).
Context (Hk : k < conn_amount st) (Hfd : client_sockfd st !! k = Some fd).

Lemma step_slot : client_sockfd st' !! k = Some fd.
Proof. by rewrite (sl_rest _ _ _ _ _ _ Hloop). Qed.

(** What the loop says of the slots up to [k], where slot [k] becomes [x]. *)
Lemma step_done st'' x :
  (if decide (fd ∈ F /\ message (answers fd) = None) then 0 else fd) = x ->
  client_sockfd st'' = <[k := x]> (client_sockfd st') ->
  forall j fd', j < S k -> client_sockfd st !! j = Some fd' ->
    client_sockfd st'' !! j = Some (if decide (fd' ∈ F /\ message (answers fd') = None) then 0 else fd').
Proof.
  intros Hx -> j fd' Hj Hfd'. destruct (decide (j = k)) as [->|].
  - rewrite Hfd in Hfd'. injection Hfd' as <-. rewrite Hx. apply list_lookup_insert_eq. eapply lookup_lt_Some, step_slot.
  - rewrite list_lookup_insert_ne by done. apply (sl_done _ _ _ _ _ _ Hloop); [lia|done].
Qed.

Lemma step_skip : fd ∉ F -> s_loop F answers st (S k) F' st'.
Proof.
  intros Hin. pose proof (step_done st' fd) as Hd. pose proof step_slot as Hslot. pose proof (messages_S F answers _ k fd Hfd) as Hmsg.
  destruct Hloop as [Hinv (Hc & Hm & Ha) H0 Hsv Hrest Hbits Hdone Hheard Hcon]. constructor; auto with lia.
  - intros j fd' Hj. apply Hbits. lia.
  - apply Hd; [by rewrite decide_False by tauto|by rewrite list_insert_id].
  - by rewrite Hmsg, decide_False, app_nil_r by tauto.
Qed.

Lemma step_message s text :
  fd <> 0 -> fd ∈ F -> message (answers fd) = Some s ->
  s_loop F answers st (S k) F' (add_line (recv_from k text) (receive s (add_line (start_recv k) st'))).
Proof.
  intros Hnz Hin Hms. assert (Hshort : short s) by (apply (Hans fd); destruct (answers fd) as [[|]|]; naive_solver).
  set (st'' := add_line _ _). pose proof (step_done st'' fd) as Hd. pose proof step_slot as Hslot.
  pose proof (messages_S F answers _ k fd Hfd) as Hmsg. rewrite decide_True, Hms in Hmsg by done. change (option_list (Some s)) with [s] in Hmsg.
  destruct Hloop as [Hinv (Hc & Hm & Ha) H0 Hsv Hrest Hbits Hdone Hheard Hcon]. constructor; cbn -[messages]; auto with lia.
  - apply inv_line, inv_receive; [by apply inv_line|done|cbn; lia].
  - intros j fd' Hj. apply Hbits. lia.
  - apply Hd; [by rewrite decide_False by (rewrite Hms; naive_solver)|by rewrite list_insert_id].
  - by rewrite Hmsg, reverse_snoc, Hheard.
  - rewrite <- app_assoc. by apply prefix_app_r.
Qed.

Lemma step_close :
  fd <> 0 -> fd ∈ F -> message (answers fd) = None ->
  s_loop F answers st (S k) (F' ∖ {[fd]}) (close_client k fd (add_line (client_close k) (add_line (start_recv k) st'))).
Proof.
  intros Hnz Hin Hms. set (st'' := close_client _ _ _). pose proof (step_done st'' 0) as Hd. pose proof step_slot as Hslot.
  pose proof (messages_S F answers _ k fd Hfd) as Hmsg. rewrite decide_True, Hms in Hmsg by done. change (option_list (@None str)) with (@nil str) in Hmsg.
  destruct Hloop as [Hinv (Hc & Hm & Ha) H0 Hsv Hrest Hbits Hdone Hheard Hcon]. constructor; cbn -[messages]; auto with lia.
  - by apply inv_close; [do 2 apply inv_line|..].
  - set_solver.
  - pose proof (si_fd st Hst k fd Hfd Hnz) as (_ & ? & _). rewrite elem_of_difference, elem_of_singleton, Hsv. naive_solver.
  - intros j Hj. rewrite list_lookup_insert_ne by lia. apply Hrest. lia.
  - intros j fd' Hj Hfd'. rewrite elem_of_difference, elem_of_singleton, (Hbits j fd') by (done || lia).
    split; [tauto|]. intros Hf. split; [done|]. intros ->. pose proof (si_distinct st Hst j k fd Hfd' Hfd Hnz). lia.
  - apply Hd; [by rewrite decide_True|done].
  - by rewrite Hmsg, app_nil_r, Hheard.
  - by do 2 apply prefix_app_r.
Qed.

Lemma s_loop_step :
  0 ∉ F -> exists F'' st'', s_serve answers k (F', st') = returns (F'', st'') /\ s_loop F answers st (S k) F'' st'' /\
    (forall s, fd ∈ F -> message (answers fd) = Some s ->
       exists text, shown (overlay (s :: s_heard st')) = returns text /\
         console st'' = console st' ++ [start_recv k; recv_from k text]).
Proof.
  intros HF. unfold s_serve. pose proof step_slot as Hslot. rewrite (nth_lookup_Some _ _ _ _ Hslot).
  pose proof (sl_bits _ _ _ _ _ _ Hloop k fd (le_n k) Hfd) as Hb. assert (Hnz : fd ∈ F -> fd <> 0) by (by intros ? ->).
  destruct (decide (fd ∈ F')) as [Hin|Hin]; rewrite Hb in Hin; [specialize (Hnz Hin)|exists F', st'; split_and!; [done|by apply step_skip|by intros ? ?]].
  destruct (message (answers fd)) as [s|] eqn:Hms.
  - assert (Hshort : short s) by (apply (Hans fd); destruct (answers fd) as [[|]|]; naive_solver).
    pose proof (sl_inv _ _ _ _ _ _ Hloop) as Hinv. pose proof (sl_same _ _ _ _ _ _ Hloop) as (Hc & _ & _).
    destruct (print_short (recv_from k) (receive s (add_line (start_recv k) st'))) as (text & Ht & Hp);
      [apply inv_receive; [by apply inv_line|done|cbn; lia]|cbn; lia|].
    exists F', (add_line (recv_from k text) (receive s (add_line (start_recv k) st'))). split_and!.
    + destruct (answers fd) as [[|c s']|]; try done. injection Hms as <-. by rewrite Hp.
    + by apply step_message.
    + intros s' _ [= <-]. exists text. cbn in Ht. rewrite (si_buffer st' Hinv) in Ht by lia.
      split; [done|]. cbn. by rewrite <- app_assoc.
  - eexists _, _. split; [|split; [by apply step_close|done]]. by destruct (answers fd) as [[|c s']|].
Qed.
End step.

(** A client only adds to what is printed. *)
Lemma s_serve_console answers k F st F' st' :
  s_serve answers k (F, st) = returns (F', st') -> console st `prefix_of` console st'.
Proof.
  unfold s_serve. case_decide; [|by intros [= <- <-]].
  destruct (answers _) as [[|c s]|].
  - intros [= <- <-]. cbn. by do 2 apply prefix_app_r.
  - unfold print_buffer. destruct (shown _); [|done|done]. intros [= <- <-]. cbn. by do 2 apply prefix_app_r.
  - intros [= <- <-]. cbn. by do 2 apply prefix_app_r.
Qed.

(** All clients of a round; [j] is one that has sent a message. *)
Lemma s_loop_all F answers st k :
  s_inv st -> (forall fd s, answers fd = Some s -> short s) -> 0 ∉ F -> k <= conn_amount st ->
  exists F' st', for_range k 0 (s_serve answers) (F, st) = returns (F', st') /\ s_loop F answers st k F' st' /\
    (forall j fd s, j < k -> client_sockfd st !! j = Some fd -> fd ∈ F -> message (answers fd) = Some s ->
       exists text pre post, shown (overlay (s :: reverse (messages F answers (client_sockfd st) j) ++ s_heard st)) = returns text /\
         console st' = console st ++ pre ++ [start_recv j; recv_from j text] ++ post).
Proof.
  intros Hst Hans HF. induction k as [|k IH]; intros Hk.
  { exists F, st. split; [done|]. split; [by apply s_loop_start|lia]. }
  destruct IH as (F1 & st1 & Hrun & Hloop & Hlines); [lia|].
  destruct (lookup_lt_is_Some_2 (client_sockfd st) k) as [fdk Hfdk]; [rewrite si_length by done; pose proof (si_amount st Hst); lia|].
  destruct (s_loop_step F answers st k F1 st1 fdk Hloop Hst Hans Hk Hfdk HF) as (F2 & st2 & Hs & Hloop2 & Hline).
  exists F2, st2. rewrite for_range_snoc, Hrun. split; [exact Hs|]. split; [done|].
  intros j fd s Hj Hfd Hin Hm. destruct (decide (j = k)) as [->|].
  - rewrite Hfdk in Hfd. injection Hfd as <-. destruct (Hline s Hin Hm) as (text & Ht & Hc). rewrite (sl_heard _ _ _ _ _ _ Hloop) in Ht.
    destruct (sl_console _ _ _ _ _ _ Hloop) as [pre Hpre]. exists text, pre, []. split; [done|].
    by rewrite Hc, Hpre, app_nil_r, <- app_assoc.
  - destruct (Hlines j fd s ltac:(lia) Hfd Hin Hm) as (text & pre & post & Ht & Hc). exists text, pre.
    destruct (s_serve_console answers k F1 st1 F2 st2 Hs) as [more Hmore].
    exists (post ++ more). split; [done|]. by rewrite Hmore, Hc, <- !app_assoc.
Qed.

Context (Hserver : 0 < server_fd < FD_SETSIZE).

(** What [select] is given and leaves. *)
Lemma fd_set_spec st ready :
  s_inv st ->
  exists fds, fd_set server_fd st = returns fds /\ 0 ∉ s_select ready fds st /\
    (server_fd ∈ s_select ready fds st <-> server_fd ∈ ready) /\
    (forall i fd, client_sockfd st !! i = Some fd -> fd <> 0 -> fd ∈ s_select ready fds st <-> fd ∈ ready).
Proof.
  intros Hst. unfold fd_set. rewrite decide_True.
  2: { intros fd [->%elem_of_singleton|Hfd]%elem_of_union; [lia|].
       apply elem_of_list_to_set, list_elem_of_filter in Hfd as [Hfd [i Hi]%list_elem_of_lookup].
       by apply (si_fd st Hst i fd Hi). }
  eexists. split; [done|]. pose proof (si_server st Hst) as Hsv. unfold s_select.
  assert (Hin : forall i fd, client_sockfd st !! i = Some fd -> fd <> 0 ->
    fd ∈ (list_to_set (filter (fun fd => fd <> 0) (client_sockfd st)) : gset nat) /\ fd <= maxsock st).
  { intros i fd Hi Hfd. split; [|by eapply si_fd].
    apply elem_of_list_to_set, list_elem_of_filter. split; [done|by eapply list_elem_of_lookup_2]. }
  split_and!.
  - rewrite elem_of_filter, elem_of_intersection, elem_of_union, elem_of_singleton, elem_of_list_to_set, list_elem_of_filter.
    intros (_ & [?|[? _]] & _); [lia|done].
  - rewrite elem_of_filter, elem_of_intersection, elem_of_union, elem_of_singleton. naive_solver.
  - intros i fd Hi Hfd. destruct (Hin i fd Hi Hfd).
    rewrite elem_of_filter, elem_of_intersection, elem_of_union. naive_solver.
Qed.

Lemma inv_take_slot fd s text st :
  s_inv st -> conn_amount st < MAX_CLIENTS -> 0 < fd < FD_SETSIZE -> fd <> server_fd -> fd ∉ client_sockfd st -> short s ->
  s_inv (raise_maxsock fd (add_line (recv_first text)
    (receive s (add_line (new_connection (S (conn_amount st))) (take_slot fd st))))).
Proof.
  intros [] Hc Hfd Hs Hfree Hshort.
  assert (Hlen : length (s_accepted st) = conn_amount st) by (unfold MAX_CLIENTS in *; lia).
  assert (Hget : forall i x, <[conn_amount st := fd]> (client_sockfd st) !! i = Some x -> x <> 0 ->
    i = conn_amount st /\ x = fd \/ i < conn_amount st /\ client_sockfd st !! i = Some x).
  { intros i x [[<- [<- _]]|[Hne Hi]]%list_lookup_insert_Some Hx; [by left|]. right. eauto. }
  assert (Hmax : forall st0, maxsock st0 = maxsock st -> maxsock (raise_maxsock fd st0) = Nat.max (maxsock st) fd)
    by (intros st0 H0; unfold raise_maxsock; case_decide; cbn; lia).
  set (st1 := receive s _). specialize (Hmax (add_line (recv_first text) st1) eq_refl).
  assert (Hsame : forall st0, let st' := raise_maxsock fd st0 in
    client_sockfd st' = client_sockfd st0 /\ conn_amount st' = conn_amount st0 /\ buffer st' = buffer st0 /\
    s_heard st' = s_heard st0 /\ s_accepted st' = s_accepted st0 /\ s_lost st' = s_lost st0 /\
    s_closed st' = s_closed st0 /\ s_sent st' = s_sent st0)
    by (intros st0; unfold raise_maxsock; by case_decide).
  destruct (Hsame (add_line (recv_first text) st1)) as (E1 & E2 & E3 & E4 & E5 & E6 & E7 & E8).
  assert (Hfit : length (s_accepted st ++ [fd]) <= MAX_CLIENTS) by (rewrite length_app; cbn; lia).
  constructor; rewrite ?E1, ?E2, ?E3, ?E4, ?E5, ?E6, ?E7, ?E8, ?Hmax; cbn; rewrite ?drop_ge, ?take_ge in * by lia.
  - by rewrite length_insert.
  - rewrite length_app, Hlen. cbn. lia.
  - intros i x Hi Hx. destruct (Hget i x Hi Hx) as [[-> ->]|[Hlt Hi']]; [by rewrite <- Hlen, list_lookup_middle|].
    rewrite lookup_app_l by lia. eauto.
  - intros i x Hi Hx. destruct (Hget i x Hi Hx) as [[-> ->]|[]]; lia.
  - intros i j x Hi Hj Hx. destruct (Hget i x Hi Hx) as [[-> ->]|[? Hi']], (Hget j _ Hj Hx) as [[-> ?]|[? Hj']]; subst; eauto.
    + by apply list_elem_of_lookup_2 in Hj'.
    + by apply list_elem_of_lookup_2 in Hi'.
  - intros i x Hi Hx. destruct (Hget i x Hi Hx) as [[-> ->]|[? Hi']]; [lia|]. destruct (si_fd0 i x Hi' Hx) as (? & ? & ?). lia.
  - lia.
  - done.
  - eapply Forall_impl; [exact si_closed0|]. intros y Hy. apply elem_of_app. by left.
  - by rewrite fmap_app, si_sent0.
  - done.
  - by apply Forall_singleton.
Qed.

Lemma s_accept_spec acc first st :
  s_inv st -> (forall s, first = Some s -> short s) ->
  (forall fd, acc = Some fd -> 0 < fd < FD_SETSIZE /\ fd <> server_fd /\ fd ∉ client_sockfd st) ->
  (s_accept acc first st = exits 255 /\ is_Some acc /\ first = None /\ conn_amount st < MAX_CLIENTS) \/
  exists st', s_accept acc first st = returns st' /\ s_inv st' /\ console st `prefix_of` console st' /\
    (forall i fd, client_sockfd st !! i = Some fd -> i < conn_amount st -> client_sockfd st' !! i = Some fd).
Proof.
  intros Hst Hfirst Hacc. unfold s_accept. destruct acc as [fd|]; [|right; eexists; split_and!; eauto; done].
  destruct (Nat.ltb_spec (conn_amount st) MAX_CLIENTS) as [Hlt|Hge].
  - destruct first as [s|]; [|by left; eauto]. right. destruct (Hacc fd eq_refl) as (Hfd & Hne & Hfree).
    assert (Hshort : short s) by auto. unfold print_buffer.
    change (buffer (receive s _)) with (overlay [s]).
    destruct (shown_short [s]) as [text Ht]; [by apply Forall_singleton|]. rewrite Ht. cbn [bind_outcome map_outcome].
    eexists. split; [done|]. split; [by apply inv_take_slot|]. unfold raise_maxsock. case_decide; cbn; split.
    + by do 2 apply prefix_app_r.
    + intros i x Hi Hc. by rewrite list_lookup_insert_ne by lia.
    + by do 3 apply prefix_app_r.
    + intros i x Hi Hc. by rewrite list_lookup_insert_ne by lia.
  - right. eexists. split; [done|]. split; [|by split].
    destruct Hst. assert (Hfull : MAX_CLIENTS <= length (s_accepted st)) by lia.
    constructor; cbn; auto.
    + rewrite length_app. cbn. lia.
    + intros i x Hi Hx. rewrite lookup_app_l; eauto. by eapply lookup_lt_Some, si_slot0.
    + by rewrite drop_app_le, si_lost0 by lia.
    + by rewrite take_app_le by lia.
    + by rewrite take_app_le by lia.
Qed.

(** What a round does to a client. *)
Definition client_served (ready : gset nat) (answers : nat -> option str) (st st' : select_srv) : Prop :=
  forall i fd, client_sockfd st !! i = Some fd -> fd <> 0 ->
    if decide (fd ∈ ready) then
      match message (answers fd) with
      | None => client_sockfd st' !! i = Some 0
      | Some s =>
          client_sockfd st' !! i = Some fd /\
          let earlier := reverse (messages ready answers (client_sockfd st) i) ++ s_heard st in
          exists text pre post,
            console st' = console st ++ pre ++ [start_recv i; recv_from i text] ++ post /\
            shown (overlay (s :: earlier)) = returns text /\
            (text = s <-> Forall (fun t => length t <= length s) earlier)
      end
    else client_sockfd st' !! i = Some fd.

Lemma messages_ext F G answers slots k :
  (forall i fd, slots !! i = Some fd -> fd <> 0 -> fd ∈ F <-> fd ∈ G) -> messages F answers slots k = messages G answers slots k.
Proof.
  intros H. unfold messages. induction (seq 0 k) as [|j l IH]; [done|]. cbn.
  assert (E : (fd ← slots !! j; if decide (fd <> 0 /\ fd ∈ F) then message (answers fd) else None)
    = (fd ← slots !! j; if decide (fd <> 0 /\ fd ∈ G) then message (answers fd) else None)).
  { destruct (slots !! j) as [fd|] eqn:Hj; [|done]. cbn. apply decide_ext. specialize (H j fd Hj). tauto. }
  cbn in E. rewrite E. by rewrite IH.
Qed.

Lemma messages_short F answers slots k :
  (forall fd s, answers fd = Some s -> short s) -> Forall short (messages F answers slots k).
Proof.
  intros Hans. apply Forall_forall. intros s (j & _ & Hs)%list_elem_of_omap.
  destruct (slots !! j) as [fd|]; [|done]. cbn in Hs. case_decide; [|done].
  apply (Hans fd). by destruct (answers fd) as [[|]|].
Qed.

(** What is printed and accepted later does not change it. *)
Lemma client_served_mono ready answers st st1 st2 :
  s_inv st -> client_served ready answers st st1 -> console st1 `prefix_of` console st2 ->
  (forall i fd, client_sockfd st1 !! i = Some fd -> i < conn_amount st -> client_sockfd st2 !! i = Some fd) ->
  client_served ready answers st st2.
Proof.
  intros Hst H [more Hmore] Hsame i fd Hi Hfd. specialize (H i fd Hi Hfd). pose proof (si_free st Hst i fd Hi Hfd).
  case_decide; [|by auto]. destruct (message _) as [s|]; [|by auto]. destruct H as [H (text & pre & post & Hc & Ht)].
  split; [by auto|]. exists text, pre, (post ++ more). split; [|done]. by rewrite Hmore, Hc, <- !app_assoc.
Qed.

(** The loop over the clients. *)
Lemma s_clients_spec st ready answers :
  s_inv st -> (forall fd s, answers fd = Some s -> short s) ->
  exists fds F' st1, fd_set server_fd st = returns fds /\
    for_range (conn_amount st) 0 (s_serve answers) (s_select ready fds st, st) = returns (F', st1) /\
    s_inv st1 /\ conn_amount st1 = conn_amount st /\ client_served ready answers st st1 /\
    (forall i fd, client_sockfd st !! i = Some fd -> client_sockfd st1 !! i =
       Some (if decide (fd <> 0 /\ fd ∈ ready /\ message (answers fd) = None) then 0 else fd)).
Proof.
  intros Hst Hans. destruct (fd_set_spec st ready Hst) as (fds & Hfds & H0 & _ & Hbits).
  set (F := s_select ready fds st) in *.
  destruct (s_loop_all F answers st (conn_amount st)) as (F' & st1 & Hrun & Hloop & Hlines); [done..|].
  exists fds, F', st1. destruct Hloop as [Hinv (Hc & _ & _) _ _ Hrest _ Hdone Hheard _].
  assert (Hkept : forall i fd, client_sockfd st !! i = Some fd -> client_sockfd st1 !! i =
    Some (if decide (fd <> 0 /\ fd ∈ ready /\ message (answers fd) = None) then 0 else fd)).
  { intros i fd Hi. destruct (decide (fd = 0)) as [->|Hfd].
    - rewrite decide_False by (by intros []). destruct (decide (i < conn_amount st)).
      + rewrite (Hdone i 0) by done. by case_decide.
      + by rewrite Hrest by lia.
    - rewrite (Hdone i fd); [|by eapply si_free|done]. pose proof (Hbits i fd Hi Hfd). f_equal. apply decide_ext. tauto. }
  split_and!; try done. intros i fd Hi Hfd. pose proof (Hkept i fd Hi) as Hi1.
  destruct (decide (fd ∈ ready)) as [Hr|Hr]; [|by rewrite decide_False in Hi1 by tauto].
  destruct (message (answers fd)) as [s|] eqn:Hs; [|by rewrite decide_True in Hi1].
  rewrite decide_False in Hi1 by (by intros (_ & _ & ?)). split; [done|].
  destruct (Hlines i fd s) as (text & pre & post & Ht & Hcs); [by eapply si_free|done|by apply (Hbits i fd)|done|].
  rewrite (messages_ext F ready) in Ht by done. exists text, pre, post. split_and!; [done..|].
  apply text_iff; [|apply Forall_app; split|done].
  - apply (Hans fd). by destruct (answers fd) as [[|]|].
  - by apply Forall_reverse, messages_short.
  - apply Hst.
Qed.

Lemma s_turn_spec st ready answers acc first :
  s_inv st -> s_ok st (select_ready ready answers acc first) ->
  (s_turn server_fd (select_ready ready answers acc first) st = exits 255 /\ is_Some acc /\ first = None /\ conn_amount st < MAX_CLIENTS) \/
  exists st', s_turn server_fd (select_ready ready answers acc first) st = returns st' /\ s_inv st' /\ client_served ready answers st st'.
Proof.
  intros Hst (Hans & Hfirst & Hacc).
  destruct (s_clients_spec st ready answers Hst Hans) as (fds & F' & st1 & Hfds & Hrun & Hinv & Hc & Hserved & Hkept).
  unfold s_turn. rewrite Hfds. cbn [bind_outcome]. rewrite Hrun. cbn [bind_outcome].
  assert (Hfree : forall fd, acc = Some fd -> 0 < fd < FD_SETSIZE /\ fd <> server_fd /\ fd ∉ client_sockfd st1).
  { intros fd Hfd. destruct (Hacc fd Hfd) as (? & ? & Hold). split_and!; [lia..|done|]. intros [j Hj]%list_elem_of_lookup.
    destruct (lookup_lt_is_Some_2 (client_sockfd st) j) as [x Hx].
    { rewrite (si_length st Hst), <- (si_length st1 Hinv). by eapply lookup_lt_Some. }
    rewrite (Hkept j x Hx) in Hj. injection Hj as Hj. case_decide as Hd; [lia|]. subst x.
    destruct (Hold j Hx) as [? [Hn|Hn]]; apply Hd; rewrite Hn; split_and!; done || lia. }
  case_decide; [|right; by exists st1].
  destruct (s_accept_spec acc first st1 Hinv Hfirst Hfree) as [(He & ? & ? & ?)|(st2 & He & Hinv2 & Hcon2 & Hsame)]; rewrite He.
  - left. split_and!; [done..|lia].
  - right. exists st2. split_and!; [done..|]. eapply client_served_mono; try done. intros i fd Hi Hlt. apply Hsame; [done|lia].
Qed.

Lemma s_start_inv : s_inv (s_start server_fd garbage).
Proof.
  assert (Hz : forall i fd, client_sockfd (s_start server_fd garbage) !! i = Some fd -> fd = 0)
    by (intros i fd [-> _]%lookup_replicate; done).
  constructor; try done; try (intros i fd Hi Hfd; by destruct (Hfd (Hz i fd Hi))).
  - intros i j fd Hi _ Hfd. by destruct (Hfd (Hz i fd Hi)).
  - cbn. lia.
Qed.

Lemma s_reached_inv st : s_reached st -> s_inv st.
Proof.
  apply reached_inv; [apply s_start_inv|]. clear st. intros st r st' Hst Hr Hs. destruct r as [| |ready answers acc first].
  - unfold s_turn in Hs. by destruct (fd_set _ _).
  - unfold s_turn in Hs. destruct (fd_set _ _); [|done|done]. injection Hs as <-. by apply inv_line.
  - destruct (s_turn_spec st ready answers acc first Hst Hr) as [[He _]|(st2 & He & Hinv & _)]; rewrite He in Hs; [done|].
    by injection Hs as <-.
Qed.

End select.

(** [02...select/server.cpp]. In every state it reaches, on messages without
    zeros that do not fill the buffer: the slots are never used again, so that
    only the first five connections are ever served and greeted, and all others
    are lost without being closed. In each round every one of them that is ready
    is read: at the end of its stream or after an error its slot is emptied, and a
    message is printed, as it was sent exactly if no message since the last new
    client was longer (the buffer is not cleared in between). The round returns
    unless the first message of a new client cannot be read, which ends the
    program. *)
Theorem select_server5 server_fd garbage st ready answers acc first :
  0 < server_fd < SelectServer.FD_SETSIZE -> s_reached server_fd garbage st ->
  s_ok server_fd st (SelectServer.select_ready ready answers acc first) ->
  (SelectServer.conn_amount st = Nat.min 5 (length (SelectServer.s_accepted st)) /\
   (forall i fd, SelectServer.client_sockfd st !! i = Some fd -> fd <> 0 -> SelectServer.s_accepted st !! i = Some fd /\ i < 5) /\
   fst <$> SelectServer.s_sent st = take 5 (SelectServer.s_accepted st) /\
   SelectServer.s_lost st = drop 5 (SelectServer.s_accepted st) /\
   Forall (fun fd => fd ∈ take 5 (SelectServer.s_accepted st)) (SelectServer.s_closed st)) /\
  let o := SelectServer.s_turn server_fd (SelectServer.select_ready ready answers acc first) st in
  (o = exits 255 /\ is_Some acc /\ first = None /\ SelectServer.conn_amount st < 5 \/
   exists st', o = returns st' /\ client_served ready answers st st').
Proof.
  intros Hsv Hst%s_reached_inv Hr; [|done]. split.
  - destruct Hst. split_and!; try done.
    + intros i fd Hi Hfd. split; [by apply si_slot0|]. apply lookup_lt_Some in Hi. by rewrite si_length0 in Hi.
    + rewrite si_sent0, <- list_fmap_compose. apply list_fmap_id.
  - destruct (s_turn_spec server_fd Hsv st ready answers acc first Hst Hr) as [?|(st' & He & _ & Hs)]; [by left|].
    right. by exists st'.
Qed.

(** ** poll *)

Section poll.
Import PollServer.
Context (listenfd : nat).

Definition p_reached (garbage : list bool) : poll_srv -> Prop :=
  reached (p_start listenfd garbage) (fun _ _ => True) p_turn.

Definition sys_fd (c : syscall) : nat := match c with reads fd | writes fd | closes fd => fd end.

(** Every slot of a client is empty or has descriptor 0. *)
Definition stdin_slots (l : list (option nat * bool)) : Prop :=
  forall i x, 0 < i -> l !! i = Some x -> x.1 = None \/ x.1 = Some 0.

Record p_inv (st : poll_srv) : Prop := {
  pi_length : length (clientfds st) = OPEN_MAX;
  pi_listen : fst <$> clientfds st !! 0 = Some (Some listenfd);
  pi_slots : stdin_slots (clientfds st);
  pi_maxi : maxi st < OPEN_MAX;
  pi_calls : Forall (fun c => sys_fd c = 0) (calls st) }.

Lemma stdin_slots_alter l i f :
  stdin_slots l -> (forall x, (f x).1 = None \/ (f x).1 = Some 0) -> stdin_slots (alter f i l).
Proof.
  intros Hl Hf j x Hj Hx. destruct (decide (j = i)) as [->|].
  - rewrite list_lookup_alter_eq in Hx. destruct (l !! i) as [y|]; [|done]. injection Hx as <-. apply Hf.
  - rewrite list_lookup_alter_ne in Hx by done. by eapply Hl.
Qed.

Lemma poll_inv revents st : p_inv st -> p_inv (poll revents st).
Proof.
  intros []. constructor; cbn; auto.
  - by rewrite length_imap.
  - rewrite list_lookup_imap. destruct (clientfds st !! 0) as [[s b]|]; [|done]. done.
  - intros i x Hi Hx. rewrite list_lookup_imap in Hx. destruct (clientfds st !! i) as [[s b]|] eqn:Hs; [|done].
    cbn in Hx. specialize (pi_slots0 i (s, b) Hi Hs). case_match; by simplify_eq.
Qed.

Lemma free_slot_range i l j : free_slot i l = Some j -> i <= j < i + length l /\ exists b, l !! (j - i) = Some (None, b).
Proof.
  revert i. induction l as [|[[fd|] b] l IH]; intros i; [done|..]; cbn [free_slot length].
  - intros [Hj [b' Hb]]%IH. split; [lia|]. exists b'. by replace (j - i) with (S (j - S i)) by lia.
  - intros [= ->]. split; [lia|]. rewrite Nat.sub_diag. by exists b.
Qed.

Lemma p_serve_inv answers i st st' : 0 < i -> p_inv st -> p_serve answers i st = returns st' -> p_inv st'.
Proof.
  intros Hi [] Hs. unfold p_serve in Hs. destruct (clientfds st !! i) as [[[fd|] []]|] eqn:Hl; try by simplify_eq.
  destruct (pi_slots0 i _ Hi Hl) as [|[= ->]]; [done|].
  assert (Hcalls : forall c, sys_fd c = 0 -> Forall (fun c => sys_fd c = 0) (calls st ++ [reads 0; c]))
    by (intros c Hc; apply Forall_app; split; [done|by repeat constructor]).
  destruct (answers i) as [[|c s]|]; injection Hs as <-; constructor; cbn; auto.
  - by rewrite length_alter.
  - by rewrite list_lookup_alter_ne by lia.
  - apply stdin_slots_alter; [done|]. by left.
Qed.

Lemma for_range_inv {S} (body : nat -> S -> outcome S) (P : S -> Prop) k i st st' :
  (forall j st st', i <= j -> P st -> body j st = returns st' -> P st') -> P st -> for_range k i body st = returns st' -> P st'.
Proof.
  revert i st. induction k as [|k IH]; intros i st Hbody Hst; cbn [for_range]; [by intros [= <-]|].
  destruct (body i st) as [st1| |] eqn:Hb; [|done|done]. apply IH; [|by eapply Hbody]. intros j ? ? Hj. apply Hbody. lia.
Qed.

Lemma p_accept_inv acc st st' : p_inv st -> p_accept acc st = returns (Some st') -> p_inv st'.
Proof.
  intros []. destruct acc as [fd| |]; cbn; [|done..]. destruct (free_slot _ _) as [i|] eqn:Hf; [|done].
  apply free_slot_range in Hf as [Hi _]. intros [= <-]. rewrite length_tl, pi_length0 in Hi. constructor; cbn; auto.
  - by rewrite length_alter.
  - by rewrite list_lookup_alter_ne by lia.
  - apply stdin_slots_alter; [done|]. by right.
  - unfold OPEN_MAX in *. lia.
Qed.

Lemma p_turn_inv r st st' : p_inv st -> p_turn r st = returns st' -> p_inv st'.
Proof.
  intros Hst. destruct r as [|nready revents acc answers]; [done|]. cbn [p_turn].
  assert (Hall : forall st0 st1, p_inv st0 -> p_serve_all answers st0 = returns st1 -> p_inv st1).
  { intros st0 st1 H0. apply for_range_inv; [|done]. intros j ? ? Hj. by apply p_serve_inv. }
  pose proof (poll_inv revents st Hst) as Hp. destruct (default _ _); [|by apply Hall].
  destruct (p_accept acc (poll revents st)) as [[st1|]| |] eqn:Ha; try done; cbn [bind_outcome]; [|by intros [= <-]].
  pose proof (p_accept_inv acc _ _ Hp Ha) as H1. case_match; [by intros [= <-]|by apply Hall].
Qed.

Lemma p_reached_inv garbage st : length garbage = OPEN_MAX -> p_reached garbage st -> p_inv st.
Proof.
  intros Hg. apply reached_inv; [|intros st1 r st2 H _; by apply p_turn_inv].
  destruct garbage as [|a [|b [|c [|]]]]; try done. constructor; cbn; auto; [|unfold OPEN_MAX; lia].
  intros [|[|[|i]]] x Hi Hx; try lia; try done; injection Hx as <-; by left.
Qed.

End poll.

(** [03...poll/server.cpp]. The precedence of [==] makes [connfd] the result of a
    comparison, which is 0 where [accept] succeeds: whatever happens, the server
    only ever reads, writes and closes descriptor 0, every client it accepts is
    lost (unless its descriptor is 0, once the server has closed that), and with
    two clients in the table the next one ends the program. *)
Theorem poll_serves_stdin listenfd garbage st :
  length garbage = PollServer.OPEN_MAX -> p_reached listenfd garbage st ->
  Forall (fun c => sys_fd c = 0) (PollServer.calls st) /\
  stdin_slots (PollServer.clientfds st) /\
  (forall fd, match PollServer.p_accept (PollServer.accepted fd) st with
              | returns (Some st') => fd <> 0 -> PollServer.lost st' = PollServer.lost st ++ [fd]
              | exits c => c = 1%Z /\ forall i, 0 < i < PollServer.OPEN_MAX -> fst <$> PollServer.clientfds st !! i = Some (Some 0)
              | _ => False
              end).
Proof.
  intros Hg Hst%p_reached_inv; [|done]. destruct Hst. split; [done|]. split; [done|]. intros fd. cbn.
  destruct (PollServer.free_slot _ _) as [i|] eqn:Hf; [by intros; rewrite decide_False by done|]. split; [done|].
  destruct (PollServer.clientfds st) as [|x [|y [|z [|]]]]; try done. cbn in Hf.
  intros [|[|[|i]]] Hi; try (unfold PollServer.OPEN_MAX in *; lia).
  - destruct y as [[n|] b]; [|done]. destruct (pi_slots0 1 (Some n, b) ltac:(lia) eq_refl) as [|[= ->]]; done.
  - destruct y as [[n|] b]; [|done]. destruct z as [[m|] c]; [|done]. destruct (pi_slots0 2 (Some m, c) ltac:(lia) eq_refl) as [|[= ->]]; done.
Qed.

(** ** epoll *)

Section epoll.
Import EpollServer.
Context (listenfd : nat).

(** [epoll_wait] reports what was asked for, and the calls answer what they are
    asked; messages are short, and [accept] returns a descriptor that is not open. *)
Definition event_ok (st : epoll_srv) (e : event) : Prop :=
  (exists d, interest st !! fd e = Some d /\ (can_read e = true -> d = EPOLLIN) /\ (can_write e = true -> d = EPOLLOUT)) /\
  match call e with
  | accepted f => fd e = listenfd /\ interest st !! f = None
  | accept_failed => fd e = listenfd
  | got s => fd e <> listenfd /\ can_read e = true /\ short s /\ s <> []
  | eof | read_failed => fd e <> listenfd /\ can_read e = true
  | wrote n => fd e <> listenfd /\ can_read e = false /\ n <= length (c_str (buf st))
  | write_failed => fd e <> listenfd /\ can_read e = false
  end.

(** The events of a run, each in the state in which it is handled. *)
Fixpoint events_ok (es : list event) (st : epoll_srv) : Prop :=
  match es with
  | [] => True
  | e :: es' => event_ok st e /\ forall st', handle_event listenfd e st = returns st' -> events_ok es' st'
  end.

(** Replies keep up with messages, one by one. *)
Definition replies_ok (d : direction) (c : chan) : Prop :=
  length (received c) = match d with EPOLLIN => length (sent c) | EPOLLOUT => S (length (sent c)) end.

Record e_inv (st : epoll_srv) : Prop := {
  ei_buf : buf st = overlay (snd <$> heard st);
  ei_short : Forall short (snd <$> heard st);
  ei_listen : interest st !! listenfd = Some EPOLLIN;
  ei_chans : forall f, f <> listenfd -> match interest st !! f, chans st !! f with
                                     | Some d, Some c => replies_ok d c
                                     | None, None => True
                                     | _, _ => False
                                     end }.

Lemma epoll_init_inv : e_inv (epoll_init listenfd).
Proof.
  constructor; cbn; [done|done|apply lookup_insert_eq|]. intros f Hf. unfold add_event.
  by rewrite lookup_insert_ne, !lookup_empty by done.
Qed.

(** The text in the buffer is always defined. *)
Lemma e_inv_shown st : e_inv st -> shown (buf st) = returns (c_str (buf st)).
Proof.
  intros []. destruct (shown_short (snd <$> heard st)) as [text Ht]; [done|]. rewrite ei_buf0. revert Ht.
  unfold shown. by case_decide.
Qed.

Lemma handle_event_inv st e : e_inv st -> event_ok st e -> exists st', handle_event listenfd e st = returns st' /\ e_inv st'.
Proof.
  intros Hst [(d & Hd & Hr & Hw) Hcall]. pose proof (e_inv_shown st Hst) as Hshown. destruct Hst as [Hb Hs Hl Hc].
  destruct e as [f r w a]. cbn in *. unfold handle_event. cbn.
  assert (Hclose : forall b l, b = overlay (snd <$> l) -> Forall short (snd <$> l) -> f <> listenfd ->
    e_inv (EpollSrv (delete_event f (delete f (interest st))) b (delete f (chans st)) l)).
  { intros b l Hb' Hs' Hf. unfold delete_event. constructor; cbn; [done|done|by rewrite !lookup_delete_ne|].
    intros g Hg. destruct (decide (g = f)) as [->|]; [by rewrite !lookup_delete_eq|].
    rewrite !lookup_delete_ne by done. by apply Hc. }
  destruct (decide (f = listenfd)) as [->|Hf].
  - rewrite Hl in Hd. injection Hd as <-. destruct r; [|destruct w; [by specialize (Hw eq_refl)|by eexists]].
    destruct a as [g| | | | | |]; try (by eexists); try (by destruct Hcall). eexists. split; [done|].
    destruct Hcall as [_ Hg]. assert (g <> listenfd) by (intros ->; by rewrite Hl in Hg).
    unfold add_event. constructor; cbn; [done|done|by rewrite lookup_insert_ne|].
    intros h Hh. destruct (decide (h = g)) as [->|]; [by rewrite !lookup_insert_eq|]. rewrite !lookup_insert_ne by done. by apply Hc.
  - pose proof (Hc f Hf) as Hcf. rewrite Hd in Hcf. destruct (chans st !! f) as [c|] eqn:Hcc; [|done].
    assert (Halter : forall d' g b l, b = overlay (snd <$> l) -> Forall short (snd <$> l) -> replies_ok d' (g c) ->
      e_inv (EpollSrv (modify_event f d' (interest st)) b (alter g f (chans st)) l)).
    { intros d' g b l Hb' Hs' Hg. unfold modify_event. constructor; cbn; [done|done|by rewrite lookup_alter_ne|].
      intros h Hh. destruct (decide (h = f)) as [->|]; [by rewrite !lookup_alter_eq, Hd, Hcc|].
      rewrite !lookup_alter_ne by done. by apply Hc. }
    destruct r; [specialize (Hr eq_refl); subst d|destruct w; [specialize (Hw eq_refl); subst d|by eexists]].
    + destruct a as [| |s| | | |]; try (by destruct Hcall); try (eexists; split; [done|]; by apply Hclose).
      destruct Hcall as (_ & _ & Hss & _). cbn. rewrite Hb. change (recv_into s (overlay ?l)) with (overlay (s :: l)).
      destruct (shown_short (s :: (snd <$> heard st))) as [text Ht]; [by constructor|]. rewrite Ht. cbn [bind_outcome].
      eexists. split; [done|]. apply Halter; [done|by constructor|]. unfold replies_ok in *. cbn. rewrite length_app. cbn. lia.
    + unfold do_write. rewrite Hshown. cbn [bind_outcome].
      destruct a; try (exfalso; intuition congruence); (eexists; split; [done|]); [|by apply Hclose].
      apply Halter; [done|done|]. unfold replies_ok in *. cbn. rewrite length_app. cbn. lia.
Qed.

Lemma handle_events_app es es' st :
  handle_events listenfd (es ++ es') st = bind_outcome (handle_events listenfd es st) (handle_events listenfd es').
Proof.
  revert st. induction es as [|e es IH]; intros st; [done|]. cbn. destruct (handle_event _ _ _); [|done|done]. apply IH.
Qed.

Lemma do_epoll_concat batches st : do_epoll listenfd batches st = handle_events listenfd (concat batches) st.
Proof.
  revert st. induction batches as [|es batches IH]; intros st; [done|]. cbn [do_epoll concat]. rewrite handle_events_app.
  destruct (handle_events _ es st); [|done|done]. apply IH.
Qed.

Lemma handle_events_inv es st : e_inv st -> events_ok es st -> exists st', handle_events listenfd es st = returns st' /\ e_inv st'.
Proof.
  revert st. induction es as [|e es IH]; intros st Hst; [by exists st|]. intros [He Hes].
  destruct (handle_event_inv st e Hst He) as (st1 & Hs & H1). cbn. rewrite Hs. apply IH; [done|]. by apply Hes.
Qed.

(** A schedule in which each message is answered before anything else happens. *)
Fixpoint alone (es : list event) : Prop :=
  match es with
  | [] => True
  | e :: es' =>
      match call e with
      | got s =>
          match es' with
          | w :: es'' => fd w = fd e /\ can_read w = false /\ can_write w = true /\ call w = wrote (length s) /\ alone es''
          | [] => False
          end
      | wrote _ | write_failed => False
      | _ => alone es'
      end
  end.

(** Between two exchanges. *)
Record quiet (st : epoll_srv) : Prop := {
  q_inv : e_inv st;
  q_heard : heard st = [];
  q_chans : forall f c, chans st !! f = Some c -> sent c = received c }.

Lemma quiet_other e st st' :
  quiet st -> event_ok st e -> alone [e] -> handle_event listenfd e st = returns st' -> quiet st'.
Proof.
  intros [Hinv Hh Hc] Hok Ha Hs. destruct (handle_event_inv st e Hinv Hok) as (st2 & Hs2 & Hinv2).
  rewrite Hs in Hs2. injection Hs2 as <-. destruct Hok as [(d & Hd & Hr & Hw) Hcall].
  destruct e as [f r w a]. unfold handle_event in Hs. cbn in *.
  destruct a as [g| |s| | |n|]; try done.
  - destruct Hcall as [-> Hg]. rewrite decide_True in Hs by done. rewrite (ei_listen st Hinv) in Hd. injection Hd as <-.
    destruct r; [|destruct w; [by specialize (Hw eq_refl)|by injection Hs as <-]].
    injection Hs as <-. constructor; [done..|]. cbn. intros h c [[<- <-]|[_ Hh']]%lookup_insert_Some; [done|eauto].
  - subst f. rewrite decide_True in Hs by done. rewrite (ei_listen st Hinv) in Hd. injection Hd as <-.
    destruct r; [|destruct w; [by specialize (Hw eq_refl)|]]; by injection Hs as <-.
  - destruct Hcall as [Hf ->]. rewrite decide_False in Hs by done. injection Hs as <-. constructor; [done..|].
    cbn. intros h c [_ Hh']%lookup_delete_Some. eauto.
  - destruct Hcall as [Hf ->]. rewrite decide_False in Hs by done. injection Hs as <-. constructor; [done..|].
    cbn. intros h c [_ Hh']%lookup_delete_Some. eauto.
Qed.

(** A message and its reply in a cleared buffer. *)
Lemma exchange_result f w s st :
  f <> listenfd -> buf st = cleared -> short s ->
  handle_events listenfd [Event f true w (got s); Event f false true (wrote (length s))] st =
    returns (EpollSrv (modify_event f EPOLLIN (modify_event f EPOLLOUT (interest st))) cleared
               (alter (fun c => Chan (received c ++ [s]) (sent c ++ [s])) f (chans st)) []).
Proof.
  intros Hf Hb Hs. assert (Hss : shown (recv_into s cleared) = returns s)
    by (change (recv_into s cleared) with (overlay [s]); apply shown_iff; [by apply short_clean|done|]; split; [apply Hs|done]).
  cbn. unfold handle_event. cbn. rewrite decide_False by done. cbn. rewrite Hb, Hss. cbn.
  rewrite decide_False by done. unfold do_write. cbn. rewrite Hss. cbn. rewrite firstn_all. do 2 f_equal.
  apply map_eq. intros g. destruct (decide (g = f)) as [->|]; [|by rewrite !lookup_alter_ne].
  rewrite !lookup_alter_eq. by destruct (chans st !! f).
Qed.

Lemma quiet_exchange es st st' :
  quiet st -> events_ok es st -> match es with [e; _] => exists s, call e = got s | _ => False end -> alone es ->
  handle_events listenfd es st = returns st' -> quiet st'.
Proof.
  intros [Hinv Hh Hc] Hok. destruct es as [|e [|w [|]]]; try done. intros [s Hcall] Ha Hs.
  destruct (handle_events_inv [e; w] st Hinv Hok) as (st2 & Hs2 & Hinv2). rewrite Hs in Hs2. injection Hs2 as <-.
  destruct Hok as [[_ He] _]. destruct e as [f r w1 a], w as [f' r' w' a']. cbn in Hcall. subst a. cbn in He, Ha.
  destruct Ha as (-> & -> & -> & -> & _), He as (Hf & -> & Hshort & _).
  rewrite exchange_result in Hs by (try done; by rewrite (ei_buf st Hinv), Hh). injection Hs as <-.
  constructor; [done|done|]. cbn. intros g c. destruct (decide (g = f)) as [->|].
  - rewrite lookup_alter_eq. destruct (chans st !! f) as [c0|] eqn:H0; [|done]. intros [= <-]. cbn. by rewrite (Hc f c0 H0).
  - rewrite lookup_alter_ne by done. apply Hc.
Qed.

Lemma quiet_events n es st st' :
  length es <= n -> quiet st -> events_ok es st -> alone es -> handle_events listenfd es st = returns st' -> quiet st'.
Proof.
  revert es st. induction n as [|n IH]; intros es st Hn Hq Hok Ha; destruct es as [|e es]; try (cbn in Hn; lia); try (by intros [= <-]).
  cbn in Hn. destruct (call e) as [| |s| | | |] eqn:Hcall.
  3: { cbn in Ha. rewrite Hcall in Ha. destruct es as [|w es]; [done|].
       change (e :: w :: es) with ([e; w] ++ es) in *. rewrite handle_events_app.
       destruct (handle_events listenfd [e; w] st) as [st1| |] eqn:Hs; [|done|done]. cbn [bind_outcome].
       destruct Hok as [He Hok]. cbn in Hs. destruct (handle_event listenfd e st) as [st0| |] eqn:He0; [|done|done].
       cbn in Hs. destruct (Hok st0 eq_refl) as [Hw Hok1].
       destruct (handle_event listenfd w st0) as [st1'| |] eqn:Hw0; [|done|done]. injection Hs as ->.
       apply IH; [cbn in Hn; lia| |by apply Hok1|apply Ha]. apply (quiet_exchange [e; w] st st1); [done| |by exists s| |].
       - split; [done|]. rewrite He0. intros st2 [= <-]. by split.
       - cbn. rewrite Hcall. naive_solver.
       - cbn. rewrite He0. cbn. by rewrite Hw0. }
  all: cbn; destruct Hok as [He Hok]; destruct (handle_event listenfd e st) as [st1| |] eqn:Hs; [|done|done]; cbn;
    (apply IH; [lia| |by apply Hok|cbn in Ha; rewrite Hcall in Ha; done]);
    (apply (quiet_other e st st1); [done|done| |done]); cbn in *; by rewrite Hcall in *.
Qed.

End epoll.

(** C22: [04...epoll/server.cpp]: one buffer serves all clients. On messages without
    zeros that do not fill the buffer the server always goes on, and each client
    gets one reply for each message, in turn. But what it gets is the text that
    the messages read from all clients since the last reply left in the buffer,
    the later ones over the earlier ones: its message, if that was the last one,
    exactly if none of the others was longer, and nothing if another client was
    answered in between. *)
Theorem epoll_replies listenfd batches :
  events_ok listenfd (concat batches) (EpollServer.epoll_init listenfd) ->
  exists st, EpollServer.do_epoll listenfd batches (EpollServer.epoll_init listenfd) = returns st /\
    (forall f c, f <> listenfd -> EpollServer.chans st !! f = Some c ->
       exists d, EpollServer.interest st !! f = Some d /\ replies_ok d c) /\
    (forall f n, EpollServer.interest st !! f = Some EpollServer.EPOLLOUT ->
       let messages := snd <$> EpollServer.heard st in
       exists text st', EpollServer.handle_event listenfd (EpollServer.Event f false true (EpollServer.wrote n)) st = returns st' /\
         EpollServer.chans st' = alter (fun c => EpollServer.Chan (EpollServer.received c) (EpollServer.sent c ++ [take n text])) f (EpollServer.chans st) /\
         EpollServer.heard st' = [] /\
         shown (overlay messages) = returns text /\
         (forall j, j < MAXSIZE -> overlay messages !! j = Some (default NUL (head (omap (fun s => s !! j) messages)))) /\
         (messages = [] -> text = []) /\
         (forall s l, messages = s :: l -> (text = s <-> Forall (fun t => length t <= length s) l))).
Proof.
  rewrite do_epoll_concat. intros Hok. destruct (handle_events_inv listenfd _ _ (epoll_init_inv listenfd) Hok) as (st & Hs & Hst).
  exists st. split; [done|]. pose proof (ei_chans _ _ Hst) as Hc. split.
  - intros f c Hf Hfc. specialize (Hc f Hf). rewrite Hfc in Hc. destruct (_ !! f) as [d|]; [|done]. by exists d.
  - intros f n Hd. cbn zeta. pose proof (e_inv_shown _ _ Hst) as Hsh. destruct Hst as [Hb Hshort Hl _].
    assert (Hf : f <> listenfd) by (intros ->; by rewrite Hl in Hd).
    exists (c_str (EpollServer.buf st)). eexists. rewrite <- Hb at 1.
    split.
    { unfold EpollServer.handle_event. cbn. rewrite decide_False by done. unfold EpollServer.do_write. by rewrite Hsh. }
    split_and!; [done..| | |].
    + intros j Hj. apply overlay_lookup; [|done]. eapply Forall_impl; [exact Hshort|]. apply short_clean.
    + intros Hm. by rewrite Hb, Hm.
    + intros s l Hm. rewrite Hm in *. inversion Hshort; subst. apply text_iff; [done..|]. by rewrite <- Hb.
Qed.

(** A client that is answered before anything else happens gets what it sent: if
    each message is followed by its reply, and the reply is sent as a whole, every
    client has been sent exactly what it has sent. *)
Theorem epoll_alone listenfd batches st :
  events_ok listenfd (concat batches) (EpollServer.epoll_init listenfd) -> alone (concat batches) ->
  EpollServer.do_epoll listenfd batches (EpollServer.epoll_init listenfd) = returns st ->
  forall f c, EpollServer.chans st !! f = Some c -> EpollServer.sent c = EpollServer.received c.
Proof.
  rewrite do_epoll_concat. intros Hok Ha Hs. apply (quiet_events listenfd _ (concat batches) (EpollServer.epoll_init listenfd) st (le_n _)) in Hs; [apply Hs| |done|done].
  constructor; [apply epoll_init_inv|done|]. by intros f c [=].
Qed.

(** ** Examples *)

(** Proves that a literal is a short message. *)
Ltac by_short := split; [apply (bool_decide_eq_true_1 _); vm_compute; reflexivity|apply Nat.ltb_lt; vm_compute; reflexivity].

Definition hello_client : SelectServer.s_round := SelectServer.select_ready {[3]} (fun _ => None) (Some 4) (Some (lit "hello")).
Definition hi_client : SelectServer.s_round := SelectServer.select_ready {[4]} (fun _ => Some (lit "hi")) None None.

(** The second message is printed with the end of the first. *)
Lemma select_server5_witness : exists st,
  SelectServer.s_run 3 (SelectServer.s_start 3 []) [hello_client] = returns st /\
  (exists st', SelectServer.s_turn 3 hi_client st = returns st' /\ client_served {[4]} (fun _ => Some (lit "hi")) st st') /\
  (o ← match SelectServer.s_turn 3 hi_client st with returns st' => Some (SelectServer.console st') | _ => None end; last o)
    = Some (SelectServer.recv_from 0 (lit "hillo")).
Proof.
  destruct (SelectServer.s_run 3 (SelectServer.s_start 3 []) [hello_client]) as [st| |] eqn:Hst; [|by vm_compute in Hst..].
  exists st. split; [done|]. split.
  - destruct (select_server5 3 [] st {[4]} (fun _ => Some (lit "hi")) None None) as [_ [(_ & [? [=]] & _)|H]].
    + unfold SelectServer.FD_SETSIZE. lia.
    + apply (reached_round _ _ _ (SelectServer.s_start 3 []) hello_client); [apply reached_start| |].
      * split_and!; [done|intros s [= <-]; by_short|]. intros fd [= <-]. split_and!; [lia|unfold SelectServer.FD_SETSIZE; lia|done|].
        intros j Hj. apply lookup_replicate in Hj as [Hj _]. done.
      * cbn [SelectServer.s_run] in Hst. by destruct (SelectServer.s_turn _ _ _).
    + split_and!; [intros fd s [= <-]; by_short|done..].
    + exact H.
  - vm_compute in Hst. injection Hst as <-. vm_compute. reflexivity.
Defined.

(** Two clients write before either is answered: the first gets what the second
    left of its message, and the second gets nothing. *)
Definition two_clients : list (list EpollServer.event) :=
  [[EpollServer.Event 3 true false (EpollServer.accepted 5)]; [EpollServer.Event 3 true false (EpollServer.accepted 6)];
   [EpollServer.Event 5 true false (EpollServer.got (lit "hello")); EpollServer.Event 6 true false (EpollServer.got (lit "xy"))]].
Definition two_replies : list EpollServer.event :=
  [EpollServer.Event 5 false true (EpollServer.wrote 5); EpollServer.Event 6 false true (EpollServer.wrote 0)].

Lemma mixed_replies :
  match EpollServer.do_epoll 3 (two_clients ++ [two_replies]) (EpollServer.epoll_init 3) with
  | returns st => EpollServer.sent <$> EpollServer.chans st !! 5 = Some [lit "xyllo"] /\
                  EpollServer.sent <$> EpollServer.chans st !! 6 = Some [[]]
  | _ => False
  end.
Proof. vm_compute. split; reflexivity. Qed.

Lemma two_clients_ok : events_ok 3 (concat two_clients) (EpollServer.epoll_init 3).
Proof.
  cbn [two_clients concat app]. split; [split; [exists EpollServer.EPOLLIN; by split_and!|by split]|]. intros st1 [= <-].
  split; [split; [exists EpollServer.EPOLLIN; by split_and!|by split]|]. intros st2 [= <-].
  split; [split; [exists EpollServer.EPOLLIN; by split_and!|split_and!; [done|done|by_short|done]]|]. intros st3 Hst3.
  vm_compute in Hst3. injection Hst3 as <-.
  split; [split; [exists EpollServer.EPOLLIN; by split_and!|split_and!; [done|done|by_short|done]]|]. by intros st4 _.
Qed.

Lemma epoll_replies_witness : exists st,
  EpollServer.do_epoll 3 two_clients (EpollServer.epoll_init 3) = returns st /\
  EpollServer.interest st !! 5 = Some EpollServer.EPOLLOUT /\ shown (overlay (snd <$> EpollServer.heard st)) = returns (lit "xyllo").
Proof.
  destruct (epoll_replies 3 two_clients two_clients_ok) as (st & Hs & _ & Hr). exists st. split; [exact Hs|].
  vm_compute in Hs. injection Hs as <-. split; [reflexivity|].
  destruct (Hr 5 5 eq_refl) as (text & st' & _ & _ & _ & Ht & _). vm_compute in Ht |- *. exact Ht || reflexivity.
Defined.

(** Message after message the same server echoes. *)
Definition one_by_one : list (list EpollServer.event) :=
  [[EpollServer.Event 3 true false (EpollServer.accepted 5)];
   [EpollServer.Event 5 true false (EpollServer.got (lit "hello"))]; [EpollServer.Event 5 false true (EpollServer.wrote 5)]].

Lemma epoll_alone_witness : exists st,
  EpollServer.do_epoll 3 one_by_one (EpollServer.epoll_init 3) = returns st /\
  forall f c, EpollServer.chans st !! f = Some c -> EpollServer.sent c = EpollServer.received c.
Proof.
  destruct (EpollServer.do_epoll 3 one_by_one (EpollServer.epoll_init 3)) as [st| |] eqn:Hs; [|by vm_compute in Hs..].
  exists st. split; [done|]. apply (epoll_alone 3 one_by_one st); [|by split_and!|done]. cbn [one_by_one concat app].
  split; [split; [exists EpollServer.EPOLLIN; by split_and!|by split]|]. intros st1 [= <-].
  split; [split; [exists EpollServer.EPOLLIN; by split_and!|split_and!; [done|done|by_short|done]]|]. intros st2 Hst2.
  vm_compute in Hst2. injection Hst2 as <-.
  split; [split; [exists EpollServer.EPOLLOUT; by split_and!|]|by intros st3 _]. split_and!; [done|done|]. vm_compute. lia.
Defined.

(** A message that fills the buffer is followed by whatever comes after it in memory. *)
Lemma buffer_overrun :
  EpollServer.do_epoll 3 [[EpollServer.Event 3 true false (EpollServer.accepted 5)];
    [EpollServer.Event 5 true false (EpollServer.got (replicate 1024 SP))]] (EpollServer.epoll_init 3) = undefined.
Proof. vm_compute. reflexivity. Qed.

(** The third client ends the server on poll, and the first two were lost. *)
Lemma third_client :
  let client fd := PollServer.poll_ready 1 (fun i => (i =? 0)%nat) (PollServer.accepted fd) (fun _ => None) in
  let start := PollServer.p_start 3 [false; false; false] in
  (match PollServer.p_run start [client 4; client 5] with returns st => Some (PollServer.lost st) | _ => None end) = Some [4; 5] /\
  PollServer.p_run start [client 4; client 5; client 6] = exits 1.
Proof. vm_compute. split; reflexivity. Qed.

Lemma poll_serves_stdin_witness :
  p_reached 3 [false; false; false] (PollServer.p_start 3 [false; false; false]) /\
  Forall (fun c => sys_fd c = 0) (PollServer.calls (PollServer.p_start 3 [false; false; false])).
Proof.
  split; [apply reached_start|]. apply (poll_serves_stdin 3 [false; false; false]); [reflexivity|apply reached_start].
Defined.
