(* ===== verification/NetClients.v ===== *)
(** * NetClients: the C++ clients of [Linux_Net]

    Models [client.cpp] of [Linux_Net/02] (select), with what the server of the same
    folder, in [NetServers], prints of its messages; [client.cpp] of [Linux_Net/03]
    (poll); both programs of [Linux_Net/TCP_Server]; and the loop over the keyboard of
    [Linux_Net/01]. Creating the sockets is left out.

    What the system answers is the data of a round. A process that writes to a
    connection it cannot write to is killed by SIGPIPE, which is the status
    [sigpipe]. *)
From S2P Require Import Prelude.
From S2P Require Import NetServers.

Definition sigpipe : Z := 141.

(** ** The client of [02]: words in messages of 1024 bytes *)

Module WordClient.

(** [scanf("%s", buffer)]: the next word, if there is one, and the rest. *)
Fixpoint word_run (s : str) : str * str :=
  match s with
  | [] => ([], [])
  | c :: s' => if isspace c then ([], s) else let '(w, rest) := word_run s' in (c :: w, rest)
  end.
Definition scanf_s (s : str) : str * str := word_run (skip_ws s).

(** [buffer], cleared, with a text in it: what [send] takes 1024 bytes of. A word of
    1024 bytes or more is written past the end. *)
Definition message (w : str) : outcome str := if (length w <? MAXSIZE)%nat then returns (recv_into w cleared) else undefined.

(** Before the loop: what [recv] gives (nothing after an error), what is printed, the
    first message. *)
Definition greeting (answer : str) : outcome (str * str) :=
  bind_outcome (shown (recv_into answer cleared)) (fun s =>
  bind_outcome (message (lit "this is client " ++ [LF])) (fun m => returns (s, m))).

(** A turn of the loop: the message and what is left of the input; at its end the
    buffer stays cleared. *)
Definition w_turn (stdin : str) : outcome (str * str) :=
  let '(w, rest) := scanf_s stdin in
  bind_outcome (message w) (fun m => returns (m, rest)).

Fixpoint w_run (turns : nat) (stdin : str) : outcome (list str) :=
  match turns with
  | O => returns []
  | S turns' => bind_outcome (w_turn stdin) (fun '(m, rest) => map_outcome (cons m) (w_run turns' rest))
  end.

End WordClient.

(** ** The client of [03]: two descriptors in [poll] *)

Module PollClient.

(** What [read] gives: bytes, none at the end, an error. *)
Inductive got := Bytes (s : str) | Error.

(** [open]: the socket is not closed; [shut]: the sending side is shut down. *)
Record p_client := PClient { open : bool; shut : bool; sent : str; screen : str; closed_messages : nat }.
Definition c_start : p_client := PClient true false [] [] 0.

(** What [poll] reports of the socket and of the keyboard, with what reading gives.
    Of a closed descriptor it does not report [POLLIN]. *)
Record c_round := CRound { from_server : option got; from_stdin : option got }.

(** A length of -1 is refused by [write]. *)
Definition server_part (r : c_round) (st : p_client) : p_client :=
  match from_server r with
  | Some (Bytes []) => PClient false (shut st) (sent st) (screen st) (closed_messages st + 1)
  | Some (Bytes s) => PClient (open st) (shut st) (sent st) (screen st ++ s) (closed_messages st)
  | Some Error | None => st
  end.

Definition stdin_part (r : c_round) (st : p_client) : outcome p_client :=
  match from_stdin r with
  | Some (Bytes []) => returns (PClient (open st) (shut st || open st) (sent st) (screen st) (closed_messages st))
  | Some (Bytes s) =>
      if open st then
        if shut st then exits sigpipe
        else returns (PClient true false (sent st ++ s) (screen st) (closed_messages st))
      else returns st
  | Some Error | None => returns st
  end.

Definition c_turn (r : c_round) (st : p_client) : option (outcome p_client) :=
  if open st || bool_decide (from_server r = None) then Some (stdin_part r (server_part r st)) else None.

End PollClient.

(** ** [TCP_Server]: one message for each connection *)

Module OneMessage.

Definition MAXLINE : nat := 4096.

(** The client: [strlen] of the uninitialised [sendline] where [fgets] gives nothing. *)
Definition tcp_client (stdin : str) : outcome str :=
  match fgets (MAXLINE - 1) stdin with ([], _) => undefined | (l, _) => returns (c_str l) end.

(** A turn of the server: [accept] fails, or [recv] gives bytes or an error; what is
    printed. *)
Inductive connection := accept_error | received (s : str) | recv_error.

Definition tcp_server (c : connection) : outcome (option str) :=
  match c with
  | accept_error => returns None
  | received s => if (length s <? MAXLINE)%nat then returns (Some (c_str s)) else undefined
  | recv_error => undefined
  end.

End OneMessage.

(** ** The keyboard of [01] *)

Module Keyboard.

Inductive key_line := select_failed | time_out | input_is (c : ascii).

(** [select] fails, times out, reports nothing of the keyboard, or [read] gives a
    byte, or none. *)
Inductive key_event := fails | times | elsewhere | key (c : option ascii).

(** [c] is not initialised; the lines printed; whether the loop is left. *)
Record keyboard := Kb { c_ : option ascii; lines : list key_line; left_ : bool }.
Definition k_start : keyboard := Kb None [] false.

Definition k_step (e : key_event) (st : keyboard) : option (outcome keyboard) :=
  if left_ st then None
  else Some match e with
    | fails => returns (Kb (c_ st) (lines st ++ [select_failed]) false)
    | times => returns (Kb (c_ st) (lines st ++ [time_out]) false)
    | elsewhere => returns st
    | key i =>
        match (match i with Some c => Some c | None => c_ st end) with
        | None => undefined
        | Some c =>
            if decide (c = LF) then returns (Kb (Some c) (lines st) false)
            else returns (Kb (Some c) (lines st ++ [input_is c]) (bool_decide (c = "q"%char)))
        end
    end.

End Keyboard.

(** ** The words and what the server prints *)

Section words.
Import WordClient SelectServer.

Lemma word_run_spec s w rest : word_run s = (w, rest) -> s = w ++ rest /\ Forall (fun c => isspace c = false) w /\ (w = [] -> s = [] \/ exists c s', s = c :: s' /\ isspace c = true).
Proof.
  revert w rest. induction s as [|c s IH]; intros w rest; cbn; [intros [= <- <-]; auto|].
  destruct (isspace c) eqn:Hc; [intros [= <- <-]; eauto 10|]. destruct (word_run s) as [w' r'] eqn:Hw. intros [= <- <-].
  destruct (IH w' r' eq_refl) as (-> & Hf & _). split_and!; [done|by constructor|done].
Qed.

Definition letters (s : str) : str := filter (fun c => isspace c = false) s.

Lemma letters_app s t : letters (s ++ t) = letters s ++ letters t.
Proof. apply filter_app. Qed.

Lemma letters_skip_ws s : letters (skip_ws s) = letters s.
Proof. induction s as [|c s IH]; [done|]. cbn [skip_ws]. destruct (isspace c) eqn:Hc; [|done]. rewrite IH. unfold letters. by rewrite filter_cons_False by congruence. Qed.

Lemma skip_ws_head s c s' : skip_ws s = c :: s' -> isspace c = false.
Proof. induction s as [|d s IH]; cbn [skip_ws]; [done|]. destruct (isspace d) eqn:Hd; [done|]. by intros [= <- _]. Qed.

(** A word has no white space, nothing else is skipped, and it is empty only at the
    end of the input. *)
Lemma scanf_s_spec s w rest : scanf_s s = (w, rest) -> letters s = w ++ letters rest /\ (w = [] -> rest = [] /\ letters s = []).
Proof.
  unfold scanf_s. intros Hw. destruct (word_run_spec _ _ _ Hw) as (Hs & Hf & Hn). rewrite <- letters_skip_ws, Hs, letters_app.
  assert (Hl : letters w = w) by (unfold letters; apply filter_all; intros c Hc; rewrite Forall_forall in Hf; by apply Hf). rewrite Hl. split; [done|]. intros ->. cbn in Hs.
  destruct (Hn eq_refl) as [He|(c & s' & He & Hc)]; [by rewrite <- Hs, He|]. by rewrite (skip_ws_head _ _ _ He) in Hc.
Qed.

Lemma c_str_nul w t : c_str (w ++ NUL :: t) = c_str w.
Proof. induction w as [|c w IH]; [done|]. cbn [app c_str]. case_decide; [done|]. by rewrite IH. Qed.

(** Whatever the buffer held before, such a message is printed as its word. *)
Lemma shown_message w m buf : message w = returns m -> length m = MAXSIZE /\ shown (recv_into m buf) = returns (c_str w).
Proof.
  unfold message. destruct (Nat.ltb_spec (length w) MAXSIZE) as [Hw|]; [|done]. intros Hm. apply (inj returns) in Hm as <-.
  assert (Hm : exists k, recv_into w cleared = w ++ NUL :: replicate k NUL /\ length w + S k = MAXSIZE).
  { exists (MAXSIZE - length w - 1). split; [|lia]. unfold recv_into, cleared. rewrite drop_replicate.
    by replace (MAXSIZE - length w) with (S (MAXSIZE - length w - 1)) at 1 by lia. }
  destruct Hm as (k & -> & Hk). split; [rewrite length_app; cbn [length]; by rewrite length_replicate|].
  unfold shown, recv_into. rewrite decide_True by (rewrite !elem_of_app; left; right; by left). by rewrite <- app_assoc, <- app_comm_cons, c_str_nul.
Qed.

(** Each message in a read of its own. *)
Fixpoint serve_messages (i : nat) (ms : list str) (x : gset nat * select_srv) : outcome (gset nat * select_srv) :=
  match ms with [] => returns x | m :: ms' => bind_outcome (s_serve (fun _ => Some m) i x) (serve_messages i ms') end.

Lemma serve_message i fdset st w m : nth i (client_sockfd st) 0 ∈ fdset -> message w = returns m ->
  exists st', s_serve (fun _ => Some m) i (fdset, st) = returns (fdset, st') /\ client_sockfd st' = client_sockfd st /\
    console st' = console st ++ [start_recv i; recv_from i (c_str w)].
Proof.
  intros Hfd Hm. destruct (shown_message w m (buffer st) Hm) as [Hl Hs]. unfold s_serve. rewrite decide_True by done.
  destruct m as [|b m]; [done|]. unfold print_buffer. cbn [receive buffer add_line] in *. rewrite Hs. cbn. eexists. split; [done|]. split; [done|].
  cbn. by rewrite <- app_assoc.
Qed.

(** The client of [02] and its server: the words of the input, in order and without
    their white space, are sent one for each turn and printed by the server
    exactly, whatever its one buffer holds, since each message overwrites all of
    it; at the end of the input the client does not stop but sends empty messages. *)
Theorem words_printed turns stdin ms i fdset st :
  w_run turns stdin = returns ms -> nth i (client_sockfd st) 0 ∈ fdset ->
  exists ws rest st', length ws = turns /\ letters stdin = concat ws ++ letters rest /\
    (forall k, ws !! k = Some [] -> concat (drop k ws) = [] /\ letters rest = []) /\
    serve_messages i ms (fdset, st) = returns (fdset, st') /\
    console st' = console st ++ concat ((fun w => [start_recv i; recv_from i (c_str w)]) <$> ws).
Proof.
  revert stdin ms st. induction turns as [|turns IH]; intros stdin ms st; cbn [w_run].
  - intros [= <-] _. exists [], stdin, st. split_and!; [done..|by rewrite app_nil_r].
  - unfold w_turn. destruct (scanf_s stdin) as [w rest] eqn:Hw. destruct (message w) as [m| |] eqn:Hm; cbn [bind_outcome]; [|done..].
    destruct (w_run turns rest) as [ms'| |] eqn:Hr; cbn; [|done..]. intros [= <-] Hfd.
    destruct (serve_message i fdset st w m Hfd Hm) as (st1 & Hs & Hc & Hk). rewrite <- Hc in Hfd.
    destruct (IH rest ms' st1 Hr Hfd) as (ws & rest' & st' & Hlen & Hl & He & Hs' & Hk').
    destruct (scanf_s_spec _ _ _ Hw) as [Hlw Hnil]. exists (w :: ws), rest', st'. split_and!.
    + cbn. by rewrite Hlen.
    + cbn. by rewrite Hlw, Hl, app_assoc.
    + intros [|k] Hk0; [|by apply He]. injection Hk0 as ->. destruct (Hnil eq_refl) as [-> _]. cbn [drop concat app].
      change (letters []) with (@nil ascii) in Hl. symmetry in Hl. by apply app_nil in Hl.
    + cbn [serve_messages]. rewrite Hs. cbn. exact Hs'.
    + rewrite Hk', Hk. cbn. by rewrite <- app_assoc.
Qed.
End words.

(** ** The client on poll *)

Section poll.
Import PollClient.

Fixpoint c_run (rs : list c_round) (st : p_client) : option (outcome p_client) :=
  match rs with
  | [] => Some (returns st)
  | r :: rs' => o ← c_turn r st; match o with returns st' => c_run rs' st' | _ => Some o end
  end.

(** What was received; what was typed while the socket could be written to. *)
Definition text (g : option got) : str := match g with Some (Bytes s) => s | _ => [] end.
Fixpoint typed (rs : list c_round) (st : p_client) : str :=
  match rs with
  | [] => []
  | r :: rs' =>
      let st1 := server_part r st in
      (if open st1 && negb (shut st1) then text (from_stdin r) else []) ++ match stdin_part r st1 with returns st' => typed rs' st' | _ => [] end
  end.

Lemma c_turn_spec r st st' : c_turn r st = Some (returns st') ->
  stdin_part r (server_part r st) = returns st' /\ screen st' = screen st ++ text (from_server r) /\
  sent st' = sent st ++ (if open (server_part r st) && negb (shut (server_part r st)) then text (from_stdin r) else []).
Proof.
  unfold c_turn. destruct (open st || _); [|done]. intros [= Hs]. split; [done|]. revert Hs.
  assert (H1 : screen (server_part r st) = screen st ++ text (from_server r) /\ sent (server_part r st) = sent st).
  { unfold server_part. destruct (from_server r) as [[[|b s]|]|]; cbn; by rewrite ?app_nil_r. }
  destruct H1 as [<- <-]. generalize (server_part r st) as st1. intros st1. unfold stdin_part.
  destruct (from_stdin r) as [[[|b s]|]|]; [| |intros [= <-]; by destruct (_ && _); rewrite app_nil_r..].
  - intros [= <-]. cbn. by destruct (_ && _); rewrite app_nil_r.
  - destruct (open st1) eqn:Ho; [destruct (shut st1) eqn:Hsh; [done|]|]; intros [= <-]; cbn; [done|by rewrite app_nil_r].
Qed.

(** The client of [03] prints what it receives and sends what is typed, in order, until
    the connection or the input ends; it never ends itself: after the end of the
    input each turn finds it again and changes nothing, and so does each turn after
    the server has closed the connection; typing more after the end of the input
    kills it. *)
Theorem poll_client_copies rs st :
  c_run rs c_start = Some (returns st) ->
  screen st = concat ((fun r => text (from_server r)) <$> rs) /\ sent st = typed rs c_start /\
  (shut st = true -> c_turn (CRound None (Some (Bytes []))) st = Some (returns st)) /\
  c_turn (CRound None None) st = Some (returns st) /\
  (shut st = true -> open st = true -> forall b s, c_turn (CRound None (Some (Bytes (b :: s)))) st = Some (exits sigpipe)).
Proof.
  assert (H : forall rs st0 st, c_run rs st0 = Some (returns st) ->
    screen st = screen st0 ++ concat ((fun r => text (from_server r)) <$> rs) /\ sent st = sent st0 ++ typed rs st0).
  { clear. intros rs. induction rs as [|r rs IH]; intros st0 st; cbn [c_run typed]; [intros [= <-]; by rewrite !app_nil_r|].
    destruct (c_turn r st0) as [[st1| |]|] eqn:Hr; [|done..]. cbn [mbind option_bind]. intros Hst.
    destruct (c_turn_spec _ _ _ Hr) as (Hs & H1 & H2). destruct (IH st1 st Hst) as [-> ->]. rewrite Hs, H1, H2. cbn. by rewrite <- !app_assoc. }
  intros Hr. destruct (H rs c_start st Hr) as [H1 H2]. split_and!; [done..| | |].
  - intros Hsh. unfold c_turn. rewrite bool_decide_true, orb_true_r by done. cbn. rewrite Hsh. cbn. by destruct st; cbn in *; subst.
  - unfold c_turn. by rewrite bool_decide_true, orb_true_r.
  - intros Hsh Ho b s. unfold c_turn. rewrite bool_decide_true, orb_true_r by done. cbn. by rewrite Ho, Hsh.
Qed.
End poll.

(** ** One message *)

(** The server of [TCP_Server] is defined exactly where less than its array is
    received; from its own client, if the message comes in one piece, it prints the
    line. *)
Theorem one_message :
  (forall c, OneMessage.tcp_server c <> undefined <-> match c with OneMessage.accept_error => True | OneMessage.received s => length s < 4096 | OneMessage.recv_error => False end) /\
  (forall stdin l, OneMessage.tcp_client stdin = returns l -> OneMessage.tcp_server (OneMessage.received l) = returns (Some l)) /\
  (forall stdin, OneMessage.tcp_client stdin = undefined <-> stdin = []).
Proof.
  split_and!.
  - intros [|s|]; unfold OneMessage.tcp_server; [done| |split; [intros H; by apply H|done]]. change 4096 with OneMessage.MAXLINE.
    destruct (Nat.ltb_spec (length s) OneMessage.MAXLINE) as [Hl|Hl]; [done|].
    split; [intros H; by destruct H|]. intros H'. exfalso. revert Hl H'. generalize OneMessage.MAXLINE. lia.
  - intros stdin l. unfold OneMessage.tcp_client. destruct (fgets _ _) as [[|b s] rest] eqn:Hf; [done|]. intros Hx. change (returns (c_str (b :: s)) = returns l) in Hx. apply (inj returns) in Hx as <-.
    destruct (fgets_spec _ _ _ _ Hf) as (_ & Hl & _). pose proof (length_c_str (b :: s)) as Hc. unfold OneMessage.tcp_server.
    destruct (Nat.ltb_spec (length (c_str (b :: s))) OneMessage.MAXLINE) as [|Hge].
    + by rewrite (c_str_id (c_str (b :: s))) by apply c_str_no_nul.
    + exfalso. revert Hge Hl Hc. change OneMessage.MAXLINE with (Datatypes.S (OneMessage.MAXLINE - 1)). lia.
  - intros stdin. unfold OneMessage.tcp_client. destruct (fgets _ _) as [[|b s] rest] eqn:Hf; split; try done.
    + intros _. destruct (fgets_spec _ _ _ _ Hf) as (_ & _ & Hn). by destruct (Hn eq_refl).
    + intros ->. done.
Qed.

(** ** The keyboard *)

Section keyboard.
Import Keyboard.

Fixpoint k_run (es : list key_event) (st : keyboard) : option (outcome keyboard) :=
  match es with
  | [] => Some (returns st)
  | e :: es' => o ← k_step e st; match o with returns st' => k_run es' st' | _ => Some o end
  end.

(** Where every read gives a byte, the bytes but the line feeds are printed, and the
    loop is left at the first ["q"]: nothing is read after it. *)
Lemma keys_printed cs st :
  k_run (key <$> (Some <$> cs)) k_start = Some (returns st) ->
  lines st = input_is <$> filter (fun c => c <> LF) cs /\
  (left_ st = true <-> last cs = Some "q"%char) /\ "q"%char ∉ removelast cs.
Proof.
  intros Hr. enough (H : forall st0, left_ st0 = false -> k_run (key <$> (Some <$> cs)) st0 = Some (returns st) ->
    lines st = lines st0 ++ (input_is <$> filter (fun c => c <> LF) cs) /\ (left_ st = true <-> last cs = Some "q"%char) /\ "q"%char ∉ removelast cs) by by apply (H k_start).
  clear Hr. induction cs as [|c cs IH]; intros st0 Hl; cbn [fmap list_fmap k_run].
  - intros [= <-]. rewrite app_nil_r. split_and!; [done| |apply not_elem_of_nil]. split; [congruence|done].
  - unfold k_step. rewrite Hl. cbn [mbind option_bind]. destruct (decide (c = LF)) as [->|Hne].
    + intros Hr. destruct (IH (Kb (Some LF) (lines st0) false) eq_refl Hr) as (H1 & H2 & H3). rewrite H1, filter_cons_False by naive_solver.
      split_and!; [done| |]; destruct cs as [|d cs]; [|done| |]; [|cbn; apply not_elem_of_nil|].
      * cbn in Hr. injection Hr as <-. done.
      * cbn [removelast]. apply not_elem_of_cons. done.
    + rewrite filter_cons_True by done. case_bool_decide as Hq.
      * subst c. destruct cs as [|d cs]; [|done]. cbn. intros [= <-]. split_and!; [done|done|apply not_elem_of_nil].
      * intros Hr. destruct (IH (Kb (Some c) (lines st0 ++ [input_is c]) false) eq_refl Hr) as (H1 & H2 & H3). rewrite H1. cbn. rewrite <- app_assoc.
        split_and!; [done| |]; destruct cs as [|d cs]; [|done| |]; [|cbn; apply not_elem_of_nil|].
        -- cbn in Hr. injection Hr as <-. cbn. split; [done|]. intros [= ?]. done.
        -- cbn [removelast]. apply not_elem_of_cons. done.
Qed.
End keyboard.

(** ** Examples *)

(** The client shows the greeting of the server of its folder. *)
Example shows_welcome : exists m, WordClient.greeting (recv_into SelectServer.welcome cleared) = returns (SelectServer.welcome, m).
Proof. eexists. vm_compute. reflexivity. Qed.

Example two_words : exists m1 m2,
  WordClient.w_run 3 (lit "  ab" ++ [LF] ++ lit "c" ++ [LF]) = returns [m1; m2; cleared] /\ c_str m1 = lit "ab" /\ c_str m2 = lit "c".
Proof. do 2 eexists. split; [vm_compute; reflexivity|]. split; vm_compute; reflexivity. Qed.

Example long_word : WordClient.w_turn (replicate 1024 "x"%char) = undefined.
Proof. vm_compute. reflexivity. Qed.

(** Where two messages come in one piece the server reads the second in the next
    turn; where a message comes in two, its buffer keeps what is behind the first. *)
Example message_in_parts : exists m,
  WordClient.message (lit "abc") = returns m /\ shown (recv_into (take 2 m) (recv_into (lit "xyz") cleared)) = returns (lit "abz").
Proof. eexists. split; vm_compute; reflexivity. Qed.

(** After a hang-up [read] gives nothing, and the last character is shown again. *)
Example stale_key : exists st, k_run [Keyboard.key (Some "a"%char); Keyboard.key None; Keyboard.key None] Keyboard.k_start = Some (returns st) /\
  Keyboard.lines st = [Keyboard.input_is "a"; Keyboard.input_is "a"; Keyboard.input_is "a"].
Proof. eexists. split; vm_compute; reflexivity. Qed.

Example first_read_fails : k_run [Keyboard.key None] Keyboard.k_start = Some undefined.
Proof. vm_compute. reflexivity. Qed.
