(* ===== verification/EpollClient.v ===== *)
(** * EpollClient: the client of the C++ server on epoll

    Models [Linux_Net/04...epoll/client.cpp], which sends the lines that are typed,
    each with a number, and prints the answers with another number. One buffer
    serves the keyboard, the connection and the screen. The terminal can be
    watched with epoll; creating the connection is left out.

    The last section puts the client together with the server of [NetServers]. *)
From S2P Require Import Prelude.
From S2P Require Import NetServers.
Import EpollServer (direction, EPOLLIN, EPOLLOUT, modify_event, delete_event).
#[local] Existing Instance EpollServer.direction_eq_dec.

Definition STDIN_FILENO : nat := 0.
Definition STDOUT_FILENO : nat := 1.

(** What is registered, the descriptors closed, the buffer, the global [count];
    what was written to the connection and to the screen. *)
Record client := Client {
  registered : gmap nat direction; closed : gset nat; buf : str; count : Z; to_server : list str; screen : list str }.

Definition start : client := Client {[STDIN_FILENO := EPOLLIN]} ∅ cleared 0 [] [].

(** [EPOLL_CTL_ADD] fails for a descriptor that is registered or closed. *)
Definition ctl_add (closed : gset nat) (fd : nat) (d : direction) (m : gmap nat direction) : gmap nat direction :=
  if decide (fd ∈ closed) then m else match m !! fd with None => <[fd := d]> m | Some _ => m end.

(** What [read] gives: bytes, or the end or an error, which are treated alike; and
    [write]: success or an error. The terminal and the connection take a short
    line as a whole. *)
Inductive result := got (s : str) | nothing | written | write_failed.

Definition do_read (sockfd fd : nat) (r : result) (c : client) : outcome client :=
  match r with
  | got s =>
      let b := recv_into s (buf c) in
      if decide (fd = STDIN_FILENO) then returns (Client (ctl_add (closed c) sockfd EPOLLOUT (registered c)) (closed c) b (count c) (to_server c) (screen c))
      else returns (Client (ctl_add (closed c) STDOUT_FILENO EPOLLOUT (delete_event sockfd (registered c))) (closed c) b (count c) (to_server c) (screen c))
  | _ => returns (Client (delete_event fd (registered c)) ({[fd]} ∪ closed c) (buf c) (count c) (to_server c) (screen c))
  end.

(** [snprintf] into 100 bytes. *)
Definition stamp (n : Z) (s : str) : str := take 99 (s ++ "_"%char :: two_digits n ++ [LF]).

(** [buf[strlen(buf)-1] = '\0'] is out of bounds for an empty text. *)
Definition cut_last (b : str) : outcome str :=
  bind_outcome (shown b) (fun s => match s with [] => undefined | _ => returns (<[length s - 1 := NUL]> b) end).

Definition do_write (fd : nat) (r : result) (c : client) : outcome client :=
  bind_outcome (cut_last (buf c)) (fun b =>
    let temp := stamp (count c) (c_str b) in
    let n := (count c + 1)%Z in
    if decide (n < 2 ^ 31)%Z then
    match r with
    | written =>
        if decide (fd = STDOUT_FILENO) then returns (Client (delete_event fd (registered c)) (closed c) cleared n (to_server c) (screen c ++ [temp]))
        else returns (Client (modify_event fd EPOLLIN (registered c)) (closed c) cleared n (to_server c ++ [temp]) (screen c))
    | _ => returns (Client (delete fd (registered c)) ({[fd]} ∪ closed c) cleared n (to_server c) (screen c))
    end
    else undefined).

(** [events[i]], with the bits the code looks at. *)
Record event := Event { fd : nat; can_read : bool; can_write : bool; call : result }.

Definition handle_event (sockfd : nat) (e : event) (c : client) : outcome client :=
  if can_read e then do_read sockfd (fd e) (call e) c
  else if can_write e then do_write (fd e) (call e) c
  else returns c.

Fixpoint handle_events (sockfd : nat) (es : list event) (c : client) : outcome client :=
  match es with
  | [] => returns c
  | e :: es' => bind_outcome (handle_event sockfd e c) (handle_events sockfd es')
  end.

Fixpoint handle_connection (sockfd : nat) (batches : list (list event)) (c : client) : outcome client :=
  match batches with
  | [] => returns c
  | es :: batches' => bind_outcome (handle_events sockfd es c) (handle_connection sockfd batches')
  end.

(** ** Client and server together *)

(** The lines still to be typed; whether a line was typed whose answer is not printed
    yet; the two programs; the messages on their way. The server has the connection as
    [f] and listens on [listenfd]; no other client sends meanwhile. *)
Record system := System {
  to_type : list str; waits : bool; cl : client; sv : EpollServer.epoll_srv; up : list str; down : list str }.

(** What [epoll_wait] may report, to either program: a descriptor that is registered
    and ready. Who types waits for the answer to the last line. *)
Inductive sys_event := types | sends | serves | answers | reads | prints.

Definition sent_to (f : nat) (s : EpollServer.epoll_srv) : list str := default [] (EpollServer.sent <$> EpollServer.chans s !! f).

Definition watched (c : client) (h : nat) (d : direction) : bool := bool_decide (registered c !! h = Some d).

Definition sys_step (listenfd f sockfd : nat) (e : sys_event) (x : system) : option (outcome system) :=
  match e with
  | types =>
      match to_type x with
      | line :: rest =>
          if negb (waits x) && watched (cl x) STDIN_FILENO EPOLLIN then
            Some (map_outcome (fun c => System rest true c (sv x) (up x) (down x))
                    (handle_event sockfd (Event STDIN_FILENO true false (got line)) (cl x)))
          else None
      | [] => None
      end
  | sends =>
      if watched (cl x) sockfd EPOLLOUT then
        Some (map_outcome (fun c => System (to_type x) (waits x) c (sv x) (up x ++ drop (length (to_server (cl x))) (to_server c)) (down x))
                (handle_event sockfd (Event sockfd false true written) (cl x)))
      else None
  | serves =>
      match up x with
      | m :: rest =>
          if decide (EpollServer.interest (sv x) !! f = Some EPOLLIN) then
            Some (map_outcome (fun s => System (to_type x) (waits x) (cl x) s rest (down x))
                    (EpollServer.handle_event listenfd (EpollServer.Event f true false (EpollServer.got m)) (sv x)))
          else None
      | [] => None
      end
  | answers =>
      if decide (EpollServer.interest (sv x) !! f = Some EPOLLOUT) then
        Some (map_outcome (fun s => System (to_type x) (waits x) (cl x) s (up x) (down x ++ drop (length (sent_to f (sv x))) (sent_to f s)))
                (EpollServer.handle_event listenfd (EpollServer.Event f false true (EpollServer.wrote MAXSIZE)) (sv x)))
      else None
  | reads =>
      match down x with
      | m :: rest =>
          if watched (cl x) sockfd EPOLLIN then
            Some (map_outcome (fun c => System (to_type x) (waits x) c (sv x) (up x) rest)
                    (handle_event sockfd (Event sockfd true false (got m)) (cl x)))
          else None
      | [] => None
      end
  | prints =>
      if watched (cl x) STDOUT_FILENO EPOLLOUT then
        Some (map_outcome (fun c => System (to_type x) false c (sv x) (up x) (down x))
                (handle_event sockfd (Event STDOUT_FILENO false true written) (cl x)))
      else None
  end.

(** What is sent for a line, its line feed cut off, and what is printed for the
    answer. *)
Definition sent_line (n : Z) (line : str) : str := stamp n (removelast line).
Definition printed_line (n : Z) (line : str) : str := stamp (n + 1) (removelast (sent_line n line)).

Definition numbered (f : Z -> str -> str) (n : Z) (lines : list str) : list str :=
  imap (fun i line => f (n + 2 * Z.of_nat i)%Z line) lines.

Definition typed (line : str) : Prop := line <> [] /\ short line.

#[local] Arguments cleared : simpl never.
#[local] Arguments recv_into : simpl never.

(** ** Texts *)

Lemma stamp_nul n s : (0 <= n)%Z -> NUL ∉ s -> NUL ∉ stamp n s.
Proof.
  intros Hn Hs. unfold stamp. intros (i & Hi & _)%elem_of_take. apply list_elem_of_lookup_2 in Hi.
  apply elem_of_app in Hi as [Hi|Hi]; [done|]. apply elem_of_cons in Hi as [Hi|Hi]; [done|].
  apply elem_of_app in Hi as [Hi|Hi]; [by apply (two_digits_nul n)|]. by apply list_elem_of_singleton in Hi.
Qed.

(** What is sent or printed is itself a line that can be typed. *)
Lemma stamp_typed n s : (0 <= n)%Z -> NUL ∉ s -> typed (stamp n s).
Proof.
  intros Hn Hs. split; [|split; [by apply stamp_nul|]]; unfold stamp.
  - by destruct s.
  - rewrite length_take. unfold MAXSIZE. lia.
Qed.

(** The last byte of a text in a cleared buffer is cut off. *)
Lemma cut_last_line s : typed s -> exists b, cut_last (recv_into s cleared) = returns b /\ c_str b = removelast s.
Proof.
  intros [Hne Hs]. assert (Hsh : shown (recv_into s cleared) = returns s).
  { change (recv_into s cleared) with (overlay [s]). apply shown_iff; [by apply short_clean|done|]. split; [apply Hs|done]. }
  unfold cut_last. rewrite Hsh. cbn [bind_outcome].
  pose proof (app_removelast_last NUL Hne) as Hl. pose proof (removelast_nul s (proj1 Hs)) as Hn.
  assert (Hlen : length s = length (removelast s) + 1) by (rewrite Hl at 1; by rewrite length_app).
  exists (removelast s ++ NUL :: drop (length s) cleared). split.
  - destruct s as [|c s]; [done|]. f_equal. unfold recv_into. rewrite Hl at 2. rewrite <- app_assoc. cbn [app].
    replace (length (c :: s) - 1) with (length (removelast (c :: s)) + 0) by lia. by rewrite insert_app_r.
  - rewrite c_str_app by done. cbn. apply app_nil_r.
Qed.

(** ** One line *)

Section lines.
Context (listenfd f sockfd : nat) (Hsock : STDOUT_FILENO < sockfd) (Hf : f <> listenfd).

(** Nothing is under way; only the keyboard is watched. *)
Definition idle (n : Z) (c : client) : Prop :=
  registered c = {[STDIN_FILENO := EPOLLIN]} /\ closed c = ∅ /\ buf c = cleared /\ count c = n.

Lemma do_write_line fd s n reg cl l scr :
  typed s -> (n + 1 < 2 ^ 31)%Z ->
  do_write fd written (Client reg cl (recv_into s cleared) n l scr) =
    returns (if decide (fd = STDOUT_FILENO) then Client (delete_event fd reg) cl cleared (n + 1) l (scr ++ [stamp n (removelast s)])
             else Client (modify_event fd EPOLLIN reg) cl cleared (n + 1) (l ++ [stamp n (removelast s)]) scr).
Proof.
  intros Hs Hn. destruct (cut_last_line s Hs) as (b & Hb & Hc). unfold do_write. cbn [buf count closed registered to_server screen].
  rewrite Hb. cbn [bind_outcome]. rewrite Hc, decide_True by done. by case_decide.
Qed.

(** The server between two exchanges with this client. *)
Definition at_rest (k : EpollServer.chan) (sv : EpollServer.epoll_srv) : Prop :=
  EpollServer.interest sv !! f = Some EPOLLIN /\ EpollServer.buf sv = cleared /\ EpollServer.chans sv !! f = Some k.

Definition heard_and_sent (l : list str) (k : EpollServer.chan) : EpollServer.chan :=
  EpollServer.Chan (EpollServer.received k ++ l) (EpollServer.sent k ++ l).

Lemma sent_line_typed n line : (0 <= n)%Z -> typed line -> typed (sent_line n line).
Proof. intros Hn Hl. apply stamp_typed; [done|]. apply removelast_nul, Hl. Qed.

Lemma numbered_snoc g n lines line : numbered g n (lines ++ [line]) = numbered g n lines ++ [g (n + 2 * Z.of_nat (length lines))%Z line].
Proof. unfold numbered. rewrite imap_app. cbn. by rewrite Nat.add_0_r. Qed.

Lemma numbered_prefix g n lines lines' : lines `prefix_of` lines' -> numbered g n lines `prefix_of` numbered g n lines'.
Proof. intros [l ->]. unfold numbered. rewrite imap_app. by eexists. Qed.

(** A line of up to about ninety characters comes back with two numbers. *)
Lemma printed_short n s :
  length s + length (two_digits n) + length (two_digits (n + 1)) <= 96 ->
  printed_line n (s ++ [LF]) = s ++ "_"%char :: two_digits n ++ "_"%char :: two_digits (n + 1) ++ [LF].
Proof.
  intros Hlen. unfold printed_line, sent_line. rewrite removelast_last.
  assert (Hs : stamp n s = (s ++ "_"%char :: two_digits n) ++ [LF]).
  { unfold stamp. rewrite take_ge by (rewrite length_app; cbn; rewrite length_app; cbn; lia). by rewrite <- app_assoc. }
  rewrite Hs, removelast_last. unfold stamp. rewrite <- app_assoc. cbn [app]. apply take_ge.
  rewrite length_app. cbn. rewrite length_app. cbn. rewrite length_app. cbn. lia.
Qed.

(** *** The steps of one line *)

Definition keyboard : gmap nat direction := {[STDIN_FILENO := EPOLLIN]}.

Lemma keyboard_lookup : keyboard !! STDIN_FILENO = Some EPOLLIN /\ keyboard !! sockfd = None /\ keyboard !! STDOUT_FILENO = None.
Proof. unfold keyboard, STDIN_FILENO, STDOUT_FILENO in *. by rewrite lookup_singleton_eq, !lookup_singleton_ne by lia. Qed.

Lemma connected_lookup d : let r := <[sockfd := d]> keyboard in
  r !! STDIN_FILENO = Some EPOLLIN /\ r !! sockfd = Some d /\ r !! STDOUT_FILENO = None.
Proof.
  destruct keyboard_lookup as (H1 & H2 & H3). cbv zeta. unfold STDIN_FILENO, STDOUT_FILENO in *.
  split_and!; first [by rewrite lookup_insert_eq|by rewrite lookup_insert_ne by lia].
Qed.

Lemma printing_lookup : let r := <[STDOUT_FILENO := EPOLLOUT]> keyboard in
  r !! STDIN_FILENO = Some EPOLLIN /\ r !! sockfd = None /\ r !! STDOUT_FILENO = Some EPOLLOUT.
Proof.
  destruct keyboard_lookup as (H1 & H2 & H3). cbv zeta. unfold STDIN_FILENO, STDOUT_FILENO in *.
  split_and!; first [by rewrite lookup_insert_eq|by rewrite lookup_insert_ne by lia].
Qed.

(** The two calls of the client for a line, *)
Lemma reads_keyboard n line ts scr :
  handle_event sockfd (Event STDIN_FILENO true false (got line)) (Client keyboard ∅ cleared n ts scr) =
    returns (Client (<[sockfd := EPOLLOUT]> keyboard) ∅ (recv_into line cleared) n ts scr).
Proof.
  unfold handle_event, do_read, ctl_add. cbn [can_read can_write fd call registered closed buf count to_server screen]. rewrite decide_True, decide_False by done.
  destruct keyboard_lookup as (_ & H & _). by rewrite H.
Qed.

Lemma writes_line n line ts scr :
  typed line -> (n + 1 < 2 ^ 31)%Z ->
  handle_event sockfd (Event sockfd false true written) (Client (<[sockfd := EPOLLOUT]> keyboard) ∅ (recv_into line cleared) n ts scr) =
    returns (Client (<[sockfd := EPOLLIN]> keyboard) ∅ cleared (n + 1) (ts ++ [stamp n (removelast line)]) scr).
Proof.
  intros Hl Hn. unfold handle_event. cbn [can_read can_write fd call]. rewrite do_write_line, decide_False by (done || lia).
  do 2 f_equal. unfold modify_event. apply map_eq. intros i. destruct (decide (i = sockfd)) as [->|].
  - by rewrite lookup_alter_eq, !lookup_insert_eq.
  - by rewrite lookup_alter_ne, !lookup_insert_ne.
Qed.

(** and for its answer. *)
Lemma reads_answer n r ts scr :
  handle_event sockfd (Event sockfd true false (got r)) (Client (<[sockfd := EPOLLIN]> keyboard) ∅ cleared n ts scr) =
    returns (Client (<[STDOUT_FILENO := EPOLLOUT]> keyboard) ∅ (recv_into r cleared) n ts scr).
Proof.
  destruct keyboard_lookup as (_ & H1 & H2). unfold handle_event, do_read, ctl_add, delete_event.
  cbn [can_read can_write fd call registered closed buf count to_server screen].
  rewrite decide_False by (unfold STDIN_FILENO; lia). rewrite decide_False by done. rewrite delete_insert_id by done. by rewrite H2.
Qed.

Lemma writes_screen n r ts scr :
  typed r -> (n + 1 < 2 ^ 31)%Z ->
  handle_event sockfd (Event STDOUT_FILENO false true written) (Client (<[STDOUT_FILENO := EPOLLOUT]> keyboard) ∅ (recv_into r cleared) n ts scr) =
    returns (Client keyboard ∅ cleared (n + 1) ts (scr ++ [stamp n (removelast r)])).
Proof.
  intros Hr Hn. destruct keyboard_lookup as (_ & _ & H). unfold handle_event. cbn [can_read can_write fd call].
  rewrite do_write_line, decide_True by done. unfold delete_event. by rewrite delete_insert_id.
Qed.

(** The two calls of the server. *)
Lemma message_shown m : short m -> shown (recv_into m cleared) = returns m.
Proof.
  intros Hs. change (recv_into m cleared) with (overlay [m]). apply shown_iff; [by apply short_clean|done|]. split; [apply Hs|done].
Qed.

Lemma serves_message m s :
  EpollServer.buf s = cleared -> short m ->
  EpollServer.handle_event listenfd (EpollServer.Event f true false (EpollServer.got m)) s =
    returns (EpollServer.EpollSrv (modify_event f EPOLLOUT (EpollServer.interest s)) (recv_into m cleared)
      (alter (fun c => EpollServer.Chan (EpollServer.received c ++ [m]) (EpollServer.sent c)) f (EpollServer.chans s)) ((f, m) :: EpollServer.heard s)).
Proof.
  intros Hb Hm. unfold EpollServer.handle_event. cbn. rewrite decide_False by done. by rewrite Hb, message_shown.
Qed.

Lemma answers_message m s :
  EpollServer.buf s = recv_into m cleared -> short m ->
  EpollServer.handle_event listenfd (EpollServer.Event f false true (EpollServer.wrote MAXSIZE)) s =
    returns (EpollServer.EpollSrv (modify_event f EPOLLIN (EpollServer.interest s)) cleared
      (alter (fun c => EpollServer.Chan (EpollServer.received c) (EpollServer.sent c ++ [m])) f (EpollServer.chans s)) []).
Proof.
  intros Hb Hm. unfold EpollServer.handle_event. cbn [EpollServer.fd EpollServer.can_read EpollServer.can_write EpollServer.call].
  rewrite decide_False by done. unfold EpollServer.do_write. rewrite Hb, message_shown by done. cbn [bind_outcome].
  rewrite take_ge by (destruct Hm; unfold MAXSIZE in *; lia). done.
Qed.

(** *** The schedule *)

Section session.
Context (n : Z) (k : EpollServer.chan) (ts scr : list str) (others : gmap nat EpollServer.chan) (lines : list str).

Definition number (done : list str) : Z := (n + 2 * Z.of_nat (length done))%Z.
Definition sent_of (done : list str) : list str := ts ++ numbered sent_line n done.
Definition shown_of (done : list str) : list str := scr ++ numbered printed_line n done.
Definition chan_of (done : list str) : EpollServer.chan := heard_and_sent (numbered sent_line n done) k.
Definition untouched (s : EpollServer.epoll_srv) : Prop := forall g, g <> f -> EpollServer.chans s !! g = others !! g.

(** The six states between two lines: idle, typed, sent, received by the server,
    answered, received by the client. *)
Inductive point (done rest : list str) : nat -> system -> Prop :=
  | p_idle s : at_rest (chan_of done) s -> untouched s ->
      point done rest 0 (System rest false (Client keyboard ∅ cleared (number done) (sent_of done) (shown_of done)) s [] [])
  | p_typed line rest' s : rest = line :: rest' -> at_rest (chan_of done) s -> untouched s ->
      point done rest 1 (System rest' true
        (Client (<[sockfd := EPOLLOUT]> keyboard) ∅ (recv_into line cleared) (number done) (sent_of done) (shown_of done)) s [] [])
  | p_sent line rest' s : rest = line :: rest' -> at_rest (chan_of done) s -> untouched s ->
      point done rest 2 (System rest' true
        (Client (<[sockfd := EPOLLIN]> keyboard) ∅ cleared (number done + 1) (sent_of (done ++ [line])) (shown_of done)) s [sent_line (number done) line] [])
  | p_served line rest' s : rest = line :: rest' -> untouched s -> EpollServer.interest s !! f = Some EPOLLOUT ->
      EpollServer.buf s = recv_into (sent_line (number done) line) cleared ->
      EpollServer.chans s !! f = Some (EpollServer.Chan (EpollServer.received (chan_of (done ++ [line]))) (EpollServer.sent (chan_of done))) ->
      point done rest 3 (System rest' true
        (Client (<[sockfd := EPOLLIN]> keyboard) ∅ cleared (number done + 1) (sent_of (done ++ [line])) (shown_of done)) s [] [])
  | p_answered line rest' s : rest = line :: rest' -> at_rest (chan_of (done ++ [line])) s -> untouched s ->
      point done rest 4 (System rest' true
        (Client (<[sockfd := EPOLLIN]> keyboard) ∅ cleared (number done + 1) (sent_of (done ++ [line])) (shown_of done)) s [] [sent_line (number done) line])
  | p_read line rest' s : rest = line :: rest' -> at_rest (chan_of (done ++ [line])) s -> untouched s ->
      point done rest 5 (System rest' true
        (Client (<[STDOUT_FILENO := EPOLLOUT]> keyboard) ∅ (recv_into (sent_line (number done) line) cleared) (number done + 1) (sent_of (done ++ [line])) (shown_of done))
        s [] []).

Context (Hn0 : (0 <= n)%Z) (Htyped : Forall typed lines) (Hbound : (n + 2 * Z.of_nat (length lines) < 2 ^ 31)%Z).

Lemma lines_at done line rest : lines = done ++ line :: rest ->
  typed line /\ typed (sent_line (number done) line) /\ (number done + 2 < 2 ^ 31)%Z /\
  number (done ++ [line]) = (number done + 2)%Z.
Proof.
  intros Hl. rewrite Hl in Htyped, Hbound. rewrite length_app in Hbound. cbn in Hbound.
  apply Forall_app in Htyped as [_ Ht]. apply Forall_cons in Ht as [Ht _]. unfold number. rewrite length_app. cbn.
  split_and!; [done| |lia|lia]. apply sent_line_typed; [lia|done].
Qed.

(** What is sent and printed with one line more. *)
Lemma sent_of_snoc done line : sent_of (done ++ [line]) = sent_of done ++ [sent_line (number done) line].
Proof. unfold sent_of. by rewrite numbered_snoc, app_assoc. Qed.
Lemma shown_of_snoc done line : shown_of (done ++ [line]) = shown_of done ++ [printed_line (number done) line].
Proof. unfold shown_of. by rewrite numbered_snoc, app_assoc. Qed.
Lemma chan_of_snoc done line : chan_of (done ++ [line]) = heard_and_sent [sent_line (number done) line] (chan_of done).
Proof. unfold chan_of, heard_and_sent. cbn. by rewrite numbered_snoc, !app_assoc. Qed.

(** Where a step may lead: the next of the six states, the last one to the next line. *)
Definition next (done rest : list str) (i : nat) (x : system) : Prop :=
  if decide (i = 5) then exists line rest', rest = line :: rest' /\ point (done ++ [line]) rest' 0 x else point done rest (S i) x.

(** Decides which descriptors are watched; what cannot happen is done. *)
Ltac on_event :=
  cbn [sys_step to_type waits cl sv up down negb andb]; unfold watched; cbn [registered];
  try (rewrite bool_decide_eq_false_2 by congruence; done); try (rewrite decide_False by congruence; done); try done;
  try rewrite bool_decide_eq_true_2 by done; try rewrite decide_True by done.

Lemma interest_read s : EpollServer.interest s !! f = Some EPOLLIN -> modify_event f EPOLLOUT (EpollServer.interest s) !! f = Some EPOLLOUT.
Proof. unfold modify_event. rewrite lookup_alter_eq. by intros ->. Qed.
Lemma interest_write s d : EpollServer.interest s !! f = Some d -> modify_event f EPOLLIN (EpollServer.interest s) !! f = Some EPOLLIN.
Proof. unfold modify_event. rewrite lookup_alter_eq. by intros ->. Qed.

(** In each state one event can happen. *)
Lemma sys_step_next done rest i x e o :
  lines = done ++ rest -> point done rest i x -> sys_step listenfd f sockfd e x = Some o -> exists x', o = returns x' /\ next done rest i x'.
Proof.
  intros Hl Hp. destruct keyboard_lookup as (K1 & K2 & K3). pose proof connected_lookup as HC. destruct printing_lookup as (P1 & P2 & P3).
  unfold next. destruct Hp as [s (Hi & Hb & Hk) Ho|line rest' s -> (Hi & Hb & Hk) Ho|line rest' s -> (Hi & Hb & Hk) Ho
    |line rest' s -> Ho Hi Hb Hk|line rest' s -> (Hi & Hb & Hk) Ho|line rest' s -> (Hi & Hb & Hk) Ho];
    try (destruct (lines_at done line rest' Hl) as (Ht & Hm & Hn & Hnum)); try destruct (HC EPOLLIN) as (I1 & I2 & I3);
    destruct (HC EPOLLOUT) as (O1 & O2 & O3); destruct e; on_event; try by destruct rest'.
  - destruct rest as [|line rest]; [done|]. on_event. rewrite reads_keyboard. cbn. intros [= <-]. eexists. split; [done|]. by eapply p_typed.
  - rewrite writes_line by (done || lia). cbn [map_outcome bind_outcome to_server]. intros [= <-]. eexists. split; [done|].
    rewrite drop_app_length. change (stamp (number done) (removelast line)) with (sent_line (number done) line). rewrite <- sent_of_snoc. by eapply p_sent.
  - rewrite serves_message by (done || apply Hm). cbn [map_outcome bind_outcome]. intros [= <-]. eexists. split; [done|].
    eapply p_served; cbn [EpollServer.interest EpollServer.buf EpollServer.chans]; [done| |by apply interest_read|done|].
    + intros g Hg. cbn. rewrite lookup_alter_ne by done. by apply Ho.
    + rewrite lookup_alter_eq, Hk, chan_of_snoc. done.
  - rewrite (answers_message (sent_line (number done) line)) by (done || apply Hm). cbn [map_outcome bind_outcome]. intros [= <-]. eexists. split; [done|].
    unfold sent_to. cbn [EpollServer.chans]. rewrite lookup_alter_eq, Hk. cbn. rewrite drop_app_length. eapply p_answered; [done| |].
    + split_and!; cbn [EpollServer.interest EpollServer.buf EpollServer.chans]; [by eapply interest_write|done|].
      rewrite lookup_alter_eq, Hk, chan_of_snoc. done.
    + intros g Hg. cbn. rewrite lookup_alter_ne by done. by apply Ho.
  - rewrite reads_answer. cbn. intros [= <-]. eexists. split; [done|]. by eapply p_read.
  - rewrite writes_screen by (done || lia). cbn [map_outcome bind_outcome]. intros [= <-]. eexists. split; [done|]. exists line, rest'. split; [done|].
    replace (number done + 1 + 1)%Z with (number (done ++ [line])) by lia.
    change (stamp (number done + 1) (removelast (sent_line (number done) line))) with (printed_line (number done) line).
    rewrite <- shown_of_snoc. by apply p_idle.
Qed.

Lemma sys_progress done rest i x :
  lines = done ++ rest -> point done rest i x -> (exists e o, sys_step listenfd f sockfd e x = Some o) \/ i = 0 /\ rest = [].
Proof.
  intros Hl Hp. destruct keyboard_lookup as (K1 & K2 & K3). pose proof connected_lookup as HC. destruct printing_lookup as (P1 & P2 & P3).
  destruct (HC EPOLLIN) as (I1 & I2 & I3). destruct (HC EPOLLOUT) as (O1 & O2 & O3).
  destruct Hp as [s (Hi & Hb & Hk) Ho|line rest' s -> (Hi & Hb & Hk) Ho|line rest' s -> (Hi & Hb & Hk) Ho
    |line rest' s -> Ho Hi Hb Hk|line rest' s -> (Hi & Hb & Hk) Ho|line rest' s -> (Hi & Hb & Hk) Ho].
  - destruct rest as [|line rest]; [by right|left]. exists types. on_event. by eexists.
  - left. exists sends. on_event. by eexists.
  - left. exists serves. on_event. by eexists.
  - left. exists answers. on_event. by eexists.
  - left. exists reads. on_event. by eexists.
  - left. exists prints. on_event. by eexists.
Qed.

Lemma sys_run_point es : forall done rest i x o,
  lines = done ++ rest -> point done rest i x -> run (sys_step listenfd f sockfd) es x = Some o ->
  exists done' rest' j x', o = returns x' /\ lines = done' ++ rest' /\ point done' rest' j x' /\
    length es + 6 * length done + i = 6 * length done' + j.
Proof.
  induction es as [|e es IH]; intros done rest i x o Hl Hp; cbn [run]; [intros [= <-]; by exists done, rest, i, x|].
  destruct (sys_step listenfd f sockfd e x) as [o1|] eqn:He; [|done]. cbn [mbind option_bind].
  destruct (sys_step_next done rest i x e o1 Hl Hp He) as (x1 & -> & Hn). intros Hrun. unfold next in Hn. case_decide as Hi.
  - destruct Hn as (line & rest' & -> & Hp1).
    destruct (IH (done ++ [line]) rest' 0 x1 o) as (d & r & j & x' & -> & Hl' & Hp' & Hlen); [by rewrite <- app_assoc|done|done|].
    exists d, r, j, x'. split_and!; [done..|]. rewrite length_app in Hlen. cbn in *. lia.
  - destruct (IH done rest (S i) x1 o) as (d & r & j & x' & -> & Hl' & Hp' & Hlen); [done..|].
    exists d, r, j, x'. split_and!; [done..|]. cbn. lia.
Qed.
End session.

(** What is on the screen and was sent in a state. *)
Lemma point_shows n k ts scr others done rest i x :
  point n k ts scr others done rest i x ->
  screen (cl x) = shown_of n scr done /\ untouched others (sv x) /\
  (exists l, l `prefix_of` rest /\ to_server (cl x) = sent_of n ts (done ++ l)) /\
  (i = 0 -> idle (number n done) (cl x) /\ at_rest (chan_of n k done) (sv x) /\ to_server (cl x) = sent_of n ts done).
Proof.
  intros Hp. destruct Hp as [s Hs Ho|line rest' s -> Hs Ho|line rest' s -> Hs Ho|line rest' s -> Ho _ _ _|line rest' s -> Hs Ho|line rest' s -> Hs Ho];
    (split; [done|split; [done|split; [|done || by intros _]]]).
  1,2: exists []; split; [apply prefix_nil|by rewrite app_nil_r].
  all: exists [line]; split; [by exists rest'|done].
Qed.

(** C23: [04...epoll]: client and server together, in every order in which the events
    of the two can come, where short lines without zeros are typed, each when the
    answer to the last one has been printed, and no other client sends. Nothing is
    undefined; at any moment the screen shows the answers to the lines done, each line
    with its number and the next one, and the server got these lines with their numbers
    and at most the next; there are at most six events for each line, and one is always
    possible until all lines are printed. Then client and server are as before, and the
    server got each line and sent back what it got; other connections of the server are
    never touched. What does not fit into 99 bytes is cut ([long_line]); a line typed
    before the last answer is lost ([typed_ahead]). *)
Theorem session_prints lines n k c s es o :
  idle n c -> at_rest k s -> Forall typed lines -> (0 <= n)%Z -> (n + 2 * Z.of_nat (length lines) < 2 ^ 31)%Z ->
  run (sys_step listenfd f sockfd) es (System lines false c s [] []) = Some o ->
  exists x done rest, o = returns x /\ lines = done ++ rest /\
    screen (cl x) = screen c ++ numbered printed_line n done /\
    (exists l, l `prefix_of` rest /\ to_server (cl x) = to_server c ++ numbered sent_line n (done ++ l)) /\
    (forall g, g <> f -> EpollServer.chans (sv x) !! g = EpollServer.chans s !! g) /\
    length es <= 6 * length lines /\
    ((exists e o', sys_step listenfd f sockfd e x = Some o') \/
     done = lines /\ idle (n + 2 * Z.of_nat (length lines)) (cl x) /\
     at_rest (heard_and_sent (numbered sent_line n lines) k) (sv x) /\
     to_server (cl x) = to_server c ++ numbered sent_line n lines).
Proof.
  intros (Hr & Hcl & Hb & Hcount) Hs Ht H0 Hn Hrun. destruct c as [reg cld b cnt ts scr]. cbn in Hr, Hcl, Hb, Hcount. subst reg cld b cnt.
  assert (Hstart : point n k ts scr (EpollServer.chans s) [] lines 0 (System lines false (Client keyboard ∅ cleared n ts scr) s [] [])).
  { pose proof (p_idle n k ts scr (EpollServer.chans s) [] lines s) as Hp. unfold number, sent_of, shown_of, chan_of, heard_and_sent in Hp. cbn in Hp.
    rewrite Z.add_0_r, !app_nil_r in Hp. apply Hp; [by destruct k|by intros g]. }
  destruct (sys_run_point n k ts scr (EpollServer.chans s) lines H0 Ht Hn es [] lines 0 _ o eq_refl Hstart Hrun) as (done & rest & i & x & -> & Hl & Hp & Hlen).
  destruct (point_shows _ _ _ _ _ _ _ _ _ Hp) as (Hscr & Ho & Hsent & Hi).
  exists x, done, rest. split; [done|]. split; [done|]. split; [done|]. split; [done|]. split; [done|]. split.
  - rewrite Hl, length_app. cbn in Hlen. assert (i = 0 \/ i <= 5 /\ rest <> []) as [->|[? ?]]; [|lia|destruct rest; [done|cbn; lia]].
    destruct Hp; subst; [by left|right; split; [lia|done]..].
  - destruct (sys_progress n k ts scr (EpollServer.chans s) lines done rest i x Hl Hp) as [|[-> ->]]; [by left|right].
    rewrite app_nil_r in Hl. subst done. destruct (Hi eq_refl) as (? & ? & ?). by split_and!.
Qed.

End lines.

(** ** Examples *)

Definition two_lines : list str := [lit "hello" ++ [LF]; lit "bye" ++ [LF]].
Definition served : EpollServer.epoll_srv :=
  EpollServer.EpollSrv {[3 := EPOLLIN; 5 := EPOLLIN]} cleared {[5 := EpollServer.Chan [] []]} [].

Definition one_line : list sys_event := [types; sends; serves; answers; reads; prints].

Lemma session_prints_witness : exists x,
  run (sys_step 3 5 4) (one_line ++ one_line) (System two_lines false start served [] []) = Some (returns x) /\
  screen (cl x) = [lit "hello_00_01" ++ [LF]; lit "bye_02_03" ++ [LF]] /\
  EpollServer.chans (sv x) !! 6 = None.
Proof.
  destruct (run (sys_step 3 5 4) (one_line ++ one_line) (System two_lines false start served [] [])) as [o|] eqn:Hr; [|by vm_compute in Hr].
  assert (Ht : Forall typed two_lines).
  { apply Forall_forall. intros s Hs. apply elem_of_cons in Hs as [->|Hs%list_elem_of_singleton]; [|subst s];
      (split; [discriminate|split; [apply (bool_decide_unpack _); vm_compute; exact I|apply Nat.ltb_lt; vm_compute; reflexivity]]). }
  destruct (session_prints 3 5 4 ltac:(cbv; lia) ltac:(lia) two_lines 0 (EpollServer.Chan [] []) start served (one_line ++ one_line) o
    ltac:(by split_and!) ltac:(by split_and!) Ht ltac:(lia) ltac:(cbn; lia) Hr) as (x & done & rest & -> & _ & _ & _ & Ho & _).
  exists x. split; [reflexivity|]. split; [|exact (Ho 6 ltac:(lia))]. vm_compute in Hr. injection Hr as <-. vm_compute. reflexivity.
Defined.

(** A line typed before the answer to the last one is lost: the connection is
    registered, so it does not become writable again, and when the answer arrives
    the second line is still in the buffer and the answer comes on top of it. *)
Lemma typed_ahead :
  match handle_events 4 [Event 0 true false (got (lit "hi" ++ [LF])); Event 4 false true written;
      Event 0 true false (got (lit "good morning" ++ [LF])); Event 4 true false (got (lit "hi_00" ++ [LF]));
      Event 1 false true written] start with
  | returns c => to_server c = [lit "hi_00" ++ [LF]] /\ screen c = [lit "hi_00" ++ LF :: lit "orning_01" ++ [LF]]
  | _ => False
  end.
Proof. vm_compute. split; reflexivity. Qed.

(** Of a line of 97 characters neither number is printed, and no line feed. *)
Lemma long_line :
  length (sent_line 0 (replicate 97 "a"%char ++ [LF])) = 99 /\
  printed_line 0 (replicate 97 "a"%char ++ [LF]) = replicate 97 "a"%char ++ lit "__".
Proof. vm_compute. split; reflexivity. Qed.

(** An answer that starts with a zero byte writes before the buffer. *)
Lemma empty_text :
  handle_events 4 [Event 4 true false (got [NUL]); Event 1 false true written] start = undefined.
Proof. vm_compute. reflexivity. Qed.
