(* ===== verification/SimpleReactor.v ===== *)
(** * SimpleReactor: the first echo server on epoll

    Models [Linux_Net/Reactor/01_simple_reactor.c]: a table of events, one per
    client and a last one for the listening socket, whose callbacks read into the
    buffer of the event, write it back and accept. The wrapped calls are those of
    [WrapIO]: [Read] and [Write] give -1 for an error, [Accept] succeeds or ends
    the program. Creating the listening socket is left out.

    An event of [epoll_wait] carries the pointer it was registered with, an index
    of the table. What a connection received and was sent is recorded in [conns],
    and in [gone] once the server has closed it. *)
From S2P Require Import Prelude.

Definition BUF_LEN : nat := 1024.
Definition EVENT_SIZE : nat := 1024.
Definition EPOLLIN : Z := 1.
Definition EPOLLOUT : Z := 4.

Inductive handler := null | read_data_cb | send_data_cb | initAccept_cb.

(** [fd] is 0 in an unused entry. *)
Record xevent := XEvent { fd : nat; events : Z; call_back : handler; buf : str; buflen : Z }.

Definition zero_xevent : xevent := XEvent 0 0 null (replicate BUF_LEN NUL) 0.

Record peer := Peer { input : list str; output : list str }.

(** [myevents]; the tree of [g_epfd] with what each descriptor is registered for
    and the index of its event. *)
Record reactor := Reactor { myevents : list xevent; tree : gmap nat (Z * nat); conns : gmap nat peer; gone : list peer }.

Definition get (st : reactor) (i : nat) : xevent := default zero_xevent (myevents st !! i).
Definition store (i : nat) (x : xevent) (st : reactor) : reactor := Reactor (<[i := x]> (myevents st)) (tree st) (conns st) (gone st).
Definition set_tree (t : gmap nat (Z * nat)) (st : reactor) : reactor := Reactor (myevents st) t (conns st) (gone st).
Definition log (f : peer -> peer) (d : nat) (st : reactor) : reactor := Reactor (myevents st) (tree st) (alter f d (conns st)) (gone st).

(** [EPOLL_CTL_ADD] of a descriptor that is not in the tree, [EPOLL_CTL_MOD] of
    one that is; otherwise [epoll_ctl] fails, which is not looked at. *)
Definition ctl_add (d : nat) (e : Z * nat) (t : gmap nat (Z * nat)) : gmap nat (Z * nat) :=
  match t !! d with None => <[d := e]> t | Some _ => t end.
Definition ctl_mod (d : nat) (e : Z * nat) (t : gmap nat (Z * nat)) : gmap nat (Z * nat) := alter (fun _ => e) d t.
Definition ctl_del (d : nat) (t : gmap nat (Z * nat)) : gmap nat (Z * nat) := delete d t.

Definition assign (d : nat) (evs : Z) (cb : handler) (x : xevent) : xevent := XEvent d evs cb (buf x) (buflen x).

Definition event_add (d : nat) (evs : Z) (cb : handler) (i : nat) (st : reactor) : reactor :=
  let st := store i (assign d evs cb (get st i)) st in set_tree (ctl_add d (evs, i) (tree st)) st.
Definition event_set (d : nat) (evs : Z) (cb : handler) (i : nat) (st : reactor) : reactor :=
  let st := store i (assign d evs cb (get st i)) st in set_tree (ctl_mod d (evs, i) (tree st)) st.
Definition event_del (d : nat) (i : nat) (st : reactor) : reactor :=
  let st := store i zero_xevent st in set_tree (ctl_del d (tree st)) st.

(** A closed descriptor leaves the tree. *)
Definition Close (d : nat) (st : reactor) : reactor :=
  Reactor (myevents st) (delete d (tree st)) (delete d (conns st)) (gone st ++ option_list (conns st !! d)).

(** What a call gives: a descriptor; bytes read, or an error; the number of bytes
    written, or an error. *)
Inductive result := accepted (d : nat) | got (s : option str) | wrote (n : option nat).

Definition fill (s : str) (x : xevent) : xevent :=
  XEvent (fd x) (events x) (call_back x) (s ++ drop (length s) (buf x)) (Z.of_nat (length s)).
Definition set_buflen (n : Z) (x : xevent) : xevent := XEvent (fd x) (events x) (call_back x) (buf x) n.

Definition heard (s : str) (c : peer) : peer := Peer (input c ++ [s]) (output c).
Definition told (s : str) (c : peer) : peer := Peer (input c) (output c ++ [s]).

Definition read_data (d i : nat) (r : option str) (st : reactor) : reactor :=
  match r with
  | None => store i (set_buflen (-1) (get st i)) st
  | Some [] => event_del d i (Close d (store i (set_buflen 0 (get st i)) st))
  | Some s => event_set d EPOLLOUT send_data_cb i (log (heard s) d (store i (fill s (get st i)) st))
  end.

(** What [Write] is given. *)
Definition pending (x : xevent) : str := take (Z.to_nat (buflen x)) (buf x).

(** After an error nothing was sent. *)
Definition send_data (d i : nat) (r : option nat) (st : reactor) : reactor :=
  event_set d EPOLLIN read_data_cb i (log (told (take (default 0 r) (pending (get st i)))) d st).

(** The first entry with [fd == 0]; [EVENT_SIZE] where there is none. *)
Fixpoint free_from (n i : nat) (st : reactor) : nat :=
  match n with
  | O => i
  | S n' => if decide (fd (get st i) = 0) then i else free_from n' (S i) st
  end.

Definition connect (d : nat) (st : reactor) : reactor := Reactor (myevents st) (tree st) (<[d := Peer [] []]> (conns st)) (gone st).
Definition initAccept (cfd : nat) (st : reactor) : reactor :=
  let st := connect cfd st in event_add cfd EPOLLIN read_data_cb (free_from EVENT_SIZE 0 st) st.

(** An event of [epoll_wait]: the index it carries, what is ready, and what the
    call that is made gives. A result of the wrong kind makes no call. *)
Record ready := Ready { ptr : nat; mask : Z; answer : result }.

Definition dispatch (st : reactor) (r : ready) : option reactor :=
  let x := get st (ptr r) in
  if (Z.land (events x) (mask r) =? 0)%Z then Some st
  else match call_back x, answer r with
       | read_data_cb, got s => Some (read_data (fd x) (ptr r) s st)
       | send_data_cb, wrote n => Some (send_data (fd x) (ptr r) n st)
       | initAccept_cb, accepted d => Some (initAccept d st)
       | _, _ => None
       end.

(** [main]: the batches that [epoll_wait] returns, one after the other. *)
Definition run_batch (st : reactor) (rs : list ready) : option reactor :=
  foldl (fun o r => st ← o; dispatch st r) (Some st) rs.
Definition run (st : reactor) (batches : list (list ready)) : option reactor :=
  foldl (fun o rs => st ← o; run_batch st rs) (Some st) batches.

Definition main_start (lfd : nat) : reactor :=
  event_add lfd EPOLLIN initAccept_cb EVENT_SIZE (Reactor (replicate (EVENT_SIZE + 1) zero_xevent) ∅ ∅ []).

(** ** What the system reports *)

(** A client is registered, or the listening socket, and the call that its
    callback makes answers: [Read] at most what fits, [Accept] a new descriptor. *)
Definition reported (st : reactor) (r : ready) : Prop :=
  (exists d evs, tree st !! d = Some (evs, ptr r)) /\
  match call_back (get st (ptr r)), answer r with
  | read_data_cb, got (Some s) => length s <= BUF_LEN
  | read_data_cb, got None => True
  | send_data_cb, wrote _ => True
  | initAccept_cb, accepted d => d <> 0 /\ tree st !! d = None
  | _, _ => False
  end.

(** There is room for what is accepted. *)
Definition room (st : reactor) : Prop := exists i, i < EVENT_SIZE /\ fd (get st i) = 0.

Fixpoint batch_ok (st : reactor) (rs : list ready) : Prop :=
  match rs with
  | [] => True
  | r :: rs' => reported st r /\ (call_back (get st (ptr r)) = initAccept_cb -> room st) /\
                forall st', dispatch st r = Some st' -> batch_ok st' rs'
  end.

(** Each reply is the beginning of its message; at most one is due. *)
Definition echoed (c : peer) : Prop :=
  exists done due, input c = done ++ due /\ length due <= 1 /\ Forall2 (fun o s => o `prefix_of` s) (output c) done.

Definition client_ok (x : xevent) (c : peer) : Prop :=
  events x = EPOLLIN /\ call_back x = read_data_cb /\ Forall2 (fun o s => o `prefix_of` s) (output c) (input c) \/
  events x = EPOLLOUT /\ call_back x = send_data_cb /\
    exists done, input c = done ++ [pending x] /\ Forall2 (fun o s => o `prefix_of` s) (output c) done.

Lemma client_ok_echoed x c : client_ok x c -> echoed c.
Proof.
  intros [(_ & _ & H)|(_ & _ & done & Hi & H)]; [exists (input c), []|exists done, [pending x]]; rewrite ?app_nil_r; cbn; auto with lia.
Qed.

Record inv (lfd : nat) (st : reactor) : Prop := {
  inv_length : length (myevents st) = EVENT_SIZE + 1;
  inv_buf : forall i, length (buf (get st i)) = BUF_LEN;
  inv_listen : tree st !! lfd = Some (EPOLLIN, EVENT_SIZE) /\ call_back (get st EVENT_SIZE) = initAccept_cb;
  inv_zero : tree st !! 0 = None;
  inv_tree : forall d evs i, tree st !! d = Some (evs, i) -> i <= EVENT_SIZE /\ fd (get st i) = d /\ events (get st i) = evs;
  inv_slot : forall i, i < EVENT_SIZE -> fd (get st i) <> 0 ->
    tree st !! fd (get st i) = Some (events (get st i), i) /\ exists c, conns st !! fd (get st i) = Some c /\ client_ok (get st i) c;
  inv_conns : forall d, is_Some (conns st !! d) -> exists i, i < EVENT_SIZE /\ fd (get st i) = d /\ d <> 0;
  inv_gone : Forall echoed (gone st) }.

#[local] Arguments EVENT_SIZE : simpl never.
#[local] Arguments BUF_LEN : simpl never.

(** ** The table *)

Lemma get_store st i x j : i < length (myevents st) -> get (store i x st) j = if decide (j = i) then x else get st j.
Proof.
  intros Hi. unfold get, store. cbn. case_decide as Hj; [subst; by rewrite list_lookup_insert_eq|].
  by rewrite list_lookup_insert_ne.
Qed.

Lemma free_from_spec n i st :
  i <= free_from n i st <= i + n /\ (free_from n i st < i + n -> fd (get st (free_from n i st)) = 0) /\
  ((exists j, i <= j < i + n /\ fd (get st j) = 0) -> free_from n i st < i + n).
Proof.
  revert i. induction n as [|n IH]; intros i; cbn [free_from].
  - split; [lia|]. split; [lia|]. intros (j & Hj & _). lia.
  - case_decide as Hi; [split; [lia|]; split; [done|lia]|]. destruct (IH (S i)) as (H1 & H2 & H3).
    split; [lia|]. split; [intros ?; apply H2; lia|]. intros (j & Hj & Hz).
    assert (free_from n (S i) st < S i + n); [|lia]. apply H3. exists j. split; [|done].
    assert (j <> i) by (by intros ->). lia.
Qed.

Lemma main_start_inv lfd : lfd <> 0 -> inv lfd (main_start lfd).
Proof.
  intros Hl. assert (Hg : forall i, get (main_start lfd) i = if decide (i = EVENT_SIZE) then assign lfd EPOLLIN initAccept_cb zero_xevent else zero_xevent).
  { intros i. unfold main_start, event_add. set (st0 := Reactor _ _ _ _).
    assert (Hz : forall j, get st0 j = zero_xevent).
    { intros j. unfold get, st0. cbn. destruct (replicate (EVENT_SIZE + 1) zero_xevent !! j) as [x|] eqn:Hx; [|done].
      by apply lookup_replicate in Hx as [-> _]. }
    change (get (set_tree ?t ?s) i) with (get s i). rewrite get_store by (unfold st0; cbn; rewrite length_replicate; unfold EVENT_SIZE; lia).
    rewrite !Hz. done. }
  assert (Ht : tree (main_start lfd) = {[lfd := (EPOLLIN, EVENT_SIZE)]}) by done.
  constructor; rewrite ?Ht.
  - cbn. by rewrite length_insert, length_replicate.
  - intros i. rewrite Hg. by case_decide.
  - by rewrite lookup_singleton_eq, Hg, decide_True.
  - by rewrite lookup_singleton_ne.
  - intros d evs i [<- [= <- <-]]%lookup_singleton_Some. by rewrite Hg, decide_True.
  - intros i Hi Hfd. rewrite Hg, decide_False in Hfd by lia. done.
  - intros d [c Hc]. done.
  - constructor.
Qed.

Lemma alter_insert {A} (f : A -> A) d (m : gmap nat A) a : m !! d = Some a -> alter f d m = <[d := f a]> m.
Proof.
  intros Hd. apply map_eq. intros e. destruct (decide (e = d)) as [->|].
  - by rewrite lookup_alter_eq, lookup_insert_eq, Hd.
  - by rewrite lookup_alter_ne, lookup_insert_ne.
Qed.

Section steps.
Context (lfd : nat) (st : reactor) (Hinv : inv lfd st).

(** The descriptor of a client is in one entry only, and is not the listening one. *)
Lemma fd_unique i j : i < EVENT_SIZE -> j < EVENT_SIZE -> fd (get st i) = fd (get st j) -> fd (get st i) <> 0 -> i = j.
Proof.
  intros Hi Hj He Hz. destruct (inv_slot _ _ Hinv i Hi Hz) as [H1 _].
  rewrite He in H1, Hz. destruct (inv_slot _ _ Hinv j Hj Hz) as [H2 _]. rewrite H1 in H2. by injection H2.
Qed.

Lemma fd_not_lfd i : i < EVENT_SIZE -> fd (get st i) <> 0 -> fd (get st i) <> lfd.
Proof.
  intros Hi Hz He. destruct (inv_slot _ _ Hinv i Hi Hz) as [H1 _]. rewrite He in H1.
  destruct (inv_listen _ _ Hinv) as [H2 _]. rewrite H2 in H1. injection H1 as _ H1. lia.
Qed.

(** An entry of a client that changes, or that is taken by a new one. *)
Definition registered (i : nat) (x : xevent) (c : peer) : reactor :=
  Reactor (<[i := x]> (myevents st)) (<[fd x := (events x, i)]> (tree st)) (<[fd x := c]> (conns st)) (gone st).

Lemma inv_registered i x c :
  i < EVENT_SIZE -> fd x <> 0 -> length (buf x) = BUF_LEN -> client_ok x c ->
  fd (get st i) = fd x \/ fd (get st i) = 0 /\ tree st !! fd x = None ->
  inv lfd (registered i x c).
Proof.
  intros Hi Hx Hbuf Hok Hd. pose proof (inv_length _ _ Hinv) as Hlen.
  assert (Hg : forall j, get (registered i x c) j = if decide (j = i) then x else get st j)
    by (intros j; apply (get_store st i x j); lia).
  destruct (inv_listen _ _ Hinv) as [Hl Hcb].
  assert (Hne : fd x <> lfd).
  { destruct Hd as [Hd|[_ Hd]]; [rewrite <- Hd; apply fd_not_lfd; [done|by rewrite Hd]|intros He; by rewrite He, Hl in Hd]. }
  assert (Hother : forall j, j < EVENT_SIZE -> j <> i -> fd (get st j) <> 0 -> fd (get st j) <> fd x).
  { intros j Hj Hji Hz He. destruct Hd as [Hd|[_ Hd]].
    - apply Hji, fd_unique; congruence.
    - destruct (inv_slot _ _ Hinv j Hj Hz) as [Ht _]. by rewrite He, Hd in Ht. }
  constructor; cbn.
  - by rewrite length_insert.
  - intros j. rewrite Hg. case_decide; [done|]. apply Hinv.
  - rewrite lookup_insert_ne by done. split; [done|]. rewrite Hg, decide_False by lia. done.
  - rewrite lookup_insert_ne by done. apply Hinv.
  - intros d evs j [[<- [= <- <-]]|[Hdx Ht]]%lookup_insert_Some.
    + rewrite Hg, decide_True by done. split; [lia|done].
    + destruct (inv_tree _ _ Hinv d evs j Ht) as (Hj & Hfd & Hev). rewrite Hg. case_decide as Hji; [|done]. subst j.
      destruct Hd as [Hd|[Hd _]]; [by rewrite <- Hfd, Hd in Hdx|]. rewrite <- Hfd, Hd, (inv_zero _ _ Hinv) in Ht. done.
  - intros j Hj. rewrite Hg. case_decide as Hji.
    + subst j. intros _. rewrite !lookup_insert_eq. eauto.
    + intros Hz. rewrite !lookup_insert_ne by (intros He; by apply (Hother j Hj Hji Hz)). by apply Hinv.
  - intros d. destruct (decide (d = fd x)) as [->|Hdx].
    + intros _. exists i. by rewrite Hg, decide_True.
    + rewrite lookup_insert_ne by done. intros Hc. destruct (inv_conns _ _ Hinv d Hc) as (j & Hj & Hfd & Hz).
      exists j. rewrite Hg. case_decide as Hji; [|done]. subst j. destruct Hd as [Hd|[Hd _]]; congruence.
  - apply Hinv.
Qed.

(** An entry that is given up. *)
Lemma inv_removed i c :
  i < EVENT_SIZE -> fd (get st i) <> 0 -> conns st !! fd (get st i) = Some c ->
  inv lfd (Reactor (<[i := zero_xevent]> (myevents st)) (delete (fd (get st i)) (tree st)) (delete (fd (get st i)) (conns st)) (gone st ++ [c])).
Proof.
  intros Hi Hz Hc. pose proof (inv_length _ _ Hinv) as Hlen. set (st' := Reactor _ _ _ _).
  assert (Hg : forall j, get st' j = if decide (j = i) then zero_xevent else get st j)
    by (intros j; apply (get_store st i zero_xevent j); lia).
  destruct (inv_listen _ _ Hinv) as [Hl Hcb]. pose proof (fd_not_lfd i Hi Hz) as Hne.
  destruct (inv_slot _ _ Hinv i Hi Hz) as [Ht (c' & Hc' & Hok)]. rewrite Hc in Hc'. injection Hc' as <-.
  constructor; cbn.
  - by rewrite length_insert.
  - intros j. rewrite Hg. case_decide; [done|]. apply Hinv.
  - rewrite lookup_delete_ne by done. split; [done|]. rewrite Hg, decide_False by lia. done.
  - rewrite lookup_delete_ne by done. apply Hinv.
  - intros d evs j [Hd Htd]%lookup_delete_Some. destruct (inv_tree _ _ Hinv d evs j Htd) as (Hj & Hfd & Hev).
    rewrite Hg. case_decide; [subst; done|done].
  - intros j Hj. rewrite Hg. case_decide as Hji; [done|]. intros Hzj.
    assert (fd (get st j) <> fd (get st i)) by (intros He; apply Hji, fd_unique; congruence).
    rewrite !lookup_delete_ne by done. by apply Hinv.
  - intros d [c' [Hd Hcd]%lookup_delete_Some]. destruct (inv_conns _ _ Hinv d ltac:(by eexists)) as (j & Hj & Hfd & Hzj).
    exists j. rewrite Hg. case_decide; [subst; done|done].
  - apply Forall_app. split; [apply Hinv|]. apply Forall_singleton. by eapply client_ok_echoed.
Qed.

(** What a callback leaves, as a change of one entry. *)
Lemma event_set_registered i x c evs cb f :
  i < EVENT_SIZE -> fd (get st i) <> 0 -> conns st !! fd (get st i) = Some c -> fd x = fd (get st i) ->
  event_set (fd x) evs cb i (log f (fd x) (store i x st)) = registered i (assign (fd x) evs cb x) (f c).
Proof.
  intros Hi Hz Hc Hx. pose proof (inv_length _ _ Hinv) as Hlen. destruct (inv_slot _ _ Hinv i Hi Hz) as [Ht _].
  rewrite <- Hx in Hc, Ht. unfold event_set, registered. cbn. unfold ctl_mod.
  change (get (log f (fd x) (store i x st)) i) with (get (store i x st) i).
  rewrite get_store, decide_True by (done || lia). cbn.
  unfold set_tree, store, log. cbn. by rewrite list_insert_insert_eq, (alter_insert _ _ _ _ Ht), (alter_insert _ _ _ _ Hc).
Qed.

Lemma step_read i r c :
  i < EVENT_SIZE -> fd (get st i) <> 0 -> conns st !! fd (get st i) = Some c -> client_ok (get st i) c ->
  call_back (get st i) = read_data_cb -> match r with Some s => length s <= BUF_LEN | None => True end ->
  inv lfd (read_data (fd (get st i)) i r st).
Proof.
  intros Hi Hz Hc Hok Hcb Hr. destruct Hok as [(Hev & _ & Hf)|(_ & Hcb' & _)]; [|by rewrite Hcb in Hcb'].
  pose proof (inv_length _ _ Hinv) as Hlen. destruct (inv_slot _ _ Hinv i Hi Hz) as [Ht _].
  pose proof (inv_buf _ _ Hinv i) as Hb. destruct r as [[|a s]|]; cbn [read_data].
  - replace (event_del _ _ _) with (Reactor (<[i := zero_xevent]> (myevents st)) (delete (fd (get st i)) (tree st))
      (delete (fd (get st i)) (conns st)) (gone st ++ [c])); [by apply inv_removed|].
    unfold event_del, Close, store, set_tree, ctl_del. cbn. by rewrite list_insert_insert_eq, delete_delete_eq, Hc.
  - rewrite (event_set_registered i (fill (a :: s) (get st i)) c) by done.
    apply inv_registered; [done|done| | |by left].
    + cbn [assign fill buf]. rewrite length_app, length_drop. lia.
    + right. split; [done|]. split; [done|]. exists (input c). split; [|done]. unfold pending. cbn [assign fill buf buflen].
      by rewrite Nat2Z.id, take_app_length.
  - replace (store _ _ _) with (registered i (set_buflen (-1) (get st i)) c).
    + apply inv_registered; [done|done|done| |by left]. by left.
    + unfold registered, store. cbn. by rewrite !insert_id.
Qed.

Lemma step_send i n c :
  i < EVENT_SIZE -> fd (get st i) <> 0 -> conns st !! fd (get st i) = Some c -> client_ok (get st i) c ->
  call_back (get st i) = send_data_cb -> inv lfd (send_data (fd (get st i)) i n st).
Proof.
  intros Hi Hz Hc Hok Hcb. destruct Hok as [(_ & Hcb' & _)|(_ & _ & before & Hd & Hf)]; [by rewrite Hcb in Hcb'|].
  assert (Hst : store i (get st i) st = st).
  { unfold store, get. destruct (lookup_lt_is_Some_2 (myevents st) i) as [x Hx]; [rewrite (inv_length _ _ Hinv); lia|].
    rewrite Hx. cbn. rewrite list_insert_id by done. by destruct st. }
  unfold send_data. pose proof (event_set_registered i (get st i) c EPOLLIN read_data_cb
    (told (take (default 0 n) (pending (get st i)))) Hi Hz Hc eq_refl) as He. rewrite Hst in He. rewrite He.
  apply inv_registered; [done|done|apply (inv_buf _ _ Hinv i)| |by left].
  left. split; [done|]. split; [done|]. cbn [told input output]. rewrite Hd. apply Forall2_app; [done|].
  constructor; [|done]. apply prefix_take.
Qed.

Lemma step_accept d : room st -> d <> 0 -> tree st !! d = None -> inv lfd (initAccept d st).
Proof.
  intros (j & Hj & Hz) Hd Ht. unfold initAccept. set (i := free_from _ _ _).
  destruct (free_from_spec EVENT_SIZE 0 (connect d st)) as (_ & H2 & H3).
  assert (Hi : i < EVENT_SIZE) by (apply H3; exists j; split; [lia|done]). specialize (H2 Hi).
  change (get (connect d st) ?k) with (get st k) in *.
  replace (event_add _ _ _ _ _) with (registered i (assign d EPOLLIN read_data_cb (get st i)) (Peer [] [])).
  - apply inv_registered; [done|done|apply (inv_buf _ _ Hinv i)|by left|by right].
  - unfold event_add, registered, set_tree, ctl_add, store. cbn. by rewrite Ht.
Qed.

Lemma dispatch_inv r :
  reported st r -> (call_back (get st (ptr r)) = initAccept_cb -> room st) -> exists st', dispatch st r = Some st' /\ inv lfd st'.
Proof.
  intros [(d & evs & Ht) Hans] Hroom. unfold dispatch. destruct (_ =? 0)%Z; [by exists st|].
  destruct (inv_tree _ _ Hinv d evs (ptr r) Ht) as (Hp & Hfd & _).
  destruct (decide (ptr r = EVENT_SIZE)) as [He|Hne].
  - destruct (inv_listen _ _ Hinv) as [_ Hcb]. rewrite He, Hcb in *. destruct (answer r) as [d'| |]; [|done|done].
    eexists. split; [done|]. apply step_accept; [by apply Hroom|apply Hans..].
  - assert (Hz : fd (get st (ptr r)) <> 0) by (rewrite Hfd; intros ->; by rewrite (inv_zero _ _ Hinv) in Ht).
    destruct (inv_slot _ _ Hinv (ptr r) ltac:(lia) Hz) as [_ (c & Hc & Hok)].
    destruct (call_back (get st (ptr r))) eqn:Hcb; try done; destruct (answer r); try done; (eexists; split; [done|]).
    + eapply step_read; eauto. lia.
    + eapply step_send; eauto. lia.
    + exfalso. destruct Hok as [(_ & H' & _)|(_ & H' & _)]; by rewrite Hcb in H'.
Qed.

End steps.

(** ** Runs *)

Lemma run_batch_cons st r rs : run_batch st (r :: rs) = st' ← dispatch st r; run_batch st' rs.
Proof.
  unfold run_batch. cbn. destruct (dispatch st r); [done|]. cbn. by induction rs.
Qed.

Lemma run_batch_app st rs rs' : run_batch st (rs ++ rs') = st' ← run_batch st rs; run_batch st' rs'.
Proof.
  revert st. induction rs as [|r rs IH]; intros st; [done|]. rewrite <- app_comm_cons, !run_batch_cons.
  destruct (dispatch st r) as [st1|]; [|done]. apply IH.
Qed.

Lemma run_concat st batches : run st batches = run_batch st (concat batches).
Proof.
  unfold run. revert st. induction batches as [|rs batches IH]; intros st; [done|]. cbn [concat foldl].
  rewrite run_batch_app. cbn. destruct (run_batch st rs) as [st1|]; [apply IH|]. cbn. clear IH. by induction batches.
Qed.

Lemma run_batch_inv lfd st rs : inv lfd st -> batch_ok st rs -> exists st', run_batch st rs = Some st' /\ inv lfd st'.
Proof.
  revert st. induction rs as [|r rs IH]; intros st Hst; [by exists st|]. intros (Hr & Hroom & Hrs).
  destruct (dispatch_inv lfd st Hst r Hr Hroom) as (st1 & Hs & H1). rewrite run_batch_cons, Hs. by apply IH; [|apply Hrs].
Qed.

(** C24: [01_simple_reactor.c], as long as there is an entry for each client: in
    every run the callbacks and the tree agree, and each client is answered message
    by message from its own buffer: the replies are the beginnings of its messages
    in turn, one being due when it is waited for with [EPOLLOUT]; what is then sent
    is that message. A reply that [Write] cuts short is not completed. *)
Theorem simple_reactor_echo lfd batches :
  lfd <> 0 -> batch_ok (main_start lfd) (concat batches) ->
  exists st, run (main_start lfd) batches = Some st /\ Forall echoed (gone st) /\
    forall d c, conns st !! d = Some c ->
      exists i evs, tree st !! d = Some (evs, i) /\ fd (get st i) = d /\
        ((evs = EPOLLIN /\ Forall2 (fun o s => o `prefix_of` s) (output c) (input c)) \/
         (evs = EPOLLOUT /\ exists before s, input c = before ++ [s] /\ Forall2 (fun o s => o `prefix_of` s) (output c) before /\
            forall n, exists st', dispatch st (Ready i EPOLLOUT (wrote (Some n))) = Some st' /\
              conns st' !! d = Some (Peer (input c) (output c ++ [take n s])) /\ tree st' !! d = Some (EPOLLIN, i))).
Proof.
  intros Hl Hok. destruct (run_batch_inv lfd _ _ (main_start_inv lfd Hl) Hok) as (st & Hs & Hinv).
  exists st. rewrite run_concat. split; [done|]. split; [apply Hinv|]. intros d c Hc.
  destruct (inv_conns _ _ Hinv d ltac:(by eexists)) as (i & Hi & Hfd & Hz). subst d.
  destruct (inv_slot _ _ Hinv i Hi Hz) as [Ht (c' & Hc' & Hok')]. rewrite Hc in Hc'. injection Hc' as <-.
  exists i, (events (get st i)). split; [done|]. split; [done|].
  destruct Hok' as [(Hev & _ & Hf)|(Hev & Hcb & before & Hd & Hf)]; [by left|right].
  split; [done|]. exists before, (pending (get st i)). split; [done|]. split; [done|]. intros n.
  unfold dispatch. cbn. rewrite Hev, Hcb. cbn. eexists. split; [done|]. cbn.
  unfold ctl_mod. by rewrite !lookup_alter_eq, Hc, Ht.
Qed.

(** ** A full table *)

Definition no_accept (st : reactor) : Prop := forall i, call_back (get st i) <> initAccept_cb.

Lemma get_store_cases i x st j : get (store i x st) j = get st j \/ get (store i x st) j = x.
Proof.
  destruct (decide (i < length (myevents st))) as [Hi|Hi].
  - rewrite get_store by done. case_decide; auto.
  - left. unfold get, store. cbn. by rewrite list_insert_ge by lia.
Qed.

Lemma no_accept_store i x st : no_accept st -> call_back x <> initAccept_cb -> no_accept (store i x st).
Proof. intros H Hx j. destruct (get_store_cases i x st j) as [->| ->]; [apply H|done]. Qed.

Lemma no_accept_dispatch st r st' : no_accept st -> dispatch st r = Some st' -> no_accept st' /\ dom (conns st') ⊆ dom (conns st).
Proof.
  intros H. unfold dispatch. destruct (_ =? 0)%Z; [by intros [= <-]|].
  assert (Hi : call_back (get st (ptr r)) <> initAccept_cb) by apply H.
  destruct (call_back _) eqn:Hcb, (answer r) as [d|s|n]; try done; intros [= <-].
  - destruct s as [[|a s]|]; cbn [read_data].
    + split; [|set_solver]. apply (no_accept_store (ptr r) zero_xevent (Close (fd (get st (ptr r))) (store _ _ st))); [|done].
      apply (no_accept_store (ptr r) (set_buflen 0 (get st (ptr r))) st); [done|]. cbn. by rewrite Hcb.
    + split; [|cbn; by rewrite dom_alter_L]. unfold event_set. apply (no_accept_store (ptr r)); [|done].
      apply (no_accept_store (ptr r) (fill (a :: s) (get st (ptr r))) st); [done|]. cbn. by rewrite Hcb.
    + split; [|done]. apply no_accept_store; [done|]. cbn. by rewrite Hcb.
  - split; [|cbn; by rewrite dom_alter_L]. unfold send_data, event_set. by apply (no_accept_store (ptr r)).
Qed.

(** With all entries in use the next client takes the one of the listening socket:
    no event has the callback that accepts any more, and no client is ever added. *)
Theorem full_table lfd st cfd rs st' :
  inv lfd st -> ~ room st -> run_batch (initAccept cfd st) rs = Some st' -> dom (conns st') ⊆ {[cfd]} ∪ dom (conns st).
Proof.
  intros Hinv Hfull Hrun. assert (Hno : no_accept (initAccept cfd st)).
  { unfold initAccept. destruct (free_from_spec EVENT_SIZE 0 (connect cfd st)) as (H1 & H2 & _).
    assert (Hi : free_from EVENT_SIZE 0 (connect cfd st) = EVENT_SIZE).
    { destruct (decide (free_from EVENT_SIZE 0 (connect cfd st) < EVENT_SIZE)) as [Hlt|]; [|lia].
      destruct Hfull. eexists. split; [exact Hlt|]. by apply H2. }
    rewrite Hi. intros j. change (get _ j) with (get (store EVENT_SIZE (assign cfd EPOLLIN read_data_cb (get st EVENT_SIZE)) st) j).
    rewrite get_store by (rewrite (inv_length _ _ Hinv); lia). case_decide as Hj; [done|].
    destruct (decide (EVENT_SIZE < j)) as [Hgt|Hle].
    - unfold get. rewrite lookup_ge_None_2; [done|]. rewrite (inv_length _ _ Hinv). lia.
    - assert (Hz : fd (get st j) <> 0) by (intros Hz; apply Hfull; exists j; split; [lia|done]).
      destruct (inv_slot _ _ Hinv j ltac:(lia) Hz) as [_ (c & _ & [(_ & Hcb & _)|(_ & Hcb & _)])]; by rewrite Hcb. }
  assert (Hdom : dom (conns (initAccept cfd st)) = {[cfd]} ∪ dom (conns st)) by (cbn; by rewrite dom_insert_L).
  rewrite <- Hdom. clear Hdom Hinv Hfull. revert Hno Hrun. generalize (initAccept cfd st). induction rs as [|r rs IH]; intros s Hno.
  - by intros [= <-].
  - rewrite run_batch_cons. destruct (dispatch s r) as [s1|] eqn:Hs; [|done]. cbn.
    destruct (no_accept_dispatch s r s1 Hno Hs) as [Hno1 Hsub]. intros Hrun. specialize (IH s1 Hno1 Hrun). set_solver.
Qed.

(** ** Examples *)

Definition accepts (d : nat) : ready := Ready EVENT_SIZE EPOLLIN (accepted d).
Definition two_clients : list (list ready) :=
  [[accepts 5]; [accepts 6; Ready 0 EPOLLIN (got (Some (lit "hello")))]; [Ready 1 EPOLLIN (got (Some (lit "xy")))]].

Definition after (st : reactor) (r : ready) : reactor := default st (dispatch st r).

Lemma batch_ok_after st r rs :
  reported st r -> (call_back (get st (ptr r)) = initAccept_cb -> room st) -> batch_ok (after st r) rs -> batch_ok st (r :: rs).
Proof. intros H1 H2 H3. split; [done|]. split; [done|]. intros st' Hs. unfold after in H3. by rewrite Hs in H3. Qed.

Lemma room_at st i : (i <? EVENT_SIZE)%nat = true -> fd (get st i) = 0 -> room st.
Proof. intros Hi Hz. exists i. split; [by apply Nat.ltb_lt|done]. Qed.

Lemma two_clients_reported : batch_ok (main_start 3) (concat two_clients).
Proof.
  cbn [two_clients concat app]. apply batch_ok_after.
  { split; [exists 3, EPOLLIN|]; vm_compute; by repeat split. }
  { intros _. by apply (room_at _ 0); vm_compute. }
  apply batch_ok_after.
  { split; [exists 3, EPOLLIN|]; vm_compute; by repeat split. }
  { intros _. by apply (room_at _ 1); vm_compute. }
  apply batch_ok_after.
  { split; [exists 5, EPOLLIN|]; vm_compute; [by repeat split|lia]. }
  { intros H. by vm_compute in H. }
  apply batch_ok_after.
  { split; [exists 6, EPOLLIN|]; vm_compute; [by repeat split|lia]. }
  { intros H. by vm_compute in H. }
  done.
Qed.

(** Both wait for their own messages. *)
Lemma simple_reactor_echo_witness : exists st,
  run (main_start 3) two_clients = Some st /\ Forall echoed (gone st) /\
  conns st !! 5 = Some (Peer [lit "hello"] []) /\
  exists st', dispatch st (Ready 0 EPOLLOUT (wrote (Some 5))) = Some st' /\ conns st' !! 5 = Some (Peer [lit "hello"] [lit "hello"]).
Proof.
  destruct (simple_reactor_echo 3 two_clients ltac:(lia) two_clients_reported) as (st & Hs & Hg & Hc). exists st.
  assert (Hst : st = default (main_start 3) (run (main_start 3) two_clients)) by by rewrite Hs.
  assert (H5 : conns st !! 5 = Some (Peer [lit "hello"] [])) by (rewrite Hst; vm_compute; reflexivity).
  split; [done|]. split; [done|]. split; [done|]. destruct (Hc 5 _ H5) as (i & evs & Ht & _ & Hcase).
  assert (H5t : tree st !! 5 = Some (EPOLLOUT, 0)) by (rewrite Hst; vm_compute; reflexivity).
  rewrite H5t in Ht. injection Ht as <- <-.
  destruct Hcase as [[? _]|(_ & before & s & Hin & _ & Hsend)]; [done|].
  destruct (Hsend 5) as (st' & Hd & Hp & _). exists st'. split; [done|]. rewrite Hp.
  destruct before as [|? [|]]; [|done|done]. injection Hin as <-. reflexivity.
Defined.

(** With every entry in use the next client takes the one of the listening socket. *)
Lemma table_overflow :
  let full := Reactor (replicate EVENT_SIZE (XEvent 5 EPOLLIN read_data_cb [] 0) ++ [XEvent 3 EPOLLIN initAccept_cb [] 0])
                {[3 := (EPOLLIN, EVENT_SIZE)]} ∅ [] in
  (st ← dispatch full (accepts 2000); Some (fd (get st EVENT_SIZE), call_back (get st EVENT_SIZE))) = Some (2000, read_data_cb).
Proof. vm_compute. reflexivity. Qed.
