(* ===== verification/EdgeTrigger.v ===== *)
(** * EdgeTrigger: reading on edges

    Models the three programs of [Linux_Net/concurrent/moreIO_concurrent/epoll_ET_LT]
    that wait for their input with [EPOLLET]: [1-epoll/epoll.c] and
    [2-block_epoll/server.c] read five bytes for each event, and
    [3-noblock_epoll/server.c] reads until there is nothing left. The other end
    ([epoll.c] and the two [client.c]) writes two lines at a time. Setting up the
    pipe or the connection is left out.

    A pipe or connection holds [room] bytes; a write waits until there is room for
    it. [epoll_wait] returns once for what has arrived since it last did. *)
From S2P Require Import Prelude.

Definition MAXLINE : nat := 10.

(** One turn of the writer, with the value of [ch] before it. *)
Definition two_lines (ch : ascii) : str :=
  replicate (MAXLINE / 2 - 1) ch ++ [LF] ++ replicate (MAXLINE / 2 - 1) (to_char (schar ch + 1)) ++ [LF].

(** [ch] of the writer and what it has written; what is not read yet, whether
    [epoll_wait] has something to return, whether the reader is about to read, and
    what it has printed. *)
Record pipe := Pipe { ch : ascii; sent : str; unread : str; edge : bool; busy : bool; printed : str }.

Definition start : pipe := Pipe "a" [] [] false false [].

Inductive label := writer | epoll_wait | reader.
#[export] Instance label_eq_dec : EqDecision label.
Proof. solve_decision. Defined.

(** A step of the writer, [epoll_wait] returning, and [read] with [write] to the
    terminal. With [again] the reader goes on until [read] has nothing to return;
    otherwise it reads once, which waits for something to read. *)
Definition step (again : bool) (room : nat) (l : label) (p : pipe) : option pipe :=
  match l with
  | writer =>
      let s := two_lines (ch p) in
      if (length (unread p) + length s <=? room)%nat then
        Some (Pipe (to_char (schar (ch p) + 2)) (sent p ++ s) (unread p ++ s) true (busy p) (printed p))
      else None
  | epoll_wait =>
      if edge p && negb (busy p) then Some (Pipe (ch p) (sent p) (unread p) false true (printed p)) else None
  | reader =>
      if busy p then
        match unread p with
        | [] => if again then Some (Pipe (ch p) (sent p) [] (edge p) false (printed p)) else None
        | _ => Some (Pipe (ch p) (sent p) (drop (MAXLINE / 2) (unread p)) (edge p) again (printed p ++ take (MAXLINE / 2) (unread p)))
        end
      else None
  end.

Fixpoint run (again : bool) (room : nat) (ls : list label) (p : pipe) : option pipe :=
  match ls with
  | [] => Some p
  | l :: ls' => p' ← step again room l p; run again room ls' p'
  end.

(** ** Nothing is lost or reordered *)

Lemma two_lines_length c : length (two_lines c) = MAXLINE.
Proof. done. Qed.

Lemma step_order again room l p p' : step again room l p = Some p' -> printed p ++ unread p = sent p -> printed p' ++ unread p' = sent p'.
Proof.
  destruct l; cbn [step]; intros Hs Hp.
  - case_match; [|done]. injection Hs as <-. cbn. by rewrite app_assoc, Hp.
  - case_match; [|done]. by injection Hs as <-.
  - destruct (busy p); [|done]. destruct (unread p) as [|c s] eqn:Hu.
    + destruct again; [|done]. by injection Hs as <-.
    + injection Hs as <-. cbn [printed unread sent]. rewrite <- Hp, <- app_assoc. cbn. by rewrite take_drop.
Qed.

Lemma run_order again room ls p p' : run again room ls p = Some p' -> printed p ++ unread p = sent p -> printed p' ++ unread p' = sent p'.
Proof.
  revert p. induction ls as [|l ls IH]; intros p; cbn [run]; [by intros [= ->]|].
  destruct (step again room l p) as [q|] eqn:Hs; [|done]. intros Hr Hp. eapply IH; [done|]. by eapply step_order.
Qed.

(** ** One read for each event *)

Definition count (l : label) (ls : list label) : nat := length (filter (fun x => x = l) ls).

Lemma count_cons l x ls : count l (x :: ls) = (if decide (x = l) then 1 else 0) + count l ls.
Proof. unfold count. rewrite filter_cons. by case_decide. Qed.

Lemma length_counts ls : length ls = count writer ls + count epoll_wait ls + count reader ls.
Proof.
  induction ls as [|x ls IH]; [done|]. rewrite !count_cons. cbn [length]. rewrite IH.
  destruct x; repeat case_decide; done || lia.
Qed.

#[local] Arguments count : simpl never.

Definition b2n (b : bool) : nat := if b then 1 else 0.

(** What a run of the reader that reads once has done: an event for a write, a read
    for an event, at most five bytes for a read. *)
Record lag (room : nat) (ls : list label) (p p' : pipe) : Prop := {
  lag_waits : count epoll_wait ls + b2n (edge p') <= count writer ls + b2n (edge p);
  lag_reads : count reader ls + b2n (busy p') = count epoll_wait ls + b2n (busy p);
  lag_printed : length (printed p') <= length (printed p) + 5 * count reader ls;
  lag_sent : length (sent p') = length (sent p) + 10 * count writer ls;
  lag_room : length (unread p) <= room -> length (unread p') <= room }.

Lemma run_lag room ls p p' : run false room ls p = Some p' -> lag room ls p p'.
Proof.
  revert p. induction ls as [|l ls IH]; intros p; cbn [run].
  { intros [= <-]. constructor; unfold count; cbn; lia. }
  destruct (step false room l p) as [p1|] eqn:Hs; [|done]. intros Hr. destruct (IH p1 Hr) as [H1 H2 H3 H4 H5].
  destruct l; cbn [step] in Hs.
  - destruct (Nat.leb_spec (length (unread p) + length (two_lines (ch p))) room) as [Hroom|]; [|done]. injection Hs as <-.
    rewrite two_lines_length in Hroom. cbn [edge busy sent unread printed b2n] in *. rewrite !length_app, two_lines_length in *.
    unfold MAXLINE in *. destruct (edge p); cbn [b2n] in *; constructor; rewrite ?count_cons; repeat case_decide; done || lia.
  - destruct (edge p) eqn:He, (busy p) eqn:Hb; try done. injection Hs as <-. cbn [edge busy sent unread printed b2n] in *.
    constructor; rewrite ?count_cons, ?He, ?Hb; cbn [b2n]; repeat case_decide; done || lia.
  - destruct (busy p) eqn:Hb; [|done]. destruct (unread p) as [|c s] eqn:Hu; [done|]. injection Hs as <-.
    cbn [edge busy sent unread printed b2n] in *.
    assert (length (printed p ++ c :: take 4 s) <= length (printed p) + 5) by (rewrite length_app; cbn; rewrite length_take; lia).
    assert (length (drop 4 s) <= length (c :: s)) by (rewrite length_drop; cbn; lia).
    constructor; rewrite ?count_cons, ?Hb, ?Hu; cbn [b2n]; repeat case_decide; done || lia.
Qed.

(** [1-epoll/epoll.c] and [2-block_epoll]: an event is for an edge, not for what
    is left to read, and the reader takes five of the ten bytes that come with each.
    So in every run of any length what is printed is at most half of what was
    written, in order; and once the pipe is full nobody goes on: a run has at most
    three steps for every five bytes of room, whatever the schedule. *)
Theorem edge_lag room ls p :
  run false room ls start = Some p ->
  printed p `prefix_of` sent p /\ 2 * length (printed p) <= length (sent p) /\ 5 * length ls <= 3 * room.
Proof.
  intros Hr. pose proof (run_order _ _ _ _ _ Hr eq_refl) as Ho.
  destruct (run_lag room ls start p Hr) as [H1 H2 H3 H4 H5]. cbn in H1, H2, H3, H4, H5.
  split; [by eexists|]. pose proof (f_equal length Ho) as Hl. rewrite length_app in Hl.
  split; [lia|]. rewrite length_counts. lia.
Qed.

(** ** Reading until nothing is left *)

(** Nothing is left without an event or a reader to come for it. *)
Definition awaited (p : pipe) : Prop := edge p = false -> busy p = false -> unread p = [].

Lemma step_awaited room l p p' : step true room l p = Some p' -> awaited p -> awaited p'.
Proof.
  unfold awaited. destruct l; cbn [step]; intros Hs Hp.
  - case_match; [|done]. by injection Hs as <-.
  - destruct (edge p), (busy p); try done. by injection Hs as <-.
  - destruct (busy p); [|done]. destruct (unread p); by injection Hs as <-.
Qed.

Lemma run_awaited room ls p p' : run true room ls p = Some p' -> awaited p -> awaited p'.
Proof.
  revert p. induction ls as [|l ls IH]; intros p; cbn [run]; [by intros [= ->]|].
  destruct (step true room l p) as [q|] eqn:Hs; [|done]. intros Hr Hp. eapply IH; [done|]. by eapply step_awaited.
Qed.

Definition left_to_do (p : pipe) : nat := length (unread p) + 2 * b2n (edge p) + b2n (busy p).

Lemma step_left room l p p' : l <> writer -> step true room l p = Some p' -> left_to_do p' < left_to_do p /\ sent p' = sent p.
Proof.
  unfold left_to_do. destruct l; cbn [step]; intros Hl Hs; [done|..].
  - destruct (edge p), (busy p); try done. injection Hs as <-. cbn. split; [lia|done].
  - destruct (busy p); [|done]. destruct (unread p) as [|c s]; injection Hs as <-; cbn [unread edge busy b2n sent]; [cbn; split; [lia|done]|].
    split; [|done]. assert (length (drop 4 s) <= length s) by (rewrite length_drop; lia).
    change (length (drop (MAXLINE / 2) (c :: s))) with (length (drop 4 s)). cbn [length]. lia.
Qed.

(** [3-noblock_epoll/server.c]: reading until nothing is left makes up for the
    edges. Someone can always go on, and while the writer pauses the reader comes to
    wait again after a number of steps bounded by what was left to read, when it
    has printed all that was written. *)
Theorem noblock_prints room before p :
  run true room before start = Some p ->
  (MAXLINE <= room -> exists l, is_Some (step true room l p)) /\
  forall ls p', run true room ls p = Some p' -> writer ∉ ls ->
    length ls <= left_to_do p /\
    (step true room epoll_wait p' = None -> step true room reader p' = None -> printed p' = sent p).
Proof.
  intros Hp. pose proof (run_order _ _ _ _ _ Hp eq_refl) as Ho.
  assert (Ha : awaited p) by (by apply (run_awaited _ _ _ _ Hp)). split.
  - intros Hroom. destruct (busy p) eqn:Hb; [exists reader; cbn; rewrite Hb; by destruct (unread p)|].
    destruct (edge p) eqn:He; [exists epoll_wait; cbn; by rewrite He, Hb|].
    exists writer. cbn [step]. rewrite (Ha He Hb), two_lines_length. cbn [length]. rewrite (proj2 (Nat.leb_le _ _)); [done|lia].
  - clear Hp. intros ls. revert p Ho Ha. induction ls as [|l ls IH]; intros p Ho Ha p'; cbn [run].
    + intros [= <-] _. split; [cbn; lia|]. cbn [step]. intros Hw Hr.
      destruct (busy p) eqn:Hb; [by destruct (unread p)|]. destruct (edge p) eqn:He; [done|].
      by rewrite <- Ho, (Ha He Hb), app_nil_r.
    + destruct (step true room l p) as [q|] eqn:Hs; [|done]. intros Hr [Hl Hls]%not_elem_of_cons.
      destruct (step_left room l p q ltac:(congruence) Hs) as [Hlt Hsent].
      destruct (IH q ltac:(by eapply step_order) ltac:(by eapply step_awaited) p' Hr Hls) as [H1 H2].
      rewrite Hsent in H2. split; [cbn; lia|done].
Qed.

(** ** Examples *)

Definition two_turns : list label := [writer; epoll_wait; reader; writer; epoll_wait; reader].

(** Four lines are written and two printed. *)
Lemma edge_lag_witness : exists p,
  run false 64 two_turns start = Some p /\ printed p = lit "aaaa" ++ [LF] ++ lit "bbbb" ++ [LF] /\
  2 * length (printed p) <= length (sent p).
Proof.
  destruct (run false 64 two_turns start) as [p|] eqn:Hr; [|by vm_compute in Hr]. exists p. split; [done|].
  split; [vm_compute in Hr; injection Hr as <-; reflexivity|]. by apply (edge_lag 64 two_turns p Hr).
Defined.

(** A full pipe: no one goes on. *)
Lemma full_pipe :
  let turn := [writer; epoll_wait; reader] in
  match run false 24 (turn ++ turn ++ turn) start with
  | Some p => forall l, step false 24 l p = None
  | None => False
  end.
Proof. vm_compute. by intros []. Qed.

Lemma noblock_prints_witness : exists p p',
  run true 64 [writer; epoll_wait] start = Some p /\ run true 64 [reader; reader; reader] p = Some p' /\ printed p' = sent p.
Proof.
  destruct (run true 64 [writer; epoll_wait] start) as [p|] eqn:Hp; [|by vm_compute in Hp].
  destruct (run true 64 [reader; reader; reader] p) as [p'|] eqn:Hp'; [|vm_compute in Hp; injection Hp as <-; by vm_compute in Hp'].
  exists p, p'. split; [done|]. split; [done|]. destruct (noblock_prints 64 _ p Hp) as [_ H].
  apply (H _ p' Hp'); [by apply (bool_decide_eq_true_1 (writer ∉ _)); vm_compute|..];
    vm_compute in Hp; injection Hp as <-; vm_compute in Hp'; injection Hp' as <-; reflexivity.
Defined.
