(* ===== verification/ConcurrentServers.v ===== *)
(** * ConcurrentServers: a process or a thread for each connection

    Models [server.c] of [Linux_Net/concurrent/mult_process_concurrent] and
    [mult_thread_concurrent], which send back in upper case what they receive.
    Creating the listening socket is left out.

    What a worker makes of an answer of [Read] is [respond] of [Multiplex]: the
    bytes are sent back, of which some arrive; the end of the stream ends the
    worker; after an error the length -1 reaches [Write], which refuses it, and the
    loop goes on. *)
From S2P Require Import Prelude.
From S2P Require Import Multiplex.

(** ** A process for each connection *)

Module Processes.

(** A child that has exited is a zombie until it is waited for. *)
Inductive status := running | zombie | reaped.
#[export] Instance status_eq_dec : EqDecision status.
Proof. solve_decision. Defined.

(** A child: its connection and the descriptors it has open. *)
Record child := Child { sock : nat; fds : gset nat; dialogue : conn; state : status }.

(** Where the parent is: in [Accept], after it, after [fork]. *)
Inductive place := at_accept | at_fork (connfd : nat) | at_close (connfd : nat).

(** The parent with its open descriptors, its children, whether SIGCHLD is pending
    (signals of one kind are not counted). *)
Record processes := Processes_ { parent : place; parent_fds : gset nat; children : list child; sigchld : bool }.

Definition p_start (listenfd : nat) : processes := Processes_ at_accept {[listenfd]} [] false.

Definition reap (c : child) : child :=
  match state c with zombie => Child (sock c) (fds c) (dialogue c) reaped | _ => c end.

(** What happens next: the parent's calls with what they give, a turn of the loop
    of child [k], the signal handler. *)
Inductive p_event :=
  | accepts (connfd : nat) | forks (ok : bool) | closes
  | works (k : nat) (a : answer)
  | do_sigchild.

(** [fork]: the child has the parent's descriptors and closes the listening one. *)
Definition new_child (listenfd connfd : nat) (p : processes) : child :=
  Child connfd (parent_fds p ∖ {[listenfd]}) (Conn [] []) running.

Definition work (a : answer) (c : child) : child * bool :=
  match respond false a (dialogue c) with
  | Some d => (Child (sock c) (fds c) d (state c), false)
  | None => (Child (sock c) (fds c ∖ {[sock c]}) (dialogue c) zombie, true)
  end.

Definition p_step (listenfd : nat) (e : p_event) (p : processes) : option (outcome processes) :=
  match e, parent p with
  | accepts connfd, at_accept =>
      Some (returns (Processes_ (at_fork connfd) ({[connfd]} ∪ parent_fds p) (children p) (sigchld p)))
  | forks true, at_fork connfd =>
      Some (returns (Processes_ (at_close connfd) (parent_fds p) (children p ++ [new_child listenfd connfd p]) (sigchld p)))
  | forks false, at_fork _ => Some WrapIO.perr_exit
  | closes, at_close connfd =>
      Some (returns (Processes_ at_accept (parent_fds p ∖ {[connfd]}) (children p) (sigchld p)))
  | works k a, _ =>
      c ← children p !! k;
      if decide (state c = running) then
        let '(c', exited) := work a c in
        Some (returns (Processes_ (parent p) (parent_fds p) (<[k := c']> (children p)) (sigchld p || exited)))
      else None
  | do_sigchild, _ =>
      if sigchld p then Some (returns (Processes_ (parent p) (parent_fds p) (reap <$> children p) false)) else None
  | _, _ => None
  end.

Fixpoint p_run (listenfd : nat) (es : list p_event) (p : processes) : option (outcome processes) :=
  match es with
  | [] => Some (returns p)
  | e :: es' =>
      o ← p_step listenfd e p;
      match o with returns p' => p_run listenfd es' p' | _ => Some o end
  end.

End Processes.

(** ** A thread for each connection *)

Module Threads.

Definition MAX_THREADS : nat := 256.

(** The array [ts], of which the first [used] entries are set; the entry each
    thread works on and whether it has ended; the open connections. *)
Record threads := Threads_ { ts : list nat; entry : list (nat * bool); open : gmap nat conn; closed : list conn }.

Definition t_start : threads := Threads_ [] [] ∅ [].

(** [Accept] returns; the thread is created or not ([pthread_detach] of a thread
    that was not created is undefined, and so is the entry past the last); a turn
    of the loop of thread [k]. *)
Inductive t_event := accepts (connfd : nat) (created : bool) | works (k : nat) (a : answer).

Definition t_step (e : t_event) (p : threads) : option (outcome threads) :=
  match e with
  | accepts connfd created =>
      if (length (ts p) <? MAX_THREADS)%nat && created then
        Some (returns (Threads_ (ts p ++ [connfd]) (entry p ++ [(length (ts p), true)]) (<[connfd := Conn [] []]> (open p)) (closed p)))
      else Some undefined
  | works k a =>
      '(i, running) ← entry p !! k;
      if running : bool then
        connfd ← ts p !! i;
        match open p !! connfd with
        | None => Some undefined (* another thread has closed it *)
        | Some c =>
            Some (returns match respond false a c with
                          | Some c' => Threads_ (ts p) (entry p) (<[connfd := c']> (open p)) (closed p)
                          | None => Threads_ (ts p) (<[k := (i, false)]> (entry p)) (delete connfd (open p)) (closed p ++ [c])
                          end)
        end
      else None
  end.

Fixpoint t_run (es : list t_event) (p : threads) : option (outcome threads) :=
  match es with
  | [] => Some (returns p)
  | e :: es' =>
      o ← t_step e p;
      match o with returns p' => t_run es' p' | _ => Some o end
  end.

End Threads.

(** ** Processes *)

Section processes.
Import Processes.
Context (listenfd : nat).

(** [accept] returns a descriptor that the parent does not have. *)
Fixpoint p_fresh (es : list p_event) (p : processes) : Prop :=
  match es with
  | [] => True
  | e :: es' =>
      match e with accepts connfd => connfd ∉ parent_fds p | _ => True end /\
      forall p', p_step listenfd e p = Some (returns p') -> p_fresh es' p'
  end.

Definition child_ok (c : child) : Prop :=
  conn_ok (dialogue c) /\ fds c = (if decide (state c = running) then {[sock c]} else ∅).

Record p_inv (p : processes) : Prop := {
  pi_parent : match parent p with
              | at_accept => parent_fds p = {[listenfd]}
              | at_fork fd | at_close fd => fd <> listenfd /\ parent_fds p = {[fd; listenfd]}
              end;
  pi_children : Forall child_ok (children p);
  pi_zombies : sigchld p = false -> Forall (fun c => state c <> zombie) (children p) }.

Lemma work_ok a c : child_ok c -> state c = running -> let '(c', exited) := work a c in
  child_ok c' /\ (exited = false -> state c' <> zombie).
Proof.
  intros [Hd Hf] Hr. unfold work. rewrite decide_True in Hf by done. destruct a as [s n| | |]; cbn.
  - split; [|by rewrite Hr]. split; [|cbn; by rewrite decide_True]. by apply talk_ok.
  - split; [|done]. split; [done|]. cbn. rewrite Hf. set_solver.
  - split; [|by rewrite Hr]. split; [done|]. cbn. by rewrite decide_True.
  - split; [|by rewrite Hr]. split; [done|]. cbn. by rewrite decide_True.
Qed.

Lemma reap_ok c : child_ok c -> child_ok (reap c) /\ state (reap c) <> zombie.
Proof. intros [Hd Hf]. unfold reap. destruct (state c) eqn:Hs; (split; [split; [done|cbn; by rewrite ?Hs]|cbn; by rewrite ?Hs]). Qed.

Lemma p_step_inv e p p' :
  p_inv p -> match e with accepts connfd => connfd ∉ parent_fds p | _ => True end ->
  p_step listenfd e p = Some (returns p') -> p_inv p'.
Proof.
  intros [Hp Hc Hz] Hfresh. destruct e as [fd|[]| |k a|]; cbn [p_step].
  - destruct (parent p); [|done..]. intros [= <-]. rewrite Hp in *. split; [|done|done].
    cbn. split; [set_solver|done].
  - destruct (parent p) as [|fd|]; [done| |done]. intros [= <-]. destruct Hp as [Hne Hp]. split; [by split| |].
    + cbn. apply Forall_app. split; [done|]. apply Forall_singleton. split; [constructor|]. cbn. rewrite Hp. set_solver.
    + cbn. intros Hs. apply Forall_app. split; [by apply Hz|]. by apply Forall_singleton.
  - by destruct (parent p).
  - destruct (parent p) as [| |fd]; [done..|]. intros [= <-]. destruct Hp as [Hne Hp]. split; [|done|done].
    cbn. rewrite Hp. set_solver.
  - destruct (children p !! k) as [c|] eqn:Hk; cbn; [|by destruct (parent p)].
    assert (Hok : child_ok c) by (eapply Forall_lookup_1; eauto).
    assert (Hgoal : (if decide (state c = running) then let '(c', exited) := work a c in
        Some (returns (Processes_ (parent p) (parent_fds p) (<[k:=c']> (children p)) (sigchld p || exited))) else None)
        = Some (returns p') -> p_inv p').
    { case_decide as Hr; [|done]. pose proof (work_ok a c Hok Hr) as Hw. destruct (work a c) as [c' exited].
      destruct Hw as [Hw1 Hw2]. intros [= <-]. split; [done|by apply Forall_insert|]. cbn.
      intros [Hs He]%orb_false_iff. apply Forall_insert; auto. }
    by destruct (parent p).
  - assert (Hgoal : (if sigchld p then Some (returns (Processes_ (parent p) (parent_fds p) (reap <$> children p) false)) else None)
        = Some (returns p') -> p_inv p').
    { destruct (sigchld p); [|done]. intros [= <-]. split; [done|..]; cbn; intros; apply Forall_fmap;
        (eapply Forall_impl; [exact Hc|]); intros c Hok; by apply reap_ok. }
    by destruct (parent p).
Qed.

Lemma p_run_inv es p p' : p_inv p -> p_fresh es p -> p_run listenfd es p = Some (returns p') -> p_inv p'.
Proof.
  revert p. induction es as [|e es IH]; intros p Hp; cbn [p_run]; [by intros _ [= <-]|]. intros [He Hes].
  destruct (p_step listenfd e p) as [[p1|c|]|] eqn:Hs; try done. cbn. apply IH; [by eapply p_step_inv|by apply Hes].
Qed.

End processes.

(** [mult_process_concurrent/server.c], in every interleaving of the parent, the
    children and the signals: while it waits the parent has the listening socket
    open only, and each child nothing but its connection as long as it runs, so
    that the end of the child closes it; what each child has sent back is, message
    by message, the beginning in upper case of what it received; and there are no
    zombies but while SIGCHLD is pending, whose handler leaves none, although the
    signals of several children are one. *)
Theorem process_server listenfd es p :
  p_fresh listenfd es (Processes.p_start listenfd) -> Processes.p_run listenfd es (Processes.p_start listenfd) = Some (returns p) ->
  (Processes.parent p = Processes.at_accept -> Processes.parent_fds p = {[listenfd]}) /\
  Forall child_ok (Processes.children p) /\
  (forall c, c ∈ Processes.children p -> Processes.state c = Processes.zombie -> exists p',
     Processes.p_step listenfd Processes.do_sigchild p = Some (returns p') /\
     Forall (fun c => Processes.state c <> Processes.zombie) (Processes.children p')).
Proof.
  intros Hf Hr. apply (p_run_inv listenfd es) in Hr; [|by split|done]. pose proof Hr as [Hp Hc Hz]. split_and!; [|done|].
  - intros He. by rewrite He in Hp.
  - intros c Hin Hs. destruct (Processes.sigchld p) eqn:Hsig.
    + assert (Hstep : exists p', Processes.p_step listenfd Processes.do_sigchild p = Some (returns p') /\ Processes.sigchld p' = false)
        by (cbn; rewrite Hsig; destruct (Processes.parent p); by eexists).
      destruct Hstep as (p' & Hstep & Hs'). exists p'. split; [done|].
      apply (pi_zombies listenfd p'); [|done]. by apply (p_step_inv listenfd Processes.do_sigchild p p').
    + specialize (Hz eq_refl). rewrite Forall_forall in Hz. by destruct (Hz c Hin).
Qed.

(** ** Threads *)

Section threads.
Import Threads.

Fixpoint t_fresh (es : list t_event) (p : threads) : Prop :=
  match es with
  | [] => True
  | e :: es' =>
      match e with accepts connfd _ => open p !! connfd = None | _ => True end /\
      forall p', t_step e p = Some (returns p') -> t_fresh es' p'
  end.

(** Thread [k] works on entry [k]; the running threads have the open connections,
    one each. *)
Record t_inv (p : threads) : Prop := {
  ti_length : length (ts p) = length (entry p) /\ length (ts p) <= MAX_THREADS;
  ti_entry : forall k i b, entry p !! k = Some (i, b) -> i = k;
  ti_open : forall k, entry p !! k = Some (k, true) -> exists fd c, ts p !! k = Some fd /\ open p !! fd = Some c;
  ti_own : forall j k fd, entry p !! j = Some (j, true) -> entry p !! k = Some (k, true) -> ts p !! j = Some fd -> ts p !! k = Some fd -> j = k;
  ti_served : forall fd c, open p !! fd = Some c -> conn_ok c /\ exists k, entry p !! k = Some (k, true) /\ ts p !! k = Some fd;
  ti_closed : Forall conn_ok (closed p) }.

Lemma t_accept_inv fd p : t_inv p -> length (ts p) < MAX_THREADS -> open p !! fd = None ->
  t_inv (Threads_ (ts p ++ [fd]) (entry p ++ [(length (ts p), true)]) (<[fd := Conn [] []]> (open p)) (closed p)).
Proof.
  intros [[Hlen Hmax] He Ho Hown Hs Hc] Hlt Hfree.
  assert (Hent : forall k i b, (entry p ++ [(length (ts p), true)]) !! k = Some (i, b) ->
    k = length (ts p) /\ i = k /\ b = true \/ k < length (ts p) /\ entry p !! k = Some (i, b)).
  { intros k i b [Hk|[Hk Hk']]%lookup_app_Some; [right; split; [apply lookup_lt_Some in Hk; lia|done]|left].
    apply list_lookup_singleton_Some in Hk' as [Hk' [= <- <-]]. lia. }
  assert (Hts : forall k, k < length (ts p) -> (ts p ++ [fd]) !! k = ts p !! k) by (intros; by apply lookup_app_l).
  assert (Hnew : (ts p ++ [fd]) !! length (ts p) = Some fd) by by apply list_lookup_middle.
  assert (Hold : forall k, entry p !! k = Some (k, true) -> ts p !! k <> Some fd).
  { intros k Hk Hfd. destruct (Ho k Hk) as (fd' & c & Hfd' & Hc'). rewrite Hfd in Hfd'. injection Hfd' as <-. congruence. }
  constructor; cbn.
  - rewrite !length_app. cbn. lia.
  - intros k i b [(-> & -> & _)|[_ Hk]]%Hent; [done|eauto].
  - intros k [(-> & _ & _)|[Hk Hk']]%Hent.
    + exists fd, (Conn [] []). by rewrite Hnew, lookup_insert_eq.
    + destruct (Ho k Hk') as (fd' & c & Hfd' & Hc'). exists fd', c. rewrite Hts, lookup_insert_ne by (done || congruence). done.
  - intros j k d [(-> & _ & _)|[Hj Hj']]%Hent [(-> & _ & _)|[Hk Hk']]%Hent; [done|..].
    + rewrite Hnew, Hts by done. intros [= <-] Hd. by destruct (Hold k Hk').
    + rewrite Hnew, Hts by done. intros Hd [= <-]. by destruct (Hold j Hj').
    + rewrite !Hts by done. eauto.
  - intros d c [[<- <-]|[Hd Hdc]]%lookup_insert_Some.
    + split; [constructor|]. exists (length (ts p)). split; [|done]. rewrite Hlen. by apply list_lookup_middle.
    + destruct (Hs d c Hdc) as [Hok (k & Hk & Hkd)]. split; [done|]. exists k.
      split; [by apply lookup_app_l_Some|]. rewrite Hts; [done|]. by apply lookup_lt_Some in Hkd.
  - done.
Qed.

Lemma t_talk_inv k fd c s n p :
  t_inv p -> entry p !! k = Some (k, true) -> ts p !! k = Some fd -> open p !! fd = Some c ->
  t_inv (Threads_ (ts p) (entry p) (<[fd := talk s n c]> (open p)) (closed p)).
Proof.
  intros [Hlen He Ho Hown Hs Hc] Hk Hfd Hopen. constructor; cbn; auto.
  - intros j Hj. destruct (Ho j Hj) as (d & c' & Hd & Hc'). destruct (decide (d = fd)) as [->|].
    + exists fd, (talk s n c). by rewrite lookup_insert_eq.
    + exists d, c'. by rewrite lookup_insert_ne.
  - intros d c' [[<- <-]|[Hd Hdc]]%lookup_insert_Some; [|by apply Hs].
    destruct (Hs fd c Hopen) as [Hok Hex]. split; [by apply talk_ok|done].
Qed.

Lemma t_close_inv k fd c p :
  t_inv p -> entry p !! k = Some (k, true) -> ts p !! k = Some fd -> open p !! fd = Some c ->
  t_inv (Threads_ (ts p) (<[k := (k, false)]> (entry p)) (delete fd (open p)) (closed p ++ [c])).
Proof.
  intros [Hlen He Ho Hown Hs Hc] Hk Hfd Hopen.
  assert (Hent : forall j i b, <[k := (k, false)]> (entry p) !! j = Some (i, b) -> j = k /\ i = k /\ b = false \/ j <> k /\ entry p !! j = Some (i, b))
    by (intros j i b [(<- & [= <- <-] & _)|[? Hj]]%list_lookup_insert_Some; auto).
  constructor; cbn.
  - by rewrite length_insert.
  - intros j i b [(-> & -> & _)|[_ Hj]]%Hent; [done|eauto].
  - intros j [(_ & _ & [=])|[Hjk Hj]]%Hent. destruct (Ho j Hj) as (d & c' & Hd & Hc'). exists d, c'. split; [done|].
    rewrite lookup_delete_ne; [done|]. intros ->. by apply Hjk, (Hown j k d).
  - intros j j' d [(_ & _ & [=])|[_ Hj]]%Hent [(_ & _ & [=])|[_ Hj']]%Hent. eauto.
  - intros d c' [Hd Hdc]%lookup_delete_Some. destruct (Hs d c' Hdc) as [Hok (j & Hj & Hjd)]. split; [done|]. exists j.
    split; [|done]. rewrite list_lookup_insert_ne; [done|]. intros ->. congruence.
  - apply Forall_app. split; [done|]. apply Forall_singleton. by apply (Hs fd).
Qed.

Lemma t_step_inv e p p' :
  t_inv p -> match e with accepts connfd _ => open p !! connfd = None | _ => True end -> t_step e p = Some (returns p') -> t_inv p'.
Proof.
  intros Hp Hf. destruct e as [fd created|k a]; cbn [t_step].
  - destruct (Nat.ltb_spec (length (ts p)) MAX_THREADS); [|done]. destruct created; [|done]. intros [= <-]. by apply t_accept_inv.
  - destruct (entry p !! k) as [[i []]|] eqn:Hk; [|done..]. cbn. pose proof (ti_entry p Hp k i true Hk) as ->.
    destruct (ti_open p Hp k Hk) as (fd & c & Hfd & Hc). rewrite Hfd. cbn. rewrite Hc. intros [= <-].
    destruct a as [s n| | |]; cbn; [by eapply t_talk_inv|by eapply t_close_inv|..];
      (rewrite insert_id by done; by destruct p).
Qed.

Lemma t_run_inv es p p' : t_inv p -> t_fresh es p -> t_run es p = Some (returns p') -> t_inv p'.
Proof.
  revert p. induction es as [|e es IH]; intros p Hp; cbn [t_run]; [by intros _ [= <-]|]. intros [He Hes].
  destruct (t_step e p) as [[p1|c|]|] eqn:Hs; try done. cbn. apply IH; [by eapply t_step_inv|by apply Hes].
Qed.

End threads.

(** C26: [mult_thread_concurrent/server.c], in every interleaving: each running thread
    has its own entry of [ts] and an open connection that no other thread has, so
    that its next turn is defined; every open connection has its thread; what is
    sent back is, message by message, the beginning in upper case of what was
    received. Accepting is defined exactly if less than 256 connections were
    accepted before, since entries are not used again, and the thread is created. *)
Theorem thread_server es p :
  t_fresh es Threads.t_start -> Threads.t_run es Threads.t_start = Some (returns p) ->
  (forall k i, Threads.entry p !! k = Some (i, true) -> exists fd c,
     Threads.ts p !! i = Some fd /\ Threads.open p !! fd = Some c /\ conn_ok c /\
     (forall a, exists p', Threads.t_step (Threads.works k a) p = Some (returns p')) /\
     (forall k' i', Threads.entry p !! k' = Some (i', true) -> Threads.ts p !! i' = Some fd -> k' = k)) /\
  (forall fd c, Threads.open p !! fd = Some c -> exists k i, Threads.entry p !! k = Some (i, true) /\ Threads.ts p !! i = Some fd) /\
  Forall conn_ok (Threads.closed p) /\
  (forall fd created, Threads.t_step (Threads.accepts fd created) p = Some undefined <-> length (Threads.ts p) = 256 \/ created = false).
Proof.
  intros Hf Hr. assert (Hinv : t_inv p).
  { apply (t_run_inv es Threads.t_start); [|done|done]. constructor; try done; cbn; unfold Threads.MAX_THREADS; lia. }
  destruct Hinv as [[Hlen Hmax] He Ho Hown Hs Hc]. split_and!; [| |done|].
  - intros k i Hk. pose proof (He k i true Hk) as ->. destruct (Ho k Hk) as (fd & c & Hfd & Hopen). exists fd, c.
    destruct (Hs fd c Hopen) as [Hok _]. split_and!; [done..| |].
    + intros a. cbn. rewrite Hk. cbn. rewrite Hfd. cbn. rewrite Hopen. by eexists.
    + intros k' i' Hk' Hfd'. pose proof (He k' i' true Hk') as ->. eauto.
  - intros fd c Hopen. destruct (Hs fd c Hopen) as [_ (k & Hk & Hfd)]. by exists k, k.
  - intros fd created. cbn [Threads.t_step]. destruct (Nat.ltb_spec (length (Threads.ts p)) Threads.MAX_THREADS) as [Hlt|Hge].
    + unfold Threads.MAX_THREADS in *. destruct created; cbn; split; try done; [intros [?|?]; [lia|done]|auto].
    + unfold Threads.MAX_THREADS in *. cbn. split; [intros _; left; lia|done].
Qed.

(** ** Examples *)

Definition two_children : list Processes.p_event :=
  [Processes.accepts 4; Processes.forks true; Processes.works 0 (Data (lit "ab") 2); Processes.closes;
   Processes.accepts 4; Processes.forks true; Processes.works 0 Eof; Processes.works 1 Eof; Processes.closes].

(** Two children end before the signal is handled once. *)
Lemma process_server_witness : exists p,
  Processes.p_run 3 two_children (Processes.p_start 3) = Some (returns p) /\
  Processes.state <$> Processes.children p = [Processes.zombie; Processes.zombie] /\ Forall child_ok (Processes.children p) /\
  exists p', Processes.p_step 3 Processes.do_sigchild p = Some (returns p') /\
    Forall (fun c => Processes.state c <> Processes.zombie) (Processes.children p').
Proof.
  destruct (Processes.p_run 3 two_children (Processes.p_start 3)) as [[p| |]|] eqn:Hr; try (by vm_compute in Hr).
  assert (Hf : p_fresh 3 two_children (Processes.p_start 3)).
  { split; [apply (bool_decide_eq_true_1 (4 ∉ _)); vm_compute; reflexivity|]. intros p1 [= <-].
    do 3 (split; [done|]; intros ? [= <-]). split; [apply (bool_decide_eq_true_1 (4 ∉ _)); vm_compute; reflexivity|].
    intros ? [= <-]. do 4 (split; [done|]; intros ? [= <-]). done. }
  destruct (process_server 3 two_children p Hf Hr) as (_ & Hc & Hz). exists p. split; [done|].
  assert (Hs : Processes.state <$> Processes.children p = [Processes.zombie; Processes.zombie])
    by (vm_compute in Hr; injection Hr as <-; reflexivity).
  split; [done|]. split; [done|].
  destruct (Processes.children p) as [|c cs] eqn:Hp; [done|]. injection Hs as Hs _. apply (Hz c); [left|done].
Defined.

Definition two_threads : list Threads.t_event :=
  [Threads.accepts 4 true; Threads.accepts 5 true; Threads.works 1 (Data (lit "ab") 2); Threads.works 0 Eof; Threads.accepts 4 true].

Lemma thread_server_witness : exists p,
  Threads.t_run two_threads Threads.t_start = Some (returns p) /\ Threads.entry p = [(0, false); (1, true); (2, true)] /\
  exists p', Threads.t_step (Threads.works 2 (Data (lit "c") 1)) p = Some (returns p').
Proof.
  destruct (Threads.t_run two_threads Threads.t_start) as [[p| |]|] eqn:Hr; try (by vm_compute in Hr).
  assert (Hf : t_fresh two_threads Threads.t_start).
  { do 5 (split; [reflexivity || exact I|]; intros ? [= <-]). exact I. }
  destruct (thread_server two_threads p Hf Hr) as (Ht & _). exists p. split; [done|].
  assert (He : Threads.entry p = [(0, false); (1, true); (2, true)]) by (vm_compute in Hr; injection Hr as <-; reflexivity).
  split; [done|]. destruct (Ht 2 2) as (fd & c & _ & _ & _ & Hw & _); [by rewrite He|]. apply Hw.
Defined.
