(* ===== verification/LineClients.v ===== *)
(** * LineClients: clients that send a line and print the answer

    Models [client.c] of the five folders of [Linux_Net/concurrent], and
    [domain_socket] and [UDP] of [Linux_Net/TCP_Server] with both sides.

    The clients on streams are one loop ([fgets], [Write], [Read], [Write]) that
    differs in the size of its buffer and in what it makes of the end of the
    stream, the fields of [program]. What they need of a server is the class
    [LineServer], of which the servers of [Multiplex] and [ConcurrentServers] and
    that of [domain_socket] are instances. Between the two are the bytes on the way,
    which the system hands over in parts of any size. Writing to the server sends
    all bytes. Creating the sockets is left out. *)
From S2P Require Import Prelude.
From S2P Require Import Multiplex ConcurrentServers.

(** ** The interface *)

(** A server as one of its clients sees it: the size of its buffer, whether the
    client is connected, what it received from it and sent back, and what reading
    these bytes from it does. *)
Class LineServer (S : Type) := {
  room : nat;
  connected : S -> Prop;
  heard : S -> conn;
  serve : str -> S -> option S }.

Class LineServerLaws {S} (srv : LineServer S) := {
  room_pos : 0 < room;
  serve_ok st s : connected st -> s <> [] -> length s <= room ->
    exists st', serve s st = Some st' /\ connected st' /\ heard st' = talk s (length s) (heard st) }.

(** ** The clients *)

(** The size of [buf]; whether the end of the stream is reported, and whether it
    ends the loop. *)
Record program := Program { MAXLINE : nat; says_closed : bool; leaves : bool }.

Definition client_process : program := Program 8192 true true.
Definition client_thread : program := Program 80 true false.
Definition client_select : program := Program 80 true true.
Definition client_poll : program := Program 80 true true.
Definition client_epoll : program := Program 8192 true true.
Definition client_domain : program := Program 4096 false false.

(** Where the client is. *)
Inductive place := at_fgets | at_Read | ended.

(** On the screen: an answer, or "the other side has been closed". *)
Inductive shown := echo (s : str) | notice.

(** The client with what is still to be typed, the bytes on their way to the server
    and from it, whether the server has closed the connection. *)
Record session (S : Type) := Session {
  stdin : str; at_ : place; up : str; down : str; gone : bool; server : S; screen : list shown }.
Arguments Session {S}. Arguments stdin {S}. Arguments at_ {S}. Arguments up {S}. Arguments down {S}.
Arguments gone {S}. Arguments server {S}. Arguments screen {S}.

(** The client reads a line and writes it, or is killed by SIGPIPE there; the
    server reads at most [n] bytes of those on the way; it closes the connection; the
    client reads at most [n] bytes, or finds the end or an error. *)
Inductive event := line_typed (killed : bool) | server_reads (n : nat) | server_closes | client_reads (n : nat) | read_ends (failed : bool).

Section session.
Context {S : Type} {srv : LineServer S} (c : program).

(** What a step of the server has written to this client. *)
Definition sent_between (st st' : S) : str := concat (drop (length (output (heard st))) (output (heard st'))).

Definition step (e : event) (x : session S) : option (session S) :=
  match e with
  | line_typed killed =>
      match at_ x, fgets (MAXLINE c - 1) (stdin x) with
      | at_fgets, ([], _) => Some (Session (stdin x) ended (up x) (down x) (gone x) (server x) (screen x))
      | at_fgets, (l, rest) =>
          if gone x then Some (Session rest (if killed then ended else at_Read) (up x) (down x) true (server x) (screen x))
          else Some (Session rest at_Read (up x ++ c_str l) (down x) false (server x) (screen x))
      | _, _ => None
      end
  | server_reads n =>
      if gone x then None
      else match take (n `min` room) (up x) with
           | [] => None
           | s => st ← serve s (server x);
               Some (Session (stdin x) (at_ x) (drop (n `min` room) (up x)) (down x ++ sent_between (server x) st) false st (screen x))
           end
  | server_closes => if gone x then None else Some (Session (stdin x) (at_ x) (up x) (down x) true (server x) (screen x))
  | client_reads n =>
      match at_ x, take (n `min` MAXLINE c) (down x) with
      | at_Read, (_ :: _) as s => Some (Session (stdin x) at_fgets (up x) (drop (n `min` MAXLINE c) (down x)) (gone x) (server x) (screen x ++ [echo s]))
      | _, _ => None
      end
  | read_ends failed =>
      match at_ x, down x with
      | at_Read, [] =>
          if gone x then
            (* a length of -1 is refused by [Write] *)
            if failed then Some (Session (stdin x) at_fgets (up x) [] true (server x) (screen x))
            else Some (Session (stdin x) (if leaves c then ended else at_fgets) (up x) [] true (server x)
                         (screen x ++ (if says_closed c then [notice] else [])))
          else None
      | _, _ => None
      end
  end.

Fixpoint run (es : list event) (x : session S) : option (session S) :=
  match es with [] => Some x | e :: es' => x' ← step e x; run es' x' end.

Definition begin (st : S) (input : str) : session S := Session input at_fgets [] [] false st [].

(** The answers on the screen. *)
Definition echoed (x : session S) : str := concat (omap (fun i => match i with echo s => Some s | notice => None end) (screen x)).

(** Reads that take all that is there, as far as there is room. *)
Definition at_once (e : event) : Prop :=
  match e with server_reads n => room <= n | client_reads n => MAXLINE c <= n | server_closes => False | _ => True end.

(** ** What the client prints *)

Context {laws : LineServerLaws srv} (Hsize : 1 < MAXLINE c).

Definition lines_upper (ls : list str) : str := upper (concat (c_str <$> ls)).

(** [ls] is what was sent, [lost] what was typed after the server had closed. *)
Record prints (input : str) (ls lost : list str) (x : session S) : Prop := {
  pr_input : input = concat ls ++ concat lost ++ stdin x;
  pr_text : echoed x ++ down x ++ upper (up x) = lines_upper ls;
  pr_lost : gone x = false -> lost = [];
  pr_server : gone x = false -> connected (server x);
  pr_end : at_ x = ended -> gone x = false -> stdin x = [];
  pr_wait : at_ x = at_Read -> gone x = false -> up x = [] -> down x = [] -> exists l, last ls = Some (NUL :: l) }.

Lemma lines_upper_snoc ls l : lines_upper (ls ++ [l]) = lines_upper ls ++ upper (c_str l).
Proof. unfold lines_upper, upper. by rewrite fmap_app, concat_app, fmap_app, <- (app_nil_r (c_str l)) at 1. Qed.

Lemma sent_between_talk st st' s : heard st' = talk s (length s) (heard st) -> sent_between st st' = upper s.
Proof.
  intros H. unfold sent_between. rewrite H. cbn. rewrite drop_app_length. cbn. rewrite app_nil_r.
  apply take_ge. unfold upper. by rewrite length_fmap.
Qed.

Lemma echoed_snoc x x' i : screen x' = screen x ++ [i] -> echoed x' = echoed x ++ match i with echo s => s | notice => [] end.
Proof.
  intros H. unfold echoed. rewrite H, omap_app, concat_app. destruct i; cbn; by rewrite ?app_nil_r.
Qed.

(** What the server makes of the bytes it reads. *)
Lemma server_turn x n : gone x = false -> connected (server x) -> take (n `min` room) (up x) <> [] -> exists st,
  serve (take (n `min` room) (up x)) (server x) = Some st /\ connected st /\
  sent_between (server x) st = upper (take (n `min` room) (up x)).
Proof.
  intros Hg Hc Hne. destruct (serve_ok (server x) (take (n `min` room) (up x)) Hc Hne) as (st & Hs & Hc' & Hh); [rewrite length_take; lia|].
  exists st. split_and!; [done..|]. by apply sent_between_talk.
Qed.

Lemma step_server_reads x n x' : gone x = false -> connected (server x) -> step (server_reads n) x = Some x' ->
  take (n `min` room) (up x) <> [] /\ exists st, connected st /\
  x' = Session (stdin x) (at_ x) (drop (n `min` room) (up x)) (down x ++ upper (take (n `min` room) (up x))) false st (screen x).
Proof.
  intros Hg Hc. unfold step. rewrite Hg. destruct (take (n `min` room) (up x)) as [|b s] eqn:Ht; [done|].
  destruct (server_turn x n Hg Hc) as (st & Hs & Hc' & Hu); [by rewrite Ht|]. rewrite Ht in Hs, Hu. rewrite Hs. cbn.
  intros [= <-]. split; [done|]. exists st. split; [done|]. by rewrite Hu.
Qed.

Lemma step_prints input ls lost e x x' :
  prints input ls lost x -> step e x = Some x' -> exists ls' lost', prints input ls' lost' x'.
Proof.
  intros [Hin Ht Hl Hs He Hw]. destruct e as [killed|n| |n|failed].
  - unfold step. destruct (at_ x); [|done..]. destruct (fgets (MAXLINE c - 1) (stdin x)) as [[|b l] rest] eqn:Hf.
    + intros [= <-]. exists ls, lost. split; try done. cbn. intros _ _. destruct (fgets_spec _ _ _ _ Hf) as (_ & _ & Hn). destruct (Hn eq_refl); [lia|done].
    + destruct (fgets_spec _ _ _ _ Hf) as (Hst & _ & _). rewrite Hst in Hin. destruct (gone x) eqn:Hg; intros [= <-].
      * exists ls, (lost ++ [b :: l]). split; cbn [stdin at_ up down gone server screen]; try done.
        rewrite concat_app. cbn [concat]. by rewrite app_nil_r, <- (app_assoc (concat lost)).
      * exists (ls ++ [b :: l]), lost. rewrite (Hl eq_refl) in *. split; cbn [stdin at_ up down gone server screen]; auto; try done.
        -- rewrite concat_app. cbn [concat]. rewrite app_nil_r. cbn in Hin. by rewrite <- app_assoc.
        -- rewrite lines_upper_snoc, <- Ht. unfold echoed, upper. cbn [screen]. by rewrite fmap_app, <- !app_assoc.
        -- intros _ _ Hu _. apply app_nil in Hu as [_ Hu]. cbn in Hu. case_decide; [|done]. subst b. exists l. by apply last_snoc.
  - intros Hstep. destruct (gone x) eqn:Hg; [unfold step in Hstep; by rewrite Hg in Hstep|].
    destruct (step_server_reads x n x' Hg (Hs eq_refl) Hstep) as (Hne & st & Hc & ->). exists ls, lost.
    split; cbn [stdin at_ up down gone server screen]; auto.
    + rewrite <- Ht. unfold echoed, upper. cbn [screen]. rewrite <- !app_assoc, <- fmap_app. by rewrite take_drop.
    + intros _ _ _ Hd. apply app_nil in Hd as [_ Hd]. by apply fmap_nil_inv in Hd.
  - unfold step. destruct (gone x) eqn:Hg; [done|]. intros [= <-]. exists ls, lost. split; cbn; auto; done.
  - unfold step. destruct (at_ x); [done| |done]. destruct (take (n `min` MAXLINE c) (down x)) as [|b s] eqn:Hd; [done|].
    intros [= <-]. exists ls, lost. split; cbn [stdin at_ up down gone server screen]; auto; try done.
    rewrite <- Ht, (echoed_snoc x _ (echo (b :: s))) by done. rewrite <- (take_drop (n `min` MAXLINE c) (down x)) at 2. rewrite Hd. by rewrite <- !app_assoc.
  - unfold step. destruct (at_ x); [done| |done]. destruct (down x) eqn:Hd; [|done]. destruct (gone x) eqn:Hg; [|done].
    destruct failed; intros [= <-]; exists ls, lost; split; cbn [stdin at_ up down gone server screen]; auto; try done.
    rewrite <- Ht. destruct (says_closed c); [by rewrite (echoed_snoc x _ notice), app_nil_r by done|].
    unfold echoed. cbn [screen]. by rewrite app_nil_r.
Qed.

Lemma run_prints input ls lost es x x' :
  prints input ls lost x -> run es x = Some x' -> exists ls' lost', prints input ls' lost' x'.
Proof.
  revert ls lost x. induction es as [|e es IH]; intros ls lost x Hx; cbn; [intros [= <-]; by exists ls, lost|].
  destruct (step e x) as [x1|] eqn:He; [|done]. destruct (step_prints _ _ _ _ _ _ Hx He) as (ls' & lost' & Hx'). by apply (IH ls' lost').
Qed.

Lemma begin_prints st input : connected st -> prints input [] [] (begin st input).
Proof. by split. Qed.

(** *** How long it takes *)

Definition place_size (p : place) : nat := match p with ended => 0 | at_fgets => 1 | at_Read => 2 end.
Definition size_of (x : session S) : nat :=
  4 * length (stdin x) + 2 * length (up x) + length (down x) + place_size (at_ x) + (if gone x then 0 else 1).

Lemma step_size e x x' : (gone x = false -> connected (server x)) -> step e x = Some x' -> size_of x' < size_of x.
Proof.
  intros Hs Hstep. destruct e as [killed|n| |n|failed].
  - revert Hstep. unfold step, size_of. destruct (at_ x); [|done..]. destruct (fgets (MAXLINE c - 1) (stdin x)) as [[|b l] rest] eqn:Hf.
    + intros [= <-]. cbn. lia.
    + destruct (fgets_spec _ _ _ _ Hf) as (-> & _ & _). pose proof (length_c_str (b :: l)).
      destruct (gone x); [destruct killed|]; intros [= <-]; cbn [stdin at_ up down gone place_size]; rewrite ?length_app; cbn in *; lia.
  - destruct (gone x) eqn:Hg; [unfold step in Hstep; by rewrite Hg in Hstep|].
    destruct (step_server_reads x n x' Hg (Hs eq_refl) Hstep) as (Hne & st & _ & ->). unfold size_of, upper.
    cbn [stdin at_ up down gone]. rewrite Hg, length_app, length_fmap, length_take, length_drop.
    destruct (up x) as [|b u]; [by rewrite take_nil in Hne|]. destruct (n `min` room) eqn:Hn; [done|]. cbn. lia.
  - revert Hstep. unfold step, size_of. destruct (gone x); [done|]. intros [= <-]. cbn. lia.
  - revert Hstep. unfold step, size_of. destruct (at_ x); [done| |done]. destruct (take (n `min` MAXLINE c) (down x)) eqn:Hd; [done|].
    intros [= <-]. cbn [stdin at_ up down gone place_size]. rewrite length_drop. lia.
  - revert Hstep. unfold step, size_of. destruct (at_ x); [done| |done]. destruct (down x); [|done]. destruct (gone x); [|done].
    destruct failed, (leaves c); intros [= <-]; cbn; lia.
Qed.

Lemma run_size input ls lost es x x' : prints input ls lost x -> run es x = Some x' -> length es + size_of x' <= size_of x.
Proof.
  revert ls lost x. induction es as [|e es IH]; intros ls lost x Hx; cbn [run length]; [intros [= <-]; lia|].
  destruct (step e x) as [x1|] eqn:He; [|done]. pose proof (step_size e x x1 (pr_server _ _ _ _ Hx) He).
  destruct (step_prints _ _ _ _ _ _ Hx He) as (ls' & lost' & Hx'). intros Hr. specialize (IH ls' lost' x1 Hx' Hr). cbn [length]. lia.
Qed.

(** A client that waits does so for an answer that can come, or for the end of the
    stream that is there, unless it has sent nothing because its line begins with a NUL
    byte; then only the server can end the wait, by closing. *)
Definition stuck (x : session S) : Prop :=
  at_ x = at_Read /\ gone x = false /\ up x = [] /\ down x = [] /\ forall e, e <> server_closes -> step e x = None.

Lemma can_go_on input ls lost x :
  prints input ls lost x -> at_ x <> ended ->
  (exists e x', e <> server_closes /\ step e x = Some x') \/ stuck x /\ exists l, last ls = Some (NUL :: l).
Proof.
  intros [Hin Ht Hl Hs He Hw] Hne. destruct (at_ x) eqn:Ha; [|clear Hne|done].
  - left. exists (line_typed false). unfold step. rewrite Ha. destruct (fgets _ _) as [[|b l] rest]; [by eexists|]. destruct (gone x); by eexists.
  - destruct (down x) as [|b d] eqn:Hd.
    2:{ left. exists (client_reads 1). unfold step. rewrite Ha, Hd. destruct (1 `min` MAXLINE c) eqn:Hn; [lia|]. by eexists. }
    destruct (gone x) eqn:Hg; [left; exists (read_ends false); unfold step; rewrite Ha, Hd, Hg; by eexists|].
    destruct (up x) as [|b u] eqn:Hu.
    { right. split; [|by apply Hw]. split_and!; [done..|].
      intros [killed|n| |n|failed] Hc; unfold step; rewrite ?Ha, ?Hg, ?Hu, ?Hd, ?take_nil; done. }
    left. exists (server_reads 1).
    destruct (server_turn x 1 Hg (Hs eq_refl)) as (st & Hst & _ & _).
    { rewrite Hu. pose proof room_pos. destruct (1 `min` room) eqn:Hn; [lia|done]. }
    unfold step. rewrite Hg. pose proof room_pos as Hr. destruct (take (1 `min` room) (up x)) eqn:Ht'.
    { rewrite Hu in Ht'. destruct (1 `min` room) eqn:Hn; [lia|done]. }
    rewrite Hst. cbn. by eexists.
Qed.

(** *** Reads that take all *)

(** Nothing is on its way when the client does not wait; else one line or its answer. *)
Definition in_step (x : session S) : Prop :=
  gone x = false /\ (up x = [] \/ down x = []) /\ length (up x) < MAXLINE c /\ length (down x) < MAXLINE c /\ (at_ x <> at_Read -> up x = [] /\ down x = []).

Lemma step_in_step e x x' :
  MAXLINE c <= Datatypes.S room -> in_step x -> connected (server x) -> at_once e -> step e x = Some x' -> in_step x'.
Proof.
  intros Hroom (Hg & Hor & Hu & Hd & Hnot) Hs Hall Hstep. destruct e as [killed|n| |n|failed]; cbn [at_once] in Hall.
  - revert Hstep. unfold step. rewrite Hg. destruct (at_ x); [|done..]. destruct (Hnot ltac:(done)) as [Hu' Hd'].
    destruct (fgets (MAXLINE c - 1) (stdin x)) as [[|b l] rest] eqn:Hf; intros [= <-].
    + by split_and!.
    + destruct (fgets_spec _ _ _ _ Hf) as (_ & Hlen & _). pose proof (length_c_str (b :: l)) as Hc. cbn [c_str] in Hc.
      unfold in_step. cbn [stdin at_ up down gone]. rewrite Hu', Hd'. cbn [app]. split_and!; try done; [by right|lia|cbn; lia].
  - destruct (step_server_reads x n x' Hg Hs Hstep) as (Hne & st & _ & ->). rewrite Nat.min_r in * by done.
    unfold in_step, upper. cbn [stdin at_ up down gone]. rewrite drop_ge, take_ge in * by lia.
    destruct Hor as [Hor| ->]; [done|]. cbn. rewrite length_fmap. split_and!; try done; [by left|lia|].
    intros Hp. destruct (Hnot Hp) as [Hp' _]. by rewrite Hp'.
  - done.
  - revert Hstep. unfold step. destruct (at_ x); [done| |done]. rewrite Nat.min_r by done. rewrite take_ge, drop_ge by lia.
    destruct (down x) as [|b d] eqn:Hdx; [done|]. intros [= <-]. destruct Hor as [Hor|]; [|done].
    unfold in_step. cbn [stdin at_ up down gone]. rewrite Hor. cbn. split_and!; auto; lia.
  - revert Hstep. unfold step. rewrite Hg. destruct (at_ x), (down x); done.
Qed.

Lemma run_in_step input ls lost es x x' :
  MAXLINE c <= Datatypes.S room -> prints input ls lost x -> in_step x -> Forall at_once es -> run es x = Some x' -> in_step x'.
Proof.
  intros Hroom. revert ls lost x. induction es as [|e es IH]; intros ls lost x Hx Hin Hall; cbn [run]; [by intros [= <-]|].
  apply Forall_cons in Hall as [He Hall]. destruct (step e x) as [x1|] eqn:Hs; [|done]. cbn.
  destruct (step_prints _ _ _ _ _ _ Hx Hs) as (ls' & lost' & Hx'). apply (IH ls' lost'); [done| |done].
  apply (step_in_step e x); [done..| |done|done]. apply (pr_server _ _ _ _ Hx), Hin.
Qed.

Lemma lines_upper_all ls : NUL ∉ concat ls -> lines_upper ls = upper (concat ls).
Proof.
  unfold lines_upper. induction ls as [|l ls IH]; [done|]. cbn. intros [Hl Hls]%not_elem_of_app. unfold upper in *.
  by rewrite c_str_id, !fmap_app, IH by done.
Qed.

End session.

(** What is printed where reading gives all that was sent. *)
Lemma whole_session {S} {srv : LineServer S} (laws : LineServerLaws srv) c input st es x :
  1 < MAXLINE c <= Datatypes.S room -> connected st -> run c es (begin st input) = Some x -> Forall (at_once c) es -> at_ x = ended ->
  (exists ls, concat ls = input /\ echoed x = lines_upper ls) /\ (NUL ∉ input -> echoed x = upper input).
Proof.
  intros [Hsize Hroom] Hc Hr Hall Ha. pose proof (begin_prints st input Hc) as Hb.
  destruct (run_prints c Hsize _ _ _ _ _ _ Hb Hr) as (ls & lost & [Hin Ht Hl Hs He Hw]).
  destruct (run_in_step c Hsize input [] [] es (begin st input) x Hroom Hb) as (Hg & _ & _ & _ & Hnot); [|done..|].
  { split_and!; cbn; auto; lia. }
  destruct (Hnot ltac:(by rewrite Ha)) as [Hu Hd]. rewrite Hu, Hd in Ht. cbn in Ht. rewrite app_nil_r in Ht.
  rewrite (Hl Hg), (He Ha Hg) in Hin. cbn in Hin. rewrite app_nil_r in Hin. split; [by exists ls|].
  intros Hn. rewrite Ht, Hin. apply lines_upper_all. by rewrite <- Hin.
Qed.

(** ** The servers *)

(** *** On select, poll and epoll *)

Definition conn_of (cs : gmap nat conn) (fd : nat) : conn := default (Conn [] []) (cs !! fd).

(** Of the C library. *)
Definition BUFSIZ : nat := 8192.

Section peers.
Context (listenfd fd : nat).

(** [select] reports this client alone. *)
Definition one_ready (s : str) : round := Round {[fd]} 0 (fun _ => Data s (length s)).

#[local] Instance select_peer : LineServer select_state := {
  room := BUFSIZ;
  connected st := select_inv listenfd st /\ is_Some (conns (s_net st) !! fd);
  heard st := conn_of (conns (s_net st)) fd;
  serve s st := match select_round listenfd (one_ready s) st with returns st' => Some st' | _ => None end }.

#[local] Instance poll_peer : LineServer poll_state := {
  room := 80;
  connected st := poll_inv listenfd st /\ is_Some (conns (p_net st) !! fd);
  heard st := conn_of (conns (p_net st)) fd;
  serve s st := match poll_round (one_ready s) st with returns st' => Some st' | _ => None end }.

(** The batch is done. *)
Definition batch_done (st : epoll_state) : Prop := match batch st with None => True | Some (ep, i) => length ep <= i end.

#[local] Instance epoll_peer : LineServer epoll_state := {
  room := 8192;
  connected st := epoll_inv listenfd st /\ batch_done st /\ is_Some (conns (e_net st) !! fd);
  heard st := conn_of (conns (e_net st)) fd;
  serve s st := match epoll_run listenfd st [waits [fd]; reads (Data s (length s))] with Some (returns st') => Some st' | _ => None end }.

Lemma round_conns_one b cs s d : listenfd <> fd -> cs !! fd = Some d ->
  round_conns b listenfd (one_ready s) cs fd = Some (talk s (length s) d).
Proof.
  intros Hne Hd. unfold round_conns, one_ready. cbn [ready connfd answers].
  rewrite decide_False by (rewrite elem_of_singleton; by intros [? _]). rewrite Hd. cbn. by rewrite decide_True by by apply elem_of_singleton.
Qed.

Lemma not_listening (cs : gmap nat conn) : cs !! listenfd = None -> is_Some (cs !! fd) -> listenfd <> fd.
Proof. intros H1 [d H2] ->. congruence. Qed.

Lemma select_peer_laws : LineServerLaws select_peer.
Proof.
  split; [apply Nat.lt_0_succ|]. intros st s [Hinv Hfd] _ _. pose proof (not_listening _ (sel_listen _ _ Hinv) Hfd) as Hne.
  cbn [serve select_peer]. pose proof (select_round_spec listenfd (one_ready s) st Hinv) as H.
  destruct (select_round listenfd (one_ready s) st) as [st'| |].
  - destruct H as [Hinv' Hcs].
    { split_and!; cbn; [set_solver| |set_solver]. intros d ->%elem_of_singleton. apply (sel_set _ _ Hinv). by right. }
    destruct Hfd as [d Hd]. specialize (Hcs fd). rewrite (round_conns_one _ _ _ d Hne Hd) in Hcs.
    exists st'. split_and!; [done..| |]; [by eexists|]. cbn [heard select_peer]. unfold conn_of. by rewrite Hcs, Hd.
  - destruct H. split_and!; cbn; [set_solver| |set_solver]. intros d ->%elem_of_singleton. apply (sel_set _ _ Hinv). by right.
  - destruct H as [H _]; [|cbn in H; set_solver]. split_and!; cbn; [set_solver| |set_solver].
    intros d ->%elem_of_singleton. apply (sel_set _ _ Hinv). by right.
Qed.

Lemma poll_peer_laws : LineServerLaws poll_peer.
Proof.
  split; [apply Nat.lt_0_succ|]. intros st s [Hinv Hfd] _ _. pose proof (not_listening _ (pol_listen _ _ Hinv) Hfd) as Hne.
  assert (Hrep : poll_reports listenfd st (one_ready s)) by (split_and!; cbn; [set_solver| |set_solver]; intros d ->%elem_of_singleton; by right).
  cbn [serve poll_peer]. pose proof (poll_round_spec listenfd (one_ready s) st Hinv Hrep) as H.
  destruct (poll_round (one_ready s) st) as [st'| |].
  - destruct H as [Hinv' Hcs]. destruct Hfd as [d Hd]. specialize (Hcs fd). rewrite (round_conns_one _ _ _ d Hne Hd) in Hcs.
    exists st'. split_and!; [done..| |]; [by eexists|]. cbn [heard poll_peer]. unfold conn_of. by rewrite Hcs, Hd.
  - destruct H as [(? & _ & H)|[H _]]; [done|cbn in H; set_solver].
  - done.
Qed.

Lemma epoll_peer_laws : LineServerLaws epoll_peer.
Proof.
  split; [apply Nat.lt_0_succ|]. intros st s (Hinv & Hb & d & Hd) Hne _.
  pose proof (not_listening _ (proj1 (proj2 Hinv)) ltac:(by eexists)) as Hl.
  assert (H1 : epoll_step listenfd st (waits [fd]) = Some (returns (Epoll (tree st) (Some ([fd], 0)) (e_net st)))).
  { unfold epoll_step. unfold batch_done in Hb. destruct (batch st) as [[ep i]|]; [|done]. by rewrite (lookup_ge_None_2 ep i). }
  assert (H2 : epoll_step listenfd (Epoll (tree st) (Some ([fd], 0)) (e_net st)) (reads (Data s (length s))) =
    Some (returns (Epoll (tree st) (Some ([fd], Datatypes.S (length s))) (net_talk fd s (length s) (e_net st))))).
  { unfold epoll_step. cbn. by rewrite decide_False. }
  eexists. split; [cbn [serve epoll_peer]; unfold epoll_run; rewrite H1; cbn [mbind option_bind]; rewrite H2; reflexivity|].
  split; [split_and!|].
  - apply (epoll_step_inv listenfd (Epoll (tree st) (Some ([fd], 0)) (e_net st)) (reads (Data s (length s)))); [|done|done].
    by apply (epoll_step_inv listenfd st (waits [fd])).
  - unfold batch_done. cbn. lia.
  - cbn. rewrite lookup_alter_eq, Hd. by eexists.
  - cbn [heard epoll_peer]. unfold conn_of. cbn. by rewrite lookup_alter_eq, Hd.
Qed.

(** *** A process or a thread for each connection *)

(** Child or thread [k]. *)
Context (k : nat).

#[local] Instance process_peer : LineServer Processes.processes := {
  room := 8192;
  connected p := exists c, Processes.children p !! k = Some c /\ Processes.state c = Processes.running;
  heard p := default (Conn [] []) (Processes.dialogue <$> Processes.children p !! k);
  serve s p := match Processes.p_step listenfd (Processes.works k (Data s (length s))) p with Some (returns p') => Some p' | _ => None end }.

#[local] Instance thread_peer : LineServer Threads.threads := {
  room := 8192;
  connected p := t_inv p /\ Threads.entry p !! k = Some (k, true);
  heard p := default (Conn [] []) (d ← Threads.ts p !! k; Threads.open p !! d);
  serve s p := match Threads.t_step (Threads.works k (Data s (length s))) p with Some (returns p') => Some p' | _ => None end }.

Lemma process_peer_laws : LineServerLaws process_peer.
Proof.
  split; [apply Nat.lt_0_succ|]. intros p s (c & Hk & Hc) _ _.
  assert (Hstep : Processes.p_step listenfd (Processes.works k (Data s (length s))) p =
    Some (returns (Processes.Processes_ (Processes.parent p) (Processes.parent_fds p) (<[k := (Processes.work (Data s (length s)) c).1]> (Processes.children p)) (Processes.sigchld p || false)))).
  { cbn. destruct (Processes.parent p); rewrite Hk; cbn; by rewrite decide_True. }
  cbn [serve process_peer]. rewrite Hstep. eexists. split; [done|].
  assert (Hlt : k < length (Processes.children p)) by by eapply lookup_lt_Some.
  cbn. rewrite list_lookup_insert_eq by done. split; [by eexists|]. by rewrite Hk.
Qed.

Lemma thread_peer_laws : LineServerLaws thread_peer.
Proof.
  split; [apply Nat.lt_0_succ|]. intros p s [Hinv Hk] _ _. destruct (ti_open p Hinv k Hk) as (d & c & Hd & Hc).
  assert (Hstep : Threads.t_step (Threads.works k (Data s (length s))) p =
    Some (returns (Threads.Threads_ (Threads.ts p) (Threads.entry p) (<[d := talk s (length s) c]> (Threads.open p)) (Threads.closed p)))).
  { cbn. rewrite Hk. cbn. rewrite Hd. cbn. by rewrite Hc. }
  cbn [serve thread_peer]. rewrite Hstep. eexists. split; [done|]. split; [split; [|done]|].
  - by apply (t_step_inv (Threads.works k (Data s (length s))) p).
  - cbn. rewrite Hd. cbn. by rewrite lookup_insert_eq, Hc.
Qed.
End peers.

(** *** The server on a local socket *)

(** [domain_socket/server.c]: one client at a time. *)
Record domain := Domain { cfd : option conn; served : list conn }.

(** [offsetof(struct sockaddr_un, sun_path)] and the size of [sun_path]. *)
Definition sun_path_offset : nat := 2.
Definition sun_path_size : nat := 108.

(** [Accept] with the length of the address that it stores; what [read] gives. *)
Inductive domain_event := d_accepts (len : nat) | d_reads (a : answer).

Definition domain_step (e : domain_event) (st : domain) : option (outcome domain) :=
  match e, cfd st with
  | d_accepts len, None =>
      Some (if (len - sun_path_offset <? sun_path_size)%nat then returns (Domain (Some (Conn [] [])) (served st)) else undefined)
  | d_reads (Data s n), Some c => Some (returns (Domain (Some (talk s n c)) (served st)))
  | d_reads _, Some c => Some (returns (Domain None (served st ++ [c])))
  | _, _ => None
  end.

Section domain_peer.
#[local] Instance domain_peer : LineServer domain := {
  room := 4096;
  connected st := is_Some (cfd st);
  heard st := default (Conn [] []) (cfd st);
  serve s st := match domain_step (d_reads (Data s (length s))) st with Some (returns st') => Some st' | _ => None end }.

Lemma domain_peer_laws : LineServerLaws domain_peer.
Proof.
  split; [apply Nat.lt_0_succ|]. intros [[c|] served] s Hc _ _; [|by destruct Hc]. eexists. split; [done|]. by split; [eexists|].
Qed.
End domain_peer.

(** The system reports the name of a client with the NUL byte after it: the
    server writes outside [sun_path] for a name of 107 bytes, which is allowed, or
    more. *)
Lemma domain_name st n : cfd st = None ->
  domain_step (d_accepts (sun_path_offset + n + 1)) st = Some undefined <-> 107 <= n.
Proof.
  intros Hc. unfold domain_step, sun_path_offset, sun_path_size. rewrite Hc. destruct (Nat.ltb_spec (2 + n + 1 - 2) 108); split; intros; try done; lia.
Qed.

(** ** Clients and servers together *)

(** The clients of [Linux_Net/concurrent] and [domain_socket] with the servers of
    their folders, in any state the servers can be in with this client connected:
    where reading gives all that was sent, each prints its input in upper case. *)
Definition prints_upper {S} (srv : LineServer S) (c : program) : Prop := forall input st es x,
  connected st -> run c es (begin st input) = Some x -> Forall (at_once c) es -> at_ x = ended -> NUL ∉ input -> echoed x = upper input.

Lemma concurrent_clients listenfd fd k :
  prints_upper (select_peer listenfd fd) client_select /\ prints_upper (poll_peer listenfd fd) client_poll /\
  prints_upper (epoll_peer listenfd fd) client_epoll /\ prints_upper (process_peer listenfd k) client_process /\
  prints_upper (thread_peer k) client_thread /\ prints_upper domain_peer client_domain.
Proof.
  split_and!; intros input st es x Hc Hr Hall Ha.
  - apply (whole_session (select_peer_laws listenfd fd) client_select input st es x); try done. cbn. unfold BUFSIZ. lia.
  - apply (whole_session (poll_peer_laws listenfd fd) client_poll input st es x); try done. cbn. lia.
  - apply (whole_session (epoll_peer_laws listenfd fd) client_epoll input st es x); try done. cbn. lia.
  - apply (whole_session (process_peer_laws listenfd k) client_process input st es x); try done. cbn. lia.
  - apply (whole_session (thread_peer_laws k) client_thread input st es x); try done. cbn. lia.
  - apply (whole_session domain_peer_laws client_domain input st es x); try done. cbn. lia.
Qed.

(** C19: A client that sends lines and prints answers, against any server of the
    interface, however the system cuts up what is on its way: every run ends after
    a number of steps bounded by the input; what the screen and the two directions
    hold is at any moment the upper case of the lines sent so far, and lines are
    lost only after the server has closed the connection; as long as a client is not
    done, it or the server can go on without the server closing, except after a line
    that begins with a NUL byte, of which the client sends nothing and waits for the
    answer: then nothing can happen but that; and if reading gives all that was sent,
    the client has printed its whole input in upper case when it ends. *)
Theorem line_session {S} {srv : LineServer S} (laws : LineServerLaws srv) c input st es x :
  1 < MAXLINE c -> connected st -> run c es (begin st input) = Some x ->
  length es <= 4 * length input + 2 /\
  exists ls lost, input = concat ls ++ concat lost ++ stdin x /\
    echoed x ++ down x ++ upper (up x) = lines_upper ls /\
    (gone x = false -> lost = []) /\
    (at_ x = ended -> gone x = false -> concat ls = input) /\
    (at_ x <> ended ->
       (exists e x', e <> server_closes /\ step c e x = Some x') \/ stuck c x /\ exists l, last ls = Some (NUL :: l)) /\
    (MAXLINE c <= Datatypes.S room -> Forall (at_once c) es -> at_ x = ended -> NUL ∉ input -> echoed x = upper input).
Proof.
  intros Hsize Hc Hr. pose proof (begin_prints st input Hc) as Hb.
  destruct (run_prints c Hsize _ _ _ _ _ _ Hb Hr) as (ls & lost & Hx). split.
  - pose proof (run_size c Hsize _ _ _ _ _ _ Hb Hr) as Hm. unfold size_of at 2 in Hm. cbn in Hm. lia.
  - pose proof Hx as [Hin Ht Hl Hs He Hw]. exists ls, lost. split_and!; [done..| | |].
    + intros Ha Hg. rewrite Hin, (Hl Hg), (He Ha Hg). cbn. by rewrite !app_nil_r.
    + by apply (can_go_on c Hsize input ls lost).
    + intros Hroom Hall Ha. by apply (whole_session laws c input st es x).
Qed.

(** ** Datagrams *)

(** [UDP/udp_socket]: both programs, with the datagrams on their way, which the
    system may lose and deliver in any order. *)
Record udp := Udp { u_stdin : str; u_at : place; to_server : list str; to_client : list str; u_screen : list str }.

Definition udp_begin (input : str) : udp := Udp input at_fgets [] [] [].

(** What the server makes of a datagram. *)
Definition udp_server (m : str) : str := upper (take BUFSIZ m).

(** The client reads a line and [sendto] works or not; the server receives a datagram
    and [sendto] works or not; the client receives one; one is lost. *)
Inductive udp_event := u_types (sent : bool) | u_serves (i : nat) (sent : bool) | u_receives (i : nat) | loses_up (i : nat) | loses_down (i : nat).

Definition udp_step (e : udp_event) (x : udp) : option udp :=
  match e with
  | u_types sent =>
      match u_at x, fgets (BUFSIZ - 1) (u_stdin x) with
      | at_fgets, ([], _) => Some (Udp (u_stdin x) ended (to_server x) (to_client x) (u_screen x))
      | at_fgets, (l, rest) => Some (Udp rest at_Read (to_server x ++ (if sent then [c_str l] else [])) (to_client x) (u_screen x))
      | _, _ => None
      end
  | u_serves i sent =>
      m ← to_server x !! i;
      Some (Udp (u_stdin x) (u_at x) (delete i (to_server x)) (to_client x ++ (if sent then [udp_server m] else [])) (u_screen x))
  | u_receives i =>
      match u_at x with
      | at_Read => m ← to_client x !! i;
          Some (Udp (u_stdin x) at_fgets (to_server x) (delete i (to_client x)) (u_screen x ++ [take BUFSIZ m]))
      | _ => None
      end
  | loses_up i => m ← to_server x !! i; Some (Udp (u_stdin x) (u_at x) (delete i (to_server x)) (to_client x) (u_screen x))
  | loses_down i => m ← to_client x !! i; Some (Udp (u_stdin x) (u_at x) (to_server x) (delete i (to_client x)) (u_screen x))
  end.

Fixpoint udp_run (es : list udp_event) (x : udp) : option udp :=
  match es with [] => Some x | e :: es' => x' ← udp_step e x; udp_run es' x' end.

(** The lines answered, and the one that waits for its answer. *)
Record udp_inv (input : str) (ls : list str) (l : option str) (x : udp) : Prop := {
  ui_input : input = concat ls ++ default [] l ++ u_stdin x;
  ui_screen : u_screen x = (fun l => upper (c_str l)) <$> ls;
  ui_at : match u_at x with
          | at_Read => exists l', l = Some l' /\ length l' < BUFSIZ /\
              (to_server x = [c_str l'] /\ to_client x = [] \/ to_server x = [] /\ to_client x = [upper (c_str l')] \/ to_server x = [] /\ to_client x = [])
          | at_fgets => l = None /\ to_server x = [] /\ to_client x = []
          | ended => l = None /\ to_server x = [] /\ to_client x = [] /\ u_stdin x = []
          end }.

Lemma udp_step_inv input ls l e x x' : udp_inv input ls l x -> udp_step e x = Some x' -> exists ls' l', udp_inv input ls' l' x'.
Proof.
  intros [Hin Hs Ha] Hstep. unfold udp_step in Hstep. destruct e as [sent|i sent|i|i|i].
  - destruct (u_at x); [|done..]. destruct Ha as (-> & Hu & Hd).
    destruct (fgets (BUFSIZ - 1) (u_stdin x)) as [[|b l'] rest] eqn:Hf; injection Hstep as <-; destruct (fgets_spec _ _ _ _ Hf) as (Hst & Hlen & Hn).
    + exists ls, None. split; [done..|]. split_and!; try done. cbn. destruct (Hn eq_refl); [done|done].
    + exists ls, (Some (b :: l')). split; [|done|].
      * by rewrite Hin, Hst.
      * exists (b :: l'). cbn [to_server to_client]. rewrite Hu, Hd. split; [done|]. split; [change BUFSIZ with (Datatypes.S (BUFSIZ - 1)); lia|]. destruct sent; auto.
  - destruct (to_server x !! i) as [m|] eqn:Hm; [|done]. injection Hstep as <-.
    destruct (u_at x) eqn:Hat; [destruct Ha as (_ & Hu & _); by rewrite Hu in Hm| |destruct Ha as (_ & Hu & _); by rewrite Hu in Hm].
    destruct Ha as (l' & -> & Hlen & [[Hu Hd]|[[Hu _]|[Hu _]]]); rewrite Hu in Hm; try done.
    apply list_lookup_singleton_Some in Hm as [-> <-]. exists ls, (Some l'). split; [done..|]. cbn [u_at to_server to_client].
    exists l'. rewrite Hu, Hd. split_and!; [done..|]. pose proof (length_c_str l').
    destruct sent; [right; left|by right; right]. unfold udp_server. rewrite take_ge by lia. done.
  - destruct (u_at x); [done| |done]. destruct (to_client x !! i) as [m|] eqn:Hm; [|done]. injection Hstep as <-.
    destruct Ha as (l' & -> & Hlen & [[_ Hd]|[[Hu Hd]|[_ Hd]]]); rewrite Hd in Hm; try done.
    apply list_lookup_singleton_Some in Hm as [-> <-]. exists (ls ++ [l']), None. pose proof (length_c_str l').
    split; cbn [u_at u_stdin u_screen to_server to_client].
    + rewrite Hin, concat_app. cbn. by rewrite app_nil_r, <- app_assoc.
    + rewrite Hs, fmap_app, take_ge by (unfold upper; rewrite length_fmap; lia). done.
    + by rewrite Hu, Hd.
  - destruct (to_server x !! i) as [m|] eqn:Hm; [|done]. injection Hstep as <-. exists ls, l. split; [done..|].
    cbn [u_at u_stdin to_server to_client]. destruct (u_at x); [by destruct Ha as (_ & Hu & _); rewrite Hu in Hm| |by destruct Ha as (_ & Hu & _); rewrite Hu in Hm].
    destruct Ha as (l' & -> & Hlen & [[Hu Hd]|[[Hu _]|[Hu _]]]); rewrite Hu in Hm; try done.
    apply list_lookup_singleton_Some in Hm as [-> _]. exists l'. rewrite Hu, Hd. split_and!; auto.
  - destruct (to_client x !! i) as [m|] eqn:Hm; [|done]. injection Hstep as <-. exists ls, l. split; [done..|].
    cbn [u_at u_stdin to_server to_client]. destruct (u_at x); [by destruct Ha as (_ & _ & Hd); rewrite Hd in Hm| |by destruct Ha as (_ & _ & Hd & _); rewrite Hd in Hm].
    destruct Ha as (l' & -> & Hlen & [[_ Hd]|[[Hu Hd]|[_ Hd]]]); rewrite Hd in Hm; try done.
    apply list_lookup_singleton_Some in Hm as [-> _]. exists l'. rewrite Hu, Hd. split_and!; auto.
Qed.

Lemma udp_run_inv input ls l es x x' : udp_inv input ls l x -> udp_run es x = Some x' -> exists ls' l', udp_inv input ls' l' x'.
Proof.
  revert ls l x. induction es as [|e es IH]; intros ls l x Hx; cbn; [intros [= <-]; by exists ls, l|].
  destruct (udp_step e x) as [x1|] eqn:He; [|done]. destruct (udp_step_inv _ _ _ _ _ _ Hx He) as (ls' & l' & Hx'). by apply (IH ls' l').
Qed.

(** [udp_socket]: although datagrams are lost and not ordered, each answer on the
    screen is that to its own line, since at most one datagram is on its way. The
    client that has ended has printed the answers to all lines; after a loss it
    cannot end, since nothing is sent again. *)
Theorem udp_session input es x :
  udp_run es (udp_begin input) = Some x ->
  exists ls rest, input = concat ls ++ rest /\ u_screen x = (fun l => upper (c_str l)) <$> ls /\
    length (to_server x) + length (to_client x) <= 1 /\
    (u_at x = ended -> rest = []) /\
    (u_at x = at_Read -> to_server x = [] -> to_client x = [] -> forall e, udp_step e x = None).
Proof.
  intros Hr. destruct (udp_run_inv input [] None es (udp_begin input) x) as (ls & l & [Hin Hs Ha]); [by split|done|].
  exists ls, (default [] l ++ u_stdin x). split_and!; [done..| | |].
  - destruct (u_at x); [by destruct Ha as (_ & -> & ->); cbn; lia| |by destruct Ha as (_ & -> & -> & _); cbn; lia].
    destruct Ha as (l' & _ & _ & [[-> ->]|[[-> ->]|[-> ->]]]); cbn; lia.
  - intros Hat. rewrite Hat in Ha. by destruct Ha as (-> & _ & _ & ->).
  - intros Hat Hu Hd [sent|i sent|i|i|i]; unfold udp_step; by rewrite ?Hat, ?Hu, ?Hd.
Qed.

(** [UDP/broadcast] and [UDP/multicast]: the text of each second, and what a
    receiver prints of the datagrams that reach it. *)
Definition drink (i : N) : str := lit "Drink " ++ to_string i ++ lit " glasses of water" ++ [LF].
Definition itcast (i : N) : str := lit "itcast " ++ to_string i ++ [LF].
Definition sender_MAXLINE : nat := 1500.
Definition receiver (size : nat) (datagrams : list str) : str := concat (take size <$> datagrams).
Definition receive_broadcast : list str -> str := receiver 4096.
Definition receive_multicast : list str -> str := receiver BUFSIZ.

(** Until [i] overflows, after 68 years, the texts fit the array of the sender
    and those of the receivers, which print whatever arrives as it is. *)
Lemma announcements_fit i : (i < 2 ^ 31)%N -> length (drink i) < sender_MAXLINE /\ length (itcast i) < sender_MAXLINE.
Proof.
  intros Hi. pose proof (length_to_string i) as Hl.
  assert (N.size i <= 31)%N.
  { destruct (N.eq_dec i 0) as [->|Hne]; [done|]. rewrite N.size_log2 by done. apply N.le_succ_l. by apply N.log2_lt_pow2; [lia|]. }
  unfold drink, itcast. rewrite !length_app. cbn [length lit String.list_ascii_of_string]. unfold sender_MAXLINE. lia.
Qed.

Lemma receiver_whole size (text : N -> str) (nums : list N) : sender_MAXLINE <= size ->
  (forall i, (i < 2 ^ 31)%N -> length (text i) < sender_MAXLINE) -> Forall (fun i => i < 2 ^ 31)%N nums ->
  receiver size (text <$> nums) = concat (text <$> nums).
Proof.
  intros Hs Ht. induction 1 as [|i nums Hi _ IH]; [done|]. pose proof (Ht i Hi). unfold receiver in *.
  rewrite !fmap_cons. cbn [concat]. by rewrite IH, take_ge by lia.
Qed.

Lemma receivers_print nums : Forall (fun i => i < 2 ^ 31)%N nums ->
  receive_broadcast (drink <$> nums) = concat (drink <$> nums) /\ receive_multicast (itcast <$> nums) = concat (itcast <$> nums).
Proof.
  intros Hn. split; (apply receiver_whole; [apply Nat.leb_le; vm_compute; reflexivity| |done]); intros i Hi; by apply announcements_fit.
Qed.

(** ** Examples *)

Definition talking : domain := Domain (Some (Conn [] [])) [].

Lemma line_session_witness : exists x,
  run (srv := domain_peer) client_domain [line_typed false; server_reads 4096; client_reads 4096; line_typed false; server_reads 5000; client_reads 5000; line_typed false]
    (begin talking (lit "ab" ++ [LF] ++ lit "c")) = Some x /\ at_ x = ended /\ echoed x = lit "AB" ++ [LF] ++ lit "C".
Proof.
  set (es := [line_typed false; server_reads 4096; client_reads 4096; line_typed false; server_reads 5000; client_reads 5000; line_typed false]).
  destruct (run (srv := domain_peer) client_domain es (begin talking (lit "ab" ++ [LF] ++ lit "c"))) as [x|] eqn:Hr; [|by vm_compute in Hr].
  exists x. split; [done|]. destruct (line_session domain_peer_laws client_domain _ talking es x ltac:(cbn; lia) ltac:(by eexists) Hr) as (_ & ls & lost & _ & _ & _ & _ & _ & H).
  assert (Ha : at_ x = ended) by (vm_compute in Hr; injection Hr as <-; done). split; [done|].
  rewrite H; [done|cbn; lia| |done|].
  - repeat (apply Forall_cons; split; [first [exact I | apply Nat.leb_le; vm_compute; reflexivity]|]). apply Forall_nil_2.
  - apply (bool_decide_unpack _). vm_compute. exact I.
Defined.

(** The answer comes in two parts, and the client that reads once for each line ends
    before the second. *)
Example rest_not_printed : exists x,
  run (srv := domain_peer) client_domain [line_typed false; server_reads 2; client_reads 4096; server_reads 4096; line_typed false]
    (begin talking (lit "abcd")) = Some x /\ at_ x = ended /\ echoed x = lit "AB" /\ down x = lit "CD".
Proof. eexists. split; [vm_compute; reflexivity|]. done. Qed.

(** A line that begins with a NUL byte. *)
Example nul_hangs : exists x,
  run (srv := domain_peer) client_domain [line_typed false] (begin talking (NUL :: lit "abcd")) = Some x /\ at_ x = at_Read /\
  stuck (srv := domain_peer) client_domain x.
Proof.
  eexists. split; [vm_compute; reflexivity|]. split; [done|]. split_and!; [done..|].
  intros [killed|n| |n|failed] He; try done; cbn; by rewrite ?take_nil.
Qed.

(** The client of the thread server goes on after the end of the stream. *)
Example notices : exists x,
  run (srv := thread_peer 0) client_thread [server_closes; line_typed false; read_ends false; line_typed false; read_ends false; line_typed false]
    (begin Threads.t_start (lit "a" ++ [LF] ++ lit "b")) = Some x /\ at_ x = ended /\ screen x = [notice; notice].
Proof. eexists. split; [vm_compute; reflexivity|]. done. Qed.

Lemma udp_session_witness : exists x,
  udp_run [u_types true; u_serves 0 true; u_receives 0; u_types true; loses_up 0] (udp_begin (lit "ab" ++ [LF] ++ lit "c")) = Some x /\
  u_screen x = [lit "AB" ++ [LF]] /\ forall e, udp_step e x = None.
Proof.
  destruct (udp_run [u_types true; u_serves 0 true; u_receives 0; u_types true; loses_up 0] (udp_begin (lit "ab" ++ [LF] ++ lit "c"))) as [x|] eqn:Hr; [|by vm_compute in Hr].
  exists x. split; [done|]. destruct (udp_session _ _ x Hr) as (ls & rest & _ & _ & _ & _ & H). vm_compute in Hr. injection Hr as <-.
  split; [done|]. by apply H.
Defined.
