(* ===== verification/LibeventHttp.v ===== *)
(** * LibeventHttp: two HTTP servers on libevent

    Models [libevent/http-server.c], which sends the files and directories under a
    document root, and [libevent/HTTP_SERVER/main.cpp], which sends back the parts
    of the URI. What libevent makes of a URI (parsing, decoding, the query) and what
    the system finds behind a path are parameters; [getopt] of the C library, which
    both read their options with, is modelled with its reordering of [argv].

    [send_document_cb] yields the list of what it does, in order: the resources it
    acquires, releases and hands over, the paths it looks at, its output and its
    answers. *)
From S2P Require Import Prelude.
From S2P Require HttpHandler.

(** ** [getopt] *)

Section getopt.
(** The letters of the option string, and whether an argument follows. *)
Context (optstring : list (ascii * bool)).

Fixpoint takes_argument (c : ascii) (os : list (ascii * bool)) : option bool :=
  match os with [] => None | (d, b) :: os' => if decide (c = d) then Some b else takes_argument c os' end.

(** The letters of one element: the options with their arguments, and the number of
    elements after it that are used; ["?"] for what is wrong. *)
Fixpoint letters (s : str) (next : list str) : list (ascii * option str) * nat :=
  match s with
  | [] => ([], 0)
  | c :: s' =>
      match takes_argument c optstring with
      | None => let '(os, k) := letters s' next in (("?"%char, None) :: os, k)
      | Some false => let '(os, k) := letters s' next in ((c, None) :: os, k)
      | Some true =>
          match s', next with
          | [], [] => ([("?"%char, None)], 0)
          | [], a :: _ => ([(c, Some a)], 1)
          | _, _ => ([(c, Some s')], 0)
          end
      end
  end.

(** What the calls return, and the elements of [argv] in the order that [getopt]
    leaves them in: those of the options, then the others. *)
Record parsed := Parsed { opts : list (ascii * option str); elements : list str; others : list str }.

Definition with_element (es : list str) (os : list (ascii * option str)) (p : parsed) : parsed :=
  Parsed (os ++ opts p) (es ++ elements p) (others p).

Fixpoint getopt (args : list str) : parsed :=
  match args with
  | [] => Parsed [] [] []
  | a :: rest =>
      if decide (a = lit "--") then Parsed [] [a] rest
      else
        match a with
        | "-"%char :: (_ :: _) as s =>
            match letters s rest, rest with
            | (os, S _), b :: rest' => with_element [a; b] os (getopt rest')
            | (os, _), _ => with_element [a] os (getopt rest)
            end
        | _ => let p := getopt rest in Parsed (opts p) (elements p) (a :: others p)
        end
  end.
End getopt.

(** [evhttp_start] and [evhttp_bind_socket] take a port of 16 bits. *)
Definition to_port (z : Z) : Z := (z mod 65536)%Z.

(** ** [http-server.c] *)

Module Documents.

Definition content_type_table : list (str * str) :=
  [(lit "txt", lit "text/plain"); (lit "c", lit "text/plain"); (lit "h", lit "text/plain"); (lit "html", lit "text/html");
   (lit "htm", lit "text/htm"); (lit "css", lit "text/css"); (lit "gif", lit "image/gif"); (lit "jpg", lit "image/jpeg");
   (lit "jpeg", lit "image/jpeg"); (lit "png", lit "image/png"); (lit "pdf", lit "application/pdf"); (lit "ps", lit "application/postscript")].

(** [strrchr]: the text from the last [c] on. *)
Fixpoint strrchr (s : str) (c : ascii) : option str :=
  match s with
  | [] => None
  | d :: s' => match strrchr s' c with Some t => Some t | None => if decide (d = c) then Some s else None end
  end.

(** [evutil_ascii_strcasecmp(...) == 0]. *)
Definition same_letters (s t : str) : bool := bool_decide (tolower <$> s = tolower <$> t).

Fixpoint find_type (table : list (str * str)) (extension : str) : str :=
  match table with
  | [] => lit "application/misc"
  | (e, t) :: table' => if same_letters e extension then t else find_type table' extension
  end.

Definition guess_content_type (path : str) : str :=
  match strrchr path "." with
  | None => lit "application/misc"
  | Some last_period =>
      if bool_decide ("/"%char ∈ last_period) then lit "application/misc"
      else find_type content_type_table (tail last_period)
  end.

Inductive command := GET | POST | HEAD | PUT | DELETE | OPTIONS | TRACE | CONNECT | PATCH | other_command.
#[export] Instance command_eq_dec : EqDecision command.
Proof. solve_decision. Defined.

Definition cmdtype (c : command) : str :=
  match c with
  | GET => lit "GET" | POST => lit "POST" | HEAD => lit "HEAD" | PUT => lit "PUT" | DELETE => lit "DELETE"
  | OPTIONS => lit "OPTIONS" | TRACE => lit "TRACE" | CONNECT => lit "CONNECT" | PATCH => lit "PATCH" | other_command => lit "unknown"
  end.

Record evhttp_request := Request { cmd : command; uri : str; input_headers : list (str * str); input_buffer : str }.

Inductive answer := send_error (code : Z) | send_reply (code : Z) (headers : list (str * str)) (body : str).

Inductive resource := r_decoded | r_decoded_path | r_whole_path | r_evb | r_dir | r_fd.
#[export] Instance resource_eq_dec : EqDecision resource.
Proof. solve_decision. Defined.

(** [hands_over]: libevent closes the descriptor with the buffer. *)
Inductive call :=
  | acquires (r : resource) | releases (r : resource) | hands_over (r : resource)
  | looks_at (path : str) | prints (s : str) | answers (a : answer).

(** The loop over the body, 128 bytes at a time; [None]: out of fuel. *)
Definition cbuf_size : nat := 128.
Fixpoint dump_loop (fuel : nat) (buf : str) : option str :=
  match fuel with
  | O => None
  | S fuel' => match buf with [] => Some [] | _ => rest ← dump_loop fuel' (drop cbuf_size buf); Some (take cbuf_size buf ++ rest) end
  end.

Definition dump_text (req : evhttp_request) : str :=
  lit "Received a " ++ cmdtype (cmd req) ++ lit " request for " ++ uri req ++ [LF] ++ lit "Headers:" ++ [LF] ++
  concat ((fun h => lit "  " ++ fst h ++ lit ": " ++ snd h ++ [LF]) <$> input_headers req) ++
  lit "Input data: <<<" ++ [LF] ++ default [] (dump_loop (S (length (input_buffer req))) (input_buffer req)) ++ lit ">>>" ++ [LF].

Definition dump_request_cb (req : evhttp_request) : list call :=
  [prints (dump_text req); answers (send_reply 200 [] [])].

Section documents.
(** [evhttp_uri_parse] with [evhttp_uri_get_path], [evhttp_uridecode]; [stat] (a
    directory or not), the names [readdir] gives, the bytes of a file, whether [fstat]
    works; whether there is memory. *)
Context (uri_path : str -> option (option str)) (uridecode : str -> option str).
Context (stat : str -> option bool) (opendir : str -> option (list str)) (open : str -> option str) (fstat : str -> bool) (memory : bool).
Context (docroot : str).

(** The label [done] with what is held there. *)
Definition done_ (held : list resource) : list call := releases <$> held.
(** The label [err]. *)
Definition err (held : list resource) : list call :=
  answers (send_error 404) :: (if decide (r_fd ∈ held) then [releases r_fd] else []) ++ done_ (filter (fun r => r <> r_fd) held).

Definition QUOTE : ascii := "034"%char.

Definition listing (decoded_path path : str) (names : list str) : str :=
  let trailing_slash := if decide (last path = Some "/"%char) then [] else lit "/" in
  lit "<!DOCTYPE html>" ++ [LF] ++ lit "<html>" ++ [LF] ++ lit " <head>" ++ [LF] ++ lit "  <meta charset='utf-8'>" ++ [LF] ++
  lit "  <title>" ++ decoded_path ++ lit "</title>" ++ [LF] ++ lit "  <base href='" ++ path ++ trailing_slash ++ lit "'>" ++ [LF] ++
  lit " </head>" ++ [LF] ++ lit " <body>" ++ [LF] ++ lit "  <h1>" ++ decoded_path ++ lit "</h1>" ++ [LF] ++ lit "  <ul>" ++ [LF] ++
  concat ((fun name => lit "    <li><a href=" ++ [QUOTE] ++ name ++ [QUOTE] ++ lit ">" ++ name ++ lit "</a>" ++ [LF]) <$> names) ++
  lit "</ul></body></html>" ++ [LF].
Definition send_document_cb (req : evhttp_request) : list call :=
  if decide (cmd req <> GET) then dump_request_cb req
  else
    prints (lit "Got a GET request for <" ++ uri req ++ lit ">" ++ [LF]) ::
    match uri_path (uri req) with
    | None => [prints (lit "It's not a good URI. Sending BADREQUEST" ++ [LF]); answers (send_error 400)]
    | Some path =>
        let path := default (lit "/") path in
        acquires r_decoded ::
        match uridecode path with
        | None => err [r_decoded]
        | Some bytes =>
            let decoded_path := c_str bytes in
            acquires r_decoded_path ::
            if HttpHandler.has_dotdot decoded_path then err [r_decoded; r_decoded_path]
            else
              let len := length decoded_path + length docroot + 2 in
              if memory then
                let whole_path := take (len - 1) (docroot ++ lit "/" ++ decoded_path) in
                acquires r_whole_path :: looks_at whole_path ::
                match stat whole_path with
                | None => err [r_decoded; r_decoded_path; r_whole_path]
                | Some is_dir =>
                    acquires r_evb :: looks_at whole_path ::
                    (if is_dir : bool then
                      match opendir whole_path with
                      | None => err [r_decoded; r_decoded_path; r_whole_path; r_evb]
                      | Some names =>
                          [acquires r_dir; releases r_dir;
                           answers (send_reply 200 [(lit "Content-Type", lit "text/html")] (listing decoded_path path names))] ++
                          done_ [r_decoded; r_decoded_path; r_whole_path; r_evb]
                      end
                    else
                      match open whole_path with
                      | None => err [r_decoded; r_decoded_path; r_whole_path; r_evb]
                      | Some bytes =>
                          acquires r_fd ::
                          if fstat whole_path then
                            [hands_over r_fd; answers (send_reply 200 [(lit "Content-Type", guess_content_type decoded_path)] bytes)] ++
                            done_ [r_decoded; r_decoded_path; r_whole_path; r_evb]
                          else err [r_decoded; r_decoded_path; r_whole_path; r_evb; r_fd]
                      end)
                end
              else err [r_decoded; r_decoded_path]
        end
    end.

(** The callback of a request: one for the path [/dump], the other for the rest. *)
Definition dispatch (is_dump : str -> bool) (req : evhttp_request) : list call :=
  if is_dump (uri req) then dump_request_cb req else send_document_cb req.
End documents.

(** *** Options and the start *)

Record options := Options { port : Z; iocp : Z; verbose : Z; unlink : Z; unixsock : option str }.

Definition optstring : list (ascii * bool) :=
  [("h"%char, false); ("p"%char, true); ("U"%char, true); ("u"%char, false); ("I"%char, false); ("v"%char, false)].

(** [print_usage] exits where [-h] is met. *)
Fixpoint set_options (os : list (ascii * option str)) (o : options) : outcome options :=
  match os with
  | [] => returns o
  | (c, a) :: os' =>
      if decide (c = "h"%char) then exits 0
      else set_options os'
        (if decide (c = "p"%char) then Options (atoi (default [] a)) (iocp o) (verbose o) (unlink o) (unixsock o)
         else if decide (c = "U"%char) then Options (port o) (iocp o) (verbose o) (unlink o) a
         else if decide (c = "u"%char) then Options (port o) (iocp o) (verbose o) 1 (unixsock o)
         else if decide (c = "I"%char) then Options (port o) 1 (verbose o) (unlink o) (unixsock o)
         else if decide (c = "v"%char) then Options (port o) (iocp o) (verbose o + 1) (unlink o) (unixsock o)
         else o)
  end.

(** With [argv] as [getopt] leaves it. *)
Definition parse_opts (args : list str) : outcome (options * list str) :=
  let p := getopt optstring args in
  bind_outcome (set_options (opts p) (Options 0 0 0 0 None)) (fun o =>
    if decide (length (others p) = 1) then returns (o, elements p ++ others p) else exits 1).

(** What [getsockname] gives. *)
Inductive sockname := no_name | inet (addr : option str) (port : Z) | unix (path : str) | weird.

(** The return value and [uri_root]. *)
Definition display_listen_sock (name : sockname) : Z * str :=
  match name with
  | inet (Some addr) got_port => (0%Z, take 511 (lit "http://" ++ addr ++ lit ":" ++ format_int 0 got_port))
  | unix _ => (0%Z, [])
  | no_name | inet None _ | weird => (1%Z, [])
  end.

(** What the calls of [main] give: [signal], [evhttp_new], the removal of the old
    socket (with [ENOENT] or not), the listener on the local socket, the bound
    socket, its name, [evsignal_new], [event_add]. *)
Record surroundings := Surroundings {
  signal_ok : bool; http_ok : bool; unlink_ok : bool; lev_ok : bool; handle_ok : bool; name : sockname; term_ok : bool; add_ok : bool }.

Definition sun_path_size : nat := 108.

(** The status, and the document root where requests have been served. *)
Definition main (s : surroundings) (args : list str) : outcome (Z * option str) :=
  bind_outcome (parse_opts args) (fun '(o, argv) =>
    if negb (signal_ok s) then returns (1%Z, None)
    else if negb (http_ok s) then undefined
    else
      let serve :=
        if negb (handle_ok s) then returns (1%Z, None)
        else if decide ((display_listen_sock (name s)).1 <> 0%Z) then returns (1%Z, None)
        else if negb (term_ok s) then returns (0%Z, None)
        else if negb (add_ok s) then returns (0%Z, None)
        else returns (0%Z, head argv) in
      match unixsock o with
      | Some path =>
          if negb (bool_decide (unlink o = 0%Z)) && negb (unlink_ok s) then returns (1%Z, None)
          else if (length path <? sun_path_size)%nat then if lev_ok s then serve else returns (1%Z, None)
          else undefined
      | None => serve
      end).

End Documents.

(** ** [HTTP_SERVER/main.cpp] *)

Module Myhttpd.

Definition output_size : nat := 2048.
Definition tmp_size : nat := 1024.

(** [sprintf] of a line into [tmp], then [strcat] to [output]; what glibc prints for
    a null pointer. *)
Definition add_line (key : str) (value : option str) (output : str) : outcome str :=
  let tmp := key ++ lit "=" ++ default (lit "(null)") value ++ [LF] in
  if (length tmp <? tmp_size)%nat && (length (output ++ tmp) <? output_size)%nat then returns (output ++ tmp) else undefined.

Section handler.
(** [evhttp_decode_uri]; the value of a parameter of the query of a URI. *)
Context (decode_uri : str -> str) (find_parameter : str -> str -> option str).

Definition httpd_handler (uri : str) : outcome (list (str * str) * str) :=
  bind_outcome (add_line (lit "uri") (Some uri) []) (fun output =>
  let decoded_uri := decode_uri uri in
  bind_outcome (add_line (lit "decoded_uri") (Some decoded_uri) output) (fun output =>
  bind_outcome (add_line (lit "q") (find_parameter decoded_uri (lit "q")) output) (fun output =>
  bind_outcome (add_line (lit "s") (find_parameter decoded_uri (lit "s")) output) (fun output =>
  returns ([(lit "Server", lit "myhttpd v 0.0.1"); (lit "Content-Type", lit "text/plain; charset=UTF-8"); (lit "Connection", lit "close")],
    lit "It works!" ++ [LF] ++ output ++ [LF]))))).
End handler.

Record settings := Settings { listen : str; httpd_port : Z; daemon : bool; timeout : Z }.

Definition httpd_optstring : list (ascii * bool) :=
  [("l"%char, true); ("p"%char, true); ("d"%char, false); ("t"%char, true); ("h"%char, false)].

Fixpoint httpd_options (os : list (ascii * option str)) (o : settings) : outcome settings :=
  match os with
  | [] => returns o
  | (c, a) :: os' =>
      if decide (c = "l"%char) then httpd_options os' (Settings (default [] a) (httpd_port o) (daemon o) (timeout o))
      else if decide (c = "p"%char) then httpd_options os' (Settings (listen o) (atoi (default [] a)) (daemon o) (timeout o))
      else if decide (c = "d"%char) then httpd_options os' (Settings (listen o) (httpd_port o) true (timeout o))
      else if decide (c = "t"%char) then httpd_options os' (Settings (listen o) (httpd_port o) (daemon o) (atoi (default [] a)))
      else exits 0
  end.

(** What [fork] gives, and whether [evhttp_start] can listen. *)
Inductive forked := no_fork | parent | child.

(** The address, the port and the timeout of the server that is started. *)
Definition httpd_main (fork : forked) (start_ok : bool) (args : list str) : outcome (str * Z * Z) :=
  bind_outcome (httpd_options (opts (getopt httpd_optstring args)) (Settings (lit "0.0.0.0") 8080 false 120)) (fun o =>
    let start := if start_ok then returns (listen o, to_port (httpd_port o), timeout o) else undefined in
    if daemon o then match fork with no_fork => exits 1 | parent => exits 0 | child => start end
    else start).

Inductive sig := SIGTERM | SIGHUP | SIGQUIT | SIGINT | other_signal.
(** Whether the loop is left. *)
Definition signal_handler (s : sig) : bool := match s with SIGTERM | SIGHUP | SIGQUIT | SIGINT => true | other_signal => false end.

End Myhttpd.

(** ** Theorems *)

(** *** [getopt] *)

Section getopt_facts.
Context (optstring : list (ascii * bool)).

(** The ways an argument is taken. *)
Lemma getopt_cons a rest :
  (exists os b rest', rest = b :: rest' /\ head a = Some "-"%char /\ getopt optstring (a :: rest) = with_element [a; b] os (getopt optstring rest')) \/
  (exists os, head a = Some "-"%char /\ getopt optstring (a :: rest) = with_element [a] os (getopt optstring rest)) \/
  (a = lit "--" /\ getopt optstring (a :: rest) = Parsed [] [a] rest) \/
  getopt optstring (a :: rest) = Parsed (opts (getopt optstring rest)) (elements (getopt optstring rest)) (a :: others (getopt optstring rest)).
Proof.
  destruct (decide (a = lit "--")) as [->|Hd]; [right; right; left; split; [done|by cbn; rewrite decide_True]|].
  destruct (decide (head a = Some "-"%char /\ tail a <> [])) as [[Hh Ht]|Hn].
  - destruct a as [|c [|c' s]]; try done. injection Hh as ->.
    assert (Hg : getopt optstring (("-"%char :: c' :: s) :: rest) =
      match letters optstring (c' :: s) rest, rest with
      | (os, S _), b :: rest' => with_element [("-"%char :: c' :: s); b] os (getopt optstring rest')
      | (os, _), _ => with_element [("-"%char :: c' :: s)] os (getopt optstring rest)
      end) by (cbn [getopt]; by rewrite decide_False).
    rewrite Hg. destruct (letters optstring (c' :: s) rest) as [os [|k]]; [right; left; by exists os|].
    destruct rest as [|b rest']; [right; left; by exists os|left; by exists os, b, rest'].
  - right. right. right. cbn [getopt]. rewrite decide_False by done. destruct a as [|c [|c' s]]; [done| |].
    + destruct c as [[] [] [] [] [] [] [] []]; done.
    + destruct c as [[] [] [] [] [] [] [] []]; try done. by destruct Hn.
Qed.

(** By the number of elements; two may be used at once. *)
Lemma args_ind (P : list str -> Prop) :
  P [] -> (forall a rest, P rest -> (forall b rest', rest = b :: rest' -> P rest') -> P (a :: rest)) -> forall args, P args.
Proof.
  intros H0 HS args. enough (P args /\ forall b rest, args = b :: rest -> P rest) by tauto.
  induction args as [|a rest [IH1 IH2]]; [done|]. split; [by apply HS|]. by intros b rest' [= <- <-].
Qed.

Lemma getopt_permutes args : elements (getopt optstring args) ++ others (getopt optstring args) ≡ₚ args.
Proof.
  induction args as [|a rest IH1 IH2] using args_ind; [done|].
  destruct (getopt_cons a rest) as [(os & b & rest' & -> & _ & ->)|[(os & _ & ->)|[[-> ->]| ->]]]; cbn.
  - by rewrite (IH2 b rest' eq_refl).
  - by rewrite IH1.
  - done.
  - rewrite <- Permutation_middle. by rewrite IH1.
Qed.

(** The first element of [argv] after [getopt] is an option if there is one. *)
Lemma getopt_first args e es : elements (getopt optstring args) = e :: es -> head e = Some "-"%char.
Proof.
  revert e es. induction args as [|a rest IH1 IH2] using args_ind; intros e es; [done|].
  destruct (getopt_cons a rest) as [(os & b & rest' & -> & Hh & ->)|[(os & Hh & ->)|[[-> ->]| ->]]]; cbn; [by intros [= <- _]..|by intros [= <- _]|apply IH1].
Qed.
End getopt_facts.

(** *** The document root *)

Section main.
Import Documents.

(** [main] of [http-server.c] gives [argv\[1\]] to the callback after [getopt] has moved
    the options to the front: the document root is used where it is the only
    argument, and with any option that option is taken for it. *)
Theorem served_docroot s args d :
  main s args = returns (0%Z, Some d) -> exists docroot,
    others (getopt optstring args) = [docroot] /\
    (elements (getopt optstring args) = [] -> args = [docroot] /\ d = docroot) /\
    (elements (getopt optstring args) <> [] -> head d = Some "-"%char).
Proof.
  unfold main, parse_opts. destruct (set_options _ _) as [o| |]; [|done..]. cbn [bind_outcome]. case_decide as Hl; [|done]. cbn [bind_outcome].
  intros Hm. assert (Hd : head (elements (getopt optstring args) ++ others (getopt optstring args)) = Some d).
  { repeat case_match; try done; try congruence. }
  destruct (others (getopt optstring args)) as [|docroot [|]] eqn:Ho; try done. exists docroot. split; [done|].
  pose proof (getopt_permutes optstring args) as Hp. rewrite Ho in Hp. destruct (elements (getopt optstring args)) as [|e es] eqn:He.
  - injection Hd as <-. split; [|done]. intros _. split; [|done]. by apply Permutation_singleton_l in Hp.
  - injection Hd as <-. split; [done|]. intros _. by apply (getopt_first optstring args e es).
Qed.

(** *** The callback *)

(** What is held: nothing is acquired twice, nor released without being held. *)
Fixpoint ledger (held : list resource) (cs : list call) : option (list resource) :=
  match cs with
  | [] => Some held
  | acquires r :: cs' => if decide (r ∈ held) then None else ledger (r :: held) cs'
  | releases r :: cs' | hands_over r :: cs' => if decide (r ∈ held) then ledger (filter (fun r' => r' <> r) held) cs' else None
  | _ :: cs' => ledger held cs'
  end.

Definition answers_of (cs : list call) : list answer := omap (fun c => match c with answers a => Some a | _ => None end) cs.
Definition paths_of (cs : list call) : list str := omap (fun c => match c with looks_at p => Some p | _ => None end) cs.

Context (uri_path : str -> option (option str)) (uridecode : str -> option str).
Context (stat : str -> option bool) (opendir : str -> option (list str)) (open : str -> option str) (fstat : str -> bool) (memory : bool).
Context (docroot : str) (is_dump : str -> bool).

Notation callback := (dispatch uri_path uridecode stat opendir open fstat memory docroot is_dump).

Lemma whole_path_fits p : take (length p + length docroot + 2 - 1) (docroot ++ lit "/" ++ p) = docroot ++ lit "/" ++ p.
Proof. apply take_ge. rewrite !length_app. cbn. lia. Qed.

(** C4: [http-server.c], for every request and whatever the system answers: there is
    exactly one answer; everything acquired is released once, or handed over, and
    nothing is released twice; and only paths under the document root are looked at. *)
Theorem callback_safe req :
  length (answers_of (callback req)) = 1 /\ ledger [] (callback req) = Some [] /\
  forall p, p ∈ paths_of (callback req) -> exists q, p = docroot ++ "/"%char :: q /\ lit ".." ∉ HttpHandler.split_on "/"%char ("/"%char :: q).
Proof.
  unfold dispatch, send_document_cb. destruct (is_dump (uri req)); [split_and!; [done..|]; by intros p ?%elem_of_nil|].
  case_decide; [split_and!; [done..|]; by intros p ?%elem_of_nil|].
  destruct (uri_path (uri req)) as [path|]; [|split_and!; [done..|]; by intros p ?%elem_of_nil].
  destruct (uridecode (default (lit "/") path)) as [bytes|]; [|split_and!; [done..|]; by intros p ?%elem_of_nil].
  destruct (HttpHandler.has_dotdot (c_str bytes)) eqn:Hdd; [split_and!; [done..|]; by intros p ?%elem_of_nil|].
  destruct memory; [|split_and!; [done..|]; by intros p ?%elem_of_nil].
  rewrite whole_path_fits. set (whole := docroot ++ lit "/" ++ c_str bytes).
  assert (Hw : exists q, whole = docroot ++ "/"%char :: q /\ lit ".." ∉ HttpHandler.split_on "/"%char ("/"%char :: q)).
  { exists (c_str bytes). split; [done|]. apply HttpHandler.no_dotdot_component. by apply (HttpHandler.has_dotdot_slash ["/"%char]). }
  clearbody whole. destruct (stat whole) as [[]|]; [destruct (opendir whole)|destruct (open whole); [destruct (fstat whole)|]|];
    (split_and!; [done..|]; intros p Hp; cbn in Hp; repeat (apply elem_of_cons in Hp as [->|Hp]; [done|]); by apply elem_of_nil in Hp).
Qed.
End main.

(** *** Content types and the dump *)

Lemma strrchr_app s t c : Documents.strrchr (s ++ t) c =
  match Documents.strrchr t c with Some u => Some u | None => (fun u => u ++ t) <$> Documents.strrchr s c end.
Proof.
  induction s as [|d s IH]; cbn; [by destruct (Documents.strrchr t c)|]. rewrite IH.
  destruct (Documents.strrchr t c); [done|]. destruct (Documents.strrchr s c); [done|]. by case_decide.
Qed.

Lemma strrchr_suffix s c t : Documents.strrchr s c = Some t -> exists p, s = p ++ t.
Proof.
  revert t. induction s as [|d s IH]; intros t; cbn; [done|]. destruct (Documents.strrchr s c) as [u|].
  - intros [= <-]. destruct (IH u eq_refl) as [p ->]. by exists (d :: p).
  - case_decide; intros [= <-]. by exists [].
Qed.

(** The type depends on the last component of the path alone. *)
Lemma guess_content_type_name d name : "/"%char ∉ name ->
  Documents.guess_content_type (d ++ "/"%char :: name) = Documents.guess_content_type name.
Proof.
  intros Hn. unfold Documents.guess_content_type. rewrite strrchr_app. cbn [Documents.strrchr].
  destruct (Documents.strrchr name ".") as [t|]; [done|]. rewrite decide_False by done.
  destruct (Documents.strrchr d ".") as [u|] eqn:Hu; cbn; [|done]. rewrite bool_decide_true; [done|]. set_solver.
Qed.

Lemma dump_loop_all fuel buf : length buf < fuel -> Documents.dump_loop fuel buf = Some buf.
Proof.
  revert buf. induction fuel as [|fuel IH]; intros buf Hf; [lia|]. cbn [Documents.dump_loop]. destruct buf as [|b buf]; [done|].
  rewrite IH by (rewrite length_drop; unfold Documents.cbuf_size; cbn in *; lia). cbn [mbind option_bind]. by rewrite take_drop.
Qed.

(** *** The handler of [HTTP_SERVER] *)

Section handler.
Import Myhttpd.
Context (decode_uri : str -> str) (find_parameter : str -> str -> option str).

Definition line (key : str) (value : option str) : str := key ++ lit "=" ++ default (lit "(null)") value ++ [LF].
Definition body_lines (uri : str) : list str :=
  [line (lit "uri") (Some uri); line (lit "decoded_uri") (Some (decode_uri uri));
   line (lit "q") (find_parameter (decode_uri uri) (lit "q")); line (lit "s") (find_parameter (decode_uri uri) (lit "s"))].

Lemma add_line_line key value output :
  add_line key value output =
  if decide (length (line key value) < tmp_size /\ length output + length (line key value) < output_size) then returns (output ++ line key value) else undefined.
Proof.
  unfold add_line. change (key ++ lit "=" ++ default (lit "(null)") value ++ [LF]) with (line key value). rewrite length_app.
  destruct (Nat.ltb_spec (length (line key value)) tmp_size), (Nat.ltb_spec (length output + length (line key value)) output_size); cbn [andb];
    first [rewrite decide_True by lia | rewrite decide_False by lia]; done.
Qed.

(** One line after the other. *)
Fixpoint add_lines (ls : list str) (output : str) : outcome str :=
  match ls with
  | [] => returns output
  | l :: ls' =>
      bind_outcome (if decide (length l < tmp_size /\ length output + length l < output_size) then returns (output ++ l) else undefined) (add_lines ls')
  end.

Lemma add_lines_spec ls output : length output < output_size ->
  add_lines ls output =
  if decide (Forall (fun l => length l < tmp_size) ls /\ length output + length (concat ls) < output_size) then returns (output ++ concat ls) else undefined.
Proof.
  revert output. induction ls as [|l ls IH]; intros output Ho; cbn [add_lines concat].
  - rewrite decide_True by (split; [constructor|cbn; lia]). by rewrite app_nil_r.
  - rewrite length_app. destruct (decide (length l < tmp_size /\ length output + length l < output_size)) as [[H1 H2]|H]; cbn [bind_outcome].
    + rewrite IH, !length_app by (rewrite length_app; lia). rewrite <- app_assoc. apply decide_ext. rewrite Forall_cons. split; intros [? ?]; (split; [tauto|lia]).
    + rewrite decide_False; [done|]. rewrite Forall_cons. intros [[? _] ?]. apply H. lia.
Qed.

(** [httpd_handler] answers with the URI, its decoded form and the parameters [q] and
    [s] exactly if each of the four lines fits [tmp] and together they fit [output];
    anything longer, which a client may send, overruns one of the two arrays. *)
Theorem httpd_handler_safe_iff uri :
  httpd_handler decode_uri find_parameter uri =
  if decide (Forall (fun l => length l < tmp_size) (body_lines uri) /\ length (concat (body_lines uri)) < output_size) then
    returns ([(lit "Server", lit "myhttpd v 0.0.1"); (lit "Content-Type", lit "text/plain; charset=UTF-8"); (lit "Connection", lit "close")],
      lit "It works!" ++ [LF] ++ concat (body_lines uri) ++ [LF])
  else undefined.
Proof.
  assert (H : httpd_handler decode_uri find_parameter uri = bind_outcome (add_lines (body_lines uri) []) (fun output =>
    returns ([(lit "Server", lit "myhttpd v 0.0.1"); (lit "Content-Type", lit "text/plain; charset=UTF-8"); (lit "Connection", lit "close")],
      lit "It works!" ++ [LF] ++ output ++ [LF]))).
  { unfold httpd_handler, body_lines. rewrite add_line_line. cbn [add_lines].
    destruct (decide _); cbn [bind_outcome]; [|done]. rewrite add_line_line.
    destruct (decide _); cbn [bind_outcome]; [|done]. rewrite add_line_line.
    destruct (decide _); cbn [bind_outcome]; [|done]. rewrite add_line_line.
    by destruct (decide _). }
  rewrite H, add_lines_spec by apply Nat.ltb_lt, eq_refl. cbn [length Nat.add app]. by destruct (decide _).
Qed.

Lemma long_uri uri : 1019 <= length uri -> httpd_handler decode_uri find_parameter uri = undefined.
Proof.
  intros Hu. rewrite httpd_handler_safe_iff, decide_False; [done|]. intros [[Hl _]%Forall_cons _]. revert Hl.
  unfold line. rewrite !length_app. change (length (lit "uri")) with 3. change (length (lit "=")) with 1. cbn [default length]. unfold id.
  change tmp_size with (5 + 1019). lia.
Qed.
End handler.

(** ** Examples *)

Section examples.
Import Documents.

(** A document root with a file in a directory. *)
Definition example_stat (p : str) : option bool :=
  if decide (p = lit "/srv//docs") then Some true else if decide (p = lit "/srv//docs/a.HTML") then Some false else None.
Definition example_cb (u : str) : list call :=
  send_document_cb (fun u => Some (Some u)) Some example_stat (fun _ => Some [lit "a.HTML"])
    (fun p => if decide (p = lit "/srv//docs/a.HTML") then Some (lit "<p>") else None) (fun _ => true) true (lit "/srv") (Request GET u [] []).

Example sends_file : answers_of (example_cb (lit "/docs/a.HTML")) = [send_reply 200 [(lit "Content-Type", lit "text/html")] (lit "<p>")].
Proof. vm_compute. reflexivity. Qed.

Example no_dotdot : answers_of (example_cb (lit "/docs/../x")) = [send_error 404] /\ paths_of (example_cb (lit "/docs/../x")) = [].
Proof. vm_compute. done. Qed.

Example htm_type : guess_content_type (lit "/index.htm") = lit "text/htm".
Proof. vm_compute. reflexivity. Qed.

Definition all_well : surroundings := Surroundings true true true true true (inet (Some (lit "0.0.0.0")) 80) true true.

Lemma served_docroot_witness :
  main all_well [lit "/srv"] = returns (0%Z, Some (lit "/srv")) /\
  exists docroot, others (getopt optstring [lit "-p"; lit "80"; lit "/srv"]) = [docroot] /\
    main all_well [lit "-p"; lit "80"; lit "/srv"] = returns (0%Z, Some (lit "-p")).
Proof.
  split; [vm_compute; reflexivity|]. destruct (served_docroot all_well [lit "-p"; lit "80"; lit "/srv"] (lit "-p")) as (d & Hd & _ & _); [vm_compute; reflexivity|].
  exists d. split; [exact Hd|vm_compute; reflexivity].
Defined.

(** The loop cannot be left by a signal, and [main] returns 0. *)
Example no_signal_handler : main (Surroundings true true true true true (inet (Some (lit "0.0.0.0")) 80) false true) [lit "/srv"] = returns (0%Z, None).
Proof. vm_compute. reflexivity. Qed.

Example long_socket_name : main all_well [lit "-U"; replicate 108 "s"%char; lit "/srv"] = undefined.
Proof. vm_compute. reflexivity. Qed.

Example port_80 : Myhttpd.httpd_main Myhttpd.no_fork true [lit "-p65616"; lit "-l"; lit "::1"] = returns (lit "::1", 80%Z, 120%Z).
Proof. vm_compute. reflexivity. Qed.

Example cannot_listen : Myhttpd.httpd_main Myhttpd.no_fork false [] = undefined.
Proof. vm_compute. reflexivity. Qed.
End examples.
