(* ===== verification/Ipc.v ===== *)
(** * Ipc: pipes, named pipes, shared memory and semaphores between processes

    Models the programs of [ipc]: [pipe.c], [fifo_server.c] with [fifo_client.c],
    [shm_server.c] with [shm_client.c] ([shm_comm.c]), and [sem_set.c] ([sem_comm.c]),
    each as the steps its processes take in any order. A step that has to wait is
    [None]. The sleeps between the steps, and messages on the error output, are left
    out. What a buffer holds after several reads is said in [NetServers]. *)
From S2P Require Import Prelude.
From S2P Require Import NetServers.

(** ** A pipe between a father and its child *)

Module Pipe.

Definition msg : str := lit "i am from XATU".
Definition count : nat := 5.

Inductive father := reading (count : nat) | exited (code : Z) | wait_success.

(** How often the child still writes, [None] when it has ended; the bytes in the
    pipe; the father with its array [msg] and what it has printed. *)
Record pipe_st := Pipe_ { child : option nat; pipe : str; dad : father; msg_buf : str; lines : list str }.

Definition p_start (garbage : str) : pipe_st := Pipe_ (Some count) [] (reading count) garbage [].

Inductive p_event := writes | child_exits | reads | waits.

(** The child is killed if nobody can read any more. The father's [read] waits while
    the pipe is empty and the child can write; it gives what is there up to
    [sizeof(msg)-1] bytes. [waitpid] does not fail: there is a child. *)
Definition p_step (e : p_event) (st : pipe_st) : option (outcome pipe_st) :=
  match e, child st, dad st with
  | writes, Some (S k), reading _ => Some (returns (Pipe_ (Some k) (pipe st ++ msg) (dad st) (msg_buf st) (lines st)))
  | writes, Some (S k), _ => Some (returns (Pipe_ None (pipe st) (dad st) (msg_buf st) (lines st)))
  | child_exits, Some 0, _ => Some (returns (Pipe_ None (pipe st) (dad st) (msg_buf st) (lines st)))
  | reads, _, reading (S c) =>
      match pipe st, child st with
      | [], Some _ => None
      | [], None => Some (returns (Pipe_ None [] (exited 1) (msg_buf st) (lines st)))
      | p, k =>
          let s := take (MAXSIZE - 1) p in
          let b := <[length s := NUL]> (recv_into s (msg_buf st)) in
          Some (bind_outcome (shown b) (fun text =>
            returns (Pipe_ k (drop (MAXSIZE - 1) p) (reading c) b (lines st ++ [text]))))
      end
  | waits, _, reading 0 => Some (returns (Pipe_ (child st) (pipe st) wait_success (msg_buf st) (lines st)))
  | _, _, _ => None
  end.

End Pipe.

(** ** A named pipe from the keyboard to another terminal *)

Module NamedPipe.

(** Both arrays [buf], what is in the pipe, how the processes ended, the prompts of
    the server and the lines of the client; [messages] is what was written. *)
Record fifo_st := Fifo {
  server_buf : str; client_buf : str; fifo : str; server_exit : option Z; client_exit : option Z;
  prompts : nat; screen : list str; messages : list str }.

Definition f_start (g1 g2 : str) : fifo_st := Fifo g1 g2 [] None None 0 [] [].

(** A turn of the loop of the server, with what [read] gives (no bytes at the end of
    the input, [None] for an error) and whether [write] succeeds; a turn of the loop
    of the client, with whether [read] succeeds. *)
Inductive f_event := server_turn (s : option str) (ok : bool) | client_turn (ok : bool).

(** Both open the pipe for reading and writing, so the client waits when it is empty,
    and the server is not killed. A write waits for room. *)
Definition f_step (capacity : nat) (e : f_event) (st : fifo_st) : option (outcome fifo_st) :=
  match e with
  | server_turn a ok =>
      match server_exit st, a with
      | Some _, _ => None
      | None, None | None, Some [] =>
          Some (returns (Fifo (server_buf st) (client_buf st) (fifo st) None (client_exit st) (S (prompts st)) (screen st) (messages st)))
      | None, Some s =>
          let b := <[length s - 1 := NUL]> (recv_into s (server_buf st)) in
          let sent := take (length s) b in
          if negb ok then Some (returns (Fifo b (client_buf st) (fifo st) (Some 3%Z) (client_exit st) (S (prompts st)) (screen st) (messages st)))
          else if decide (length (fifo st) + length s <= capacity) then
            Some (returns (Fifo b (client_buf st) (fifo st ++ sent) None (client_exit st) (S (prompts st)) (screen st) (messages st ++ [removelast s])))
          else None
      end
  | client_turn ok =>
      match client_exit st, fifo st with
      | Some _, _ => None
      | None, [] => None
      | None, f =>
          if ok then
            let b := recv_into (take (MAXSIZE - 1) f) (client_buf st) in
            Some (bind_outcome (shown b) (fun text =>
              returns (Fifo (server_buf st) b (drop (MAXSIZE - 1) f) (server_exit st) None (prompts st) (screen st ++ [text]) (messages st))))
          else Some (returns (Fifo (server_buf st) (client_buf st) f (server_exit st) (Some 2%Z) (prompts st) (screen st) (messages st)))
      end
  end.

End NamedPipe.

(** ** Shared memory *)

Module Shm.

Definition SIZE : nat := 4096.

(** The segment of the key, whether it can be attached (its mode). *)
Record segment := Segment { bytes : str; usable : bool }.

(** [excl] stands for [IPC_EXCL|0666], without which the flag is [IPC_CREAT] alone:
    [IPC_EXCL] fails for a segment that exists, and without mode bits a new segment
    cannot be attached by an ordinary user. The result is an identifier or
    negative. *)
Definition CommShm (excl key_ok : bool) (seg : option segment) : Z * option segment :=
  if negb key_ok then (-1, seg)%Z
  else match seg with
       | Some _ => ((if excl then -2 else 0)%Z, seg)
       | None => (0%Z, Some (Segment (replicate SIZE NUL) excl))
       end.
Definition CreatShm := CommShm true.
Definition GetShm := CommShm false.

(** The loops of the programs do not end, so nobody calls it. *)
Definition DestroyShm (seg : option segment) : Z * option segment := match seg with Some _ => (0%Z, None) | None => ((-1)%Z, None) end.

(** [shmat] of the identifier; the result is not tested by the programs. *)
Definition shmat (id : Z) (seg : option segment) : bool := (0 <=? id)%Z && default false (usable <$> seg).

(** The server sleeps, or [%s] has looked at the bytes [seen]; the client is before
    one of its two writes, with its [index]. The boolean says whether [mem] is a
    segment or the pointer -1. *)
Inductive server_at := s_idle | s_scan (seen : str).
Inductive client_at := before_A | before_cut.
Record shm_st := Shm_ { seg : option segment; server : option (bool * server_at); client : option (bool * client_at * nat); shown_lines : list str }.

Definition m_start : shm_st := Shm_ None None None [].

Inductive m_event := server_starts (key_ok : bool) | client_starts (key_ok : bool) | writes_A | cuts | prints | looks.

Definition store (i : nat) (c : ascii) (st : shm_st) : option segment :=
  (fun g => Segment (<[i := c]> (bytes g)) (usable g)) <$> seg st.

Definition m_step (e : m_event) (st : shm_st) : option (outcome shm_st) :=
  match e with
  | server_starts key_ok =>
      let '(id, sg) := CreatShm key_ok (seg st) in
      Some (returns (Shm_ sg (Some (shmat id sg, s_idle)) (client st) (shown_lines st)))
  | client_starts key_ok =>
      let '(id, sg) := GetShm key_ok (seg st) in
      Some (returns (Shm_ sg (server st) (Some (shmat id sg, before_A, 0)) (shown_lines st)))
  | writes_A =>
      match client st with
      | Some (true, before_A, index) =>
          if decide (index < SIZE) then Some (returns (Shm_ (store index "A"%char st) (server st) (Some (true, before_cut, S index)) (shown_lines st)))
          else Some undefined
      | Some (false, before_A, _) => Some undefined
      | _ => None
      end
  | cuts =>
      match client st with
      | Some (b, before_cut, index) =>
          let index := index mod (SIZE - 1) in
          Some (returns (Shm_ (store index NUL st) (server st) (Some (b, before_A, index)) (shown_lines st)))
      | _ => None
      end
  | prints =>
      match server st with
      | Some (true, s_idle) => Some (returns (Shm_ (seg st) (Some (true, s_scan [])) (client st) (shown_lines st)))
      | Some (false, s_idle) => Some undefined
      | _ => None
      end
  | looks =>
      match server st with
      | Some (b, s_scan seen) =>
          match (g ← seg st; bytes g !! length seen) with
          | None => Some undefined
          | Some c =>
              if decide (c = NUL) then Some (returns (Shm_ (seg st) (Some (b, s_idle)) (client st) (shown_lines st ++ [seen])))
              else Some (returns (Shm_ (seg st) (Some (b, s_scan (seen ++ [c]))) (client st) (shown_lines st)))
          end
      | _ => None
      end
  end.

End Shm.

(** ** Semaphores *)

Module SemSet.

(** The semaphores of the key; [None] where there is no set. *)
Definition sems := option (list Z).

(** [semget]: a set that exists must have [num] members; a new one must have some. *)
Definition semget (num : nat) (excl : bool) (s : sems) : option sems :=
  match s with
  | Some l => if excl || (length l <? num)%nat then None else Some (Some l)
  | None => if (num =? 0)%nat then None else Some (Some (replicate num 0%Z))
  end.

Definition commSemSet (num : nat) (excl key_ok : bool) (s : sems) : outcome sems :=
  if negb key_ok then exits 1 else match semget num excl s with None => exits 2 | Some s' => returns s' end.
Definition CreateSemSet (num : nat) := commSemSet num true.
Definition GetSemSet := commSemSet 0 false.

(** [semctl]: -1 where there is no such semaphore. *)
Definition InitSem (which : nat) (s : sems) : Z * sems :=
  match s with
  | Some l => if decide (which < length l) then (0%Z, Some (<[which := 1%Z]> l)) else ((-1)%Z, s)
  | None => ((-1)%Z, s)
  end.
Definition DestroySemSet (s : sems) : Z * sems := match s with Some _ => (0%Z, None) | None => ((-1)%Z, None) end.

(** [semop] waits ([None]) for a value that stays at or above zero; it can fail
    ([interrupted]). *)
Definition SemOp (which : nat) (op : Z) (interrupted : bool) (s : sems) : option (Z * sems) :=
  match (l ← s; l !! which) with
  | None => Some ((-1)%Z, s)
  | Some v => if interrupted then Some ((-1)%Z, s)
              else if (v + op <? 0)%Z then None else Some (0%Z, (fun l => <[which := (v + op)%Z]> l) <$> s)
  end.
Definition P (which : nat) := SemOp which (-1).
Definition V (which : nat) := SemOp which 1.

(** Where a process is in its loop, with its output buffer. *)
Inductive place := at_P | at_print1 | at_flush1 | at_print2 | at_flush2 | at_V.
#[export] Instance place_eq_dec : EqDecision place.
Proof. solve_decision. Defined.
Record process := Process { letter : ascii; pc : place; stdout : str }.
Record set_st := Set_ { semaphore : sems; child : process; parent : process; output : str }.

(** The start of [testSemSet]. *)
Definition s_start (key_ok : bool) (s : sems) : outcome set_st :=
  map_outcome (fun s' => Set_ (snd (InitSem 0 s')) (Process "A" at_P []) (Process "B" at_P []) [])
    (CreateSemSet 1 key_ok s).

(** A step of a process; the results of [P] and [V] are ignored. *)
Definition proc_step (interrupted : bool) (s : sems) (p : process) (out : str) : option (sems * process * str) :=
  match pc p with
  | at_P => r ← P 0 interrupted s; Some (r.2, Process (letter p) at_print1 (stdout p), out)
  | at_print1 => Some (s, Process (letter p) at_flush1 (stdout p ++ [letter p]), out)
  | at_flush1 => Some (s, Process (letter p) at_print2 [], out ++ stdout p)
  | at_print2 => Some (s, Process (letter p) at_flush2 (stdout p ++ [letter p]), out)
  | at_flush2 => Some (s, Process (letter p) at_V [], out ++ stdout p)
  | at_V => r ← V 0 interrupted s; Some (r.2, Process (letter p) at_P (stdout p), out)
  end.

Inductive s_event := child_runs (interrupted : bool) | parent_runs (interrupted : bool).

Definition s_step (e : s_event) (st : set_st) : option (outcome set_st) :=
  match e with
  | child_runs i => '(s, p, out) ← proc_step i (semaphore st) (child st) (output st); Some (returns (Set_ s p (parent st) out))
  | parent_runs i => '(s, p, out) ← proc_step i (semaphore st) (parent st) (output st); Some (returns (Set_ s (child st) p out))
  end.

End SemSet.

(** The step that was taken, without simplifying the state after it. *)
Ltac stepped := let H := fresh in intros H; apply (inj Some) in H; destruct H; eexists; split; [reflexivity|].

#[local] Arguments shown : simpl never.
#[local] Arguments recv_into : simpl never.

(** ** The pipe *)

Section pipe.
Import Pipe.

Definition joined (n : nat) : str := concat (replicate n msg).

Lemma joined_length n : length (joined n) = n * 14.
Proof. induction n as [|n IH]; [done|]. unfold joined in *. cbn [replicate concat]. rewrite length_app, IH. cbn. lia. Qed.
Lemma joined_add m n : joined (m + n) = joined m ++ joined n.
Proof. unfold joined. by rewrite replicate_add, concat_app. Qed.
Lemma joined_nul n : NUL ∉ joined n.
Proof.
  induction n as [|n IH]; [by intros ?%elem_of_nil|]. unfold joined. cbn [replicate concat].
  intros [H|H]%elem_of_app; [|by apply IH]. revert H. apply (bool_decide_eq_true_1 (NUL ∉ msg)). vm_compute. reflexivity.
Qed.
Lemma concat_joined ms : concat (joined <$> ms) = joined (sum_list ms).
Proof. induction ms as [|m ms IH]; [done|]. rewrite fmap_cons. cbn [concat]. by rewrite IH, <- joined_add. Qed.

(** A text read into the array and ended with a zero is shown as it is. *)
Lemma shown_ended s buf :
  NUL ∉ s -> length s < MAXSIZE -> length buf = MAXSIZE ->
  shown (<[length s := NUL]> (recv_into s buf)) = returns s /\ length (<[length s := NUL]> (recv_into s buf)) = MAXSIZE.
Proof.
  intros Hs Hlen Hb. unfold recv_into. rewrite length_insert, length_app, length_drop. split; [|lia].
  destruct (drop (length s) buf) as [|c r] eqn:Hd; [apply (f_equal length) in Hd; rewrite length_drop in Hd; cbn in Hd; lia|].
  replace (length s) with (length s + 0) at 1 by lia. rewrite insert_app_r. cbn.
  unfold shown. rewrite decide_True by (apply elem_of_app; right; by left). f_equal. rewrite c_str_app by done. cbn. apply app_nil_r.
Qed.

(** The bytes are whole messages; each line shows at least one. *)
Definition p_inv (st : pipe_st) : Prop := exists ms p,
  lines st = joined <$> ms /\ Forall (fun m => 1 <= m) ms /\ pipe st = joined p /\
  sum_list ms + p + default 0 (child st) = count /\ length (msg_buf st) = MAXSIZE /\
  match dad st with
  | reading c => c + length ms = count
  | exited code => code = 1%Z /\ child st = None /\ p = 0 /\ length ms < count
  | wait_success => length ms = count
  end.

Definition p_left (st : pipe_st) : nat :=
  match child st with Some k => S k | None => 0 end + match dad st with reading c => S c | _ => 0 end.

Lemma length_le_sum ms : Forall (fun m => 1 <= m) ms -> length ms <= sum_list ms.
Proof. induction 1; cbn; lia. Qed.

Lemma all_ones ms : Forall (fun m => 1 <= m) ms -> sum_list ms = length ms -> ms = replicate (length ms) 1.
Proof.
  induction 1 as [|m ms Hm Hms IH]; [done|]. cbn. intros Hs. pose proof (length_le_sum ms Hms). unfold sum_list in *.
  assert (m = 1) as -> by lia. f_equal. apply IH. lia.
Qed.

(** What [read] does when there is something in the pipe. *)
Definition read_some (k : option nat) (c : nat) (st : pipe_st) : outcome pipe_st :=
  let s := take (MAXSIZE - 1) (pipe st) in
  let b := <[length s := NUL]> (recv_into s (msg_buf st)) in
  bind_outcome (shown b) (fun text => returns (Pipe_ k (drop (MAXSIZE - 1) (pipe st)) (reading c) b (lines st ++ [text]))).

Lemma read_some_inv c st : p_inv st -> dad st = reading (S c) -> pipe st <> [] ->
  exists st', read_some (child st) c st = returns st' /\ p_inv st' /\ p_left st' < p_left st.
Proof.
  intros (ms & p & Hl & Hms & Hp & Hsum & Hb & Hd) Hdad Hne. rewrite Hdad in Hd.
  assert (Hp0 : 1 <= p) by (rewrite Hp in Hne; destruct p; [done|lia]).
  assert (Hlen : length (joined p) < MAXSIZE - 1) by (rewrite joined_length; unfold MAXSIZE, count in *; lia).
  unfold read_some. rewrite Hp, take_ge, drop_ge by lia.
  destruct (shown_ended (joined p) (msg_buf st)) as [Hsh Hb']; [apply joined_nul|lia|done|].
  rewrite Hsh. cbn [bind_outcome]. eexists. split; [done|]. split; [|unfold p_left; cbn; rewrite Hdad; lia].
  exists (ms ++ [p]), 0. cbn [lines pipe child dad msg_buf]. rewrite fmap_app, Hl, length_app, sum_list_with_app.
  split_and!; [done|apply Forall_app; by repeat constructor|done|cbn; unfold sum_list in *; lia|done|cbn; lia].
Qed.

Lemma pipe_step_inv e st o :
  p_inv st -> p_step e st = Some o -> exists st', o = returns st' /\ p_inv st' /\ p_left st' < p_left st.
Proof.
  intros Hinv. pose proof Hinv as (ms & p & Hl & Hms & Hp & Hsum & Hb & Hd). pose proof (length_le_sum ms Hms) as Hle.
  assert (Hother : forall st' p', lines st' = lines st -> msg_buf st' = msg_buf st -> pipe st' = joined p' ->
    sum_list ms + p' + default 0 (child st') = count -> p_left st' < p_left st ->
    match dad st' with
    | reading c => c + length ms = count
    | exited code => code = 1%Z /\ child st' = None /\ p' = 0 /\ length ms < count
    | wait_success => length ms = count
    end -> exists st1, returns st' = returns st1 /\ p_inv st1 /\ p_left st1 < p_left st).
  { intros st' p' Hl' Hb' Hp' Hs' Hf' Hd'. exists st'. split; [done|]. split; [|done]. exists ms, p'. by rewrite Hl', Hb'. }
  assert (Hread : forall c, dad st = reading (S c) -> pipe st <> [] ->
    Some (read_some (child st) c st) = Some o -> exists st', o = returns st' /\ p_inv st' /\ p_left st' < p_left st)
    by (intros c Hc Hne [= <-]; by apply read_some_inv).
  destruct e; cbn [p_step].
  - destruct (child st) as [[|k]|] eqn:Hk; [done| |done]. cbn in Hsum.
    destruct (dad st) as [c|code|] eqn:Hdad; intros [= <-]; [|naive_solver|lia].
    apply (Hother _ (p + 1)); cbn; [done|done|by rewrite Hp, joined_add|lia| |done].
    unfold p_left. cbn. rewrite Hk, Hdad. lia.
  - destruct (child st) as [[|k]|] eqn:Hk; [|done..]. intros [= <-].
    apply (Hother _ p); cbn; [done..|unfold p_left; cbn; rewrite Hk; lia|]. destruct (dad st); naive_solver.
  - unfold read_some in Hread. destruct (dad st) as [[|c]|code|] eqn:Hdad; try (by destruct (child st) as [[]|]).
    specialize (Hread c eq_refl). destruct (pipe st) as [|a l] eqn:Hpipe.
    + destruct (child st) eqn:Hk; [done|]. intros [= <-]. assert (p = 0) as -> by (destruct p; [done|]; by destruct p).
      apply (Hother _ 0); cbn; [done..|unfold p_left; cbn; rewrite Hk, Hdad; lia|split_and!; [done..|lia]].
    + intros H. apply Hread; [done|]. by destruct (child st) as [[]|].
  - destruct (dad st) as [[|c]|code|] eqn:Hdad; try (by destruct (child st) as [[]|]).
    intros H. assert (o = returns (Pipe_ (child st) (pipe st) wait_success (msg_buf st) (lines st))) as -> by (destruct (child st) as [[]|]; congruence).
    apply (Hother _ p); cbn; [done..|unfold p_left; cbn; rewrite Hdad; lia|lia].
Qed.

(** A process that has not ended can go on, or the other one can. *)
Lemma p_progress st : (forall e, p_step e st = None) -> child st = None /\ forall c, dad st <> reading c.
Proof.
  intros H. assert (Hk : child st = None).
  { pose proof (H writes) as H1. pose proof (H child_exits) as H2. cbn in H1, H2. destruct (child st) as [[|k]|], (dad st); congruence. }
  split; [done|]. pose proof (H reads) as H1. pose proof (H waits) as H2. cbn in H1, H2. rewrite Hk in *.
  intros c Hc. rewrite Hc in *. destruct c; [done|]. by destruct (pipe st).
Qed.

(** [pipe.c]: whatever the order of the steps, nothing is undefined, a run has at
    most twelve steps, and it can only stop when both processes have ended. Then the
    father has printed the five messages, and nothing else. It has done so line by
    line, and prints "wait success", exactly if each of its reads found one message;
    if one found several, it ends with status 1, since a later one finds nothing. *)
Theorem pipe_complete es garbage o :
  length garbage = MAXSIZE -> run p_step es (p_start garbage) = Some o ->
  exists st, o = returns st /\ length es <= 12 /\ concat (lines st) `prefix_of` joined count /\
    ((forall e, p_step e st = None) ->
       child st = None /\ concat (lines st) = joined count /\
       (dad st = wait_success /\ lines st = replicate count msg \/ dad st = exited 1 /\ length (lines st) < count)).
Proof.
  intros Hg Hrun.
  assert (H0 : p_inv (p_start garbage)) by by exists [], 0.
  destruct (runs_inv p_step (fun _ => True) p_inv) with (es := es) (st := p_start garbage) (o := o) as (st & -> & Hst); [|by apply Forall_true|done..|].
  { intros e st o' _ Hst He. destruct (pipe_step_inv e st o' Hst He) as (st' & ? & ? & _). by exists st'. }
  exists st. split; [done|]. split.
  { pose proof (runs_bound p_step p_inv p_left pipe_step_inv es _ _ H0 Hrun) as Hlen. change (p_left (p_start garbage)) with 12 in Hlen. lia. }
  destruct Hst as (ms & p & Hl & Hms & Hp & Hsum & Hb & Hd). rewrite Hl, concat_joined. pose proof (length_le_sum ms Hms) as Hle. split.
  { exists (joined (count - sum_list ms)). rewrite <- joined_add. f_equal. lia. }
  intros Hstop. apply p_progress in Hstop as [Hk Hdad]. split; [done|]. rewrite Hk in Hsum. cbn in Hsum.
  destruct (dad st) as [c|code|] eqn:Hst; [by destruct (Hdad c)| |].
  - destruct Hd as (-> & _ & -> & Hlt). split; [f_equal; lia|]. right. by rewrite length_fmap.
  - assert (sum_list ms = length ms /\ p = 0) as [Hs ->] by lia. split; [f_equal; lia|]. left. split; [done|].
    rewrite (all_ones ms Hms Hs), Hd. done.
Qed.

End pipe.

(** ** The named pipe *)

Section named_pipe.
Import NamedPipe.
Context (capacity : nat).

(** What is in the pipe when these messages have not been read, or the first of them
    not to its end. *)
Definition stream (l : list str) : str := concat ((fun m => m ++ [NUL]) <$> l).
Definition waiting (l : list str) (f : str) : Prop :=
  match l with [] => f = [] | m :: l' => exists r, r `suffix_of` m /\ f = r ++ NUL :: stream l' end.

Lemma stream_app l k : stream (l ++ k) = stream l ++ stream k.
Proof. unfold stream. by rewrite fmap_app, concat_app. Qed.

Lemma stream_waiting l : waiting l (stream l).
Proof. destruct l as [|m l]; [done|]. exists m. split; [done|]. unfold stream. cbn. by rewrite <- app_assoc. Qed.

Lemma waiting_snoc l f m : waiting l f -> waiting (l ++ [m]) (f ++ m ++ [NUL]).
Proof.
  destruct l as [|m' l]; cbn; [intros ->; by exists m|]. intros (r & Hr & ->). exists r. split; [done|].
  rewrite stream_app. unfold stream at 3. cbn. by rewrite <- app_assoc, app_nil_r.
Qed.

(** Reading takes messages from the front, and perhaps a part of the next one. *)
Lemma drop_waiting n l : exists done pend, l = done ++ pend /\ waiting pend (drop n (stream l)).
Proof.
  revert n. induction l as [|m l IH]; intros n; [exists [], []; by destruct n|].
  unfold stream. cbn. fold (stream l). rewrite <- app_assoc. cbn.
  destruct (decide (n <= length m)) as [Hn|Hn].
  - exists [], (m :: l). split; [done|]. exists (drop n m). split; [by exists (take n m); rewrite take_drop|].
    rewrite drop_app_le by done. done.
  - destruct (IH (n - length m - 1)) as (d & pend & -> & Hw). exists (m :: d), pend. split; [done|].
    rewrite drop_app_ge by lia. replace (n - length m) with (S (n - length m - 1)) by lia. exact Hw.
Qed.

(** A typed line fits into the array; it has no zero. *)
Definition line_ok (s : str) : Prop := NUL ∉ s /\ length s < MAXSIZE.
Definition ok_event (e : f_event) : Prop := match e with server_turn (Some s) _ => line_ok s | _ => True end.

Lemma line_sent s buf : s <> [] -> take (length s) (<[length s - 1 := NUL]> (recv_into s buf)) = removelast s ++ [NUL].
Proof.
  intros Hne. pose proof (app_removelast_last NUL Hne) as Hs. set (r := removelast s) in *. unfold recv_into.
  assert (Hlen : length s = length r + 1) by (rewrite Hs; by rewrite length_app).
  rewrite Hlen at 1 2. rewrite Hs at 1. rewrite <- app_assoc. cbn [app].
  replace (length r + 1 - 1) with (length r + 0) by lia. rewrite insert_app_r. cbn.
  rewrite take_app_ge by lia. by replace (length r + 1 - length r) with 1 by lia.
Qed.

Record f_inv (st : fifo_st) : Prop := {
  fi_buf : length (client_buf st) = MAXSIZE;
  fi_messages : Forall (fun m => NUL ∉ m /\ length m + 1 < MAXSIZE) (messages st);
  fi_lines : exists done pend sel, messages st = done ++ pend /\ waiting pend (fifo st) /\
    sel `sublist_of` done /\ Forall2 suffix (screen st) sel }.

(** A read that finds a message shows the rest of it. *)
Lemma shown_first r t buf :
  NUL ∉ r -> length r + 1 < MAXSIZE -> length buf = MAXSIZE ->
  let s := take (MAXSIZE - 1) (r ++ NUL :: t) in
  shown (recv_into s buf) = returns r /\ length (recv_into s buf) = MAXSIZE.
Proof.
  intros Hr Hlen Hb s. split.
  - assert (Hs : s = r ++ NUL :: take (MAXSIZE - 2 - length r) t).
    { unfold s. rewrite take_app_ge by lia. replace (MAXSIZE - 1 - length r) with (S (MAXSIZE - 2 - length r)) by lia. done. }
    unfold shown, recv_into. rewrite Hs, <- app_assoc. cbn [app]. rewrite decide_True by (apply elem_of_app; right; by left).
    f_equal. rewrite c_str_app by done. cbn. apply app_nil_r.
  - unfold recv_into. rewrite length_app, length_drop. unfold s. rewrite length_take. lia.
Qed.

Lemma f_step_inv e st o : ok_event e -> f_inv st -> f_step capacity e st = Some o -> exists st', o = returns st' /\ f_inv st'.
Proof.
  intros Hok [Hb Hm (d & pend & sel & Hd & Hw & Hsel & Hscr)]. destruct e as [a ok|ok]; cbn [f_step].
  - destruct (server_exit st); [by destruct a as [[]|]|].
    destruct a as [[|c s]|]; try (intros [= <-]; eexists; split; [done|]; split; [done..|]; by exists d, pend, sel).
    destruct ok; cbn [negb]; [|intros [= <-]; eexists; split; [done|]; split; [done..|]; by exists d, pend, sel].
    rewrite line_sent by done. case_decide; [|done]. stepped. destruct Hok as [Hn Hl].
    pose proof (app_removelast_last NUL (l := c :: s) ltac:(done)) as Hs. split; cbn [client_buf fifo messages screen]; [done| |].
    + apply Forall_app. split; [done|]. apply Forall_singleton. split; [by apply removelast_nul|].
      rewrite Hs, length_app in Hl. cbn [length] in Hl. lia.
    + exists d, (pend ++ [removelast (c :: s)]), sel. rewrite Hd, <- app_assoc. split; [done|]. split; [by apply waiting_snoc|done].
  - destruct (client_exit st); [done|]. destruct (fifo st) as [|c f] eqn:Hf; [done|]. rewrite <- Hf in *.
    destruct ok; [|intros [= <-]; eexists; split; [done|]; split; [done..|]; by exists d, pend, sel].
    destruct pend as [|m pend]; [by rewrite Hf in Hw|]. destruct Hw as (r & Hr & Hfr).
    rewrite Hd, Forall_app, Forall_cons in Hm. destruct Hm as (Hm1 & [Hmn Hml] & Hm2).
    destruct Hr as [r' Hr]. assert (NUL ∉ r /\ length r + 1 < MAXSIZE) as [Hrn Hrl].
    { rewrite Hr in Hmn, Hml. rewrite elem_of_app in Hmn. rewrite length_app in Hml. split; [tauto|lia]. }
    destruct (shown_first r (stream pend) (client_buf st)) as [Hsh Hlen]; [done..|]. rewrite Hfr, Hsh.
    stepped. split; cbn [client_buf fifo messages screen]; [done|by rewrite Hd, Forall_app, Forall_cons|].
    destruct (drop_waiting (MAXSIZE - 2 - length r) pend) as (d' & pend' & -> & Hw').
    exists (d ++ m :: d'), pend', (sel ++ [m]). rewrite Hd, <- app_assoc. split; [done|]. split; [|split].
    + rewrite drop_app_ge by lia. replace (MAXSIZE - 1 - length r) with (S (MAXSIZE - 2 - length r)) by lia. exact Hw'.
    + apply sublist_app; [done|]. apply sublist_skip, sublist_nil_l.
    + apply Forall2_app; [done|]. constructor; [by exists r'|done].
Qed.

(** What the server has written, a line for each of its turns that wrote. *)
Definition line_of (e : f_event) : option str :=
  match e with server_turn (Some s) true => if decide (s = []) then None else Some (removelast s) | _ => None end.

Lemma run_messages es st st' :
  run (f_step capacity) es st = Some (returns st') -> messages st' = messages st ++ omap line_of es.
Proof.
  revert st. induction es as [|e es IH]; intros st; [intros [= ->]; by rewrite app_nil_r|]. cbn [run omap list_omap].
  destruct (f_step capacity e st) as [[st1| |]|] eqn:He; [|done..]. cbn [mbind option_bind]. intros H%IH. rewrite H.
  assert (Hm : messages st1 = messages st ++ match line_of e with Some m => [m] | None => [] end).
  { destruct e as [a ok|ok]; cbn [f_step line_of] in *.
    - destruct (server_exit st); [by destruct a as [[]|]|].
      destruct a as [[|c s]|], ok; cbn [negb] in He; try (injection He as <-; by rewrite app_nil_r).
      case_decide; [|done]. apply (inj Some), (inj returns) in He. by subst st1.
    - destruct (client_exit st); [done|]. destruct (fifo st); [done|]. rewrite app_nil_r.
      destruct ok; [|by injection He as <-]. destruct (shown _); [|done..]. by apply (inj Some), (inj returns) in He; subst st1. }
  rewrite Hm, <- app_assoc. by destruct (line_of e).
Qed.

(** The client reads each line before the next one is written. *)
Definition dialogue (typed : list str) : list f_event :=
  typed ≫= fun s => [server_turn (Some s) true; client_turn true].

Lemma write_line s st :
  s <> [] -> server_exit st = None -> length (fifo st) + length s <= capacity ->
  f_step capacity (server_turn (Some s) true) st = Some (returns
    (Fifo (<[length s - 1 := NUL]> (recv_into s (server_buf st))) (client_buf st) (fifo st ++ removelast s ++ [NUL]) None (client_exit st)
       (S (prompts st)) (screen st) (messages st ++ [removelast s]))).
Proof.
  intros Hne He Hc. cbn [f_step]. rewrite He. destruct s as [|c s]; [done|]. cbn [negb]. by rewrite line_sent, decide_True by done.
Qed.

Lemma read_line r st :
  NUL ∉ r -> length r + 1 < MAXSIZE -> length (client_buf st) = MAXSIZE -> client_exit st = None -> fifo st = r ++ [NUL] ->
  exists b, length b = MAXSIZE /\ f_step capacity (client_turn true) st = Some (returns
    (Fifo (server_buf st) b [] (server_exit st) None (prompts st) (screen st ++ [r]) (messages st))).
Proof.
  intros Hr Hl Hb He Hf. destruct (shown_first r [] (client_buf st)) as [Hsh Hlen]; [done..|].
  eexists. split; [exact Hlen|]. cbn [f_step]. rewrite He, Hf. destruct (r ++ [NUL]) as [|c f] eqn:Hc; [by destruct r|]. rewrite <- Hc in *.
  rewrite Hsh. cbn [bind_outcome]. by rewrite drop_ge by (rewrite length_app; cbn [length]; lia).
Qed.

Lemma dialogue_lines typed st :
  MAXSIZE <= capacity -> Forall (fun s => s <> [] /\ line_ok s) typed ->
  fifo st = [] -> server_exit st = None -> client_exit st = None -> length (client_buf st) = MAXSIZE ->
  exists st', run (f_step capacity) (dialogue typed) st = Some (returns st') /\ screen st' = screen st ++ map (@removelast ascii) typed.
Proof.
  intros Hcap Ht. revert st. induction Ht as [|s typed [Hne [Hn Hl]] Ht IH]; intros st Hf Hse Hce Hb.
  { exists st. by rewrite app_nil_r. }
  assert (Hr : length (removelast s) + 1 = length s) by (rewrite (app_removelast_last NUL Hne) at 2; by rewrite length_app).
  assert (Hw := write_line s st Hne Hse). rewrite Hf in Hw. specialize (Hw ltac:(cbn; lia)). cbn [app] in Hw.
  match type of Hw with _ = Some (returns ?s1) => destruct (read_line (removelast s) s1) as (b & Hlen & Hrd); [by apply removelast_nul|lia|done..|] end.
  match type of Hrd with _ = Some (returns ?s2) => destruct (IH s2) as (st' & Hrun & Hscr); [done..|] end.
  exists st'. split.
  - unfold dialogue. cbn [mbind list_bind]. fold (dialogue typed). cbn [app run]. rewrite Hw. cbn [mbind option_bind]. rewrite Hrd. exact Hrun.
  - rewrite Hscr. cbn [screen map]. by rewrite <- app_assoc.
Qed.

Lemma dialogue_ok typed : Forall (fun s => s <> [] /\ line_ok s) typed -> Forall ok_event (dialogue typed).
Proof. induction 1 as [|s typed [_ Hs] _ IH]; [constructor|]. unfold dialogue. cbn. constructor; [exact Hs|]. constructor; [done|exact IH]. Qed.

(** C25: [fifo_server.c] and [fifo_client.c]: nothing is undefined, although the array of
    the client is never ended, since each message has its own zero: what the client
    prints are lines that were written, in their order, each at most once and from
    some place to its end. The rest is lost, or waits in the pipe. If each line is
    read before the next one is typed, all are printed, as they are. *)
Theorem fifo_lines es g1 g2 o :
  length g2 = MAXSIZE -> Forall ok_event es -> run (f_step capacity) es (f_start g1 g2) = Some o ->
  exists st, o = returns st /\
    (exists read unread printed, omap line_of es = read ++ unread /\ waiting unread (fifo st) /\
       printed `sublist_of` read /\ Forall2 suffix (screen st) printed) /\
    (forall typed, MAXSIZE <= capacity -> Forall (fun s => s <> [] /\ line_ok s) typed -> es = dialogue typed ->
       screen st = map (@removelast ascii) typed).
Proof.
  intros Hg Hok Hrun. destruct (runs_inv (f_step capacity) ok_event f_inv f_step_inv es (f_start g1 g2) o) as (st & -> & Hst); [done| |done|].
  { constructor; [done|constructor|]. exists [], [], []. split_and!; [done..|]. constructor. }
  exists st. split; [done|]. split.
  - destruct Hst as [_ _ (d & pend & sel & Hd & H)]. apply run_messages in Hrun. exists d, pend, sel. by rewrite <- Hd, Hrun.
  - intros typed Hcap Ht ->. destruct (dialogue_lines typed (f_start g1 g2)) as (st' & Hr & Hscr); [done..|].
    rewrite Hrun in Hr. by apply (inj Some), (inj returns) in Hr as <-.
Qed.

End named_pipe.

(** ** Shared memory *)

Section shm.
Import Shm.

Definition A : ascii := "A"%char.

(** The segment: its last byte stays zero. *)
Definition mem_ok (b : str) : Prop := length b = SIZE /\ b !! (SIZE - 1) = Some NUL /\ Forall (fun c => c = A \/ c = NUL) b.

(** Before its first write the client has put an end behind what it wrote. *)
Definition client_ok (b : str) (c : client_at) (index : nat) : Prop :=
  match c with
  | before_A => index < SIZE - 1 /\ b !! index = Some NUL /\ forall j, j < index -> b !! j = Some A
  | before_cut => 1 <= index < SIZE /\ forall j, j < index -> b !! j = Some A
  end.

Definition m_inv (st : shm_st) : Prop := exists b c index s,
  seg st = Some (Segment b true) /\ mem_ok b /\
  client st = Some (true, c, index) /\ client_ok b c index /\
  server st = Some (true, s) /\ match s with s_idle => True | s_scan seen => exists k, k < SIZE /\ seen = replicate k A end /\
  Forall (fun l => exists k, k < SIZE /\ l = replicate k A) (shown_lines st).

Definition both_run (e : m_event) : Prop := match e with server_starts _ | client_starts _ => False | _ => True end.

Lemma mem_ok_insert b i c : i < SIZE - 1 -> c = A \/ c = NUL -> mem_ok b -> mem_ok (<[i := c]> b).
Proof.
  intros Hi Hc (Hl & He & Hf). split_and!; [by rewrite length_insert|by rewrite list_lookup_insert_ne by lia|]. by apply Forall_insert.
Qed.

Lemma m_step_inv e st o : both_run e -> m_inv st -> m_step e st = Some o -> exists st', o = returns st' /\ m_inv st'.
Proof.
  intros He (b & c & index & s & Hseg & Hb & Hcl & Hc & Hsv & Hs & Hl). destruct e; cbn [m_step]; try done; rewrite ?Hcl, ?Hsv.
  - destruct c; [|done]. destruct Hc as (Hi & Hz & Hj). rewrite decide_True by lia. stepped.
    eexists _, _, _, _. cbn [seg client server shown_lines]. unfold store. rewrite Hseg. cbn [fmap option_fmap option_map bytes usable]. split_and!; [done| |done| |done..].
    + apply mem_ok_insert; [done|by left|done].
    + split; [lia|]. intros j Hlt. destruct (decide (j = index)) as [->|]; [by rewrite list_lookup_insert_eq by (rewrite (proj1 Hb); lia)|].
      rewrite list_lookup_insert_ne by done. apply Hj. lia.
  - destruct c; [done|]. destruct Hc as [Hi Hj]. stepped.
    eexists _, _, _, _. cbn [seg client server shown_lines]. unfold store. rewrite Hseg. cbn [fmap option_fmap option_map bytes usable]. split_and!; [done| |done| |done..].
    + apply mem_ok_insert; [apply Nat.mod_upper_bound; unfold SIZE; lia|by right|done].
    + assert (Hm : index mod (SIZE - 1) < SIZE - 1) by (apply Nat.mod_upper_bound; unfold SIZE; lia).
      split_and!; [done|by rewrite list_lookup_insert_eq by (rewrite (proj1 Hb); lia)|]. intros j Hlt. rewrite list_lookup_insert_ne by lia.
      apply Hj. pose proof (Nat.Div0.mod_le index (SIZE - 1)). lia.
  - destruct s; [|done]. stepped. exists b, c, index, (s_scan []). split_and!; try done. exists 0. split; [unfold SIZE; lia|done].
  - destruct s as [|seen]; [done|]. destruct Hs as (k & Hk & ->). rewrite Hseg. cbn [mbind option_bind]. rewrite length_replicate.
    destruct (lookup_lt_is_Some_2 b k) as [x Hx]; [by rewrite (proj1 Hb)|]. cbn [bytes]. rewrite Hx.
    case_decide as Hn; stepped.
    + exists b, c, index, s_idle. split_and!; try done. cbn. apply Forall_app. split; [done|]. apply Forall_singleton. by exists k.
    + eexists b, c, index, _. split_and!; try done. exists (S k). destruct Hb as (Hlen & Hlast & Hf). split.
      * destruct (decide (S k < SIZE)) as [|]; [done|]. replace k with (SIZE - 1) in Hx by lia. congruence.
      * rewrite Forall_forall in Hf. destruct (Hf x) as [->| ->]; [by eapply list_elem_of_lookup_2| |done]. by rewrite replicate_S_end.
Qed.

(** A print that is not disturbed looks at the letters up to the zero. *)
Lemma looks_on n k b c lines :
  (forall j, j < k + n -> b !! j = Some A) -> b !! (k + n) = Some NUL ->
  run m_step (replicate (S n) looks) (Shm_ (Some (Segment b true)) (Some (true, s_scan (replicate k A))) c lines) =
    Some (returns (Shm_ (Some (Segment b true)) (Some (true, s_idle)) c (lines ++ [replicate (k + n) A]))).
Proof.
  revert k. induction n as [|n IH]; intros k Hj Hz.
  - rewrite Nat.add_0_r in *. cbn. rewrite length_replicate, Hz. cbn. by rewrite decide_True.
  - rewrite replicate_S. cbn [run m_step server seg mbind option_bind bytes]. rewrite length_replicate, Hj by lia.
    rewrite decide_False by done. cbn [mbind option_bind]. change (replicate k A ++ [A]) with (replicate k A ++ replicate 1 A).
    rewrite <- replicate_add. replace (k + S n) with (k + 1 + n) in * by lia. by apply IH.
Qed.

(** [shm_server.c] and [shm_client.c]: when the server was started first and once,
    no access is outside the segment and [%s] finds an end, whatever the order of the
    reads and writes of single bytes; every line shown consists of less than 4096 letters
    A. A print that the client does not disturb shows as many as it has written
    since its index was last 0. *)
Theorem shm_shown es o :
  Forall both_run es -> run m_step (server_starts true :: client_starts true :: es) m_start = Some o ->
  exists st, o = returns st /\
    Forall (fun l => exists k, k < SIZE /\ l = replicate k A) (shown_lines st) /\
    (forall b index, client st = Some (b, before_A, index) -> server st = Some (true, s_idle) ->
       exists st', run m_step (prints :: replicate (S index) looks) st = Some (returns st') /\
         shown_lines st' = shown_lines st ++ [replicate index A]).
Proof.
  intros He Hrun. set (st0 := Shm_ (Some (Segment (replicate SIZE NUL) true)) (Some (true, s_idle)) (Some (true, before_A, 0)) []).
  change (run m_step es st0 = Some o) in Hrun. assert (H0 : m_inv st0).
  { exists (replicate SIZE NUL), before_A, 0, s_idle. split_and!; try done.
    - split_and!; [apply length_replicate|apply lookup_replicate_2; unfold SIZE; lia|]. apply Forall_replicate. by right.
    - split_and!; [unfold SIZE; lia|apply lookup_replicate_2; unfold SIZE; lia|]. intros j Hj. lia. }
  destruct (runs_inv m_step both_run m_inv m_step_inv es st0 o He H0 Hrun) as (st & -> & Hst). exists st. split; [done|].
  destruct Hst as (b & c & index & s & Hseg & Hb & Hcl & Hc & Hsv & Hs & Hl). split; [done|].
  intros b' i Hcl' Hsv'. rewrite Hcl in Hcl'. injection Hcl' as <- -> ->. destruct Hc as (Hi & Hz & Hj).
  destruct st as [sg sv cl ls]. cbn [seg server client shown_lines] in *. subst sg sv cl.
  injection Hsv' as ->. eexists. split; [exact (looks_on i 0 b _ ls Hj Hz)|done].
Qed.

End shm.

(** ** Semaphores *)

Section sem_set.
Import SemSet.

Definition words (ws : str) : str := ws ≫= fun c => [c; c].

(** What a process has written in this turn of its loop. *)
Definition part (p : process) : str :=
  match pc p with at_print2 | at_flush2 => [letter p] | at_V => [letter p; letter p] | _ => [] end.
Definition stdout_ok (p : process) : Prop := stdout p = match pc p with at_flush1 | at_flush2 => [letter p] | _ => [] end.

(** The semaphore, seen by a process while the other is outside. *)
Definition sem_ok (s : sems) (p : process) : Prop := s = Some [if decide (pc p = at_P) then 1 else 0]%Z.

Lemma proc_step_inv s p out ws :
  stdout_ok p -> sem_ok s p -> out = words ws ++ part p ->
  exists s' p' out' ws', proc_step false s p out = Some (s', p', out') /\
    letter p' = letter p /\ stdout_ok p' /\ sem_ok s' p' /\ out' = words ws' ++ part p' /\ Forall (fun c => c = letter p \/ c ∈ ws) ws'.
Proof.
  assert (Hws : Forall (fun c => c = letter p \/ c ∈ ws) ws) by (apply Forall_forall; auto).
  destruct p as [c k b]. unfold stdout_ok, sem_ok, part. cbn. intros -> -> ->. destruct k; cbn.
  1,2,3,4,5: do 3 eexists; exists ws; split; [reflexivity|]; split_and!; try done; by rewrite ?app_nil_r, <- ?app_assoc.
  do 3 eexists. exists (ws ++ [c]). split; [reflexivity|]. split_and!; try done.
  - cbn. unfold words. rewrite bind_app, app_nil_r. done.
  - apply Forall_app. split; [done|]. apply Forall_singleton. by left.
Qed.

Definition s_inv (st : set_st) : Prop := exists ws,
  letter (child st) = A /\ letter (parent st) = "B"%char /\ stdout_ok (child st) /\ stdout_ok (parent st) /\
  Forall (fun c => c = A \/ c = "B"%char) ws /\ output st = words ws ++ part (child st) ++ part (parent st) /\
  (pc (parent st) = at_P /\ sem_ok (semaphore st) (child st) \/ pc (child st) = at_P /\ sem_ok (semaphore st) (parent st)).

Definition calm (e : s_event) : Prop := match e with child_runs i | parent_runs i => i = false end.

Lemma part_nil p : pc p = at_P -> part p = [].
Proof. unfold part. by intros ->. Qed.

(** A process at P waits while the other is inside. *)
Lemma P_waits s p q out : pc p = at_P -> sem_ok s q -> pc q <> at_P -> proc_step false s p out = None.
Proof. unfold sem_ok, proc_step. intros -> -> Hq. by rewrite decide_False. Qed.

Lemma sem_ok_swap s p q : sem_ok s p -> pc p = at_P -> pc q = at_P -> sem_ok s q.
Proof. unfold sem_ok. by intros -> -> ->. Qed.

Lemma s_step_inv e st o : calm e -> s_inv st -> s_step e st = Some o -> exists st', o = returns st' /\ s_inv st'.
Proof.
  intros He (ws & Hc & Hp & Hsc & Hsp & Hws & Hout & Hsem). destruct st as [s c p out]. cbn [semaphore child parent output] in *.
  assert (Hletters : forall ws' x, x = A \/ x = "B"%char -> Forall (fun c => c = x \/ c ∈ ws) ws' -> Forall (fun c => c = A \/ c = "B"%char) ws').
  { intros ws' x Hx Hf. eapply Forall_impl; [exact Hf|]. intros y [->|Hy]; [done|]. by apply (proj1 (Forall_forall _ _) Hws). }
  destruct e as [i|i]; cbn in He; subst i; cbn [s_step semaphore child parent output].
  - assert (Hs : pc p = at_P /\ sem_ok s c \/ proc_step false s c out = None).
    { destruct Hsem as [H|[H1 H2]]; [by left|]. destruct (decide (pc p = at_P)); [left; split; [done|by eapply sem_ok_swap]|right; by eapply P_waits]. }
    destruct Hs as [[Hpp Hs]|Hn]; [|by rewrite Hn]. rewrite (part_nil p Hpp), app_nil_r in Hout.
    destruct (proc_step_inv s c out ws Hsc Hs Hout) as (s' & c' & out' & ws' & Hstep & Hl & Ho & Hs' & Hout' & Hf). rewrite Hstep.
    cbn [mbind option_bind]. stepped. exists ws'. cbn [semaphore child parent output]. rewrite (part_nil p Hpp), app_nil_r.
    rewrite Hl, Hc. split_and!; try done; [rewrite Hc in Hf; eapply Hletters; [|exact Hf]; by left|]. by left.
  - assert (Hs : pc c = at_P /\ sem_ok s p \/ proc_step false s p out = None).
    { destruct Hsem as [[H1 H2]|H]; [|by left]. destruct (decide (pc c = at_P)); [left; split; [done|by eapply sem_ok_swap]|right; by eapply P_waits]. }
    destruct Hs as [[Hcc Hs]|Hn]; [|by rewrite Hn]. rewrite (part_nil c Hcc), app_nil_l in Hout.
    destruct (proc_step_inv s p out ws Hsp Hs Hout) as (s' & p' & out' & ws' & Hstep & Hl & Ho & Hs' & Hout' & Hf). rewrite Hstep.
    cbn [mbind option_bind]. stepped. exists ws'. cbn [semaphore child parent output]. rewrite (part_nil c Hcc), app_nil_l.
    rewrite Hl, Hp. split_and!; try done; [rewrite Hp in Hf; eapply Hletters; [|exact Hf]; by right|]. by right.
Qed.

Lemma part_words p : letter p = A \/ letter p = "B"%char ->
  exists ws rest, Forall (fun c => c = A \/ c = "B"%char) ws /\ part p = words ws ++ rest /\ length rest <= 1.
Proof.
  intros Hl. unfold part. destruct (pc p).
  1,2,3: by exists [], []; split_and!; [constructor|done|cbn; lia].
  1,2: by exists [], [letter p]; split_and!; [constructor|done|cbn; lia].
  exists [letter p], []. split_and!; [by apply Forall_singleton|done|cbn; lia].
Qed.

(** [sem_set.c]: as long as no call is interrupted, the two letters of a process are
    never separated, at most one process is between its P and V, and one of them can
    always go on. *)
Theorem sem_set es st0 o :
  s_start true None = returns st0 -> Forall calm es -> run s_step es st0 = Some o ->
  exists st, o = returns st /\
    (exists ws rest, Forall (fun c => c = A \/ c = "B"%char) ws /\ output st = words ws ++ rest /\ length rest <= 1) /\
    (pc (child st) = at_P \/ pc (parent st) = at_P) /\ exists e, calm e /\ s_step e st <> None.
Proof.
  intros H0 He Hrun. assert (Hi : s_inv st0).
  { apply (inj returns) in H0 as <-. exists []. split_and!; try done. by left. }
  destruct (runs_inv s_step calm s_inv s_step_inv es st0 o He Hi Hrun) as (st & -> & ws & Hc & Hp & Hsc & Hsp & Hws & Hout & Hsem).
  exists st. split; [done|].
  pose proof part_words as Hpart.
  destruct Hsem as [[Hpc Hs]|[Hpc Hs]]; rewrite (part_nil _ Hpc) in Hout.
  - destruct (Hpart (child st)) as (ws' & rest & Hf & Hr & Hlen); [by left|]. split; [|split; [by right|]].
    + exists (ws ++ ws'), rest. rewrite Hout, Hr, app_nil_r, app_assoc. split_and!; [by apply Forall_app|unfold words; by rewrite bind_app|done].
    + exists (child_runs false). split; [done|]. destruct (proc_step_inv (semaphore st) (child st) (output st) ws) as (s' & p' & out' & ws2 & Hstep & _);
        [done..|by rewrite Hout, ?app_nil_r|]. cbn [s_step]. by rewrite Hstep.
  - destruct (Hpart (parent st)) as (ws' & rest & Hf & Hr & Hlen); [by right|]. split; [|split; [by left|]].
    + exists (ws ++ ws'), rest. rewrite Hout, Hr, app_nil_l, app_assoc. split_and!; [by apply Forall_app|unfold words; by rewrite bind_app|done].
    + exists (parent_runs false). split; [done|]. destruct (proc_step_inv (semaphore st) (parent st) (output st) ws) as (s' & p' & out' & ws2 & Hstep & _);
        [done..|by rewrite Hout, ?app_nil_r|]. cbn [s_step]. by rewrite Hstep.
Qed.

End sem_set.

(** ** Examples *)

(** The father reads two messages at once, and finds nothing in the end. *)
Lemma pipe_two_at_once :
  let w := Pipe.writes in let r := Pipe.reads in
  match run Pipe.p_step [w; w; r; w; r; w; r; w; r; Pipe.child_exits; r] (Pipe.p_start cleared) with
  | Some (returns st) => Pipe.dad st = Pipe.exited 1 /\ length (Pipe.lines st) = 4
  | _ => False
  end.
Proof. vm_compute. split; reflexivity. Qed.

Lemma pipe_complete_witness : exists st,
  run Pipe.p_step [Pipe.writes; Pipe.reads] (Pipe.p_start cleared) = Some (returns st) /\ concat (Pipe.lines st) `prefix_of` joined Pipe.count.
Proof.
  destruct (run Pipe.p_step [Pipe.writes; Pipe.reads] (Pipe.p_start cleared)) as [o|] eqn:Hr; [|by vm_compute in Hr].
  destruct (pipe_complete [Pipe.writes; Pipe.reads] cleared o) as (st & -> & _ & Hp & _); [reflexivity|exact Hr|]. by exists st.
Defined.

Definition typed_lines : list str := [lit "one" ++ [LF]; lit "two" ++ [LF]].

(** Two lines are written before the client reads: the second is lost. *)
Lemma fifo_overrun :
  match run (NamedPipe.f_step 4096) [NamedPipe.server_turn (Some (lit "one" ++ [LF])) true; NamedPipe.server_turn (Some (lit "two" ++ [LF])) true;
      NamedPipe.client_turn true] (NamedPipe.f_start cleared cleared) with
  | Some (returns st) => NamedPipe.screen st = [lit "one"] /\ NamedPipe.fifo st = []
  | _ => False
  end.
Proof. vm_compute. split; reflexivity. Qed.

(** The last character of an input that does not end with a line feed is lost, and at
    the end of the input the server prompts for ever. *)
Lemma fifo_no_line_feed :
  match run (NamedPipe.f_step 4096) ([NamedPipe.server_turn (Some (lit "end")) true; NamedPipe.client_turn true] ++
      replicate 100 (NamedPipe.server_turn (Some []) true)) (NamedPipe.f_start cleared cleared) with
  | Some (returns st) => NamedPipe.screen st = [lit "en"] /\ NamedPipe.prompts st = 101 /\ NamedPipe.server_exit st = None
  | _ => False
  end.
Proof. vm_compute. split_and!; reflexivity. Qed.

Lemma fifo_lines_witness : exists st,
  run (NamedPipe.f_step 4096) (dialogue typed_lines) (NamedPipe.f_start cleared cleared) = Some (returns st) /\ NamedPipe.screen st = [lit "one"; lit "two"].
Proof.
  destruct (run (NamedPipe.f_step 4096) (dialogue typed_lines) (NamedPipe.f_start cleared cleared)) as [o|] eqn:Hr; [|by vm_compute in Hr].
  assert (Hl : Forall (fun s => s <> [] /\ line_ok s) typed_lines).
  { repeat constructor; try done; try (apply (bool_decide_eq_true_1 _); vm_compute; reflexivity); cbn; unfold MAXSIZE; lia. }
  destruct (fifo_lines 4096 (dialogue typed_lines) cleared cleared o) as (st & -> & _ & Hd); [reflexivity| |exact Hr|].
  - by apply dialogue_ok.
  - exists st. split; [done|]. rewrite (Hd typed_lines); [reflexivity|unfold MAXSIZE; lia|exact Hl|reflexivity].
Defined.

(** A second start of the server finds the segment, since the first never removes it,
    and follows the pointer -1; so does a client that is started first. *)
Lemma shm_second_start :
  run Shm.m_step [Shm.server_starts true; Shm.server_starts true; Shm.prints] Shm.m_start = Some undefined /\
  run Shm.m_step [Shm.client_starts true; Shm.writes_A] Shm.m_start = Some undefined.
Proof. split; vm_compute; reflexivity. Qed.

(** When the index is 0 again, the old letters are shown between the two writes. *)
Lemma shm_whole_segment :
  match run Shm.m_step ([Shm.server_starts true; Shm.client_starts true] ++
      concat (replicate (Shm.SIZE - 1) [Shm.writes_A; Shm.cuts]) ++ Shm.writes_A :: Shm.prints :: replicate Shm.SIZE Shm.looks) Shm.m_start with
  | Some (returns st) => length <$> Shm.shown_lines st = [Shm.SIZE - 1]
  | _ => False
  end.
Proof. vm_compute. reflexivity. Qed.

Lemma shm_shown_witness : exists st,
  run Shm.m_step [Shm.server_starts true; Shm.client_starts true; Shm.writes_A; Shm.cuts; Shm.prints; Shm.looks; Shm.looks] Shm.m_start = Some (returns st) /\
  Forall (fun l => exists k, k < Shm.SIZE /\ l = replicate k A) (Shm.shown_lines st).
Proof.
  destruct (run Shm.m_step [Shm.server_starts true; Shm.client_starts true; Shm.writes_A; Shm.cuts; Shm.prints; Shm.looks; Shm.looks] Shm.m_start) as [o|] eqn:Hr; [|by vm_compute in Hr].
  destruct (shm_shown [Shm.writes_A; Shm.cuts; Shm.prints; Shm.looks; Shm.looks] o) as (st & -> & Hl & _); [by repeat constructor|exact Hr|]. by exists st.
Defined.

(** A P that is interrupted lets the parent in, and the letters mix; and a second
    start ends with status 2, since the set is never removed. *)
Lemma sem_interrupted :
  let c := SemSet.child_runs false in let p := SemSet.parent_runs false in
  match SemSet.s_start true None with
  | returns st0 =>
      match run SemSet.s_step [c; c; c; SemSet.parent_runs true; p; p; c; c] st0 with
      | Some (returns st) => SemSet.output st = lit "ABA"
      | _ => False
      end /\ SemSet.s_start true (SemSet.semaphore st0) = exits 2
  | _ => False
  end.
Proof. vm_compute. split; reflexivity. Qed.

Lemma sem_set_witness : exists st0 st,
  SemSet.s_start true None = returns st0 /\ run SemSet.s_step [SemSet.child_runs false; SemSet.child_runs false] st0 = Some (returns st) /\
  (SemSet.pc (SemSet.child st) = SemSet.at_P \/ SemSet.pc (SemSet.parent st) = SemSet.at_P).
Proof.
  destruct (SemSet.s_start true None) as [st0| |] eqn:H0; [|by vm_compute in H0..].
  destruct (run SemSet.s_step [SemSet.child_runs false; SemSet.child_runs false] st0) as [o|] eqn:Hr; [|vm_compute in H0; injection H0 as <-; by vm_compute in Hr].
  destruct (sem_set [SemSet.child_runs false; SemSet.child_runs false] st0 o) as (st & -> & _ & Hm & _); [exact H0|by repeat constructor|exact Hr|]. by exists st0, st.
Defined.
