(* ===== verification/StlString.v ===== *)
(** * StlString: the String class and the splitting of strings

    Models [stl/String.cpp] and [StringSplit] of [stl/StringSplit.cpp].

    A [String] owns an array from [new char[]]. The memory below has the arrays,
    by address, with the bytes that were not written yet as [None], and the
    objects, by their own address, with the pointer [m_string] of each, which may
    be null. So objects may be passed as their own argument, arrays may be read
    past their end, freed or lost. [None] as the result of an operation is
    undefined behaviour; what [operator+] and [operator>>] return and hold in
    between are objects too, at addresses the caller has free. *)
From S2P Require Import Prelude.

(** ** Memory *)

Abbreviation block := (list (option ascii)).
Abbreviation arrays := (gmap nat block).

Record memory := Mem { heap : arrays; objs : gmap nat (option nat) }.

(** The bytes before the terminating zero. *)
Fixpoint text (b : block) : option str :=
  match b with
  | Some c :: b' => if decide (c = NUL) then Some [] else (c ::.) <$> text b'
  | _ => None
  end.

Definition text_at (h : arrays) (p : option nat) : option str := q ← p; b ← h !! q; text b.
Definition strlen (h : arrays) (p : option nat) : option nat := length <$> text_at h p.

(** Bytes and a terminating zero, from an offset of an array on. *)
Definition write_at (h : arrays) (q off : nat) (s : str) : option arrays :=
  b ← h !! q;
  if (off + length s <? length b)%nat then Some (<[q := take off b ++ (Some <$> s) ++ Some NUL :: drop (off + S (length s)) b]> h)
  else None.

(** The arrays of [strcpy] and [strcat] must not be the same. *)
Definition strcpy (h : arrays) (d s : option nat) : option arrays :=
  t ← text_at h s; q ← d; if decide (d = s) then None else write_at h q 0 t.
Definition strcat (h : arrays) (d s : option nat) : option arrays :=
  t ← text_at h s; u ← text_at h d; q ← d; if decide (d = s) then None else write_at h q (length u) t.

Definition delete_chars (h : arrays) (p : option nat) : option arrays :=
  match p with
  | None => Some h
  | Some q => if decide (is_Some (h !! q)) then Some (delete q h) else None
  end.

Definition with_string (this : nat) (p : option nat) (h : arrays) (m : memory) : memory := Mem h (<[this := p]> (objs m)).

(** Where [new] puts an array: anywhere it has room. *)
Class NewChars (alloc : gset nat -> nat) : Prop := new_chars_free X : alloc X ∉ X.

Section string.
Context (alloc : gset nat -> nat) {Halloc : NewChars alloc}.

Definition new_chars (n : nat) (h : arrays) : nat * arrays :=
  let q := alloc (dom h) in (q, <[q := replicate n None]> h).

(** ** The class *)

(** [String(const char* str)]; [str] is the array it points to. Without one the
    pointer to the new array is overwritten by ['\0'], which is null. *)
Definition String_new (this : nat) (str : option block) (m : memory) : option memory :=
  match objs m !! this with
  | Some _ => None
  | None =>
      match str with
      | None => let '(_, h) := new_chars 1 (heap m) in Some (with_string this None h m)
      | Some b =>
          s ← text b;
          let '(q, h) := new_chars (length s + 1) (heap m) in
          h ← write_at h q 0 s; Some (with_string this (Some q) h m)
      end
  end.

Definition String_copy (this other : nat) (m : memory) : option memory :=
  match objs m !! this with
  | Some _ => None
  | None =>
      o ← objs m !! other; n ← strlen (heap m) o;
      let '(q, h) := new_chars (n + 1) (heap m) in
      h ← strcpy h (Some q) o; Some (with_string this (Some q) h m)
  end.

Definition assign (this other : nat) (m : memory) : option memory :=
  p ← objs m !! this; o ← objs m !! other;
  if decide (this = other) then Some m
  else
    h ← delete_chars (heap m) p; n ← strlen h o;
    let '(q, h) := new_chars (n + 1) h in
    h ← strcpy h (Some q) o; Some (with_string this (Some q) h m).

Definition destroy (this : nat) (m : memory) : option memory :=
  p ← objs m !! this; h ← delete_chars (heap m) p; Some (Mem h (delete this (objs m))).

(** The outcome of an operation for its caller. *)
Inductive result := void | is_char (c : ascii) | is_bool (b : bool) | is_text (s : str) | left_over (s : str) | throws.

(** [this[i]], and [this[i] = c]; the index is an [int], which is converted to
    [size_t] where it is compared. *)
Definition index (this : nat) (i : Z) (c : option ascii) (m : memory) : option (memory * result) :=
  p ← objs m !! this; n ← strlen (heap m) p; let i := int32 i in
  if (size_t i >=? Z.of_nat n)%Z then Some (m, throws)
  else
    q ← p; b ← heap m !! q;
    if (i <? 0)%Z then None
    else
      x ← b !! Z.to_nat i; r ← x;
      match c with
      | None => Some (m, is_char r)
      | Some c => Some (Mem (<[q := <[Z.to_nat i := Some c]> b]> (heap m)) (objs m), void)
      end.

Definition equals (this other : nat) (m : memory) : option bool :=
  p ← objs m !! this; o ← objs m !! other; s ← text_at (heap m) p; t ← text_at (heap m) o;
  Some (bool_decide (s = t)).

(** [operator+=] *)
Definition append (this other : nat) (m : memory) : option memory :=
  tmp ← objs m !! this; o ← objs m !! other;
  n1 ← strlen (heap m) tmp; n2 ← strlen (heap m) o;
  let '(q, h) := new_chars (n1 + n2 + 1) (heap m) in
  let m := with_string this (Some q) h m in
  h ← strcpy h (Some q) tmp; h ← delete_chars h tmp;
  o ← objs m !! other; h ← strcat h (Some q) o;
  Some (with_string this (Some q) h m).

(** [operator+]; [tmp] becomes the object that is returned. *)
Definition add (tmp this other : nat) (m : memory) : option memory :=
  m ← String_new tmp None m;
  p ← objs m !! this; o ← objs m !! other;
  n1 ← strlen (heap m) p; n2 ← strlen (heap m) o;
  let '(q, h) := new_chars (n1 + n2 + 1) (heap m) in
  h ← strcpy h (Some q) p; h ← strcat h (Some q) o;
  Some (with_string tmp (Some q) h m).

(** [operator<<]: the text between a prefix and the end of the line. *)
Definition print (this : nat) (m : memory) : option str := p ← objs m !! this; text_at (heap m) p.

(** [in.get(tmp, 1024)]: up to 1023 bytes of the line, which is converted to a
    [String] at [obj]. *)
Fixpoint get_line (n : nat) (input : str) : str :=
  match n, input with
  | S n', c :: input' => if decide (c = LF) then [] else c :: get_line n' input'
  | _, _ => []
  end.
Definition extract (this obj : nat) (input : str) (m : memory) : option (memory * str) :=
  let line := get_line 1023 input in
  _ ← objs m !! this; m ← String_new obj (Some ((Some <$> line) ++ Some NUL :: replicate (1023 - length line) None)) m;
  m ← assign this obj m; m ← destroy obj m;
  Some (m, drop (length line) input).

(** ** Programs with the class *)

Inductive call :=
  | Construct (this : nat) (str : option block) | Copy (this other : nat) | Assign (this other : nat) | Destroy (this : nat)
  | Index (this : nat) (i : Z) (c : option ascii) | Equals (this other : nat) | Append (this other : nat)
  | Add (tmp this other : nat) | Print (this : nat) | Extract (this obj : nat) (input : str).

Definition run_call (c : call) (m : memory) : option (memory * result) :=
  match c with
  | Construct this s => m ← String_new this s m; Some (m, void)
  | Copy this other => m ← String_copy this other m; Some (m, void)
  | Assign this other => m ← assign this other m; Some (m, void)
  | Destroy this => m ← destroy this m; Some (m, void)
  | Index this i c => index this i c m
  | Equals this other => b ← equals this other m; Some (m, is_bool b)
  | Append this other => m ← append this other m; Some (m, void)
  | Add tmp this other => m ← add tmp this other m; Some (m, void)
  | Print this => s ← print this m; Some (m, is_text s)
  | Extract this obj input => '(m, s) ← extract this obj input m; Some (m, left_over s)
  end.

Fixpoint run_calls (cs : list call) (m : memory) : option (memory * list result) :=
  match cs with
  | [] => Some (m, [])
  | c :: cs' => '(m, r) ← run_call c m; '(m, rs) ← run_calls cs' m; Some (m, r :: rs)
  end.

Definition no_strings : memory := Mem ∅ ∅.

(** ** Specification: the objects have values *)

(** A value is null or a text; arrays that nothing points to are counted. *)
Record values := Values { val : gmap nat (option str); leaked : nat }.

Definition set_val (this : nat) (x : option str) (v : values) : values := Values (<[this := x]> (val v)) (leaked v).
Definition get_val (this : nat) (v : values) : option str := mjoin (val v !! this).

Definition spec_call (c : call) (v : values) : option (values * result) :=
  match c with
  | Construct this s =>
      match val v !! this, s with
      | None, None => Some (Values (<[this := None]> (val v)) (S (leaked v)), void)
      | None, Some b => t ← text b; Some (set_val this (Some t) v, void)
      | Some _, _ => None
      end
  | Copy this other =>
      match val v !! this with
      | None => t ← get_val other v; Some (set_val this (Some t) v, void)
      | Some _ => None
      end
  | Assign this other =>
      _ ← val v !! this;
      if decide (this = other) then Some (v, void)
      else t ← get_val other v; Some (set_val this (Some t) v, void)
  | Destroy this => _ ← val v !! this; Some (Values (delete this (val v)) (leaked v), void)
  | Index this i c =>
      t ← get_val this v; let i := int32 i in
      if (size_t i >=? Z.of_nat (length t))%Z then Some (v, throws)
      else if (i <? 0)%Z then None
      else
        match c with
        | None => r ← t !! Z.to_nat i; Some (v, is_char r)
        | Some c => Some (set_val this (Some (c_str (<[Z.to_nat i := c]> t))) v, void)
        end
  | Equals this other => s ← get_val this v; t ← get_val other v; Some (v, is_bool (bool_decide (s = t)))
  | Append this other =>
      s ← get_val this v; t ← get_val other v;
      if decide (this = other) then None else Some (set_val this (Some (s ++ t)) v, void)
  | Add tmp this other =>
      match val v !! tmp with
      | None => s ← get_val this v; t ← get_val other v;
          Some (Values (<[tmp := Some (s ++ t)]> (val v)) (S (leaked v)), void)
      | Some _ => None
      end
  | Print this => t ← get_val this v; Some (v, is_text t)
  | Extract this obj input =>
      match val v !! obj, val v !! this with
      | None, Some _ => Some (set_val this (Some (c_str (get_line 1023 input))) v, left_over (drop (length (get_line 1023 input)) input))
      | _, _ => None
      end
  end.

Fixpoint spec_calls (cs : list call) (v : values) : option (values * list result) :=
  match cs with
  | [] => Some (v, [])
  | c :: cs' => '(v, r) ← spec_call c v; '(v, rs) ← spec_calls cs' v; Some (v, r :: rs)
  end.

(** The memory holds the values: every array is the one of an object or lost. *)
Definition holds (h : arrays) (p : option nat) (x : option str) : Prop :=
  match p, x with None, None => True | Some _, Some s => text_at h p = Some s | _, _ => False end.

Record represents (m : memory) (v : values) : Prop := {
  rep_vals : forall a, match objs m !! a, val v !! a with Some p, Some x => holds (heap m) p x | None, None => True | _, _ => False end;
  rep_own : forall a b q, objs m !! a = Some (Some q) -> objs m !! b = Some (Some q) -> a = b;
  rep_size : size (heap m) = size (omap id (objs m)) + leaked v }.

(** ** Arrays *)

Lemma text_some b t : text b = Some t <-> exists r, b = (Some <$> t) ++ Some NUL :: r /\ NUL ∉ t.
Proof.
  split.
  - revert t. induction b as [|[c|] b IH]; intros t; [done| |done]. cbn [text]. case_decide as Hc.
    + intros [= <-]. subst c. exists b. split; [done|apply not_elem_of_nil].
    + intros (t' & Ht & ->)%fmap_Some. destruct (IH t' Ht) as (r & -> & Hn). exists r. split; [done|].
      apply not_elem_of_cons. split; [congruence|done].
  - intros (r & -> & Hn). induction t as [|c t IH]; cbn [fmap list_fmap app text]; [by rewrite decide_True|].
    apply not_elem_of_cons in Hn as [Hc Hn]. rewrite decide_False by congruence. rewrite IH by done. done.
Qed.

Lemma text_written b off s u : text b = Some u -> off = length u -> NUL ∉ s -> off + length s < length b ->
  text (take off b ++ (Some <$> s) ++ Some NUL :: drop (off + S (length s)) b) = Some (u ++ s).
Proof.
  intros (r & -> & Hu)%text_some -> Hs _. apply text_some. eexists. split; [|by apply not_elem_of_app].
  rewrite take_app_length' by by rewrite length_fmap. rewrite fmap_app, <- app_assoc. done.
Qed.

Lemma text_c_str s r : text ((Some <$> s) ++ Some NUL :: r) = Some (c_str s).
Proof. induction s as [|c s IH]; cbn; [done|]. case_decide; [done|]. by rewrite IH. Qed.

Lemma text_no_nul b t : text b = Some t -> NUL ∉ t.
Proof. by intros (? & _ & ?)%text_some. Qed.

Lemma text_at_some h p t : text_at h p = Some t <-> exists q b, p = Some q /\ h !! q = Some b /\ text b = Some t.
Proof.
  unfold text_at. destruct p as [q|]; cbn; [|naive_solver]. destruct (h !! q) as [b|] eqn:Hb; cbn; naive_solver.
Qed.

Lemma text_at_insert h q b p t : h !! q = None -> text_at h p = Some t -> text_at (<[q := b]> h) p = Some t.
Proof.
  rewrite !text_at_some. intros Hq (q' & b' & -> & Hb & Ht). exists q', b'. split; [done|]. split; [|done].
  rewrite lookup_insert_ne; [done|congruence].
Qed.

(** Writing a text into a new array of the right size. *)
Definition written (s : str) : block := (Some <$> s) ++ [Some NUL].

Lemma text_written_block s : NUL ∉ s -> text (written s) = Some s.
Proof. intros H. apply text_some. by exists []. Qed.

Lemma new_chars_eq n h : exists q, new_chars n h = (q, <[q := replicate n None]> h) /\ h !! q = None.
Proof. eexists. split; [reflexivity|]. apply not_elem_of_dom. apply (new_chars_free (alloc := alloc)). Qed.

Lemma write_at_insert h q b off s u n :
  text b = Some u -> off = length u -> length b = off + S (length s) + n -> n = 0 ->
  write_at (<[q := b]> h) q off s = Some (<[q := written (u ++ s)]> h).
Proof.
  intros (r & -> & Hu)%text_some -> Hl Hn. unfold write_at. rewrite lookup_insert_eq. cbn [mbind option_bind].
  rewrite (proj2 (Nat.ltb_lt _ _)) by lia. rewrite insert_insert_eq, take_app_length' by by rewrite length_fmap.
  rewrite drop_ge by lia. unfold written. by rewrite fmap_app, <- app_assoc.
Qed.

Lemma write_at_fresh h q s n :
  write_at (<[q := replicate (length s + n + 1) None]> h) q 0 s = Some (<[q := written s ++ replicate n None]> h).
Proof.
  unfold write_at. rewrite lookup_insert_eq. cbn [mbind option_bind]. rewrite length_replicate, (proj2 (Nat.ltb_lt _ _)) by lia.
  rewrite insert_insert_eq, drop_replicate. unfold written. rewrite <- app_assoc. cbn [take app].
  replace (length s + n + 1 - (0 + S (length s))) with n by lia. done.
Qed.

Lemma strcpy_fresh h q p s n :
  h !! q = None -> text_at h p = Some s ->
  strcpy (<[q := replicate (length s + n + 1) None]> h) (Some q) p = Some (<[q := written s ++ replicate n None]> h).
Proof.
  intros Hq Hp. unfold strcpy. rewrite (text_at_insert h q _ p s Hq Hp). cbn [mbind option_bind].
  rewrite decide_False; [by apply write_at_fresh|]. intros <-. apply text_at_some in Hp as (q' & b & [= <-] & Hb & _). congruence.
Qed.

Lemma strcat_fresh h q p s t :
  NUL ∉ s -> h !! q = None -> text_at h p = Some t ->
  strcat (<[q := written s ++ replicate (length t) None]> h) (Some q) p = Some (<[q := written (s ++ t)]> h).
Proof.
  intros Hs Hq Hp. unfold strcat. rewrite (text_at_insert h q _ p t Hq Hp). cbn [mbind option_bind].
  assert (text (written s ++ replicate (length t) None) = Some s) as Ht by (apply text_some; eexists; split; [unfold written; by rewrite <- app_assoc|done]).
  unfold text_at at 1. cbn [mbind option_bind]. rewrite lookup_insert_eq. cbn [mbind option_bind]. rewrite Ht. cbn [mbind option_bind].
  rewrite decide_False; [|intros <-; apply text_at_some in Hp as (q' & b & [= <-] & Hb & _); congruence].
  apply (write_at_insert _ _ _ _ _ s 0 Ht); [done| |done]. unfold written. rewrite !length_app, length_fmap, length_replicate. cbn. lia.
Qed.

(** ** What the parts of an operation do to the values *)

Lemma represents_get m v a s : represents m v -> get_val a v = Some s -> exists q, objs m !! a = Some (Some q) /\ text_at (heap m) (Some q) = Some s.
Proof.
  intros Hr. unfold get_val. pose proof (rep_vals _ _ Hr a) as Ha. destruct (val v !! a) as [[t|]|]; cbn; [|done..].
  intros [= <-]. destruct (objs m !! a) as [[q|]|]; [|done..]. by exists q.
Qed.

Lemma represents_none m v a : represents m v -> val v !! a = None <-> objs m !! a = None.
Proof. intros Hr. pose proof (rep_vals _ _ Hr a) as Ha. destruct (objs m !! a), (val v !! a); naive_solver. Qed.

Lemma represents_live m v a : represents m v ->
  match objs m !! a with Some p => exists x, val v !! a = Some x /\ holds (heap m) p x | None => val v !! a = None end.
Proof. intros Hr. pose proof (rep_vals _ _ Hr a) as Ha. destruct (objs m !! a), (val v !! a); naive_solver. Qed.

Lemma holds_insert h q b p x : h !! q = None -> holds h p x -> holds (<[q := b]> h) p x.
Proof. intros Hq. destruct p, x; cbn [holds]; try done. by apply text_at_insert. Qed.

(** A new array for an object that has none. *)
Lemma represents_place m v this q s :
  represents m v -> heap m !! q = None -> NUL ∉ s -> mjoin (objs m !! this) = None ->
  represents (Mem (<[q := written s]> (heap m)) (<[this := Some q]> (objs m))) (set_val this (Some s) v).
Proof.
  intros Hr Hq Hs Hthis. constructor; cbn [heap objs val leaked set_val].
  - intros a. rewrite !lookup_insert. case_decide.
    + cbn [holds]. apply text_at_some. exists q, (written s). rewrite lookup_insert_eq. split_and!; [done..|]. by apply text_written_block.
    + pose proof (rep_vals _ _ Hr a) as Ha. destruct (objs m !! a), (val v !! a); try done. by apply holds_insert.
  - assert (forall a q', objs m !! a = Some (Some q') -> q' <> q) as Hne.
    { intros a q' Ha ->. pose proof (rep_vals _ _ Hr a) as Hv. rewrite Ha in Hv. destruct (val v !! a) as [[t|]|]; try done.
      apply text_at_some in Hv as (? & b & [= <-] & Hb & _). congruence. }
    intros a b q'. rewrite !lookup_insert. repeat case_decide; subst; intros H1 H2; simplify_eq; try done; [by destruct (Hne _ _ H2)|by destruct (Hne _ _ H1)|].
    by apply (rep_own _ _ Hr a b q').
  - rewrite map_size_insert_None by done. rewrite (rep_size _ _ Hr), (omap_insert_Some id (objs m) this (Some q) q eq_refl).
    rewrite map_size_insert_None; [done|]. rewrite lookup_omap. by destruct (objs m !! this) as [[?|]|].
Qed.

(** Giving up the array of an object. *)
Lemma represents_free m v this q :
  represents m v -> objs m !! this = Some (Some q) ->
  represents (Mem (delete q (heap m)) (<[this := None]> (objs m))) (set_val this None v).
Proof.
  intros Hr Hthis. constructor; cbn [heap objs val leaked set_val].
  - intros a. rewrite !lookup_insert. case_decide as Hd; [done|].
    pose proof (rep_vals _ _ Hr a) as Ha. destruct (objs m !! a) as [p|] eqn:Hp, (val v !! a) as [x|]; try done.
    destruct p as [q'|], x as [s|]; try done. cbn [holds] in *. apply text_at_some in Ha as (? & b & [= <-] & Hb & Ht). apply text_at_some.
    exists q', b. split; [done|]. split; [|done]. rewrite lookup_delete_ne; [done|]. intros ->. destruct Hd. by apply (rep_own _ _ Hr _ _ q').
  - intros a b q'. rewrite !lookup_insert. repeat case_decide; try done. by apply (rep_own _ _ Hr a b q').
  - assert (is_Some (heap m !! q)) as Hq.
    { pose proof (rep_vals _ _ Hr this) as Hv. rewrite Hthis in Hv. destruct (val v !! this) as [[t|]|]; try done.
      apply text_at_some in Hv as (? & b & [= <-] & Hb & _). by exists b. }
    rewrite map_size_delete_Some, (rep_size _ _ Hr), (omap_insert_None id (objs m) this None eq_refl) by done.
    rewrite map_size_delete_Some by (rewrite lookup_omap, Hthis; done).
    assert (size (omap id (objs m)) <> 0); [|lia]. intros He%map_size_empty_inv.
    assert (omap id (objs m) !! this = Some q) as Hx by (rewrite lookup_omap, Hthis; done). rewrite He, lookup_empty in Hx. done.
Qed.

(** An array that nothing points to. *)
Lemma represents_leak m v q b :
  represents m v -> heap m !! q = None -> represents (Mem (<[q := b]> (heap m)) (objs m)) (Values (val v) (S (leaked v))).
Proof.
  intros Hr Hq. constructor; cbn [heap objs val leaked].
  - intros a. pose proof (rep_vals _ _ Hr a) as Ha. destruct (objs m !! a), (val v !! a); try done. by apply holds_insert.
  - apply (rep_own _ _ Hr).
  - rewrite map_size_insert_None, (rep_size _ _ Hr) by done. lia.
Qed.

(** An object without an array comes and goes. *)
Lemma represents_null m v this :
  represents m v -> objs m !! this = None -> represents (Mem (heap m) (<[this := None]> (objs m))) (set_val this None v).
Proof.
  intros Hr Hthis. constructor; cbn [heap objs val leaked set_val].
  - intros a. rewrite !lookup_insert. case_decide; [done|]. apply (rep_vals _ _ Hr a).
  - intros a b q. rewrite !lookup_insert. repeat case_decide; try done. apply (rep_own _ _ Hr a b q).
  - rewrite (rep_size _ _ Hr), (omap_insert_None id (objs m) this None eq_refl), delete_id; [done|]. by rewrite lookup_omap, Hthis.
Qed.

Lemma represents_drop m v this :
  represents m v -> objs m !! this = Some None -> represents (Mem (heap m) (delete this (objs m))) (Values (delete this (val v)) (leaked v)).
Proof.
  intros Hr Hthis. constructor; cbn [heap objs val leaked].
  - intros a. rewrite !lookup_delete. case_decide; [done|]. apply (rep_vals _ _ Hr a).
  - intros a b q. rewrite !lookup_delete. repeat case_decide; try done. apply (rep_own _ _ Hr a b q).
  - rewrite (rep_size _ _ Hr), omap_delete, delete_id; [done|]. by rewrite lookup_omap, Hthis.
Qed.

(** An array is written in place. *)
Lemma represents_write m v this q b b' s :
  represents m v -> objs m !! this = Some (Some q) -> heap m !! q = Some b -> text b' = Some s ->
  represents (Mem (<[q := b']> (heap m)) (objs m)) (set_val this (Some s) v).
Proof.
  intros Hr Hthis Hq Hb'. constructor; cbn [heap objs val leaked set_val].
  - intros a. rewrite lookup_insert. case_decide as Hd.
    + subst a. rewrite Hthis. cbn [holds]. apply text_at_some. exists q, b'. by rewrite lookup_insert_eq.
    + pose proof (rep_vals _ _ Hr a) as Ha. destruct (objs m !! a) as [p|] eqn:Hp, (val v !! a) as [x|]; try done.
      destruct p as [q'|], x as [t|]; try done. cbn [holds] in *. apply text_at_some in Ha as (? & b0 & [= <-] & Hb0 & Ht).
      apply text_at_some. exists q', b0. rewrite lookup_insert_ne; [done|]. intros ->. destruct Hd. by apply (rep_own _ _ Hr _ _ q').
  - apply (rep_own _ _ Hr).
  - rewrite map_size_insert_Some by by exists b. apply (rep_size _ _ Hr).
Qed.

Lemma represents_text m v a p : represents m v -> objs m !! a = Some p -> text_at (heap m) p = get_val a v.
Proof.
  intros Hr Ha. unfold get_val. pose proof (rep_vals _ _ Hr a) as Hv. rewrite Ha in Hv. destruct (val v !! a) as [x|]; [|done].
  cbn. destruct p, x; try done.
Qed.

Lemma represents_dead m v a : represents m v -> objs m !! a = None -> val v !! a = None /\ get_val a v = None.
Proof. intros Hr Ha. unfold get_val. rewrite (proj2 (represents_none m v a Hr) Ha). done. Qed.

(** Destroying an object, whatever it holds. *)
Lemma represents_delete m v this p :
  represents m v -> objs m !! this = Some p ->
  exists h, delete_chars (heap m) p = Some h /\ represents (Mem h (<[this := None]> (objs m))) (set_val this None v) /\
    is_Some (val v !! this).
Proof.
  intros Hr Hp. pose proof (rep_vals _ _ Hr this) as Hv. rewrite Hp in Hv. destruct (val v !! this) as [x|] eqn:Hx; [|done].
  destruct p as [q|]; cbn [delete_chars].
  - destruct x as [s|]; [|done]. cbn [holds] in Hv. apply text_at_some in Hv as (? & b & [= <-] & Hb & _).
    rewrite decide_True by by exists b. eexists. split; [done|]. split; [by apply represents_free|by eexists].
  - destruct x; [done|]. eexists. split; [done|]. split; [|by eexists].
    unfold set_val. rewrite !insert_id by done. by destruct m, v.
Qed.

(** ** The operations refine their specifications *)

Definition agree (x : option (memory * result)) (y : option (values * result)) : Prop :=
  match x, y with Some (m, r), Some (v, r') => r = r' /\ represents m v | None, None => True | _, _ => False end.

Lemma place_new m v this h p s :
  represents (Mem h (objs m)) v -> mjoin (objs m !! this) = None -> text_at h p = Some s ->
  exists q h', new_chars (length s + 1) h = (q, h') /\ exists h'', strcpy h' (Some q) p = Some h'' /\
    represents (Mem h'' (<[this := Some q]> (objs m))) (set_val this (Some s) v).
Proof.
  intros Hr Hthis Hp. destruct (new_chars_eq (length s + 1) h) as (q & -> & Hq). eexists _, _. split; [done|].
  replace (length s + 1) with (length s + 0 + 1) by lia. rewrite (strcpy_fresh h q p s 0 Hq Hp). eexists. split; [done|].
  cbn [replicate]. rewrite app_nil_r. apply (represents_place (Mem h (objs m))); try done.
  apply text_at_some in Hp as (? & b & _ & _ & Hb). by apply text_no_nul in Hb.
Qed.

Lemma construct_agree this s m v : represents m v -> agree (run_call (Construct this s) m) (spec_call (Construct this s) v).
Proof.
  intros Hr. cbn [run_call spec_call]. unfold String_new. destruct (objs m !! this) as [p|] eqn:Hthis.
  - destruct (val v !! this) eqn:Hv; [done|]. apply (represents_none _ _ _ Hr) in Hv. congruence.
  - rewrite (proj2 (represents_none m v this Hr) Hthis). destruct s as [b|].
    + destruct (text b) as [t|] eqn:Ht; [|done]. cbn [mbind option_bind].
      destruct (new_chars_eq (length t + 1) (heap m)) as (q & -> & Hq).
      replace (length t + 1) with (length t + 0 + 1) by lia. rewrite write_at_fresh. cbn [mbind option_bind replicate]. rewrite app_nil_r.
      split; [done|]. apply represents_place; try done; [by apply text_no_nul in Ht|by rewrite Hthis].
    + destruct (new_chars_eq 1 (heap m)) as (q & -> & Hq). split; [done|].
      exact (represents_leak (Mem (heap m) (<[this := None]> (objs m))) (set_val this None v) q _ (represents_null m v this Hr Hthis) Hq).
Qed.

Lemma copy_agree this other m v : represents m v -> agree (run_call (Copy this other) m) (spec_call (Copy this other) v).
Proof.
  intros Hr. cbn [run_call spec_call]. unfold String_copy. destruct (objs m !! this) as [p|] eqn:Hthis.
  - destruct (val v !! this) eqn:Hv; [done|]. apply (represents_none _ _ _ Hr) in Hv. congruence.
  - rewrite (proj2 (represents_none m v this Hr) Hthis). destruct (objs m !! other) as [o|] eqn:Ho.
    + unfold strlen. cbn [mbind option_bind]. rewrite (represents_text m v other o Hr Ho).
      destruct (get_val other v) as [t|] eqn:Ht; [|done]. cbn [mbind option_bind fmap option_fmap option_map].
      destruct (place_new m v this (heap m) o t) as (q & h & -> & h' & -> & Hr'); [by destruct m|by rewrite Hthis| |].
      * by rewrite (represents_text m v other o Hr Ho).
      * done.
    + rewrite (proj2 (represents_dead m v other Hr Ho)). done.
Qed.

Lemma get_val_other a this x v : a <> this -> get_val a (set_val this x v) = get_val a v.
Proof. intros Hne. unfold get_val, set_val. cbn [val]. by rewrite lookup_insert_ne. Qed.

Lemma set_val_twice this x y v : set_val this x (set_val this y v) = set_val this x v.
Proof. unfold set_val. cbn [val leaked]. by rewrite insert_insert_eq. Qed.

Lemma assign_agree this other m v : represents m v -> agree (run_call (Assign this other) m) (spec_call (Assign this other) v).
Proof.
  intros Hr. cbn [run_call spec_call]. unfold assign.
  destruct (objs m !! this) as [p|] eqn:Hthis; [|by rewrite (proj1 (represents_dead m v this Hr Hthis))].
  destruct (represents_delete m v this p Hr Hthis) as (h & Hdel & Hr1 & x & ->). cbn [mbind option_bind].
  destruct (objs m !! other) as [o|] eqn:Ho; cbn [mbind option_bind].
  2:{ rewrite decide_False by congruence. by rewrite (proj2 (represents_dead m v other Hr Ho)). }
  destruct (decide (this = other)) as [->|Hne]; [done|]. rewrite Hdel. cbn [mbind option_bind].
  assert (text_at h o = get_val other v) as Ht.
  { rewrite <- (get_val_other other this None v) by done. apply (represents_text _ _ other o Hr1). cbn [objs]. by rewrite lookup_insert_ne. }
  unfold strlen. rewrite Ht. destruct (get_val other v) as [t|]; [|done]. cbn [fmap option_fmap option_map mbind option_bind].
  destruct (place_new (Mem h (<[this := None]> (objs m))) _ this h o t Hr1) as (q & h1 & -> & h2 & -> & Hr2);
    [cbn [objs]; by rewrite lookup_insert_eq|done|].
  cbn [mbind option_bind]. split; [done|]. cbn [objs] in Hr2. by rewrite insert_insert_eq, set_val_twice in Hr2.
Qed.

Lemma destroy_agree this m v : represents m v -> agree (run_call (Destroy this) m) (spec_call (Destroy this) v).
Proof.
  intros Hr. cbn [run_call spec_call]. unfold destroy.
  destruct (objs m !! this) as [p|] eqn:Hthis; [|by rewrite (proj1 (represents_dead m v this Hr Hthis))].
  destruct (represents_delete m v this p Hr Hthis) as (h & Hdel & Hr1 & x & ->). cbn [mbind option_bind].
  rewrite Hdel. cbn [mbind option_bind]. split; [done|].
  pose proof (represents_drop _ _ this Hr1 ltac:(cbn [objs]; by rewrite lookup_insert_eq)) as Hr2.
  cbn [heap objs val leaked set_val] in Hr2. by rewrite !delete_insert_eq in Hr2.
Qed.

Lemma written_char t r (i : nat) c : NUL ∉ t -> i < length t ->
  text (<[i := Some c]> ((Some <$> t) ++ Some NUL :: r)) = Some (c_str (<[i := c]> t)).
Proof.
  intros Hn Hi. rewrite insert_app_l by by rewrite length_fmap. rewrite <- list_fmap_insert. apply text_c_str.
Qed.

Lemma index_agree this i c m v : represents m v -> agree (run_call (Index this i c) m) (spec_call (Index this i c) v).
Proof.
  intros Hr. cbn [run_call spec_call]. unfold index, strlen.
  destruct (objs m !! this) as [p|] eqn:Hthis; [|by rewrite (proj2 (represents_dead m v this Hr Hthis))].
  cbn [mbind option_bind]. pose proof (represents_text m v this p Hr Hthis) as Ht. rewrite Ht.
  destruct (get_val this v) as [t|]; [|done]. cbn [fmap option_fmap option_map mbind option_bind].
  pose proof (int32_range i) as Hrange. cbn zeta. generalize dependent (int32 i). clear i. intros i Hrange.
  destruct (size_t i >=? Z.of_nat (length t))%Z eqn:Hi; [done|].
  apply text_at_some in Ht as (q & b & -> & Hb & Ht). cbn [mbind option_bind]. rewrite Hb. cbn [mbind option_bind].
  destruct (Z.ltb_spec i 0) as [Hneg|Hpos]; [done|].
  pose proof Ht as (r & -> & Hn)%text_some.
  assert (Z.to_nat i < length t) as Hlt.
  { unfold in_int32 in Hrange. unfold size_t in Hi. rewrite Z.mod_small in Hi by lia. lia. }
  destruct (lookup_lt_is_Some_2 t (Z.to_nat i) Hlt) as [x Hx].
  rewrite lookup_app_l by by rewrite length_fmap. rewrite list_lookup_fmap, Hx. cbn [fmap option_fmap option_map mbind option_bind].
  destruct c as [c|]; [|done]. split; [done|]. apply (represents_write m v this q _ _ _ Hr Hthis Hb). by apply written_char.
Qed.

Lemma equals_agree this other m v : represents m v -> agree (run_call (Equals this other) m) (spec_call (Equals this other) v).
Proof.
  intros Hr. cbn [run_call spec_call]. unfold equals.
  destruct (objs m !! this) as [p|] eqn:Hp; [|by rewrite (proj2 (represents_dead m v this Hr Hp))]. cbn [mbind option_bind].
  destruct (objs m !! other) as [o|] eqn:Ho.
  - cbn [mbind option_bind]. rewrite (represents_text m v this p Hr Hp), (represents_text m v other o Hr Ho).
    by destruct (get_val this v), (get_val other v).
  - rewrite (proj2 (represents_dead m v other Hr Ho)). by destruct (get_val this v).
Qed.

Lemma print_agree this m v : represents m v -> agree (run_call (Print this) m) (spec_call (Print this) v).
Proof.
  intros Hr. cbn [run_call spec_call]. unfold print.
  destruct (objs m !! this) as [p|] eqn:Hp; [|by rewrite (proj2 (represents_dead m v this Hr Hp))]. cbn [mbind option_bind].
  rewrite (represents_text m v this p Hr Hp). by destruct (get_val this v).
Qed.

Lemma strcat_same h q : strcat h (Some q) (Some q) = None.
Proof. unfold strcat. destruct (text_at h (Some q)); [|done]. cbn [mbind option_bind]. by rewrite decide_True. Qed.

Lemma append_agree this other m v : represents m v -> agree (run_call (Append this other) m) (spec_call (Append this other) v).
Proof.
  intros Hr. cbn [run_call spec_call]. unfold append, strlen.
  destruct (objs m !! this) as [p|] eqn:Hp; [|by rewrite (proj2 (represents_dead m v this Hr Hp))]. cbn [mbind option_bind].
  destruct (objs m !! other) as [o|] eqn:Ho; cbn [mbind option_bind].
  2:{ rewrite (proj2 (represents_dead m v other Hr Ho)). by destruct (get_val this v). }
  pose proof (represents_text m v this p Hr Hp) as Hs. pose proof (represents_text m v other o Hr Ho) as Ht. rewrite Hs, Ht.
  destruct (get_val this v) as [s|]; [|done]. destruct (get_val other v) as [t|] eqn:Hgt; [|done].
  cbn [fmap option_fmap option_map mbind option_bind].
  destruct (new_chars_eq (length s + length t + 1) (heap m)) as (q & -> & Hq). cbn [with_string objs].
  rewrite (strcpy_fresh (heap m) q p s (length t) Hq Hs). cbn [mbind option_bind].
  pose proof Hs as (q0 & b0 & -> & Hb0 & Hs')%text_at_some. apply text_no_nul in Hs'.
  destruct (represents_delete m v this _ Hr Hp) as (h & Hdel & Hr1 & _). cbn [delete_chars] in Hdel |- *.
  assert (q <> q0) as Hne by congruence. rewrite decide_True in Hdel by by exists b0. injection Hdel as <-.
  rewrite decide_True by (rewrite lookup_insert_ne by done; by exists b0). cbn [mbind option_bind].
  rewrite lookup_insert. destruct (decide (this = other)) as [->|Hto]; cbn [mbind option_bind]; [by rewrite strcat_same|].
  rewrite Ho. cbn [mbind option_bind]. rewrite delete_insert_ne by done.
  rewrite (strcat_fresh (delete q0 (heap m)) q o s t Hs'); [|by rewrite lookup_delete_ne|].
  2:{ rewrite <- Hgt, <- (get_val_other other this None v) by done. apply (represents_text _ _ other o Hr1). cbn [objs]. by rewrite lookup_insert_ne. }
  cbn [mbind option_bind]. split; [done|].
  pose proof (represents_place _ _ this q (s ++ t) Hr1) as Hr2. cbn [heap objs] in Hr2. unfold with_string. cbn [objs].
  rewrite set_val_twice, insert_insert_eq in Hr2. rewrite insert_insert_eq. apply Hr2.
  - by rewrite lookup_delete_ne.
  - apply not_elem_of_app. split; [done|]. apply text_at_some in Ht as (? & b & _ & _ & Hb). by apply text_no_nul in Hb.
  - by rewrite lookup_insert_eq.
Qed.

Lemma add_agree tmp this other m v : represents m v -> agree (run_call (Add tmp this other) m) (spec_call (Add tmp this other) v).
Proof.
  intros Hr. pose proof (construct_agree tmp None m v Hr) as H0. cbn [run_call spec_call] in *. unfold add.
  destruct (String_new tmp None m) as [m1|] eqn:Hm1; cbn [mbind option_bind agree] in *; destruct (val v !! tmp) eqn:Htmp; try done.
  destruct H0 as [_ Hr1]. set (v1 := Values _ _) in Hr1.
  assert (forall a, get_val a v1 = get_val a v) as Hget.
  { intros a. unfold get_val, v1. cbn [val]. rewrite lookup_insert. case_decide; [subst; by rewrite Htmp|done]. }
  destruct (objs m1 !! this) as [p|] eqn:Hp; cbn [mbind option_bind]; [|by rewrite <- (Hget this), (proj2 (represents_dead m1 v1 this Hr1 Hp))].
  destruct (objs m1 !! other) as [o|] eqn:Ho; cbn [mbind option_bind].
  2:{ rewrite <- (Hget other), (proj2 (represents_dead m1 v1 other Hr1 Ho)). by destruct (get_val this v). }
  unfold strlen. pose proof (represents_text m1 v1 this p Hr1 Hp) as Hs. pose proof (represents_text m1 v1 other o Hr1 Ho) as Ht.
  rewrite Hs, Ht. rewrite Hget in Hs, Ht |- *. rewrite Hget.
  destruct (get_val this v) as [s|]; [|done]. destruct (get_val other v) as [t|]; [|done].
  cbn [fmap option_fmap option_map mbind option_bind].
  destruct (new_chars_eq (length s + length t + 1) (heap m1)) as (q & -> & Hq).
  rewrite (strcpy_fresh (heap m1) q p s (length t) Hq Hs). cbn [mbind option_bind].
  assert (NUL ∉ s) as Hs' by (apply text_at_some in Hs as (? & b & _ & _ & Hb); by apply text_no_nul in Hb).
  rewrite (strcat_fresh (heap m1) q o s t Hs' Hq Ht). cbn [mbind option_bind]. split; [done|].
  pose proof (represents_place m1 v1 tmp q (s ++ t) Hr1 Hq) as Hr2. unfold set_val, v1 in Hr2. cbn [val leaked] in Hr2.
  rewrite insert_insert_eq in Hr2. apply Hr2.
  - apply not_elem_of_app. split; [done|]. apply text_at_some in Ht as (? & b & _ & _ & Hb). by apply text_no_nul in Hb.
  - pose proof (represents_live m1 v1 tmp Hr1) as Hl. unfold v1 in Hl. cbn [val] in Hl. rewrite lookup_insert_eq in Hl.
    destruct (objs m1 !! tmp) as [[q'|]|]; [|done..]. destruct Hl as (x & [= <-] & Hx). done.
Qed.

Lemma get_line_length n input : length (get_line n input) <= n.
Proof. revert input. induction n as [|n IH]; intros [|c input]; cbn; [lia..|]. case_decide; cbn; [lia|]. specialize (IH input). lia. Qed.

Lemma extract_agree this obj input m v : represents m v -> agree (run_call (Extract this obj input) m) (spec_call (Extract this obj input) v).
Proof.
  intros Hr. cbn [run_call spec_call]. unfold extract. set (line := get_line 1023 input). set (b := _ ++ Some NUL :: _).
  assert (text b = Some (c_str line)) as Hb by apply text_c_str.
  pose proof (represents_live m v this Hr) as Hthis. destruct (objs m !! this) as [p|] eqn:Hp; cbn [mbind option_bind].
  2:{ rewrite Hthis. by destruct (val v !! obj). }
  destruct Hthis as (x & Hx & _). rewrite Hx.
  pose proof (construct_agree obj (Some b) m v Hr) as H1. cbn [run_call spec_call] in H1. rewrite Hb in H1. cbn [mbind option_bind] in H1.
  destruct (val v !! obj) as [y|] eqn:Hobj; destruct (String_new obj (Some b) m) as [m1|]; cbn [mbind option_bind agree] in *; try done.
  destruct H1 as [_ Hr1]. assert (this <> obj) as Hne by (intros ->; congruence).
  pose proof (assign_agree this obj m1 _ Hr1) as H2. cbn [run_call spec_call] in H2.
  rewrite decide_False in H2 by done. unfold get_val in H2. cbn [val set_val] in H2.
  rewrite (lookup_insert_ne (val v) obj this) in H2 by congruence. rewrite Hx, lookup_insert_eq in H2. cbn [mbind option_bind mjoin option_join] in H2.
  destruct (assign this obj m1) as [m2|]; cbn [mbind option_bind agree] in *; [|done]. destruct H2 as [_ Hr2].
  pose proof (destroy_agree obj m2 _ Hr2) as H3. cbn [run_call spec_call set_val val leaked] in H3.
  rewrite (lookup_insert_ne _ this obj), lookup_insert_eq in H3 by congruence. cbn [mbind option_bind] in H3.
  destruct (destroy obj m2) as [m3|]; cbn [mbind option_bind agree] in *; [|done]. destruct H3 as [_ Hr3]. split; [done|].
  rewrite delete_insert_ne, delete_insert_id in Hr3 by done. exact Hr3.
Qed.

Lemma call_agree c m v : represents m v -> agree (run_call c m) (spec_call c v).
Proof.
  destruct c; [apply construct_agree|apply copy_agree|apply assign_agree|apply destroy_agree|apply index_agree
    |apply equals_agree|apply append_agree|apply add_agree|apply print_agree|apply extract_agree].
Qed.

Lemma calls_agree cs m v : represents m v ->
  match run_calls cs m, spec_calls cs v with
  | Some (m', rs), Some (v', rs') => rs = rs' /\ represents m' v'
  | None, None => True
  | _, _ => False
  end.
Proof.
  revert m v. induction cs as [|c cs IH]; intros m v Hr; [by split|]. cbn [run_calls spec_calls].
  pose proof (call_agree c m v Hr) as Hc. destruct (run_call c m) as [[m1 r]|], (spec_call c v) as [[v1 r']|]; try done.
  destruct Hc as [<- Hr1]. cbn [mbind option_bind]. specialize (IH m1 v1 Hr1).
  destruct (run_calls cs m1) as [[m2 rs]|], (spec_calls cs v1) as [[v2 rs']|]; try done.
  destruct IH as [<- Hr2]. by split.
Qed.

Lemma no_strings_ok : represents no_strings (Values ∅ 0).
Proof. constructor; cbn [no_strings heap objs val leaked]; [intros a; by rewrite !lookup_empty|intros a b q; by rewrite lookup_empty|done]. Qed.

(** C27: Programs that use the class, with any aliasing of their objects and any
    placement of the arrays, behave as if the objects were texts: they are
    undefined exactly where the specification says, that is, where the text of a
    null string is used, where an object is appended to itself, or an object is
    used that does not live; otherwise every result is the specified one, no two
    objects share an array, and the arrays in memory are those of the objects and
    one more for each null string and each [operator+], which is lost. *)
Theorem string_refines cs :
  match run_calls cs no_strings, spec_calls cs (Values ∅ 0) with
  | Some (m, rs), Some (v, rs') =>
      rs = rs' /\
      (forall a, (get_val a v = p ← objs m !! a; text_at (heap m) p) /\ (is_Some (objs m !! a) <-> is_Some (val v !! a))) /\
      (forall a b q, objs m !! a = Some (Some q) -> objs m !! b = Some (Some q) -> a = b) /\
      size (heap m) = size (omap id (objs m)) + leaked v
  | None, None => True
  | _, _ => False
  end.
Proof.
  pose proof (calls_agree cs _ _ no_strings_ok) as H.
  destruct (run_calls cs no_strings) as [[m rs]|], (spec_calls cs (Values ∅ 0)) as [[v rs']|]; try done.
  destruct H as [-> Hr]. split; [done|]. split; [|split; [apply (rep_own _ _ Hr)|apply (rep_size _ _ Hr)]].
  intros a. pose proof (represents_live m v a Hr) as Ha. destruct (objs m !! a) as [p|] eqn:Hp.
  - cbn [mbind option_bind]. split; [by rewrite (represents_text m v a p Hr Hp)|]. destruct Ha as (x & -> & _). split; by eexists.
  - destruct (represents_dead m v a Hr Hp) as [H1 H2]. rewrite H1, H2. split; [done|]. by split; intros [? ?].
Qed.
End string.

(** ** Examples and witness *)

#[export] Instance fresh_new_chars : NewChars fresh.
Proof. intros X. apply is_fresh. Qed.

Definition literal (s : string) : option block := Some (written (lit s)).

(** [main]: [a("hello")], [b(a)], [c], [c = a], two times output, input of a line,
    output, and the destructors. *)
Definition string_main : list call :=
  [Construct 0 (literal "hello"); Copy 1 0; Construct 2 None; Assign 2 0; Print 0; Print 0;
   Extract 2 3 (lit "a line" ++ [LF]); Print 2; Destroy 2; Destroy 1; Destroy 0].

Lemma string_refines_witness :
  exists m, run_calls fresh string_main no_strings =
      Some (m, [void; void; void; void; is_text (lit "hello"); is_text (lit "hello"); left_over [LF]; is_text (lit "a line"); void; void; void]) /\
    size (heap m) = 1.
Proof.
  pose proof (string_refines fresh string_main) as H.
  destruct (spec_calls string_main (Values ∅ 0)) as [[v rs']|] eqn:Hs; [|vm_compute in Hs; discriminate Hs].
  destruct (run_calls fresh string_main no_strings) as [[m rs]|]; [|destruct H]. destruct H as (-> & Hv & _ & Hsize).
  vm_compute in Hs. injection Hs as <- <-. exists m. split; [reflexivity|]. rewrite Hsize. cbn [leaked].
  assert (omap id (objs m) = ∅) as ->; [|reflexivity]. apply map_empty. intros a. rewrite lookup_omap.
  destruct (objs m !! a) eqn:Ha; [|reflexivity]. destruct (proj1 (proj2 (Hv a)) (ex_intro _ _ Ha)) as [x Hx].
  change ((∅ : gmap nat (option str)) !! a = Some x) in Hx. rewrite lookup_empty in Hx. discriminate Hx.
Defined.

(** A string made without an argument cannot be copied, compared or printed. *)
Example null_string :
  run_calls fresh [Construct 0 None; Copy 1 0] no_strings = None /\
  run_calls fresh [Construct 0 None; Construct 1 (literal ""); Equals 0 1] no_strings = None /\
  run_calls fresh [Construct 0 None; Print 0] no_strings = None.
Proof. vm_compute. split_and!; reflexivity. Qed.

(** [a += a] copies the new array to its own end. *)
Example append_itself : run_calls fresh [Construct 0 (literal "ab"); Append 0 0] no_strings = None.
Proof. vm_compute. reflexivity. Qed.

(** A negative index is too large, and so is one past a zero that was written. *)
Example index_throws :
  snd <$> run_calls fresh [Construct 0 (literal "abc"); Index 0 (-1) None; Index 0 1 (Some NUL); Index 0 1 None; Index 0 0 None; Print 0] no_strings =
  Some [void; throws; void; throws; is_char "a"%char; is_text (lit "a")].
Proof. vm_compute. reflexivity. Qed.

(** ** Splitting a string *)

(** [std::string::find]: the first place of [d] in [s] from [pos] on. *)
Fixpoint first_in (d rest : str) (pos : nat) : option nat :=
  if bool_decide (d `prefix_of` rest) then Some pos
  else match rest with [] => None | _ :: rest' => first_in d rest' (S pos) end.
Definition find (s d : str) (pos : nat) : option nat :=
  if (pos <=? length s)%nat then first_in d (drop pos s) pos else None.

Definition substr (s : str) (pos n : nat) : str := take n (drop pos s).

(** The loop, of at most [fuel] rounds. *)
Fixpoint split_loop (fuel : nat) (sData sDelim : str) (bpos epos : nat) (vItems : list str) : option (list str) :=
  match fuel with
  | O => None
  | S f =>
      match find sData sDelim epos with
      | None => Some (vItems ++ [substr sData bpos (length sData - bpos)])
      | Some epos => split_loop f sData sDelim (epos + length sDelim) (epos + length sDelim) (vItems ++ [substr sData bpos (epos - bpos)])
      end
  end.
Definition StringSplit (fuel : nat) (sData sDelim : str) : option (list str) := split_loop fuel sData sDelim 0 0 [].

(** Pieces with the delimiter between them, in none of which it begins. *)
Fixpoint join (d : str) (items : list str) : str :=
  match items with [] => [] | [x] => x | x :: items' => x ++ d ++ join d items' end.
Fixpoint pieces (d : str) (items : list str) : Prop :=
  match items with
  | [] => False
  | [x] => first_in d x 0 = None
  | x :: items' => first_in d (x ++ d) 0 = Some (length x) /\ pieces d items'
  end.

Lemma first_in_shift d rest pos : first_in d rest pos = Nat.add pos <$> first_in d rest 0.
Proof.
  revert pos. induction rest as [|c rest IH]; intros pos; cbn [first_in].
  - case_bool_decide; [cbn; f_equal; lia|done].
  - case_bool_decide; [cbn; f_equal; lia|]. rewrite (IH (S pos)), (IH 1). destruct (first_in d rest 0); cbn; [f_equal; lia|done].
Qed.

Lemma prefix_enough (d a r : str) : length d <= length a -> d `prefix_of` a ++ r <-> d `prefix_of` a.
Proof.
  intros Hl. split; [|apply prefix_app_r]. intros [t Ht]. exists (drop (length d) a).
  rewrite <- (take_drop (length d) a) at 1. f_equal. apply (f_equal (take (length d))) in Ht.
  by rewrite take_app_le, take_app_length in Ht.
Qed.

Lemma first_in_app d x r : first_in d (x ++ d ++ r) 0 = Some (length x) <-> first_in d (x ++ d) 0 = Some (length x).
Proof.
  assert (forall t, first_in d (d ++ t) 0 = Some 0) as H0 by (intros t; destruct (d ++ t) eqn:He; cbn [first_in]; rewrite <- He, bool_decide_true; done || by exists t).
  induction x as [|c x IH]; cbn [app length].
  - rewrite H0. pose proof (H0 []) as H1. rewrite app_nil_r in H1. by rewrite H1.
  - cbn [first_in]. rewrite app_assoc, app_comm_cons.
    rewrite (bool_decide_ext (d `prefix_of` (c :: x ++ d) ++ r) (d `prefix_of` c :: x ++ d)) by (apply prefix_enough; cbn; rewrite length_app; lia).
    case_bool_decide; [done|]. rewrite <- app_assoc, (first_in_shift _ _ 1), (first_in_shift _ (x ++ d) 1).
    destruct IH as [IH1 IH2]. split; intros (n & Hn & Heq)%fmap_Some; assert (n = length x) as -> by lia; [rewrite (IH1 Hn)|rewrite (IH2 Hn)]; done.
Qed.

Lemma first_in_found d rest n : first_in d rest 0 = Some n -> exists x r, rest = x ++ d ++ r /\ length x = n.
Proof.
  revert n. induction rest as [|c rest IH]; intros n; cbn [first_in]; case_bool_decide as Hp.
  - intros [= <-]. apply prefix_nil_inv in Hp as ->. by exists [], [].
  - done.
  - intros [= <-]. destruct Hp as [r ->]. by exists [], r.
  - rewrite first_in_shift. intros (m & Hm & ->)%fmap_Some. destruct (IH m Hm) as (x & r & -> & <-). by exists (c :: x), r.
Qed.

Lemma split_loop_spec d pre rest acc fuel :
  d <> [] -> length rest < fuel ->
  exists items, split_loop fuel (pre ++ rest) d (length pre) (length pre) acc = Some (acc ++ items) /\ join d items = rest /\ pieces d items.
Proof.
  intros Hd. revert pre rest acc. induction fuel as [|fuel IH]; intros pre rest acc Hf; [lia|]. cbn [split_loop]. unfold find.
  rewrite (proj2 (Nat.leb_le _ _)) by (rewrite length_app; lia). rewrite drop_app_length, first_in_shift.
  destruct (first_in d rest 0) as [n|] eqn:Hn; cbn [fmap option_fmap option_map].
  - pose proof Hn as (x & r & -> & <-)%first_in_found. apply first_in_app in Hn.
    assert (length d <> 0) as Hd' by (destruct d; [done|cbn; lia]). rewrite !length_app in Hf.
    replace (length pre + length x + length d) with (length (pre ++ x ++ d)) by (rewrite !length_app; lia).
    replace (pre ++ x ++ d ++ r) with ((pre ++ x ++ d) ++ r) by by rewrite <- !app_assoc.
    destruct (IH (pre ++ x ++ d) r (acc ++ [substr ((pre ++ x ++ d) ++ r) (length pre) (length pre + length x - length pre)]) ltac:(lia)) as (items & -> & <- & Hp).
    exists (x :: items). split_and!.
    + rewrite <- app_assoc. do 3 f_equal. unfold substr. rewrite <- !app_assoc, drop_app_length.
      replace (length pre + length x - length pre) with (length x) by lia. by rewrite take_app_length.
    + by destruct items.
    + by destruct items.
  - exists [rest]. split_and!; [|done|done]. unfold substr. rewrite drop_app_length, length_app.
    by rewrite take_ge by lia.
Qed.

Lemma pieces_unique d items items' : pieces d items -> pieces d items' -> join d items = join d items' -> items = items'.
Proof.
  revert items'. induction items as [|x items IH]; intros [|y items'] H1 H2 Heq; [done..|].
  destruct items as [|x' items], items' as [|y' items']; cbn [pieces join] in *.
  - by subst.
  - exfalso. destruct H2 as [H2 _]. rewrite <- first_in_app in H2. by rewrite <- Heq, H1 in H2.
  - exfalso. destruct H1 as [H1 _]. rewrite <- first_in_app in H1. by rewrite Heq, H2 in H1.
  - destruct H1 as [H1 H1'], H2 as [H2 H2']. rewrite <- first_in_app in H1, H2. rewrite Heq, H2 in H1. injection H1 as Hl.
    apply app_inj_1 in Heq as [-> Heq]; [|done]. apply app_inv_head in Heq. f_equal. by apply IH.
Qed.

(** With a delimiter that is not empty, [StringSplit] ends after at most a round per
    byte and gives the only pieces that are the data when the delimiter is put
    between them and in which, read from the left, the delimiter begins nowhere
    sooner. *)
Theorem string_split s d : d <> [] ->
  exists items, (forall fuel, length s < fuel -> StringSplit fuel s d = Some items) /\
    forall items', pieces d items' /\ join d items' = s <-> items' = items.
Proof.
  intros Hd. destruct (split_loop_spec d [] s [] (S (length s)) Hd ltac:(lia)) as (items & _ & Hj & Hp). exists items. split.
  - intros fuel Hf. destruct (split_loop_spec d [] s [] fuel Hd Hf) as (items' & Hs & Hj' & Hp'). unfold StringSplit.
    cbn [app length] in Hs. rewrite Hs. f_equal. apply (pieces_unique d); congruence.
  - intros items'. split; [|by intros ->]. intros [Hp' Hj']. apply (pieces_unique d); congruence.
Qed.

(** With an empty one it never ends. *)
Lemma split_forever s fuel : StringSplit fuel s [] = None.
Proof.
  unfold StringSplit. generalize (@nil str). change 0 with (length (@nil ascii)) at 1 2.
  assert (forall acc, split_loop fuel s [] 0 0 acc = None) as H; [|by intros; apply H].
  induction fuel as [|fuel IH]; intros acc; [done|]. cbn [split_loop]. unfold find. rewrite (proj2 (Nat.leb_le _ _)) by lia.
  destruct s as [|c s]; cbn [drop first_in]; rewrite bool_decide_true by apply prefix_nil; cbn [length Nat.add]; apply IH.
Qed.

Example split_main : StringSplit 10 (lit "asdf&qwer") (lit "&") = Some [lit "asdf"; lit "qwer"].
Proof. vm_compute. reflexivity. Qed.
