(* ===== verification/StlSamples.v ===== *)
(** * StlSamples: copying lines, thread handles

    Models [stl_1.11.cpp] and [stl_16_3.cpp] of [stl/]: a program that copies a text
    file line by line into another file and onto the screen, with [getline] and the
    state of its stream, and one that moves [std::thread] objects around and counts
    seconds. *)
From S2P Require Import Prelude.

(** ** Copying lines ([stl_1.11.cpp]) *)

(** An [ifstream]: what is not read yet, [eofbit], [failbit]. *)
Record istream := IStream { unread : str; eof : bool; fail : bool }.

(** [f1.open(filename1, ios::in)]. *)
Definition open_in (file : option str) : istream :=
  match file with Some t => IStream t false false | None => IStream [] false true end.

(** The characters of [getline(content, n + 1)], what follows them, and the bits. The
    end is tested first, then the newline, then the room. *)
Fixpoint getline_chars (n : nat) (t : str) {struct t} : str * istream :=
  match t with
  | [] => ([], IStream [] true false)
  | c :: t' =>
      if decide (c = LF) then ([], IStream t' false false)
      else match n with
           | O => ([], IStream t false true)
           | S n' => let '(l, s) := getline_chars n' t' in (c :: l, s)
           end
  end.

(** [f1.getline(content, n + 1)]: a stream that is not good gives an empty string and
    fails; at the end of the file a line without characters fails. *)
Definition getline (n : nat) (s : istream) : str * istream :=
  if eof s || fail s then ([], IStream (unread s) (eof s) true)
  else let '(l, s') := getline_chars n (unread s) in
       (l, IStream (unread s') (eof s') (fail s' || (eof s' && bool_decide (l = [])))).

Definition room : nat := 127.

(** [while(!f1.eof())]: what is written to [f2], and shown. *)
Fixpoint copy (fuel : nat) (s : istream) : option str :=
  match fuel with
  | O => None
  | S fuel' =>
      if eof s then Some []
      else let '(content, s') := getline room s in
           out ← copy fuel' s'; Some (c_str content ++ LF :: out)
  end.

(** The lines of a text, the last one being what follows the last newline. *)
Fixpoint pieces (t : str) : list str :=
  match t with
  | [] => [[]]
  | c :: t' => if decide (c = LF) then [] :: pieces t' else match pieces t' with l :: ls => (c :: l) :: ls | [] => [[c]] end
  end.

Lemma pieces_cons t : exists l ls, pieces t = l :: ls.
Proof. destruct t as [|c t]; cbn; [by eexists _, _|]. case_decide; [by eexists _, _|]. destruct (pieces t); by eexists _, _. Qed.

Lemma pieces_print t : exists l ls, pieces t = l :: ls /\ t ++ [LF] = l ++ LF :: concat ((fun l => l ++ [LF]) <$> ls).
Proof.
  induction t as [|c t (l & ls & IH & Ht)]; [by exists [], []|]. cbn [pieces]. case_decide as Hc.
  - subst c. exists [], (pieces t). split; [done|]. rewrite IH, fmap_cons, concat_cons, <- app_assoc. cbn. by rewrite Ht.
  - rewrite IH. exists (c :: l), ls. split; [done|]. cbn. by rewrite Ht.
Qed.

Lemma length_pieces t : length (pieces t) <= S (length t).
Proof.
  induction t as [|c t IH]; [done|]. cbn [pieces]. case_decide; [cbn; lia|]. destruct (pieces_cons t) as (l & ls & E). rewrite E in *. cbn in *. lia.
Qed.

(** One [getline]: the first piece, unless it is too long. *)
Lemma getline_chars_spec n t : forall l ls, pieces t = l :: ls ->
  if decide (length l <= n) then
    exists s, getline_chars n t = (l, s) /\ fail s = false /\
      match ls with [] => eof s = true | _ => eof s = false /\ pieces (unread s) = ls end
  else exists s, getline_chars n t = (take n l, s) /\ eof s = false /\ fail s = true.
Proof.
  revert n. induction t as [|c t IH]; intros n l ls; cbn [pieces getline_chars].
  - intros [= <- <-]. rewrite decide_True by (cbn; lia). eexists. by split_and!.
  - case_decide as Hc.
    + intros [= <- <-]. rewrite decide_True by (cbn; lia). eexists. split; [done|]. split; [done|]. cbn. destruct (pieces_cons t) as (l & ls & E). by rewrite E.
    + destruct (pieces_cons t) as (l' & ls' & E). rewrite E. intros [= <- <-]. destruct n as [|n].
      * rewrite decide_False by (cbn; lia). eexists. by split_and!.
      * specialize (IH n l' ls' E). cbn [length]. case_decide; case_decide; try lia.
        -- destruct IH as (s & -> & ?). by exists s.
        -- destruct IH as (s & -> & ?). by exists s.
Qed.

Lemma copy_failed fuel s : eof s = false -> fail s = true -> copy fuel s = None.
Proof.
  revert s. induction fuel as [|fuel IH]; intros s He Hf; [done|]. cbn [copy]. rewrite He. unfold getline. rewrite He, Hf. cbn. by rewrite IH.
Qed.

Lemma copy_eof fuel s : eof s = true -> copy (S fuel) s = Some [].
Proof. intros He. cbn. by rewrite He. Qed.

Lemma copy_pieces fuel t : length (pieces t) < fuel ->
  copy fuel (IStream t false false) =
    if forallb (fun l => length l <=? room)%nat (pieces t) then Some (concat ((fun l => c_str l ++ [LF]) <$> pieces t)) else None.
Proof.
  remember (pieces t) as ls eqn:E. revert fuel t E. induction ls as [|l ls IH]; intros fuel t E Hf.
  { destruct (pieces_cons t) as (? & ? & ?). congruence. }
  destruct fuel as [|fuel]; [cbn in Hf; lia|]. cbn [copy eof]. unfold getline. cbn [eof fail unread orb].
  pose proof (getline_chars_spec room t l ls (eq_sym E)) as Hg. cbn [forallb]. case_decide as Hl.
  - destruct Hg as (s & -> & Hsf & Hs). rewrite Hsf. assert ((length l <=? room)%nat = true) as -> by (apply Nat.leb_le; lia). cbn [andb].
    destruct ls as [|l2 ls].
    + rewrite Hs. cbn in Hf. destruct fuel as [|fuel]; [lia|]. rewrite copy_eof by done. cbn. by rewrite app_nil_r.
    + destruct Hs as [He Hp]. rewrite He. cbn [andb orb]. cbn in Hf. rewrite (IH fuel (unread s)) by (try done; cbn; lia).
      destruct (forallb _ _); [|done]. rewrite fmap_cons, concat_cons. cbn [mbind option_bind]. rewrite !fmap_cons, !concat_cons, <- !app_assoc. done.
  - destruct Hg as (s & -> & He & Hsf). assert ((length l <=? room)%nat = false) as -> by (apply Nat.leb_gt; lia). cbn [andb].
    by rewrite copy_failed; [|cbn; rewrite ?He, ?Hsf..].
Qed.

Lemma copy_more fuel s out : copy fuel s = Some out -> forall n, copy (n + fuel) s = Some out.
Proof.
  revert s out. induction fuel as [|fuel IH]; intros s out; [done|]. intros H n. rewrite Nat.add_succ_r. cbn [copy] in *.
  destruct (eof s); [done|]. destruct (getline room s) as [l s']. destruct (copy fuel s') as [o|] eqn:E; [|done]. by rewrite (IH s' o E n).
Qed.

(** The program ends exactly for a file that exists and has no line of more than 127
    characters; then it writes every line up to its first null character and a
    newline after each, also after the last one, which may be empty: a text without
    null characters gets one newline more. Otherwise it writes newlines for ever. *)
Theorem copies_lines file :
  match file with
  | Some t =>
      if forallb (fun l => length l <=? room)%nat (pieces t) then
        copy (S (S (length t))) (open_in file) = Some (concat ((fun l => c_str l ++ [LF]) <$> pieces t)) /\
        (NUL ∉ t -> copy (S (S (length t))) (open_in file) = Some (t ++ [LF]))
      else forall fuel, copy fuel (open_in file) = None
  | None => forall fuel, copy fuel (open_in file) = None
  end.
Proof.
  destruct file as [t|]; [|intros fuel; by apply copy_failed]. pose proof (length_pieces t) as Hl.
  pose proof (fun fuel => copy_pieces fuel t) as H. cbn [open_in]. destruct (forallb _ (pieces t)).
  - rewrite H by lia. split; [done|]. intros Hn. f_equal. destruct (pieces_print t) as (l & ls & E & Ht). rewrite Ht, E, fmap_cons, concat_cons, <- app_assoc.
    assert (Hp : Forall (fun l => NUL ∉ l) (pieces t)).
    { clear -Hn. induction t as [|c t IH]; [by repeat constructor; apply not_elem_of_nil|]. apply not_elem_of_cons in Hn as [Hc Hn]. specialize (IH Hn). cbn.
      case_decide; [constructor; [apply not_elem_of_nil|done]|]. destruct (pieces_cons t) as (l & ls & E). rewrite E in *. apply Forall_cons in IH as [H1 H2]. constructor; [by apply not_elem_of_cons|done]. }
    rewrite E in Hp. apply Forall_cons in Hp as [H1 Hp]. rewrite (c_str_id l H1).
    assert (Hmap : (fun l => c_str l ++ [LF]) <$> ls = (fun l => l ++ [LF]) <$> ls).
    { clear -Hp. induction Hp as [|x ls Hx _ IH]; [done|]. by rewrite !fmap_cons, IH, (c_str_id x Hx). }
    by rewrite Hmap.
  - intros fuel. destruct (copy fuel _) as [out|] eqn:Ec; [|done]. pose proof (copy_more _ _ _ Ec (S (S (length t)))) as Hm.
    rewrite H in Hm by lia. done.
Qed.

(** An empty line at the end; a line of 128 characters. *)
Example copy_text : copy 9 (open_in (Some (lit "a" ++ [LF] ++ lit "bc" ++ [LF]))) = Some (lit "a" ++ [LF] ++ lit "bc" ++ [LF; LF]).
Proof. reflexivity. Qed.
Example copy_long_line : forall fuel, copy fuel (open_in (Some (replicate 128 "x"%char))) = None.
Proof. exact (copies_lines (Some (replicate 128 "x"%char))). Qed.
Example copy_line_127 : copy 200 (open_in (Some (replicate 127 "x"%char))) = Some (replicate 127 "x"%char ++ [LF]).
Proof. vm_compute. reflexivity. Qed.

(** ** Thread handles and seconds ([stl_16_3.cpp]) *)

Module Handles.

(** [t] and [t2]: the thread each object is joined with. *)
Record handles := Handles { t : option nat; t2 : option nat }.

Definition swap (h : handles) : handles := Handles (t2 h) (t h).

(** What [main] does: the ids shown by the six lines, the thread it detaches, the one it
    joins, and the handle shown at the end. *)
Record result := Result { ids : list (option nat); detached : option nat; joined : option nat; native : option nat }.

Definition main : result :=
  let h := Handles (Some 1) (Some 2) in
  let h1 := swap h in
  let h2 := swap h1 in
  let out := [t h; t2 h; t h1; t2 h1; t h2; t2 h2] in
  let '(d, h3) := match t h2 with Some i => (Some i, Handles None (t2 h2)) | None => (None, h2) end in
  let '(j, h4) := match t2 h3 with Some i => (Some i, Handles (t h3) None) | None => (None, h3) end in
  Result out d j (t h4).

(** [while(a--)]: the milliseconds slept, one after the other. *)
Fixpoint countdown (a : nat) (ms : Z) : Z := match a with O => ms | S a' => countdown a' (ms + 1) end.

(** [while(sec<=8)]: the seconds slept and the dashes. *)
Fixpoint dashes (fuel : nat) (sec : Z) (slept : Z) (n : nat) : option (Z * nat) :=
  match fuel with
  | O => None
  | S fuel' => if (sec <=? 8)%Z then let sec := (sec + 1)%Z in dashes fuel' sec (slept + sec) (S n) else Some (slept, n)
  end.

(** [thread_entry1]: milliseconds of the first wait, seconds and dashes of the second. *)
Definition thread_entry1 : Z * option (Z * nat) := (countdown (Z.to_nat 10000) 0, dashes 10 0 0 0).

End Handles.

Lemma countdown_spec a ms : Handles.countdown a ms = (ms + Z.of_nat a)%Z.
Proof. revert ms. induction a as [|a IH]; intros ms; cbn [Handles.countdown]; [lia|]. rewrite IH. lia. Qed.

(** The first wait is the 10 seconds its line says; the second, which says 8, is of 45
    seconds with nine dashes. *)
Theorem thread_entry1_waits : Handles.thread_entry1 = (10000%Z, Some (45%Z, 9)).
Proof. unfold Handles.thread_entry1. rewrite countdown_spec, Z2Nat.id by lia. reflexivity. Qed.

(** Two swaps are none; the first thread is detached and nobody waits for it; what is
    shown last is the handle of an object without a thread. *)
Example handles_swapped : Handles.main = Handles.Result [Some 1; Some 2; Some 2; Some 1; Some 1; Some 2] (Some 1) (Some 2) None.
Proof. reflexivity. Qed.
