(* ===== verification/TryLock.v ===== *)
(** * TryLock: threads that try a mutex

    Models [stl_16_4.cpp] to [stl_16_8.cpp] of [stl/]: threads that lock, try to lock,
    unlock and adopt one mutex, plain, timed or recursive, write an array and print.
    A thread is the list of its operations, loops written out; a run interleaves them
    one at a time. [try_lock] may also fail when the mutex is free, which the standard
    allows; waiting for some time is a [try_lock] that fails later. Sleeping is left out.

    A check of the code of one thread ([checks]) is proved to be enough for any number
    of threads; three of the five programs do not pass it. *)
From S2P Require Import Prelude.

(** ** The machine *)

Inductive instr :=
  | lock
  | try_lock                    (* b = try_lock(), and the timed forms *)
  | unlock
  | unlock_if                   (* if(b) unlock() *)
  | adopt                       (* lock_guard lg(m, adopt_lock), which ends with unlock *)
  | store (k : nat) (v : Z)     (* shareddata[k] = v *)
  | show_data (k : nat)         (* cout << shareddata[k] *)
  | show (z : Z)                (* a line that is printed anyway *)
  | show_if (z : Z).            (* a line within if(b) *)

#[export] Instance instr_eq_dec : EqDecision instr.
Proof. solve_decision. Defined.

(** What is left to do, and the result [b] of the last [try_lock]. *)
Record thread := Thread { code : list instr; got : bool }.

(** Who holds the mutex and how many times; the array, the lines printed. *)
Record world := World { owner : option (nat * nat); data : list Z; output : list (nat * Z); threads : list thread }.

Definition start (cs : list (list instr)) : world := World None (replicate 11 0%Z) [] ((fun c => Thread c false) <$> cs).

(** [None]: the thread waits, or what is asked cannot happen. *)
Section machine.
Variable recursive : bool.

Definition release (i : nat) (o : option (nat * nat)) : outcome (option (nat * nat)) :=
  match o with
  | Some (j, S n) => if decide (j = i) then returns (match n with O => None | _ => Some (j, n) end) else undefined
  | _ => undefined
  end.

(** A [lock] or a [try_lock] that succeeds. *)
Definition acquire (i : nat) (o : option (nat * nat)) : option (outcome (option (nat * nat))) :=
  match o with
  | None => Some (returns (Some (i, 1)))
  | Some (j, n) => if decide (j = i) then Some (if recursive then returns (Some (i, S n)) else undefined) else None
  end.

Definition with_owner {A} (o : outcome A) (f : A -> world) : outcome world :=
  match o with returns a => returns (f a) | exits c => exits c | undefined => undefined end.

(** One operation of thread [i]; [b] is whether a [try_lock] succeeds. *)
Definition step (e : nat * bool) (w : world) : option (outcome world) :=
  let '(i, b) := e in
  t ← threads w !! i;
  match code t with
  | [] => None
  | c :: cs =>
      let go o d out g := World o d out (<[i := Thread cs g]> (threads w)) in
      let holds := match owner w with Some (j, _) => bool_decide (j = i) | None => false end in
      match c with
      | lock => r ← acquire i (owner w); Some (with_owner r (fun o => go o (data w) (output w) (got t)))
      | try_lock =>
          if holds && negb recursive then Some undefined
          else if b then r ← acquire i (owner w); Some (with_owner r (fun o => go o (data w) (output w) true))
          else Some (returns (go (owner w) (data w) (output w) false))
      | unlock => Some (with_owner (release i (owner w)) (fun o => go o (data w) (output w) (got t)))
      | unlock_if =>
          Some (if got t then with_owner (release i (owner w)) (fun o => go o (data w) (output w) (got t))
                else returns (go (owner w) (data w) (output w) (got t)))
      | adopt => Some (if holds then returns (go (owner w) (data w) (output w) (got t)) else undefined)
      | store k v => Some (match data w !! k with
                           | Some _ => returns (go (owner w) (<[k := v]> (data w)) (output w) (got t))
                           | None => undefined
                           end)
      | show_data k => Some (match data w !! k with
                             | Some v => returns (go (owner w) (data w) (output w ++ [(i, v)]) (got t))
                             | None => undefined
                             end)
      | show z => Some (returns (go (owner w) (data w) (output w ++ [(i, z)]) (got t)))
      | show_if z => Some (returns (go (owner w) (data w) (if got t then output w ++ [(i, z)] else output w) (got t)))
      end
  end.

Fixpoint run (es : list (nat * bool)) (w : world) : option (outcome world) :=
  match es with
  | [] => Some (returns w)
  | e :: es' => o ← step e w; match o with returns w' => run es' w' | _ => Some o end
  end.
End machine.

(** ** The programs *)

(** [for (index; index < 5; index++)]. *)
Definition rounds (n : nat) (f : nat -> list instr) : list instr := concat (f <$> seq 0 n).

(** [stl_16_4.cpp]; the line of a thread that ends is shown as -1. *)
Definition thread_proc : list instr :=
  rounds 5 (fun i => [try_lock; store (2 * i) (Z.of_nat (2 * i)); show_data (2 * i); unlock]) ++ [show (-1)].
Definition thread_proc2 : list instr :=
  rounds 5 (fun i => [try_lock; store (2 * i + 1) (Z.of_nat (2 * i + 1)); show_data (2 * i + 1); unlock]) ++ [show (-1)].

(** [stl_16_5.cpp], with a recursive mutex. *)
Definition thread_proc_5 : list instr :=
  rounds 5 (fun i => [try_lock; store (2 * i) 1; show_data (2 * i + 1); unlock]) ++ [show (-1)].
Definition thread_proc2_5 : list instr :=
  rounds 5 (fun i => [try_lock; store (2 * i + 1) 2; show_data (2 * i + 1); unlock]) ++ [show (-1)].

(** [stl_16_6.cpp], both jobs: [while(count--)] shows 4 down to 0. *)
Definition job_6 : list instr := rounds 5 (fun i => [try_lock; show (4 - Z.of_nat i); unlock_if]) ++ [show (-1)].

(** [stl_16_7.cpp], the three jobs; 0 stands for the line with the id. *)
Definition job_7 : list instr := rounds 6 (fun _ => [try_lock; show_if 0; unlock_if]).

(** [stl_16_8.cpp]. *)
Definition job1 : list instr := rounds 3 (fun _ => [lock; show 0; unlock]).
Definition job2 : list instr := lock :: rounds 3 (fun _ => [adopt; show 0; unlock]).

(** ** Checked code *)

(** What is known of the mutex: not held by the thread, held, held if [b]. The check may
    be [strict] or, for code without [lock], accept an [unlock] that does not look at
    [b]. *)
Inductive knows := not_held | held | held_if.

Definition after (strict : bool) (a : knows) (c : instr) : option knows :=
  match c, a with
  | lock, not_held => if strict then Some held else None
  | try_lock, not_held => Some held_if
  | unlock, held => Some not_held
  | unlock, held_if => if strict then None else Some not_held
  | unlock_if, held_if => Some not_held
  | adopt, held => Some held
  | store k _, _ | show_data k, _ => if decide (k < 11) then Some a else None
  | show _, _ | show_if _, _ => Some a
  | _, _ => None
  end.

Fixpoint checks (strict : bool) (a : knows) (cs : list instr) : bool :=
  match cs with
  | [] => match a with not_held => true | _ => false end
  | c :: cs' => match after strict a c with Some a' => checks strict a' cs' | None => false end
  end.

(** Which of the programs are checked. *)
Example checked_6_7_8 : checks true not_held job_6 = true /\ checks true not_held job_7 = true /\ checks true not_held job1 = true.
Proof. by vm_compute. Qed.
Example not_checked : Forall (fun c => checks true not_held c = false /\ checks false not_held c = true) [thread_proc; thread_proc2; thread_proc_5; thread_proc2_5] /\
  checks false not_held job2 = false.
Proof. split; [|done]. repeat constructor. Qed.

Section checked.
Context (rec strict : bool).

Definition agrees (i : nat) (o : option (nat * nat)) (g : bool) (a : knows) : Prop :=
  match a with
  | not_held => forall n, o <> Some (i, n)
  | held => o = Some (i, 1) /\ strict = true
  | held_if => if g then o = Some (i, 1) else forall n, o <> Some (i, n)
  end.

Record checked (w : world) : Prop := {
  ck_data : length (data w) = 11;
  ck_threads : forall i t, threads w !! i = Some t -> exists a, checks strict a (code t) = true /\ agrees i (owner w) (got t) a;
  ck_owner : forall i n, owner w = Some (i, n) -> is_Some (threads w !! i) }.

Lemma start_checked cs : Forall (fun c => checks strict not_held c = true) cs -> checked (start cs).
Proof.
  intros Hc. split; cbn; [done| |done]. intros i t (c & -> & Hi)%list_lookup_fmap_Some. exists not_held. split; [|done]. cbn. by eapply Forall_lookup_1 in Hc.
Qed.

Lemma other_agrees i j o o' g a :
  j <> i -> (o = o' \/ (o = None \/ exists n, o = Some (i, n)) /\ (o' = None \/ exists n, o' = Some (i, n))) ->
  agrees j o g a -> agrees j o' g a.
Proof.
  intros Hne [->|[Ho Ho']]; [done|]. assert (Hn : forall n, o <> Some (j, n)) by (intros n; destruct Ho as [->|[? ->]]; congruence).
  assert (Hn' : forall n, o' <> Some (j, n)) by (intros n; destruct Ho' as [->|[? ->]]; congruence).
  destruct a; cbn; [done|intros [H _]; by destruct (Hn 1)|]. destruct g; [intros H; by destruct (Hn 1)|done].
Qed.

Lemma goes i t cs g a o d out w :
  checked w -> threads w !! i = Some t -> length d = 11 -> checks strict a cs = true -> agrees i o g a ->
  (owner w = o \/ (owner w = None \/ exists n, owner w = Some (i, n)) /\ (o = None \/ exists n, o = Some (i, n))) ->
  checked (World o d out (<[i := Thread cs g]> (threads w))).
Proof.
  intros [Hd Ht Ho] Hi Hlen Hck Hag Hch. split; cbn; [done| |].
  - intros j u [(<- & <- & _)|[Hne Hj]]%list_lookup_insert_Some; [by exists a|]. destruct (Ht j u Hj) as (b & Hb & Hab). exists b. split; [done|].
    by eapply other_agrees.
  - intros j n Hj. destruct (decide (i = j)) as [<-|Hne]; [rewrite list_lookup_insert_eq by (by eapply lookup_lt_Some); by eexists|].
    rewrite list_lookup_insert_ne by done. destruct Hch as [<-|[_ [->|[m ->]]]]; [by eapply Ho|done|congruence].
Qed.

Lemma acquired i o : (forall n, o <> Some (i, n)) -> acquire rec i o = None \/ o = None /\ acquire rec i o = Some (returns (Some (i, 1))).
Proof. intros H. destruct o as [[j n]|]; [left|by right]. cbn. rewrite decide_False; [done|]. intros ->. by destruct (H n). Qed.

Lemma released i : release i (Some (i, 1)) = returns None.
Proof. cbn. by rewrite decide_True. Qed.

Lemma not_holding i (o : option (nat * nat)) : (forall n, o <> Some (i, n)) -> match o with Some (j, _) => bool_decide (j = i) | None => false end = false.
Proof. intros H. destruct o as [[j n]|]; [|done]. apply bool_decide_eq_false_2. intros ->. by destruct (H n). Qed.

(** The next operation of thread [i] is an [unlock] after a [try_lock] that failed. *)
Definition bad_unlock (i : nat) (w : world) : Prop :=
  exists t cs, threads w !! i = Some t /\ code t = unlock :: cs /\ got t = false.

(** One step of a checked world leads to a checked world, but for a bad [unlock]. *)
Lemma step_checked e w o : checked w -> step rec e w = Some o ->
  (exists w', o = returns w' /\ checked w') \/ o = undefined /\ strict = false /\ bad_unlock e.1 w.
Proof.
  destruct e as [i b]. intros Hw. pose proof Hw as [Hd Ht Ho]. cbn. destruct (threads w !! i) as [t|] eqn:Hi; [|done]. cbn.
  destruct (Ht i t Hi) as (a & Hck & Hag). destruct (code t) as [|c cs] eqn:Hcode; [done|]. cbn in Hck.
  destruct (after strict a c) as [a'|] eqn:Ha; [|done].
  assert (Hkeep : forall d out, length d = 11 -> checks strict a cs = true -> checked (World (owner w) d out (<[i := Thread cs (got t)]> (threads w)))).
  { intros d out Hl Hc. eapply goes; eauto. }
  assert (Hslot : forall k, k < 11 -> exists v, data w !! k = Some v) by (intros k Hk; apply lookup_lt_is_Some_2; lia).
  destruct c; cbn in Ha.
  - destruct a; simplify_eq. assert (strict = true /\ a' = held) as [Hst ->] by (destruct strict; by simplify_eq). destruct (acquired i (owner w) Hag) as [->|[Hn ->]]; [done|]. cbn. intros [= <-]. left. eexists. split; [done|].
    eapply goes; eauto; [by split|]. right. split; [by left|right; by eexists].
  - destruct a; simplify_eq. rewrite (not_holding i) by done. cbn. destruct b.
    + destruct (acquired i (owner w) Hag) as [->|[Hn ->]]; [done|]. cbn. intros [= <-]. left. eexists. split; [done|].
      eapply goes; eauto; [done|]. right. split; [by left|right; by eexists].
    + intros [= <-]. left. eexists. split; [done|]. eapply goes; eauto.
  - assert (Hfree : owner w = Some (i, 1) -> checks strict not_held cs = true -> exists w', with_owner (release i (owner w)) (fun o => World o (data w) (output w) (<[i := Thread cs (got t)]> (threads w))) = returns w' /\ checked w').
    { intros Hown Hc. rewrite Hown, released. cbn. eexists. split; [done|]. eapply goes; eauto; [by intros n|]. right. rewrite Hown. split; [right; by eexists|by left]. }
    destruct a; simplify_eq; cbn in Hag.
    + destruct Hag as [Hag _]. intros [= <-]. left. by apply Hfree.
    + assert (strict = false /\ a' = not_held) as [Hst ->] by (destruct strict; by simplify_eq). destruct (got t) eqn:Hg; intros [= <-]; [left; by apply Hfree|right].
      split; [|split; [done|]]; [|exists t, cs; by repeat split].
      destruct (owner w) as [[j [|n]]|]; [done| |done]. cbn. rewrite decide_False; [done|]. intros ->. by destruct (Hag (S n)).
  - destruct a; simplify_eq. cbn in Hag. destruct (got t) eqn:Hg.
    + rewrite Hag, released. cbn. intros [= <-]. left. eexists. split; [done|].
      eapply goes; eauto; [by intros n|]. right. rewrite Hag. split; [right; by eexists|by left].
    + intros [= <-]. left. eexists. split; [done|]. eapply goes; eauto.
  - destruct a; simplify_eq. destruct Hag as [Hag Hs]. assert (Hh : match owner w with Some (j, _) => bool_decide (j = i) | None => false end = true) by (rewrite Hag; by apply bool_decide_eq_true_2).
    rewrite Hh. intros [= <-]. left. eexists. split; [done|]. by apply Hkeep.
  - destruct (decide (k < 11)) as [Hk|]; [|done]. simplify_eq. destruct (Hslot k Hk) as [u Hu]. rewrite Hu. intros [= <-]. left. eexists. split; [done|].
    apply Hkeep; [by rewrite length_insert|done].
  - destruct (decide (k < 11)) as [Hk|]; [|done]. simplify_eq. destruct (Hslot k Hk) as [u Hu]. rewrite Hu. intros [= <-]. left. eexists. split; [done|]. by apply Hkeep.
  - simplify_eq. intros [= <-]. left. eexists. split; [done|]. by apply Hkeep.
  - simplify_eq. intros [= <-]. left. eexists. split; [done|]. by apply Hkeep.
Qed.

Lemma bad_unlock_undefined i b t cs w : checked w -> strict = false -> threads w !! i = Some t -> code t = unlock :: cs -> got t = false -> step rec (i, b) w = Some undefined.
Proof.
  intros Hw Hs Hi Hcode Hg. destruct (ck_threads _ Hw i t Hi) as (a & Hck & Hag). cbn. rewrite Hi. cbn. rewrite Hcode in *. f_equal.
  assert (Hn : forall n, owner w <> Some (i, n)).
  { destruct a; cbn in *; [done|destruct Hag; congruence|by rewrite Hg in Hag]. }
  destruct (owner w) as [[j [|n]]|]; [done| |done]. cbn. rewrite decide_False; [done|]. intros ->. by destruct (Hn (S n)).
Qed.

Definition left_to_do (w : world) : nat := sum_list ((fun t => length (code t)) <$> threads w).

(** What a step changes. *)
Lemma step_shape e w w' : step rec e w = Some (returns w') ->
  exists t c cs g, threads w !! e.1 = Some t /\ code t = c :: cs /\ threads w' = <[e.1 := Thread cs g]> (threads w) /\
    data w' = match c with store k v => <[k := v]> (data w) | _ => data w end.
Proof.
  destruct e as [i b]. cbn. destruct (threads w !! i) as [t|] eqn:Hi; [|done]. cbn. destruct (code t) as [|c cs] eqn:Hcode; [done|].
  intros Hs. exists t, c, cs. unfold with_owner in Hs. destruct c; try (destruct (acquire rec i (owner w)) as [[]|]; cbn [mbind option_bind] in Hs);
    repeat (case_match; try done); simplify_eq; by eexists.
Qed.

Lemma step_does e w w' : step rec e w = Some (returns w') -> left_to_do w = S (left_to_do w').
Proof.
  intros (t & c & cs & g & Hi & Hcode & Ht & _)%step_shape. unfold left_to_do. rewrite Ht.
  pose proof (weight_insert (fun t => length (code t)) _ _ t (Thread cs g) Hi) as Hm. cbn in Hm. rewrite Hcode in Hm. cbn in Hm. lia.
Qed.

(** Some thread can go on until all have come to their ends. *)
Lemma some_goes w : checked w -> left_to_do w <> 0 -> exists e o, step rec e w = Some o.
Proof.
  intros Hw Hl. pose proof Hw as [Hd Ht Ho].
  assert (Hgo : forall i t, threads w !! i = Some t -> code t <> [] -> (owner w = None \/ exists n, owner w = Some (i, n)) -> exists o, step rec (i, false) w = Some o).
  { intros i t Hi Hc How. cbn. rewrite Hi. cbn. destruct (code t) as [|c cs]; [done|]. destruct c; try by eexists.
    - destruct How as [->|[n ->]]; cbn; [by eexists|]. rewrite decide_True by done. cbn. by eexists.
    - by destruct (_ && _); eexists. }
  destruct (owner w) as [[i n]|] eqn:How.
  - destruct (Ho i n eq_refl) as [t Hi]. destruct (Ht i t Hi) as (a & Hck & Hag). destruct (code t) as [|c cs] eqn:Hc.
    + exfalso. cbn in Hck. destruct a; [|done..]. cbn in Hag. by destruct (Hag n).
    + exists (i, false). apply (Hgo i t Hi); [by rewrite Hc|right; by eexists].
  - destruct (decide (Exists (fun t => code t <> []) (threads w))) as [(t & [i Hi]%list_elem_of_lookup & Hc)%Exists_exists|Hn].
    + exists (i, false). apply (Hgo i t Hi Hc). by left.
    + destruct Hl. apply not_Exists_Forall in Hn; [|intros t; destruct (code t); [right|left]; naive_solver].
      unfold left_to_do. clear -Hn. induction Hn as [|t l H _ IH]; [done|]. rewrite fmap_cons. cbn. destruct (code t) eqn:E; [apply IH|]. destruct H. by rewrite E.
Qed.

Lemma free_at_end w : checked w -> left_to_do w = 0 -> owner w = None /\ forall i t, threads w !! i = Some t -> code t = [].
Proof.
  intros Hw Hz.
  assert (Hc : forall i t, threads w !! i = Some t -> code t = []).
  { intros i t Hi. apply length_zero_iff_nil. pose proof (weight_insert (fun t => length (code t)) _ i t (Thread [] false) Hi) as Hm.
    unfold left_to_do in Hz. cbn in Hm. lia. }
  split; [|done]. destruct (owner w) as [[i n]|] eqn:How; [|done]. destruct (ck_owner _ Hw i n How) as [t Hi].
  destruct (ck_threads _ Hw i t Hi) as (a & Hck & Hag). rewrite (Hc i t Hi) in Hck. destruct a; [|done..]. by destruct (Hag n).
Qed.

(** A run of a checked world. *)
Lemma run_checked es w o : checked w -> run rec es w = Some o ->
  (exists w', o = returns w' /\ checked w' /\ length es + left_to_do w' = left_to_do w) \/ o = undefined /\ strict = false.
Proof.
  revert w. induction es as [|e es IH]; intros w Hw; cbn [run].
  - intros [= <-]. left. by exists w.
  - destruct (step rec e w) as [o1|] eqn:Hs; [|done]. cbn [mbind option_bind].
    destruct (step_checked e w o1 Hw Hs) as [(w1 & -> & Hw1)|(-> & Hf & _)]; [|intros [= <-]; by right].
    intros Hr. destruct (IH w1 Hw1 Hr) as [(w' & Ho & Hw' & Hlen)|?]; [left|by right]. exists w'. split_and!; [done|done|]. apply step_does in Hs. cbn. lia.
Qed.

(** *** What is stored *)

(** Every operation that stores in slot [k] stores [f k], and where the slot has
    something else there is one to come. *)
Definition storing (f : nat -> Z) (w : world) : Prop :=
  (forall i t k v, threads w !! i = Some t -> store k v ∈ code t -> v = f k) /\
  forall k v, data w !! k = Some v -> v = f k \/ exists i t, threads w !! i = Some t /\ store k (f k) ∈ code t.

Lemma step_storing f e w w' : storing f w -> step rec e w = Some (returns w') -> storing f w'.
Proof.
  intros [Hf Hd] (t & c & cs & g & Hi & Hcode & Ht & Hdata)%step_shape. split.
  - intros j u k v Hj Hin. rewrite Ht in Hj. apply list_lookup_insert_Some in Hj as [(<- & <- & _)|[_ Hj]]; [|by eapply Hf].
    apply (Hf e.1 t); [done|]. rewrite Hcode. by right.
  - intros k v Hk.
    assert (Hpend : forall i u, threads w !! i = Some u -> store k (f k) ∈ code u -> (i = e.1 -> c <> store k (f k)) ->
      exists i t, threads w' !! i = Some t /\ store k (f k) ∈ code t).
    { intros i u Hu Hin Hne. rewrite Ht. destruct (decide (i = e.1)) as [->|Hni].
      - exists e.1, (Thread cs g). rewrite list_lookup_insert_eq by (by eapply lookup_lt_Some). split; [done|]. assert (u = t) as -> by congruence.
        rewrite Hcode in Hin. apply elem_of_cons in Hin as [Hin|]; [|done]. by destruct (Hne eq_refl).
      - exists i, u. by rewrite list_lookup_insert_ne. }
    assert (Hstore : c = store k (f k) -> v = f k).
    { intros ->. rewrite Hdata in Hk. apply list_lookup_insert_Some in Hk as [(_ & <- & _)|[? _]]; done. }
    destruct (decide (v = f k)) as [|Hne]; [by left|right].
    assert (Hold : data w !! k = Some v).
    { rewrite Hdata in Hk. destruct c; try done. apply list_lookup_insert_Some in Hk as [(-> & -> & _)|[_ Hk]]; [|done].
      destruct Hne. apply (Hf e.1 t k v Hi). rewrite Hcode. by left. }
    destruct (Hd k v Hold) as [|(i & u & Hu & Hin)]; [done|]. apply (Hpend i u Hu Hin). intros _ Hc. by apply Hne, Hstore.
Qed.

Lemma run_storing f es w w' : storing f w -> run rec es w = Some (returns w') -> storing f w'.
Proof.
  revert w. induction es as [|e es IH]; intros w Hw; cbn [run]; [congruence|]. destruct (step rec e w) as [o1|] eqn:Hs; [|done]. cbn [mbind option_bind].
  destruct o1 as [w1| |]; try done. apply IH. by eapply step_storing.
Qed.
End checked.

(** Threads whose code is checked, as many as one likes and in any interleaving: no
    operation is undefined (no mutex is unlocked or adopted by a thread that does not
    hold it, none is locked twice), the run is as long as the code at most and some
    thread can always go on; at the end nobody holds the mutex. *)
Theorem checked_threads rec cs es o :
  Forall (fun c => checks true not_held c = true) cs -> run rec es (start cs) = Some o ->
  exists w, o = returns w /\ length es + left_to_do w = sum_list (length <$> cs) /\
    (left_to_do w <> 0 -> exists e o', step rec e w = Some o') /\ (left_to_do w = 0 -> owner w = None).
Proof.
  intros Hcs Hr. destruct (run_checked rec true es _ o (start_checked true cs Hcs) Hr) as [(w & -> & Hw & Hl)|[_ ?]]; [|done]. exists w.
  split_and!; [done| |by apply (some_goes rec true)|intros Hz; by destruct (free_at_end true w Hw Hz)]. rewrite Hl. unfold left_to_do. cbn. by rewrite <- list_fmap_compose.
Qed.

(** Three threads of [stl_16_7.cpp] and two of [stl_16_6.cpp]. *)
Lemma checked_threads_witness :
  (exists w, run true [(0, true); (1, false); (0, true); (2, false)] (start [job_7; job_7; job_7]) = Some (returns w) /\ left_to_do w = 50) /\
  exists w, run false [(0, true); (1, false); (0, true); (1, true); (1, true); (0, true); (1, true)] (start [job_6; job_6]) = Some (returns w) /\ left_to_do w <> 0.
Proof.
  split.
  - destruct (checked_threads true [job_7; job_7; job_7] [(0, true); (1, false); (0, true); (2, false)] _ ltac:(by repeat constructor) eq_refl) as (w & Hw & Hl & _).
    exists w. split; [by rewrite <- Hw|]. cbn in Hl. lia.
  - destruct (checked_threads false [job_6; job_6] [(0, true); (1, false); (0, true); (1, true); (1, true); (0, true); (1, true)] _ ltac:(by repeat constructor) eq_refl) as (w & Hw & Hl & _).
    exists w. split; [by rewrite <- Hw|]. cbn in Hl. lia.
Defined.

(** ** The unchecked programs *)

(** What the slots are given in [stl_16_4.cpp] and in [stl_16_5.cpp]. *)
Definition stored (prog5 : bool) (k : nat) : Z :=
  if decide (k = 10) then 0%Z else if prog5 then (if Nat.even k then 1 else 2)%Z else Z.of_nat k.

Definition sharers (prog5 : bool) : list (list instr) := if prog5 then [thread_proc_5; thread_proc2_5] else [thread_proc; thread_proc2].

Definition stores_ok (f : nat -> Z) (c : instr) : bool := match c with store k v => bool_decide (v = f k) | _ => true end.
Definition stores_at (k : nat) (c : instr) : bool := match c with store k' _ => bool_decide (k = k') | _ => false end.

Lemma start_storing prog5 : storing (stored prog5) (start (sharers prog5)).
Proof.
  assert (Hok : Forall (fun c => forallb (stores_ok (stored prog5)) c = true) (sharers prog5)) by (destruct prog5; repeat constructor).
  split.
  - intros i t k v (c & -> & Hi)%list_lookup_fmap_Some Hin. cbn in Hin. apply (Forall_lookup_1 _ _ _ _ Hok) in Hi. cbn in Hi. rewrite forallb_forall in Hi.
    specialize (Hi (store k v) ltac:(by apply list_elem_of_In)). cbn in Hi. by apply bool_decide_eq_true in Hi.
  - intros k v [-> Hk]%lookup_replicate. destruct (decide (k = 10)) as [->|Hne]; [left; by destruct prog5|right].
    assert (Hin : bool_decide (store k (stored prog5 k) ∈ nth (k mod 2) (sharers prog5) []) = true).
    { do 10 (destruct k as [|k]; [by destruct prog5; vm_compute|]). lia. }
    exists (k mod 2), (Thread (nth (k mod 2) (sharers prog5) []) false). split; [|by apply bool_decide_eq_true in Hin].
    do 10 (destruct k as [|k]; [by destruct prog5|]). lia.
Qed.

(** The two threads of [stl_16_4.cpp] and of [stl_16_5.cpp], in any interleaving and
    whatever the [try_lock]s give: until something undefined happens some thread can
    go on; when both are through, each slot has its value and the mutex is free. What is undefined is
    the [unlock] after a [try_lock] that failed, whose result nobody looks at, and
    such an [unlock] is always undefined. *)
Theorem unchecked_unlock prog5 es o :
  run prog5 es (start (sharers prog5)) = Some o ->
  o = undefined \/ exists w, o = returns w /\
    (forall i b, step prog5 (i, b) w = Some undefined <->
       exists t cs, threads w !! i = Some t /\ code t = unlock :: cs /\ got t = false) /\
    (left_to_do w <> 0 -> exists e o', step prog5 e w = Some o') /\
    (left_to_do w = 0 -> owner w = None /\ data w = (stored prog5 <$> seq 0 11)).
Proof.
  assert (Hc : Forall (fun c => checks false not_held c = true) (sharers prog5)) by (destruct prog5; by repeat constructor).
  intros Hr. destruct (run_checked prog5 false es _ o (start_checked false _ Hc) Hr) as [(w & -> & Hw & _)|[-> _]]; [right|by left].
  exists w. split; [done|]. split_and!.
  - intros i b. split.
    + intros Hs. destruct (step_checked prog5 false (i, b) w _ Hw Hs) as [(? & ? & _)|(_ & _ & t & cs & Hi & Hcode & Hg)]; [done|by exists t, cs].
    + intros (t & cs & Hi & Hcode & Hg). by eapply (bad_unlock_undefined prog5 false).
  - by apply (some_goes prog5 false).
  - intros Hz. destruct (free_at_end false w Hw Hz) as [Ho Hend]. split; [done|].
    pose proof (run_storing prog5 (stored prog5) es _ w (start_storing prog5) Hr) as [_ Hd].
    apply list_eq. intros k. destruct (data w !! k) as [v|] eqn:Hk.
    + assert (Hlt : k < 11) by (apply lookup_lt_Some in Hk; rewrite (ck_data _ _ Hw) in Hk; done).
      destruct (Hd k v Hk) as [->|(i & t & Hi & Hin)]; [|rewrite (Hend i t Hi) in Hin; by apply elem_of_nil in Hin].
      rewrite list_lookup_fmap, lookup_seq_lt by done. done.
    + symmetry. apply lookup_ge_None. apply lookup_ge_None in Hk. by rewrite (ck_data _ _ Hw) in Hk.
Qed.

(** One thread holds the mutex while the other fails, goes on and unlocks. *)
Lemma unchecked_unlock_witness :
  run false [(0, true); (1, false); (1, true); (1, true); (1, true)] (start (sharers false)) = Some undefined /\
  exists w, run true ((fun i => (i, true)) <$> replicate 21 0 ++ replicate 21 1) (start (sharers true)) = Some (returns w) /\
    owner w = None /\ data w = (stored true <$> seq 0 11).
Proof.
  split; [vm_compute; reflexivity|].
  assert (Hr : exists w, run true ((fun i => (i, true)) <$> replicate 21 0 ++ replicate 21 1) (start (sharers true)) = Some (returns w) /\ left_to_do w = 0).
  { eexists. split; [vm_compute; reflexivity|]. vm_compute. reflexivity. }
  destruct Hr as (w & Hr & Hz). exists w. split; [exact Hr|].
  destruct (unchecked_unlock true _ _ Hr) as [H|(w' & H & _ & _ & Hend)]; [discriminate H|]. injection H as <-. exact (Hend Hz).
Defined.

(** ** The adopted mutex *)

(** The threads of [stl_16_8.cpp] have come to operation [n] and [m] of their code. *)
Definition adopting (w : world) (n m : nat) : Prop :=
  threads w = [Thread (drop n job1) false; Thread (drop m job2) false] /\ n <= 9 /\ m <= 4 /\
  owner w = (if decide (n mod 3 <> 0) then Some (0, 1) else if decide (m <> 0 /\ m <> 4) then Some (1, 1) else None) /\
  (n mod 3 <> 0 -> m = 0 \/ m = 4) /\ length (filter (fun l => l.1 = 1) (output w)) = (if decide (m < 3) then 0 else 1).

Lemma step_adopting e w o n m : adopting w n m -> step false e w = Some o ->
  (o = undefined /\ e.1 = 1 /\ m = 4) \/ exists w' n' m', o = returns w' /\ adopting w' n' m'.
Proof.
  destruct w as [ow da ou th]. intros (Hth & Hn & Hm & Ho & Hex & Hout). cbn in *. subst th. destruct e as [i b].
  destruct i as [|[|i]]; [| |done]; cbn.
  - assert (Hc : In n (seq 0 10)) by (apply in_seq; lia). cbn in Hc.
    assert (exists k, k = S n) as [k Hk] by by eexists. clear Hn. destruct_or! Hc; try done; subst n; [..|done].
    all: first [rewrite decide_True in Ho by done; destruct (Hex ltac:(done)) as [Em|Em]|rewrite decide_False in Ho by (intros H; by apply H); destruct (decide (m <> 0 /\ m <> 4)) as [H1|H1]];
      subst ow; cbn; try (first [rewrite decide_True by done|rewrite decide_False by done]; cbn); intros [= <-]; right; eexists; exists k, m; (split; [done|]); subst k.
    all: unfold adopting; cbn; rewrite ?filter_app, ?app_nil_r; split_and!; try done; try lia; try (intros; tauto); by rewrite Em.
  - assert (Hc : In m (seq 0 5)) by (apply in_seq; lia). cbn in Hc.
    assert (exists k, k = S m) as [k Hk] by by eexists. clear Hm. destruct_or! Hc; try done; subst m.
    all: destruct (decide (n mod 3 <> 0)) as [Hn3|Hn3]; [try destruct (Hex Hn3); try done|]; cbn in Ho; subst ow; cbn; try (first [rewrite decide_True by done|rewrite decide_False by done]; cbn); intros [= <-].
    all: try (by left); right; eexists; exists n, k; (split; [done|]); subst k.
    all: unfold adopting; cbn -[Nat.modulo]; rewrite ?filter_app, ?length_app; split_and!; try done; try lia; first [by rewrite decide_False by tauto|by rewrite Hout].
Qed.

(** The second thread of [stl_16_8.cpp] locks once and adopts three times: in every run
    it shows its line once at most and never ends; the only undefined operation is its
    second [lock_guard], which adopts a mutex it no longer holds. *)
Theorem adopted_once es w : run false es (start [job1; job2]) = Some (returns w) ->
  length (filter (fun l => l.1 = 1) (output w)) <= 1 /\
  (forall t, threads w !! 1 = Some t -> code t <> []) /\
  forall e, step false e w = Some undefined -> e.1 = 1 /\ exists t, threads w !! 1 = Some t /\ code t = drop 4 job2.
Proof.
  assert (H : forall es w0 n m, adopting w0 n m -> run false es w0 = Some (returns w) -> exists n m, adopting w n m).
  { clear es. intros es. induction es as [|e es IH]; intros w0 n m Hw; cbn [run]; [intros [= <-]; by exists n, m|].
    destruct (step false e w0) as [o|] eqn:Hs; [|done]. cbn [mbind option_bind].
    destruct (step_adopting e w0 o n m Hw Hs) as [(-> & _)|(w1 & n' & m' & -> & Hw1)]; [done|]. by apply (IH w1 n' m'). }
  intros Hr. destruct (H es (start [job1; job2]) 0 0 ltac:(unfold adopting; split_and!; [done|lia|lia|done|by intros []|done]) Hr) as (n & m & Hw). pose proof Hw as (Hth & _ & Hm & _ & _ & Hout).
  rewrite Hth, Hout. split_and!; [by case_decide; lia| |].
  - intros t [= <-]. cbn -[job2]. do 5 (destruct m as [|m]; [done|]). lia.
  - intros e He. destruct (step_adopting e w _ n m Hw He) as [(_ & ? & ->)|(? & ? & ? & ? & _)]; [|done]. split; [done|]. by eexists.
Qed.

Lemma adopted_once_witness : exists w, run false [(1, true); (1, true); (1, true); (1, true)] (start [job1; job2]) = Some (returns w) /\
  length (filter (fun l => l.1 = 1) (output w)) <= 1 /\ step false (1, true) w = Some undefined.
Proof.
  assert (H : exists w, run false [(1, true); (1, true); (1, true); (1, true)] (start [job1; job2]) = Some (returns w) /\ step false (1, true) w = Some undefined).
  { eexists. split; [vm_compute; reflexivity|]. vm_compute. reflexivity. }
  destruct H as (w & Hr & Hs). exists w. split; [exact Hr|]. split; [apply (adopted_once _ w Hr)|exact Hs].
Defined.
